(* ===== verification/_CoqProject ===== *)
-Q . S2P
Prelude.v
Fair.v
GoStrings.v
GoInt.v
GoErrors.v
Sha256.v
Domain.v
GoFloat.v
GoTime.v
Ports.v
Batches.v
Json.v
GoFlag.v
MetricsJson.v
Http.v
Middlewares.v
Collector.v
Util.v
Memory.v
MemoryConc.v
Agent.v
Observer.v
Service.v
ServiceSpec.v
Handlers.v
HandlersSpec.v
AuditQueue.v
AuditLive.v
FilePersister.v
Retry.v
HttpClient.v
Config.v
GzipPayload.v
EndToEnd.v
Link.v
AgentProcess.v
AgentServer.v
System.v
AuditSinks.v
Postgres.v
PgConn.v
PostgresSpec.v
Server.v
ServerProcess.v
Pool.v
AccessLog.v
AgentMain.v
StaticLint.v
ResetGen.v
ResetSem.v
ResetRun.v
ResetSpec.v
