(* ===== verification/Prelude.v ===== *)
(** * Golectra: a verification development

    Golectra collects runtime and system metrics on one side (cmd/agent) and keeps
    them on the other (cmd/server); cmd/reset generates Go code and cmd/staticlint
    checks it.  This library models the Go code under src/ as Rocq definitions and
    proves what it promises.  Definitions carry the names of the source; each file
    opens with the Go files it models.

    ** The program and its files

    The language and its library.  [GoStrings], [GoInt], [GoFloat], [GoTime],
    [GoFlag] and [Json] write out what the program uses of strings, strconv, time,
    flag and encoding/json, with the lemmas that printing and parsing are inverse;
    integers have 64 bits and wrap around, floats are their IEEE 754 bits, strings
    are bytes.  [GoErrors] has errors with their chains, and contexts.  [Sha256] is
    crypto/sha256 with internal/misc/hash.go.

    Domain and ports.  [Domain] and [Ports] are internal/domain and internal/ports:
    metrics, snapshots, and the repository interface as the class [MetricsRepo] whose
    laws [RepoLaws] say what a repository promises; [put] and [put_all] are the
    abstract specification of storing.  [Batches] turns snapshots into batches and
    [MetricsJson] is their JSON.

    The agent.  [Collector] samples metrics with two goroutines over one state;
    [Agent] is the reporting loop with its queue and senders, as a step relation;
    [HttpClient] is the client that signs, compresses and retries ([Retry]), and
    [GzipPayload] the buffer pools the senders share.  [AgentProcess] is the whole
    process, samplers, senders and the main goroutine with the signal, as a labelled
    step relation; [AgentMain] is what comes before it in cmd/agent.

    The server.  [Memory] is the in-memory repository and [MemoryConc] its calls
    interleaved under the lock; [Postgres], [PgConn] and [PostgresSpec] are the
    database repository with transactions, lost replies and retries, a connection to
    run it on, and its theorems.  [Service] and [ServiceSpec] are internal/services/
    metrics over any repository; [AuditQueue] is its event queue, [AuditLive] the queue
    in executions without end, [Observer] the fan-out of pkg/observer and
    [AuditSinks] the file and HTTP sinks.  [Http],
    [Middlewares], [AccessLog], [Handlers] and [HandlersSpec] are the HTTP layer with
    gin's router as a parameter.  [FilePersister] writes and reads snapshot files
    over a disk whose calls may fail.  [Config] loads both configurations,
    [Server] assembles the process, and [ServerProcess] is the process at work:
    requests, the periodic save and the audit goroutine interleaved call by call.

    Both together.  [EndToEnd] joins client and server, [Link] puts a network between
    them that may lose requests and replies, [AgentServer] adds the agent's senders and
    [System] the agent's process.  [Fair] has executions
    that go on for ever, fair schedulers, and the rule by which something happens
    eventually; [AgentProcess] and [AuditLive] use it.

    The tools.  [ResetGen] writes the Reset methods as statements with their text,
    [ResetSem] runs the statements on trees of values, [ResetRun] is the pass over the
    packages and [ResetSpec] its theorems.  [StaticLint] is the analyzer osexitmain.
    [Pool] is the pool of internal/misc.

    ** Interfaces

    A client is proved against a class and the implementation discharges it:
    [MetricsRepo] with [RepoLaws] (Memory, and Postgres on a connection that is
    [Reliable]), [Publisher] (what the agent's senders use; [http_publisher] is the client),
    [Transport] and [NetURL] (net/http and net/url), [Gzip] (compressing is undone by
    decompressing), [Gin], [Binding] and [GinRouter] (the framework), [SqlDB] with
    [SqlLaws] (database/sql: a failed write took effect or not), [FileSystem] with
    [FileLaws] and [AppendFile] (package os), [Timing] with [TimingLaws] (timers and
    contexts), [Migrations] (goose).  The server as a [Transport] refuses a request
    whose context is done, as net/http does.  Every class has a concrete instance, and the
    witnesses run the definitions on it.

    ** What is proved

    From one end to the other: when the agent has ended, the server holds what the
    calls of its senders brought it, each between no and four times, at least once if it
    returned nil and exactly once over a network without faults; nothing is sent after
    the signal, and of the reports submitted by then at most three per sender had no call
    that returned ([system_delivers]); a batch the client sends over such a network is in the repository
    when the call returns nil ([SendBatch_stored]); a batch of a request that runs alone
    survives a restart, unless the log says that saving or restoring failed
    ([batch_survives_restart]); killed between any two calls, the server leaves the old
    snapshot file or a whole one ([crash_recovers]); the audit log holds the events
    notified ([audit_log_complete]).

    What happens in the end: the agent exits after the signal ([agent_exits]) and
    every accepted audit event is published ([audit_published]), under a fair scheduler.

    Storing: [Upsert_spec] and [UpsertBatch_spec] on every branch and any repository;
    [UpdateMany_atomic], [AddCounter_counts] and [repos_agree] for Postgres, where a lost
    reply may have a batch applied again; [calls_atomic] (linearizability: every call
    takes effect between its beginning and its return) and [calls_terminate] for
    concurrent calls in memory;
    [Save_atomic] and [Save_Restore] for the file.

    The agent: [agent_drains], [reports_valid], [collector_snapshot], [doGzJSON_spec],
    [payloads_intact] (up to the release of the payload; [late_read] shows what a request
    that net/http still reads then may send), [Retry_spec].

    HTTP: [HashSHA256_guard] (requests with a digest and a body), [GzipResponse_transparent],
    [access_log_true] (with the one case where the size is wrong, gin's page for an unknown
    path), the statuses and round trips of the endpoints.

    Settings: [env_wins], [flags_hold], [LoadServerConfig_valid], [startup_spec].

    Tools: [generated_method_resets] with [method_terminates], [imports_ok],
    [processPackages_spec], [run_spec].

    Some theorems state behaviour one would not expect, as the code has it: a report
    whose reply is lost counts twice ([batch_repeated]) and so does a retried increment,
    a second run of cmd/reset deletes what the first wrote ([runs_alternate]), an interval
    wraps around, an event of a finished request is not delivered, reports in the queue
    are lost at shutdown, a value in the path is stored whatever its digest, one gauge
    that is no number empties the snapshot page, and two concurrent batches may leave the
    file behind the repository ([stale_file]).

    ** Bounds and fuel

    Loops of the source that are not structural take fuel.  Printing an integer has 20
    digits, enough for 64 bits; JSON is parsed with a fuel of its length and to Go's
    depth of 10000; the search for shortest float digits is bounded and
    [shortest_reads] holds for every finite float; trimming and walking up
    directories take the length of the text.  [Retry] recurses over its delays.  The
    generator's recursion has no bound in the source: the model returns [None] when
    fuel runs out, and [method_terminates] says for which structs some fuel is enough
    and for which none is.  Goroutines are step relations, with termination proved
    by a measure, by a schedule that must be finite, or for every fair schedule.  A
    save makes at most seven calls ([save_steps_Save]).

    ** Not modelled, and why

    Third-party code (gin, zap, goose, pgx, gopsutil, the analysis framework) and the
    network stack are parameters, as documented.  The contents of runtime.MemStats
    and gopsutil's answers are arbitrary values.  HTML and usage texts are kept only
    as far as a theorem needs them.  Listening for connections and building the zap
    logger are parameters with the error they return; the timeouts of the listener
    are only recorded.  A call of the client, with its retries and waits, is one step of
    its sender, so other senders are not served during its waits ([quiet_waits]); what the
    network does to each request is a list chosen freely ([Link.fault]); at the signal the
    calls under way ([late] in [system_delivers]) may still reach the server.  The
    client of [HttpClient] takes the payload of a call for a value, which
    [payloads_intact] justifies for reads before its release.  A server that is killed keeps what the operating system was told,
    as long as the machine runs: the code never calls fsync.  Most log lines of
    package log are left out; so are the Go memory model below locks and channels, struct tags and embedded
    fields of literal types in cmd/reset, and generic structs there.  Tests and
    benchmarks are not part of the program. *)

From stdpp Require Export base gmap strings list sorting.
From stdpp Require Import options.
From Stdlib Require Export ZArith Lia.
From Stdlib Require Ascii String.
Export Stdlib.Strings.Ascii (ascii(..), ascii_of_N, N_of_ascii, ascii_N_embedding,
  N_ascii_embedding, N_ascii_bounded).
Export (notations) Stdlib.Strings.Ascii.

(** ** Scope and automation *)

Declare Scope go_scope.
Delimit Scope go_scope with go.
Open Scope go_scope.
#[export] Set Default Proof Using "Type".
#[export] Set Warnings "-clear-no-such-hyp".

(** [golectra] collects the lemmas that close the routine side conditions of
    the components; [golectra_rw] the equations that [autorewrite] applies. *)
Create HintDb golectra discriminated.
Create Rewrite HintDb golectra_rw.

(** Let [lia] reason about [/] and [mod]. *)
Ltac Zify.zify_post_hook ::= Z.to_euclidean_division_equations.

(** Split the first [match] or [if] the goal (or a hypothesis) is stuck on. *)
Ltac split_match :=
  match goal with
  | |- context [match ?x with _ => _ end] => destruct x eqn:?
  | H : context [match ?x with _ => _ end] |- _ => destruct x eqn:?
  end.

(** Case analysis until every branch computes, then equations and arithmetic. *)
Ltac crush_cases :=
  repeat first [progress simplify_eq/= | split_match]; eauto with golectra; try lia.

(** Unfold the head of a boolean test on strings into an (in)equality. *)
Ltac str_decide :=
  repeat match goal with
  | |- context [bool_decide ?P] => destruct (bool_decide_reflect P); simplify_eq/=
  | H : context [bool_decide ?P] |- _ => destruct (bool_decide_reflect P); simplify_eq/=
  end.

(** ** Results

    A Go function that returns [(T, error)] is a function into [result E T]:
    [Err e] is a non-nil error, and [Ok v] the value with a nil error. *)
Inductive result (E A : Type) : Type :=
  | Ok (a : A)
  | Err (e : E).
Arguments Ok {E A} _.
Arguments Err {E A} _.

#[export] Instance result_eq_dec {E A} `{EqDecision E, EqDecision A} :
  EqDecision (result E A).
Proof. solve_decision. Defined.

Definition is_ok {E A} (r : result E A) : bool :=
  match r with Ok _ => true | Err _ => false end.

Definition result_map {E A B} (f : A → B) (r : result E A) : result E B :=
  match r with Ok a => Ok (f a) | Err e => Err e end.

Definition result_bind {E A B} (f : A → result E B) (r : result E A) : result E B :=
  match r with Ok a => f a | Err e => Err e end.

(** ** Stateful calls

    [io W E A] is a call that may change the world [W] and fails with an [E].
    [io_bind] is the shape of [v, err := f(); if err != nil { return err }],
    [io_case] the shape of a call whose error is inspected and not returned. *)
Definition io (W E A : Type) : Type := W → result E A * W.

Definition io_ret {W E A} (a : A) : io W E A := λ w, (Ok a, w).
Definition io_fail {W E A} (e : E) : io W E A := λ w, (Err e, w).

Definition io_bind {W E A B} (m : io W E A) (k : A → io W E B) : io W E B :=
  λ w, match m w with
       | (Ok a, w') => k a w'
       | (Err e, w') => (Err e, w')
       end.

Definition io_case {W E E' A B} (m : io W E A) (k : result E A → io W E' B) : io W E' B :=
  λ w, let '(r, w') := m w in k r w'.

Notation "'let!' x ':=' m 'in' k" := (io_bind m (λ x, k))
  (at level 10, x binder, m at level 100, k at level 200) : go_scope.
Notation "'let?' x ':=' m 'in' k" := (io_case m (λ x, k))
  (at level 10, x binder, m at level 100, k at level 200) : go_scope.

Lemma io_bind_ok {W E A B} (m : io W E A) (k : A → io W E B) w a w' :
  m w = (Ok a, w') → io_bind m k w = k a w'.
Proof. intros H. unfold io_bind. by rewrite H. Qed.

Lemma io_bind_err {W E A B} (m : io W E A) (k : A → io W E B) w e w' :
  m w = (Err e, w') → io_bind m k w = (Err e, w').
Proof. intros H. unfold io_bind. by rewrite H. Qed.

Lemma io_bind_inv {W E A B} (m : io W E A) (k : A → io W E B) w r w'' :
  io_bind m k w = (r, w'') →
  (∃ a w', m w = (Ok a, w') ∧ k a w' = (r, w'')) ∨
  (∃ e, m w = (Err e, w'') ∧ r = Err e).
Proof. unfold io_bind. destruct (m w) as [[a|e] w'] eqn:Hm; naive_solver. Qed.

Lemma io_bind_assoc {W E A B C} (m : io W E A) (f : A → io W E B) (g : B → io W E C) w :
  io_bind (io_bind m f) g w = io_bind m (λ a, io_bind (f a) g) w.
Proof. unfold io_bind. by destruct (m w) as [[a|e] w']. Qed.

(** ** Reachability

    Runs of a step relation, for the components that are state machines. *)
Section runs.
Context {S : Type} (step : S → S → Prop).

Lemma rtc_invariant (I : S → Prop) :
  (∀ x y, I x → step x y → I y) → ∀ x y, rtc step x y → I x → I y.
Proof. intros Hstep x y Hxy. induction Hxy; eauto. Qed.
End runs.

(** ** Lists *)

Lemma fold_left_invariant {A B} (f : B → A → B) (I : B → Prop) l b :
  I b → (∀ b a, a ∈ l → I b → I (f b a)) → I (fold_left f l b).
Proof.
  revert b. induction l as [|a l IH]; intros b Hb Hstep; simpl; [done|].
  apply IH; [apply Hstep; [left|done]|]. intros b' a' Ha. apply Hstep. by right.
Qed.

Lemma fold_left_ext {A B} (f g : B → A → B) l b :
  (∀ b a, a ∈ l → f b a = g b a) → fold_left f l b = fold_left g l b.
Proof.
  revert b. induction l as [|a l IH]; intros b Hfg; simpl; [done|].
  rewrite Hfg by left. apply IH. intros b' a' Ha. apply Hfg. by right.
Qed.
