(* ===== verification/Fair.v ===== *)
(** * Executions and fairness

    Goroutines run for as long as the process does, so "it ends" is a statement
    about infinite executions of a labelled step relation.  A role is a goroutine;
    the scheduler is fair to it if it does not leave it enabled for ever.  The rule
    below proves that something happens by a measure. *)

From S2P Require Import Prelude.

Module Fair.

Section fair.
Context {S L R : Type} (step : L → S → S → Prop) (role : L → option R).

(** An execution takes a step at every instant; where nothing happens the label is
    one without a role. *)
Definition execution (s0 : S) (σ : nat → S) (ρ : nat → L) : Prop :=
  σ 0%nat = s0 ∧ ∀ n, step (ρ n) (σ n) (σ (n + 1)%nat).

Definition enabled (r : R) (s : S) : Prop := ∃ l s', role l = Some r ∧ step l s s'.

(** Weak fairness: whoever could go on does so, or comes to a wait. *)
Definition fair (σ : nat → S) (ρ : nat → L) : Prop :=
  ∀ r n, enabled r (σ n) → ∃ k, (n ≤ k)%nat ∧ (role (ρ k) = Some r ∨ ¬ enabled r (σ k)).

Lemma execution_invariant (P : S → Prop) s0 σ ρ :
  execution s0 σ ρ → P s0 → (∀ l s s', P s → step l s s' → P s') → ∀ n, P (σ n).
Proof.
  intros [H0 Hs] HP Hstep n. induction n as [|n IH]; [by rewrite H0|].
  rewrite <- Nat.add_1_r. by eapply Hstep.
Qed.

(** The first step of any role at or after [n] and before [k], if there is one. *)
Lemma first_move (ρ : nat → L) n d :
  (∃ j, (n ≤ j < n + d)%nat ∧ role (ρ j) ≠ None ∧ ∀ i, (n ≤ i < j)%nat → role (ρ i) = None) ∨
  (∀ i, (n ≤ i < n + d)%nat → role (ρ i) = None).
Proof.
  induction d as [|d [(j & ? & ? & ?)|IH]].
  - right. lia.
  - left. exists j. split; [lia|done].
  - destruct (role (ρ (n + d)%nat)) as [r|] eqn:Hr.
    + left. exists (n + d)%nat. split; [lia|]. split; [by rewrite Hr|]. intros i Hi. apply IH. lia.
    + right. intros i Hi. destruct (decide (i = n + d)%nat) as [->|]; [done|]. apply IH. lia.
Qed.

Section progress.
Context (σ : nat → S) (ρ : nat → L) (goal : S → Prop) (m : S → nat) (N : nat).
Context (is_fair : fair σ ρ).
(** From [N] on, before the goal, every move uses up some of the measure, ... *)
Context (moves : ∀ k, (N ≤ k)%nat → role (ρ k) ≠ None →
  goal (σ k) ∨ (m (σ (k + 1)%nat) < m (σ k))%nat).
(** ... the other steps add nothing to it and stop nobody, ... *)
Context (others : ∀ k, (N ≤ k)%nat → role (ρ k) = None →
  (m (σ (k + 1)%nat) ≤ m (σ k))%nat ∧ ∀ r, enabled r (σ k) → enabled r (σ (k + 1)%nat)).
(** ... and before the goal somebody can go on. *)
Context (alive : ∀ k, (N ≤ k)%nat → goal (σ k) ∨ ∃ r, enabled r (σ k)).

Lemma others_keep n d : (N ≤ n)%nat → (∀ i, (n ≤ i < n + d)%nat → role (ρ i) = None) →
  (m (σ (n + d)%nat) ≤ m (σ n))%nat ∧ ∀ r, enabled r (σ n) → enabled r (σ (n + d)%nat).
Proof using others.
  intros Hn. induction d as [|d IH]; intros Hq; [by rewrite Nat.add_0_r|].
  destruct IH as [Hm He]; [intros; apply Hq; lia|].
  destruct (others (n + d)%nat) as [Hm' He']; [lia|apply Hq; lia|].
  rewrite <- Nat.add_assoc, Nat.add_1_r in Hm', He'. split; [lia|auto].
Qed.

(** Then the goal is reached. *)
Lemma eventually : ∃ k, (N ≤ k)%nat ∧ goal (σ k).
Proof using is_fair moves others alive.
  assert (∀ x n, (N ≤ n)%nat → m (σ n) = x → ∃ k, (n ≤ k)%nat ∧ goal (σ k)) as Hall.
  { intros x. induction (lt_wf x) as [x _ IH]. intros n Hn Hx.
    destruct (alive n Hn) as [?|[r He]]; [by exists n|].
    destruct (is_fair r n He) as (k & Hk & Hend).
    destruct (first_move ρ n (k - n + 1)) as [(j & Hj & Hrole & Hq)|Hq].
    - destruct (others_keep n (j - n)) as [Hle _]; [done|intros; apply Hq; lia|].
      replace (n + (j - n))%nat with j in Hle by lia.
      destruct (moves j ltac:(lia) Hrole) as [?|Hlt]; [exists j; split; [lia|done]|].
      destruct (IH (m (σ (j + 1)%nat)) ltac:(lia) (j + 1)%nat ltac:(lia) eq_refl) as (k' & ? & ?).
      exists k'. split; [lia|done].
    - destruct Hend as [Hr|Hno]; [rewrite Hq in Hr by lia; done|]. destruct Hno.
      destruct (others_keep n (k - n)) as [_ Hk']; [done|intros; apply Hq; lia|].
      replace (n + (k - n))%nat with k in Hk' by lia. auto. }
  by eapply Hall.
Qed.
End progress.
End fair.

(** ** Finite runs as executions that stay where they end *)
Section finite.
Context {S L R : Type} (step : L → S → S → Prop) (role : L → option R) (idle : L).
Context (idle_step : ∀ s, step idle s s) (idle_role : role idle = None).

(** A run: the label and the state after it, step by step. *)
Fixpoint run_ok (s : S) (run : list (L * S)) : Prop :=
  match run with
  | [] => True
  | (l, s') :: run => step l s s' ∧ run_ok s' run
  end.

Definition states (s : S) (run : list (L * S)) (n : nat) : S :=
  nth n (s :: run.*2) (List.last (run.*2) s).
Definition labels (run : list (L * S)) (n : nat) : L := nth n run.*1 idle.

(** Building a run step by step. *)
Definition reaches (s : S) (P : S → Prop) : Prop := ∃ run, run_ok s run ∧ P (List.last run.*2 s).

Lemma reaches_here s (P : S → Prop) : P s → reaches s P.
Proof. intros HP. by exists []. Qed.

Lemma last_cons (s s' : S) l : List.last (s' :: l) s = List.last l s'.
Proof.
  revert s s'. induction l as [|x l IH]; intros s s'; [done|].
  change (List.last (s' :: x :: l) s) with (List.last (x :: l) s). by rewrite !IH.
Qed.

Lemma reaches_step l s s' (P : S → Prop) : step l s s' → reaches s' P → reaches s P.
Proof.
  intros Hs (run & Hr & HP). exists ((l, s') :: run). split; [done|]. by rewrite fmap_cons, last_cons.
Qed.

Lemma states_end s run n : (length run ≤ n)%nat → states s run n = List.last run.*2 s.
Proof.
  intros Hn. unfold states. destruct (decide (n = length run)) as [->|?].
  - clear Hn. revert s. induction run as [|[l s'] run IH]; intros s; [done|].
    rewrite fmap_cons, last_cons. apply IH.
  - apply nth_overflow. simpl. rewrite length_map. lia.
Qed.

Lemma labels_end (run : list (L * S)) n : (length run ≤ n)%nat → labels run n = idle.
Proof. intros Hn. unfold labels. apply nth_overflow. by rewrite length_map. Qed.

Lemma finite_execution s run : run_ok s run → execution step s (states s run) (labels run).
Proof using idle_step.
  intros Hr. split; [done|]. intros n. unfold states, labels. rewrite Nat.add_1_r.
  revert s n Hr. induction run as [|[l s'] run IH]; intros s n Hr.
  - destruct n as [|[|n]]; apply idle_step.
  - destruct Hr as [Hs Hr]. destruct n as [|n]; [done|].
    rewrite !fmap_cons, last_cons. apply (IH s' n Hr).
Qed.

(** Nobody is enabled where the run ends, so nobody waits for ever. *)
Lemma finite_fair s run : (∀ r, ¬ enabled step role r (List.last (run.*2) s)) →
  fair step role (states s run) (labels run).
Proof.
  intros Hend r n _. exists (n + length run + 1)%nat. split; [lia|]. right.
  rewrite states_end by lia. apply Hend.
Qed.
End finite.
End Fair.
