(* ===== verification/GoStrings.v ===== *)
(** * Go strings

    A Go string is a sequence of bytes, here Rocq's [string] (a list of
    8-bit [ascii]).  This file holds what the program uses of the packages
    [strings] and [slices]: [TrimSpace], [TrimRight], [TrimPrefix],
    [TrimSuffix], [HasPrefix], [HasSuffix], [Contains], [ToLower], [EqualFold]
    and the byte-wise order behind [slices.Sort] and [sort.Strings]. *)

From S2P Require Import Prelude.

(** ** Bytes *)

Definition byte (n : N) : ascii := ascii_of_N n.
Definition code (c : ascii) : Z := Z.of_N (N_of_ascii c).

(** The string of a list of byte codes, for what is not printable ASCII. *)
Definition str_of_bytes (l : list N) : string :=
  foldr (λ n s, String (byte n) s) EmptyString l.

(** ** Prefixes and suffixes *)

(** [cut_prefix p s] is [Some r] when [s] is [p] followed by [r]. *)
Fixpoint cut_prefix (p s : string) : option string :=
  match p, s with
  | EmptyString, _ => Some s
  | String a p', String b s' => if decide (a = b) then cut_prefix p' s' else None
  | String _ _, EmptyString => None
  end.

Definition HasPrefix (s p : string) : bool :=
  match cut_prefix p s with Some _ => true | None => false end.

Definition TrimPrefix (s p : string) : string := default s (cut_prefix p s).

(** [cut_suffix p s] is [Some r] when [s] is [r] followed by [p]. *)
Fixpoint cut_suffix (p s : string) : option string :=
  if decide (p = s) then Some EmptyString
  else match s with
       | EmptyString => None
       | String c s' => String c <$> cut_suffix p s'
       end.

Definition HasSuffix (s p : string) : bool :=
  match cut_suffix p s with Some _ => true | None => false end.

Definition TrimSuffix (s p : string) : string := default s (cut_suffix p s).

(** [Contains s p]: [p] occurs in [s]. *)
Fixpoint Contains (s p : string) : bool :=
  HasPrefix s p || match s with EmptyString => false | String _ s' => Contains s' p end.

(** ** White space

    [unicode.IsSpace] holds of the runes U+0009..U+000D, U+0020, U+0085,
    U+00A0, U+1680, U+2000..U+200A, U+2028, U+2029, U+202F, U+205F and U+3000.
    [space_encodings] lists their UTF-8 encodings.  An encoding is recognised
    at the front (and, since the last byte that is not a continuation byte
    starts the last rune, at the back) of a string exactly when
    [utf8.DecodeRune] ([utf8.DecodeLastRune]) yields that rune there. *)
Definition space_encodings : list string :=
  (str_of_bytes <$> [[9]; [10]; [11]; [12]; [13]; [32]; [194; 133]; [194; 160];
    [225; 154; 128]; [226; 128; 168]; [226; 128; 169]; [226; 128; 175];
    [226; 129; 159]; [227; 128; 128]]%N) ++
  ((λ n, str_of_bytes [226; 128; n]%N) <$>
    [128; 129; 130; 131; 132; 133; 134; 135; 136; 137; 138]%N).

(** The first [Some] of [f] over a list. *)
Fixpoint first_some {A B} (f : A → option B) (l : list A) : option B :=
  match l with
  | [] => None
  | a :: l' => match f a with Some b => Some b | None => first_some f l' end
  end.

Definition strip_space_left (s : string) : option string :=
  first_some (λ e, cut_prefix e s) space_encodings.

Definition strip_space_right (s : string) : option string :=
  first_some (λ e, cut_suffix e s) space_encodings.

(** Strip as long as it can be done; every strip shortens the string, so its
    length is fuel enough. *)
Fixpoint strip_loop (strip : string → option string) (fuel : nat) (s : string) : string :=
  match fuel with
  | O => s
  | S fuel => match strip s with Some s' => strip_loop strip fuel s' | None => s end
  end.

Definition strip_all (strip : string → option string) (s : string) : string :=
  strip_loop strip (String.length s) s.

Definition TrimSpace (s : string) : string :=
  strip_all strip_space_right (strip_all strip_space_left s).

(** [strings.TrimRight s cutset] for a cut set of one ASCII byte. *)
Definition TrimRight (s : string) (c : ascii) : string :=
  strip_all (cut_suffix (String c EmptyString)) s.

(** ** Letter case

    [to_lower_ascii] is [unicode.ToLower] on ASCII.  [ToLower] also maps the
    two other runes whose lower case is an ASCII letter, U+0130 to "i" and the
    Kelvin sign U+212A to "k"; every other rune beyond ASCII maps to bytes
    beyond ASCII and is kept as it is: the callers compare the result with
    ASCII words only. *)
Definition to_lower_ascii (c : ascii) : ascii :=
  let n := N_of_ascii c in
  if bool_decide (65 ≤ n ≤ 90)%N then byte (n + 32)%N else c.

Fixpoint ToLower (s : string) : string :=
  match s with
  | String c1 s1 =>
      match s1 with
      | String c2 s2 =>
          if decide (c1 = byte 196 ∧ c2 = byte 176) then String (byte 105) (ToLower s2)
          else match s2 with
               | String c3 s3 =>
                   if decide (c1 = byte 226 ∧ c2 = byte 132 ∧ c3 = byte 170)
                   then String (byte 107) (ToLower s3)
                   else String (to_lower_ascii c1) (ToLower s1)
               | EmptyString => String (to_lower_ascii c1) (ToLower s1)
               end
      | EmptyString => String (to_lower_ascii c1) EmptyString
      end
  | EmptyString => EmptyString
  end.

(** [strings.EqualFold a b] where [b] has only ASCII letters other than "k"
    and "s" (the letters that fold with a rune beyond ASCII): byte by byte up
    to ASCII case.  The program folds against a hexadecimal digest. *)
Fixpoint EqualFold (a b : string) : bool :=
  match a, b with
  | EmptyString, EmptyString => true
  | String c a', String d b' =>
      bool_decide (to_lower_ascii c = to_lower_ascii d) && EqualFold a' b'
  | _, _ => false
  end.

(** ** Order

    Go compares strings byte by byte; [str_le] is that order. *)
Fixpoint str_leb (a b : string) : bool :=
  match a, b with
  | EmptyString, _ => true
  | String _ _, EmptyString => false
  | String c a', String d b' =>
      if decide (c = d) then str_leb a' b'
      else bool_decide (N_of_ascii c < N_of_ascii d)%N
  end.

Definition str_le (a b : string) : Prop := str_leb a b = true.

#[export] Instance str_le_dec : RelDecision str_le.
Proof. intros a b. unfold str_le. apply _. Defined.

(** [slices.Sort] on strings: the sorted permutation (stdpp's merge sort). *)
Definition SortStrings (l : list string) : list string := merge_sort str_le l.

(** ** Lemmas: append, prefixes, suffixes *)

Lemma str_app_nil_r (s : string) : s +:+ EmptyString = s.
Proof. induction s as [|c s IH]; [done|]. change (String c (s +:+ EmptyString) = String c s). by rewrite IH. Qed.

Lemma str_app_cons c (s t : string) : String c s +:+ t = String c (s +:+ t).
Proof. done. Qed.

Lemma str_app_assoc (s t u : string) : s +:+ (t +:+ u) = (s +:+ t) +:+ u.
Proof. induction s as [|c s IH]; [done|]. by rewrite !str_app_cons, IH. Qed.

Lemma str_app_length (s t : string) :
  String.length (s +:+ t) = (String.length s + String.length t)%nat.
Proof. induction s as [|c s IH]; [done|]. rewrite str_app_cons. simpl. by rewrite IH. Qed.

Lemma str_app_inj_r (s t u : string) : s +:+ u = t +:+ u → s = t.
Proof.
  revert t. induction s as [|c s IH]; intros [|d t] H; [done|..].
  - apply (f_equal String.length) in H. rewrite !str_app_length in H. simpl in H. lia.
  - apply (f_equal String.length) in H. rewrite !str_app_length in H. simpl in H. lia.
  - rewrite !str_app_cons in H. simplify_eq. f_equal. by apply IH.
Qed.

Lemma cut_prefix_Some p s r : cut_prefix p s = Some r ↔ s = p +:+ r.
Proof.
  revert s. induction p as [|a p IH]; intros s; simpl; [split; [by intros [= ->]|by intros ->]|].
  destruct s as [|b s]; [split; [done|by rewrite str_app_cons]|].
  rewrite str_app_cons. case_decide; [rewrite IH|]; split; congruence.
Qed.

Lemma cut_suffix_Some p s r : cut_suffix p s = Some r ↔ s = r +:+ p.
Proof.
  revert r. induction s as [|b s IH]; intros r; simpl; case_decide as Hp.
  - subst. split; [by intros [= <-]|]. intros Hr. by destruct r.
  - split; [done|]. intros Hr. destruct r; [by subst|done].
  - subst. split; [by intros [= <-]|]. intros Hr.
    by rewrite (str_app_inj_r EmptyString r (String b s) Hr).
  - rewrite fmap_Some. setoid_rewrite IH. split.
    + intros (x & -> & ->). done.
    + intros Hr. destruct r as [|c r]; [by subst|].
      rewrite str_app_cons in Hr. simplify_eq. eauto.
Qed.

Lemma HasPrefix_app p s : HasPrefix (p +:+ s) p = true.
Proof. unfold HasPrefix. by rewrite (proj2 (cut_prefix_Some p _ s) eq_refl). Qed.

Lemma HasPrefix_true p s : HasPrefix s p = true ↔ ∃ r, s = p +:+ r.
Proof.
  unfold HasPrefix. destruct (cut_prefix p s) as [r|] eqn:H.
  - apply cut_prefix_Some in H. naive_solver.
  - split; [done|]. intros [r Hr]. apply cut_prefix_Some in Hr. congruence.
Qed.

Lemma Contains_app a p b : Contains (a +:+ (p +:+ b)) p = true.
Proof.
  induction a as [|c a IH]; [|by rewrite str_app_cons; simpl; rewrite IH, orb_true_r].
  change (EmptyString +:+ (p +:+ b)) with (p +:+ b).
  pose proof (HasPrefix_app p b) as H.
  by destruct (p +:+ b) as [|? ?] eqn:E; simpl; rewrite H.
Qed.

Lemma Contains_spec s p : Contains s p = true ↔ ∃ a b, s = a +:+ p +:+ b.
Proof.
  split; [|intros (a & b & ->); apply Contains_app].
  induction s as [|c s IH]; simpl; rewrite orb_true_iff.
  - intros [[r Hr]%HasPrefix_true|?]; [by exists EmptyString, r|done].
  - intros [[r Hr]%HasPrefix_true|(a & b & ->)%IH]; [by exists EmptyString, r|by exists (String c a), b].
Qed.

Lemma first_some_Some {A B} (f : A → option B) l b :
  first_some f l = Some b → ∃ a, a ∈ l ∧ f a = Some b.
Proof.
  induction l as [|a l IH]; simpl; [done|]. destruct (f a) as [b'|] eqn:Ha.
  - intros [= ->]. exists a. split; [by left|done].
  - intros (a' & ? & ?)%IH. exists a'. split; [by right|done].
Qed.

Lemma first_some_None {A B} (f : A → option B) l :
  first_some f l = None ↔ ∀ a, a ∈ l → f a = None.
Proof.
  induction l as [|a l IH]; simpl; [split; [intros _ a Ha; by apply elem_of_nil in Ha|done]|].
  destruct (f a) as [b'|] eqn:Ha.
  - split; [done|]. intros H. rewrite H in Ha; [done|by left].
  - rewrite IH. split.
    + intros H a' [->|?]%elem_of_cons; auto.
    + intros H a' ?. apply H. by right.
Qed.

(** ** Lemmas: [strip_all] *)

Section strip.
Context (strip : string → option string).
Context (strip_shorter : ∀ s s', strip s = Some s' → (String.length s' < String.length s)%nat).

Lemma strip_loop_done fuel s :
  (String.length s ≤ fuel)%nat → strip (strip_loop strip fuel s) = None.
Proof using strip_shorter.
  revert s. induction fuel as [|fuel IH]; intros s Hs; simpl.
  - destruct (strip s) as [s'|] eqn:E; [|done]. apply strip_shorter in E. lia.
  - destruct (strip s) as [s'|] eqn:E; [|done]. apply IH. apply strip_shorter in E. lia.
Qed.

Lemma strip_all_done s : strip (strip_all strip s) = None.
Proof using strip_shorter. by apply strip_loop_done. Qed.

Lemma strip_all_fixed s : strip s = None → strip_all strip s = s.
Proof. unfold strip_all. intros H. destruct (String.length s); simpl; [done|]. by rewrite H. Qed.

Lemma strip_all_ind (P : string → Prop) s :
  P s → (∀ s s', P s → strip s = Some s' → P s') → P (strip_all strip s).
Proof.
  unfold strip_all. intros Hs Hstep. generalize (String.length s) as fuel. intros fuel.
  revert s Hs. induction fuel as [|fuel IH]; intros s Hs; simpl; [done|].
  destruct (strip s) as [s'|] eqn:E; eauto.
Qed.
End strip.

Lemma space_encodings_nonempty e : e ∈ space_encodings → (0 < String.length e)%nat.
Proof.
  assert (forallb (λ e, Nat.ltb 0 (String.length e)) space_encodings = true) as H by done.
  intros He. rewrite forallb_forall in H. apply Nat.ltb_lt, H. by apply list_elem_of_In.
Qed.

Lemma strip_space_left_shorter s s' :
  strip_space_left s = Some s' → (String.length s' < String.length s)%nat.
Proof.
  intros (e & He & H)%first_some_Some. apply cut_prefix_Some in H. subst.
  rewrite str_app_length. apply space_encodings_nonempty in He. lia.
Qed.

Lemma strip_space_right_shorter s s' :
  strip_space_right s = Some s' → (String.length s' < String.length s)%nat.
Proof.
  intros (e & He & H)%first_some_Some. apply cut_suffix_Some in H. subst.
  rewrite str_app_length. apply space_encodings_nonempty in He. lia.
Qed.

(** Stripping at the back never uncovers white space at the front. *)
Lemma strip_left_None_prefix s t :
  strip_space_left (s +:+ t) = None → strip_space_left s = None.
Proof.
  unfold strip_space_left. rewrite !first_some_None. intros H e He.
  destruct (cut_prefix e s) as [r|] eqn:E; [|done].
  apply cut_prefix_Some in E. subst. specialize (H e He).
  by rewrite <- str_app_assoc, (proj2 (cut_prefix_Some e _ _) eq_refl) in H.
Qed.

(** ** Lemmas: [TrimSpace] *)

(** Nothing is left to trim at either end. *)
Lemma TrimSpace_trimmed s :
  strip_space_left (TrimSpace s) = None ∧ strip_space_right (TrimSpace s) = None.
Proof.
  unfold TrimSpace. split; [|apply strip_all_done, strip_space_right_shorter].
  apply (strip_all_ind _ (λ t, strip_space_left t = None)).
  - apply strip_all_done, strip_space_left_shorter.
  - intros u u' Hu (e & _ & He)%first_some_Some. apply cut_suffix_Some in He. subst.
    by eapply strip_left_None_prefix.
Qed.

Lemma TrimSpace_idemp s : TrimSpace (TrimSpace s) = TrimSpace s.
Proof.
  destruct (TrimSpace_trimmed s) as [Hl Hr]. unfold TrimSpace at 1.
  by rewrite (strip_all_fixed _ _ Hl), (strip_all_fixed _ _ Hr).
Qed.

(** A visible ASCII character is part of no white-space rune. *)
Definition visible (c : ascii) : bool := (33 <=? code c)%Z && (code c <=? 126)%Z.

Fixpoint all_visible (s : string) : bool :=
  match s with EmptyString => true | String c s => visible c && all_visible s end.

Lemma all_visible_app s t : all_visible (s +:+ t) = all_visible s && all_visible t.
Proof.
  induction s as [|c s IH]; [done|]. rewrite str_app_cons. simpl. by rewrite IH, andb_assoc.
Qed.

Lemma space_not_visible e : e ∈ space_encodings → all_visible e = false.
Proof.
  assert (forallb (λ e, negb (all_visible e)) space_encodings = true) as H by done.
  rewrite forallb_forall in H. intros He%list_elem_of_In%H. by apply negb_true_iff.
Qed.

Lemma TrimSpace_visible s : all_visible s = true → TrimSpace s = s.
Proof.
  intros Hs. unfold TrimSpace. rewrite (strip_all_fixed _ s), strip_all_fixed; [done|..];
    apply first_some_None; intros e He%space_not_visible.
  - destruct (cut_suffix e s) as [r|] eqn:Hc; [|done]. apply cut_suffix_Some in Hc as ->.
    rewrite all_visible_app, He, andb_false_r in Hs. done.
  - destruct (cut_prefix e s) as [r|] eqn:Hc; [|done]. apply cut_prefix_Some in Hc as ->.
    by rewrite all_visible_app, He in Hs.
Qed.

Lemma EqualFold_refl s : EqualFold s s = true.
Proof. induction s as [|c s IH]; [done|]. simpl. rewrite IH. by case_bool_decide. Qed.

(** [spaces w]: [w] is made of encodings of white-space runes. *)
Inductive spaces : string → Prop :=
  | spaces_nil : spaces EmptyString
  | spaces_cons e w : e ∈ space_encodings → spaces w → spaces (e +:+ w).

Lemma spaces_snoc w e : spaces w → e ∈ space_encodings → spaces (w +:+ e).
Proof.
  intros Hw He. induction Hw as [|e' w He' Hw IH].
  - change (EmptyString +:+ e) with e. rewrite <- (str_app_nil_r e).
    constructor; [done|constructor].
  - rewrite <- str_app_assoc. by constructor.
Qed.

(** The trimmed string is what is left of the original between white space. *)
Lemma TrimSpace_decomp s : ∃ w1 w2, spaces w1 ∧ spaces w2 ∧ s = w1 +:+ (TrimSpace s +:+ w2).
Proof.
  assert (∃ w1, spaces w1 ∧ s = w1 +:+ strip_all strip_space_left s) as (w1 & Hw1 & Hs1).
  { apply (strip_all_ind _ (λ t, ∃ w1, spaces w1 ∧ s = w1 +:+ t)).
    - exists EmptyString. split; [constructor|done].
    - intros u u' (w & Hw & ->) (e & He & H)%first_some_Some.
      apply cut_prefix_Some in H. subst. exists (w +:+ e).
      by rewrite str_app_assoc; auto using spaces_snoc. }
  set (u := strip_all strip_space_left s) in *.
  assert (∃ w2, spaces w2 ∧ u = TrimSpace s +:+ w2) as (w2 & Hw2 & Hs2).
  { unfold TrimSpace. fold u. apply (strip_all_ind _ (λ t, ∃ w2, spaces w2 ∧ u = t +:+ w2)).
    - exists EmptyString. by rewrite str_app_nil_r; split; [constructor|].
    - intros v v' (w & Hw & Hv) (e & He & H)%first_some_Some.
      apply cut_suffix_Some in H. subst v. exists (e +:+ w).
      by rewrite Hv, <- str_app_assoc; split; [constructor|]. }
  exists w1, w2. by rewrite <- Hs2.
Qed.

(** ** Lemmas: the byte order *)

#[export] Instance str_le_refl : Reflexive str_le.
Proof. intros a. unfold str_le. induction a as [|c a IH]; simpl; [done|]. by rewrite decide_True. Qed.

#[export] Instance str_le_trans : Transitive str_le.
Proof.
  unfold str_le. intros a. induction a as [|c a IH]; intros [|d b] [|e x]; simpl; try done.
  repeat case_decide; simplify_eq; rewrite ?bool_decide_eq_true; try done; try lia; eauto.
Qed.

#[export] Instance str_le_antisymm : AntiSymm (=) str_le.
Proof.
  unfold str_le. intros a. induction a as [|c a IH]; intros [|d b]; simpl; try done.
  repeat case_decide; simplify_eq; rewrite ?bool_decide_eq_true; try done; try lia.
  intros. f_equal. auto.
Qed.

#[export] Instance str_le_total : Total str_le.
Proof.
  unfold Total, str_le. intros a. induction a as [|c a IH]; intros [|d b]; simpl; auto.
  repeat case_decide; simplify_eq; rewrite ?bool_decide_eq_true; auto.
  destruct (N.lt_total (N_of_ascii c) (N_of_ascii d)) as [?|[E|?]]; auto.
  apply (f_equal ascii_of_N) in E. rewrite !ascii_N_embedding in E. done.
Qed.

Lemma SortStrings_perm l : SortStrings l ≡ₚ l.
Proof. apply merge_sort_Permutation. Qed.

Lemma SortStrings_sorted l : StronglySorted str_le (SortStrings l).
Proof. apply StronglySorted_merge_sort; apply _. Qed.
