(* ===== verification/GoInt.v ===== *)
(** * Go integers

    [int64] (and [int], which is 64 bits wide on the supported platforms) is a
    [Z] kept in range by [wrap64]; [uint64] likewise by [wrapu64].  The file
    also holds [strconv.ParseInt]/[Atoi] and [strconv.FormatInt] in base 10,
    written after the loops of the package [strconv]. *)

From S2P Require Import Prelude GoStrings.
Open Scope Z_scope.

(** ** Width *)

Definition min_int64 : Z := - 2 ^ 63.
Definition max_int64 : Z := 2 ^ 63 - 1.
Definition max_uint64 : Z := 2 ^ 64 - 1.

Definition in_int64 (z : Z) : Prop := min_int64 ≤ z ≤ max_int64.

#[export] Instance in_int64_dec z : Decision (in_int64 z).
Proof. unfold in_int64. apply _. Defined.

(** Two's complement wrap-around. *)
Definition wrap64 (z : Z) : Z := (z + 2 ^ 63) mod 2 ^ 64 - 2 ^ 63.
Definition wrapu64 (z : Z) : Z := z mod 2 ^ 64.

Definition add64 (a b : Z) : Z := wrap64 (a + b).
Definition mul64 (a b : Z) : Z := wrap64 (a * b).

(** ** [strconv] *)

Inductive num_error : Type := ErrSyntax | ErrRange.

#[export] Instance num_error_eq_dec : EqDecision num_error.
Proof. solve_decision. Defined.

Definition digit_val (c : ascii) : option Z :=
  let n := code c in if bool_decide (48 ≤ n ≤ 57) then Some (n - 48) else None.

Definition digit_char (d : Z) : ascii := ascii_of_N (Z.to_N (48 + d)).

(** [strconv.ParseUint(s, 10, 64)]: accumulate digit by digit; the cutoff
    test stops at the first digit that cannot fit. *)
Definition cutoff : Z := max_uint64 / 10 + 1.

Fixpoint parse_uint_loop (s : string) (n : Z) : result num_error Z :=
  match s with
  | EmptyString => Ok n
  | String c s' =>
      match digit_val c with
      | None => Err ErrSyntax
      | Some d =>
          if n >=? cutoff then Err ErrRange
          else if n * 10 + d >? max_uint64 then Err ErrRange
          else parse_uint_loop s' (n * 10 + d)
      end
  end.

Definition ParseUint (s : string) : result num_error Z :=
  match s with
  | EmptyString => Err ErrSyntax
  | _ => parse_uint_loop s 0
  end.

(** The optional sign of [ParseInt]. *)
Definition split_sign (s : string) : bool * string :=
  match s with
  | String c s' =>
      if decide (c = "+"%char) then (false, s')
      else if decide (c = "-"%char) then (true, s')
      else (false, s)
  | EmptyString => (false, s)
  end.

(** [strconv.ParseInt(s, 10, 64)]; [strconv.Atoi] accepts the same strings. *)
Definition ParseInt (s : string) : result num_error Z :=
  match s with
  | EmptyString => Err ErrSyntax
  | _ =>
      let '(neg, s1) := split_sign s in
      match ParseUint s1 with
      | Err e => Err e
      | Ok un =>
          if negb neg && (un >=? 2 ^ 63) then Err ErrRange
          else if neg && (un >? 2 ^ 63) then Err ErrRange
          else Ok (if neg then - un else un)
      end
  end.

Definition Atoi (s : string) : result num_error Z := ParseInt s.

(** [strconv.FormatInt(z, 10)]: digits from the least significant one.  A
    uint64 has at most 20 digits, so 20 rounds are enough. *)
Fixpoint format_uint_loop (fuel : nat) (n : Z) (acc : string) : string :=
  match fuel with
  | O => acc
  | S fuel =>
      let acc' := String (digit_char (n mod 10)) acc in
      if n <? 10 then acc' else format_uint_loop fuel (n / 10) acc'
  end.

Definition FormatUint (n : Z) : string := format_uint_loop 20 n EmptyString.

Definition FormatInt (z : Z) : string :=
  if z <? 0 then String "-"%char (FormatUint (- z)) else FormatUint z.

(** ** Lemmas: wrap-around *)

Ltac unfold64 := unfold in_int64, min_int64, max_int64, max_uint64 in *.

(** Linear arithmetic with the width constants evaluated and [mod], [/] as
    equations. *)
Ltac wrap_lia :=
  unfold64; unfold wrap64, wrapu64 in *;
  change (2 ^ 64) with 18446744073709551616 in *;
  change (2 ^ 63) with 9223372036854775808 in *;
  Z.to_euclidean_division_equations; lia.

Lemma wrap64_range z : in_int64 (wrap64 z).
Proof. wrap_lia. Qed.

Lemma wrap64_id z : in_int64 z → wrap64 z = z.
Proof. intros. wrap_lia. Qed.

Lemma wrap64_add_l a b : wrap64 (wrap64 a + b) = wrap64 (a + b).
Proof. wrap_lia. Qed.

Lemma wrap64_add_r a b : wrap64 (a + wrap64 b) = wrap64 (a + b).
Proof. wrap_lia. Qed.

#[export] Hint Rewrite wrap64_add_l wrap64_add_r : golectra_rw.
#[export] Hint Resolve wrap64_range : golectra.

Lemma add64_range a b : in_int64 (add64 a b).
Proof. apply wrap64_range. Qed.

Lemma add64_comm a b : add64 a b = add64 b a.
Proof. unfold add64. f_equal. lia. Qed.

Lemma add64_assoc a b c : add64 (add64 a b) c = add64 a (add64 b c).
Proof. unfold add64. rewrite wrap64_add_l, wrap64_add_r. f_equal. lia. Qed.

(** A sum of increments wraps once, whatever the order of the additions. *)
Lemma fold_add64 l z : fold_left add64 l (wrap64 z) = wrap64 (z + foldr Z.add 0 l).
Proof.
  revert z. induction l as [|d l IH]; intros z; simpl; [f_equal; lia|].
  unfold add64 at 2. rewrite wrap64_add_l, IH. f_equal. lia.
Qed.

(** ** Lemmas: digits *)

Lemma digit_val_char d : 0 ≤ d < 10 → digit_val (digit_char d) = Some d.
Proof.
  intros Hd. unfold digit_val, digit_char, code.
  rewrite N_ascii_embedding by lia.
  replace (Z.of_N (Z.to_N (48 + d))) with (48 + d) by lia.
  rewrite bool_decide_true by lia. f_equal. lia.
Qed.

Lemma digit_val_range c d : digit_val c = Some d → 0 ≤ d < 10.
Proof. unfold digit_val. intros H. case_bool_decide; simplify_eq. lia. Qed.

Lemma code_inj c d : code c = code d → c = d.
Proof.
  unfold code. intros H. assert (N_of_ascii c = N_of_ascii d) as E by lia.
  by rewrite <- (ascii_N_embedding c), E, ascii_N_embedding.
Qed.

Lemma digit_char_not_sign d : 0 ≤ d < 10 → digit_char d ≠ "+"%char ∧ digit_char d ≠ "-"%char.
Proof.
  intros Hd. assert (code (digit_char d) = 48 + d) as H.
  { unfold code, digit_char. rewrite N_ascii_embedding by lia. lia. }
  split; intros E; rewrite E in H; [change (43 = 48 + d) in H|change (45 = 48 + d) in H]; lia.
Qed.

(** ** Lemmas: [ParseInt] after [FormatInt] *)

Lemma format_uint_loop_head fuel n acc :
  0 ≤ n → ∃ d rest, 0 ≤ d < 10 ∧
    format_uint_loop (S fuel) n acc = String (digit_char d) rest.
Proof.
  revert n acc. induction fuel as [|fuel IH]; intros n acc Hn.
  - exists (n mod 10), acc. split; [lia|]. simpl. by destruct (n <? 10).
  - change (format_uint_loop (S (S fuel)) n acc) with
      (let acc' := String (digit_char (n mod 10)) acc in
       if n <? 10 then acc' else format_uint_loop (S fuel) (n / 10) acc').
    cbv zeta. destruct (Z.ltb_spec n 10).
    + exists (n mod 10), acc. split; [lia|done].
    + apply IH. lia.
Qed.

(** Reading the digits printed before [acc] brings the accumulator to [n]. *)
Lemma parse_format_loop fuel n acc :
  0 ≤ n ≤ max_uint64 → n < 10 ^ Z.of_nat (S fuel) →
  parse_uint_loop (format_uint_loop (S fuel) n acc) 0 = parse_uint_loop acc n.
Proof.
  assert (Hread : ∀ m d rest, 0 ≤ d < 10 → 0 ≤ m → m * 10 + d ≤ max_uint64 →
    parse_uint_loop (String (digit_char d) rest) m = parse_uint_loop rest (m * 10 + d)).
  { intros m d rest Hd Hm Hmax. simpl. rewrite digit_val_char by done.
    destruct (Z.geb_spec m cutoff) as [Hc|]; [unfold cutoff in Hc; wrap_lia|].
    destruct (Z.gtb_spec (m * 10 + d) max_uint64); [lia|done]. }
  revert n acc. induction fuel as [|fuel IH]; intros n acc Hn Hfuel;
    cbn [format_uint_loop]; destruct (Z.ltb_spec n 10).
  - rewrite Hread by (unfold64; lia). f_equal. lia.
  - simpl in Hfuel. lia.
  - rewrite Hread by (unfold64; lia). f_equal. lia.
  - rewrite Nat2Z.inj_succ, Z.pow_succ_r in Hfuel by lia.
    etrans; [apply IH; lia|]. rewrite Hread by lia. f_equal. lia.
Qed.

Lemma ParseUint_FormatUint n : 0 ≤ n ≤ max_uint64 → ParseUint (FormatUint n) = Ok n.
Proof.
  intros Hn. unfold ParseUint, FormatUint.
  destruct (format_uint_loop_head 19 n EmptyString) as (d & rest & _ & E); [lia|].
  destruct (format_uint_loop 20 n EmptyString) eqn:E'; [congruence|].
  rewrite <- E'. by rewrite parse_format_loop by (unfold64; lia).
Qed.

(** What [FormatInt] prints, [ParseInt] reads back, on all of [int64]. *)
Theorem ParseInt_FormatInt z : in_int64 z → ParseInt (FormatInt z) = Ok z.
Proof.
  intros Hz. unfold FormatInt. destruct (Z.ltb_spec z 0) as [Hneg|Hpos].
  - unfold ParseInt. cbn [split_sign]. rewrite decide_False, decide_True by done.
    rewrite ParseUint_FormatUint by (unfold64; lia). cbn [negb andb].
    destruct (Z.gtb_spec (- z) (2 ^ 63)); [unfold64; lia|]. f_equal. lia.
  - pose proof (ParseUint_FormatUint z) as Hp. unfold ParseInt.
    destruct (format_uint_loop_head 19 z EmptyString) as (d & rest & Hd & E); [done|].
    fold (FormatUint z) in E. rewrite E in *. cbn [split_sign].
    destruct (digit_char_not_sign d Hd). rewrite !decide_False by done.
    rewrite Hp by (unfold64; lia). cbn [negb andb].
    destruct (Z.geb_spec z (2 ^ 63)); [unfold64; lia|done].
Qed.

(** ** Lemmas: [ParseInt] against the value of its digits *)

(** The number written by a string of digits after the accumulator [n]. *)
Fixpoint digits_value (s : string) (n : Z) : option Z :=
  match s with
  | EmptyString => Some n
  | String c s' => match digit_val c with
                   | Some d => digits_value s' (n * 10 + d)
                   | None => None
                   end
  end.

Lemma digits_value_ge s n v : 0 ≤ n → digits_value s n = Some v → n ≤ v.
Proof.
  revert n. induction s as [|c s IH]; intros n Hn; simpl; [intros [= ->]; lia|].
  destruct (digit_val c) as [d|] eqn:Hd; [|done]. apply digit_val_range in Hd.
  intros H. apply IH in H; lia.
Qed.

Lemma parse_uint_loop_digits s n v :
  0 ≤ n → digits_value s n = Some v →
  parse_uint_loop s n = if decide (v ≤ max_uint64) then Ok v
                        else match s with EmptyString => Ok v | _ => Err ErrRange end.
Proof.
  revert n. induction s as [|c s IH]; intros n Hn; cbn [digits_value parse_uint_loop].
  - intros [= ->]. by case_decide.
  - destruct (digit_val c) as [d|] eqn:Hd; [|done]. apply digit_val_range in Hd.
    intros Hv. assert (n * 10 + d ≤ v) by (eapply digits_value_ge, Hv; lia).
    destruct (Z.geb_spec n cutoff) as [Hc|Hc].
    + rewrite decide_False; [done|]. unfold cutoff in Hc. wrap_lia.
    + destruct (Z.gtb_spec (n * 10 + d) max_uint64).
      * rewrite decide_False by lia. done.
      * rewrite (IH (n * 10 + d)) by (done || lia). case_decide; [done|].
        destruct s; [simpl in Hv; simplify_eq; lia|done].
Qed.

Lemma parse_uint_loop_nondigit s n :
  digits_value s n = None → ∃ e, parse_uint_loop s n = Err e.
Proof.
  revert n. induction s as [|c s IH]; intros n; cbn [digits_value parse_uint_loop]; [done|].
  destruct (digit_val c) as [d|] eqn:Hd; [|eauto].
  intros H. repeat split_match; eauto.
Qed.

(** The value [ParseInt] is meant to denote: a sign and at least one digit. *)
Definition int_literal (s : string) : option Z :=
  let '(neg, s1) := split_sign s in
  match s1 with
  | EmptyString => None
  | _ => (λ v, if neg then - v else v) <$> digits_value s1 0
  end.

(** [ParseInt] accepts exactly the signed decimal literals of [int64]
    values, with the value written; the cutoff tests of its loop reject exactly
    the literals out of range. *)
Theorem ParseInt_spec s z : ParseInt s = Ok z ↔ int_literal s = Some z ∧ in_int64 z.
Proof.
  destruct s as [|c0 s0]; [split; [done|by intros [? _]]|].
  unfold int_literal, ParseInt, ParseUint.
  destruct (split_sign (String c0 s0)) as [neg s1] eqn:Hs. clear Hs.
  destruct s1 as [|c s1]; [split; [done|by intros [? _]]|].
  destruct (digits_value (String c s1) 0) as [v|] eqn:Hv.
  - rewrite (parse_uint_loop_digits _ _ v) by done.
    assert (0 ≤ v) by (eapply digits_value_ge, Hv; lia). simpl.
    unfold64. case_decide; destruct neg; simpl;
      repeat (match goal with |- context [?a >=? ?b] => destruct (Z.geb_spec a b)
        | |- context [?a >? ?b] => destruct (Z.gtb_spec a b) end);
      split; intros; destruct_and?; simplify_eq; try split; try done; lia.
  - apply parse_uint_loop_nondigit in Hv as [e He]. rewrite He. simpl. by split; [|intros [? _]].
Qed.
