(* ===== verification/GoErrors.v ===== *)
(** * Go errors and contexts

    Error values as a tree of wrappers over sentinels, with [errors.Is] and
    [errors.As] as walks along the [Unwrap] chain; [context.Context] with the
    client address the program stores in it and the instant it is done; and the
    interface to the clock that [Retry] waits on. *)

From S2P Require Import Prelude GoStrings.
Open Scope Z_scope.

(** ** Error values

    The sentinels are the ones the program compares against.  [Wrap] is
    [fmt.Errorf] with ["...: %w"]; [OpError] is [*net.OpError], [UrlError] is
    [*url.Error] with the value of its method [Timeout], [PqError] is [*pq.Error]
    with its [Code], [StatusError] is the client's [*httpStatusError], and
    [Errorf] any other error, told apart by its text. *)
Inductive error : Type :=
  | ErrNotFound
  | ErrInvalidType
  | ErrCanceled
  | ErrDeadlineExceeded
  | ErrNoRows
  | ErrBadConn
  | ErrNotExist
  | ECONNREFUSED
  | ECONNRESET
  | EPIPE
  | PqError (code : string)
  | StatusError (code : Z) (msg : string)
  | OpError (inner : error)
  | UrlError (timeout : bool) (inner : error)
  | Wrap (prefix : string) (inner : error)
  | Errorf (msg : string).

#[export] Instance error_eq_dec : EqDecision error.
Proof. solve_decision. Defined.

Definition unwrap (e : error) : option error :=
  match e with
  | OpError i | UrlError _ i | Wrap _ i => Some i
  | _ => None
  end.

(** An error and everything it wraps, outermost first. *)
Fixpoint chain (e : error) : list error :=
  e :: match e with
       | OpError i | UrlError _ i | Wrap _ i => chain i
       | _ => []
       end.

Definition errors_Is (e target : error) : bool := bool_decide (target ∈ chain e).

(** [errors.As] for a target type given by its projection. *)
Definition errors_As {A} (proj : error → option A) (e : error) : option A :=
  first_some proj (chain e).

Definition as_op_error (e : error) : option error :=
  match e with OpError i => Some i | _ => None end.
Definition as_url_error (e : error) : option bool :=
  match e with UrlError t _ => Some t | _ => None end.
Definition as_pq_error (e : error) : option string :=
  match e with PqError c => Some c | _ => None end.
Definition as_status_error (e : error) : option Z :=
  match e with StatusError c _ => Some c | _ => None end.

Lemma chain_self e : e ∈ chain e.
Proof. destruct e; left. Qed.

Lemma errors_Is_self e : errors_Is e e = true.
Proof. unfold errors_Is. apply bool_decide_eq_true, chain_self. Qed.

Lemma errors_Is_Wrap p e t : t ≠ Wrap p e → errors_Is (Wrap p e) t = errors_Is e t.
Proof.
  intros Ht. unfold errors_Is. simpl. apply bool_decide_ext. rewrite elem_of_cons. naive_solver.
Qed.

(** ** Contexts

    [ctx_done] is the instant (in nanoseconds of the model's clock) at which the
    channel [Done] is closed, with the reason [Err] gives from then on;
    [ctx_client_ip] is the value stored under the audit key. *)
Inductive cause : Type := Canceled | DeadlineExceeded.

Definition cause_error (c : cause) : error :=
  match c with Canceled => ErrCanceled | DeadlineExceeded => ErrDeadlineExceeded end.

Record Context : Type := mkContext {
  ctx_done : option (Z * cause);
  ctx_client_ip : option string;
}.

Definition Background : Context := mkContext None None.

(** ** The clock

    What a call sees of time in a world [W]: [clock], and [wait_timer ctx d],
    the statement [select] over [ctx.Done()] and a timer of [d] nanoseconds;
    [true] when the timer's branch is taken. *)
Class Timing (W : Type) := {
  clock : W → Z;
  wait_timer : Context → Z → W → bool * W;
}.

Definition ctx_err_at (ctx : Context) (t : Z) : option error :=
  match ctx_done ctx with
  | Some (at_, c) => if bool_decide (at_ ≤ t) then Some (cause_error c) else None
  | None => None
  end.

(** [ctx.Err()] *)
Definition ctx_Err {W} `{Timing W} (ctx : Context) (w : W) : option error :=
  ctx_err_at ctx (clock w).

(** The documented behaviour of timers and contexts: time does not go back, the
    timer's branch is taken no sooner than its delay, and [Done]'s branch only
    once the context is done. *)
Class TimingLaws (W : Type) `{Timing W} := {
  wait_timer_mono ctx d w b w' : wait_timer ctx d w = (b, w') → clock w ≤ clock w';
  wait_timer_fired ctx d w w' : wait_timer ctx d w = (true, w') → clock w + d ≤ clock w';
  wait_timer_done ctx d w w' :
    wait_timer ctx d w = (false, w') → is_Some (ctx_Err ctx w');
}.

Lemma ctx_err_at_mono (ctx : Context) t t' e : ctx_err_at ctx t = Some e → t ≤ t' → ctx_err_at ctx t' = Some e.
Proof.
  unfold ctx_err_at. intros H Ht. destruct (ctx_done ctx) as [[a e']|]; [|done].
  repeat case_bool_decide; simplify_eq; [done|lia].
Qed.

Lemma ctx_err_at_not_found ctx t e : ctx_err_at ctx t = Some e → (ErrNotFound ∉ chain e) ∧
  errors_Is e ErrNoRows = false.
Proof.
  unfold ctx_err_at. intros H. destruct (ctx_done ctx) as [[a []]|]; [..|done];
    case_bool_decide; simplify_eq; (split; [simpl; set_solver|done]).
Qed.
