(* ===== verification/Sha256.v ===== *)
(** * internal/misc/hash.go: SHA-256 in hexadecimal

    [sha256.Sum256] is FIPS 180-4 on 32-bit words, [hex.EncodeToString] two
    lower-case digits for each byte. *)

From S2P Require Import Prelude GoStrings GoInt.
Open Scope Z_scope.

Module Sha256.

Fixpoint bytes_of (s : string) : list Z :=
  match s with
  | EmptyString => []
  | String c s' => code c :: bytes_of s'
  end.

(** ** Words of 32 bits *)

Definition w32 (z : Z) : Z := z mod 2 ^ 32.
Definition rotr (n x : Z) : Z := Z.lor (Z.shiftr x n) (w32 (Z.shiftl x (32 - n))).
Definition ch (x y z : Z) : Z := Z.lxor (Z.land x y) (Z.land (Z.lxor x (2 ^ 32 - 1)) z).
Definition maj (x y z : Z) : Z := Z.lxor (Z.lxor (Z.land x y) (Z.land x z)) (Z.land y z).
Definition big_sigma0 (x : Z) : Z := Z.lxor (Z.lxor (rotr 2 x) (rotr 13 x)) (rotr 22 x).
Definition big_sigma1 (x : Z) : Z := Z.lxor (Z.lxor (rotr 6 x) (rotr 11 x)) (rotr 25 x).
Definition small_sigma0 (x : Z) : Z := Z.lxor (Z.lxor (rotr 7 x) (rotr 18 x)) (Z.shiftr x 3).
Definition small_sigma1 (x : Z) : Z := Z.lxor (Z.lxor (rotr 17 x) (rotr 19 x)) (Z.shiftr x 10).

(** The constants, as the standard defines them: the first 32 bits of the
    fractional parts of the square and cube roots of the first primes. *)
Definition is_prime (n : Z) : bool :=
  forallb (λ d, negb (n mod d =? 0)) (seqZ 2 (n - 2)).
Definition primes : list Z := List.filter is_prime (seqZ 2 310).

(** The integer cube root, bit by bit from [2 ^ bits]. *)
Fixpoint cube_root (bits : nat) (n acc : Z) : Z :=
  match bits with
  | O => acc
  | S bits =>
      let try := acc + 2 ^ Z.of_nat bits in
      cube_root bits n (if try ^ 3 <=? n then try else acc)
  end.

Definition round_constants : list Z :=
  Eval vm_compute in map (λ p, w32 (cube_root 35 (p * 2 ^ 96) 0)) primes.

Definition initial_hash : list Z :=
  Eval vm_compute in map (λ p, w32 (Z.sqrt (p * 2 ^ 64))) (take 8 primes).

(** ** Padding and blocks *)

(** The 8 bytes of [z], most significant first. *)
Definition be_bytes (n : nat) (z : Z) : list Z :=
  map (λ i, Z.shiftr z (8 * (Z.of_nat n - 1 - Z.of_nat i)) mod 256) (seq 0 n).

Definition padding (len : Z) : list Z :=
  0x80 :: replicate (Z.to_nat ((55 - len) mod 64)) 0 ++ be_bytes 8 (8 * len).

Fixpoint words (l : list Z) : list Z :=
  match l with
  | a :: b :: c :: d :: l' =>
      Z.lor (Z.lor (Z.shiftl a 24) (Z.shiftl b 16)) (Z.lor (Z.shiftl c 8) d) :: words l'
  | _ => []
  end.

(** The message schedule, newest word first. *)
Fixpoint schedule (fuel : nat) (rev : list Z) : list Z :=
  match fuel with
  | O => reverse rev
  | S fuel =>
      let w := w32 (small_sigma1 (nth 1 rev 0) + nth 6 rev 0 +
                    small_sigma0 (nth 14 rev 0) + nth 15 rev 0) in
      schedule fuel (w :: rev)
  end.

Definition compress_round (h : list Z) (kw : Z * Z) : list Z :=
  match h with
  | [a; b; c; d; e; f; g; h] =>
      let t1 := h + big_sigma1 e + ch e f g + kw.1 + kw.2 in
      let t2 := big_sigma0 a + maj a b c in
      [w32 (t1 + t2); a; b; c; w32 (d + t1); e; f; g]
  | _ => h
  end.

Definition compress (h block : list Z) : list Z :=
  let ws := schedule 48 (reverse block) in
  let h' := fold_left compress_round (zip round_constants ws) h in
  zip_with (λ x y, w32 (x + y)) h h'.

(** Sixteen words at a time; the fuel is the number of words. *)
Fixpoint blocks (fuel : nat) (h ws : list Z) : list Z :=
  match fuel, ws with
  | O, _ | _, [] => h
  | S fuel, _ => blocks fuel (compress h (take 16 ws)) (drop 16 ws)
  end.

(** [sha256.Sum256] *)
Definition Sum256 (msg : list Z) : list Z :=
  let ws := words (msg ++ padding (Z.of_nat (length msg))) in
  concat (map (be_bytes 4) (blocks (length ws) initial_hash ws)).

(** ** Hexadecimal *)

Definition hex_digit (d : Z) : ascii :=
  if bool_decide (d < 10) then digit_char d else ascii_of_N (Z.to_N (87 + d)).

(** [hex.EncodeToString] *)
Fixpoint EncodeToString (l : list Z) : string :=
  match l with
  | [] => EmptyString
  | b :: l' => String (hex_digit (b / 16)) (String (hex_digit (b mod 16)) (EncodeToString l'))
  end.

(** [misc.SumSHA256]; what [append] writes past the end of [value] stays
    beyond its length. *)
Definition SumSHA256 (value key : string) : string :=
  EncodeToString (Sum256 (bytes_of (value +:+ key))).

(** The test vectors of the standard. *)
Example SumSHA256_abc : SumSHA256 "ab" "c" =
  "ba7816bf8f01cfea414140de5dae2223b00361a396177a9cb410ff61f20015ad".
Proof. vm_compute. reflexivity. Qed.

Example SumSHA256_two_blocks :
  SumSHA256 "abcdbcdecdefdefgefghfghighijhijkijkljklmklmnlmnomnopnopq" EmptyString =
  "248d6a61d20638b8e5c026930c3e6039a33ce45964ff2167f6ecedd419db06c1".
Proof. vm_compute. reflexivity. Qed.

(** ** Lemmas *)

Lemma SumSHA256_split value key value' key' :
  value +:+ key = value' +:+ key' → SumSHA256 value key = SumSHA256 value' key'.
Proof. unfold SumSHA256. by intros ->. Qed.

(** A digest is made of hexadecimal digits. *)
Lemma hex_digit_visible d : 0 ≤ d < 16 → visible (hex_digit d) = true.
Proof.
  intros Hd. assert (d ∈ seqZ 0 16) as Hin by (by apply elem_of_seqZ).
  assert (forallb (λ d, visible (hex_digit d)) (seqZ 0 16) = true) as H by (vm_compute; reflexivity).
  rewrite forallb_forall in H. by apply H, list_elem_of_In.
Qed.

Lemma EncodeToString_visible l :
  Forall (λ b, 0 ≤ b < 256) l → all_visible (EncodeToString l) = true.
Proof.
  induction 1 as [|b l Hb Hl IH]; [done|]. simpl.
  rewrite !hex_digit_visible, IH; [done|..]; lia.
Qed.

Lemma SumSHA256_visible value key : all_visible (SumSHA256 value key) = true.
Proof.
  apply EncodeToString_visible. unfold Sum256. apply Forall_concat, Forall_fmap, Forall_true.
  intros z. simpl. unfold be_bytes. apply Forall_fmap, Forall_true. intros i. simpl.
  apply Z.mod_pos_bound. lia.
Qed.

End Sha256.
