(* ===== verification/Domain.v ===== *)
(** * internal/domain: metrics, snapshots

    [float64] is a bit pattern: the services only store and copy it.  A
    [Snapshot] holds the two maps of the Go struct. *)

From S2P Require Import Prelude GoStrings GoInt GoErrors.
Open Scope Z_scope.

(** A [float64] by its IEEE 754 bits, [0 ≤ bits < 2^64]. *)
Record float64 : Type := mkFloat64 { f64_bits : Z }.

#[export] Instance float64_eq_dec : EqDecision float64.
Proof. solve_decision. Defined.

(** The zero value of [float64]. *)
Definition f64_zero : float64 := mkFloat64 0.

(** The constants of the Go type [MetricType]. *)
Definition Gauge : string := "gauge".
Definition Counter : string := "counter".

Record Metrics : Type := mkMetrics {
  Delta : option Z;
  Value : option float64;
  ID : string;
  MType : string;
}.

#[export] Instance Metrics_eq_dec : EqDecision Metrics.
Proof. solve_decision. Defined.

(** [domain.Metrics{}] *)
Definition zero_Metrics : Metrics := mkMetrics None None EmptyString EmptyString.

Definition gauge_metric (id : string) (v : float64) : Metrics := mkMetrics None (Some v) id Gauge.
Definition counter_metric (id : string) (d : Z) : Metrics := mkMetrics (Some d) None id Counter.

Definition set_ID (m : Metrics) (id : string) : Metrics :=
  mkMetrics (Delta m) (Value m) id (MType m).

Record Snapshot : Type := mkSnapshot {
  Gauges : gmap string float64;
  Counters : gmap string Z;
}.

#[export] Instance Snapshot_eq_dec : EqDecision Snapshot.
Proof. solve_decision. Defined.

Definition empty_Snapshot : Snapshot := mkSnapshot ∅ ∅.

(** Every delta in the range of [int64], as the Go types guarantee. *)
Definition metric_wf (m : Metrics) : Prop :=
  match Delta m with Some d => in_int64 d | None => True end.

Definition snapshot_wf (s : Snapshot) : Prop := map_Forall (λ _ d, in_int64 d) (Counters s).

Lemma Gauge_not_Counter : Gauge ≠ Counter.
Proof. done. Qed.
