(* ===== verification/GoFloat.v ===== *)
(** * Go's float64: conversion, parsing and printing

    A [float64] is its 64 bits.  Magnitudes are integers in units of 2^-1074, the
    least positive value; [round_mag] rounds a rational to the nearest magnitude,
    ties to even, and every conversion goes through it.  [ParseFloat] and
    [FormatFloat] are [strconv.ParseFloat(s, 64)] and
    [strconv.FormatFloat(f, 'f', -1, 64)]. *)

From S2P Require Import Prelude GoStrings GoInt Domain.
Open Scope Z_scope.

(** ** Magnitudes *)

(** The value of bits without the sign, in units of 2^-1074. *)
Definition units (b : Z) : Z :=
  let e := b / 2 ^ 52 in
  let f := b mod 2 ^ 52 in
  if bool_decide (e = 0) then f else (2 ^ 52 + f) * 2 ^ (e - 1).

Definition inf_bits : Z := 2047 * 2 ^ 52.
Definition sign_bit : Z := 2 ^ 63.
(** [math.NaN()] *)
Definition NaN : float64 := mkFloat64 (inf_bits + 2 ^ 51 + 1).

(** [n / d] to the nearest integer, ties to even. *)
Definition round_even (n d : Z) : Z :=
  let q := n / d in
  let r := n mod d in
  if bool_decide (2 * r < d) then q
  else if bool_decide (d < 2 * r) then q + 1
  else if Z.even q then q else q + 1.

(** The bits of the magnitude nearest to [n / d] units.  The significand has 53
    bits unless the value is subnormal; a carry out of it moves to the exponent by
    the layout of the bits. *)
Definition round_mag (n d : Z) : Z :=
  let e := Z.max 0 (Z.log2 (n / d) - 52) in
  e * 2 ^ 52 + round_even n (d * 2 ^ e).

Definition is_nan (f : float64) : bool := bool_decide (inf_bits < f64_bits f mod sign_bit).
Definition is_inf (f : float64) : bool := bool_decide (f64_bits f mod sign_bit = inf_bits).
Definition is_neg (f : float64) : bool := bool_decide (sign_bit ≤ f64_bits f).
Definition float_wf (f : float64) : Prop := 0 ≤ f64_bits f < 2 ^ 64.

Definition with_sign (neg : bool) (b : Z) : float64 :=
  mkFloat64 (if neg then sign_bit + b else b).

(** [float64(n)] for an unsigned [n]. *)
Definition of_uint (n : Z) : float64 := mkFloat64 (round_mag (n * 2 ^ 1074) 1).

(** ** [ParseFloat] *)

(** The bits of [m * base ^ p], where [base] is 10 or, for hexadecimal, 2. *)
Definition scaled_bits (base m p : Z) : Z :=
  if bool_decide (0 ≤ p) then round_mag (m * base ^ p * 2 ^ 1074) 1
  else round_mag (m * 2 ^ 1074) (base ^ (- p)).

Fixpoint map_string (f : ascii → ascii) (s : string) : string :=
  match s with
  | EmptyString => EmptyString
  | String c s' => String (f c) (map_string f s')
  end.

(** [special]: infinities and NaN, in any case; only infinities take a sign. *)
Definition special (s : string) : option float64 :=
  let '(neg, s1) := split_sign (map_string to_lower_ascii s) in
  if decide (s1 = "inf" ∨ s1 = "infinity") then Some (with_sign neg inf_bits)
  else if decide (map_string to_lower_ascii s = "nan") then Some NaN
  else None.

Definition digit_of (hex : bool) (c : ascii) : option Z :=
  match digit_val c with
  | Some d => Some d
  | None => let n := code (to_lower_ascii c) in
            if hex && bool_decide (97 ≤ n ≤ 102) then Some (n - 87) else None
  end.

(** The digits read so far: their value, how many stood after the point, and
    what else was seen. *)
Record mantissa : Type := mkMantissa {
  m_value : Z;
  m_frac : Z;
  m_dot : bool;
  m_digits : bool;
  m_under : bool;
}.

Fixpoint read_mantissa (hex : bool) (s : string) (m : mantissa) : mantissa * string :=
  match s with
  | EmptyString => (m, EmptyString)
  | String c s' =>
      if decide (c = "_"%char)
      then read_mantissa hex s' (mkMantissa (m_value m) (m_frac m) (m_dot m) (m_digits m) true)
      else if decide (c = "."%char) then
        if m_dot m then (m, s)
        else read_mantissa hex s' (mkMantissa (m_value m) (m_frac m) true (m_digits m) (m_under m))
      else match digit_of hex c with
           | Some d =>
               read_mantissa hex s'
                 (mkMantissa (m_value m * (if hex then 16 else 10) + d)
                    (if m_dot m then m_frac m + 1 else m_frac m) (m_dot m) true (m_under m))
           | None => (m, s)
           end
  end.

(** The digits of the exponent; it stops growing at five digits. *)
Fixpoint read_exp (s : string) (e : Z) (under : bool) : Z * bool * string :=
  match s with
  | EmptyString => (e, under, EmptyString)
  | String c s' =>
      if decide (c = "_"%char) then read_exp s' e true
      else match digit_val c with
           | Some d => read_exp s' (if e <? 10000 then e * 10 + d else e) under
           | None => (e, under, s)
           end
  end.

(** An optional exponent after the letter [mark]: [None] is a syntax error. *)
Definition read_exponent (mark : ascii) (required : bool) (s : string) :
    option (Z * bool * string) :=
  match s with
  | String c s1 =>
      if decide (to_lower_ascii c = mark) then
        let '(neg, s2) := split_sign s1 in
        match s2 with
        | String d _ =>
            match digit_val d with
            | Some _ => let '(e, under, rest) := read_exp s2 0 false in
                        Some (if neg then - e else e, under, rest)
            | None => None
            end
        | EmptyString => None
        end
      else if required then None else Some (0, false, s)
  | EmptyString => if required then None else Some (0, false, s)
  end.

(** [underscoreOK]: underscores only between digits, or after a base prefix. *)
Inductive saw : Type := SawStart | SawDigit | SawUnderscore | SawOther.

Fixpoint underscore_loop (hex : bool) (s : string) (w : saw) : bool :=
  match s with
  | EmptyString => match w with SawUnderscore => false | _ => true end
  | String c s' =>
      match digit_of hex c with
      | Some _ => underscore_loop hex s' SawDigit
      | None =>
          if decide (c = "_"%char) then
            match w with SawDigit => underscore_loop hex s' SawUnderscore | _ => false end
          else match w with SawUnderscore => false | _ => underscore_loop hex s' SawOther end
      end
  end.

Definition underscoreOK (s : string) : bool :=
  match (split_sign s).2 with
  | String z (String x s2) as s1 =>
      if decide (z = "0"%char ∧ to_lower_ascii x ∈ ["b"%char; "o"%char; "x"%char])
      then underscore_loop (bool_decide (to_lower_ascii x = "x"%char)) s2 SawDigit
      else underscore_loop false s1 SawStart
  | s1 => underscore_loop false s1 SawStart
  end.

(** A base prefix is only looked for when something follows it. *)
Definition hex_prefix (s : string) : option string :=
  match s with
  | String z (String x (String _ _ as s2)) =>
      if decide (z = "0"%char ∧ to_lower_ascii x = "x"%char) then Some s2 else None
  | _ => None
  end.

Definition read_number (s : string) : option Z :=
  let '(hex, s1) := match hex_prefix s with Some s1 => (true, s1) | None => (false, s) end in
  let '(m, s2) := read_mantissa hex s1 (mkMantissa 0 0 false false false) in
  if negb (m_digits m) then None
  else match read_exponent (if hex then "p"%char else "e"%char) hex s2 with
       | Some (e, under, EmptyString) =>
           if (m_under m || under) && negb (underscoreOK s) then None
           else Some (if hex then scaled_bits 2 (m_value m) (e - 4 * m_frac m)
                      else scaled_bits 10 (m_value m) (e - m_frac m))
       | _ => None
       end.

Definition ParseFloat (s : string) : result num_error float64 :=
  match special s with
  | Some f => Ok f
  | None =>
      let '(neg, s1) := split_sign s in
      match read_number s1 with
      | Some b => if bool_decide (b < inf_bits) then Ok (with_sign neg b) else Err ErrRange
      | None => Err ErrSyntax
      end
  end.

(** ** [FormatFloat] *)

Definition dec_string (n : Z) : string :=
  format_uint_loop (S (Z.to_nat (Z.log2 n))) n EmptyString.

Fixpoint zeros (n : nat) : string :=
  match n with O => EmptyString | S n => String "0"%char (zeros n) end.

(** [d * 10 ^ k] in positional notation. *)
Definition render (d k : Z) : string :=
  let s := dec_string d in
  if bool_decide (0 ≤ k) then s +:+ zeros (Z.to_nat k)
  else
    let frac := Z.to_nat (- k) in
    let len := String.length s in
    if bool_decide (frac < len)%nat
    then String.substring 0 (len - frac) s +:+ "." +:+ String.substring (len - frac) frac s
    else "0." +:+ zeros (frac - len) +:+ s.

(** [d * 10 ^ k], when it reads back as [b], among the two decimals with
    exponent [k] around the value: the nearer one first. *)
Definition try_exponent (b k : Z) : option Z :=
  let n := units b * 10 ^ Z.max 0 (- k) in
  let d := 2 ^ 1074 * 10 ^ Z.max 0 k in
  let near := round_even n d in
  let other := if bool_decide (near = n / d) then near + 1 else n / d in
  if bool_decide (scaled_bits 10 near k = b) then Some near
  else if bool_decide (scaled_bits 10 other k = b) then Some other
  else None.

(** The fewest digits that read back: the exponent comes down from the first
    digit's.  At 10^-1074 the decimal is exact, and the search ends. *)
Fixpoint shortest (fuel : nat) (b k : Z) : Z * Z :=
  match fuel with
  | O => (units b * 5 ^ 1074, -1074)
  | S fuel =>
      match try_exponent b k with
      | Some d => if bool_decide (d mod 10 = 0) then (d / 10, k + 1) else (d, k)
      | None => shortest fuel b (k - 1)
      end
  end.

(** The exponent of the first digit. *)
Definition first_exponent (b : Z) : Z :=
  Z.of_nat (String.length (dec_string (units b * 10 ^ 400 / 2 ^ 1074))) - 401.

Definition FormatFloat (f : float64) : string :=
  let b := f64_bits f mod sign_bit in
  if is_nan f then "NaN"
  else if is_inf f then (if is_neg f then "-Inf" else "+Inf")
  else
    let s := if bool_decide (b = 0) then "0"
             else let k := first_exponent b in
                  let '(d, p) := shortest (Z.to_nat (k + 1074)) b k in render d p in
    if is_neg f then String "-"%char s else s.

(** ** Lemmas: rounding *)

Lemma round_even_exact m d : 0 < d → round_even (m * d) d = m.
Proof.
  intros Hd. unfold round_even. rewrite Z.div_mul, Z.mod_mul by lia.
  by rewrite bool_decide_true by lia.
Qed.

Lemma round_even_near n d : 0 < d → round_even n d = n / d ∨ round_even n d = n / d + 1.
Proof. intros Hd. unfold round_even. repeat case_bool_decide; [auto..|]. destruct (Z.even _); auto. Qed.

Lemma round_even_scale n d c : 0 < d → 0 < c → round_even (n * c) (d * c) = round_even n d.
Proof.
  intros Hd Hc. unfold round_even.
  rewrite Z.div_mul_cancel_r, Z.mul_mod_distr_r by lia.
  rewrite (bool_decide_ext (2 * (n mod d * c) < d * c) (2 * (n mod d) < d)) by nia.
  by rewrite (bool_decide_ext (d * c < 2 * (n mod d * c)) (d < 2 * (n mod d))) by nia.
Qed.

Lemma round_mag_scale n d c : 0 < d → 0 < c → round_mag (n * c) (d * c) = round_mag n d.
Proof.
  intros Hd Hc. unfold round_mag. rewrite Z.div_mul_cancel_r by lia.
  set (e := Z.max 0 (Z.log2 (n / d) - 52)).
  replace (d * c * 2 ^ e) with (d * 2 ^ e * c) by ring.
  by rewrite round_even_scale by (unfold e; lia).
Qed.

(** A magnitude rounds to itself. *)
Lemma round_mag_exact b d : 0 ≤ b < inf_bits → 0 < d → round_mag (units b * d) d = b.
Proof.
  intros Hb Hd. rewrite <- (Z.mul_1_l d) at 2. rewrite round_mag_scale by lia.
  unfold round_mag, units. rewrite Z.div_1_r, Z.mul_1_l.
  pose proof (Z.div_mod b (2 ^ 52) ltac:(lia)) as E.
  pose proof (Z.mod_pos_bound b (2 ^ 52) ltac:(lia)) as Hf.
  assert (0 ≤ b / 2 ^ 52) as He by (apply Z.div_pos; lia).
  set (e := b / 2 ^ 52) in *. set (f := b mod 2 ^ 52) in *.
  case_bool_decide as H0.
  - rewrite (Z.max_l 0).
    + rewrite Z.pow_0_r. rewrite <- (Z.mul_1_r f), round_even_exact by lia. lia.
    + destruct (Z.eq_dec f 0) as [->|]; [simpl; lia|].
      assert (Z.log2 f < 52) by (apply Z.log2_lt_pow2; lia). lia.
  - rewrite Z.log2_mul_pow2 by lia.
    assert (Z.log2 (2 ^ 52 + f) = 52) as ->.
    { apply Z.log2_unique; [lia|]. change (2 ^ Z.succ 52) with (2 ^ 52 + 2 ^ 52). lia. }
    replace (Z.max 0 (e - 1 + 52 - 52)) with (e - 1) by lia.
    rewrite round_even_exact by (apply Z.pow_pos_nonneg; lia). lia.
Qed.

Lemma scaled_bits_strip d k :
  d mod 10 = 0 → scaled_bits 10 (d / 10) (k + 1) = scaled_bits 10 d k.
Proof.
  intros Hd. pose proof (Z.div_mod d 10 ltac:(lia)) as E. rewrite Hd, Z.add_0_r in E.
  rewrite E at 2. generalize (d / 10) as x. intros x. unfold scaled_bits.
  case_bool_decide; case_bool_decide; try lia.
  - rewrite Z.pow_add_r by lia. f_equal. ring.
  - assert (k = -1) as -> by lia. change (10 ^ (- -1)) with (1 * 10).
    change (10 ^ (-1 + 1)) with 1. replace (10 * x * 2 ^ 1074) with (x * 1 * 2 ^ 1074 * 10) by ring.
    by rewrite round_mag_scale by lia.
  - replace (- k) with (- (k + 1) + 1) by lia. rewrite (Z.pow_add_r _ _ 1), Z.pow_1_r by lia.
    replace (10 * x * 2 ^ 1074) with (x * 2 ^ 1074 * 10) by ring.
    rewrite round_mag_scale; [done| |lia]. apply Z.pow_pos_nonneg; lia.
Qed.

Lemma scaled_bits_pow d k : 0 ≤ k → scaled_bits 10 (d * 10 ^ k) 0 = scaled_bits 10 d k.
Proof.
  intros Hk. unfold scaled_bits. rewrite !bool_decide_true by lia. f_equal.
  rewrite Z.pow_0_r. ring.
Qed.

(** ** Lemmas: [shortest] *)

Lemma units_nonneg b : 0 ≤ b → 0 ≤ units b.
Proof.
  intros Hb. unfold units. pose proof (Z.mod_pos_bound b (2 ^ 52) ltac:(lia)).
  assert (0 ≤ b / 2 ^ 52) by (apply Z.div_pos; lia).
  case_bool_decide; [lia|]. apply Z.mul_nonneg_nonneg; [lia|]. apply Z.pow_nonneg. lia.
Qed.

Lemma try_exponent_Some b k d :
  0 ≤ b → try_exponent b k = Some d → scaled_bits 10 d k = b ∧ 0 ≤ d.
Proof.
  intros Hb. unfold try_exponent.
  set (n := units b * 10 ^ Z.max 0 (- k)). set (m := 2 ^ 1074 * 10 ^ Z.max 0 k).
  assert (0 < m) as Hm by (apply Z.mul_pos_pos; apply Z.pow_pos_nonneg; lia).
  assert (0 ≤ n / m) as Hn.
  { apply Z.div_pos; [|done]. apply Z.mul_nonneg_nonneg; [by apply units_nonneg|].
    apply Z.pow_nonneg. lia. }
  clearbody n m. generalize (round_even_near n m Hm). generalize (round_even n m) as near.
  intros near E. repeat case_bool_decide; intros [= <-] || intros [=]; split; done || lia.
Qed.

Lemma scaled_bits_exact b : 0 ≤ b < inf_bits → scaled_bits 10 (units b * 5 ^ 1074) (-1074) = b.
Proof.
  intros Hb. unfold scaled_bits. rewrite bool_decide_false by lia. change (- -1074) with 1074.
  replace (units b * 5 ^ 1074 * 2 ^ 1074) with (units b * 10 ^ 1074).
  - apply round_mag_exact; [done|]. apply Z.pow_pos_nonneg; lia.
  - change 10 with (5 * 2). rewrite Z.pow_mul_l. ring.
Qed.

Lemma shortest_reads fuel b k : 0 ≤ b < inf_bits →
  let '(d, p) := shortest fuel b k in scaled_bits 10 d p = b ∧ 0 ≤ d.
Proof.
  intros Hb. revert k. induction fuel as [|fuel IH]; intros k; cbn [shortest].
  - split; [by apply scaled_bits_exact|].
    apply Z.mul_nonneg_nonneg; [apply units_nonneg; lia|]. apply Z.pow_nonneg. lia.
  - destruct (try_exponent b k) as [d|] eqn:Ht; [|apply IH].
    apply try_exponent_Some in Ht as [Ht Hd]; [|lia]. case_bool_decide as H10; [|done].
    rewrite scaled_bits_strip by done. split; [done|]. apply Z.div_pos; lia.
Qed.

(** ** Lemmas: strings of digits *)

Lemma digits_value_app s t n :
  digits_value (s +:+ t) n = match digits_value s n with Some m => digits_value t m | None => None end.
Proof.
  revert n. induction s as [|c s IH]; intros n; [done|]. simpl.
  destruct (digit_val c); [apply IH|done].
Qed.

Lemma digits_value_zeros k n : digits_value (zeros k) n = Some (n * 10 ^ Z.of_nat k).
Proof.
  revert n. induction k as [|k IH]; intros n; [simpl; f_equal; lia|].
  change (digits_value (zeros (S k)) n) with (digits_value (zeros k) (n * 10 + 0)).
  rewrite IH, Nat2Z.inj_succ, Z.pow_succ_r by lia. f_equal. ring.
Qed.

Lemma format_loop_value fuel n acc :
  0 ≤ n < 10 ^ Z.of_nat (S fuel) →
  digits_value (format_uint_loop (S fuel) n acc) 0 = digits_value acc n.
Proof.
  assert (Hread : ∀ m d rest, 0 ≤ d < 10 →
    digits_value (String (digit_char d) rest) m = digits_value rest (m * 10 + d)).
  { intros m d rest Hd. simpl. by rewrite digit_val_char. }
  revert n acc. induction fuel as [|fuel IH]; intros n acc Hn; cbn [format_uint_loop];
    destruct (Z.ltb_spec n 10).
  - rewrite Hread by lia. f_equal. lia.
  - simpl in Hn. lia.
  - rewrite Hread by lia. f_equal. lia.
  - rewrite Nat2Z.inj_succ, Z.pow_succ_r in Hn by lia.
    etrans; [apply IH; lia|]. rewrite Hread by lia. f_equal. lia.
Qed.

Lemma dec_string_value n : 0 ≤ n → digits_value (dec_string n) 0 = Some n.
Proof.
  intros Hn. unfold dec_string. rewrite format_loop_value; [done|]. split; [done|].
  rewrite Nat2Z.inj_succ, Z2Nat.id by apply Z.log2_nonneg.
  destruct (Z.eq_dec n 0) as [->|]; [done|].
  destruct (Z.log2_spec n) as [_ Hl]; [lia|].
  apply Z.lt_le_trans with (2 ^ Z.succ (Z.log2 n)); [done|].
  apply Z.pow_le_mono_l. lia.
Qed.

Lemma FormatUint_value n : 0 ≤ n ≤ max_uint64 → digits_value (FormatUint n) 0 = Some n.
Proof.
  intros Hn. unfold FormatUint. rewrite format_loop_value; [done|]. split; [lia|].
  eapply Z.le_lt_trans; [apply Hn|]. by vm_compute.
Qed.

Lemma digit_val_not c d : digit_val c = Some d → c ≠ "_"%char ∧ c ≠ "."%char.
Proof. intros Hc. split; intros ->; by vm_compute in Hc. Qed.

Lemma digit_of_val hex c d : digit_val c = Some d → digit_of hex c = Some d.
Proof. unfold digit_of. by intros ->. Qed.

(** Reading digits before anything else. *)
Lemma read_digits s rest n v fr dot dg un :
  digits_value s n = Some v →
  read_mantissa false (s +:+ rest) (mkMantissa n fr dot dg un) =
    read_mantissa false rest
      (mkMantissa v (if dot then fr + Z.of_nat (String.length s) else fr) dot
         (dg || negb (bool_decide (s = EmptyString))) un).
Proof.
  revert n fr dg. induction s as [|c s IH]; intros n fr dg; simpl.
  - intros [= ->]. rewrite orb_false_r. by destruct dot; rewrite ?Z.add_0_r.
  - destruct (digit_val c) as [d|] eqn:Hd; [|done]. intros Hv.
    destruct (digit_val_not _ _ Hd). rewrite !decide_False by done.
    rewrite (digit_of_val _ _ _ Hd). simpl. rewrite (IH _ _ _ Hv). simpl. rewrite orb_true_r.
    f_equal. destruct dot; f_equal; lia.
Qed.

Lemma substring_split m s :
  (m ≤ String.length s)%nat →
  String.substring 0 m s +:+ String.substring m (String.length s - m) s = s.
Proof.
  revert m. induction s as [|c s IH]; intros m Hm; simpl in *.
  - by replace m with 0%nat by lia.
  - destruct m as [|m]; simpl.
    + clear. change (String c (String.substring 0 (String.length s) s) = String c s). f_equal.
      induction s as [|c' s IH]; simpl; [done|]. by rewrite IH.
    + rewrite str_app_cons. f_equal. apply IH. lia.
Qed.

Lemma substring_length m n s :
  (m + n ≤ String.length s)%nat → String.length (String.substring m n s) = n.
Proof.
  revert m n. induction s as [|c s IH]; intros m n Hmn; simpl in *.
  - by assert (m = 0%nat ∧ n = 0%nat) as [-> ->] by lia.
  - destruct m as [|m]; [destruct n as [|n]; simpl; [done|]|]; rewrite IH; lia.
Qed.

(** ** Lemmas: reading back what is printed *)

Lemma zeros_length n : String.length (zeros n) = n.
Proof. induction n as [|n IH]; simpl; by rewrite ?IH. Qed.

Lemma format_loop_nonempty fuel n acc : format_uint_loop (S fuel) n acc ≠ EmptyString.
Proof.
  revert n acc. induction fuel as [|fuel IH]; intros n acc; cbn [format_uint_loop];
    destruct (n <? 10); try done. apply IH.
Qed.

Lemma digits_nonempty s : s ≠ EmptyString → negb (bool_decide (s = EmptyString)) = true.
Proof. intros Hs. by rewrite bool_decide_false. Qed.

Lemma read_point rest n fr dg un :
  read_mantissa false ("." +:+ rest) (mkMantissa n fr false dg un) =
    read_mantissa false rest (mkMantissa n fr true dg un).
Proof. done. Qed.

(** The whole of a rendered decimal is read, with its value. *)
Lemma read_render d k : 0 ≤ d → ∃ m fr dot,
  read_mantissa false (render d k) (mkMantissa 0 0 false false false) =
    (mkMantissa m fr dot true false, EmptyString) ∧
  scaled_bits 10 m (0 - fr) = scaled_bits 10 d k.
Proof.
  intros Hd. pose proof (dec_string_value d Hd) as Hv.
  assert (dec_string d ≠ EmptyString) as Hne by apply format_loop_nonempty.
  unfold render. set (s := dec_string d) in *. clearbody s.
  case_bool_decide as Hk; [|case_bool_decide as Hlen].
  - assert (digits_value (s +:+ zeros (Z.to_nat k)) 0 = Some (d * 10 ^ k)) as Hz.
    { rewrite digits_value_app, Hv, digits_value_zeros. by rewrite Z2Nat.id. }
    exists (d * 10 ^ k), 0, false. split; [|by apply scaled_bits_pow].
    rewrite <- (str_app_nil_r (s +:+ _)). rewrite (read_digits _ _ _ _ _ _ _ _ Hz). simpl.
    rewrite digits_nonempty; [done|]. by destruct s.
  - set (i := (String.length s - Z.to_nat (- k))%nat).
    assert (i ≤ String.length s)%nat as Hi by lia.
    replace (Z.to_nat (- k)) with (String.length s - i)%nat by lia.
    rewrite <- (substring_split i s Hi) in Hv. rewrite digits_value_app in Hv.
    destruct (digits_value (String.substring 0 i s) 0) as [va|] eqn:Ha; [|done].
    exists d, (- k), true. split; [|by f_equal; lia].
    rewrite (read_digits _ _ _ _ _ _ _ _ Ha), read_point.
    rewrite <- (str_app_nil_r (String.substring i _ s)), (read_digits _ _ _ _ _ _ _ _ Hv). simpl.
    rewrite digits_nonempty; [|intros E; apply (f_equal String.length) in E;
      rewrite substring_length in E by lia; simpl in E; lia].
    rewrite substring_length by lia. f_equal. f_equal. lia.
  - exists d, (- k), true. split; [|by f_equal; lia].
    change ("0." +:+ zeros (Z.to_nat (- k) - String.length s) +:+ s)
      with ("0" +:+ ("." +:+ (zeros (Z.to_nat (- k) - String.length s) +:+ s))).
    rewrite (read_digits "0" _ 0 0) by done. simpl bool_decide. rewrite read_point.
    assert (digits_value (zeros (Z.to_nat (- k) - String.length s) +:+ s) 0 = Some d) as Hz.
    { by rewrite digits_value_app, digits_value_zeros, Z.mul_0_l. }
    rewrite <- (str_app_nil_r (zeros _ +:+ s)), (read_digits _ _ _ _ _ _ _ _ Hz). simpl.
    rewrite str_app_length, zeros_length. f_equal. f_equal. lia.
Qed.

Lemma digit_val_lower c d : digit_val c = Some d → to_lower_ascii c = c.
Proof.
  unfold digit_val, to_lower_ascii, code. intros Hd.
  case_bool_decide; [|done]. by rewrite bool_decide_false by lia.
Qed.

Lemma read_all_no_prefix s m m' : read_mantissa false s m = (m', EmptyString) → hex_prefix s = None.
Proof.
  destruct s as [|z [|x [|y s]]]; try done. unfold hex_prefix. case_decide as Hzx; [|done].
  destruct Hzx as [-> Hx]. cbn [read_mantissa]. rewrite !decide_False by done.
  change (digit_of false "0"%char) with (Some 0). cbn [read_mantissa].
  assert (x ≠ "_"%char ∧ x ≠ "."%char ∧ digit_of false x = None) as (Hx1 & Hx2 & Hx3).
  { split; [|split]; [intros ->; by vm_compute in Hx..|].
    unfold digit_of. destruct (digit_val x) as [d|] eqn:E; [exfalso|done].
    rewrite (digit_val_lower _ _ E) in Hx. by subst x. }
  by rewrite !decide_False, Hx3 by done.
Qed.

Lemma read_number_render d k : 0 ≤ d → read_number (render d k) = Some (scaled_bits 10 d k).
Proof.
  intros Hd. destruct (read_render d k Hd) as (m & fr & dot & Hr & Hs).
  unfold read_number. rewrite (read_all_no_prefix _ _ _ Hr), Hr. simpl. by rewrite Hs.
Qed.

(** A printed number begins with a digit. *)
Definition digit_first (s : string) : Prop := ∃ c s' d, s = String c s' ∧ digit_val c = Some d.

Lemma format_loop_digit_first n acc : 0 ≤ n → ∀ fuel, digit_first (format_uint_loop (S fuel) n acc).
Proof.
  intros Hn fuel. destruct (format_uint_loop_head fuel n acc Hn) as (d & rest & Hd & ->).
  exists (digit_char d), rest, d. split; [done|]. by apply digit_val_char.
Qed.

Lemma digit_first_app s t : digit_first s → digit_first (s +:+ t).
Proof. intros (c & s' & d & -> & Hd). exists c, (s' +:+ t), d. done. Qed.

Lemma render_digit_first d k : 0 ≤ d → digit_first (render d k).
Proof.
  intros Hd. assert (digit_first (dec_string d)) as Hs by by apply format_loop_digit_first.
  unfold render. case_bool_decide; [by apply digit_first_app|]. case_bool_decide as Hlen.
  - apply digit_first_app. destruct Hs as (c & s' & x & E0 & Hx). rewrite E0 in *.
    destruct (String.length (String c s') - Z.to_nat (- k))%nat as [|i] eqn:E; [lia|].
    exists c, (String.substring 0 i s'), x. done.
  - by exists "0"%char, ("." +:+ (zeros (Z.to_nat (- k) - String.length (dec_string d)) +:+ dec_string d)), 0.
Qed.

Lemma split_sign_digit s : digit_first s → split_sign s = (false, s).
Proof.
  intros (c & s' & d & -> & Hd). unfold split_sign.
  rewrite !decide_False; [done|intros ->; by vm_compute in Hd..].
Qed.

Lemma special_digit neg s : digit_first s →
  special (if neg : bool then String "-"%char s else s) = None.
Proof.
  intros Hs. assert (split_sign (map_string to_lower_ascii s) = (false, map_string to_lower_ascii s))
    as Hl.
  { destruct Hs as (c & s' & d & -> & Hd). apply split_sign_digit.
    exists (to_lower_ascii c), (map_string to_lower_ascii s'), d. split; [done|].
    by rewrite (digit_val_lower _ _ Hd). }
  destruct Hs as (c & s' & d & -> & Hd). unfold special.
  assert (∀ b t, map_string to_lower_ascii (String c s') = String b t → digit_val b = None → False)
    as Hne.
  { simpl. rewrite (digit_val_lower _ _ Hd). intros b t [= -> _]. congruence. }
  destruct neg; [change (split_sign (map_string to_lower_ascii (String "-" (String c s'))))
    with (true, map_string to_lower_ascii (String c s'))|rewrite Hl]; cbv beta iota;
    (rewrite decide_False by (intros [E|E]; by apply Hne in E));
    (rewrite decide_False by (intros E; try done; by apply Hne in E)); done.
Qed.

(** [ParseFloat] reads back what [FormatFloat] prints: every float64 but NaN,
    signed zeros and infinities included. *)
Theorem ParseFloat_FormatFloat f :
  float_wf f → is_nan f = false → ParseFloat (FormatFloat f) = Ok f.
Proof.
  destruct f as [bits]. unfold float_wf, FormatFloat, is_nan, is_inf, is_neg. cbn [f64_bits].
  intros Hwf Hnan. cbv zeta. rewrite Hnan. apply bool_decide_eq_false in Hnan.
  assert (with_sign (bool_decide (sign_bit ≤ bits)) (bits mod sign_bit) = mkFloat64 bits) as Hb.
  { unfold with_sign, sign_bit in *. case_bool_decide; f_equal; lia. }
  pose proof (Z.mod_pos_bound bits sign_bit ltac:(done)) as [Hpos _].
  clear Hwf. revert Hnan Hb Hpos. generalize (bits mod sign_bit) as b.
  generalize (bool_decide (sign_bit ≤ bits)) as neg. intros neg b Hnan Hb Hpos. rewrite <- Hb.
  destruct (bool_decide_reflect (b = inf_bits)) as [->|Hinf]; [by destruct neg; vm_compute|].
  match goal with |- context [if neg then String _ ?x else _] => set (s := x) end.
  assert (digit_first s ∧ read_number s = Some b) as [Hd Hr]; [subst s|].
  { case_bool_decide as H0; [subst b; split; [by exists "0"%char, EmptyString, 0|by vm_compute]|].
    pose proof (shortest_reads (Z.to_nat (first_exponent b + 1074)) b (first_exponent b) ltac:(lia))
      as Hs. destruct (shortest _ _ _) as [d p]; destruct Hs as [Hs Hd].
    split; [by apply render_digit_first|by rewrite read_number_render, Hs]. }
  unfold ParseFloat. rewrite special_digit by done.
  assert (split_sign (if neg then String "-" s else s) = (neg, s)) as ->.
  { destruct neg; [done|by apply split_sign_digit]. }
  rewrite Hr. by rewrite bool_decide_true by lia.
Qed.
