(* ===== verification/GoTime.v ===== *)
(** * time.Duration and net.SplitHostPort, as far as the configuration uses them

    A [time.Duration] is an int64 of nanoseconds.  [ParseDuration] is written out
    with its accumulators in uint64 and its fraction in float64. *)

From S2P Require Import Prelude GoStrings GoInt Domain GoFloat.
Open Scope Z_scope.

Module GoTime.

Definition Nanosecond : Z := 1.
Definition Second : Z := 1000000000.

(** [time.Duration(n) * time.Second] *)
Definition seconds (n : Z) : Z := mul64 n Second.

(** [unitMap]; the micro sign and the Greek letter mu are two spellings of one unit. *)
Definition unit_of (u : string) : option Z :=
  if bool_decide (u = "ns") then Some 1
  else if bool_decide (u ∈ ["us"; str_of_bytes [194; 181; 115]%N; str_of_bytes [206; 188; 115]%N])
       then Some 1000
  else if bool_decide (u = "ms") then Some 1000000
  else if bool_decide (u = "s") then Some Second
  else if bool_decide (u = "m") then Some (60 * Second)
  else if bool_decide (u = "h") then Some (3600 * Second)
  else None.

(** [leadingInt]: [None] on overflow. *)
Fixpoint leadingInt (s : string) (x : Z) : option (Z * string) :=
  match s with
  | String c s' =>
      match digit_val c with
      | Some d => if 2 ^ 63 / 10 <? x then None
                  else if 2 ^ 63 <? x * 10 + d then None else leadingInt s' (x * 10 + d)
      | None => Some (x, s)
      end
  | EmptyString => Some (x, s)
  end.

(** [leadingFraction]: digits that no longer fit are skipped. *)
Fixpoint leadingFraction (s : string) (x scale : Z) (overflow : bool) : Z * Z * string :=
  match s with
  | String c s' =>
      match digit_val c with
      | Some d => if overflow then leadingFraction s' x scale true
                  else if (2 ^ 63 - 1) / 10 <? x then leadingFraction s' x scale true
                  else if 2 ^ 63 <? x * 10 + d then leadingFraction s' x scale true
                  else leadingFraction s' (x * 10 + d) (scale * 10) false
      | None => (x, scale, s)
      end
  | EmptyString => (x, scale, s)
  end.

(** The unit reaches up to the next digit or dot. *)
Fixpoint take_unit (s : string) : string * string :=
  match s with
  | String c s' =>
      if bool_decide (c = "."%char) || bool_decide (is_Some (digit_val c)) then (EmptyString, s)
      else let '(u, r) := take_unit s' in (String c u, r)
  | EmptyString => (EmptyString, s)
  end.

(** [uint64(float64(f) * (float64(unit) / scale))], each operation rounded. *)
Definition fraction (f unit scale : Z) : Z :=
  let quotient := round_mag (unit * 2 ^ 1074) scale in
  units (round_mag (units (round_mag (f * 2 ^ 1074) 1) * units quotient) (2 ^ 1074)) / 2 ^ 1074.

(** The part before the unit: the number before the dot, the digits behind it with
    their scale, and what follows. *)
Definition leading_number (s : string) : option (Z * Z * Z * string) :=
  match s with
  | String c _ =>
      if bool_decide (c = "."%char) || bool_decide (is_Some (digit_val c)) then
        match leadingInt s 0 with
        | None => None
        | Some (v, s1) =>
            let pre := negb (bool_decide (s1 = s)) in
            match s1 with
            | String c1 s2 =>
                if bool_decide (c1 = "."%char) then
                  let '(f, scale, s3) := leadingFraction s2 0 1 false in
                  if pre || negb (bool_decide (s3 = s2)) then Some (v, f, scale, s3) else None
                else if pre then Some (v, 0, 1, s1) else None
            | EmptyString => if pre then Some (v, 0, 1, s1) else None
            end
        end
      else None
  | EmptyString => None
  end.

(** One number with its unit, in nanoseconds. *)
Definition component (s : string) : option (Z * string) :=
  match leading_number s with
  | None => None
  | Some (v, f, scale, s1) =>
      match take_unit s1 with
      | (EmptyString, _) => None
      | (u, s2) =>
          unit ← unit_of u;
          if 2 ^ 63 / unit <? v then None
          else let v := v * unit in
               if 0 <? f
               then let v := v + fraction f unit scale in if 2 ^ 63 <? v then None else Some (v, s2)
               else Some (v, s2)
      end
  end.

(** The loop; every round takes at least one byte. *)
Fixpoint components (fuel : nat) (s : string) (d : Z) : option Z :=
  match s, fuel with
  | EmptyString, _ => Some d
  | _, O => None
  | _, S fuel =>
      match component s with
      | None => None
      | Some (v, s) => let d := wrapu64 (d + v) in if 2 ^ 63 <? d then None else components fuel s d
      end
  end.

Definition ParseDuration (s : string) : option Z :=
  let '(neg, s) := split_sign s in
  if bool_decide (s = "0") then Some 0
  else if bool_decide (s = EmptyString) then None
  else d ← components (String.length s) s 0;
       if (neg : bool) then Some (- d) else if 2 ^ 63 - 1 <? d then None else Some d.

(** ** Durations read back *)

Lemma components_range fuel s d r : 0 ≤ d ≤ 2 ^ 63 → components fuel s d = Some r → 0 ≤ r ≤ 2 ^ 63.
Proof.
  revert s d. induction fuel as [|fuel IH]; intros [|c s] d Hd; cbn [components]; try done;
    try (intros [= <-]; done).
  destruct (component (String c s)) as [[v s']|]; [|done]. cbv zeta.
  destruct (Z.ltb_spec (2 ^ 63) (wrapu64 (d + v))); [done|]. apply IH. unfold wrapu64 in *. lia.
Qed.

(** What is accepted fits a [time.Duration]. *)
Lemma ParseDuration_range s d : ParseDuration s = Some d → in_int64 d.
Proof.
  unfold ParseDuration. destruct (split_sign s) as [neg s']. unfold64.
  case_bool_decide; [intros [= <-]; lia|]. case_bool_decide; [done|].
  destruct (components _ s' 0) as [r|] eqn:Hr; [|done]. apply components_range in Hr; [|lia]. simpl.
  destruct neg; [intros [= <-]; lia|]. destruct (Z.ltb_spec (2 ^ 63 - 1) r); [done|].
  intros [= <-]. lia.
Qed.

(** Each reader leaves a suffix of what it is given. *)
Definition suffix_of (s r : string) : Prop := ∃ p, s = p +:+ r.

Lemma suffix_refl s : suffix_of s s.
Proof. by exists EmptyString. Qed.

Lemma suffix_cons c s r : suffix_of s r → suffix_of (String c s) r.
Proof. intros [p ->]. by exists (String c p). Qed.

Lemma suffix_trans s t u : suffix_of s t → suffix_of t u → suffix_of s u.
Proof. intros [p ->] [q ->]. exists (p +:+ q). by rewrite str_app_assoc. Qed.

#[local] Hint Resolve suffix_refl suffix_cons : core.

Lemma leadingInt_suffix s x v r : leadingInt s x = Some (v, r) → suffix_of s r.
Proof.
  revert x. induction s as [|c s IH]; intros x; cbn [leadingInt]; [by intros [= _ <-]|].
  destruct (digit_val c); [|by intros [= _ <-]]. do 2 (case_match; [done|]). eauto.
Qed.

Lemma leadingFraction_suffix s : ∀ x scale o f sc r,
  leadingFraction s x scale o = (f, sc, r) → suffix_of s r.
Proof.
  induction s as [|c s IH]; intros x scale o f sc r; cbn [leadingFraction]; [by intros [= _ _ <-]|].
  destruct (digit_val c); [|by intros [= _ _ <-]]. repeat case_match; eauto.
Qed.

Lemma take_unit_app s u r : take_unit s = (u, r) → s = u +:+ r.
Proof.
  revert u. induction s as [|c s IH]; intros u; cbn [take_unit]; [by intros [= <- <-]|].
  destruct (_ || _); [by intros [= <- <-]|]. destruct (take_unit s) as [u1 r1].
  intros [= <- <-]. rewrite str_app_cons. by rewrite (IH u1).
Qed.

Lemma leading_number_suffix s v f sc r : leading_number s = Some (v, f, sc, r) → suffix_of s r.
Proof.
  unfold leading_number. destruct s as [|c s]; [done|]. destruct (_ || _); [|done].
  destruct (leadingInt (String c s) 0) as [[v1 s1]|] eqn:Hi; [|done]. apply leadingInt_suffix in Hi.
  destruct s1 as [|c1 s2]; [case_match; [|done]; by intros [= _ _ _ <-]|].
  case_bool_decide.
  - destruct (leadingFraction s2 0 1 false) as [[f1 sc1] s3] eqn:Hf.
    apply leadingFraction_suffix in Hf. case_match; [|done]. intros [= _ _ _ <-].
    eapply suffix_trans; eauto.
  - case_match; [|done]. by intros [= _ _ _ <-].
Qed.

(** A component ends in its unit. *)
Lemma component_inv s v r : component s = Some (v, r) →
  ∃ p u k, s = p +:+ (u +:+ r) ∧ u ≠ EmptyString ∧ unit_of u = Some k.
Proof.
  unfold component. destruct (leading_number s) as [[[[v1 f] sc] s1]|] eqn:Hn; [|done].
  apply leading_number_suffix in Hn as [p ->].
  destruct (take_unit s1) as [[|c u] s2] eqn:Hu; [done|]. apply take_unit_app in Hu as ->.
  destruct (unit_of (String c u)) as [k|] eqn:Hk; simpl; [|done].
  intros H. exists p, (String c u), k. split; [|done]. cbv zeta in H. repeat (case_match; try done); by simplify_eq.
Qed.

(** Enough fuel: a component takes at least one byte. *)
Lemma component_length s v r : component s = Some (v, r) → (String.length r < String.length s)%nat.
Proof.
  intros (p & u & k & -> & Hu & _)%component_inv. rewrite !str_app_length.
  destruct u; [done|]. simpl. lia.
Qed.

(** *** Accepted durations carry no white space *)
Fixpoint last_byte (s : string) : option ascii :=
  match s with
  | EmptyString => None
  | String c EmptyString => Some c
  | String _ s => last_byte s
  end.

Lemma last_byte_app s t : t ≠ EmptyString → last_byte (s +:+ t) = last_byte t.
Proof.
  intros Ht. induction s as [|c s IH]; [done|]. rewrite str_app_cons. cbn [last_byte].
  destruct (s +:+ t) eqn:E; [|done]. by destruct s, t.
Qed.

Lemma space_edges e : e ∈ space_encodings → e ≠ EmptyString ∧
  from_option visible true (last_byte e) = false ∧
  match e with String c _ => visible c | EmptyString => true end = false.
Proof.
  assert (forallb (λ e, negb (bool_decide (e = EmptyString)) && negb (from_option visible true (last_byte e)) &&
    negb (match e with String c _ => visible c | EmptyString => true end)) space_encodings = true) as H by done.
  rewrite forallb_forall in H. intros He%list_elem_of_In%H.
  apply andb_prop in He as [[H1 H2]%andb_prop H3]. apply negb_true_iff in H1, H2, H3.
  by apply bool_decide_eq_false in H1.
Qed.

Lemma TrimSpace_edges s : match s with String c _ => visible c | EmptyString => true end = true →
  from_option visible true (last_byte s) = true → TrimSpace s = s.
Proof.
  intros Hf Hl. unfold TrimSpace. rewrite (strip_all_fixed _ s), strip_all_fixed; [done|..];
    apply first_some_None; intros e (Hne & He1 & He2)%space_edges.
  - destruct (cut_suffix e s) as [r|] eqn:Hc; [|done]. apply cut_suffix_Some in Hc as ->.
    rewrite last_byte_app in Hl by done. congruence.
  - destruct (cut_prefix e s) as [r|] eqn:Hc; [|done]. apply cut_prefix_Some in Hc as ->.
    destruct e; [done|]. rewrite str_app_cons in Hf. congruence.
Qed.

Lemma unit_last u k : unit_of u = Some k → from_option visible true (last_byte u) = true.
Proof.
  unfold unit_of. intros H.
  repeat (case_bool_decide as Hu; [|clear Hu]); try done; simplify_eq; try reflexivity.
  apply list_elem_of_In in Hu. simpl in Hu. by destruct Hu as [<-|[<-|[<-|[]]]].
Qed.

Lemma components_last fuel s d r : components fuel s d = Some r →
  from_option visible true (last_byte s) = true.
Proof.
  revert s d. induction fuel as [|fuel IH]; intros [|c s] d; cbn [components]; try done.
  destruct (component (String c s)) as [[v s']|] eqn:Hc; [|done]. cbv zeta. case_match; [done|].
  apply component_inv in Hc as (p & u & k & E & Hu & Hk). intros Hr%IH. rewrite E.
  destruct (decide (s' = EmptyString)) as [->|Hs'].
  - rewrite str_app_nil_r, last_byte_app by done. by eapply unit_last.
  - by rewrite str_app_assoc, last_byte_app.
Qed.

Lemma visible_digit c : is_Some (digit_val c) → visible c = true.
Proof. destruct c as [[] [] [] [] [] [] [] []]; intros [d Hd]; vm_compute in Hd; done. Qed.

Lemma components_first fuel c s d r : components fuel (String c s) d = Some r → visible c = true.
Proof.
  destruct fuel; [done|]. cbn [components]. unfold component, leading_number.
  destruct (_ || _) eqn:Hc; [|done]. intros _. apply orb_prop in Hc as [Hc|Hc].
  - apply bool_decide_eq_true in Hc. by subst.
  - by apply bool_decide_eq_true, visible_digit in Hc.
Qed.

Lemma split_sign_cons s neg s1 : split_sign s = (neg, s1) → s = s1 ∨ ∃ c, visible c = true ∧ s = String c s1.
Proof.
  unfold split_sign. destruct s as [|c s]; [intros [= _ <-]; by left|].
  case_decide; [|case_decide]; subst.
  - intros [= <- <-]. right. by exists "+"%char.
  - intros [= <- <-]. right. by exists "-"%char.
  - intros [= <- <-]. by left.
Qed.

Lemma ParseDuration_trim s d : ParseDuration s = Some d → TrimSpace s = s.
Proof.
  unfold ParseDuration. destruct (split_sign s) as [neg s1] eqn:Hsg. intros H.
  assert (s1 ≠ EmptyString ∧ (match s1 with String c _ => visible c | EmptyString => true end = true) ∧
    from_option visible true (last_byte s1) = true) as (Hne & Hf & Hl).
  { case_bool_decide as Hz; [by subst|]. case_bool_decide; [done|]. split; [done|].
    destruct (components _ s1 0) as [r|] eqn:Hr; [|done]. destruct s1 as [|c s1]; [done|].
    split; [by eapply components_first|by eapply components_last]. }
  apply split_sign_cons in Hsg as [->|(c & Hc & ->)]; apply TrimSpace_edges; try done.
  by change (String c s1) with (String c EmptyString +:+ s1); rewrite last_byte_app.
Qed.

Lemma all_visible_digits s n v : digits_value s n = Some v → all_visible s = true.
Proof.
  revert n. induction s as [|c s IH]; intros n; [done|]. cbn [digits_value all_visible].
  destruct (digit_val c) eqn:Hd; [|done]. intros Hs%IH. by rewrite visible_digit.
Qed.

Lemma ParseInt_trim s z : ParseInt s = Ok z → TrimSpace s = s.
Proof.
  intros [Hl _]%ParseInt_spec. apply TrimSpace_visible. unfold int_literal in Hl.
  destruct (split_sign s) as [neg s1] eqn:Hsg.
  assert (all_visible s1 = true) as Hv.
  { destruct s1; [done|]. destruct (digits_value _ 0) eqn:Hd; [|done]. by eapply all_visible_digits. }
  apply split_sign_cons in Hsg as [->|(c & Hc & ->)]; [done|]. simpl. by rewrite Hc.
Qed.

Lemma TrimSpace_FormatInt z : in_int64 z → TrimSpace (FormatInt z) = FormatInt z.
Proof. intros Hz. eapply ParseInt_trim, ParseInt_FormatInt, Hz. Qed.

Lemma components_fuel s : ∀ fuel fuel' d, (String.length s ≤ fuel)%nat → (String.length s ≤ fuel')%nat →
  components fuel s d = components fuel' s d.
Proof.
  induction s as [s IH] using (induction_ltof1 _ String.length). unfold ltof in IH.
  intros [|fuel] [|fuel'] d; destruct s as [|c s]; simpl String.length; try lia; try done.
  intros Hf Hf'. cbn [components]. destruct (component (String c s)) as [[v s']|] eqn:Hc; [|done].
  apply component_length in Hc. simpl in Hc. cbv zeta. case_match; [done|]. apply IH; [done|lia..].
Qed.

Lemma leadingInt_digits s rest n v : digits_value s n = Some v → 0 ≤ n → v ≤ 2 ^ 63 →
  (∀ c r, rest = String c r → digit_val c = None) → leadingInt (s +:+ rest) n = Some (v, rest).
Proof.
  intros Hs Hn Hv Hrest. revert n Hs Hn. induction s as [|c s IH]; intros n Hs Hn.
  - injection Hs as <-. change (leadingInt rest n = Some (n, rest)).
    destruct rest as [|c r]; [done|]. cbn [leadingInt]. by rewrite (Hrest c r).
  - rewrite str_app_cons. cbn [leadingInt digits_value] in *.
    destruct (digit_val c) as [d|] eqn:Hd; [|done]. pose proof (digit_val_range _ _ Hd).
    pose proof (digits_value_ge s (n * 10 + d) v ltac:(lia) Hs).
    change (2 ^ 63) with 9223372036854775808 in *.
    destruct (Z.ltb_spec (9223372036854775808 / 10) n); [lia|].
    destruct (Z.ltb_spec 9223372036854775808 (n * 10 + d)); [lia|]. apply IH; [done|lia].
Qed.

(** The spelling of a unit is taken whole. *)
Lemma unit_of_spelling u k : unit_of u = Some k → 0 < k ∧
  (∃ c r, u = String c r ∧ digit_val c = None ∧ c ≠ "."%char) ∧ take_unit u = (u, EmptyString).
Proof.
  unfold unit_of. intros H.
  repeat (case_bool_decide as Hu; [|clear Hu]); try done; simplify_eq; (split; [by vm_compute|]);
    try (split; [do 2 eexists; split; [reflexivity|by vm_compute]|by vm_compute]).
  apply list_elem_of_In in Hu. simpl in Hu.
  destruct Hu as [<-|[<-|[<-|[]]]];
    (split; [do 2 eexists; split; [reflexivity|by vm_compute]|by vm_compute]).
Qed.

(** A whole number of a unit, with its sign, is read as written. *)
Lemma ParseDuration_int (neg : bool) n u k : 0 ≤ n → unit_of u = Some k → n * k ≤ max_int64 →
  ParseDuration ((if neg then "-" else EmptyString) +:+ (FormatUint n +:+ u)) =
    Some (if neg then - (n * k) else n * k).
Proof.
  intros Hn Hu Hnk. destruct (unit_of_spelling u k Hu) as (Hk & (c & r & Hc & Hcd & Hcp) & Ht).
  unfold64. assert (n ≤ 2 ^ 63 - 1) as Hn2 by nia.
  assert (digit_first (FormatUint n +:+ u)) as Hdf by by apply digit_first_app, format_loop_digit_first.
  assert (leading_number (FormatUint n +:+ u) = Some (n, 0, 1, u)) as Hl.
  { destruct Hdf as (x & s' & d & Hs & Hd). unfold leading_number. rewrite Hs.
    rewrite orb_comm, bool_decide_true by by rewrite Hd. simpl orb. cbn iota. rewrite <- Hs.
    rewrite (leadingInt_digits _ u 0 n); [|apply FormatUint_value; unfold64; lia|lia|lia|].
    2: { intros c' r' E. rewrite Hc in E. by injection E as <- <-. }
    assert (negb (bool_decide (u = FormatUint n +:+ u)) = true) as ->.
    { apply negb_true_iff, bool_decide_false. intros E. rewrite Hs in E.
      rewrite E in Hc. injection Hc as -> _. congruence. }
    rewrite Hc. by rewrite bool_decide_false. }
  assert (component (FormatUint n +:+ u) = Some (n * k, EmptyString)) as Hcomp.
  { unfold component. rewrite Hl, Ht, Hc. rewrite <- Hc, Hu. simpl.
    by rewrite (proj2 (Z.ltb_ge _ _)) by (apply Z.div_le_lower_bound; lia). }
  assert (components (String.length (FormatUint n +:+ u)) (FormatUint n +:+ u) 0 = Some (n * k)) as Hcs.
  { destruct Hdf as (x & s' & d & Hs & Hd). rewrite Hs in *. cbn [components String.length].
    rewrite Hcomp. cbv zeta. assert (wrapu64 (0 + n * k) = n * k) as -> by (unfold wrapu64; lia).
    rewrite (proj2 (Z.ltb_ge _ _)) by lia. by destruct (String.length s'). }
  unfold ParseDuration. assert (split_sign ((if neg then "-" else EmptyString) +:+ (FormatUint n +:+ u)) =
    (neg, FormatUint n +:+ u)) as -> by (destruct neg; [done|by apply split_sign_digit]).
  rewrite bool_decide_false.
  2: { intros E. rewrite E in Hcs. by vm_compute in Hcs. }
  rewrite bool_decide_false by (destruct Hdf as (? & ? & ? & -> & _); done).
  rewrite Hcs. simpl. destruct neg; [done|]. by rewrite (proj2 (Z.ltb_ge _ _)) by lia.
Qed.

(** ** [net.SplitHostPort], as far as its error and its port *)

(** [strings.IndexByte]: what stands before the first [c] and behind it. *)
Fixpoint cut_byte (c : ascii) (s : string) : option (string * string) :=
  match s with
  | EmptyString => None
  | String d s' => if bool_decide (d = c) then Some (EmptyString, s')
                   else '(a, b) ← cut_byte c s'; Some (String d a, b)
  end.

(** [LastIndexByte] *)
Fixpoint cut_last (c : ascii) (s : string) : option (string * string) :=
  match s with
  | EmptyString => None
  | String d s' => match cut_last c s' with
                   | Some (a, b) => Some (String d a, b)
                   | None => if bool_decide (d = c) then Some (EmptyString, s') else None
                   end
  end.

Definition has_byte (c : ascii) (s : string) : bool :=
  match cut_byte c s with Some _ => true | None => false end.

(** Host and port; [None] is an error. *)
Definition SplitHostPort (hostport : string) : option (string * string) :=
  match cut_last ":"%char hostport with
  | None => None
  | Some (before, port) =>
      match hostport with
      | String "["%char rest =>
          match cut_byte "]"%char rest with
          | None => None
          | Some (host, behind) =>
              (* the colon found must stand right behind the bracket *)
              if bool_decide (behind = String ":"%char port) then
                if has_byte "["%char rest || has_byte "]"%char behind then None else Some (host, port)
              else None
          end
      | _ =>
          if has_byte ":"%char before then None
          else if has_byte "["%char hostport || has_byte "]"%char hostport then None
          else Some (before, port)
      end
  end.
End GoTime.
