(* ===== verification/Ports.v ===== *)
(** * internal/ports: the interfaces between the services and the adapters

    [MetricsRepo W] is the Go interface of that name over a world [W];
    [RepoLaws W] states what a repository promises to its clients: the calls
    read and write a [Snapshot], the repository's [repo_view].  The services
    are proved against [RepoLaws]; the memory and the Postgres repository are
    instances. *)

From S2P Require Import Prelude GoStrings GoInt GoErrors Domain.
Open Scope Z_scope.

Class MetricsRepo (W : Type) := {
  GetGauge : Context → string → io W error float64;
  GetCounter : Context → string → io W error Z;
  SetGauge : Context → string → float64 → io W error unit;
  AddCounter : Context → string → Z → io W error unit;
  UpdateMany : Context → list Metrics → io W error unit;
  RepoSnapshot : Context → io W error Snapshot;
  RepoPing : Context → io W error unit;
}.

(** [ports.Persister] over a file system [F] and a repository [W]. *)
Class Persister (F W : Type) := {
  Save : Context → Snapshot → io F error unit;
  Restore : Context → io (F * W) error unit;
}.

(** [MetricsCollector] and [Publisher] are the agent's side. *)
Class MetricsCollector (W : Type) := {
  CollectorSnapshot : W → gmap string float64 * gmap string Z;
}.

Class Publisher (W : Type) := {
  SendBatch : Context → list Metrics → io W error unit;
  SendOne : Context → Metrics → io W error unit;
}.

(** ** What an item of a batch asks for

    [put] is the meaning of one item for a repository that keeps gauges and
    counters in separate name spaces; an item without the field of its type, or
    of no known type, asks for nothing. *)
Definition put (m : Metrics) (s : Snapshot) : Snapshot :=
  if decide (MType m = Gauge) then
    match Value m with
    | Some v => mkSnapshot (<[ID m := v]> (Gauges s)) (Counters s)
    | None => s
    end
  else if decide (MType m = Counter) then
    match Delta m with
    | Some d => mkSnapshot (Gauges s)
        (<[ID m := add64 (default 0 (Counters s !! ID m)) d]> (Counters s))
    | None => s
    end
  else s.

(** A repository with one name space: storing a gauge forgets the counter of
    the same name, and the other way round. *)
Definition put_exclusive (m : Metrics) (s : Snapshot) : Snapshot :=
  if decide (MType m = Gauge) then
    match Value m with
    | Some v => mkSnapshot (<[ID m := v]> (Gauges s)) (delete (ID m) (Counters s))
    | None => s
    end
  else if decide (MType m = Counter) then
    match Delta m with
    | Some d => mkSnapshot (delete (ID m) (Gauges s))
        (<[ID m := add64 (default 0 (Counters s !! ID m)) d]> (Counters s))
    | None => s
    end
  else s.

Definition put_all (p : Metrics → Snapshot → Snapshot) (items : list Metrics) (s : Snapshot) :
  Snapshot := fold_left (λ s m, p m s) items s.

(** An item the repositories store: a known type with its field present. *)
Definition storable (m : Metrics) : bool :=
  if decide (MType m = Gauge) then match Value m with Some _ => true | None => false end
  else if decide (MType m = Counter) then match Delta m with Some _ => true | None => false end
  else false.

(** The item with nothing but the field of its type. *)
Definition canonical (m : Metrics) : Metrics :=
  if decide (MType m = Gauge) then mkMetrics None (Value m) (ID m) Gauge
  else mkMetrics (Delta m) None (ID m) (MType m).

(** What every meaning of an item has in common. *)
Class PutLaws (p : Metrics → Snapshot → Snapshot) := {
  put_gauge n v s : Gauges (p (gauge_metric n v) s) !! n = Some v;
  put_counter n d s :
    Counters (p (counter_metric n d) s) !! n = Some (add64 (default 0 (Counters s !! n)) d);
  put_frame m s n : n ≠ ID m →
    Gauges (p m s) !! n = Gauges s !! n ∧ Counters (p m s) !! n = Counters s !! n;
  put_unstorable m s : storable m = false → p m s = s;
  put_canonical m s : p (canonical m) s = p m s;
}.

(** ** The contract of a repository *)
Class RepoLaws (W : Type) `{MetricsRepo W} := {
  repo_view : W → Snapshot;
  repo_put : Metrics → Snapshot → Snapshot;
  repo_put_laws :: PutLaws repo_put;
  GetGauge_view ctx n w r w' : GetGauge ctx n w = (r, w') → repo_view w' = repo_view w;
  GetGauge_ok ctx n w v w' :
    GetGauge ctx n w = (Ok v, w') → Gauges (repo_view w) !! n = Some v;
  GetGauge_absent ctx n w w' :
    GetGauge ctx n w = (Err ErrNotFound, w') → Gauges (repo_view w) !! n = None;
  GetCounter_view ctx n w r w' : GetCounter ctx n w = (r, w') → repo_view w' = repo_view w;
  GetCounter_ok ctx n w d w' :
    GetCounter ctx n w = (Ok d, w') → Counters (repo_view w) !! n = Some d;
  GetCounter_absent ctx n w w' :
    GetCounter ctx n w = (Err ErrNotFound, w') → Counters (repo_view w) !! n = None;
  SetGauge_ok ctx n v w w' :
    SetGauge ctx n v w = (Ok tt, w') → repo_view w' = repo_put (gauge_metric n v) (repo_view w);
  AddCounter_ok ctx n d w w' :
    AddCounter ctx n d w = (Ok tt, w') →
    repo_view w' = repo_put (counter_metric n d) (repo_view w);
  UpdateMany_ok ctx items w w' :
    UpdateMany ctx items w = (Ok tt, w') → repo_view w' = put_all repo_put items (repo_view w);
  UpdateMany_err ctx items w e w' :
    UpdateMany ctx items w = (Err e, w') → repo_view w' = repo_view w;
  SetGauge_err ctx n v w e w' :
    SetGauge ctx n v w = (Err e, w') → repo_view w' = repo_view w;
  AddCounter_err ctx n d w e w' :
    AddCounter ctx n d w = (Err e, w') → repo_view w' = repo_view w;
  RepoSnapshot_view ctx w r w' : RepoSnapshot ctx w = (r, w') → repo_view w' = repo_view w;
  RepoSnapshot_ok ctx w s w' : RepoSnapshot ctx w = (Ok s, w') → s = repo_view w;
}.

(** A repository whose calls never fail: reads answer from the view, and every
    write succeeds. *)
Class RepoTotal (W : Type) `{RepoLaws W} := {
  GetGauge_total ctx n w : (GetGauge ctx n w).1 =
    match Gauges (repo_view w) !! n with Some v => Ok v | None => Err ErrNotFound end;
  GetCounter_total ctx n w : (GetCounter ctx n w).1 =
    match Counters (repo_view w) !! n with Some d => Ok d | None => Err ErrNotFound end;
  SetGauge_total ctx n v w : (SetGauge ctx n v w).1 = Ok tt;
  AddCounter_total ctx n d w : (AddCounter ctx n d w).1 = Ok tt;
  UpdateMany_total ctx items w : (UpdateMany ctx items w).1 = Ok tt;
  RepoSnapshot_total ctx w : (RepoSnapshot ctx w).1 = Ok (repo_view w);
}.

(** ** Lemmas on [put] *)

#[export] Instance put_laws : PutLaws put.
Proof.
  split; intros.
  - unfold put. simpl. by rewrite lookup_insert_eq.
  - unfold put. simpl. by rewrite lookup_insert_eq.
  - unfold put. repeat case_decide; repeat split_match; simpl;
      by rewrite ?lookup_insert_ne by congruence.
  - unfold put, storable in *. by repeat case_decide; repeat split_match.
  - unfold put, canonical. by repeat (case_decide; simplify_eq/=).
Qed.

#[export] Instance put_exclusive_laws : PutLaws put_exclusive.
Proof.
  split; intros.
  - unfold put_exclusive. simpl. by rewrite lookup_insert_eq.
  - unfold put_exclusive. simpl. by rewrite lookup_insert_eq.
  - unfold put_exclusive. repeat case_decide; repeat split_match; simpl;
      by rewrite ?lookup_insert_ne, ?lookup_delete_ne by congruence.
  - unfold put_exclusive, storable in *. by repeat case_decide; repeat split_match.
  - unfold put_exclusive, canonical. by repeat (case_decide; simplify_eq/=).
Qed.

Section put_one.
Context (p : Metrics → Snapshot → Snapshot) `{!PutLaws p}.

Lemma put_storable_gauge m s :
  storable m = true → MType m = Gauge → Gauges (p m s) !! ID m = Value m.
Proof using All.
  intros Hst Hg. rewrite <- (put_canonical m). unfold canonical, storable in *.
  destruct (decide (MType m = Gauge)); [|done].
  destruct (Value m) as [v|]; [|done]. apply put_gauge.
Qed.

Lemma put_storable_counter m s :
  storable m = true → MType m = Counter →
  ∃ d, Delta m = Some d ∧
    Counters (p m s) !! ID m = Some (add64 (default 0 (Counters s !! ID m)) d).
Proof using All.
  intros Hst Hc. rewrite <- (put_canonical m). unfold canonical, storable in *.
  rewrite Hc in *. destruct (decide (Counter = Gauge)); [done|].
  destruct (decide (Counter = Counter)); [|done]. destruct (Delta m) as [d|]; [|done]. exists d. split; [done|]. apply put_counter.
Qed.
End put_one.

Section put_all.
Context (p : Metrics → Snapshot → Snapshot) `{!PutLaws p}.

Lemma put_all_app l1 l2 s : put_all p (l1 ++ l2) s = put_all p l2 (put_all p l1 s).
Proof. apply fold_left_app. Qed.

Lemma put_all_storable l s : put_all p (filter storable l) s = put_all p l s.
Proof using All.
  unfold put_all. revert s. induction l as [|m l IH]; intros s; [done|].
  rewrite filter_cons. destruct (storable m) eqn:Hm; simpl; rewrite IH; [done|].
  by rewrite (put_unstorable m s Hm).
Qed.

Lemma put_all_frame l s n :
  Forall (λ m, ID m ≠ n) l →
  Gauges (put_all p l s) !! n = Gauges s !! n ∧ Counters (put_all p l s) !! n = Counters s !! n.
Proof using All.
  unfold put_all. revert s. induction l as [|m l IH]; intros s Hl; [done|].
  apply Forall_cons in Hl as [Hm Hl]. simpl.
  destruct (IH (p m s) Hl) as [-> ->]. by apply put_frame.
Qed.
End put_all.

(** ** Counters and gauges after a batch

    With separate name spaces, a counter ends at its old value plus the sum of
    the deltas of its items, wrapped once; a gauge ends at the last value given. *)
Definition deltas_of (n : string) (l : list Metrics) : list Z :=
  omap (λ m, if decide (MType m = Counter ∧ ID m = n) then Delta m else None) l.

Definition values_of (n : string) (l : list Metrics) : list float64 :=
  omap (λ m, if decide (MType m = Gauge ∧ ID m = n) then Value m else None) l.

Lemma deltas_of_cons n m l :
  deltas_of n (m :: l) =
    match (if decide (MType m = Counter ∧ ID m = n) then Delta m else None) with
    | Some d => d :: deltas_of n l
    | None => deltas_of n l
    end.
Proof. done. Qed.

Lemma values_of_cons n m l :
  values_of n (m :: l) =
    match (if decide (MType m = Gauge ∧ ID m = n) then Value m else None) with
    | Some v => v :: values_of n l
    | None => values_of n l
    end.
Proof. done. Qed.

Lemma put_lookup_counter m s n :
  Counters (put m s) !! n =
    match (if decide (MType m = Counter ∧ ID m = n) then Delta m else None) with
    | Some d => Some (add64 (default 0 (Counters s !! n)) d)
    | None => Counters s !! n
    end.
Proof.
  unfold put. destruct (decide (MType m = Counter ∧ ID m = n)) as [[Hc <-]|Hn].
  - rewrite decide_False by (by rewrite Hc). rewrite decide_True by done.
    destruct (Delta m); simpl; [by rewrite lookup_insert_eq|done].
  - repeat case_decide; repeat split_match; simpl; try done.
    rewrite lookup_insert_ne; [done|]. naive_solver.
Qed.

Lemma put_lookup_gauge m s n :
  Gauges (put m s) !! n =
    match (if decide (MType m = Gauge ∧ ID m = n) then Value m else None) with
    | Some v => Some v
    | None => Gauges s !! n
    end.
Proof.
  unfold put. destruct (decide (MType m = Gauge ∧ ID m = n)) as [[Hg <-]|Hn].
  - rewrite decide_True by done. destruct (Value m); simpl; [by rewrite lookup_insert_eq|done].
  - repeat case_decide; repeat split_match; simpl; try done.
    rewrite lookup_insert_ne; [done|]. naive_solver.
Qed.

Lemma put_all_counter_fold l s n :
  Counters (put_all put l s) !! n =
    match deltas_of n l with
    | [] => Counters s !! n
    | ds => Some (fold_left add64 ds (default 0 (Counters s !! n)))
    end.
Proof.
  revert s. induction l as [|m l IH]; intros s; [done|].
  change (put_all put (m :: l) s) with (put_all put l (put m s)).
  rewrite IH, put_lookup_counter, deltas_of_cons.
  destruct (decide _); [|done]. destruct (Delta m); [|done]. by destruct (deltas_of n l).
Qed.

Lemma put_all_counter l s n :
  snapshot_wf s →
  Counters (put_all put l s) !! n =
    match deltas_of n l with
    | [] => Counters s !! n
    | ds => Some (wrap64 (default 0 (Counters s !! n) + foldr Z.add 0 ds))
    end.
Proof.
  intros Hs. rewrite put_all_counter_fold. destruct (deltas_of n l) as [|d ds] eqn:E; [done|].
  f_equal. rewrite <- fold_add64, wrap64_id; [done|].
  destruct (Counters s !! n) as [z|] eqn:Hz; simpl; [by apply (Hs n)|by unfold64].
Qed.

Lemma put_all_gauge l s n :
  Gauges (put_all put l s) !! n =
    match last (values_of n l) with Some v => Some v | None => Gauges s !! n end.
Proof.
  revert s. induction l as [|m l IH]; intros s; [done|].
  change (put_all put (m :: l) s) with (put_all put l (put m s)).
  rewrite IH, put_lookup_gauge, values_of_cons.
  destruct (decide _); [|done]. destruct (Value m); [|done]. rewrite last_cons.
  by destruct (last _).
Qed.

(** The order of the items does not matter to counters: concurrent increments
    commute. *)
Lemma put_all_counter_perm l1 l2 s n :
  snapshot_wf s → l1 ≡ₚ l2 →
  Counters (put_all put l1 s) !! n = Counters (put_all put l2 s) !! n.
Proof.
  intros Hs Hp. rewrite !put_all_counter by done.
  assert (deltas_of n l1 ≡ₚ deltas_of n l2) as Hd by (unfold deltas_of; by rewrite Hp).
  assert (foldr Z.add 0 (deltas_of n l1) = foldr Z.add 0 (deltas_of n l2)) as E.
  { clear -Hd. induction Hd; simpl in *; lia. }
  destruct (deltas_of n l1) as [|d1 ds1] eqn:E1, (deltas_of n l2) as [|d2 ds2] eqn:E2; try done.
  - by apply Permutation_nil_l in Hd.
  - by apply Permutation_nil_r in Hd.
  - by rewrite E.
Qed.

Lemma put_wf m s : snapshot_wf s → snapshot_wf (put m s).
Proof.
  intros Hs. unfold put. repeat case_decide; repeat split_match; try done.
  intros k x. simpl. rewrite lookup_insert. case_decide; [|apply Hs].
  intros [= <-]. apply add64_range.
Qed.

Lemma put_exclusive_wf m s : snapshot_wf s → snapshot_wf (put_exclusive m s).
Proof.
  intros Hs. unfold put_exclusive. repeat case_decide; repeat split_match; try done.
  - intros k x. simpl. rewrite lookup_delete. case_decide; [done|apply Hs].
  - intros k x. simpl. rewrite lookup_insert. case_decide; [|apply Hs].
    intros [= <-]. apply add64_range.
Qed.

Lemma put_all_wf p l s :
  (∀ m s, snapshot_wf s → snapshot_wf (p m s)) → snapshot_wf s → snapshot_wf (put_all p l s).
Proof. intros Hp Hs. apply (fold_left_invariant _ snapshot_wf); auto. Qed.

#[export] Hint Resolve put_wf put_exclusive_wf : golectra.
