(* ===== verification/Batches.v ===== *)
(** * A snapshot as a batch

    The agent and the file persister turn two maps into a list of metrics, ranging
    over each map in an order the language does not fix. *)

From S2P Require Import Prelude GoStrings GoInt GoErrors Domain Ports.
Open Scope Z_scope.

Module Batches.

(** ** Batches

    Go ranges over a map in an unspecified order: a batch is made from the two
    lists of entries in the order the loops saw them. *)
Definition build (g : list (string * float64)) (c : list (string * Z)) : list Metrics :=
  map (λ kv, gauge_metric kv.1 kv.2) g ++ map (λ kv, counter_metric kv.1 kv.2) c.

(** [batch] is a batch [enqueueSnapshot] can build from the maps. *)
Definition batch_of_maps (g : gmap string float64) (c : gmap string Z) (batch : list Metrics) : Prop :=
  ∃ lg lc, lg ≡ₚ map_to_list g ∧ lc ≡ₚ map_to_list c ∧ batch = build lg lc.

Lemma batch_of_maps_build g c lg lc :
  lg ≡ₚ map_to_list g → lc ≡ₚ map_to_list c → batch_of_maps g c (build lg lc).
Proof. intros. by exists lg, lc. Qed.

Lemma batch_of_maps_length g c batch :
  batch_of_maps g c batch → length batch = (size g + size c)%nat.
Proof.
  intros (lg & lc & Hg & Hc & ->). unfold build. rewrite length_app, !length_map, Hg, Hc.
  by rewrite !length_map_to_list.
Qed.

Lemma deltas_of_app n l1 l2 : deltas_of n (l1 ++ l2) = deltas_of n l1 ++ deltas_of n l2.
Proof. apply omap_app. Qed.

Lemma deltas_of_build n lg lc :
  deltas_of n (build lg lc) = omap (λ kv, if decide (kv.1 = n) then Some kv.2 else None) lc.
Proof.
  unfold build, deltas_of. rewrite omap_app.
  assert (omap (λ m, if decide (MType m = Counter ∧ ID m = n) then Delta m else None)
    (map (λ kv, gauge_metric kv.1 kv.2) lg) = []) as ->.
  { induction lg as [|kv lg IH]; csimpl; done. }
  simpl. induction lc as [|[k' d] lc IH]; csimpl; [done|]. rewrite IH.
  destruct (decide (k' = n)) as [->|Hne].
  - by rewrite decide_True.
  - by rewrite decide_False by (by intros [_ ?]).
Qed.

Lemma no_entries {A} n (l : list (string * A)) : Forall (λ kv, kv.1 ≠ n) l →
  omap (λ kv, if decide (kv.1 = n) then Some kv.2 else None) l = [].
Proof. induction 1 as [|[k d] l Hk _ IH]; csimpl; [done|]. by rewrite decide_False. Qed.

(** The entries of a map under one name. *)
Lemma entries_of {A} n (m : gmap string A) l : l ≡ₚ map_to_list m →
  omap (λ kv, if decide (kv.1 = n) then Some kv.2 else None) l = option_list (m !! n).
Proof.
  intros Hl. assert (omap (λ kv, if decide (kv.1 = n) then Some kv.2 else None) l ≡ₚ
    option_list (m !! n)) as Hp.
  { rewrite Hl. destruct (m !! n) as [v|] eqn:Hn.
    - rewrite <- (insert_delete_id _ _ _ Hn).
      rewrite map_to_list_insert by apply lookup_delete_eq. csimpl. rewrite decide_True by done.
      constructor. apply Permutation_nil_r.
      assert (Forall (λ kv, kv.1 ≠ n) (map_to_list (delete n m))) as Hne.
      { apply Forall_forall. intros [k d] Hk%elem_of_map_to_list E. simpl in E. subst k.
        by rewrite lookup_delete_eq in Hk. }
      by apply no_entries.
    - apply Permutation_nil_r.
      assert (Forall (λ kv, kv.1 ≠ n) (map_to_list m)) as Hne.
      { apply Forall_forall. intros [k d] Hk%elem_of_map_to_list E. simpl in E. subst k. congruence. }
      by apply no_entries. }
  destruct (m !! n); [by apply Permutation_singleton_r in Hp|by apply Permutation_nil_r in Hp].
Qed.

Lemma deltas_of_report n g c batch :
  batch_of_maps g c batch → deltas_of n batch = option_list (c !! n).
Proof. intros (lg & lc & _ & Hlc & ->). by rewrite deltas_of_build, (entries_of n c). Qed.

Lemma values_of_report n g c batch :
  batch_of_maps g c batch → values_of n batch = option_list (g !! n).
Proof.
  intros (lg & lc & Hlg & _ & ->). rewrite <- (entries_of n g lg Hlg).
  unfold build, values_of. rewrite omap_app.
  assert (omap (λ m, if decide (MType m = Gauge ∧ ID m = n) then Value m else None)
    (map (λ kv, counter_metric kv.1 kv.2) lc) = []) as ->.
  { induction lc as [|kv lc IH]; csimpl; done. }
  rewrite app_nil_r. clear. induction lg as [|[k v] lg IH]; csimpl; [done|]. rewrite IH.
  destruct (decide (k = n)) as [->|Hne]; [by rewrite decide_True|].
  by rewrite decide_False by (by intros [_ ?]).
Qed.

(** Stored in an empty repository, the batch of a snapshot is that snapshot. *)
Lemma put_all_report s batch :
  batch_of_maps (Gauges s) (Counters s) batch → snapshot_wf s → put_all put batch empty_Snapshot = s.
Proof.
  intros Hb Hwf. destruct s as [g c]. simpl in *.
  destruct (put_all put batch empty_Snapshot) as [g' c'] eqn:E. f_equal; apply map_eq; intros n.
  - change (g' !! n) with (Gauges (mkSnapshot g' c') !! n). rewrite <- E, put_all_gauge.
    rewrite (values_of_report n g c) by done. by destruct (g !! n).
  - change (c' !! n) with (Counters (mkSnapshot g' c') !! n).
    rewrite <- E, put_all_counter by apply map_Forall_empty.
    rewrite (deltas_of_report n g c) by done. destruct (c !! n) as [d|] eqn:Hd; [|done]. simpl.
    rewrite lookup_empty. simpl. rewrite Z.add_0_r. f_equal. apply wrap64_id. by apply (Hwf n d).
Qed.
End Batches.
