(* ===== verification/Json.v ===== *)
(** * encoding/json: text

    The grammar of [encoding/json]'s scanner, with the decoding of strings, and
    its encoder for strings and numbers.  Numbers are kept as their literals.  The
    fuel of the parser bounds the number of nested calls by the length of the text,
    which is enough because every call but the last consumes a character. *)

From S2P Require Import Prelude GoStrings GoInt Domain GoFloat.
Open Scope Z_scope.

Module Json.

#[warnings="-register-all"]
Inductive value : Type :=
  | Null
  | Bool (b : bool)
  | Number (lit : string)
  | Str (s : string)
  | Arr (l : list value)
  | Obj (l : list (string * value)).

Definition dquote : ascii := byte 34.
Definition backslash : ascii := byte 92.

(** ** UTF-8

    [take_rune s] is the valid encoding of one rune at the start of [s], and what
    follows it. *)
Definition between (lo hi : Z) (c : ascii) : bool := (lo <=? code c) && (code c <=? hi).
Definition cont (c : ascii) : bool := between 128 191 c.

Definition take_rune (s : string) : option (string * string) :=
  match s with
  | EmptyString => None
  | String a s1 =>
      if between 0 127 a then Some (String a EmptyString, s1)
      else match s1 with
      | EmptyString => None
      | String b s2 =>
          if between 194 223 a && cont b then Some (String a (String b EmptyString), s2)
          else match s2 with
          | EmptyString => None
          | String c s3 =>
              if ((bool_decide (code a = 224) && between 160 191 b) ||
                  ((between 225 236 a || between 238 239 a) && cont b) ||
                  (bool_decide (code a = 237) && between 128 159 b)) && cont c
              then Some (String a (String b (String c EmptyString)), s3)
              else match s3 with
              | EmptyString => None
              | String d s4 =>
                  if ((bool_decide (code a = 240) && between 144 191 b) ||
                      (between 241 243 a && cont b) ||
                      (bool_decide (code a = 244) && between 128 143 b)) && cont c && cont d
                  then Some (String a (String b (String c (String d EmptyString))), s4)
                  else None
              end
          end
      end
  end.

Definition char (n : Z) : ascii := ascii_of_N (Z.to_N n).

(** [utf8.AppendRune]; not a rune gives the replacement character. *)
Definition encode_rune (r : Z) : string :=
  if (0 <=? r) && (r <? 128) then String (char r) EmptyString
  else if (128 <=? r) && (r <? 2048) then
    String (char (192 + r / 64)) (String (char (128 + r mod 64)) EmptyString)
  else if (2048 <=? r) && (r <? 65536) && negb ((55296 <=? r) && (r <=? 57343)) then
    String (char (224 + r / 4096)) (String (char (128 + r / 64 mod 64))
      (String (char (128 + r mod 64)) EmptyString))
  else if (65536 <=? r) && (r <? 1114112) then
    String (char (240 + r / 262144)) (String (char (128 + r / 4096 mod 64))
      (String (char (128 + r / 64 mod 64)) (String (char (128 + r mod 64)) EmptyString)))
  else str_of_bytes [239; 191; 189]%N.

Definition replacement : string := encode_rune 65533.

(** ** Strings *)

Definition hex_val (c : ascii) : option Z := digit_of true c.

Definition take_hex4 (s : string) : option (Z * string) :=
  match s with
  | String a (String b (String c (String d s'))) =>
      match hex_val a, hex_val b, hex_val c, hex_val d with
      | Some a, Some b, Some c, Some d => Some (a * 4096 + b * 256 + c * 16 + d, s')
      | _, _, _, _ => None
      end
  | _ => None
  end.

(** The second half of a surrogate pair, as [\uXXXX]. *)
Definition low_surrogate (s : string) : option (Z * string) :=
  match s with
  | String a (String b s') =>
      if bool_decide (a = backslash ∧ b = "u"%char) then
        match take_hex4 s' with
        | Some (r, s'') => if (56320 <=? r) && (r <=? 57343) then Some (r, s'') else None
        | None => None
        end
      else None
  | _ => None
  end.

Definition simple_escape (c : ascii) : option ascii :=
  if bool_decide (c ∈ [dquote; backslash; "/"%char]) then Some c
  else if bool_decide (c = "b"%char) then Some (byte 8)
  else if bool_decide (c = "f"%char) then Some (byte 12)
  else if bool_decide (c = "n"%char) then Some (byte 10)
  else if bool_decide (c = "r"%char) then Some (byte 13)
  else if bool_decide (c = "t"%char) then Some (byte 9)
  else None.

(** What follows a backslash. *)
Definition parse_escape (s : string) : option (string * string) :=
  match s with
  | EmptyString => None
  | String c s' =>
      if bool_decide (c = "u"%char) then
        match take_hex4 s' with
        | Some (r, s2) =>
            if (55296 <=? r) && (r <=? 57343) then
              match (if r <=? 56319 then low_surrogate s2 else None) with
              | Some (r2, s3) => Some (encode_rune ((r - 55296) * 1024 + (r2 - 56320) + 65536), s3)
              | None => Some (replacement, s2)
              end
            else Some (encode_rune r, s2)
        | None => None
        end
      else match simple_escape c with
           | Some e => Some (String e EmptyString, s')
           | None => None
           end
  end.

(** The characters up to the closing quote.  Invalid UTF-8 is replaced. *)
Fixpoint parse_string (fuel : nat) (s : string) : option (string * string) :=
  match fuel with
  | O => None
  | S fuel =>
      match s with
      | EmptyString => None
      | String c s' =>
          if bool_decide (c = dquote) then Some (EmptyString, s')
          else if bool_decide (c = backslash) then
            match parse_escape s' with
            | Some (e, s2) =>
                match parse_string fuel s2 with
                | Some (r, rest) => Some (e +:+ r, rest)
                | None => None
                end
            | None => None
            end
          else if code c <? 32 then None
          else
            let '(e, s2) := match take_rune s with
                            | Some (e, s2) => (e, s2)
                            | None => (replacement, s')
                            end in
            match parse_string fuel s2 with
            | Some (r, rest) => Some (e +:+ r, rest)
            | None => None
            end
      end
  end.

(** ** Numbers *)

Fixpoint take_digits (s : string) : string * string :=
  match s with
  | EmptyString => (EmptyString, EmptyString)
  | String c s' => match digit_val c with
                   | Some _ => let '(d, r) := take_digits s' in (String c d, r)
                   | None => (EmptyString, s)
                   end
  end.

Definition parse_int_part (s : string) : option (string * string) :=
  match s with
  | EmptyString => None
  | String c s' =>
      if bool_decide (c = "0"%char) then Some ("0", s')
      else match digit_val c with
           | Some _ => Some (take_digits s)
           | None => None
           end
  end.

Definition parse_frac (s : string) : option (string * string) :=
  match s with
  | String c s' =>
      if bool_decide (c = "."%char) then
        match take_digits s' with
        | (EmptyString, _) => None
        | (d, r) => Some (String c d, r)
        end
      else Some (EmptyString, s)
  | EmptyString => Some (EmptyString, s)
  end.

Definition take_sign (s : string) : string * string :=
  match s with
  | String c s' => if bool_decide (c = "+"%char ∨ c = "-"%char) then (String c EmptyString, s')
                   else (EmptyString, s)
  | EmptyString => (EmptyString, s)
  end.

Definition parse_exp (s : string) : option (string * string) :=
  match s with
  | String c s' =>
      if bool_decide (c = "e"%char ∨ c = "E"%char) then
        let '(sg, s2) := take_sign s' in
        match take_digits s2 with
        | (EmptyString, _) => None
        | (d, r) => Some (String c (sg +:+ d), r)
        end
      else Some (EmptyString, s)
  | EmptyString => Some (EmptyString, s)
  end.

Definition parse_number (s : string) : option (string * string) :=
  let '(neg, s1) := match s with
                    | String c s' => if bool_decide (c = "-"%char) then ("-", s') else (EmptyString, s)
                    | EmptyString => (EmptyString, s)
                    end in
  match parse_int_part s1 with
  | None => None
  | Some (i, s2) =>
      match parse_frac s2 with
      | None => None
      | Some (f, s3) =>
          match parse_exp s3 with
          | None => None
          | Some (e, s4) => Some (neg +:+ i +:+ f +:+ e, s4)
          end
      end
  end.

(** ** Values *)

Definition is_space (c : ascii) : bool := bool_decide (c ∈ [" "%char; byte 9; byte 10; byte 13]).

Fixpoint skip_spaces (s : string) : string :=
  match s with
  | String c s' => if is_space c then skip_spaces s' else s
  | EmptyString => s
  end.

Definition max_depth : nat := Z.to_nat 10000.

(** [depth] counts the enclosing arrays and objects. *)
Fixpoint parse_value (fuel : nat) (depth : nat) (s : string) : option (value * string) :=
  match fuel with
  | O => None
  | S fuel =>
      match skip_spaces s with
      | EmptyString => None
      | String c s' as s1 =>
          if bool_decide (c = "{"%char) then
            if (max_depth <=? depth)%nat then None
            else match skip_spaces s' with
                 | String "}" s2 => Some (Obj [], s2)
                 | s2 => match parse_members fuel (S depth) s2 with
                         | Some (l, s3) => Some (Obj l, s3)
                         | None => None
                         end
                 end
          else if bool_decide (c = "["%char) then
            if (max_depth <=? depth)%nat then None
            else match skip_spaces s' with
                 | String "]" s2 => Some (Arr [], s2)
                 | s2 => match parse_elements fuel (S depth) s2 with
                         | Some (l, s3) => Some (Arr l, s3)
                         | None => None
                         end
                 end
          else if bool_decide (c = dquote) then
            match parse_string fuel s' with Some (r, s2) => Some (Str r, s2) | None => None end
          else match cut_prefix "null" s1, cut_prefix "true" s1, cut_prefix "false" s1 with
               | Some s2, _, _ => Some (Null, s2)
               | _, Some s2, _ => Some (Bool true, s2)
               | _, _, Some s2 => Some (Bool false, s2)
               | _, _, _ =>
                   match parse_number s1 with
                   | Some (n, s2) => Some (Number n, s2)
                   | None => None
                   end
               end
      end
  end
(** One or more [key: value] pairs and the closing brace. *)
with parse_members (fuel : nat) (depth : nat) (s : string) : option (list (string * value) * string) :=
  match fuel with
  | O => None
  | S fuel =>
      match skip_spaces s with
      | String q s1 =>
          if bool_decide (q = dquote) then
            match parse_string fuel s1 with
            | None => None
            | Some (k, s2) =>
                match skip_spaces s2 with
                | String ":" s3 =>
                    match parse_value fuel depth s3 with
                    | None => None
                    | Some (v, s4) =>
                        match skip_spaces s4 with
                        | String "," s5 =>
                            match parse_members fuel depth s5 with
                            | Some (l, s6) => Some ((k, v) :: l, s6)
                            | None => None
                            end
                        | String "}" s5 => Some ([(k, v)], s5)
                        | _ => None
                        end
                    end
                | _ => None
                end
            end
          else None
      | EmptyString => None
      end
  end
with parse_elements (fuel : nat) (depth : nat) (s : string) : option (list value * string) :=
  match fuel with
  | O => None
  | S fuel =>
      match parse_value fuel depth s with
      | None => None
      | Some (v, s1) =>
          match skip_spaces s1 with
          | String "," s2 =>
              match parse_elements fuel depth s2 with
              | Some (l, s3) => Some (v :: l, s3)
              | None => None
              end
          | String "]" s2 => Some ([v], s2)
          | _ => None
          end
      end
  end.

(** [json.NewDecoder(r).Decode]: the first value of the input; what follows it
    is not looked at. *)
Definition decode_first (s : string) : option value :=
  fst <$> parse_value (2 * String.length s + 2) 0 s.

(** ** The encoder *)

Definition hex_lower (d : Z) : ascii := if d <? 10 then digit_char d else char (87 + d).

(** [\u00XX] *)
Definition unicode_escape (c : ascii) : string :=
  String backslash ("u00" +:+ String (hex_lower (code c / 16)) (String (hex_lower (code c mod 16)) EmptyString)).

Definition encode_ascii (c : ascii) : string :=
  if bool_decide (c = dquote ∨ c = backslash) then String backslash (String c EmptyString)
  else if bool_decide (code c = 8) then String backslash "b"
  else if bool_decide (code c = 12) then String backslash "f"
  else if bool_decide (code c = 10) then String backslash "n"
  else if bool_decide (code c = 13) then String backslash "r"
  else if bool_decide (code c = 9) then String backslash "t"
  else if (code c <? 32) || bool_decide (c ∈ ["<"%char; ">"%char; "&"%char])
  then unicode_escape c
  else String c EmptyString.

Definition encode_chunk (r : string) : string :=
  match r with
  | String c EmptyString => encode_ascii c
  | _ => if bool_decide (r = encode_rune 8232) then String backslash "u2028"
         else if bool_decide (r = encode_rune 8233) then String backslash "u2029"
         else r
  end.

(** [appendString] with HTML escaping; bytes that are not UTF-8 are replaced. *)
Fixpoint encode_chars (fuel : nat) (s : string) : string :=
  match fuel, s with
  | O, _ | _, EmptyString => EmptyString
  | S fuel, String _ s' =>
      match take_rune s with
      | Some (r, rest) => encode_chunk r +:+ encode_chars fuel rest
      | None => String backslash "ufffd" +:+ encode_chars fuel s'
      end
  end.

Definition encode_string (s : string) : string :=
  String dquote (encode_chars (String.length s) s +:+ String dquote EmptyString).

(** [d.ddde±x], as the encoder of [float64] writes it: the exponent keeps two
    digits when positive and loses its leading zero when negative. *)
Definition render_exp (d k : Z) : string :=
  let s := dec_string d in
  let x := Z.of_nat (String.length s) - 1 + k in
  match s with
  | EmptyString => EmptyString
  | String c s' =>
      String c ((match s' with EmptyString => EmptyString | _ => String "."%char s' end) +:+
        "e" +:+ (if x <? 0 then "-" else "+") +:+ FormatUint (Z.abs x))
  end.

(** The magnitudes of 1e-6 and 1e21, between which the positional form is used. *)
Definition small_bits : Z := scaled_bits 10 1 (-6).
Definition large_bits : Z := scaled_bits 10 1 21.

(** [None]: NaN and the infinities are an [UnsupportedValueError]. *)
Definition encode_float (f : float64) : option string :=
  let b := f64_bits f mod GoFloat.sign_bit in
  if is_nan f || is_inf f then None
  else if negb (bool_decide (b = 0)) && ((b <? small_bits) || (large_bits <=? b)) then
    let k := first_exponent b in
    let '(d, p) := shortest (Z.to_nat (k + 1074)) b k in
    let s := render_exp d p in
    Some (if is_neg f then String "-"%char s else s)
  else Some (FormatFloat f).

(** ** Lemmas: runes *)

Inductive utf8 : string → Prop :=
  | utf8_nil : utf8 EmptyString
  | utf8_rune r s : take_rune (r +:+ s) = Some (r, s) → utf8 s → utf8 (r +:+ s).

(** A rune is recognised by its own bytes. *)
Lemma take_rune_chunk s r s' : take_rune s = Some (r, s') →
  s = r +:+ s' ∧ r ≠ EmptyString ∧ ∀ t, take_rune (r +:+ t) = Some (r, t).
Proof.
  unfold take_rune. destruct s as [|a s1]; [done|].
  destruct (between 0 127 a) eqn:Ha.
  { intros [= <- <-]. split; [done|]. split; [done|]. intros t. simpl. by rewrite Ha. }
  destruct s1 as [|b s2]; [done|]. destruct (between 194 223 a && cont b) eqn:Hb.
  { intros [= <- <-]. split; [done|]. split; [done|]. intros t. simpl. by rewrite Ha, Hb. }
  destruct s2 as [|c s3]; [done|].
  match goal with |- (if ?x then _ else _) = _ → _ => destruct x eqn:Hc end.
  { intros [= <- <-]. split; [done|]. split; [done|]. intros t. simpl. by rewrite Ha, Hb, Hc. }
  destruct s3 as [|d s4]; [done|].
  match goal with |- (if ?x then _ else _) = _ → _ => destruct x eqn:Hd end; [|done].
  intros [= <- <-]. split; [done|]. split; [done|]. intros t. simpl. by rewrite Ha, Hb, Hc, Hd.
Qed.

Lemma take_rune_multi a b r t s : take_rune s = Some (String a (String b r), t) → 128 ≤ code a.
Proof.
  destruct s as [|x s1]; [done|]. unfold take_rune. destruct (between 0 127 x) eqn:Hx; [done|].
  assert (128 ≤ code x) as Hx'.
  { unfold between, code in *. apply andb_false_iff in Hx as [Hx|Hx]; apply Z.leb_gt in Hx; lia. }
  repeat (match goal with |- match ?y with _ => _ end = _ → _ => destruct y end; try done);
    intros ?; simplify_eq; done.
Qed.

Lemma parse_ascii fuel (c : ascii) t : code c < 128 →
  parse_string (S fuel) (encode_ascii c +:+ t) =
    match parse_string fuel t with Some (x, rest) => Some (String c x, rest) | None => None end.
Proof. destruct c as [[] [] [] [] [] [] [] []]; intros Hc; try (vm_compute in Hc; done); reflexivity. Qed.

Lemma parse_chunk fuel r s t :
  take_rune s = Some (r, t) → ∀ u,
  parse_string (S fuel) (encode_chunk r +:+ u) =
    match parse_string fuel u with Some (x, rest) => Some (r +:+ x, rest) | None => None end.
Proof.
  intros Hr u. destruct (take_rune_chunk _ _ _ Hr) as (-> & Hne & Ht).
  destruct r as [|a [|b r]]; [done| |].
  - apply parse_ascii. clear Hne. specialize (Ht EmptyString). unfold take_rune in Ht. simpl in Ht.
    unfold between in Ht. destruct (_ && _) eqn:Ha; [|done].
    apply andb_true_iff in Ha as [_ Ha]. apply Z.leb_le in Ha. lia.
  - pose proof (take_rune_multi _ _ _ _ _ Hr) as Ha. unfold encode_chunk.
    case_bool_decide as H1; [rewrite H1; reflexivity|].
    case_bool_decide as H2; [rewrite H2; reflexivity|].
    specialize (Ht u). clear -Ha Ht. cbn [parse_string].
    change (String a (String b r) +:+ u) with (String a (String b (r +:+ u))) in *.
    assert (a ≠ dquote ∧ a ≠ backslash) as [Hq Hb] by (split; intros ->; vm_compute in Ha; done).
    rewrite !bool_decide_false by done. rewrite (proj2 (Z.ltb_ge _ _)) by lia. by rewrite Ht.
Qed.

(** Parsing what was encoded, up to the closing quote. *)
Lemma parse_encode s : utf8 s → ∀ n fuel rest,
  (String.length s ≤ n)%nat → (String.length s < fuel)%nat →
  parse_string fuel (encode_chars n s +:+ String dquote rest) = Some (s, rest).
Proof.
  induction 1 as [|r s Hr Hs IH]; intros n fuel rest Hn Hf.
  - destruct fuel; [simpl in Hf; lia|]. destruct n; done.
  - destruct (take_rune_chunk _ _ _ Hr) as (_ & Hne & _). rewrite str_app_length in *.
    assert (1 ≤ String.length r)%nat by (destruct r; simpl; [done|lia]).
    destruct n as [|n]; [lia|]. destruct fuel as [|fuel]; [lia|].
    assert (encode_chars (S n) (r +:+ s) = encode_chunk r +:+ encode_chars n s) as ->.
    { destruct (r +:+ s) as [|c s'] eqn:E; [by destruct r|].
      change (match take_rune (String c s') with Some (r, rest) => encode_chunk r +:+ encode_chars n rest
        | None => String backslash "ufffd" +:+ encode_chars n s' end =
        encode_chunk r +:+ encode_chars n s). by rewrite Hr. }
    rewrite <- str_app_assoc, (parse_chunk _ _ _ _ Hr). rewrite IH by lia. done.
Qed.

(** ** Lemmas: number literals *)

Fixpoint all_digits (s : string) : Prop :=
  match s with
  | EmptyString => True
  | String c s' => is_Some (digit_val c) ∧ all_digits s'
  end.

Lemma digits_value_all s n v : digits_value s n = Some v → all_digits s.
Proof.
  revert n. induction s as [|c s IH]; intros n; simpl; [done|].
  destruct (digit_val c); [|done]. intros Hv. split; [eauto|by eapply IH].
Qed.

Lemma all_digits_app s t : all_digits (s +:+ t) ↔ all_digits s ∧ all_digits t.
Proof. induction s as [|c s IH]; simpl; [tauto|]. rewrite IH. tauto. Qed.

Lemma all_digits_zeros n : all_digits (zeros n).
Proof. induction n as [|n IH]; simpl; [done|]. split; [by eexists|done]. Qed.

Lemma all_digits_dec n : 0 ≤ n → all_digits (dec_string n).
Proof. intros Hn. eapply digits_value_all, dec_string_value, Hn. Qed.

(** The text after a literal does not continue it. *)
Definition ends_number (s : string) : Prop :=
  match s with
  | EmptyString => True
  | String c _ => digit_val c = None ∧ c ≠ "."%char ∧ c ≠ "e"%char ∧ c ≠ "E"%char
  end.

Definition no_digit (s : string) : Prop :=
  match s with EmptyString => True | String c _ => digit_val c = None end.

Lemma take_digits_app s rest : all_digits s → no_digit rest → take_digits (s +:+ rest) = (s, rest).
Proof.
  intros Hs Hr. induction s as [|c s IH]; simpl in *.
  - destruct rest as [|c rest]; simpl in *; [done|]. by rewrite Hr.
  - destruct Hs as [[d ->] Hs]. by rewrite IH.
Qed.

(** An integer part: zero, or digits of which the first is not zero. *)
Definition int_part (s : string) : Prop :=
  s = "0" ∨ ∃ c s', s = String c s' ∧ c ≠ "0"%char ∧ all_digits s.

Lemma parse_int_part_app s rest :
  int_part s → no_digit rest → parse_int_part (s +:+ rest) = Some (s, rest).
Proof.
  intros [->|(c & s' & -> & Hc & Hs)] Hr; [done|]. unfold parse_int_part.
  change (String c s' +:+ rest) with (String c (s' +:+ rest)). cbv beta iota.
  rewrite bool_decide_false by done. destruct Hs as [[d Hd] Hs]. rewrite Hd. f_equal.
  apply (take_digits_app (String c s')); [|done]. split; [by eexists|done].
Qed.

Lemma int_part_digit s : int_part s → ∃ c s', s = String c s' ∧ is_Some (digit_val c).
Proof.
  intros [->|(c & s' & -> & _ & [Hd _])]; [|by exists c, s'].
  exists "0"%char, EmptyString. split; [done|by eexists].
Qed.

Lemma digit_not c : is_Some (digit_val c) → c ≠ "-"%char ∧ c ≠ "+"%char ∧ c ≠ "e"%char ∧ c ≠ "E"%char ∧ c ≠ "."%char.
Proof. intros [d Hd]. repeat split; intros ->; by vm_compute in Hd. Qed.

Lemma str_app_nil_l (s : string) : EmptyString +:+ s = s.
Proof. done. Qed.

(** A literal: sign, integer part, fraction and exponent, each as its own part
    of the grammar. *)
Lemma parse_literal (neg : bool) i f e rest :
  int_part i →
  (f = EmptyString ∨ ∃ ds, f = String "."%char ds ∧ ds ≠ EmptyString ∧ all_digits ds) →
  (e = EmptyString ∨ ∃ sg ds, e = "e" +:+ String sg ds ∧ (sg = "-"%char ∨ sg = "+"%char) ∧
    ds ≠ EmptyString ∧ all_digits ds) →
  ends_number rest →
  let lit := (if neg then "-" else EmptyString) +:+ i +:+ f +:+ e in
  parse_number (lit +:+ rest) = Some (lit, rest).
Proof.
  intros Hi Hf He Hr. cbv zeta.
  assert (Hnd : no_digit rest) by (destruct rest; [done|by destruct Hr]).
  assert (Hexp : parse_exp (e +:+ rest) = Some (e, rest)).
  { destruct He as [->|(sg & ds & -> & Hsg & Hne & Hds)].
    - rewrite (str_app_nil_l rest). unfold parse_exp. destruct rest as [|c rest]; [done|]. destruct Hr as (_ & _ & H1 & H2).
      cbv beta iota. by rewrite bool_decide_false by (intros [?|?]; congruence).
    - change (("e" +:+ String sg ds) +:+ rest) with (String "e"%char (String sg (ds +:+ rest))).
      unfold parse_exp. cbv beta iota. rewrite bool_decide_true by auto. unfold take_sign. cbv beta iota.
      rewrite bool_decide_true by tauto. rewrite (take_digits_app _ _ Hds Hnd). by destruct ds. }
  assert (Hend : no_digit (e +:+ rest) ∧ (e +:+ rest = EmptyString ∨ ∃ c r, e +:+ rest = String c r ∧ c ≠ "."%char)).
  { destruct He as [->|(sg & ds & -> & _)].
    - split; [done|]. destruct rest as [|c rest]; [by left|]. right. exists c, rest. by destruct Hr as (_ & ? & _).
    - split; [done|]. right. by eexists _, _. }
  assert (Hfrac : parse_frac (f +:+ (e +:+ rest)) = Some (f, e +:+ rest)).
  { destruct Hend as [Hend Hdot]. destruct Hf as [->|(ds & -> & Hne & Hds)].
    - rewrite str_app_nil_l. unfold parse_frac. destruct Hdot as [->|(c & r & -> & Hc)]; [done|].
      cbv beta iota. by rewrite bool_decide_false.
    - change (String "."%char ds +:+ (e +:+ rest)) with (String "."%char (ds +:+ (e +:+ rest))).
      unfold parse_frac. cbv beta iota. rewrite bool_decide_true by done.
      rewrite (take_digits_app _ _ Hds Hend). by destruct ds. }
  assert (Hint : parse_int_part (i +:+ (f +:+ (e +:+ rest))) = Some (i, f +:+ (e +:+ rest))).
  { apply parse_int_part_app; [done|]. destruct Hf as [->|(ds & -> & _)]; [|done]. apply Hend. }
  rewrite <- !str_app_assoc. unfold parse_number.
  assert (match (if neg then "-" else EmptyString) +:+ (i +:+ (f +:+ (e +:+ rest))) with
    | String c s' => if bool_decide (c = "-"%char) then ("-", s')
        else (EmptyString, (if neg then "-" else EmptyString) +:+ (i +:+ (f +:+ (e +:+ rest))))
    | EmptyString => (EmptyString, (if neg then "-" else EmptyString) +:+ (i +:+ (f +:+ (e +:+ rest))))
    end = (if neg then "-" else EmptyString, i +:+ (f +:+ (e +:+ rest)))) as ->.
  { destruct neg; [done|]. destruct (int_part_digit _ Hi) as (c & s' & -> & Hd).
    apply digit_not in Hd as [Hd _]. simpl. by rewrite bool_decide_false. }
  by rewrite Hint, Hfrac, Hexp.
Qed.

(** ** Lemmas: integers on the wire *)

Lemma format_loop_int_part fuel n acc :
  0 < n < 10 ^ Z.of_nat (S fuel) → ∃ c s', format_uint_loop (S fuel) n acc = String c s' ∧ c ≠ "0"%char.
Proof.
  revert n acc. induction fuel as [|fuel IH]; intros n acc Hn; cbn [format_uint_loop];
    destruct (Z.ltb_spec n 10).
  - eexists _, _. split; [done|]. intros E. apply (f_equal digit_val) in E.
    rewrite digit_val_char in E by lia. change (digit_val "0"%char) with (Some 0) in E. injection E. lia.
  - simpl in Hn. lia.
  - eexists _, _. split; [done|]. intros E. apply (f_equal digit_val) in E.
    rewrite digit_val_char in E by lia. change (digit_val "0"%char) with (Some 0) in E. injection E. lia.
  - rewrite Nat2Z.inj_succ, Z.pow_succ_r in Hn by lia. apply IH. lia.
Qed.

Lemma FormatUint_int_part n : 0 ≤ n ≤ max_uint64 → int_part (FormatUint n).
Proof.
  intros Hn. destruct (Z.eq_dec n 0) as [->|]; [by left|]. right.
  destruct (format_loop_int_part 19 n EmptyString) as (c & s' & E & Hc).
  { split; [lia|]. eapply Z.le_lt_trans; [apply Hn|]. by vm_compute. }
  exists c, s'. unfold FormatUint. split; [done|]. split; [done|].
  apply (digits_value_all _ 0 n). rewrite format_loop_value; [done|]. split; [lia|].
  eapply Z.le_lt_trans; [apply Hn|]. by vm_compute.
Qed.

Definition positive_part (s : string) : Prop :=
  ∃ c s', s = String c s' ∧ c ≠ "0"%char ∧ all_digits s.

Lemma positive_int_part s : positive_part s → int_part s.
Proof. by right. Qed.

Lemma dec_string_positive n : 0 < n → positive_part (dec_string n).
Proof.
  intros Hn. destruct (format_loop_int_part (Z.to_nat (Z.log2 n)) n EmptyString)
    as (c & s' & E & Hc).
  - split; [done|]. rewrite Nat2Z.inj_succ, Z2Nat.id by apply Z.log2_nonneg.
    destruct (Z.log2_spec n Hn) as [_ Hl]. eapply Z.lt_le_trans; [exact Hl|].
    apply Z.pow_le_mono_l. lia.
  - exists c, s'. split; [done|]. split; [done|]. apply all_digits_dec. lia.
Qed.

Lemma parse_FormatInt z rest :
  in_int64 z → ends_number rest → parse_number (FormatInt z +:+ rest) = Some (FormatInt z, rest).
Proof.
  intros Hz Hr. pose proof (FormatUint_int_part (Z.abs z)) as Hi.
  pose proof (parse_literal (z <? 0) (FormatUint (Z.abs z)) EmptyString EmptyString rest) as Hp.
  rewrite !str_app_nil_r in Hp. unfold FormatInt.
  assert (int_part (FormatUint (Z.abs z))) as Hi' by (apply Hi; unfold64; lia).
  specialize (Hp Hi' (or_introl eq_refl) (or_introl eq_refl) Hr). cbv zeta in Hp.
  destruct (Z.ltb_spec z 0).
  - replace (- z) with (Z.abs z) by lia. exact Hp.
  - replace z with (Z.abs z) by lia. exact Hp.
Qed.

(** ** Lemmas: floats on the wire *)

(** A fraction, as [parse_literal] takes it. *)
Definition frac_part (f : string) : Prop :=
  f = EmptyString ∨ ∃ ds, f = String "."%char ds ∧ ds ≠ EmptyString ∧ all_digits ds.

Lemma positive_part_app s t : positive_part s → all_digits t → positive_part (s +:+ t).
Proof.
  intros (c & s' & -> & Hc & Hs) Ht. exists c, (s' +:+ t). split; [done|]. split; [done|].
  by apply all_digits_app.
Qed.

Lemma positive_part_prefix s t : positive_part (s +:+ t) → s ≠ EmptyString → positive_part s.
Proof.
  intros (c & s' & E & Hc & Hd) Hs. destruct s as [|x s]; [done|]. injection E as -> E.
  exists c, s. split; [done|]. split; [done|]. by apply all_digits_app in Hd as [Hd _].
Qed.

Lemma render_parts d k : 0 < d → ∃ i f, render d k = i +:+ f ∧ int_part i ∧ frac_part f.
Proof.
  intros Hd. pose proof (dec_string_positive d Hd) as Hp. unfold render.
  set (s := dec_string d) in *. clearbody s.
  assert (all_digits s) as Ha by by destruct Hp as (? & ? & _ & _ & ?).
  case_bool_decide; [|case_bool_decide as Hl].
  - exists (s +:+ zeros (Z.to_nat k)), EmptyString. rewrite str_app_nil_r. split; [done|].
    split; [|by left]. apply positive_int_part, positive_part_app; [done|]. apply all_digits_zeros.
  - set (m := (String.length s - Z.to_nat (- k))%nat).
    replace (Z.to_nat (- k)) with (String.length s - m)%nat by lia.
    assert (m ≤ String.length s)%nat as Hm by lia.
    pose proof (substring_split m s Hm) as E.
    assert (String.length (String.substring 0 m s) = m) as L1 by (apply substring_length; lia).
    assert (String.length (String.substring m (String.length s - m) s) = String.length s - m)%nat
      as L2 by (apply substring_length; lia).
    rewrite <- E in Hp, Ha. apply all_digits_app in Ha as [_ Ha].
    exists (String.substring 0 m s), ("." +:+ String.substring m (String.length s - m) s).
    split; [done|]. split.
    + apply positive_int_part. eapply positive_part_prefix; [exact Hp|].
      intros E0. rewrite E0 in L1. simpl in L1. lia.
    + right. exists (String.substring m (String.length s - m) s). split; [done|]. split; [|done].
      intros E0. rewrite E0 in L2. simpl in L2. lia.
  - exists "0", ("." +:+ (zeros (Z.to_nat (- k) - String.length s) +:+ s)).
    split; [done|]. split; [by left|]. right. eexists. split; [done|]. split.
    + destruct Hp as (c & s' & -> & _). by destruct (zeros _).
    + apply all_digits_app. split; [apply all_digits_zeros|done].
Qed.

(** The parts of the exponential form. *)
Definition exp_sign (x : Z) : ascii := if x <? 0 then "-"%char else "+"%char.

Lemma render_exp_parts d k : 0 < d →
  let x := Z.of_nat (String.length (dec_string d)) - 1 + k in
  ∃ c s', dec_string d = String c s' ∧ int_part (String c EmptyString) ∧ all_digits s' ∧
    render_exp d k = String c EmptyString +:+
      (match s' with EmptyString => EmptyString | _ => String "."%char s' end) +:+
      ("e" +:+ String (exp_sign x) (FormatUint (Z.abs x))).
Proof.
  intros Hd. cbv zeta. pose proof (dec_string_positive d Hd) as (c & s' & E & Hc & Hs).
  exists c, s'. split; [done|]. rewrite E in Hs. destruct Hs as [Hcd Hs]. split.
  - right. by exists c, EmptyString.
  - split; [done|]. unfold render_exp, exp_sign. rewrite E. simpl String.length.
    destruct s'; by destruct (_ <? 0).
Qed.

Lemma read_exp_value s e v u : 0 ≤ e → digits_value s e = Some v → v < 100000 →
  read_exp s e u = (v, u, EmptyString).
Proof.
  revert e. induction s as [|c s IH]; intros e He; simpl; [by intros [= ->]|].
  destruct (digit_val c) as [d|] eqn:Hd; [|done]. intros Hv Hlt.
  destruct (digit_val_not _ _ Hd) as [Hu _]. rewrite decide_False by done.
  apply digit_val_range in Hd. assert (e * 10 + d ≤ v) by (eapply digits_value_ge, Hv; lia).
  rewrite (proj2 (Z.ltb_lt _ _)) by lia. apply IH; [lia|done|done].
Qed.

Lemma read_exponent_value x : Z.abs x < 100000 →
  read_exponent "e"%char false ("e" +:+ String (exp_sign x) (FormatUint (Z.abs x))) =
    Some (x, false, EmptyString).
Proof.
  intros Hx. assert (0 ≤ Z.abs x ≤ max_uint64) as Hr by (unfold64; lia).
  pose proof (read_exp_value _ _ _ false (Z.le_refl 0) (FormatUint_value _ Hr) Hx) as He.
  destruct (int_part_digit _ (FormatUint_int_part _ Hr)) as (c & s' & E & [d Hd]).
  unfold read_exponent.
  change ("e" +:+ String (exp_sign x) (FormatUint (Z.abs x)))
    with (String "e"%char (String (exp_sign x) (FormatUint (Z.abs x)))). cbv beta iota.
  rewrite decide_True by done. unfold exp_sign. rewrite E in *.
  destruct (Z.ltb_spec x 0); simpl split_sign; cbv beta iota; rewrite Hd, He; do 3 f_equal; lia.
Qed.

Lemma digits_value_cons c s n : digits_value (String c s) n =
  match digits_value (String c EmptyString) n with Some m => digits_value s m | None => None end.
Proof. simpl. by destruct (digit_val c). Qed.

Lemma read_number_render_exp d k : 0 < d →
  Z.abs (Z.of_nat (String.length (dec_string d)) - 1 + k) < 100000 →
  read_number (render_exp d k) = Some (scaled_bits 10 d k).
Proof.
  intros Hd Hx. destruct (render_exp_parts d k Hd) as (c & s' & E & _ & _ & ->).
  pose proof (dec_string_value d ltac:(lia)) as Hv.
  set (x := Z.of_nat (String.length (dec_string d)) - 1 + k) in *.
  set (e := "e" +:+ String (exp_sign x) (FormatUint (Z.abs x))).
  rewrite E, digits_value_cons in Hv.
  destruct (digits_value (String c EmptyString) 0) as [m|] eqn:Hm; [|done].
  assert (Hread : ∃ fr dot, read_mantissa false (String c EmptyString +:+
      (match s' with EmptyString => EmptyString | _ => String "."%char s' end) +:+ e)
      (mkMantissa 0 0 false false false) = (mkMantissa d fr dot true false, e) ∧
      fr = Z.of_nat (String.length s')).
  { rewrite (read_digits (String c EmptyString) _ 0 m) by done. simpl bool_decide. simpl orb.
    destruct s' as [|c' s'].
    - simpl in Hv. injection Hv as ->. by eexists 0, false.
    - eexists _, true. split; [|done].
      change (String "." (String c' s') +:+ e) with ("." +:+ (String c' s' +:+ e)).
      rewrite read_point, (read_digits (String c' s') _ m d) by done. simpl orb.
      rewrite Z.add_0_l. done. }
  destruct Hread as (fr & dot & Hread & ->). unfold read_number.
  assert (hex_prefix (String c EmptyString +:+
      (match s' with EmptyString => EmptyString | _ => String "."%char s' end) +:+ e) = None) as ->.
  { unfold hex_prefix. destruct s' as [|c' s'];
      [change (String c EmptyString +:+ (EmptyString +:+ e)) with (String c e); unfold e|
       change (String c EmptyString +:+ (String "." (String c' s') +:+ e))
         with (String c (String "." (String c' (s' +:+ e))))]; simpl;
      by case_decide as Hz; [destruct Hz|]. }
  rewrite Hread. cbn [m_digits negb]. unfold e. rewrite read_exponent_value by done. simpl.
  f_equal. f_equal. unfold x. rewrite E. simpl String.length. lia.
Qed.

(** Coarse bounds, far below the point where exponents stop being read. *)
Lemma dec_string_length n : 0 ≤ n → Z.of_nat (String.length (dec_string n)) ≤ Z.log2 n + 1.
Proof.
  intros Hn. unfold dec_string.
  assert (∀ fuel m acc, (String.length (format_uint_loop fuel m acc) ≤ fuel + String.length acc)%nat) as Hl.
  { intros fuel. induction fuel as [|fuel IH]; intros m acc; cbn [format_uint_loop]; [lia|].
    destruct (m <? 10); [simpl; lia|]. etrans; [apply IH|]. simpl. lia. }
  specialize (Hl (S (Z.to_nat (Z.log2 n))) n EmptyString).
  pose proof (Z.log2_nonneg n). change (String.length EmptyString) with 0%nat in Hl. lia.
Qed.

Lemma units_log2 b : 0 ≤ b < inf_bits → Z.log2 (units b) ≤ 2100.
Proof.
  intros Hb. apply Z.le_trans with (Z.log2 (2 ^ 2100)); [|by rewrite Z.log2_pow2].
  apply Z.log2_le_mono. unfold units.
  pose proof (Z.mod_pos_bound b (2 ^ 52) ltac:(lia)).
  assert (b / 2 ^ 52 < 2047) by (apply Z.div_lt_upper_bound; [lia|]; unfold inf_bits in Hb; lia).
  assert (0 ≤ b / 2 ^ 52) by (apply Z.div_pos; lia).
  case_bool_decide.
  - apply Z.le_trans with (2 ^ 52); [lia|]. by vm_compute.
  - apply Z.le_trans with (2 ^ 53 * 2 ^ 2046).
    + apply Z.mul_le_mono_nonneg; [lia|lia|apply Z.pow_nonneg; lia|].
      apply Z.pow_le_mono_r; lia.
    + by vm_compute.
Qed.

Definition digits_bound : Z := 10000.

Lemma try_exponent_bound b k d :
  0 ≤ b < inf_bits → -1074 ≤ k → try_exponent b k = Some d → 0 ≤ d ∧ Z.log2 d ≤ digits_bound.
Proof.
  intros Hb Hk Ht. split; [by apply (try_exponent_Some b k d) in Ht as [_ ?]; [|lia]|].
  assert (d ≤ units b * 10 ^ 1074 + 1) as Hd.
  { unfold try_exponent in Ht.
    set (n := units b * 10 ^ Z.max 0 (- k)) in *. set (m := 2 ^ 1074 * 10 ^ Z.max 0 k) in *.
    assert (0 < m) as Hm by (apply Z.mul_pos_pos; apply Z.pow_pos_nonneg; lia).
    assert (0 ≤ units b) as Hu by (apply units_nonneg; lia).
    assert (n / m ≤ n) as Hq.
    { apply Z.div_le_upper_bound; [done|]. assert (0 ≤ n); [|nia].
      apply Z.mul_nonneg_nonneg; [done|apply Z.pow_nonneg; lia]. }
    assert (n ≤ units b * 10 ^ 1074) as Hn.
    { apply Z.mul_le_mono_nonneg_l; [done|]. apply Z.pow_le_mono_r; lia. }
    generalize (round_even_near n m Hm). revert Ht Hq Hn. generalize (round_even n m) as near.
    generalize (n / m) as q. generalize (units b * 10 ^ 1074) as u. clear.
    intros u q near Ht Hq Hn Hnear. repeat case_bool_decide; simplify_eq; lia. }
  apply Z.le_trans with (Z.log2 (2 ^ 2101 * 10 ^ 1075)); [|by vm_compute].
  apply Z.log2_le_mono. etrans; [exact Hd|].
  assert (units b ≤ 2 ^ 2101).
  { destruct (Z.eq_dec (units b) 0) as [->|]; [apply Z.pow_nonneg; lia|].
    pose proof (units_log2 b Hb). assert (0 ≤ units b) by (apply units_nonneg; lia).
    destruct (Z.log2_spec (units b)) as [_ Hl]; [lia|]. apply Z.lt_le_incl.
    eapply Z.lt_le_trans; [exact Hl|]. apply Z.pow_le_mono_r; lia. }
  assert (0 < 10 ^ 1074) by (apply Z.pow_pos_nonneg; lia).
  replace (10 ^ 1075) with (10 * 10 ^ 1074) by (rewrite <- Z.pow_succ_r by lia; done).
  assert (1 ≤ 2 ^ 2101) by (apply (Z.pow_le_mono_r 2 0); lia).
  revert H H0 H1. generalize (2 ^ 2101) (10 ^ 1074) (units b). clear. intros. nia.
Qed.

Lemma shortest_bound fuel b k :
  0 ≤ b < inf_bits → b ≠ 0 → k - Z.of_nat fuel = -1074 →
  let '(d, p) := shortest fuel b k in
  0 < d ∧ Z.log2 d ≤ digits_bound ∧ -1074 ≤ p ≤ Z.max (-1074) k + 1.
Proof.
  intros Hb H0. revert k. induction fuel as [|fuel IH]; intros k Hk; cbn [shortest].
  - assert (0 < units b) as Hu.
    { assert (0 ≤ units b) by (apply units_nonneg; lia).
      destruct (Z.eq_dec (units b) 0) as [E|]; [|lia].
      pose proof (round_mag_exact b 1 Hb ltac:(lia)) as Hx. rewrite E in Hx. by vm_compute in Hx. }
    split; [apply Z.mul_pos_pos; [done|by apply Z.pow_pos_nonneg]|]. split; [|lia].
    apply Z.le_trans with (Z.log2 (2 ^ 2101 * 5 ^ 1074)); [|by vm_compute].
    apply Z.log2_le_mono. apply Z.mul_le_mono_nonneg_r; [apply Z.pow_nonneg; lia|].
    pose proof (units_log2 b Hb). destruct (Z.log2_spec (units b)) as [_ Hl]; [lia|].
    apply Z.lt_le_incl. eapply Z.lt_le_trans; [exact Hl|]. apply Z.pow_le_mono_r; lia.
  - destruct (try_exponent b k) as [d|] eqn:Ht.
    + destruct (try_exponent_bound b k d Hb ltac:(lia) Ht) as [Hd Hl].
      apply try_exponent_Some in Ht as [Ht _]; [|lia].
      assert (0 < d) as Hpos.
      { destruct (Z.eq_dec d 0) as [->|]; [|lia]. exfalso. unfold scaled_bits in Ht.
        rewrite !Z.mul_0_l in Ht. unfold round_mag in Ht.
        case_bool_decide; rewrite Z.div_0_l in Ht by lia || (apply Z.pow_nonzero; lia);
          simpl in Ht; unfold round_even in Ht; rewrite Z.div_0_l, Z.mod_0_l in Ht;
          try (apply Z.neq_mul_0; split; [apply Z.pow_nonzero; lia|done]); try done;
          rewrite bool_decide_true in Ht; lia || (apply Z.mul_pos_pos; [apply Z.pow_pos_nonneg; lia|done]). }
      case_bool_decide as H10.
      * split; [apply Z.div_str_pos; pose proof (Z.div_mod d 10 ltac:(lia)); lia|].
        split; [|lia]. etrans; [|exact Hl]. apply Z.log2_le_mono. apply Z.div_le_upper_bound; lia.
      * split; [done|]. split; [done|lia].
    + specialize (IH (k - 1) ltac:(lia)). destruct (shortest fuel b (k - 1)) as [d p].
      destruct IH as (? & ? & ?). split; [done|]. split; [done|lia].
Qed.

Lemma first_exponent_bound b : 0 ≤ b < inf_bits → -401 ≤ first_exponent b ≤ 10000.
Proof.
  intros Hb. unfold first_exponent. set (n := units b * 10 ^ 400 / 2 ^ 1074).
  pose proof (units_nonneg b ltac:(lia)) as Hu.
  assert (0 ≤ n) as Hn.
  { apply Z.div_pos; [|by apply Z.pow_pos_nonneg].
    apply Z.mul_nonneg_nonneg; [done|by apply Z.pow_nonneg]. }
  split; [lia|]. pose proof (dec_string_length n Hn).
  assert (Z.log2 n ≤ digits_bound); [|unfold digits_bound in *; lia].
  apply Z.le_trans with (Z.log2 (2 ^ 2101 * 10 ^ 400)); [|by vm_compute].
  apply Z.log2_le_mono. unfold n. apply Z.div_le_upper_bound; [by apply Z.pow_pos_nonneg|].
  assert (units b ≤ 2 ^ 2101) as HA.
  { destruct (Z.eq_dec (units b) 0) as [->|]; [by apply Z.pow_nonneg|].
    pose proof (units_log2 b Hb). destruct (Z.log2_spec (units b)) as [_ Hl]; [lia|].
    apply Z.lt_le_incl. eapply Z.lt_le_trans; [exact Hl|]. apply Z.pow_le_mono_r; lia. }
  assert (1 ≤ 2 ^ 1074) as HM by (apply (Z.pow_le_mono_r 2 0); lia).
  assert (0 < 10 ^ 400) as HP by (by apply Z.pow_pos_nonneg).
  apply Z.le_trans with (2 ^ 2101 * 10 ^ 400); [apply Z.mul_le_mono_nonneg_r; lia|].
  rewrite <- (Z.mul_1_l (2 ^ 2101 * 10 ^ 400)) at 1. apply Z.mul_le_mono_nonneg_r; [|done].
  apply Z.mul_nonneg_nonneg; by apply Z.pow_nonneg.
Qed.

(** ** Floats on the wire *)

(** [s] is a literal without sign for the magnitude [b]. *)
Record literal_of (s : string) (b : Z) : Prop := mkLiteral {
  lit_digit : digit_first s;
  lit_reads : read_number s = Some b;
  lit_parses : ∀ (neg : bool) rest, ends_number rest →
    let lit := if neg then String "-"%char s else s in
    parse_number (lit +:+ rest) = Some (lit, rest)
}.

Lemma sign_prefix (neg : bool) s :
  (if neg then "-" else EmptyString) +:+ s = if neg then String "-"%char s else s.
Proof. by destruct neg. Qed.

Lemma render_literal d k : 0 < d → literal_of (render d k) (scaled_bits 10 d k).
Proof.
  intros Hd. split; [apply render_digit_first; lia|apply read_number_render; lia|].
  intros neg rest Hr. destruct (render_parts d k Hd) as (i & f & -> & Hi & Hf). cbv zeta.
  pose proof (parse_literal neg i f EmptyString rest Hi Hf (or_introl eq_refl) Hr) as Hp.
  cbv zeta in Hp. by rewrite str_app_nil_r, sign_prefix in Hp.
Qed.

Lemma render_exp_literal d k : 0 < d →
  Z.abs (Z.of_nat (String.length (dec_string d)) - 1 + k) < 100000 →
  literal_of (render_exp d k) (scaled_bits 10 d k).
Proof.
  intros Hd Hx. split; [|by apply read_number_render_exp|].
  - destruct (render_exp_parts d k Hd) as (c & s' & _ & Hi & _ & ->). apply digit_first_app.
    destruct (int_part_digit _ Hi) as (c0 & s0 & E & [v Hv]). by exists c0, s0, v.
  - intros neg rest Hr. destruct (render_exp_parts d k Hd) as (c & s' & _ & Hi & Hs & ->).
    set (x := Z.of_nat _ - 1 + k) in *.
    assert (0 ≤ Z.abs x ≤ max_uint64) as Hm by (unfold64; lia).
    pose proof (parse_literal neg (String c EmptyString)
      (match s' with EmptyString => EmptyString | _ => String "."%char s' end)
      ("e" +:+ String (exp_sign x) (FormatUint (Z.abs x))) rest Hi) as Hp.
    cbv zeta in *. rewrite sign_prefix in Hp. apply Hp; [..|done].
    + destruct s'; [by left|]. right. by eexists.
    + right. eexists _, _. split; [done|]. split; [unfold exp_sign; destruct (x <? 0); auto|].
      split; [apply format_loop_nonempty|]. eapply digits_value_all, FormatUint_value, Hm.
Qed.

Lemma literal_float (neg : bool) s b : 0 ≤ b < inf_bits → literal_of s b →
  ParseFloat (if neg then String "-"%char s else s) = Ok (with_sign neg b).
Proof.
  intros Hb [Hd Hr _]. unfold ParseFloat. rewrite special_digit by done.
  assert (split_sign (if neg then String "-" s else s) = (neg, s)) as ->.
  { destruct neg; [done|by apply split_sign_digit]. }
  rewrite Hr. by rewrite bool_decide_true by lia.
Qed.

Lemma shortest_literals b : 0 ≤ b < inf_bits → b ≠ 0 →
  let k := first_exponent b in
  let '(d, p) := shortest (Z.to_nat (k + 1074)) b k in
  literal_of (render d p) b ∧ literal_of (render_exp d p) b.
Proof.
  intros Hb H0. cbv zeta. pose proof (first_exponent_bound b Hb) as Hk.
  pose proof (shortest_reads (Z.to_nat (first_exponent b + 1074)) b (first_exponent b) Hb) as Hs.
  pose proof (shortest_bound (Z.to_nat (first_exponent b + 1074)) b (first_exponent b) Hb H0
    ltac:(lia)) as Hd.
  destruct (shortest _ _ _) as [d p]. destruct Hs as [<- _], Hd as (Hd & Hl & Hp).
  split; [by apply render_literal|]. apply render_exp_literal; [done|].
  pose proof (dec_string_length d ltac:(lia)). unfold digits_bound in *. lia.
Qed.

(** What is written for a float is one number of the grammar, and reads back as the
    same float. *)
Lemma encode_float_wire f : float_wf f → is_nan f = false → is_inf f = false → ∃ lit,
  encode_float f = Some lit ∧ ParseFloat lit = Ok f ∧
  ∀ rest, ends_number rest → parse_number (lit +:+ rest) = Some (lit, rest).
Proof.
  intros Hwf Hnan Hinf. unfold encode_float, FormatFloat. rewrite Hnan, Hinf. simpl.
  destruct f as [bits]. unfold float_wf, is_nan, is_inf, is_neg in *. cbn [f64_bits] in *.
  apply bool_decide_eq_false in Hnan, Hinf.
  assert (with_sign (bool_decide (GoFloat.sign_bit ≤ bits)) (bits mod GoFloat.sign_bit)
          = mkFloat64 bits) as Hb.
  { unfold with_sign, GoFloat.sign_bit in *. case_bool_decide; f_equal; lia. }
  pose proof (Z.mod_pos_bound bits GoFloat.sign_bit ltac:(done)) as [Hpos _].
  assert (∀ s, literal_of s (bits mod GoFloat.sign_bit) →
    let lit := if bool_decide (GoFloat.sign_bit ≤ bits) then String "-"%char s else s in
    ParseFloat lit = Ok (mkFloat64 bits) ∧
    ∀ rest, ends_number rest → parse_number (lit +:+ rest) = Some (lit, rest)) as Hl.
  { intros s Hs. cbv zeta. split; [rewrite <- Hb; apply literal_float; [lia|done]|].
    intros rest. apply (lit_parses _ _ Hs). }
  clear Hwf Hb. revert Hnan Hinf Hpos Hl. generalize (bits mod GoFloat.sign_bit) as b.
  generalize (bool_decide (GoFloat.sign_bit ≤ bits)) as neg.
  intros neg b Hnan Hinf Hpos Hl. case_bool_decide as H0; simpl.
  - eexists. split; [done|]. apply Hl. subst b.
    split; [by exists "0"%char, EmptyString, 0|by vm_compute|]. intros sg rest Hr.
    pose proof (parse_literal sg "0" EmptyString EmptyString rest (or_introl eq_refl)
      (or_introl eq_refl) (or_introl eq_refl) Hr) as Hp. cbv zeta in Hp. by rewrite sign_prefix in Hp.
  - pose proof (shortest_literals b ltac:(lia) H0) as Hs. cbv zeta in Hs.
    destruct (shortest _ _ _) as [d p]. destruct Hs as [Hs Hse].
    destruct (_ || _); eexists; (split; [done|]); by apply Hl.
Qed.
End Json.
