(* ===== verification/GoFlag.v ===== *)
(** * The package flag, as far as the configuration uses it

    A flag set with string, integer and boolean flags and [ContinueOnError]:
    [Parse] reads arguments until the first that is no flag. *)

From S2P Require Import Prelude GoStrings GoInt GoErrors Domain GoFloat Json.
Open Scope Z_scope.

Module GoFlag.

(** ** Values *)

(** [strconv.ParseBool] *)
Definition ParseBool (s : string) : option bool :=
  if bool_decide (s ∈ ["1"; "t"; "T"; "TRUE"; "true"; "True"]) then Some true
  else if bool_decide (s ∈ ["0"; "f"; "F"; "FALSE"; "false"; "False"]) then Some false
  else None.

(** A digit of a base up to 36. *)
Definition digit36 (c : ascii) : option Z :=
  match digit_val c with
  | Some d => Some d
  | None => let n := code (to_lower_ascii c) in
            if bool_decide (97 ≤ n ≤ 122) then Some (n - 87) else None
  end.

(** The loop of [strconv.ParseUint(s, 0, 64)] in the base found, skipping
    underscores; the boolean says that it met one. *)
Fixpoint parse_base_loop (base : Z) (s : string) (n : Z) (under : bool) : option (Z * bool) :=
  match s with
  | EmptyString => Some (n, under)
  | String c s' =>
      if bool_decide (c = "_"%char) then parse_base_loop base s' n true
      else match digit36 c with
           | None => None
           | Some d => if base <=? d then None
                       else if max_uint64 / base + 1 <=? n then None
                       else if max_uint64 <? n * base + d then None
                       else parse_base_loop base s' (n * base + d) under
           end
  end.

(** The base, and the digits behind its prefix. *)
Definition base_of (s : string) : Z * string :=
  match s with
  | String z s1 =>
      if bool_decide (z = "0"%char) then
        match s1 with
        | String x (String _ _ as s2) =>
            if bool_decide (to_lower_ascii x = "b"%char) then (2, s2)
            else if bool_decide (to_lower_ascii x = "o"%char) then (8, s2)
            else if bool_decide (to_lower_ascii x = "x"%char) then (16, s2)
            else (8, s1)
        | _ => (8, s1)
        end
      else (10, s)
  | EmptyString => (10, s)
  end.

Definition ParseUint0 (s : string) : option Z :=
  match s with
  | EmptyString => None
  | _ => let '(base, digits) := base_of s in
         '(n, under) ← parse_base_loop base digits 0 false;
         if (under : bool) && negb (underscoreOK s) then None else Some n
  end.

(** [strconv.ParseInt(s, 0, 64)], the value of an integer flag. *)
Definition ParseInt0 (s : string) : option Z :=
  match s with
  | EmptyString => None
  | _ => let '(neg, s1) := split_sign s in
         un ← ParseUint0 s1;
         if negb neg && (2 ^ 63 <=? un) then None
         else if (neg : bool) && (2 ^ 63 <? un) then None
         else Some (if neg then - un else un)
  end.

(** ** Flag sets *)

Inductive flag_value : Type :=
  | FString (s : string)
  | FInt (z : Z)
  | FBool (b : bool).

#[export] Instance flag_value_eq_dec : EqDecision flag_value.
Proof. solve_decision. Defined.

(** The flags defined, with what they hold. *)
Abbreviation FlagSet := (gmap string flag_value).

(** [flag.Value.Set] on a flag that holds [old]. *)
Definition Set_value (old : flag_value) (s : string) : option flag_value :=
  match old with
  | FString _ => Some (FString s)
  | FInt _ => FInt <$> ParseInt0 s
  | FBool _ => FBool <$> ParseBool s
  end.

Definition ErrHelp : error := Errorf "flag: help requested".

(** [name=value] cut at the first equals sign that is not its first byte. *)
Fixpoint cut_value (s : string) : string * option string :=
  match s with
  | EmptyString => (EmptyString, None)
  | String c s' => if bool_decide (c = "="%char) then (EmptyString, Some s')
                   else let '(n, v) := cut_value s' in (String c n, v)
  end.

(** What an argument is: the end of the flags, one that cannot be a flag, or a
    flag's name with its value. *)
Inductive argument : Type :=
  | NotFlag
  | BadSyntax
  | Named (name : string) (value : option string).

Definition classify_name (s : string) : argument :=
  match s with
  | EmptyString => BadSyntax
  | String c s' => if bool_decide (c = "-"%char ∨ c = "="%char) then BadSyntax
                   else let '(n, v) := cut_value s' in Named (String c n) v
  end.

Definition classify (s : string) : argument :=
  match s with
  | String c (String c2 s2 as s1) =>
      if negb (bool_decide (c = "-"%char)) then NotFlag
      else if bool_decide (c2 = "-"%char) then
        match s2 with EmptyString => NotFlag | _ => classify_name s2 end
      else classify_name s1
  | _ => NotFlag
  end.

Definition invalid_value (name : string) : error := Errorf ("invalid value for flag -" +:+ name).

(** [Parse], one [parseOne] a round: the flags after the arguments, or the
    first error. *)
Fixpoint Parse (args : list string) (fs : FlagSet) : result error FlagSet :=
  match args with
  | [] => Ok fs
  | s :: args =>
      match classify s with
      | NotFlag => Ok fs
      | BadSyntax => Err (Errorf ("bad flag syntax: " +:+ s))
      | Named name value =>
          match fs !! name with
          | None => if bool_decide (name = "help" ∨ name = "h") then Err ErrHelp
                    else Err (Errorf ("flag provided but not defined: -" +:+ name))
          | Some (FBool b) =>
              match Set_value (FBool b) (default "true" value) with
              | Some v => Parse args (<[name := v]> fs)
              | None => Err (invalid_value name)
              end
          | Some old =>
              match value, args with
              | Some text, args | None, text :: args =>
                  match Set_value old text with
                  | Some v => Parse args (<[name := v]> fs)
                  | None => Err (invalid_value name)
                  end
              | None, [] => Err (Errorf ("flag needs an argument: -" +:+ name))
              end
          end
      end
  end.

Definition get_string (fs : FlagSet) (name : string) : string :=
  match fs !! name with Some (FString s) => s | _ => EmptyString end.
Definition get_int (fs : FlagSet) (name : string) : Z :=
  match fs !! name with Some (FInt z) => z | _ => 0 end.
Definition get_bool (fs : FlagSet) (name : string) : bool :=
  match fs !! name with Some (FBool b) => b | _ => false end.

(** ** Integers read back *)

Lemma parse_base_digits s n v under : digits_value s n = Some v → 0 ≤ n → v ≤ max_uint64 →
  parse_base_loop 10 s n under = Some (v, under).
Proof.
  intros Hs Hn Hv. revert n Hs Hn. induction s as [|c s IH]; intros n Hs Hn.
  - by injection Hs as <-.
  - cbn [parse_base_loop digits_value] in *. destruct (digit_val c) as [d|] eqn:Hd; [|done].
    pose proof (digit_val_range _ _ Hd). pose proof (digits_value_ge s (n * 10 + d) v ltac:(lia) Hs).
    rewrite bool_decide_false by by apply (digit_val_not _ _ Hd).
    unfold digit36. rewrite Hd. unfold64.
    destruct (Z.leb_spec 10 d); [lia|]. destruct (Z.leb_spec ((2 ^ 64 - 1) / 10 + 1) n); [lia|].
    destruct (Z.ltb_spec (2 ^ 64 - 1) (n * 10 + d)); [lia|]. apply IH; [done|lia].
Qed.

Lemma ParseUint0_FormatUint n : 0 ≤ n ≤ max_uint64 → ParseUint0 (FormatUint n) = Some n.
Proof.
  intros Hn. pose proof (FormatUint_value n Hn) as Hv.
  destruct (Json.FormatUint_int_part n Hn) as [Hz|(c & s' & E & Hc & _)].
  - rewrite Hz in *. injection Hv as <-. reflexivity.
  - rewrite E in *. unfold ParseUint0, base_of. rewrite bool_decide_false by done.
    by rewrite (parse_base_digits _ 0 n false Hv) by apply Hn || done.
Qed.

Lemma ParseInt0_FormatInt z : in_int64 z → ParseInt0 (FormatInt z) = Some z.
Proof.
  intros Hz. unfold64. unfold FormatInt. destruct (Z.ltb_spec z 0) as [Hneg|Hpos].
  - unfold ParseInt0. cbn [split_sign]. rewrite decide_False, decide_True by done.
    rewrite ParseUint0_FormatUint by (unfold64; lia). simpl.
    destruct (Z.ltb_spec (2 ^ 63) (- z)); [lia|]. f_equal. lia.
  - assert (digit_first (FormatUint z)) as Hd by by apply format_loop_digit_first.
    pose proof (split_sign_digit _ Hd) as Hs. destruct Hd as (c & s' & d & E & _).
    unfold ParseInt0. rewrite Hs. rewrite E at 1. rewrite ParseUint0_FormatUint by (unfold64; lia). simpl.
    by destruct (Z.leb_spec (2 ^ 63) z); [lia|].
Qed.

(** ** Flags read back *)

(** A name that can be written behind a dash. *)
Definition plain_name (n : string) : bool :=
  match n with
  | EmptyString => false
  | String c _ => negb (bool_decide (c = "-"%char)) && negb (Contains n "=")
  end.

(** How one setting is written on the command line. *)
Definition spell (nv : string * flag_value) : list string :=
  match nv.2 with
  | FString s => ["-" +:+ nv.1; s]
  | FInt z => ["-" +:+ nv.1; FormatInt z]
  | FBool b => ["-" +:+ (nv.1 +:+ ("=" +:+ (if b then "true" else "false")))]
  end.

Definition same_kind (a b : flag_value) : Prop :=
  match a, b with FString _, FString _ | FInt _, FInt _ | FBool _, FBool _ => True | _, _ => False end.

(** A setting of a flag that is defined, with a value that its type has. *)
Definition settable (fs : FlagSet) (nv : string * flag_value) : Prop :=
  plain_name nv.1 = true ∧
  (∃ old, fs !! nv.1 = Some old ∧ same_kind old nv.2) ∧
  match nv.2 with FInt z => in_int64 z | _ => True end.

Lemma Contains_cons c s : Contains (String c s) "=" = false → c ≠ "="%char ∧ Contains s "=" = false.
Proof.
  cbn [Contains]. intros [H1 H2]%orb_false_iff. split; [|done]. intros ->. by vm_compute in H1.
Qed.

Lemma cut_value_plain s : Contains s "=" = false →
  cut_value s = (s, None) ∧ ∀ v, cut_value (s +:+ ("=" +:+ v)) = (s, Some v).
Proof.
  induction s as [|c s IH]; intros Hc; [done|]. apply Contains_cons in Hc as [Hc Hs].
  destruct (IH Hs) as [H1 H2]. split; [|intros v; rewrite str_app_cons]; cbn [cut_value];
    rewrite bool_decide_false by done; [by rewrite H1|by rewrite H2].
Qed.

Lemma classify_plain n : plain_name n = true →
  classify ("-" +:+ n) = Named n None ∧ ∀ v, classify ("-" +:+ (n +:+ ("=" +:+ v))) = Named n (Some v).
Proof.
  destruct n as [|c s]; [done|]. unfold plain_name. intros [Hc Hn]%andb_prop.
  apply negb_true_iff, bool_decide_eq_false in Hc. apply negb_true_iff, Contains_cons in Hn as [Hc2 Hn].
  destruct (cut_value_plain s Hn) as [H1 H2].
  split; [|intros v; rewrite str_app_cons]; rewrite str_app_cons, Json.str_app_nil_l; unfold classify;
    rewrite bool_decide_true by done; simpl negb; rewrite bool_decide_false by done;
    unfold classify_name; rewrite bool_decide_false by tauto; [by rewrite H1|by rewrite H2].
Qed.

Lemma Parse_spell nv args fs : settable fs nv →
  Parse (spell nv ++ args) fs = Parse args (<[nv.1 := nv.2]> fs).
Proof.
  destruct nv as [n v]. intros (Hn & (old & Ho & Hk) & Hv). cbn [fst snd] in *.
  destruct (classify_plain n Hn) as [H1 H2].
  destruct old as [os|oz|ob], v as [text|z|b]; try done; unfold spell; cbn [fst snd app Parse];
    rewrite ?H1, ?H2, Ho; cbn [Set_value].
  - done.
  - by rewrite ParseInt0_FormatInt.
  - by destruct b.
Qed.

Lemma settable_insert fs nv nv' : settable fs nv → settable fs nv' →
  settable (<[nv.1 := nv.2]> fs) nv'.
Proof.
  intros (_ & (old & Ho & Hk) & _) (Hn' & (old' & Ho' & Hk') & Hv').
  split; [done|]. split; [|done]. destruct (decide (nv.1 = nv'.1)) as [E|E].
  - rewrite <- E in *. rewrite lookup_insert_eq. eexists; split; [done|].
    rewrite Ho in Ho'. injection Ho' as ->. destruct old', nv.2, nv'.2; done.
  - rewrite lookup_insert_ne by done. eauto.
Qed.

Lemma Parse_all settings fs : Forall (settable fs) settings →
  Parse (settings ≫= spell) fs = Ok (fold_left (λ fs nv, <[nv.1 := nv.2]> fs) settings fs).
Proof.
  revert fs. induction settings as [|nv l IH]; intros fs Hs; [done|].
  apply Forall_cons in Hs as [H1 Hl]. csimpl. rewrite Parse_spell by done. apply IH.
  eapply Forall_impl; [exact Hl|]. intros nv' H2. by apply settable_insert.
Qed.

(** A command line that sets defined flags one after the other is read as
    these settings, the last one of a flag winning. *)
Theorem Parse_settings settings fs : Forall (settable fs) settings →
  Parse (settings ≫= spell) fs = Ok (fold_left (λ fs nv, <[nv.1 := nv.2]> fs) settings fs).
Proof. apply Parse_all. Qed.

Definition demo_flags : FlagSet :=
  {["a" := FString EmptyString; "i" := FInt (-1); "r" := FBool false]}.

Lemma Parse_settings_witness :
  Parse ["-i"; "-9223372036854775808"; "-r=true"; "-a"; "-x"; "-i"; "60"] demo_flags =
    Ok {["a" := FString "-x"; "i" := FInt 60; "r" := FBool true]}.
Proof.
  etransitivity; [apply (Parse_settings
    [("i", FInt min_int64); ("r", FBool true); ("a", FString "-x"); ("i", FInt 60)])|reflexivity].
  repeat (apply Forall_cons; split); [..|apply Forall_nil_2];
    (split; [reflexivity|split; [eexists; split; [reflexivity|exact I]|cbn; unfold64; lia || exact I]]).
Defined.
End GoFlag.
