(* ===== verification/MetricsJson.v ===== *)
(** * encoding/json applied to domain.Metrics

    Encoding a metric and a batch ([json.Marshal] with the tags of
    internal/domain/metrics.go), and decoding into a [domain.Metrics] that may
    already hold something: the decoder writes the fields the text has and leaves
    the others.  The batch handler decodes into a pooled slice (handler.go), so what
    it holds from earlier requests is an argument of [decodeMetricsBatch]. *)

From S2P Require Import Prelude GoStrings GoInt GoErrors Domain GoFloat Ports Json.
Open Scope Z_scope.

Module MetricsJson.
Import Json.

(** ** Encoding *)

Definition member_text (kt : string * string) : string :=
  encode_string kt.1 +:+ ":" +:+ kt.2.

Fixpoint join_comma (l : list string) : string :=
  match l with
  | [] => EmptyString
  | [t] => t
  | t :: l => t +:+ "," +:+ join_comma l
  end.

(** The white space an encoder puts before a member or an element, after a colon
    and before the closing bracket: none, or what [SetIndent] asks for at a depth. *)
Record layout : Type := mkLayout { l_pre : string; l_colon : string; l_post : string }.
Definition compact : layout := mkLayout EmptyString EmptyString EmptyString.

Definition layout_member (L : layout) (kt : string * string) : string :=
  l_pre L +:+ member_text (kt.1, l_colon L +:+ kt.2).

Definition object_text (L : layout) (l : list (string * string)) : string :=
  match l with
  | [] => "{}"
  | _ => "{" +:+ join_comma (layout_member L <$> l) +:+ l_post L +:+ "}"
  end.
Definition array_text (L : layout) (l : list string) : string :=
  match l with
  | [] => "[]"
  | _ => "[" +:+ join_comma (String.append (l_pre L) <$> l) +:+ l_post L +:+ "]"
  end.

(** The members of a metric, in the order of the struct; nil pointers are
    omitted.  [None]: a float that JSON cannot express. *)
Definition metric_members (m : Metrics) : option (list (string * string)) :=
  v ← match Value m with
      | Some f => lit ← encode_float f; Some [("value", lit)]
      | None => Some []
      end;
  Some (match Delta m with Some d => [("delta", FormatInt d)] | None => [] end ++ v ++
        [("id", encode_string (ID m)); ("type", encode_string (MType m))]).

Definition encode_metric_in (L : layout) (m : Metrics) : option string :=
  object_text L <$> metric_members m.
Definition encode_metric : Metrics → option string := encode_metric_in compact.

(** [La] is the layout of the array, [L] that of its objects. *)
Definition encode_batch_in (La L : layout) (items : list Metrics) : option string :=
  array_text La <$> mapM (encode_metric_in L) items.
Definition encode_batch : list Metrics → option string := encode_batch_in compact compact.

(** ** Decoding *)

Definition type_error : error := Errorf "json: cannot unmarshal".
Definition unknown_field (k : string) : error := Errorf ("json: unknown field " +:+ k).

(** The error [Decode] returns is the first it met; it goes on decoding. *)
Definition first_error (e1 e2 : option error) : option error :=
  match e1 with Some _ => e1 | None => e2 end.

Definition decode_string (v : value) (old : string) : string * option error :=
  match v with
  | Str s => (s, None)
  | Null => (old, None)
  | _ => (old, Some type_error)
  end.

(** A pointer is set to nil by [null]; anything else allocates it first. *)
Definition decode_pointer {A} (zero : A) (read : string → option A) (v : value) (old : option A) :
  option A * option error :=
  match v with
  | Null => (None, None)
  | Number lit =>
      match read lit with
      | Some a => (Some a, None)
      | None => (Some (default zero old), Some type_error)
      end
  | _ => (Some (default zero old), Some type_error)
  end.

Definition ok_opt {E A} (r : result E A) : option A := match r with Ok a => Some a | Err _ => None end.

Definition decode_member (strict : bool) (m : Metrics) (kv : string * value) : Metrics * option error :=
  let '(k, v) := kv in
  if EqualFold k "delta" then
    let '(d, e) := decode_pointer 0 (λ l, ok_opt (ParseInt l)) v (Delta m) in
    (mkMetrics d (Value m) (ID m) (MType m), e)
  else if EqualFold k "value" then
    let '(f, e) := decode_pointer f64_zero (λ l, ok_opt (ParseFloat l)) v (Value m) in
    (mkMetrics (Delta m) f (ID m) (MType m), e)
  else if EqualFold k "id" then
    let '(s, e) := decode_string v (ID m) in (mkMetrics (Delta m) (Value m) s (MType m), e)
  else if EqualFold k "type" then
    let '(s, e) := decode_string v (MType m) in (mkMetrics (Delta m) (Value m) (ID m) s, e)
  else (m, if strict then Some (unknown_field k) else None).

Fixpoint decode_members (strict : bool) (l : list (string * value)) (m : Metrics) :
  Metrics * option error :=
  match l with
  | [] => (m, None)
  | kv :: l =>
      let '(m, e1) := decode_member strict m kv in
      let '(m, e2) := decode_members strict l m in (m, first_error e1 e2)
  end.

(** A value decoded into the metric [m]. *)
Definition decode_metric (strict : bool) (v : value) (m : Metrics) : Metrics * option error :=
  match v with
  | Null => (m, None)
  | Obj l => decode_members strict l m
  | _ => (m, Some type_error)
  end.

(** Decoding a whole text into a fresh metric. *)
Definition decode_one (strict : bool) (s : string) : result error Metrics :=
  match decode_first s with
  | None => Err (Errorf "json: syntax")
  | Some v => match decode_metric strict v zero_Metrics with
              | (m, None) => Ok m
              | (_, Some e) => Err e
              end
  end.

(** The elements of an array, each into the element of the slice that has its
    index; past the capacity the slice grows by zero elements. *)
Fixpoint decode_elements (strict : bool) (l : list value) (old : list Metrics) :
  list Metrics * option error :=
  match l with
  | [] => ([], None)
  | v :: l =>
      let '(m, e1) := decode_metric strict v (default zero_Metrics (head old)) in
      let '(ms, e2) := decode_elements strict l (tail old) in (m :: ms, first_error e1 e2)
  end.

(** [decodeMetricsBatch]: [buf] is the slice taken from the pool, as the elements
    of its array up to its capacity; [grow] the elements the runtime adds beyond the
    length when the slice has to grow.  The second component is the slice that goes
    back to the pool, by the error path or by [cleanup]. *)
Definition decodeMetricsBatch (grow : nat) (buf : list Metrics) (body : result error string) :
  result error (list Metrics) * list Metrics :=
  match body with
  | Err e => (Err e, buf)
  | Ok s =>
      match decode_first s with
      | None => (Err (Errorf "json: syntax"), buf)
      | Some Null | Some (Arr []) => (Ok [], [])
      | Some (Arr l) =>
          let '(ms, e) := decode_elements true l buf in
          match e with
          | Some e => (Err e, take (length buf) ms ++ drop (length l) buf)
          | None => (Ok ms, ms ++ if bool_decide (length l ≤ length buf)%nat
                                  then drop (length l) buf else replicate grow zero_Metrics)
          end
      | Some _ => (Err type_error, buf)
      end
  end.

(** [cloneMetrics]: a new array with the same metrics (nil for none, which no
    caller tells from an empty slice). *)
Definition cloneMetrics (items : list Metrics) : list Metrics :=
  if bool_decide (length items = 0%nat) then [] else items.

(** ** Lemmas: values on the wire

    [wire D t v]: inside fewer than [D] arrays and objects, the text [t] followed
    by anything that does not continue a number parses as [v], leaving what
    follows. *)
Definition wire (D : nat) (t : string) (v : value) : Prop :=
  ∀ fuel depth rest, (String.length t < fuel)%nat → (depth < D)%nat → ends_number rest →
  parse_value fuel depth (t +:+ rest) = Some (v, rest).

Lemma len_cons c (s : string) : String.length (String c EmptyString +:+ s) = S (String.length s).
Proof. done. Qed.

Lemma str_cons_app c (s t : string) : String c s +:+ t = String c (s +:+ t).
Proof. done. Qed.

Lemma encode_chars_length s : utf8 s → ∀ n, (String.length s ≤ n)%nat →
  (String.length s ≤ String.length (encode_chars n s))%nat.
Proof.
  induction 1 as [|r s Hr Hs IH]; intros n Hn; [simpl; lia|].
  destruct (take_rune_chunk _ _ _ Hr) as (_ & Hne & _). rewrite str_app_length in *.
  destruct r as [|c r]; [done|]. simpl in Hn. destruct n as [|n]; [lia|].
  change (encode_chars (S n) (String c r +:+ s)) with
    (match take_rune (String c r +:+ s) with
     | Some (r', rest) => encode_chunk r' +:+ encode_chars n rest
     | None => String backslash "ufffd" +:+ encode_chars n (r +:+ s) end).
  rewrite Hr, str_app_length. specialize (IH n ltac:(lia)).
  assert (String.length (String c r) ≤ String.length (encode_chunk (String c r)))%nat; [|lia].
  destruct r as [|d r]; simpl encode_chunk.
  - unfold encode_ascii. repeat case_match; simpl; lia.
  - case_bool_decide as E; [|case_bool_decide as E']; [rewrite E|rewrite E'|]; vm_compute; lia.
Qed.

Lemma wire_string D s : utf8 s → wire D (encode_string s) (Str s).
Proof.
  intros Hs fuel depth rest Hf _ _. unfold encode_string in *.
  pose proof (encode_chars_length s Hs _ (le_n _)) as Hl.
  simpl String.length in Hf. rewrite str_app_length in Hf.
  rewrite str_cons_app, <- str_app_assoc, str_cons_app, str_app_nil_l.
  destruct fuel as [|fuel]; [lia|].
  change (parse_value (S fuel) depth (String dquote ?t)) with
    (match parse_string fuel t with Some (r, s2) => Some (Str r, s2) | None => None end).
  rewrite parse_encode by (done || lia). done.
Qed.

Definition number_head (c : ascii) : bool :=
  match digit_val c with Some _ => true | None => bool_decide (c = "-"%char) end.

Lemma parse_number_head c s r : parse_number (String c s) = Some r → number_head c = true.
Proof.
  unfold number_head, parse_number. destruct (digit_val c) eqn:Hd; [done|].
  case_bool_decide as Hc; [done|]. unfold parse_int_part. rewrite Hd. case_bool_decide; [|done]. subst. by vm_compute in Hd.
Qed.

Lemma parse_value_number fuel depth c s : number_head c = true →
  parse_value (S fuel) depth (String c s) =
    match parse_number (String c s) with Some (n, s2) => Some (Number n, s2) | None => None end.
Proof. destruct c as [[] [] [] [] [] [] [] []]; intros H; vm_compute in H; try done; reflexivity. Qed.

Lemma wire_number D lit : lit ≠ EmptyString →
  (∀ rest, ends_number rest → parse_number (lit +:+ rest) = Some (lit, rest)) →
  wire D lit (Number lit).
Proof.
  intros Hne Hp fuel depth rest Hf _ Hr. specialize (Hp rest Hr).
  destruct lit as [|c lit]; [done|]. destruct fuel as [|fuel]; [simpl in Hf; lia|].
  rewrite str_cons_app in *. rewrite parse_value_number by by eapply parse_number_head.
  by rewrite Hp.
Qed.

Lemma parse_member D fuel depth k t v rest :
  utf8 k → wire D t v → (String.length (member_text (k, t)) < S fuel)%nat → (depth < D)%nat →
  ends_number rest →
  parse_members (S fuel) depth (member_text (k, t) +:+ rest) =
    match skip_spaces rest with
    | String "," s5 => match parse_members fuel depth s5 with
                       | Some (l, s6) => Some ((k, v) :: l, s6)
                       | None => None
                       end
    | String "}" s5 => Some ([(k, v)], s5)
    | _ => None
    end.
Proof.
  intros Hk Ht Hf Hd Hr. unfold member_text in *. cbn [fst snd] in *. unfold encode_string in *.
  pose proof (encode_chars_length k Hk _ (le_n _)) as Hl.
  rewrite str_cons_app, <- !str_app_assoc in *. rewrite str_cons_app in *. rewrite str_app_nil_l in *.
  simpl String.length in Hf. rewrite !str_app_length in Hf. simpl String.length in Hf.
  rewrite str_app_nil_l in Hf. change (parse_members (S fuel) depth (String dquote ?u)) with
    (match parse_string fuel u with
     | None => None
     | Some (k, s2) =>
         match skip_spaces s2 with
         | String ":" s3 =>
             match parse_value fuel depth s3 with
             | None => None
             | Some (v, s4) =>
                 match skip_spaces s4 with
                 | String "," s5 => match parse_members fuel depth s5 with
                                    | Some (l, s6) => Some ((k, v) :: l, s6)
                                    | None => None
                                    end
                 | String "}" s5 => Some ([(k, v)], s5)
                 | _ => None
                 end
             end
         | _ => None
         end
     end).
  rewrite <- !str_app_assoc, str_cons_app, str_app_nil_l.
  rewrite parse_encode by (done || lia).
  change (skip_spaces (":" +:+ t +:+ rest)) with (String ":" (t +:+ rest)). cbv beta iota.
  rewrite Ht by (done || lia). done.
Qed.

(** ** White space *)

Fixpoint blank (s : string) : Prop :=
  match s with EmptyString => True | String c s => is_space c = true ∧ blank s end.

Record layout_ok (L : layout) : Prop := mkLayoutOk {
  ok_pre : blank (l_pre L); ok_colon : blank (l_colon L); ok_post : blank (l_post L)
}.

Lemma compact_ok : layout_ok compact.
Proof. by split. Qed.

Lemma skip_blank ws s : blank ws → skip_spaces (ws +:+ s) = skip_spaces s.
Proof.
  induction ws as [|c ws IH]; [done|]. intros [Hc Hws]. rewrite str_cons_app. simpl.
  rewrite Hc. by apply IH.
Qed.

Lemma parse_value_skip fuel depth s t : skip_spaces s = skip_spaces t →
  parse_value fuel depth s = parse_value fuel depth t.
Proof. intros Hs. destruct fuel; [done|]. cbn [parse_value]. by rewrite Hs. Qed.

Lemma parse_members_skip fuel depth s t : skip_spaces s = skip_spaces t →
  parse_members fuel depth s = parse_members fuel depth t.
Proof. intros Hs. destruct fuel; [done|]. cbn [parse_members]. by rewrite Hs. Qed.

Lemma skip_spaces_idem s : skip_spaces (skip_spaces s) = skip_spaces s.
Proof. induction s as [|c s IH]; [done|]. simpl. destruct (is_space c) eqn:Hc; [done|]. simpl. by rewrite Hc. Qed.

Lemma wire_blank D ws t v : blank ws → wire D t v → wire D (ws +:+ t) v.
Proof.
  intros Hws Ht fuel depth rest Hf Hd Hr. rewrite str_app_length in Hf. rewrite <- str_app_assoc.
  rewrite (parse_value_skip _ _ _ (t +:+ rest)) by by apply skip_blank. apply Ht; [lia|done..].
Qed.

Lemma blank_ends_number ws s : blank ws → ends_number s → ends_number (ws +:+ s).
Proof.
  destruct ws as [|c ws]; [done|]. intros [Hc _] _.
  destruct c as [[] [] [] [] [] [] [] []]; by vm_compute in Hc.
Qed.

(** A member parsed, and the text behind it is [rest] up to white space. *)
Lemma parse_layout_member L D fuel depth k t v rest :
  layout_ok L → utf8 k → wire D t v →
  (String.length (layout_member L (k, t)) < S fuel)%nat → (depth < D)%nat → ends_number rest →
  parse_members (S fuel) depth (layout_member L (k, t) +:+ rest) =
    match skip_spaces rest with
    | String "," s5 => match parse_members fuel depth s5 with
                       | Some (l, s6) => Some ((k, v) :: l, s6)
                       | None => None
                       end
    | String "}" s5 => Some ([(k, v)], s5)
    | _ => None
    end.
Proof.
  intros HL Hk Ht Hf Hd Hr. unfold layout_member in *. cbn [fst snd] in *.
  rewrite str_app_length in Hf. rewrite <- str_app_assoc.
  rewrite (parse_members_skip _ _ _ (member_text (k, l_colon L +:+ t) +:+ rest))
    by by apply skip_blank, ok_pre.
  apply (parse_member D); [done| |lia|done..]. by apply wire_blank; [apply ok_colon|].
Qed.

Lemma parse_members_text L D l vs depth : layout_ok L →
  Forall2 (λ kt kv, kt.1 = kv.1 ∧ utf8 kt.1 ∧ wire D kt.2 kv.2) l vs → l ≠ [] → (depth < D)%nat →
  ∀ fuel rest, (String.length (join_comma (layout_member L <$> l)) < fuel)%nat →
  parse_members fuel depth (join_comma (layout_member L <$> l) +:+ l_post L +:+ String "}" rest) =
    Some (vs, rest).
Proof.
  intros HL Hl Hne Hd. induction Hl as [|[k t] [k' v] l vs (E & Hk & Ht) Hl IH]; [done|].
  simpl in E, Hk, Ht. subst k'. intros fuel rest Hf. destruct fuel as [|fuel]; [lia|].
  assert (ends_number (l_post L +:+ String "}" rest)) as Hend
    by by apply blank_ends_number; [apply ok_post|].
  destruct l as [|kt2 l].
  - inversion Hl; subst. cbn [fmap list_fmap join_comma] in *.
    rewrite (parse_layout_member L D fuel depth k t v) by (done || lia).
    rewrite skip_blank by by apply ok_post. done.
  - change (join_comma (layout_member L <$> (k, t) :: kt2 :: l)) with
      (layout_member L (k, t) +:+ "," +:+ join_comma (layout_member L <$> kt2 :: l)) in *.
    rewrite str_app_length in Hf. rewrite len_cons in Hf.
    rewrite <- str_app_assoc. rewrite (parse_layout_member L D fuel depth k t v) by (done || lia).
    change (skip_spaces (("," +:+ ?u) +:+ ?r)) with (String "," (u +:+ r)). cbv beta iota.
    rewrite IH by (done || lia). done.
Qed.

Definition depth_ok (D : nat) : (D ≤ max_depth)%nat → ∀ depth, (depth < D)%nat →
  (max_depth <=? depth)%nat = false.
Proof. intros HD depth Hd. apply Nat.leb_gt. lia. Qed.

Lemma wire_object L D l vs : layout_ok L →
  Forall2 (λ kt kv, kt.1 = kv.1 ∧ utf8 kt.1 ∧ wire (S D) kt.2 kv.2) l vs →
  (D ≤ max_depth)%nat → wire D (object_text L l) (Obj vs).
Proof.
  intros HL Hl HD fuel depth rest Hf Hd _. destruct fuel as [|fuel]; [lia|].
  destruct l as [|kt l].
  { inversion Hl; subst. change (parse_value (S fuel) depth (object_text L [] +:+ rest)) with
      (if (max_depth <=? depth)%nat then None else Some (Obj [], rest)). by rewrite (depth_ok D). }
  pose proof (parse_members_text L (S D) _ vs (S depth) HL Hl ltac:(done) ltac:(lia) fuel rest) as Hp.
  unfold object_text in *. rewrite len_cons, !str_app_length in Hf. rewrite <- !str_app_assoc.
  change ("}" +:+ rest) with (String "}" rest). set (text := join_comma _ +:+ _) in *.
  assert (∃ u, skip_spaces text = String dquote u) as [u Hu].
  { subst text. destruct l; cbn [fmap list_fmap join_comma]; unfold layout_member;
      rewrite <- !str_app_assoc, skip_blank by (by apply ok_pre);
      unfold member_text, encode_string; by eexists. }
  assert (parse_value (S fuel) depth ("{" +:+ text) =
    if (max_depth <=? depth)%nat then None
    else match skip_spaces text with
         | String "}" s2 => Some (Obj [], s2)
         | s2 => match parse_members fuel (S depth) s2 with
                 | Some (l, s3) => Some (Obj l, s3) | None => None end
         end) as -> by done.
  rewrite (depth_ok D), Hu by done. specialize (Hp ltac:(lia)).
  rewrite (parse_members_skip _ _ text (String dquote u)) in Hp
    by (by rewrite <- Hu, skip_spaces_idem).
  transitivity (match parse_members fuel (S depth) (String dquote u) with
                | Some (l, s3) => Some (Obj l, s3) | None => None end);
    [reflexivity|by rewrite Hp].
Qed.

(** ** Arrays *)

Lemma parse_elements_text L D l vs depth : layout_ok L → Forall2 (wire D) l vs → l ≠ [] →
  (depth < D)%nat → ∀ fuel rest, (S (String.length (join_comma (String.append (l_pre L) <$> l))) < fuel)%nat →
  parse_elements fuel depth
    (join_comma (String.append (l_pre L) <$> l) +:+ l_post L +:+ String "]" rest) = Some (vs, rest).
Proof.
  intros HL Hl Hne Hd. induction Hl as [|t v l vs Ht Hl IH]; [done|]. intros fuel rest Hf.
  assert (ends_number (l_post L +:+ String "]" rest)) as Hend
    by by apply blank_ends_number; [apply ok_post|].
  apply (wire_blank _ (l_pre L)) in Ht; [|by apply ok_pre].
  destruct fuel as [|fuel]; [lia|]. destruct l as [|t2 l].
  - inversion Hl; subst. cbn [fmap list_fmap join_comma] in *. cbn [parse_elements].
    rewrite Ht by (done || lia). rewrite skip_blank by by apply ok_post. done.
  - change (join_comma (String.append (l_pre L) <$> t :: t2 :: l)) with
      ((l_pre L +:+ t) +:+ "," +:+ join_comma (String.append (l_pre L) <$> t2 :: l)) in *.
    rewrite str_app_length, len_cons in Hf.
    rewrite <- (str_app_assoc (l_pre L +:+ t)). cbn [parse_elements]. rewrite Ht by (done || lia).
    change (skip_spaces (("," +:+ ?u) +:+ ?r)) with (String "," (u +:+ r)). cbv beta iota.
    rewrite IH by (done || lia). done.
Qed.

Definition starts_value (t : string) : Prop :=
  match t with String c _ => is_space c = false ∧ c ≠ "]"%char | EmptyString => False end.

Lemma wire_array L D l vs : layout_ok L → Forall2 (wire (S D)) l vs → Forall starts_value l →
  (D ≤ max_depth)%nat → wire D (array_text L l) (Arr vs).
Proof.
  intros HL Hl Hs HD fuel depth rest Hf Hd _. destruct fuel as [|fuel]; [lia|].
  destruct l as [|t l].
  { inversion Hl; subst. change (parse_value (S fuel) depth (array_text L [] +:+ rest)) with
      (if (max_depth <=? depth)%nat then None else Some (Arr [], rest)). by rewrite (depth_ok D). }
  pose proof (parse_elements_text L (S D) _ vs (S depth) HL Hl ltac:(done) ltac:(lia) fuel rest) as Hp.
  unfold array_text in *. rewrite len_cons, !str_app_length in Hf. rewrite <- !str_app_assoc.
  change ("]" +:+ rest) with (String "]" rest). set (text := join_comma _ +:+ _) in *.
  assert (parse_value (S fuel) depth ("[" +:+ text) =
    if (max_depth <=? depth)%nat then None
    else match skip_spaces text with
         | String "]" s2 => Some (Arr [], s2)
         | s2 => match parse_elements fuel (S depth) s2 with
                 | Some (l, s3) => Some (Arr l, s3) | None => None end
         end) as -> by done.
  rewrite (depth_ok D) by done. rewrite Forall_cons in Hs. destruct Hs as [Hs _].
  destruct t as [|c t]; [done|]. destruct Hs as [Hsp Hc].
  assert (∃ u, skip_spaces text = String c u) as [u Hu].
  { subst text. destruct l; cbn [fmap list_fmap join_comma];
      rewrite <- !str_app_assoc, skip_blank by (by apply ok_pre); simpl; rewrite Hsp; by eexists. }
  rewrite Hu. change (String.length (String "]" EmptyString)) with 1%nat in Hf.
  specialize (Hp ltac:(lia)).
  assert (parse_elements fuel (S depth) (String c u) = Some (vs, rest)) as Hp'.
  { rewrite <- Hp. destruct fuel as [|fuel]; [lia|]. cbn [parse_elements].
    by rewrite (parse_value_skip _ _ _ text) by (by rewrite <- (skip_spaces_idem text), Hu). }
  clear - Hp' Hc. destruct c as [[] [] [] [] [] [] [] []]; first [by destruct Hc|by rewrite Hp'].
Qed.

(** ** Round trips *)

(** A float JSON can express. *)
Definition finite (f : float64) : Prop := float_wf f ∧ is_nan f = false ∧ is_inf f = false.

(** What the encoder keeps exactly. *)
Record sendable (m : Metrics) : Prop := mkSendable {
  send_id : utf8 (ID m);
  send_type : utf8 (MType m);
  send_delta : metric_wf m;
  send_value : ∀ f, Value m = Some f → finite f;
}.

(** What JSON can express of a snapshot. *)
Record sendable_snapshot (s : Snapshot) : Prop := mkSendableSnapshot {
  snap_gauges : ∀ k v, Gauges s !! k = Some v → utf8 k ∧ finite v;
  snap_counters : ∀ k d, Counters s !! k = Some d → utf8 k ∧ in_int64 d;
}.

(** [m] decoded over [old]: the pointers [m] does not have stay. *)
Definition overlay (old m : Metrics) : Metrics :=
  mkMetrics (match Delta m with Some d => Some d | None => Delta old end)
    (match Value m with Some v => Some v | None => Value old end) (ID m) (MType m).

Lemma utf8_ascii s : (∀ c, c ∈ String.list_ascii_of_string s → code c < 128) → utf8 s.
Proof.
  induction s as [|c s IH]; intros Hs; [constructor|].
  assert (0 ≤ code c < 128) as Hc by (split; [unfold code; lia|apply Hs; left]).
  apply (utf8_rune (String c EmptyString)); [|apply IH; intros; apply Hs; by right].
  rewrite str_cons_app, str_app_nil_l. unfold take_rune, between.
  destruct (Z.leb_spec 0 (code c)); [|lia]. by destruct (Z.leb_spec (code c) 127); [|lia].
Qed.

Lemma utf8_visible s : all_visible s = true → utf8 s.
Proof.
  intros Hs. apply utf8_ascii. induction s as [|c s IH]; intros d Hd; [by apply not_elem_of_nil in Hd|].
  simpl in Hs. apply andb_prop in Hs as [Hc Hs]. apply elem_of_cons in Hd as [->|Hd]; [|by apply IH].
  unfold visible in Hc. lia.
Qed.

Lemma utf8_literal s :
  forallb (λ c, code c <? 128) (String.list_ascii_of_string s) = true → utf8 s.
Proof.
  intros Hs. apply utf8_ascii. intros c Hc%list_elem_of_In. rewrite forallb_forall in Hs.
  specialize (Hs c Hc). lia.
Qed.

Lemma parse_number_nonempty lit : parse_number lit = Some (lit, EmptyString) → lit ≠ EmptyString.
Proof. by intros H ->. Qed.

Lemma wire_delta D d : in_int64 d → wire D (FormatInt d) (Number (FormatInt d)).
Proof.
  intros Hd. apply wire_number; [|intros; by apply parse_FormatInt].
  apply parse_number_nonempty. rewrite <- (str_app_nil_r (FormatInt d)) at 1.
  by apply parse_FormatInt.
Qed.

Lemma metric_members_wire D m : sendable m → ∃ ms vs,
  metric_members m = Some ms ∧
  Forall2 (λ kt kv, kt.1 = kv.1 ∧ utf8 kt.1 ∧ wire D kt.2 kv.2) ms vs ∧ ms ≠ [] ∧
  ∀ strict old, decode_members strict vs old = (overlay old m, None).
Proof.
  intros [Hid Ht Hd Hv]. unfold metric_members.
  set (tail_t := [("id", encode_string (ID m)); ("type", encode_string (MType m))]).
  set (tail_v := [("id", Str (ID m)); ("type", Str (MType m))]).
  assert (Forall2 (λ kt kv, kt.1 = kv.1 ∧ utf8 kt.1 ∧ wire D kt.2 kv.2) tail_t tail_v) as Htail.
  { repeat constructor; simpl; try done; first [by apply utf8_literal|by apply wire_string]. }
  assert (∃ lv vv, match Value m with Some f => lit ← encode_float f; Some [("value", lit)]
                     | None => Some [] end = Some lv ∧
    Forall2 (λ kt kv, kt.1 = kv.1 ∧ utf8 kt.1 ∧ wire D kt.2 kv.2) lv vv ∧
    ∀ strict old, decode_members strict (vv ++ tail_v) old =
      (overlay old (mkMetrics None (Value m) (ID m) (MType m)), None)) as (lv & vv & -> & Hlv & Hdec).
  { destruct (Value m) as [f|] eqn:Hf; [|by exists [], []].
    destruct (Hv f eq_refl) as (Hwf & Hnan & Hinf).
    destruct (encode_float_wire f Hwf Hnan Hinf) as (lit & Hlit & Hread & Hparse). rewrite Hlit.
    exists [("value", lit)], [("value", Number lit)]. split; [done|]. split.
    - repeat constructor; simpl; [by apply utf8_literal|]. apply wire_number; [|done].
      intros ->. specialize (Hparse EmptyString ltac:(done)). by vm_compute in Hparse.
    - intros strict old. simpl. by rewrite Hread. }
  simpl. destruct (Delta m) as [d|] eqn:Hdm.
  - eexists _, (("delta", Number (FormatInt d)) :: vv ++ tail_v). split; [done|]. split; [|split; [done|]].
    + unfold metric_wf in Hd. rewrite Hdm in Hd. constructor.
      * split; [done|]. split; [by apply utf8_literal|by apply wire_delta].
      * by apply Forall2_app.
    + intros strict old. cbn [decode_members decode_member decode_pointer].
      unfold metric_wf in Hd. rewrite Hdm in Hd.
      rewrite ParseInt_FormatInt by done. simpl. rewrite Hdec. unfold overlay. by rewrite Hdm.
  - exists (lv ++ tail_t), (vv ++ tail_v). split; [done|]. split; [by apply Forall2_app|]. split.
    + by destruct lv.
    + intros strict old. rewrite Hdec. unfold overlay. by rewrite Hdm.
Qed.

(** The text of a metric is one object, and decodes over any metric. *)
Lemma encode_metric_wire L D m : layout_ok L → sendable m → (D ≤ max_depth)%nat → ∃ t l,
  encode_metric_in L m = Some t ∧ wire D t (Obj l) ∧ starts_value t ∧
  ∀ strict old, decode_metric strict (Obj l) old = (overlay old m, None).
Proof.
  intros HL Hm HD. destruct (metric_members_wire (S D) m Hm) as (ms & vs & E & Hf & Hne & Hdec).
  exists (object_text L ms), vs. unfold encode_metric_in. rewrite E. split; [done|].
  split; [by apply wire_object|]. split; [|done]. by destruct ms.
Qed.

Lemma decode_wire_rest t v rest : wire 1 t v → ends_number rest → decode_first (t +:+ rest) = Some v.
Proof.
  intros Ht Hr. unfold decode_first. rewrite Ht; [done| |lia|done]. rewrite str_app_length. lia.
Qed.

Lemma decode_wire t v : wire 1 t v → decode_first t = Some v.
Proof. intros Ht. rewrite <- (str_app_nil_r t). by apply decode_wire_rest. Qed.

(** Decoded into nothing, the items are themselves. *)
Lemma overlay_fresh items :
  imap (λ i m, overlay (default zero_Metrics (([] : list Metrics) !! i)) m) items = items.
Proof.
  apply list_eq. intros i. rewrite list_lookup_imap. destruct (items !! i) as [m|]; [|done].
  by destruct m as [[] [] ? ?].
Qed.

Lemma encode_batch_wire La L items : layout_ok La → layout_ok L → Forall sendable items → ∃ t l,
  encode_batch_in La L items = Some t ∧ wire 1 t (Arr l) ∧ length l = length items ∧
  ∀ strict buf, decode_elements strict l buf =
    (imap (λ i m, overlay (default zero_Metrics (buf !! i)) m) items, None).
Proof.
  intros HLa HL Hall. assert (∃ ts l, mapM (encode_metric_in L) items = Some ts ∧ Forall2 (wire 2) ts l ∧
    Forall starts_value ts ∧ length l = length items ∧
    ∀ strict buf, decode_elements strict l buf =
      (imap (λ i m, overlay (default zero_Metrics (buf !! i)) m) items, None))
    as (ts & l & E & Hw & Hs & Hlen & Hdec).
  { induction Hall as [|m items Hm Hall IH]; [by exists [], []|].
    destruct IH as (ts & l & E & Hw & Hs & Hlen & Hdec).
    destruct (encode_metric_wire L 2 m HL Hm) as (t & o & Et & Hwt & Hst & Hdt).
    { unfold max_depth. lia. }
    exists (t :: ts), (Obj o :: l). cbn [mapM]. rewrite Et. simpl. rewrite E. simpl.
    split; [done|]. split; [by constructor|]. split; [by constructor|]. split; [by f_equal|].
    intros strict buf. cbn [decode_elements decode_metric] in *. rewrite Hdt, Hdec. cbn [first_error]. f_equal. f_equal.
    - by destruct buf.
    - apply imap_ext. intros i x _. by destruct buf. }
  exists (array_text La ts), l. unfold encode_batch_in. rewrite E. split; [done|].
  split; [|done]. apply wire_array; [done|done|done|unfold max_depth; lia].
Qed.

Lemma sendable_gauge id v : utf8 id → finite v → sendable (gauge_metric id v).
Proof.
  intros Hid Hv. split; [done|by apply utf8_literal|done|]. by intros f [= <-].
Qed.

Lemma sendable_counter id d : utf8 id → in_int64 d → sendable (counter_metric id d).
Proof. intros Hid Hd. split; [done|by apply utf8_literal|done|done]. Qed.

Lemma canonical_overlay old m : storable m = true → canonical (overlay old m) = canonical m.
Proof.
  destruct m as [d v id ty]. unfold storable, canonical, overlay. cbn [Delta Value ID MType].
  intros Hs. repeat case_decide; by destruct d, v.
Qed.

Lemma decode_one_encode strict m : sendable m → ∃ t,
  encode_metric m = Some t ∧ decode_one strict t = Ok m.
Proof.
  intros Hm. destruct (encode_metric_wire compact 1 m compact_ok Hm) as (t & l & Et & Hw & _ & Hdec);
    [unfold max_depth; lia|].
  exists t. split; [done|]. unfold decode_one. rewrite (decode_wire _ _ Hw), Hdec.
  by destruct m as [[] [] ? ?].
Qed.

Lemma batch_decodes grow buf items :
  Forall sendable items → Forall (λ m, storable m = true) items →
  ∃ t got buf', encode_batch items = Some t ∧
    decodeMetricsBatch grow buf (Ok t) = (Ok got, buf') ∧
    canonical <$> got = canonical <$> items ∧
    (Forall (.= zero_Metrics) buf → got = items).
Proof.
  intros Hall Hst. destruct (encode_batch_wire compact compact items compact_ok compact_ok Hall) as (t & l & Et & Hl & Hlen & Hdec).
  apply decode_wire in Hl.
  set (got := imap (λ i m, overlay (default zero_Metrics (buf !! i)) m) items).
  assert (canonical <$> got = canonical <$> items ∧ (Forall (.= zero_Metrics) buf → got = items))
    as Hgot.
  { split.
    - apply list_eq. intros i. unfold got. rewrite !list_lookup_fmap, list_lookup_imap.
      destruct (items !! i) as [m|] eqn:Hm; [|done]. simpl. f_equal. apply canonical_overlay.
      by eapply (Forall_lookup_1 _ _ _ _ Hst).
    - intros Hz. apply list_eq. intros i. unfold got. rewrite list_lookup_imap.
      destruct (items !! i) as [m|] eqn:Hm; [|done]. simpl. f_equal.
      assert (default zero_Metrics (buf !! i) = zero_Metrics) as ->.
      { destruct (buf !! i) as [o|] eqn:Ho; [|done]. by apply (Forall_lookup_1 _ _ _ _ Hz Ho). }
      by destruct m as [[] [] ? ?]. }
  exists t. unfold decodeMetricsBatch. rewrite Hl, Hdec. fold got. destruct l as [|v l].
  - destruct items; [|done]. by exists [], [].
  - eexists got, _. split; [done|]. split; [reflexivity|]. done.
Qed.

(** [C14] A batch the agent sends arrives: whatever the pooled buffer held, the
    metrics decoded from the text of a batch are the ones encoded, up to fields
    their types do not use; from a buffer that held nothing, they are equal. *)
Theorem batch_roundtrip grow buf items :
  Forall sendable items → Forall (λ m, storable m = true) items →
  ∃ t got buf', encode_batch items = Some t ∧
    decodeMetricsBatch grow buf (Ok t) = (Ok got, buf') ∧
    canonical <$> got = canonical <$> items ∧
    (Forall (.= zero_Metrics) buf → got = items).
Proof. apply batch_decodes. Qed.

Lemma batch_roundtrip_witness : ∃ t got buf',
  encode_batch [gauge_metric "x" f64_zero; counter_metric "y" 5] = Some t ∧
  decodeMetricsBatch 0 [counter_metric "old" 7] (Ok t) = (Ok got, buf') ∧
  canonical <$> got = canonical <$> [gauge_metric "x" f64_zero; counter_metric "y" 5] ∧
  (Forall (.= zero_Metrics) [counter_metric "old" 7] →
    got = [gauge_metric "x" f64_zero; counter_metric "y" 5]).
Proof.
  apply batch_roundtrip.
  - apply Forall_cons. split; [|apply Forall_singleton].
    + by apply sendable_gauge; [apply utf8_literal|vm_compute].
    + by apply sendable_counter; [apply utf8_literal|vm_compute].
  - by repeat constructor.
Defined.

(** The decoder leaves in place what a request's objects do not name: the
    body [[{}]], sent after a batch that the same pooled buffer decoded, is decoded
    as the first metric of that batch. *)
Theorem decode_stale grow old buf :
  decodeMetricsBatch grow (old :: buf) (Ok "[{}]") = (Ok [old], old :: buf).
Proof. reflexivity. Qed.

Lemma encode_float_None f : encode_float f = None ↔ is_nan f || is_inf f = true.
Proof. unfold encode_float. destruct (is_nan f || is_inf f); [done|]. repeat case_match; done. Qed.

(** A batch cannot be encoded exactly when one of its gauges is NaN or
    infinite: a single such value keeps every other metric from being sent. *)
Theorem encode_batch_fails items :
  encode_batch items = None ↔ ∃ m f, m ∈ items ∧ Value m = Some f ∧ is_nan f || is_inf f = true.
Proof.
  assert (∀ m, encode_metric m = None ↔ ∃ f, Value m = Some f ∧ is_nan f || is_inf f = true) as Hm.
  { intros m. unfold encode_metric, encode_metric_in, metric_members. destruct (Value m) as [f|]; [|naive_solver].
    destruct (encode_float f) as [lit|] eqn:Hf; simpl.
    - split; [done|]. intros (f' & [= <-] & H). apply encode_float_None in H. by rewrite Hf in H.
    - split; [|done]. intros _. exists f. split; [done|]. by apply encode_float_None. }
  unfold encode_batch, encode_batch_in. fold encode_metric. rewrite fmap_None. induction items as [|m items IH].
  - split; [done|]. intros (m & f & H & _). by apply elem_of_nil in H.
  - cbn [mapM]. destruct (encode_metric m) as [t|] eqn:Et; simpl.
    + assert (mapM encode_metric items = None ↔
        (k ← mapM encode_metric items; Some (t :: k)) = None) as Hk by (by destruct (mapM _ _)).
      rewrite <- Hk, IH. setoid_rewrite elem_of_cons. split; [naive_solver|].
      intros (m' & f & [->|?] & Hf); [|naive_solver]. exfalso.
      rewrite (proj2 (Hm m)) in Et; [done|by exists f].
    + split; [|done]. intros _. apply Hm in Et as (f & Hf). exists m, f. split; [left|done].
Qed.
End MetricsJson.
