(* ===== verification/Http.v ===== *)
(** * HTTP messages, as the middlewares and the client see them

    Headers are maps from canonical names.  A handler is what it does to the
    response writer: a list of calls, in order.  [gzip] is a parameter with the
    documented property that decompressing gives back what was compressed, and so
    is the way gin writes a body with its status. *)

From S2P Require Import Prelude GoStrings GoInt GoErrors.
Open Scope Z_scope.

Record Request : Type := mkRequest {
  method : string;
  path : string;
  headers : gmap string string;
  body : result error string;        (* what reading it to the end gives *)
  remote_ip : string;                (* [c.ClientIP()] *)
}.

Definition GetHeader (req : Request) (k : string) : string := default EmptyString (headers req !! k).

Definition set_body (req : Request) (b : result error string) : Request :=
  mkRequest (method req) (path req) (headers req) b (remote_ip req).
Definition del_header (req : Request) (k : string) : Request :=
  mkRequest (method req) (path req) (delete k (headers req)) (body req) (remote_ip req).

(** ** The response writer *)

Inductive wcall : Type :=
  | SetHeader (k v : string)
  | DelHeader (k : string)
  | WriteHeader (code : Z)
  | Write (p : string).

(** Status and headers are sent by the first [Write], or when the handler
    returns; later changes to them have no effect. *)
Record Writer : Type := mkWriter {
  w_status : Z;
  w_header : gmap string string;
  w_sent : bool;
  w_body : string;
}.

Definition new_writer : Writer := mkWriter 200 ∅ false EmptyString.

Definition run_wcall (w : Writer) (c : wcall) : Writer :=
  match c with
  | SetHeader k v =>
      if w_sent w then w else mkWriter (w_status w) (<[k := v]> (w_header w)) false (w_body w)
  | DelHeader k =>
      if w_sent w then w else mkWriter (w_status w) (delete k (w_header w)) false (w_body w)
  | WriteHeader code =>
      if w_sent w then w else mkWriter code (w_header w) false (w_body w)
  | Write p => mkWriter (w_status w) (w_header w) true (w_body w +:+ p)
  end.

Definition respond (calls : list wcall) : Writer := fold_left run_wcall calls new_writer.

(** A handler with its effect on the world. *)
Definition handler (W : Type) : Type := Request → W → list wcall * W.

(** ** Parameters *)

(** [gunzip] is [gzip.NewReader] on a body, with what reading it then gives. *)
Class Gzip := {
  gzip : string → string;
  gunzip : result error string → option (result error string);
  gunzip_gzip s : gunzip (Ok (gzip s)) = Some (Ok s);
}.

(** The page of gin for a request without a route: the status is on the writer before
    the middlewares run; if they have sent nothing and left the status alone, the page
    is written after them.  (The writer is then the last one a middleware put in place,
    which passes plain text on unchanged.) *)
Definition default_page (code : Z) (msg : string) (calls : list wcall) : list wcall :=
  let calls := WriteHeader code :: calls in
  if w_sent (respond calls) || negb (bool_decide (w_status (respond calls) = code)) then calls
  else calls ++ [SetHeader "Content-Type" "text/plain"; Write msg].

(** What gin does to the writer for [c.String], [c.Data] and [c.JSON]: the
    status, the content type, the bytes, in this order.  When a value cannot be
    marshalled the error is kept in the context and no byte is written.  [serveError]
    is what it does around the middlewares when no route was found. *)
Class Gin := {
  render : Z → string → string → list wcall;
  render_spec status content_type body : render status content_type body =
    [WriteHeader status; SetHeader "Content-Type" content_type; Write body];
  render_failed : Z → list wcall;
  render_failed_spec status :
    w_status (respond (render_failed status)) = status ∧
    w_body (respond (render_failed status)) = EmptyString;
  serveError : Z → string → list wcall → list wcall;
  serveError_spec code msg calls : serveError code msg calls = default_page code msg calls;
}.

Definition text `{Gin} (status : Z) (s : string) : list wcall :=
  render status "text/plain; charset=utf-8" s.
Definition json `{Gin} (status : Z) (s : string) : list wcall :=
  render status "application/json; charset=utf-8" s.

(** What the client of [render] sees. *)
Lemma respond_render `{Gin} status content_type body :
  respond (render status content_type body) =
    mkWriter status {["Content-Type" := content_type]} true body.
Proof. by rewrite render_spec. Qed.

(** Concrete parameters: gin as documented, and a compressor that only marks
    its output. *)
#[refine] Definition plain_gin : Gin := {|
  render status content_type body :=
    [WriteHeader status; SetHeader "Content-Type" content_type; Write body];
  render_failed status := [WriteHeader status];
  serveError := default_page;
|}.
Proof. all: done. Defined.

#[refine] Definition stored_gzip : Gzip := {|
  gzip s := "gz" +:+ s;
  gunzip b := match b with
              | Ok s => match cut_prefix "gz" s with Some p => Some (Ok p) | None => None end
              | Err _ => None
              end;
|}.
Proof. intros s. by rewrite (proj2 (cut_prefix_Some "gz" ("gz" +:+ s) s) eq_refl). Defined.

(** ** Lemmas *)

Lemma run_wcalls_app c1 c2 w :
  fold_left run_wcall (c1 ++ c2) w = fold_left run_wcall c2 (fold_left run_wcall c1 w).
Proof. apply fold_left_app. Qed.

(** What was written stays a prefix of the body. *)
Definition written (calls : list wcall) : string :=
  foldr (λ c acc, match c with Write p => p +:+ acc | _ => acc end) EmptyString calls.

Lemma run_wcalls_body calls w :
  w_body (fold_left run_wcall calls w) = w_body w +:+ written calls.
Proof.
  revert w. induction calls as [|c calls IH]; intros w; simpl; [by rewrite str_app_nil_r|].
  rewrite IH. destruct c; simpl; try by destruct (w_sent w). by rewrite str_app_assoc.
Qed.

(** Once sent, only the body changes. *)
Lemma run_wcalls_sent calls w :
  w_sent w = true →
  let w' := fold_left run_wcall calls w in
  w_sent w' = true ∧ w_status w' = w_status w ∧ w_header w' = w_header w.
Proof.
  revert w. induction calls as [|c calls IH]; intros w Hw; simpl; [done|].
  destruct (IH (run_wcall w c)) as (-> & -> & ->); [destruct c; simpl; by rewrite ?Hw|].
  destruct c; simpl; by rewrite ?Hw.
Qed.

Definition writes (c : wcall) : bool := match c with Write _ => true | _ => false end.

Lemma run_wcalls_unsent calls w :
  w_sent w = false → Forall (λ c, writes c = false) calls →
  w_sent (fold_left run_wcall calls w) = false.
Proof.
  intros Hw Hc. revert w Hw. induction Hc as [|c calls Hc _ IH]; intros w Hw; [done|]. simpl.
  apply IH. destruct c; simpl; by rewrite ?Hw.
Qed.
