(* ===== verification/Middlewares.v ===== *)
(** * internal/adapters/http/ginserver/middlewares: integrity and compression

    [HashSHA256] (hashsha256.go), [GzipRequest] and [GzipResponse]
    (gin_gzip.go) as functions from handlers to handlers: [c.Next()] is the call of
    the next handler, and the writer a middleware puts in place of [c.Writer] is a
    transformation of the calls the next handler makes. *)

From S2P Require Import Prelude GoStrings GoInt GoErrors Sha256 Http.
Open Scope Z_scope.

Module Middlewares.
Import Sha256.

(** ** [bodyBufferWriter] *)

Record bodyBufferWriter : Type := mkBuffer { b_status : Z; b_body : string }.

(** The status and the body are kept back; headers go to the writer below. *)
Definition buffer_call (st : list wcall * bodyBufferWriter) (c : wcall) : list wcall * bodyBufferWriter :=
  let '(below, bw) := st in
  match c with
  | Write p => (below, mkBuffer (if bool_decide (b_status bw = 0) then 200 else b_status bw)
                         (b_body bw +:+ p))
  | WriteHeader code => (below, mkBuffer code (b_body bw))
  | SetHeader _ _ | DelHeader _ => (below ++ [c], bw)
  end.

Definition run_buffer (calls : list wcall) : list wcall * bodyBufferWriter :=
  fold_left buffer_call calls ([], mkBuffer 0 EmptyString).

(** The tail of the middleware: sign what was written, then write it. *)
Definition flush_buffer (key : string) (calls : list wcall) : list wcall :=
  let '(below, bw) := run_buffer calls in
  let sign := if bool_decide (b_body bw = EmptyString) then []
              else [SetHeader "Hashsha256" (SumSHA256 (b_body bw) key)] in
  let status := if bool_decide (b_status bw = 0) then 200 else b_status bw in
  below ++ sign ++ [WriteHeader status; Write (b_body bw)].

(** The body of [AbortWithStatusJSON] with the field [error]. *)
Definition quoted (s : string) : string := String (byte 34) (s +:+ String (byte 34) EmptyString).
Definition json_error (msg : string) : string := "{" +:+ quoted "error" +:+ ":" +:+ quoted msg +:+ "}".

Section middlewares.
Context {W : Type} `{Gin}.
Implicit Types next : handler W.

(** The check of the request: the calls of [AbortWithStatusJSON], or the request
    with its body read. *)
Definition check_hash (key : string) (req : Request) : list wcall + Request :=
  let got := TrimSpace (GetHeader req "Hashsha256") in
  if bool_decide (got = EmptyString) then inr req
  else match body req with
       | Err _ => inl (json 400 (json_error "read body failed"))
       | Ok reqBody =>
           if negb (bool_decide (reqBody = EmptyString)) &&
              negb (EqualFold got (SumSHA256 reqBody key))
           then inl (json 400 (json_error "invalid hash"))
           else inr (set_body req (Ok reqBody))
       end.

Definition HashSHA256 (key : string) (next : handler W) : handler W := λ req w,
  let key := TrimSpace key in
  if bool_decide (key = EmptyString) then next req w
  else match check_hash key req with
       | inl abort => (flush_buffer key abort, w)
       | inr req => let '(calls, w) := next req w in (flush_buffer key calls, w)
       end.

Context `{Gzip}.

(** Reading through the decompressor fails when the body is not gzip data. *)
Definition GzipRequest (next : handler W) : handler W := λ req w,
  let enc := ToLower (GetHeader req "Content-Encoding") in
  if Contains enc "gzip" then
    match gunzip (body req) with
    | None => ([WriteHeader 400], w)
    | Some plain => next (del_header (set_body req plain) "Content-Length") w
    end
  else next req w.

(** [Close] of the body [GzipRequest] puts in place: the decompressor is closed first,
    the body below it ([None]: nil) only if that succeeded.  The program never calls
    it: net/http closes the body it made itself. *)
Definition gzipReadCloser_Close (gz : io W error unit) (raw : option (io W error unit)) :
    io W error unit := λ w,
  match gz w with
  | (Err err, w) => (Err err, w)
  | (Ok _, w) => match raw with
                 | Some close => close w
                 | None => (Ok tt, w)
                 end
  end.

(** [gzipResponseWriter]: [g_below] is the writer below it, [g_pending] what the
    compressor holds. *)
Record gzipResponseWriter : Type := mkGzw {
  g_below : list wcall;
  g_decided : bool;
  g_compress : bool;
  g_pending : string;
}.

Definition compressible (content_type : string) (status : Z) : bool :=
  (HasPrefix content_type "application/json" || HasPrefix content_type "text/html") &&
  negb (bool_decide (status = 204) || bool_decide (status < 200)).

(** [decide] looks at the headers and the status of the writer below. *)
Definition decide_gzip (g : gzipResponseWriter) : gzipResponseWriter :=
  if g_decided g then g
  else
    let below := respond (g_below g) in
    let ct := default EmptyString (w_header below !! "Content-Type") in
    if compressible ct (w_status below)
    then mkGzw (g_below g ++ [DelHeader "Content-Length"; SetHeader "Content-Encoding" "gzip"])
           true true EmptyString
    else mkGzw (g_below g) true false EmptyString.

Definition gzip_call (g : gzipResponseWriter) (c : wcall) : gzipResponseWriter :=
  match c with
  | Write p =>
      let g := decide_gzip g in
      if g_compress g then mkGzw (g_below g ++ [Write EmptyString]) true true (g_pending g +:+ p)
      else mkGzw (g_below g ++ [Write p]) (g_decided g) false (g_pending g)
  | _ => mkGzw (g_below g ++ [c]) (g_decided g) (g_compress g) (g_pending g)
  end.

(** The compressor sends its header with the first [Write] and the rest by
    [Close]: in the model, nothing with each [Write] and all of it at the end. *)
Definition close_gzip (g : gzipResponseWriter) : list wcall :=
  if g_compress g then g_below g ++ [Write (gzip (g_pending g))] else g_below g.

Definition GzipResponse (next : handler W) : handler W := λ req w,
  if Contains (ToLower (GetHeader req "Accept-Encoding")) "gzip" then
    let '(calls, w) := next req w in
    (close_gzip (fold_left gzip_call calls (mkGzw [] false false EmptyString)), w)
  else next req w.

(** The stack [run] of cmd/server installs, innermost last. *)
Definition server_stack (key : string) (next : handler W) : handler W :=
  GzipRequest (GzipResponse (HashSHA256 key next)).
End middlewares.

(** ** Lemmas: the buffered writer *)

Lemma run_buffer_fold calls below bw :
  let '(below', bw') := fold_left buffer_call calls (below, bw) in
  b_body bw' = b_body bw +:+ written calls ∧
  ∃ hs, below' = below ++ hs ∧ Forall (λ c, writes c = false) hs ∧
    (∀ k, (∀ v, SetHeader k v ∉ calls) → ∀ v, SetHeader k v ∉ hs).
Proof.
  revert below bw. induction calls as [|c calls IH]; intros below bw; cbn [fold_left].
  - split; [by rewrite str_app_nil_r|]. exists []. rewrite app_nil_r. split; [done|].
    split; [done|]. intros k _ v. apply not_elem_of_nil.
  - destruct (buffer_call (below, bw) c) as [below1 bw1] eqn:Hc.
    specialize (IH below1 bw1). destruct (fold_left buffer_call calls (below1, bw1)) as [below' bw'].
    cbv beta iota. destruct IH as (Hb & hs & -> & Hw & Hk). destruct c as [k v|k|code|p]; simpl in Hc;
      injection Hc as <- <-; simpl in Hb; rewrite Hb; simpl.
    + split; [done|]. exists (SetHeader k v :: hs). rewrite <- app_assoc. split; [done|].
      split; [by constructor|]. intros k' Hno v'. apply not_elem_of_cons.
      split; [|apply Hk; set_solver]. intros E. injection E as -> ->. apply (Hno v). left.
    + split; [done|]. exists (DelHeader k :: hs). rewrite <- app_assoc. split; [done|].
      split; [by constructor|]. intros k' Hno v'. apply not_elem_of_cons.
      split; [done|apply Hk; set_solver].
    + split; [done|]. exists hs. split; [done|]. split; [done|]. intros. apply Hk. set_solver.
    + split; [by rewrite str_app_assoc|]. exists hs. split; [done|]. split; [done|].
      intros. apply Hk. set_solver.
Qed.

(** The status the buffer ends with. *)
Definition buffered_status (calls : list wcall) : Z :=
  let st := b_status (run_buffer calls).2 in if bool_decide (st = 0) then 200 else st.

Lemma flush_buffer_respond key calls :
  let r := respond (flush_buffer key calls) in
  w_body r = written calls ∧ w_status r = buffered_status calls ∧
  (written calls ≠ EmptyString →
    w_header r !! "Hashsha256" = Some (SumSHA256 (written calls) key)).
Proof.
  unfold flush_buffer, buffered_status. pose proof (run_buffer_fold calls [] (mkBuffer 0 EmptyString)) as Hf.
  unfold run_buffer. destruct (fold_left buffer_call calls _) as [below bw].
  destruct Hf as (Hb & hs & -> & Hw & _). simpl in Hb. cbn [app snd]. rewrite Hb. cbv zeta.
  unfold respond. rewrite !run_wcalls_app.
  pose proof (run_wcalls_unsent hs new_writer eq_refl Hw) as Hs.
  pose proof (run_wcalls_body hs new_writer) as Hbody.
  assert (written hs = EmptyString) as Hh.
  { clear -Hw. induction Hw as [|c hs Hc _ IH]; [done|]. by destruct c. }
  rewrite Hh in Hbody. simpl in Hbody.
  destruct (fold_left run_wcall hs new_writer) as [st hd sent bd]. simpl in Hs, Hbody. subst sent bd.
  change (EmptyString +:+ written calls) with (written calls).
  destruct (bool_decide_reflect (written calls = EmptyString)) as [Hne|Hne]; simpl;
    (split; [done|split; [done|]]); intros Hn; [done|]. by rewrite lookup_insert_eq.
Qed.

(** ** Integrity *)

Section integrity.
Context {W : Type} `{Gin}.
Implicit Types next : handler W.

(** [C12] With a key, a request with a digest and a body that does not match it never
    reaches the handler, and is answered with 400; every other request reaches it
    with its body unchanged.  That is one with a matching digest, but also one without
    a digest, and one without a body whatever its digest: a value in the path of the
    request is not protected. *)
Theorem HashSHA256_guard key next req w b :
  TrimSpace key ≠ EmptyString → body req = Ok b →
  let got := TrimSpace (GetHeader req "Hashsha256") in
  let matches := EqualFold got (SumSHA256 b (TrimSpace key)) in
  (got ≠ EmptyString → b ≠ EmptyString → matches = false →
    ∃ calls, HashSHA256 key next req w = (calls, w) ∧ w_status (respond calls) = 400) ∧
  (got = EmptyString ∨ b = EmptyString ∨ matches = true →
    ∃ calls w', next req w = (calls, w') ∧
      HashSHA256 key next req w = (flush_buffer (TrimSpace key) calls, w')).
Proof.
  intros Hkey Hb. cbv zeta. unfold HashSHA256. rewrite bool_decide_false by done.
  unfold check_hash. rewrite Hb. split.
  - intros Hgot Hne Hm. rewrite bool_decide_false by done. rewrite bool_decide_false by done.
    rewrite Hm. simpl. eexists. split; [done|].
    destruct (flush_buffer_respond (TrimSpace key) (json 400 (json_error "invalid hash"))) as (_ & -> & _).
    unfold json, buffered_status. by rewrite render_spec.
  - intros Hor. assert (set_body req (Ok b) = req) as Hreq by (destruct req; simpl in *; by subst).
    destruct (next req w) as [calls w'] eqn:Hn. exists calls, w'. split; [done|].
    case_bool_decide as Hgot; [by rewrite Hn|].
    assert (negb (bool_decide (b = EmptyString)) &&
      negb (EqualFold (TrimSpace (GetHeader req "Hashsha256")) (SumSHA256 b (TrimSpace key))) = false) as ->.
    { destruct Hor as [?|[->| ->]]; [done|done|by rewrite andb_false_r]. }
    by rewrite Hreq, Hn.
Qed.

(** With a key, a response with a body carries the digest of that body,
    and the body and status the handler gave: the status is the last one set, even
    after the body was begun, and 200 if there was none. *)
Theorem HashSHA256_signs key next req w calls w' :
  TrimSpace key ≠ EmptyString → TrimSpace (GetHeader req "Hashsha256") = EmptyString →
  next req w = (calls, w') →
  let r := respond (HashSHA256 key next req w).1 in
  w_body r = written calls ∧ w_status r = buffered_status calls ∧
  (written calls ≠ EmptyString →
    w_header r !! "Hashsha256" = Some (SumSHA256 (written calls) (TrimSpace key))).
Proof.
  intros Hkey Hgot Hn. unfold HashSHA256, check_hash. rewrite bool_decide_false by done.
  rewrite Hgot. simpl. rewrite Hn. apply flush_buffer_respond.
Qed.

(** A handler that writes nothing is answered with 200 and no body: with a
    key, the writer's own status is lost (as for a request that matches no route,
    where the router has set 404 and nobody writes). *)
Theorem HashSHA256_silent key next req w w' :
  TrimSpace key ≠ EmptyString → TrimSpace (GetHeader req "Hashsha256") = EmptyString →
  next req w = ([], w') →
  (HashSHA256 key next req w).1 = [WriteHeader 200; Write EmptyString].
Proof.
  intros Hkey Hgot Hn. unfold HashSHA256, check_hash. rewrite bool_decide_false by done.
  rewrite Hgot. simpl. by rewrite Hn.
Qed.
End integrity.

(** ** Compression *)

Section compression.
Context {W : Type} `{Gzip}.
Implicit Types next : handler W.

(** The compressing writer [g] against the plain one [w] fed the same calls. *)
Definition gzip_sim (g : gzipResponseWriter) (w : Writer) : Prop :=
  let v := respond (g_below g) in
  if g_compress g then
    g_decided g = true ∧ w_sent v = true ∧ w_sent w = true ∧ w_status v = w_status w ∧
    w_header v = <["Content-Encoding" := "gzip"]> (delete "Content-Length" (w_header w)) ∧
    w_body v = EmptyString ∧ g_pending g = w_body w ∧
    compressible (default EmptyString (w_header w !! "Content-Type")) (w_status w) = true
  else v = w ∧ g_pending g = EmptyString ∧
    (g_decided g = false → w_sent w = false ∧ w_body w = EmptyString).

Lemma respond_snoc calls c : respond (calls ++ [c]) = run_wcall (respond calls) c.
Proof. unfold respond. by rewrite run_wcalls_app. Qed.

Lemma gzip_sim_other g w c : writes c = false → gzip_sim g w → gzip_sim (gzip_call g c) (run_wcall w c).
Proof.
  intros Hc Hs. destruct g as [below dec comp pend].
  assert (gzip_call (mkGzw below dec comp pend) c = mkGzw (below ++ [c]) dec comp pend) as ->
    by by destruct c.
  unfold gzip_sim in *. cbn [g_compress g_below g_decided g_pending] in *. rewrite respond_snoc.
  destruct comp.
  - destruct Hs as (? & Hv & Hw & ? & ? & ? & ? & ?).
    assert (run_wcall (respond below) c = respond below ∧ run_wcall w c = w) as [-> ->]; [|done].
    destruct c; simpl in *; by rewrite ?Hv, ?Hw.
  - destruct Hs as (-> & ? & Hd). split; [done|]. split; [done|]. intros Hdec.
    destruct (Hd Hdec) as [Hw Hb]. by destruct c; simpl in *; rewrite ?Hw.
Qed.

Lemma gzip_sim_write g w p : gzip_sim g w → gzip_sim (gzip_call g (Write p)) (run_wcall w (Write p)).
Proof.
  destruct g as [below dec comp pend]. unfold gzip_sim, gzip_call, decide_gzip.
  cbn [g_compress g_below g_decided g_pending]. destruct comp.
  - intros (-> & Hv & Hw & Hst & Hh & Hb & -> & Hct). cbn [g_compress g_below g_decided g_pending].
    rewrite respond_snoc. simpl. rewrite Hb. done.
  - intros (Hv & -> & Hd). destruct dec; cbn [g_compress g_below g_decided g_pending].
    + rewrite respond_snoc, Hv. done.
    + destruct (Hd eq_refl) as [Hw Hb]. rewrite Hv.
      destruct (compressible _ _) eqn:Hct; cbn [g_compress g_below g_decided g_pending].
      * rewrite respond_snoc. unfold respond. rewrite run_wcalls_app. fold (respond below).
        rewrite Hv. simpl. rewrite !Hw. simpl. rewrite Hb. done.
      * rewrite respond_snoc, Hv. done.
Qed.

Lemma gzip_sim_calls calls g w :
  gzip_sim g w → gzip_sim (fold_left gzip_call calls g) (fold_left run_wcall calls w).
Proof.
  revert g w. induction calls as [|c calls IH]; intros g w Hs; [done|]. simpl. apply IH.
  destruct (writes c) eqn:Hc; [|by apply gzip_sim_other].
  destruct c; try done. by apply gzip_sim_write.
Qed.

Lemma GzipResponse_sim next req w calls w' :
  next req w = (calls, w') →
  let r := respond calls in
  let r' := respond (GzipResponse next req w).1 in
  (GzipResponse next req w).2 = w' ∧
  (r' = r ∨
   Contains (ToLower (GetHeader req "Accept-Encoding")) "gzip" = true ∧
   compressible (default EmptyString (w_header r !! "Content-Type")) (w_status r) = true ∧
   w_status r' = w_status r ∧
   w_header r' = <["Content-Encoding" := "gzip"]> (delete "Content-Length" (w_header r)) ∧
   gunzip (Ok (w_body r')) = Some (Ok (w_body r))).
Proof.
  intros Hn. unfold GzipResponse. destruct (Contains _ _) eqn:Ha; rewrite Hn; [|by auto].
  split; [done|]. cbn [fst].
  pose proof (gzip_sim_calls calls (mkGzw [] false false EmptyString) new_writer) as Hs.
  specialize (Hs ltac:(by split; [|split])). fold (respond calls) in Hs.
  destruct (fold_left gzip_call calls _) as [below dec comp pend].
  unfold gzip_sim, close_gzip in *. cbn [g_compress g_below g_decided g_pending] in *.
  destruct comp; [|left; by destruct Hs as (-> & _)].
  destruct Hs as (_ & Hv & _ & Hst & Hh & Hb & -> & Hct). right.
  rewrite respond_snoc. simpl. rewrite Hb, Hst, Hh.
  change (EmptyString +:+ gzip (w_body (respond calls))) with (gzip (w_body (respond calls))).
  rewrite gunzip_gzip. auto.
Qed.

(** [C33] [GzipResponse] is transparent: the response is the handler's own, or,
    for a client that accepts gzip and a JSON or HTML response, the same status
    and headers with [Content-Encoding: gzip] for [Content-Length], and a body
    that decompresses to the handler's. *)
Theorem GzipResponse_transparent next req w calls w' :
  next req w = (calls, w') →
  let r := respond calls in
  let r' := respond (GzipResponse next req w).1 in
  (GzipResponse next req w).2 = w' ∧
  (r' = r ∨
   Contains (ToLower (GetHeader req "Accept-Encoding")) "gzip" = true ∧
   compressible (default EmptyString (w_header r !! "Content-Type")) (w_status r) = true ∧
   w_status r' = w_status r ∧
   w_header r' = <["Content-Encoding" := "gzip"]> (delete "Content-Length" (w_header r)) ∧
   gunzip (Ok (w_body r')) = Some (Ok (w_body r))).
Proof. apply GzipResponse_sim. Qed.
End compression.

(** ** Examples *)
#[local] Existing Instance plain_gin.
#[local] Existing Instance stored_gzip.

Definition demo_next : handler nat := λ req w, (json 200 "{}", S w).
Definition demo_signed (digest : string) : Request :=
  mkRequest "POST" "/updates" {["Hashsha256" := digest; "Accept-Encoding" := "gzip"]} (Ok "[]") EmptyString.

Lemma HashSHA256_guard_witness :
  (∃ calls, HashSHA256 "k" demo_next (demo_signed "00") 0%nat = (calls, 0%nat) ∧
    w_status (respond calls) = 400) ∧
  (∃ calls, HashSHA256 "k" demo_next (demo_signed (SumSHA256 "[]" "k")) 0%nat = (calls, 1%nat)).
Proof.
  split.
  - apply (HashSHA256_guard "k" demo_next (demo_signed "00") 0%nat "[]"); vm_compute; done.
  - destruct (HashSHA256_guard "k" demo_next (demo_signed (SumSHA256 "[]" "k")) 0%nat "[]")
      as [_ H]; [vm_compute; done|reflexivity|].
    destruct H as (calls & w' & Hn & H); [right; right; vm_compute; reflexivity|].
    unfold demo_next in Hn. injection Hn as <- <-. eexists. exact H.
Defined.

Lemma HashSHA256_signs_witness :
  w_header (respond (HashSHA256 "k" demo_next (demo_signed EmptyString) 0%nat).1) !! "Hashsha256" =
    Some (SumSHA256 (written (json 200 "{}")) (TrimSpace "k")) ∧ written (json 200 "{}") = "{}".
Proof.
  split; [|vm_compute; reflexivity].
  destruct (HashSHA256_signs "k" demo_next (demo_signed EmptyString) 0%nat (json 200 "{}") 1%nat)
    as (_ & _ & H); [by vm_compute|by vm_compute|reflexivity|].
  apply H. by vm_compute.
Defined.

Lemma HashSHA256_silent_witness :
  (HashSHA256 "k" (λ _ w, ([], w)) (demo_signed EmptyString) 0%nat).1 =
    [WriteHeader 200; Write EmptyString].
Proof. apply (HashSHA256_silent "k" _ _ _ 0%nat); vm_compute; done. Defined.

Lemma GzipResponse_transparent_witness :
  (GzipResponse demo_next (demo_signed EmptyString) 0%nat).2 = 1%nat ∧
  w_body (respond (GzipResponse demo_next (demo_signed EmptyString) 0%nat).1) = gzip "{}".
Proof.
  split; [|vm_compute; reflexivity].
  exact (proj1 (GzipResponse_transparent demo_next (demo_signed EmptyString) 0%nat
    (json 200 "{}") 1%nat eq_refl)).
Defined.

End Middlewares.
