(* ===== verification/Collector.v ===== *)
(** * internal/adapters/collector/runtime: sampling metrics

    [stats] holds the two maps; every method takes the mutex for one access, so
    each is one atomic function.  What the Go runtime, the random source and the
    package gopsutil report is an argument.  The two goroutines of [Start] and the
    callers of [Stop] and [Snapshot] are the step relation [step]. *)

From S2P Require Import Prelude GoStrings GoInt GoErrors Domain GoFloat Ports.
Open Scope Z_scope.

Module Collector.

(** ** [state.go] *)

Record stats : Type := mkStats {
  gauges : gmap string float64;
  counters : gmap string Z;
}.

Definition newStats : stats := mkStats ∅ ∅.

Definition SetGauge (name : string) (v : float64) (s : stats) : stats :=
  mkStats (<[name := v]> (gauges s)) (counters s).

Definition AddCounter (name : string) (d : Z) (s : stats) : stats :=
  mkStats (gauges s) (<[name := add64 (default 0 (counters s !! name)) d]> (counters s)).

Definition Snapshot (s : stats) : gmap string float64 * gmap string Z := (gauges s, counters s).

(** ** [keys.go] *)

Definition MRandomValue : string := "RandomValue".
Definition MPollCount : string := "PollCount".
Definition TotalMemory : string := "TotalMemory".
Definition FreeMemory : string := "FreeMemory".
Definition CPUutilization : string := "CPUutilization".

(** ** What is sampled *)

(** The fields of [runtime.MemStats] that are read. *)
Record MemStats : Type := mkMemStats {
  Alloc : Z; BuckHashSys : Z; Frees : Z; GCCPUFraction : float64; GCSys : Z; HeapAlloc : Z;
  HeapIdle : Z; HeapInuse : Z; HeapObjects : Z; HeapReleased : Z; HeapSys : Z; LastGC : Z;
  Lookups : Z; MCacheInuse : Z; MCacheSys : Z; MSpanInuse : Z; MSpanSys : Z; Mallocs : Z;
  NextGC : Z; NumForcedGC : Z; NumGC : Z; OtherSys : Z; PauseTotalNs : Z; StackInuse : Z;
  StackSys : Z; Sys : Z; TotalAlloc : Z;
}.

(** The calls of [SetGauge] at a tick, in order. *)
Definition runtime_gauges (ms : MemStats) (rnd : float64) : list (string * float64) :=
  [("Alloc", of_uint (Alloc ms)); ("BuckHashSys", of_uint (BuckHashSys ms));
   ("Frees", of_uint (Frees ms)); ("GCCPUFraction", GCCPUFraction ms);
   ("GCSys", of_uint (GCSys ms)); ("HeapAlloc", of_uint (HeapAlloc ms));
   ("HeapIdle", of_uint (HeapIdle ms)); ("HeapInuse", of_uint (HeapInuse ms));
   ("HeapObjects", of_uint (HeapObjects ms)); ("HeapReleased", of_uint (HeapReleased ms));
   ("HeapSys", of_uint (HeapSys ms)); ("LastGC", of_uint (LastGC ms));
   ("Lookups", of_uint (Lookups ms)); ("MCacheInuse", of_uint (MCacheInuse ms));
   ("MCacheSys", of_uint (MCacheSys ms)); ("MSpanInuse", of_uint (MSpanInuse ms));
   ("MSpanSys", of_uint (MSpanSys ms)); ("Mallocs", of_uint (Mallocs ms));
   ("NextGC", of_uint (NextGC ms)); ("NumForcedGC", of_uint (NumForcedGC ms));
   ("NumGC", of_uint (NumGC ms)); ("OtherSys", of_uint (OtherSys ms));
   ("PauseTotalNs", of_uint (PauseTotalNs ms)); ("StackInuse", of_uint (StackInuse ms));
   ("StackSys", of_uint (StackSys ms)); ("Sys", of_uint (Sys ms));
   ("TotalAlloc", of_uint (TotalAlloc ms)); (MRandomValue, rnd)].

Definition cpu_name (i : nat) : string := CPUutilization +:+ FormatInt (Z.of_nat i + 1).

(** The calls at a tick of the second goroutine: total and free memory, and the
    load of each processor, when they could be read. *)
Definition system_gauges (vm : option (Z * Z)) (pct : option (list float64)) :
    list (string * float64) :=
  match vm with
  | Some (total, free) => [(TotalMemory, of_uint total); (FreeMemory, of_uint free)]
  | None => []
  end ++
  match pct with
  | Some l => imap (λ i p, (cpu_name i, p)) l
  | None => []
  end.

(** ** The goroutines *)

(** One access under the mutex. *)
Inductive access : Type :=
  | DoSet (name : string) (v : float64)
  | DoAdd (name : string) (d : Z).

Definition run_access (a : access) (s : stats) : stats :=
  match a with DoSet n v => SetGauge n v s | DoAdd n d => AddCounter n d s end.

Definition runtime_tick (ms : MemStats) (rnd : float64) : list access :=
  map (λ kv, DoSet kv.1 kv.2) (runtime_gauges ms rnd) ++ [DoAdd MPollCount 1].

Definition system_tick (vm : option (Z * Z)) (pct : option (list float64)) : list access :=
  map (λ kv, DoSet kv.1 kv.2) (system_gauges vm pct).

(** A goroutine of [Start]: in its [select], or in the middle of a tick with
    these accesses left, or returned. *)
Inductive goroutine : Type :=
  | Selecting
  | Ticking (todo : list access)
  | Returned.

Record Collector : Type := mkCollector {
  st : stats;
  stop_closed : bool;
  ctx_done : bool;
  runtime_loop : goroutine;
  system_loop : goroutine;
}.

(** [New] followed by [Start]. *)
Definition Start : Collector := mkCollector newStats false false Selecting Selecting.

(** A goroutine may leave its [select] by any branch that is ready. *)
Inductive loop_step (may_stop : bool) (ticks : list access → Prop) :
    goroutine → stats → goroutine → stats → Prop :=
  | loop_return s : may_stop = true → loop_step may_stop ticks Selecting s Returned s
  | loop_tick s todo : ticks todo → loop_step may_stop ticks Selecting s (Ticking todo) s
  | loop_access s a todo :
      loop_step may_stop ticks (Ticking (a :: todo)) s (Ticking todo) (run_access a s)
  | loop_again s : loop_step may_stop ticks (Ticking []) s Selecting s.

Definition is_runtime_tick (l : list access) : Prop := ∃ ms rnd, l = runtime_tick ms rnd.
Definition is_system_tick (l : list access) : Prop := ∃ vm pct, l = system_tick vm pct.

Inductive step : Collector → Collector → Prop :=
  | step_runtime s stop cd g h g' s' :
      loop_step (stop || cd) is_runtime_tick g s g' s' →
      step (mkCollector s stop cd g h) (mkCollector s' stop cd g' h)
  | step_system s stop cd g h h' s' :
      loop_step (stop || cd) is_system_tick h s h' s' →
      step (mkCollector s stop cd g h) (mkCollector s' stop cd g h')
  | step_cancel s stop cd g h :
      step (mkCollector s stop cd g h) (mkCollector s stop true g h)
  (* the first half of [Stop]; closing is skipped when the channel is closed *)
  | step_close s stop cd g h :
      step (mkCollector s stop cd g h) (mkCollector s true cd g h).

(** [c.wg.Wait()] returns. *)
Definition stopped (c : Collector) : Prop := runtime_loop c = Returned ∧ system_loop c = Returned.

(** ** Lemmas *)

Lemma run_gauges l s :
  fold_left (λ s a, run_access a s) (map (λ kv, DoSet kv.1 kv.2) l) s =
    mkStats (list_to_map (reverse l) ∪ gauges s) (counters s).
Proof.
  revert s. induction l as [|[n v] l IH]; intros s; simpl.
  - rewrite (left_id_L ∅ (∪)). by destruct s.
  - rewrite IH, reverse_cons. unfold SetGauge. simpl. f_equal.
    rewrite list_to_map_app. simpl. rewrite <- (assoc_L (∪)). f_equal.
    by rewrite insert_empty, <- insert_union_singleton_l.
Qed.

(** The names of the processors' gauges differ from each other and from the
    other names. *)
Lemma append_inj_l s t u : s +:+ t = s +:+ u → t = u.
Proof. induction s as [|c s IH]; [done|]. intros E. injection E. apply IH. Qed.

Lemma cpu_name_inj i j :
  in_int64 (Z.of_nat i + 1) → in_int64 (Z.of_nat j + 1) → cpu_name i = cpu_name j → i = j.
Proof.
  intros Hi Hj E. apply append_inj_l in E. apply (f_equal ParseInt) in E.
  rewrite !ParseInt_FormatInt in E by done. injection E. lia.
Qed.

Lemma append_not_nil s t : s +:+ t = EmptyString → s = EmptyString.
Proof. by destruct s. Qed.

Definition fixed_names : list string := (runtime_gauges (mkMemStats 0 0 0 f64_zero 0 0 0 0
  0 0 0 0 0 0 0 0 0 0 0 0 0 0 0 0 0 0 0) f64_zero).*1 ++ [TotalMemory; FreeMemory].

Lemma cpu_name_fixed i : cpu_name i ∉ fixed_names.
Proof.
  intros Hin. unfold cpu_name in Hin. generalize dependent (FormatInt (Z.of_nat i + 1)).
  intros s Hin. assert (Forall (λ n, HasPrefix n "CPU" = false) fixed_names) as Hf.
  { repeat constructor. }
  rewrite Forall_forall in Hf. apply Hf in Hin. by vm_compute in Hin.
Qed.

(** ** Ticks *)

Lemma runtime_names ms rnd : (runtime_gauges ms rnd).*1 ++ [TotalMemory; FreeMemory] = fixed_names.
Proof. done. Qed.

Lemma runtime_names_nodup ms rnd : NoDup (runtime_gauges ms rnd).*1.
Proof.
  change (runtime_gauges ms rnd).*1 with (take 28 fixed_names).
  apply (bool_decide_unpack _). by vm_compute.
Qed.

(** What a list of gauges with distinct names leaves in the map. *)
Lemma run_gauges_lookup l s n :
  NoDup l.*1 →
  let s' := fold_left (λ s a, run_access a s) (map (λ kv, DoSet kv.1 kv.2) l) s in
  (∀ v, (n, v) ∈ l → gauges s' !! n = Some v) ∧
  (n ∉ l.*1 → gauges s' !! n = gauges s !! n).
Proof.
  intros Hnd. cbv zeta. rewrite run_gauges. cbn [gauges]. split.
  - intros v Hin. apply lookup_union_Some_l, elem_of_list_to_map_1.
    + by rewrite fmap_reverse, reverse_Permutation.
    + by apply elem_of_reverse.
  - intros Hn. rewrite lookup_union_r; [done|]. apply not_elem_of_list_to_map_1.
    by rewrite fmap_reverse, elem_of_reverse.
Qed.

(** A tick of the first goroutine that is not interleaved with others sets
    each of the 28 gauges to what was sampled, adds one to [PollCount] (modulo
    2^64), and touches nothing else. *)
Theorem runtime_tick_spec ms rnd s :
  let s' := fold_left (λ s a, run_access a s) (runtime_tick ms rnd) s in
  (∀ n v, (n, v) ∈ runtime_gauges ms rnd → gauges s' !! n = Some v) ∧
  (∀ n, n ∉ (runtime_gauges ms rnd).*1 → gauges s' !! n = gauges s !! n) ∧
  counters s' = <[MPollCount := add64 (default 0 (counters s !! MPollCount)) 1]> (counters s).
Proof.
  unfold runtime_tick. cbv zeta. rewrite fold_left_app. cbn [fold_left run_access].
  unfold AddCounter. cbn [gauges counters]. pose proof (runtime_names_nodup ms rnd) as Hnd.
  split; [|split].
  - intros n v. apply (run_gauges_lookup _ s n Hnd).
  - intros n. apply (run_gauges_lookup _ s n Hnd).
  - by rewrite run_gauges.
Qed.

Definition cpu_gauges (l : list float64) : list (string * float64) := imap (λ i p, (cpu_name i, p)) l.

Lemma cpu_gauges_elem l n v : (n, v) ∈ cpu_gauges l ↔ ∃ i, n = cpu_name i ∧ l !! i = Some v.
Proof.
  unfold cpu_gauges. rewrite elem_of_lookup_imap. split.
  - intros (i & p & E & Hi). injection E as -> ->. eauto.
  - intros (i & -> & Hi). eauto.
Qed.

Lemma cpu_gauges_nodup l : Z.of_nat (length l) ≤ max_int64 → NoDup (cpu_gauges l).*1.
Proof.
  intros Hlen. assert (Hinj : ∀ i j p q, l !! i = Some p → l !! j = Some q →
    cpu_name i = cpu_name j → i = j).
  { intros i j p q Hi%lookup_lt_Some Hj%lookup_lt_Some. apply cpu_name_inj; unfold64; lia. }
  apply NoDup_fmap_fst.
  - intros n v v' H1 H2. apply cpu_gauges_elem in H1 as (i & -> & Hi), H2 as (j & E & Hj).
    rewrite (Hinj i j v v' Hi Hj E) in Hi. congruence.
  - apply NoDup_alt. unfold cpu_gauges. intros i j [n v] Hi Hj.
    rewrite list_lookup_imap in Hi, Hj. apply fmap_Some in Hi as (p & Hi & E1), Hj as (q & Hj & E2).
    apply (f_equal fst) in E1, E2. cbn [fst] in E1, E2. rewrite E1 in E2. eauto.
Qed.

Lemma cpu_gauges_names l n : n ∈ (cpu_gauges l).*1 → n ∉ fixed_names.
Proof.
  intros Hn. apply list_elem_of_fmap in Hn as ([n' v] & -> & Hv).
  apply cpu_gauges_elem in Hv as (i & -> & _). apply cpu_name_fixed.
Qed.

Lemma system_gauges_names vm pct n : n ∈ (system_gauges vm pct).*1 →
  n = TotalMemory ∨ n = FreeMemory ∨ n ∉ fixed_names.
Proof.
  unfold system_gauges. rewrite fmap_app, elem_of_app. intros [Hn|Hn].
  - destruct vm as [[t f]|]; set_solver.
  - right. right. destruct pct as [l|]; [by eapply cpu_gauges_names|].
    by apply not_elem_of_nil in Hn.
Qed.

Lemma system_gauges_nodup vm l :
  Z.of_nat (length l) ≤ max_int64 → NoDup (system_gauges vm (Some l)).*1.
Proof.
  intros Hlen. unfold system_gauges. rewrite fmap_app. apply NoDup_app.
  split; [|split; [|by apply cpu_gauges_nodup]].
  - destruct vm as [[t f]|]; [|constructor]. apply (bool_decide_unpack _). by vm_compute.
  - intros n Hn Hc. apply cpu_gauges_names in Hc. apply Hc. unfold fixed_names.
    destruct vm as [[t f]|]; [|by apply not_elem_of_nil in Hn]. set_solver.
Qed.

(** A tick of the second goroutine stores the load of every processor under
    a name of its own: no processor's gauge overwrites another's, or one of the
    other metrics. *)
Theorem system_tick_spec vm l s :
  Z.of_nat (length l) ≤ max_int64 →
  let s' := fold_left (λ s a, run_access a s) (system_tick vm (Some l)) s in
  (∀ i p, l !! i = Some p → gauges s' !! cpu_name i = Some p) ∧
  (∀ total free, vm = Some (total, free) →
    gauges s' !! TotalMemory = Some (of_uint total) ∧
    gauges s' !! FreeMemory = Some (of_uint free)) ∧
  (∀ n, n ∈ take 28 fixed_names → gauges s' !! n = gauges s !! n) ∧
  counters s' = counters s.
Proof.
  intros Hlen. unfold system_tick. pose proof (system_gauges_nodup vm l Hlen) as Hnd.
  repeat split.
  - intros i p Hi. apply (run_gauges_lookup _ s _ Hnd). unfold system_gauges.
    rewrite elem_of_app. right. apply cpu_gauges_elem. eauto.
  - subst vm. apply (run_gauges_lookup _ s _ Hnd). left.
  - subst vm. apply (run_gauges_lookup _ s _ Hnd). right. left.
  - intros n Hn. apply (run_gauges_lookup _ s _ Hnd). intros Hc.
    assert (Forall (λ n, n ∈ fixed_names ∧ n ≠ TotalMemory ∧ n ≠ FreeMemory) (take 28 fixed_names))
      as Hf by (apply (bool_decide_unpack _); by vm_compute).
    rewrite Forall_forall in Hf. apply Hf in Hn. apply system_gauges_names in Hc. naive_solver.
  - by rewrite run_gauges.
Qed.

(** ** Every schedule *)

(** A goroutine in the middle of a tick has done a prefix of it. *)
Definition ran_prefix (ticks : list access → Prop) (s : stats) (g : goroutine) : Prop :=
  match g with
  | Ticking todo => ∃ dn, ticks (dn ++ todo) ∧
      ∀ n v, DoSet n v ∈ dn → is_Some (gauges s !! n)
  | _ => True
  end.

Definition known_name (n : string) : Prop := n ∈ fixed_names ∨ ∃ i, n = cpu_name i.

(** What a snapshot can show. *)
Definition stats_ok (s : stats) : Prop :=
  (∀ n v, gauges s !! n = Some v → known_name n) ∧
  (∀ n d, counters s !! n = Some d → n = MPollCount) ∧
  (is_Some (counters s !! MPollCount) → ∀ n, n ∈ take 28 fixed_names → is_Some (gauges s !! n)).

Record collector_inv (c : Collector) : Prop := {
  inv_stats : stats_ok (st c);
  inv_runtime : ran_prefix is_runtime_tick (st c) (runtime_loop c);
  inv_system : ran_prefix is_system_tick (st c) (system_loop c);
}.

Lemma run_access_keeps a s n : is_Some (gauges s !! n) → is_Some (gauges (run_access a s) !! n).
Proof.
  intros Hn. destruct a as [m v|m d]; [|done]. simpl. rewrite lookup_insert.
  case_decide; [by eexists|done].
Qed.

Lemma ran_prefix_keeps ticks a s g : ran_prefix ticks s g → ran_prefix ticks (run_access a s) g.
Proof.
  destruct g as [|todo|]; [done| |done]. intros (dn & Ht & Hd). exists dn. split; [done|].
  intros n v Hin. by eapply run_access_keeps, Hd.
Qed.

(** The prefix grows by the access made. *)
Lemma ran_prefix_access ticks a todo s :
  ran_prefix ticks s (Ticking (a :: todo)) → ran_prefix ticks (run_access a s) (Ticking todo).
Proof.
  intros (dn & Ht & Hd). exists (dn ++ [a]). rewrite <- app_assoc. split; [done|].
  intros n v Hin. apply elem_of_app in Hin as [Hin|Hin%list_elem_of_singleton].
  - by eapply run_access_keeps, Hd.
  - subst a. simpl. rewrite lookup_insert_eq. eauto.
Qed.

(** Only the last access of a tick adds to a counter. *)
Lemma runtime_tick_add ms rnd dn n d todo :
  runtime_tick ms rnd = dn ++ DoAdd n d :: todo →
  n = MPollCount ∧ dn = map (λ kv, DoSet kv.1 kv.2) (runtime_gauges ms rnd).
Proof.
  unfold runtime_tick. intros E.
  assert (DoAdd n d ∉ map (λ kv, DoSet kv.1 kv.2) (runtime_gauges ms rnd)) as Hno.
  { intros (kv & ? & _)%list_elem_of_fmap. done. }
  destruct todo as [|a todo _] using rev_ind.
  - apply app_inj_tail in E as [-> E]. by injection E as <- _.
  - rewrite app_comm_cons, app_assoc in E. apply app_inj_tail in E as [E _].
    rewrite E in Hno. set_solver.
Qed.

Lemma runtime_set_known ms rnd n v : DoSet n v ∈ runtime_tick ms rnd → known_name n.
Proof.
  intros Hin. left. unfold runtime_tick in Hin. apply elem_of_app in Hin as [Hin|Hin].
  - apply list_elem_of_fmap in Hin as ([n' v'] & E & Hin). injection E as -> ->.
    rewrite <- (runtime_names ms rnd). apply elem_of_app. left.
    apply list_elem_of_fmap. by exists (n', v').
  - by apply list_elem_of_singleton in Hin.
Qed.

Lemma system_set_known vm pct n v : DoSet n v ∈ system_tick vm pct → known_name n.
Proof.
  intros ([n' v'] & E & Hin)%list_elem_of_fmap. injection E as -> ->.
  unfold system_gauges in Hin. apply elem_of_app in Hin as [Hin|Hin].
  - left. unfold fixed_names. destruct vm as [[t f]|]; set_solver.
  - right. destruct pct as [l|]; [|by apply not_elem_of_nil in Hin].
    apply cpu_gauges_elem in Hin as (i & -> & _). eauto.
Qed.

Lemma set_ok n v s : stats_ok s → known_name n → stats_ok (SetGauge n v s).
Proof.
  intros (Hg & Hc & Hp) Hn. split; [|split; [done|]].
  - intros m x. simpl. rewrite lookup_insert. case_decide; [by subst|apply Hg].
  - intros Hs m Hm. apply (run_access_keeps (DoSet n v)). by apply Hp.
Qed.

Lemma poll_ok ms rnd dn n d todo s :
  stats_ok s → runtime_tick ms rnd = dn ++ DoAdd n d :: todo →
  (∀ n v, DoSet n v ∈ dn → is_Some (gauges s !! n)) → stats_ok (AddCounter n d s).
Proof.
  intros (Hg & Hc & _) E Hd. apply runtime_tick_add in E as [-> ->].
  split; [done|split].
  - intros m x. simpl. rewrite lookup_insert. case_decide; [by subst|apply Hc].
  - intros _ m Hm. simpl. assert (m ∈ (runtime_gauges ms rnd).*1) as Hm' by done.
    apply list_elem_of_fmap in Hm' as ([m' v] & -> & Hin).
    apply (Hd m' v). apply list_elem_of_fmap. by exists (m', v).
Qed.

Lemma tick_access_ok ticks a todo s :
  (∀ l n v, ticks l → DoSet n v ∈ l → known_name n) →
  (∀ dn n d todo, ticks (dn ++ DoAdd n d :: todo) →
    ∃ ms rnd, runtime_tick ms rnd = dn ++ DoAdd n d :: todo) →
  stats_ok s → ran_prefix ticks s (Ticking (a :: todo)) → stats_ok (run_access a s).
Proof.
  intros Hset Hadd Hs (dn & Ht & Hd). destruct a as [n v|n d].
  - apply set_ok; [done|]. apply (Hset _ n v Ht). apply elem_of_app. right. left.
  - destruct (Hadd _ _ _ _ Ht) as (ms & rnd & E). by eapply poll_ok.
Qed.

Lemma loop_step_inv stop ticks g s g' s' :
  (∀ l n v, ticks l → DoSet n v ∈ l → known_name n) →
  (∀ dn n d todo, ticks (dn ++ DoAdd n d :: todo) →
    ∃ ms rnd, runtime_tick ms rnd = dn ++ DoAdd n d :: todo) →
  loop_step stop ticks g s g' s' → stats_ok s → ran_prefix ticks s g →
  stats_ok s' ∧ ran_prefix ticks s' g' ∧
    (∀ ticks' h, ran_prefix ticks' s h → ran_prefix ticks' s' h).
Proof.
  intros Hset Hadd Hstep Hs Hg. destruct Hstep as [|s todo Ht| |]; try done.
  - split; [done|]. split; [|done]. exists []. split; [done|]. intros n v Hn.
    by apply not_elem_of_nil in Hn.
  - split; [by eapply tick_access_ok|]. split; [by apply ran_prefix_access|].
    intros. by apply ran_prefix_keeps.
Qed.

Lemma collector_inv_step c c' : collector_inv c → step c c' → collector_inv c'.
Proof.
  intros [Hs Hr Hy] Hstep. destruct Hstep as [s stop cd g h g' s' Hl|s stop cd g h h' s' Hl| |];
    simpl in *; try by constructor.
  - apply loop_step_inv in Hl as (Hs' & Hg' & Hk); [by constructor; auto|..]; try done.
    + intros l n v (ms & rnd & ->). apply runtime_set_known.
    + intros dn n d todo (ms & rnd & E). eauto.
  - apply loop_step_inv in Hl as (Hs' & Hg' & Hk); [by constructor; auto|..]; try done.
    + intros l n v (vm & pct & ->). apply system_set_known.
    + intros dn n d todo (vm & pct & E). exfalso.
      assert (DoAdd n d ∈ system_tick vm pct) as Hin by (rewrite <- E; set_solver).
      by apply list_elem_of_fmap in Hin as (kv & ? & _).
Qed.

Lemma Start_inv : collector_inv Start.
Proof. split; [|done..]. split; [done|split; [done|]]. intros [? ?]. done. Qed.

(** [C34] Whatever the interleaving of the two goroutines with each other and
    with its caller, a [Snapshot] shows only the documented names; its only
    counter is [PollCount]; and once [PollCount] is there, so are the 28 gauges of
    the Go runtime. *)
Theorem collector_snapshot c g k :
  rtc step Start c → Snapshot (st c) = (g, k) →
  (∀ n v, g !! n = Some v → n ∈ fixed_names ∨ ∃ i, n = cpu_name i) ∧
  (∀ n d, k !! n = Some d → n = MPollCount) ∧
  (is_Some (k !! MPollCount) → ∀ n, n ∈ take 28 fixed_names → is_Some (g !! n)).
Proof.
  intros Hrun [= <- <-].
  apply (rtc_invariant step collector_inv collector_inv_step _ _ Hrun Start_inv).
Qed.

(** ** [Stop] *)

Definition pending (g : goroutine) : nat :=
  match g with Selecting => 1 | Ticking todo => 2 + length todo | Returned => 0 end.

Lemma loop_finishes ticks g s : ∃ s' : stats,
  rtc (λ x y : goroutine * stats, loop_step true ticks x.1 x.2 y.1 y.2) (g, s) (Returned, s').
Proof.
  remember (pending g) as n eqn:Hn. revert g s Hn.
  induction n as [|n IH]; intros [|[|a todo]|] s Hn; simpl in Hn; try lia; try by eexists; apply rtc_refl.
  - exists s. apply rtc_once. by constructor.
  - destruct (IH Selecting s) as [s' Hr]; [simpl; lia|]. exists s'.
    eapply rtc_l, Hr. constructor.
  - destruct (IH (Ticking todo) (run_access a s)) as [s' Hr]; [simpl; lia|]. exists s'.
    eapply rtc_l, Hr. constructor.
Qed.

Lemma rtc_runtime s cd g h s' g' :
  rtc (λ x y : goroutine * stats, loop_step true is_runtime_tick x.1 x.2 y.1 y.2) (g, s) (g', s') →
  rtc step (mkCollector s true cd g h) (mkCollector s' true cd g' h).
Proof.
  intros Hr. refine (rtc_congruence (λ x, mkCollector x.2 true cd x.1 h) _ _ _ _ Hr).
  intros [g1 s1] [g2 s2] Hl. by constructor.
Qed.

Lemma rtc_system s cd g h s' h' :
  rtc (λ x y : goroutine * stats, loop_step true is_system_tick x.1 x.2 y.1 y.2) (h, s) (h', s') →
  rtc step (mkCollector s true cd g h) (mkCollector s' true cd g h').
Proof.
  intros Hr. refine (rtc_congruence (λ x, mkCollector x.2 true cd g x.1) _ _ _ _ Hr).
  intros [g1 s1] [g2 s2] Hl. by constructor.
Qed.

(** Once [Stop] has closed the channel, both goroutines can return whatever
    they were doing, so its wait can end; and when it has ended no metric changes
    any more. *)
Theorem collector_stop c :
  stop_closed c = true →
  (∃ c', rtc step c c' ∧ stopped c') ∧
  (stopped c → ∀ c', rtc step c c' → st c' = st c ∧ stopped c').
Proof.
  destruct c as [s stop cd g h]. simpl. intros ->. split.
  - destruct (loop_finishes is_runtime_tick g s) as [s1 H1].
    destruct (loop_finishes is_system_tick h s1) as [s2 H2].
    exists (mkCollector s2 true cd Returned Returned). split; [|done].
    etrans; [by apply rtc_runtime|]. by apply rtc_system.
  - intros Hst c' Hr. apply (rtc_invariant step (λ c', st c' = s ∧ stopped c')) in Hr; [done| |done].
    intros x y [Hx [Hg Hh]] Hs. destruct Hs as [? ? ? ? ? ? ? Hl|? ? ? ? ? ? ? Hl| |]; simpl in *;
      simplify_eq; [by inversion Hl|by inversion Hl|done..].
Qed.

(** ** Runs *)

Definition demo_ms : MemStats :=
  mkMemStats 1 2 3 f64_zero 5 6 7 8 9 10 11 12 13 14 15 16 17 18 19 20 21 22 23 24 25 26 27.

Lemma system_tick_spec_witness :
  gauges (fold_left (λ s a, run_access a s)
    (system_tick (Some (8, 4)) (Some [of_uint 10; of_uint 20])) newStats) !! "CPUutilization2" =
  Some (of_uint 20).
Proof.
  apply (system_tick_spec (Some (8, 4)) [of_uint 10; of_uint 20] newStats) with (i := 1%nat);
    [vm_compute; discriminate|reflexivity].
Defined.

Definition after_access : Collector := mkCollector (SetGauge "Alloc" (of_uint 1) newStats) false false
  (Ticking (tail (runtime_tick demo_ms f64_zero))) Selecting.

Lemma after_access_reachable : rtc step Start after_access.
Proof.
  eapply rtc_l; [apply step_runtime, loop_tick; by exists demo_ms, f64_zero|].
  apply rtc_once. apply (step_runtime newStats false false _ Selecting).
  apply (loop_access _ _ newStats (DoSet "Alloc" (of_uint 1))).
Qed.

Lemma collector_snapshot_witness :
  map_Forall (λ n _, n = MPollCount) (Snapshot (st after_access)).2.
Proof.
  intros n d Hn. revert Hn. apply (collector_snapshot after_access _ _ after_access_reachable eq_refl).
Defined.

Lemma collector_stop_witness : ∃ c',
  rtc step (mkCollector newStats true false Selecting Selecting) c' ∧ stopped c'.
Proof. apply (collector_stop (mkCollector newStats true false Selecting Selecting) eq_refl). Defined.

End Collector.
