(* ===== verification/Util.v ===== *)
(** * pkg/util/common.go: what both processes print when they start *)

From S2P Require Import Prelude GoStrings.

Module Util.

Definition na (v : string) : string := if bool_decide (v = EmptyString) then "N/A" else v.

(** A line of standard output. *)
Definition output_line (s : string) : string := s +:+ String (byte 10) EmptyString.

Definition PrintBuildInfo (buildVersion buildDate buildCommit : string) : string :=
  output_line ("Build version: " +:+ na buildVersion) +:+
  (output_line ("Build date: " +:+ na buildDate) +:+ output_line ("Build commit: " +:+ na buildCommit)).

(** A build without the linker's variables. *)
Lemma PrintBuildInfo_empty : PrintBuildInfo EmptyString EmptyString EmptyString =
  output_line "Build version: N/A" +:+ (output_line "Build date: N/A" +:+ output_line "Build commit: N/A").
Proof. reflexivity. Qed.
End Util.
