(* ===== verification/Memory.v ===== *)
(** * internal/adapters/repository/memory: the in-memory repository

    [Repo] holds the two maps of the Go struct.  Every method runs under the
    mutex, so it is one atomic function here; the file [MemoryConc] models the
    lock and the steps taken under it.  No method looks at its context. *)

From S2P Require Import Prelude GoStrings GoInt GoErrors Domain Ports.
Open Scope Z_scope.

Module Memory.

Record Repo : Type := mkRepo {
  gauges : gmap string float64;
  counters : gmap string Z;
}.

Definition New : Repo := mkRepo ∅ ∅.

Definition GetGauge (_ : Context) (name : string) : io Repo error float64 := λ r,
  match gauges r !! name with
  | None => (Err ErrNotFound, r)
  | Some v => (Ok v, r)
  end.

Definition GetCounter (_ : Context) (name : string) : io Repo error Z := λ r,
  match counters r !! name with
  | None => (Err ErrNotFound, r)
  | Some v => (Ok v, r)
  end.

(** [r.gauges[name] = value] *)
Definition store_gauge (name : string) (value : float64) (r : Repo) : Repo :=
  mkRepo (<[name := value]> (gauges r)) (counters r).

(** [r.counters[name] += delta]: a missing key reads as zero. *)
Definition add_counter (name : string) (delta : Z) (r : Repo) : Repo :=
  mkRepo (gauges r) (<[name := add64 (default 0 (counters r !! name)) delta]> (counters r)).

Definition SetGauge (_ : Context) (name : string) (value : float64) : io Repo error unit :=
  λ r, (Ok tt, store_gauge name value r).

Definition AddCounter (_ : Context) (name : string) (delta : Z) : io Repo error unit :=
  λ r, (Ok tt, add_counter name delta r).

(** The body of the loop of [UpdateMany]. *)
Definition update_item (r : Repo) (it : Metrics) : Repo :=
  if decide (MType it = Gauge) then
    match Value it with Some v => store_gauge (ID it) v r | None => r end
  else if decide (MType it = Counter) then
    match Delta it with Some d => add_counter (ID it) d r | None => r end
  else r.

Definition UpdateMany (_ : Context) (items : list Metrics) : io Repo error unit :=
  λ r, (Ok tt, fold_left update_item items r).

(** [maps.Copy] of both maps. *)
Definition Snapshot (_ : Context) : io Repo error Snapshot :=
  λ r, (Ok (mkSnapshot (gauges r) (counters r)), r).

Definition Ping (_ : Context) : io Repo error unit :=
  λ r, (Err (Errorf "db not configured"), r).

(** What the repository holds, as a [Snapshot]. *)
Definition view (r : Repo) : Domain.Snapshot := mkSnapshot (gauges r) (counters r).

#[global] Instance memory_repo : MetricsRepo Repo := {
  Ports.GetGauge := GetGauge;
  Ports.GetCounter := GetCounter;
  Ports.SetGauge := SetGauge;
  Ports.AddCounter := AddCounter;
  Ports.UpdateMany := UpdateMany;
  Ports.RepoSnapshot := Snapshot;
  Ports.RepoPing := Ping;
}.

(** ** The repository honours the contract *)

Lemma view_update_item r it : view (update_item r it) = put it (view r).
Proof. unfold update_item, put. by repeat case_decide; repeat split_match. Qed.

Lemma view_UpdateMany items r : view (fold_left update_item items r) = put_all put items (view r).
Proof.
  unfold put_all. revert r. induction items as [|it items IH]; intros r; simpl; [done|].
  by rewrite IH, view_update_item.
Qed.

#[global, refine] Instance memory_laws : RepoLaws Repo := {
  repo_view := view;
  repo_put := put;
}.
Proof.
  all: intros; simpl in *;
    unfold GetGauge, GetCounter, SetGauge, AddCounter, UpdateMany, Snapshot in *;
    repeat split_match; simplify_eq/=; try done.
  by rewrite view_UpdateMany.
Defined.

#[global] Instance memory_total : RepoTotal Repo.
Proof.
  split; intros; simpl; unfold GetGauge, GetCounter; by repeat split_match.
Qed.

(** ** Batches

    One batch is the same as its items one after the other, each through the
    call for its type. *)
Definition step_item (ctx : Context) (it : Metrics) : io Repo error unit :=
  if decide (MType it = Gauge) then
    match Value it with Some v => SetGauge ctx (ID it) v | None => io_ret tt end
  else if decide (MType it = Counter) then
    match Delta it with Some d => AddCounter ctx (ID it) d | None => io_ret tt end
  else io_ret tt.

Fixpoint each_item (ctx : Context) (items : list Metrics) : io Repo error unit :=
  match items with
  | [] => io_ret tt
  | it :: items' => let! _ := step_item ctx it in each_item ctx items'
  end.

(** [UpdateMany] on the memory repository is its items one after the
    other through [SetGauge] and [AddCounter], and items without a value, or of
    an unknown type, change nothing. *)
Theorem UpdateMany_sequential ctx items r :
  UpdateMany ctx items r = each_item ctx items r ∧
  UpdateMany ctx (filter storable items) r = UpdateMany ctx items r.
Proof.
  split.
  - unfold UpdateMany. revert r. induction items as [|it items IH]; intros r; simpl; [done|].
    unfold io_bind, step_item, update_item, SetGauge, AddCounter, io_ret.
    by repeat case_decide; repeat split_match; rewrite IH.
  - unfold UpdateMany. f_equal. revert r. induction items as [|it items IH]; intros r; [done|].
    rewrite filter_cons. destruct (storable it) eqn:Hs; simpl; rewrite IH; [done|].
    f_equal. unfold storable, update_item in *. by repeat case_decide; repeat split_match.
Qed.

(** After any batch a counter holds its old value plus the sum of the
    deltas sent for it, wrapped to 64 bits once, whatever the order of the
    items; a gauge holds the last value sent for it. *)
Theorem UpdateMany_values ctx items r n :
  snapshot_wf (view r) →
  let r' := (UpdateMany ctx items r).2 in
  counters r' !! n =
    match deltas_of n items with
    | [] => counters r !! n
    | ds => Some (wrap64 (default 0 (counters r !! n) + foldr Z.add 0 ds))
    end ∧
  gauges r' !! n =
    match last (values_of n items) with Some v => Some v | None => gauges r !! n end ∧
  (∀ items', items ≡ₚ items' → counters (UpdateMany ctx items' r).2 !! n = counters r' !! n).
Proof.
  intros Hwf. pose proof (view_UpdateMany items r) as Hv.
  assert (∀ l, counters (fold_left update_item l r) = Counters (put_all put l (view r))) as Hc.
  { intros l. by rewrite <- view_UpdateMany. }
  simpl. split; [|split].
  - by rewrite Hc, put_all_counter.
  - change (gauges (fold_left update_item items r))
      with (Gauges (view (fold_left update_item items r))).
    by rewrite Hv, put_all_gauge.
  - intros items' Hp. rewrite !Hc. by apply put_all_counter_perm.
Qed.

Definition demo_batch : list Metrics :=
  [counter_metric "c" max_int64; gauge_metric "g" (mkFloat64 1); counter_metric "c" 1;
   mkMetrics None None "c" Counter; gauge_metric "g" (mkFloat64 2)].

Lemma UpdateMany_values_witness :
  snapshot_wf (view New) ∧
  counters (UpdateMany Background demo_batch New).2 !! "c" = Some min_int64 ∧
  gauges (UpdateMany Background demo_batch New).2 !! "g" = Some (mkFloat64 2).
Proof.
  assert (snapshot_wf (view New)) as H by apply map_Forall_empty.
  split; [done|]. split.
  - destruct (UpdateMany_values Background demo_batch New "c" H) as (Hc & _ & _).
    etrans; [exact Hc|reflexivity].
  - destruct (UpdateMany_values Background demo_batch New "g" H) as (_ & Hg & _).
    etrans; [exact Hg|reflexivity].
Defined.

End Memory.
