(* ===== verification/MemoryConc.v ===== *)
(** * The in-memory repository under concurrent requests

    Goroutines run [UpdateMany] (of which [SetGauge] and [AddCounter] are the
    one-item case) and [Snapshot] on one repository.  A step is one access to
    the maps, or one operation of the [sync.RWMutex]; [+=] on a counter is a
    read followed by a write.  The theorem is that the lock makes the calls
    atomic: what the repository holds, and what every reader returns, is the
    result of running whole batches one after the other. *)

From S2P Require Import Prelude GoStrings GoInt GoErrors Domain Ports Memory.
Open Scope Z_scope.

Module MemoryConc.
Import Memory.

(** ** Goroutines *)

(** Where a goroutine stands.  A writer keeps its whole batch, for the record,
    and the items it still has to apply. *)
Inductive pc : Type :=
  | WStart (batch : list Metrics)                      (* before [Lock] *)
  | WRun (batch todo : list Metrics)                   (* in the loop, lock held *)
  | WAdd (batch : list Metrics) (it : Metrics) (d : Z) (todo : list Metrics) (old : Z)
                                                       (* [+=] has read [old] *)
  | WDone (batch : list Metrics)                       (* after [Unlock] *)
  | RStart                                             (* before [RLock] *)
  | RLocked                                            (* after [RLock] *)
  | RGauges (g : gmap string float64)                  (* first [maps.Copy] done *)
  | RCopied (s : Domain.Snapshot)                      (* second one done *)
  | RDone (s : Domain.Snapshot).                       (* after [RUnlock] *)

Definition holds_read (p : pc) : bool :=
  match p with RLocked | RGauges _ | RCopied _ => true | _ => false end.

Definition done_batch (p : pc) : option (list Metrics) :=
  match p with WDone b => Some b | _ => None end.

Definition batch_of (p : pc) : option (list Metrics) :=
  match p with WStart b | WRun b _ | WAdd b _ _ _ _ | WDone b => Some b | _ => None end.

Definition holds_write (p : pc) : bool :=
  match p with WRun _ _ | WAdd _ _ _ _ _ => true | _ => false end.

Definition finished (p : pc) : bool :=
  match p with WDone _ | RDone _ => true | _ => false end.

(** [c_mu] is the goroutine that holds the write lock; [c_log] records the
    batches in the order their locks were released. *)
Record Conc : Type := mkConc {
  c_repo : Repo;
  c_mu : option nat;
  c_threads : list pc;
  c_log : list (list Metrics);
}.

Definition no_readers (ts : list pc) : Prop := ∀ j p, ts !! j = Some p → holds_read p = false.

(** ** Steps *)
Inductive step : Conc → Conc → Prop :=
  | step_Lock r ts log i b :
      ts !! i = Some (WStart b) → no_readers ts →
      step (mkConc r None ts log) (mkConc r (Some i) (<[i := WRun b b]> ts) log)
  | step_gauge r mu ts log i b it v todo :
      ts !! i = Some (WRun b (it :: todo)) → MType it = Gauge → Value it = Some v →
      step (mkConc r mu ts log)
           (mkConc (store_gauge (ID it) v r) mu (<[i := WRun b todo]> ts) log)
  | step_read r mu ts log i b it d todo :
      ts !! i = Some (WRun b (it :: todo)) → MType it = Counter → Delta it = Some d →
      step (mkConc r mu ts log)
           (mkConc r mu (<[i := WAdd b it d todo (default 0 (counters r !! ID it))]> ts) log)
  | step_write r mu ts log i b it d todo old :
      ts !! i = Some (WAdd b it d todo old) →
      step (mkConc r mu ts log)
           (mkConc (mkRepo (gauges r) (<[ID it := add64 old d]> (counters r))) mu
                   (<[i := WRun b todo]> ts) log)
  | step_skip r mu ts log i b it todo :
      ts !! i = Some (WRun b (it :: todo)) → storable it = false →
      step (mkConc r mu ts log) (mkConc r mu (<[i := WRun b todo]> ts) log)
  | step_Unlock r ts log i b :
      ts !! i = Some (WRun b []) →
      step (mkConc r (Some i) ts log) (mkConc r None (<[i := WDone b]> ts) (log ++ [b]))
  | step_RLock r ts log i :
      ts !! i = Some RStart →
      step (mkConc r None ts log) (mkConc r None (<[i := RLocked]> ts) log)
  | step_copy_gauges r mu ts log i :
      ts !! i = Some RLocked →
      step (mkConc r mu ts log) (mkConc r mu (<[i := RGauges (gauges r)]> ts) log)
  | step_copy_counters r mu ts log i g :
      ts !! i = Some (RGauges g) →
      step (mkConc r mu ts log)
           (mkConc r mu (<[i := RCopied (mkSnapshot g (counters r))]> ts) log)
  | step_RUnlock r mu ts log i s :
      ts !! i = Some (RCopied s) →
      step (mkConc r mu ts log) (mkConc r mu (<[i := RDone s]> ts) log).

(** All goroutines before their first step. *)
Definition starting (p : pc) : Prop := match p with WStart _ | RStart => True | _ => False end.

Definition init (r : Repo) (ts : list pc) : Conc := mkConc r None ts [].

(** ** Invariant *)

Section invariant.
Context (r0 : Repo).

(** What the completed batches make of the initial repository. *)
Definition committed (log : list (list Metrics)) : Domain.Snapshot :=
  put_all put (concat log) (view r0).

Definition thread_ok (c : Conc) (i : nat) (p : pc) : Prop :=
  match p with
  | WStart _ | WDone _ | RStart => c_mu c ≠ Some i
  | WRun b todo => c_mu c = Some i ∧ ∃ dn, b = dn ++ todo ∧
      view (c_repo c) = put_all put dn (committed (c_log c))
  | WAdd b it d todo old => c_mu c = Some i ∧ MType it = Counter ∧ Delta it = Some d ∧
      old = default 0 (counters (c_repo c) !! ID it) ∧
      ∃ dn, b = dn ++ it :: todo ∧ view (c_repo c) = put_all put dn (committed (c_log c))
  | RLocked => c_mu c = None
  | RGauges g => c_mu c = None ∧ g = gauges (c_repo c)
  | RCopied s => c_mu c = None ∧ s = view (c_repo c)
  | RDone s => c_mu c ≠ Some i ∧
      ∃ k, (k ≤ length (c_log c))%nat ∧ s = committed (take k (c_log c))
  end.

Record inv (c : Conc) : Prop := {
  inv_threads : ∀ i p, c_threads c !! i = Some p → thread_ok c i p;
  inv_free : c_mu c = None → view (c_repo c) = committed (c_log c);
  inv_holder : ∀ i, c_mu c = Some i →
    ∃ p, c_threads c !! i = Some p ∧ holds_write p = true;
  inv_log : c_log c ≡ₚ omap done_batch (c_threads c);
}.

Lemma committed_snoc log b : committed (log ++ [b]) = put_all put b (committed log).
Proof. unfold committed. rewrite concat_app, put_all_app. simpl. by rewrite app_nil_r. Qed.

(** Replacing the goroutine [i] in the list: the others must stay all right. *)
Lemma threads_insert i p p' (P : nat → pc → Prop) (ts : list pc) :
  ts !! i = Some p → P i p' →
  (∀ j q, j ≠ i → ts !! j = Some q → P j q) →
  ∀ j q, <[i := p']> ts !! j = Some q → P j q.
Proof.
  intros Hi Hp Hothers j q. rewrite list_lookup_insert. case_decide as Hd.
  - destruct Hd as [-> _]. by intros [= <-].
  - intros Hj. apply Hothers; [|done]. intros ->. apply Hd. split; [done|].
    by eapply lookup_lt_Some.
Qed.

Lemma log_insert i p p' ts log :
  ts !! i = Some p → done_batch p = None → done_batch p' = None →
  log ≡ₚ omap done_batch ts → log ≡ₚ omap done_batch (<[i := p']> ts).
Proof.
  intros Hi Hp Hp' ->. apply list_elem_of_split_length in Hi as (l1 & l2 & -> & ->).
  rewrite insert_app_r_alt, Nat.sub_diag by lia. simpl.
  rewrite !omap_app. simpl. by rewrite Hp, Hp'.
Qed.

Lemma put_gauge_item it v s : MType it = Gauge → Value it = Some v →
  put it s = mkSnapshot (<[ID it := v]> (Gauges s)) (Counters s).
Proof. intros Ht Hv. unfold put. by rewrite decide_True, Hv. Qed.

Lemma put_counter_item it d s : MType it = Counter → Delta it = Some d →
  put it s = mkSnapshot (Gauges s)
    (<[ID it := add64 (default 0 (Counters s !! ID it)) d]> (Counters s)).
Proof. intros Ht Hd. unfold put. by rewrite Ht, decide_False, decide_True, Hd. Qed.

(** A goroutine other than the holder does not see the holder's writes. *)
Lemma thread_ok_other r mu ts log r' ts' i j q :
  r' = r ∨ mu = Some i → j ≠ i →
  thread_ok (mkConc r mu ts log) j q → thread_ok (mkConc r' mu ts' log) j q.
Proof. intros [->| ->] Hj; destruct q; simpl; intuition congruence. Qed.

(** A step of goroutine [i] that keeps the lock as it is, and touches the
    maps only as the holder of the write lock. *)
Lemma inv_local r r' mu ts log i p p' :
  inv (mkConc r mu ts log) → ts !! i = Some p → r' = r ∨ mu = Some i →
  done_batch p = None → done_batch p' = None → holds_write p' = holds_write p →
  thread_ok (mkConc r' mu ts log) i p' →
  inv (mkConc r' mu (<[i := p']> ts) log).
Proof.
  intros [Hth Hfree Hhold Hlog] Hi Hr Hd Hd' Hw Hok. simpl in *. split; simpl.
  - eapply threads_insert; [done|by destruct p'|].
    intros j q Hj Hq. by eapply thread_ok_other, Hth.
  - intros ->. destruct Hr as [->|]; [by apply Hfree|done].
  - intros k Hk. destruct (Hhold k Hk) as (q & Hq & Hqw).
    destruct (decide (k = i)) as [->|Hne].
    + exists p'. rewrite list_lookup_insert_eq by (by eapply lookup_lt_Some). naive_solver.
    + exists q. by rewrite list_lookup_insert_ne.
  - by eapply log_insert.
Qed.

Lemma inv_Lock r ts log i b :
  inv (mkConc r None ts log) → ts !! i = Some (WStart b) → no_readers ts →
  inv (mkConc r (Some i) (<[i := WRun b b]> ts) log).
Proof.
  intros [Hth Hfree _ Hlog] Hi Hr. simpl in *. split; simpl; [|done| |by eapply log_insert].
  - eapply threads_insert; [done| |].
    + simpl. split; [done|]. exists []. by rewrite Hfree.
    + intros j q Hj Hq. specialize (Hth j q Hq). specialize (Hr j q Hq).
      destruct q; simpl in *; intuition congruence.
  - intros k [= <-]. exists (WRun b b).
    by rewrite list_lookup_insert_eq by (by eapply lookup_lt_Some).
Qed.

Lemma inv_Unlock r ts log i b :
  inv (mkConc r (Some i) ts log) → ts !! i = Some (WRun b []) →
  inv (mkConc r None (<[i := WDone b]> ts) (log ++ [b])).
Proof.
  intros [Hth _ _ Hlog] Hi. pose proof (Hth i _ Hi) as (_ & dn & E & Hview).
  rewrite app_nil_r in E. subst dn. simpl in *. split; simpl.
  - eapply threads_insert; [done|done|].
    intros j q Hj Hq. specialize (Hth j q Hq). destruct q; simpl in *; try intuition congruence.
    destruct Hth as (_ & k & Hk & ->). split; [done|]. exists k.
    rewrite length_app, take_app_le by done. split; [lia|done].
  - intros _. by rewrite committed_snoc.
  - done.
  - apply list_elem_of_split_length in Hi as (l1 & l2 & -> & ->).
    rewrite insert_app_r_alt, Nat.sub_diag by lia. simpl.
    rewrite omap_app in *. simpl in *. rewrite Hlog. solve_Permutation.
Qed.

(** The holder finishes the item [it]. *)
Lemma run_item r r' mu ts log i b it todo dn :
  b = dn ++ it :: todo → mu = Some i →
  view r = put_all put dn (committed log) → view r' = put it (view r) →
  thread_ok (mkConc r' mu ts log) i (WRun b todo).
Proof.
  intros -> -> Hr Hr'. simpl. split; [done|]. exists (dn ++ [it]).
  rewrite <- app_assoc. split; [done|]. rewrite put_all_app, <- Hr. done.
Qed.

Lemma inv_step c c' : inv c → step c c' → inv c'.
Proof.
  intros Hinv Hstep. pose proof (inv_threads _ Hinv) as Hth. destruct Hstep as
    [r ts log i b Hi Hr|r mu ts log i b it v todo Hi Ht Hv|r mu ts log i b it d todo Hi Ht Hd
    |r mu ts log i b it d todo old Hi|r mu ts log i b it todo Hi Hs|r ts log i b Hi
    |r ts log i Hi|r mu ts log i Hi|r mu ts log i g Hi|r mu ts log i s Hi];
    simpl in *; specialize (Hth i _ Hi); simpl in Hth.
  - by apply inv_Lock.
  - destruct Hth as (-> & dn & -> & Hview). eapply inv_local; eauto.
    eapply run_item; eauto. by erewrite put_gauge_item.
  - destruct Hth as (-> & dn & -> & Hview). eapply inv_local; eauto. simpl. eauto 8.
  - destruct Hth as (-> & Ht & Hd & -> & dn & -> & Hview). eapply inv_local; eauto.
    eapply run_item; eauto. by erewrite put_counter_item.
  - destruct Hth as (-> & dn & -> & Hview). eapply inv_local; eauto.
    eapply run_item; eauto. by rewrite put_unstorable.
  - by apply inv_Unlock.
  - eapply inv_local; eauto. done.
  - eapply inv_local; eauto. done.
  - destruct Hth as [-> ->]. eapply inv_local; eauto. done.
  - destruct Hth as [-> ->]. eapply inv_local; eauto. split; [done|].
    exists (length log). rewrite take_ge by done. split; [done|]. by apply (inv_free _ Hinv).
Qed.

Lemma inv_init ts : Forall starting ts → inv (init r0 ts).
Proof.
  intros Hts. split; simpl; [|done|done|].
  - intros i p Hp. pose proof (Forall_lookup_1 _ _ _ _ Hts Hp). by destruct p.
  - induction Hts as [|p ts Hp _ IH]; [done|]. by destruct p.
Qed.
End invariant.

(** A goroutine keeps its batch. *)
Lemma step_batches c c' : step c c' →
  batch_of <$> c_threads c' = batch_of <$> c_threads c.
Proof.
  intros Hs. destruct Hs as
    [?? ? i ? Hi|? ? ? ? i ? ? ? ? Hi|? ? ? ? i ? ? ? ? Hi|? ? ? ? i ? ? ? ? ? Hi
    |? ? ? ? i ? ? ? Hi|? ? ? i ? Hi|? ? ? i Hi|? ? ? ? i Hi|? ? ? ? i ? Hi|? ? ? ? i ? Hi];
    simpl; rewrite list_fmap_insert; simpl; apply list_insert_id;
    by rewrite list_lookup_fmap, Hi.
Qed.

Lemma run_batches c c' : rtc step c c' → batch_of <$> c_threads c' = batch_of <$> c_threads c.
Proof. induction 1 as [|x y z Hxy _ IH]; [done|]. by rewrite IH, (step_batches x y). Qed.

Lemma omap_fmap_id (f : pc → option (list Metrics)) (ts : list pc) :
  omap f ts = omap id (f <$> ts).
Proof. induction ts as [|p ts IH]; csimpl; [done|]. by rewrite IH. Qed.

Lemma omap_batches (ts ts' : list pc) :
  batch_of <$> ts = batch_of <$> ts' → omap batch_of ts = omap batch_of ts'.
Proof. intros H. by rewrite !(omap_fmap_id batch_of), H. Qed.

Lemma finished_batches (ts : list pc) : Forall (λ p, finished p = true) ts →
  omap done_batch ts = omap batch_of ts.
Proof.
  intros Hts. rewrite !omap_fmap_id. f_equal.
  induction Hts as [|p ts Hp _ IH]; csimpl; [done|]. rewrite IH. by destruct p.
Qed.

Lemma run_inv r0 ts c : Forall starting ts → rtc step (init r0 ts) c → inv r0 c.
Proof. intros Hts Hrun. eapply rtc_invariant; eauto using inv_step, inv_init. Qed.

(** ** Termination *)

(** Steps a goroutine has left. *)
Definition remaining (p : pc) : nat :=
  match p with
  | WStart b => 2 * length b + 2
  | WRun _ todo => 2 * length todo + 1
  | WAdd _ _ _ todo _ => 2 * length todo + 2
  | RStart => 4
  | RLocked => 3
  | RGauges _ => 2
  | RCopied _ => 1
  | WDone _ | RDone _ => 0
  end%nat.

Definition work (c : Conc) : nat := sum_list_with remaining (c_threads c).

Lemma work_insert (ts : list pc) i p p' : ts !! i = Some p → (remaining p' < remaining p)%nat →
  (sum_list_with remaining (<[i := p']> ts) < sum_list_with remaining ts)%nat.
Proof.
  intros Hi Hp. apply list_elem_of_split_length in Hi as (l1 & l2 & -> & ->).
  rewrite insert_app_r_alt, Nat.sub_diag by lia. simpl. rewrite !sum_list_with_app. simpl. lia.
Qed.

Lemma step_work c c' : step c c' → (work c' < work c)%nat.
Proof. intros Hs. destruct Hs; unfold work; simpl; eapply work_insert; eauto; simpl; lia. Qed.

Lemma finished_dec (ts : list pc) : Forall (λ p, finished p = true) ts ∨
  ∃ i p, ts !! i = Some p ∧ finished p = false.
Proof.
  induction ts as [|p ts [IH|(i & q & Hi & Hq)]]; [by left| |right; by exists (S i), q].
  destruct (finished p) eqn:Hp; [left; by constructor|right; by exists 0%nat, p].
Qed.

(** A goroutine in the critical section, or inside a read, can always go on. *)
Lemma step_writer r i (ts : list pc) log p :
  ts !! i = Some p → holds_write p = true → ∃ c', step (mkConc r (Some i) ts log) c'.
Proof.
  intros Hi Hp. destruct p as [| b [|it todo]| | | | | | |]; try done; [eauto using step| |eauto using step].
  destruct (storable it) eqn:Hs; [|eauto using step]. unfold storable in Hs.
  case_decide; [destruct (Value it) eqn:?; [eauto using step|done]|].
  case_decide; [destruct (Delta it) eqn:?; [eauto using step|done]|done].
Qed.

Lemma step_reader r mu i (ts : list pc) log p :
  ts !! i = Some p → holds_read p = true → ∃ c', step (mkConc r mu ts log) c'.
Proof. intros Hi Hp. destruct p; try done; eauto using step. Qed.

Lemma readers_dec ts : no_readers ts ∨ ∃ j q, ts !! j = Some q ∧ holds_read q = true.
Proof.
  destruct (decide (Exists (λ q, holds_read q = true) ts)) as [He|He].
  - right. apply Exists_exists in He as (q & Hq & ?).
    apply list_elem_of_lookup in Hq as [j ?]. eauto.
  - left. intros j q Hq. destruct (holds_read q) eqn:E; [|done]. exfalso. apply He.
    apply Exists_exists. exists q. split; [|done]. by eapply list_elem_of_lookup_2.
Qed.

(** No deadlock: until every call has returned, some goroutine can step. *)
Lemma progress r0 c : inv r0 c →
  Forall (λ p, finished p = true) (c_threads c) ∨ ∃ c', step c c'.
Proof.
  intros Hinv. destruct c as [r mu ts log]. simpl.
  destruct (finished_dec ts) as [?|(i & p & Hi & Hp)]; [by left|right].
  destruct mu as [k|].
  - destruct (inv_holder _ _ Hinv k eq_refl) as (q & Hq & Hw). by eapply step_writer.
  - pose proof (inv_threads _ _ Hinv i p Hi) as Hok.
    destruct (readers_dec ts) as [Hr|(j & q & Hj & Hq)]; [|by eapply step_reader].
    destruct p; simpl in *; try done; try (destruct Hok; done); eauto using step.
Qed.

(** ** The calls are atomic *)

(** When all calls have returned. *)
Lemma all_returned r0 ts c :
  snapshot_wf (view r0) → Forall starting ts → rtc step (init r0 ts) c →
  Forall (λ p, finished p = true) (c_threads c) →
  c_log c ≡ₚ omap batch_of ts ∧ view (c_repo c) = committed r0 (c_log c) ∧
  ∀ n, counters (c_repo c) !! n = Counters (committed r0 (omap batch_of ts)) !! n.
Proof.
  intros Hwf Hts Hrun Hfin. pose proof (run_inv _ _ _ Hts Hrun) as Hinv.
  assert (c_log c ≡ₚ omap batch_of ts) as Hp.
  { rewrite (inv_log _ _ Hinv), finished_batches by done.
    by rewrite (omap_batches _ _ (run_batches _ _ Hrun)). }
  assert (view (c_repo c) = committed r0 (c_log c)) as Hv.
  { apply (inv_free _ _ Hinv). destruct (c_mu c) as [i|] eqn:Hmu; [|done].
    destruct (inv_holder _ _ Hinv i Hmu) as (p & Hi & Hw).
    pose proof (Forall_lookup_1 _ _ _ _ Hfin Hi). by destruct p. }
  split; [done|]. split; [done|]. intros n.
  change (counters (c_repo c)) with (Counters (view (c_repo c))). rewrite Hv.
  unfold committed. apply put_all_counter_perm; [done|]. by rewrite Hp.
Qed.

(** The log only grows. *)
Lemma step_log c c' : step c c' → c_log c `prefix_of` c_log c'.
Proof. destruct 1; simpl; try done. by apply prefix_app_r. Qed.

Lemma run_log c c' : rtc step c c' → c_log c `prefix_of` c_log c'.
Proof. induction 1 as [|x y z Hxy _ IH]; [done|]. etrans; [by apply step_log|done]. Qed.

(** When a call that had not begun while the log had [n] batches took effect: a batch at
    a place of the log that comes later, a snapshot after [n] batches or more. *)
Definition took_effect (r0 : Repo) (n : nat) (log : list (list Metrics)) (p : pc) : Prop :=
  match p with
  | WDone b => ∃ j, (n ≤ j)%nat ∧ log !! j = Some b
  | RDone s => ∃ k, (n ≤ k ≤ length log)%nat ∧ s = committed r0 (take k log)
  | _ => True
  end.

Lemma took_effect_step r0 n i c c' : inv r0 c → step c c' → (n ≤ length (c_log c))%nat →
  (∀ p, c_threads c !! i = Some p → took_effect r0 n (c_log c) p) →
  ∀ p, c_threads c' !! i = Some p → took_effect r0 n (c_log c') p.
Proof.
  intros Hinv Hs Hn Hp p Hi.
  assert (∀ q, c_threads c !! i = Some q → took_effect r0 n (c_log c') q) as Hold.
  { intros q Hq. specialize (Hp q Hq). apply step_log in Hs as [ext ->]. destruct q; try done; simpl in *.
    - destruct Hp as (j & ? & Hj). exists j. split; [done|]. by apply lookup_app_l_Some.
    - destruct Hp as (k & ? & ->). exists k. rewrite length_app, take_app_le by lia. split; [lia|done]. }
  destruct Hs; simpl in *; rewrite list_lookup_insert in Hi; destruct (decide _) as [[<- _]|_]; simplify_eq; try done;
    try (by apply Hold); simpl.
  - exists (length log). split; [done|]. by rewrite lookup_app_r, Nat.sub_diag.
  - exists (length log). split; [lia|]. rewrite take_ge by done.
    pose proof (inv_threads _ _ Hinv i0 _ H) as [Hmu ->]. by apply (inv_free _ _ Hinv).
Qed.

Lemma run_took_effect r0 n i c c' : inv r0 c → rtc step c c' → (n ≤ length (c_log c))%nat →
  (∀ p, c_threads c !! i = Some p → took_effect r0 n (c_log c) p) →
  ∀ p, c_threads c' !! i = Some p → took_effect r0 n (c_log c') p.
Proof.
  intros Hinv Hrun. induction Hrun as [c|c1 c2 c3 Hs _ IH]; intros Hn Hp; [done|].
  apply IH; [by eapply inv_step| |by eapply took_effect_step].
  apply step_log, prefix_length in Hs. lia.
Qed.

(** [C9] The repository is linearizable, whatever the interleaving of the goroutines'
    accesses.  Every call takes effect between its beginning and its return: let it not
    have begun in the state [c1] and have returned in [c2].  A batch is then in the log
    behind all the batches of [c1]; a [Snapshot] holds the result of a prefix of the log
    (never part of a batch), and that prefix has all the batches of [c1], hence all that
    had returned before the call began, and none that was committed after it returned.
    When all calls have returned the repository is the result of all batches one after
    the other, so that each counter has received every delta exactly once. *)
Theorem calls_atomic r0 ts c1 c2 :
  snapshot_wf (view r0) → Forall starting ts → rtc step (init r0 ts) c1 → rtc step c1 c2 →
  c_log c1 `prefix_of` c_log c2 ∧
  (∀ i b, c_threads c1 !! i = Some (WStart b) → c_threads c2 !! i = Some (WDone b) →
    ∃ j, (length (c_log c1) ≤ j)%nat ∧ c_log c2 !! j = Some b) ∧
  (∀ i s, c_threads c1 !! i = Some RStart → c_threads c2 !! i = Some (RDone s) →
    ∃ k, (length (c_log c1) ≤ k ≤ length (c_log c2))%nat ∧ s = committed r0 (take k (c_log c2))) ∧
  (Forall (λ p, finished p = true) (c_threads c2) →
    c_log c2 ≡ₚ omap batch_of ts ∧
    view (c_repo c2) = committed r0 (c_log c2) ∧
    ∀ n, counters (c_repo c2) !! n = Counters (committed r0 (omap batch_of ts)) !! n).
Proof.
  intros Hwf Hts Hrun1 Hrun2. pose proof (run_inv _ _ _ Hts Hrun1) as Hinv1.
  assert (rtc step (init r0 ts) c2) as Hrun by by etrans.
  pose proof (run_inv _ _ _ Hts Hrun) as Hinv.
  split; [by apply run_log|]. split; [|split].
  - intros i b Hi Hd. refine (run_took_effect r0 _ i c1 c2 Hinv1 Hrun2 (Nat.le_refl _) _ _ Hd).
    intros p Hp. by rewrite Hi in Hp; injection Hp as <-.
  - intros i s Hi Hd. refine (run_took_effect r0 _ i c1 c2 Hinv1 Hrun2 (Nat.le_refl _) _ _ Hd).
    intros p Hp. by rewrite Hi in Hp; injection Hp as <-.
  - intros Hfin. by apply (all_returned r0 ts c2).
Qed.

(** [C36] Every schedule of finitely many calls is finite and ends with all of
    them returned: from any reachable state each step uses up work, and some step
    is possible until all calls have returned. *)
Theorem calls_terminate r0 ts c :
  Forall starting ts → rtc step (init r0 ts) c →
  (∀ c', step c c' → (work c' < work c)%nat) ∧
  ((∀ c', ¬ step c c') → Forall (λ p, finished p = true) (c_threads c)) ∧
  ∃ c', rtc step c c' ∧ Forall (λ p, finished p = true) (c_threads c').
Proof.
  intros Hts Hrun. split; [auto using step_work|]. split.
  - intros Hstuck. pose proof (run_inv _ _ _ Hts Hrun) as Hinv.
    destruct (progress _ _ Hinv) as [?|[c' Hc']]; [done|by destruct (Hstuck c')].
  - remember (work c) as n eqn:Hn. revert c Hn Hrun.
    induction (lt_wf n) as [n _ IH]. intros c -> Hrun.
    destruct (progress _ _ (run_inv _ _ _ Hts Hrun)) as [?|[c' Hc']]; [by exists c|].
    destruct (IH (work c') (step_work _ _ Hc') c' eq_refl) as (c'' & ? & ?).
    + by eapply rtc_r.
    + exists c''. split; [by eapply rtc_l|done].
Qed.

(** Two increments of one counter and a reader between them. *)
Definition demo_threads : list pc :=
  [WStart [counter_metric "c" 1]; RStart; WStart [counter_metric "c" 2]].

Lemma demo_starting : Forall starting demo_threads.
Proof. by repeat constructor. Qed.

Definition demo_end : Conc :=
  mkConc (mkRepo ∅ {["c" := 3]}) None
    [WDone [counter_metric "c" 1]; RDone (mkSnapshot ∅ {["c" := 2]});
     WDone [counter_metric "c" 2]]
    [[counter_metric "c" 2]; [counter_metric "c" 1]].

(** The first writer (goroutine 2) has returned and the others have not begun. *)
Definition demo_mid : Conc :=
  mkConc (mkRepo ∅ {["c" := 2]}) None
    [WStart [counter_metric "c" 1]; RStart; WDone [counter_metric "c" 2]] [[counter_metric "c" 2]].

Lemma demo_before : rtc step (init New demo_threads) demo_mid.
Proof.
  unfold init, demo_threads, demo_mid.
  eapply rtc_l; [eapply (step_Lock _ _ _ 2); [reflexivity|]|].
  { intros [|[|[|j]]] p [= <-]; reflexivity. }
  eapply rtc_l; [eapply (step_read _ _ _ _ 2); reflexivity|].
  eapply rtc_l; [eapply (step_write _ _ _ _ 2); reflexivity|].
  eapply rtc_l; [eapply (step_Unlock _ _ _ 2); reflexivity|].
  apply rtc_refl.
Qed.

Lemma demo_after : rtc step demo_mid demo_end.
Proof.
  unfold demo_mid, demo_end.
  eapply rtc_l; [eapply (step_RLock _ _ _ 1); reflexivity|].
  eapply rtc_l; [eapply (step_copy_gauges _ _ _ _ 1); reflexivity|].
  eapply rtc_l; [eapply (step_copy_counters _ _ _ _ 1); reflexivity|].
  eapply rtc_l; [eapply (step_RUnlock _ _ _ _ 1); reflexivity|].
  eapply rtc_l; [eapply (step_Lock _ _ _ 0); [reflexivity|]|].
  { intros [|[|[|j]]] p [= <-]; reflexivity. }
  eapply rtc_l; [eapply (step_read _ _ _ _ 0); reflexivity|].
  eapply rtc_l; [eapply (step_write _ _ _ _ 0); reflexivity|].
  eapply rtc_l; [eapply (step_Unlock _ _ _ 0); reflexivity|].
  apply rtc_refl.
Qed.

(** The reader, which began after that writer had returned, has its batch. *)
Lemma calls_atomic_witness : ∃ k, (1 ≤ k ≤ 2)%nat ∧
  mkSnapshot ∅ {["c" := 2]} = committed New (take k (c_log demo_end)).
Proof.
  destruct (calls_atomic New demo_threads demo_mid demo_end) as (_ & _ & H & _);
    [apply map_Forall_empty|apply demo_starting|apply demo_before|apply demo_after|].
  exact (H 1%nat _ eq_refl eq_refl).
Defined.

Lemma calls_terminate_witness :
  ∃ c', rtc step (init New demo_threads) c' ∧ Forall (λ p, finished p = true) (c_threads c').
Proof.
  destruct (calls_terminate New demo_threads (init New demo_threads)) as (_ & _ & H);
    [apply demo_starting|apply rtc_refl|exact H].
Defined.

End MemoryConc.
