(* ===== verification/Agent.v ===== *)
(** * internal/services/agent: reporting to the server

    [BatchPublisher] (sender.go) is a pool of goroutines behind a channel;
    [Service.Run] (agent.go) is the loop that fills it.  Both are one step relation
    over the channel, the workers and the loop, for any publisher; [p_trace] is a
    history of what was handed to whom.  [reportOnce] and its reused buffer are
    functions.  Log output is left out. *)

From S2P Require Import Prelude GoStrings GoInt GoErrors Domain Ports Batches Memory Collector.
Open Scope Z_scope.

Module Agent.
Import Batches.

(** ** The reused buffer of [buildBatch]

    A slice is its backing array and its length; the capacity is the length of
    the array. *)
Record slice : Type := mkSlice { backing : list Metrics; slen : nat }.

Definition contents (s : slice) : list Metrics := take (slen s) (backing s).
Definition capacity (s : slice) : nat := length (backing s).

(** [make([]domain.Metrics, 0, n)] *)
Definition make (n : nat) : slice := mkSlice (replicate n zero_Metrics) 0.

(** [s[:0]] *)
Definition truncate (s : slice) : slice := mkSlice (backing s) 0.

(** [append] of one item: in place while the capacity lasts, else into a larger
    array; how much larger does not matter here. *)
Definition append (s : slice) (m : Metrics) : slice :=
  if bool_decide (slen s < capacity s)%nat
  then mkSlice (<[slen s := m]> (backing s)) (S (slen s))
  else mkSlice (contents s ++ m :: replicate (capacity s) zero_Metrics) (S (slen s)).

(** The batch is also the new [batchBuf]. *)
Definition buildBatch (batchBuf : slice) (g : list (string * float64)) (c : list (string * Z)) : slice :=
  let total := (length g + length c)%nat in
  let buf := if bool_decide (capacity batchBuf < total)%nat then make total else batchBuf in
  let batch := truncate buf in
  let batch := fold_left (λ b kv, append b (gauge_metric kv.1 kv.2)) g batch in
  fold_left (λ b kv, append b (counter_metric kv.1 kv.2)) c batch.

(** On a slice that is not nil. *)
Definition recycleBatch (batch : slice) : slice := truncate batch.

(** ** Sending, with fallback to single requests *)

Section send.
Context {W : Type} `{Publisher W}.

Fixpoint send_singles (ctx : Context) (batch : list Metrics) (w : W) : W :=
  match batch with
  | [] => w
  | m :: batch' => send_singles ctx batch' (SendOne ctx m w).2
  end.

Definition send_batch (ctx : Context) (batch : list Metrics) (w : W) : W :=
  match SendBatch ctx batch w with
  | (Ok _, w') => w'
  | (Err _, w') => send_singles ctx batch w'
  end.

(** [reportOnce], from what the collector returned, with the buffer it leaves. *)
Definition reportOnce (ctx : Context) (g : list (string * float64)) (c : list (string * Z))
    (batchBuf : slice) (w : W) : slice * W :=
  if bool_decide (length g + length c = 0)%nat then (batchBuf, w)
  else
    let batch := buildBatch batchBuf g c in
    (recycleBatch batch, send_batch ctx (contents batch) w).
End send.

(** ** The pool and the loop of [Run] *)

(** A worker: at the receive, about to call [SendBatch], in the loop over single
    requests, or returned. *)
Inductive worker : Type :=
  | Receiving
  | Sending (batch : list Metrics)
  | Singles (todo : list Metrics)
  | Exited.

(** The goroutine of [Run]: in the [select], blocked in [Submit], in the deferred
    [Stop] of the pool, or returned. *)
Inductive run_pc : Type :=
  | Selecting
  | Submitting (batch : list Metrics)
  | Stopping
  | Returned.

Inductive act : Type :=
  | Reporting (g : gmap string float64) (c : gmap string Z)   (* what [Snapshot] returned *)
  | Submitted (batch : list Metrics)
  | Received (batch : list Metrics)
  | SentBatch (batch : list Metrics) (ok : bool)
  | SentOne (m : Metrics) (ok : bool).

Record State (W : Type) : Type := mkState {
  p_jobs : list (list Metrics);
  p_closed : bool;
  p_workers : list worker;
  p_run : run_pc;
  p_done : bool;          (* the context is done *)
  p_world : W;
  p_trace : list act;
}.
Arguments mkState {W} _ _ _ _ _ _ _.
Arguments p_jobs {W} _.
Arguments p_closed {W} _.
Arguments p_workers {W} _.
Arguments p_run {W} _.
Arguments p_done {W} _.
Arguments p_world {W} _.
Arguments p_trace {W} _.

(** [NewBatchPublisher]: the number of workers and the capacity of the channel. *)
Definition workers_of (rate_limit : Z) : nat :=
  Z.to_nat (if bool_decide (rate_limit < 1) then 1 else rate_limit).
Definition buffer_of (rate_limit : Z) : nat := (workers_of rate_limit * 2)%nat.

(** [Run] after [Start] of the collector and the pool. *)
Definition start {W} (rate_limit : Z) (w : W) : State W :=
  mkState [] false (replicate (workers_of rate_limit) Receiving) Selecting false w [].

(** The context of [Run], which the workers send with, before and after it is
    cancelled: done at every instant of a clock that counts from zero. *)
Definition ctx_now (ctx : Context) (d : bool) : Context :=
  if d then mkContext (Some (0, Canceled)) (ctx_client_ip ctx) else ctx.

Section pool.
Context {W : Type} `{Publisher W}.

(** One step of a worker, given the channel. *)
Inductive worker_step (ctx : Context) : worker → list (list Metrics) → bool → W →
    worker → list (list Metrics) → W → list act → Prop :=
  | worker_empty js cl w : worker_step ctx Receiving ([] :: js) cl w Receiving js w [Received []]
  | worker_receive b js cl w : b ≠ [] →
      worker_step ctx Receiving (b :: js) cl w (Sending b) js w [Received b]
  | worker_exit w : worker_step ctx Receiving [] true w Exited [] w []
  | worker_sent b js cl w w' : SendBatch ctx b w = (Ok tt, w') →
      worker_step ctx (Sending b) js cl w Receiving js w' [SentBatch b true]
  | worker_failed b js cl w e w' : SendBatch ctx b w = (Err e, w') →
      worker_step ctx (Sending b) js cl w (Singles b) js w' [SentBatch b false]
  | worker_one m todo js cl w r w' : SendOne ctx m w = (r, w') →
      worker_step ctx (Singles (m :: todo)) js cl w (Singles todo) js w' [SentOne m (is_ok r)]
  | worker_done js cl w : worker_step ctx (Singles []) js cl w Receiving js w [].

Context (ctx : Context) (rate_limit : Z).

(** Steps of the loop of [Run].  [run_tick] is a tick of the report interval:
    the collector returned the maps [g] and [c]. *)
Inductive run_step : run_pc → list (list Metrics) → bool → bool → list worker →
    run_pc → list (list Metrics) → bool → list act → Prop :=
  | run_tick_empty js cl d ws g c : (size g + size c = 0)%nat →
      run_step Selecting js cl d ws Selecting js cl [Reporting g c]
  | run_tick js cl d ws g c batch : (size g + size c ≠ 0)%nat → batch_of_maps g c batch →
      run_step Selecting js cl d ws (Submitting batch) js cl [Reporting g c]
  | run_submit js d ws batch : (length js < buffer_of rate_limit)%nat →
      run_step (Submitting batch) js false d ws Selecting (js ++ [batch]) false [Submitted batch]
  | run_stop js ws : run_step Selecting js false true ws Stopping js true []
  | run_return js cl d ws : Forall (eq Exited) ws →
      run_step Stopping js cl d ws Returned js cl [].

Inductive step : State W → State W → Prop :=
  | step_worker js cl ws pc d w tr i p p' js' w' a :
      ws !! i = Some p → worker_step (ctx_now ctx d) p js cl w p' js' w' a →
      step (mkState js cl ws pc d w tr) (mkState js' cl (<[i := p']> ws) pc d w' (tr ++ a))
  | step_run js cl ws pc d w tr pc' js' cl' a :
      run_step pc js cl d ws pc' js' cl' a →
      step (mkState js cl ws pc d w tr) (mkState js' cl' ws pc' d w (tr ++ a))
  | step_cancel js cl ws pc d w tr :
      step (mkState js cl ws pc d w tr) (mkState js cl ws pc true w tr)
  (* the server and the network change on their own *)
  | step_env js cl ws pc d w w' tr :
      step (mkState js cl ws pc d w tr) (mkState js cl ws pc d w' tr).
End pool.

(** ** What a history says *)

Definition submitted (tr : list act) : list (list Metrics) :=
  omap (λ a, match a with Submitted b => Some b | _ => None end) tr.
Definition received (tr : list act) : list (list Metrics) :=
  omap (λ a, match a with Received b => Some b | _ => None end) tr.
Definition sent (tr : list act) : list (list Metrics) :=
  omap (λ a, match a with SentBatch b _ => Some b | _ => None end) tr.
Definition failed (tr : list act) : list (list Metrics) :=
  omap (λ a, match a with SentBatch b false => Some b | _ => None end) tr.
Definition succeeded (tr : list act) : list (list Metrics) :=
  omap (λ a, match a with SentBatch b true => Some b | _ => None end) tr.
Definition singles (tr : list act) : list Metrics :=
  omap (λ a, match a with SentOne m _ => Some m | _ => None end) tr.

Definition sending (ws : list worker) : list (list Metrics) :=
  omap (λ p, match p with Sending b => Some b | _ => None end) ws.
Definition single_left (ws : list worker) : list (list Metrics) :=
  omap (λ p, match p with Singles todo => Some todo | _ => None end) ws.

(** ** The buffer *)

Lemma append_contents s m :
  (slen s ≤ capacity s)%nat →
  contents (append s m) = contents s ++ [m] ∧ (slen (append s m) ≤ capacity (append s m))%nat ∧
  slen (append s m) = S (slen s) ∧ (capacity s ≤ capacity (append s m))%nat ∧
  ((slen s < capacity s)%nat → capacity (append s m) = capacity s).
Proof.
  intros Hs. unfold append, contents, capacity in *. case_bool_decide as Hlt; simpl.
  - rewrite length_insert. split; [|split; [lia|done]].
    cbn [slen backing]. rewrite (take_S_r _ _ m) by (by apply list_lookup_insert_eq).
    by rewrite take_insert_ge by lia.
  - rewrite length_app, length_take. simpl. rewrite length_replicate.
    split; [|split; [lia|split; [done|split; [lia|done]]]].
    rewrite take_app. rewrite length_take, take_take.
    replace (S (slen s) `min` slen s)%nat with (slen s) by lia.
    f_equal. by replace (S (slen s) - slen s `min` length (backing s))%nat with 1%nat by lia.
Qed.

Lemma append_all {A} (f : A → Metrics) (l : list A) s :
  (slen s ≤ capacity s)%nat →
  let s' := fold_left (λ b x, append b (f x)) l s in
  contents s' = contents s ++ map f l ∧ slen s' = (slen s + length l)%nat ∧
  (slen s' ≤ capacity s')%nat ∧
  ((slen s + length l ≤ capacity s)%nat → capacity s' = capacity s).
Proof.
  revert s. induction l as [|x l IH]; intros s Hs; simpl.
  - rewrite app_nil_r. auto with lia.
  - destruct (append_contents s (f x) Hs) as (Hc & Hle & Hl & _ & Hk).
    destruct (IH (append s (f x)) Hle) as (Hc' & Hl' & Hle' & Hk').
    rewrite Hc', Hc, <- app_assoc. rewrite Hl', Hl. split; [done|split; [lia|split; [lia|]]].
    intros Hcap. rewrite Hk' by (rewrite Hk by lia; lia). apply Hk. lia.
Qed.

(** [buildBatch] makes the same batch whatever the buffer held before, and
    allocates only when the buffer is too small: recycling it leaks no old item
    and loses no new one. *)
Theorem buildBatch_spec buf g c :
  let batch := buildBatch buf g c in
  contents batch = build g c ∧
  slen batch = (length g + length c)%nat ∧
  capacity batch = Nat.max (capacity buf) (length g + length c).
Proof.
  unfold buildBatch, build. cbv zeta.
  set (b0 := truncate _). assert (slen b0 = 0%nat ∧ capacity b0 = Nat.max (capacity buf) (length g + length c))
    as [Hs Hcap].
  { subst b0. case_bool_decide; unfold truncate, make, capacity in *; simpl;
      rewrite ?length_replicate; lia. }
  destruct (append_all (λ kv, gauge_metric kv.1 kv.2) g b0) as (Hc1 & Hl1 & Hle1 & Hk1); [lia|].
  set (b1 := fold_left _ g b0) in *.
  destruct (append_all (λ kv, counter_metric kv.1 kv.2) c b1) as (Hc2 & Hl2 & _ & Hk2); [lia|].
  rewrite Hc2, Hc1, Hl2, Hl1, Hk2, Hk1, Hs by lia. unfold contents. rewrite Hs. auto.
Qed.

(** ** Lemmas on the pool *)

Section spec.
Context {W : Type} `{Publisher W}.
Context (ctx : Context) (rate_limit : Z).
Implicit Types s : State W.
#[local] Abbreviation step := (step (W := W) ctx rate_limit).

Definition nonempty (b : list Metrics) : bool := negb (bool_decide (b = [])).

Record pool_inv s : Prop := {
  inv_order : submitted (p_trace s) = received (p_trace s) ++ p_jobs s;
  inv_nonempty : Forall (λ b, b ≠ []) (submitted (p_trace s));
  inv_sent : filter nonempty (received (p_trace s)) ≡ₚ sent (p_trace s) ++ sending (p_workers s);
  inv_singles : concat (failed (p_trace s)) ≡ₚ
    singles (p_trace s) ++ concat (single_left (p_workers s));
  inv_exited : Exited ∈ p_workers s → p_closed s = true ∧ p_jobs s = [];
  inv_workers : length (p_workers s) = workers_of rate_limit;
  inv_jobs : (length (p_jobs s) ≤ buffer_of rate_limit)%nat;
  inv_run : match p_run s with
            | Selecting => p_closed s = false
            | Submitting b => p_closed s = false ∧ b ≠ []
            | Stopping => p_closed s = true
            | Returned => p_closed s = true ∧ Forall (eq Exited) (p_workers s)
            end;
}.

Lemma workers_of_pos : (1 ≤ workers_of rate_limit)%nat.
Proof. unfold workers_of. case_bool_decide; lia. Qed.

Lemma sent_split tr : sent tr ≡ₚ succeeded tr ++ failed tr.
Proof.
  induction tr as [|[| | |b []|] tr IH]; unfold sent, succeeded, failed in *; csimpl; rewrite ?IH; try done.
  by rewrite Permutation_middle.
Qed.

Lemma filter_one b : b ≠ [] → filter nonempty [b] = [b].
Proof.
  intros Hb. rewrite filter_cons_True; [done|]. unfold nonempty. by rewrite bool_decide_false.
Qed.

(** The history and the workers, when one worker changes. *)
Lemma worker_step_inv k p js cl w p' js' w' a ws i tr :
  ws !! i = Some p → worker_step k p js cl w p' js' w' a →
  received tr ++ js = received (tr ++ a) ++ js' ∧ submitted (tr ++ a) = submitted tr ∧
  (filter nonempty (received tr) ≡ₚ sent tr ++ sending ws →
   filter nonempty (received (tr ++ a)) ≡ₚ sent (tr ++ a) ++ sending (<[i:=p']> ws)) ∧
  (concat (failed tr) ≡ₚ singles tr ++ concat (single_left ws) →
   concat (failed (tr ++ a)) ≡ₚ singles (tr ++ a) ++ concat (single_left (<[i:=p']> ws))).
Proof.
  intros Hi Hs. apply list_elem_of_split_length in Hi as (l1 & l2 & -> & ->).
  rewrite insert_app_r_alt, Nat.sub_diag by lia. simpl.
  unfold received, submitted, sent, sending, failed, singles, single_left.
  destruct Hs as [| b js cl w Hb| | | | |]; rewrite !omap_app; csimpl;
    rewrite ?filter_app, ?concat_app, ?app_nil_r; csimpl; rewrite ?app_nil_r, <- ?app_assoc; try done.
  - repeat split; try done. intros ->. rewrite filter_one by done. solve_Permutation.
  - repeat split; try done. intros ->. by rewrite <- Permutation_middle.
  - repeat split; try done.
    + intros ->. by rewrite <- Permutation_middle.
    + intros ->. solve_Permutation.
  - repeat split; try done. intros ->. simpl. solve_Permutation.
Qed.

Lemma worker_exited k p js cl w p' js' w' a (ws : list worker) i :
  ws !! i = Some p → worker_step k p js cl w p' js' w' a →
  (Exited ∈ ws → cl = true ∧ js = []) → Exited ∈ <[i:=p']> ws → cl = true ∧ js' = [].
Proof.
  intros Hi Hs Hex Hin. apply list_elem_of_lookup in Hin as [j Hj].
  rewrite list_lookup_insert in Hj. destruct (decide _) as [[<- _]|Hne].
  - inversion Hs; by simplify_eq.
  - apply list_elem_of_lookup_2 in Hj. destruct (Hex Hj) as [-> ->]. inversion Hs; by simplify_eq.
Qed.

Lemma worker_jobs k p js cl w p' js' w' a :
  worker_step k p js cl w p' js' w' a → (length js' ≤ length js)%nat.
Proof. destruct 1; simpl; lia. Qed.

Lemma pool_inv_step s s' : pool_inv s → step s s' → pool_inv s'.
Proof.
  intros [Ho Hn Hs Hg Hx Hw Hj Hr] Hstep.
  destruct Hstep as [js cl ws pc d w tr i p p' js' w' a Hi Hws|js cl ws pc d w tr pc' js' cl' a Hrs| |];
    simpl in *; [| |by constructor..].
  - destruct (worker_step_inv _ _ _ _ _ _ _ _ _ _ _ tr Hi Hws) as (Hrec & Hsub & Hsent & Hsing).
    constructor; simpl; [congruence|congruence|auto|auto|by eapply worker_exited|by rewrite length_insert| |].
    + apply worker_jobs in Hws. lia.
    + destruct pc; [done..|]. destruct Hr as [-> Hall]. exfalso.
      pose proof (Forall_lookup_1 _ _ _ _ Hall Hi) as <-. by inversion Hws.
  - unfold submitted, received, sent, failed, singles in *.
    destruct Hrs as [|js cl d ws g c batch Hsz Hb|js d ws batch Hlen| |]; constructor; simpl;
      unfold submitted, received, sent, failed, singles; rewrite ?omap_app, ?app_nil_r; csimpl;
      rewrite ?app_nil_r; try done; try (by apply Hr).
    + split; [done|]. intros ->. by apply batch_of_maps_length in Hb.
    + by rewrite Ho, <- app_assoc.
    + apply Forall_app. split; [done|]. constructor; [by apply Hr|done].
    + intros Hin. by destruct (Hx Hin).
    + rewrite length_app. simpl. lia.
    + intros Hin. by destruct (Hx Hin).
Qed.

Lemma start_inv w : pool_inv (start rate_limit w).
Proof.
  constructor; simpl; try done.
  - by induction (workers_of rate_limit).
  - by induction (workers_of rate_limit).
  - intros Hin. by apply elem_of_replicate in Hin as [? _].
  - by rewrite length_replicate.
  - lia.
Qed.

Lemma reachable_inv w s : rtc step (start rate_limit w) s → pool_inv s.
Proof. intros Hr. eapply rtc_invariant; eauto using pool_inv_step, start_inv. Qed.

(** ** What the agent promises *)

Lemma omap_exited {A} (f : worker → option A) ws :
  f Exited = None → Forall (eq Exited) ws → omap f ws = [].
Proof. intros Hf Hall. induction Hall as [|p ws <- _ IH]; csimpl; [done|]. by rewrite Hf. Qed.

Lemma filter_nonempty l : Forall (λ b, b ≠ []) l → filter nonempty l = l.
Proof.
  induction 1 as [|b l Hb _ IH]; [done|]. rewrite filter_cons_True, IH; [done|].
  unfold nonempty. by rewrite bool_decide_false.
Qed.

Lemma drained s : pool_inv s → p_run s = Returned →
  p_jobs s = [] ∧ sent (p_trace s) ≡ₚ submitted (p_trace s) ∧
  singles (p_trace s) ≡ₚ concat (failed (p_trace s)).
Proof.
  intros [Ho Hn Hs Hg Hx Hw _ Hrun] Hret.
  rewrite Hret in Hrun. destruct Hrun as [_ Hall].
  assert (p_jobs s = []) as Hj.
  { apply Hx. pose proof workers_of_pos. destruct Hall as [|? ? <-]; [simpl in *; lia|left]. }
  rewrite Hj, app_nil_r in Ho.
  unfold sending in Hs. unfold single_left in Hg. rewrite !omap_exited, ?app_nil_r in * by done.
  split; [done|]. split; [|done]. rewrite <- Hs, <- Ho. by rewrite filter_nonempty.
Qed.

(** The metrics of a failed batch are sent in their order: all of them have been, or
    a worker has [todo] of them left. *)
Definition in_order tr (ws : list worker) : Prop := ∀ b, b ∈ failed tr →
  b `sublist_of` singles tr ∨
  ∃ i dn todo, ws !! i = Some (Singles todo) ∧ b = dn ++ todo ∧ dn `sublist_of` singles tr.

Lemma worker_in_order k p js cl w p' js' w' a (ws : list worker) i tr :
  ws !! i = Some p → worker_step k p js cl w p' js' w' a →
  in_order tr ws → in_order (tr ++ a) (<[i:=p']> ws).
Proof.
  intros Hi Hs Ho b. pose proof (lookup_lt_Some _ _ _ Hi) as Hlt.
  assert (singles tr `sublist_of` singles (tr ++ a)) as Hmore
    by (unfold singles; rewrite omap_app; apply sublist_inserts_r; done).
  assert (∀ x, x ∈ failed tr → (∀ todo, p ≠ Singles todo) → x `sublist_of` singles (tr ++ a) ∨
    ∃ j dn todo, <[i:=p']> ws !! j = Some (Singles todo) ∧ x = dn ++ todo ∧ dn `sublist_of` singles (tr ++ a)) as Hkeep.
  { intros x Hx Hp. destruct (Ho x Hx) as [?|(j & dn & todo & Hj & -> & Hd)]; [left; by etrans|right].
    exists j, dn, todo. rewrite list_lookup_insert_ne by (intros ->; naive_solver).
    split; [done|]. split; [done|by etrans]. }
  unfold failed. rewrite omap_app, elem_of_app. intros [Hb|Hb].
  - destruct Hs as [| | | | |m todo js cl w r w' _|js cl w]; try by apply Hkeep.
    + destruct (Ho b Hb) as [?|(j & dn & rest & Hj & -> & Hd)]; [left; by etrans|right].
      destruct (decide (j = i)) as [->|Hne].
      * rewrite Hi in Hj. injection Hj as <-. exists i, (dn ++ [m]), todo.
        rewrite list_lookup_insert_eq, <- app_assoc by done. split; [done|]. split; [done|].
        unfold singles. rewrite omap_app. by apply sublist_app.
      * exists j, dn, rest. rewrite list_lookup_insert_ne by done. split; [done|]. split; [done|by etrans].
    + rewrite app_nil_r. destruct (Ho b Hb) as [?|(j & dn & rest & Hj & -> & Hd)]; [by left|].
      destruct (decide (j = i)) as [->|Hne].
      * rewrite Hi in Hj. injection Hj as <-. left. by rewrite app_nil_r.
      * right. exists j, dn, rest. by rewrite list_lookup_insert_ne.
  - destruct Hs as [| | | |b0 js cl w e w' _| |]; csimpl in Hb; try by apply elem_of_nil in Hb.
    apply list_elem_of_singleton in Hb as ->. right. exists i, [], b0.
    rewrite list_lookup_insert_eq by done. split; [done|]. split; [done|]. apply sublist_nil_l.
Qed.

Lemma in_order_step s s' : step s s' → in_order (p_trace s) (p_workers s) → in_order (p_trace s') (p_workers s').
Proof.
  intros Hs Ho. destruct Hs as [js cl ws pc d w tr i p p' js' w' a Hi Hws|js cl ws pc d w tr pc' js' cl' a Hrs| |];
    simpl in *; [by eapply worker_in_order| |done..].
  assert (failed a = [] ∧ singles a = []) as [Hf Hg] by by destruct Hrs.
  unfold in_order, failed, singles in *. by rewrite !omap_app, Hf, Hg, !app_nil_r.
Qed.

Lemma reachable_in_order w s : rtc step (start rate_limit w) s → in_order (p_trace s) (p_workers s).
Proof.
  intros Hr. apply (rtc_invariant step (λ s, in_order (p_trace s) (p_workers s))) in Hr; [done| |].
  - intros x y Hx Hs. by eapply in_order_step.
  - by intros b Hb%elem_of_nil.
Qed.

(** [C11] When [Run] has returned, every batch it enqueued was handed to
    [SendBatch] exactly once, by some worker, and every metric of a batch that
    failed was handed to [SendOne] exactly once, in the order of its batch: shutting
    down drains the queue and duplicates nothing. *)
Theorem agent_drains w s :
  rtc step (start rate_limit w) s → p_run s = Returned →
  p_jobs s = [] ∧ sent (p_trace s) ≡ₚ submitted (p_trace s) ∧
  singles (p_trace s) ≡ₚ concat (failed (p_trace s)) ∧
  Forall (λ b, b `sublist_of` singles (p_trace s)) (failed (p_trace s)).
Proof.
  intros Hr Hret. pose proof (reachable_inv _ _ Hr) as Hp.
  destruct (drained _ Hp Hret) as (? & ? & ?). split_and!; [done..|].
  apply Forall_forall. intros b Hb. destruct (reachable_in_order _ _ Hr b Hb) as [?|(i & dn & todo & Hi & _)]; [done|].
  pose proof (inv_run _ Hp) as Hrun. rewrite Hret in Hrun. destruct Hrun as [_ Hall].
  by pose proof (Forall_lookup_1 _ _ _ _ Hall Hi).
Qed.

Lemma in_flight_length (ws : list worker) :
  (length (sending ws) + length (single_left ws) ≤ length ws)%nat.
Proof. induction ws as [|[]]; unfold sending, single_left in *; csimpl; lia. Qed.

(** At no time are more batches in flight than the rate limit allows (one,
    when it is not positive), nor more waiting than twice that; and what the
    workers took, together with what waits, is what was enqueued, in order. *)
Theorem agent_bounded w s :
  rtc step (start rate_limit w) s →
  (length (sending (p_workers s)) + length (single_left (p_workers s)) ≤ workers_of rate_limit)%nat ∧
  (length (p_jobs s) ≤ 2 * workers_of rate_limit)%nat ∧
  submitted (p_trace s) = received (p_trace s) ++ p_jobs s.
Proof.
  intros Hr. destruct (reachable_inv _ _ Hr) as [Ho _ _ _ _ Hw Hj _].
  pose proof (in_flight_length (p_workers s)). unfold buffer_of in Hj.
  split; [lia|]. split; [lia|done].
Qed.

(** ** Shutdown terminates *)

Definition worker_work (p : worker) : nat :=
  match p with
  | Receiving => 1
  | Sending b => length b + 3
  | Singles todo => length todo + 2
  | Exited => 0
  end.

Definition pool_work (js : list (list Metrics)) (ws : list worker) : nat :=
  sum_list_with (λ b, length b + 4)%nat js + sum_list_with worker_work ws.

Lemma worker_step_work k p js cl w p' js' w' a (ws : list worker) i :
  ws !! i = Some p → worker_step k p js cl w p' js' w' a →
  (pool_work js' (<[i:=p']> ws) < pool_work js ws)%nat.
Proof.
  intros Hi Hs. apply list_elem_of_split_length in Hi as (l1 & l2 & -> & ->).
  rewrite insert_app_r_alt, Nat.sub_diag by lia. unfold pool_work.
  rewrite !sum_list_with_app. simpl. destruct Hs; simpl; lia.
Qed.

(** A worker that has not returned can go on, unless it waits on an open and
    empty channel. *)
Lemma goroutine_progress k p js cl w : p ≠ Exited → (js ≠ [] ∨ cl = true ∨ p ≠ Receiving) →
  ∃ p' js' w' a, worker_step k p js cl w p' js' w' a.
Proof.
  intros Hp Hgo. destruct p as [|b|[|m todo]|]; [| | | |done].
  - destruct js as [|[|m b] js].
    + destruct Hgo as [?|[->|?]]; [done| |done]. eexists _, _, _, _. apply worker_exit.
    + eexists _, _, _, _. apply worker_empty.
    + eexists _, _, _, _. by apply worker_receive.
  - destruct (SendBatch k b w) as [[[]|e] w'] eqn:Hb; eexists _, _, _, _;
      [by apply worker_sent|by eapply worker_failed].
  - eexists _, _, _, _. apply worker_done.
  - destruct (SendOne k m w) as [r w'] eqn:Hb. eexists _, _, _, _. by apply worker_one.
Qed.

Lemma all_exited_dec (ws : list worker) : Forall (eq Exited) ws ∨ ∃ i p, ws !! i = Some p ∧ p ≠ Exited.
Proof.
  induction ws as [|p ws [IH|(i & q & Hi & Hq)]]; [by left| |right; by exists (S i), q].
  destruct p; [right; by exists 0%nat, Receiving|right; by eexists 0%nat, _|
    right; by eexists 0%nat, _|left; by constructor].
Qed.

(** Some step lowers the work left, or the loop can go on. *)
Lemma pool_drain js cl (ws : list worker) pc d w tr :
  (js ≠ [] ∨ cl = true) →
  (∃ i p, ws !! i = Some p ∧ p ≠ Exited) →
  ∃ js' ws' w' tr', step (mkState js cl ws pc d w tr) (mkState js' cl ws' pc d w' tr') ∧
    (pool_work js' ws' < pool_work js ws)%nat.
Proof.
  intros Hgo (i & p & Hi & Hp). destruct (goroutine_progress (ctx_now ctx d) p js cl w Hp) as (p' & js' & w' & a & Hs).
  { destruct Hgo; auto. }
  eexists _, _, _, _. split; [by eapply step_worker|]. by eapply worker_step_work.
Qed.

#[local] Abbreviation returns s := (∃ s', rtc step s s' ∧ p_run s' = Returned).

Lemma returns_step s s' : step s s' → returns s' → returns s.
Proof. intros Hs (s'' & Hr & ?). exists s''. split; [by eapply rtc_l|done]. Qed.

(** Workers run until the loop can go on, which is when [next] holds. *)
Lemma drain_until (next : list (list Metrics) → list worker → Prop) pc cl d tr w js ws :
  (∀ js ws w tr, pool_inv (mkState js cl ws pc d w tr) → next js ws →
    returns (mkState js cl ws pc d w tr)) →
  (∀ js ws w tr, pool_inv (mkState js cl ws pc d w tr) → next js ws ∨
    ((js ≠ [] ∨ cl = true) ∧ ∃ i p, ws !! i = Some p ∧ p ≠ Exited)) →
  pool_inv (mkState js cl ws pc d w tr) → returns (mkState js cl ws pc d w tr).
Proof.
  intros Hnext Hdec. remember (pool_work js ws) as n eqn:Hn. revert js ws w tr Hn.
  induction (lt_wf n) as [n _ IH]. intros js ws w tr -> Hinv.
  destruct (Hdec _ _ _ _ Hinv) as [?|[Hgo Hex]]; [auto|].
  destruct (pool_drain js cl ws pc d w tr Hgo Hex) as (js' & ws' & w' & tr' & Hs & Hlt).
  eapply returns_step; [done|]. eapply IH; [done..|]. by eapply pool_inv_step.
Qed.

Lemma stopping_returns js ws d w tr :
  pool_inv (mkState js true ws Stopping d w tr) → returns (mkState js true ws Stopping d w tr).
Proof.
  apply (drain_until (λ _ ws, Forall (eq Exited) ws)).
  - intros. eexists. split; [apply rtc_once, step_run, run_return; done|done].
  - intros js' ws' w' tr' _. destruct (all_exited_dec ws'); auto.
Qed.

Lemma selecting_returns js ws w tr :
  pool_inv (mkState js false ws Selecting true w tr) →
  returns (mkState js false ws Selecting true w tr).
Proof.
  intros Hinv. assert (step (mkState js false ws Selecting true w tr)
    (mkState js true ws Stopping true w (tr ++ []))) as Hs by apply step_run, run_stop.
  eapply returns_step; [exact Hs|]. apply stopping_returns. by eapply pool_inv_step.
Qed.

Lemma submitting_returns js ws batch w tr :
  pool_inv (mkState js false ws (Submitting batch) true w tr) →
  returns (mkState js false ws (Submitting batch) true w tr).
Proof.
  apply (drain_until (λ js _, (length js < buffer_of rate_limit)%nat)).
  - intros js' ws' w' tr' Hinv Hlen.
    assert (step (mkState js' false ws' (Submitting batch) true w' tr')
      (mkState (js' ++ [batch]) false ws' Selecting true w' (tr' ++ [Submitted batch]))) as Hs
      by by apply step_run, run_submit.
    eapply returns_step; [exact Hs|]. apply selecting_returns. by eapply pool_inv_step.
  - intros js' ws' w' tr' Hinv. pose proof workers_of_pos.
    destruct (decide (length js' < buffer_of rate_limit)%nat) as [?|Hfull]; [by left|right].
    split; [left; intros ->; simpl in Hfull; unfold buffer_of in Hfull; lia|].
    destruct (all_exited_dec ws') as [Hall|?]; [|done].
    pose proof (inv_workers _ Hinv) as Hw. simpl in Hw.
    destruct Hall as [|p ws'' <-]; [simpl in Hw; lia|].
    destruct (inv_exited _ Hinv) as [? _]; [left|done].
Qed.

(** Once the context is done, [Run] can return from wherever it is, even
    blocked on a full queue: the workers drain the queue and return, each of their
    steps using up work, and then the loop does. *)
Theorem agent_stops w s :
  rtc step (start rate_limit w) s → p_done s = true →
  (∃ s', rtc step s s' ∧ p_run s' = Returned) ∧
  (∀ p js' p' w' w'' a i, p_workers s !! i = Some p →
    worker_step (ctx_now ctx true) p (p_jobs s) (p_closed s) w' p' js' w'' a →
    (pool_work js' (<[i := p']> (p_workers s)) < pool_work (p_jobs s) (p_workers s))%nat).
Proof.
  intros Hr Hd. apply reachable_inv in Hr as Hinv. split.
  - destruct s as [js cl ws pc d w' tr]. simpl in Hd. subst d.
    pose proof (inv_run _ Hinv) as Hpc. simpl in Hpc. destruct pc as [|b| |].
    + subst cl. by apply selecting_returns.
    + destruct Hpc as [-> _]. by apply submitting_returns.
    + subst cl. by apply stopping_returns.
    + eexists. by split; [apply rtc_refl|].
  - intros *. apply worker_step_work.
Qed.
End spec.

(** ** Counters at the server *)

(** The collector's counter is a running total, and each report sends the
    whole of it as the [Delta] of [PollCount], which the server adds to what it
    has: after reports at the totals [t1], [t2], ... the server shows their sum,
    not the number of polls. *)
Theorem reports_accumulate reports ts :
  Forall2 (λ batch t, ∃ g c, batch_of_maps g c batch ∧ c !! Collector.MPollCount = Some t) reports ts →
  ts ≠ [] →
  let r := fold_left (λ r batch, (Memory.UpdateMany Background batch r).2) reports Memory.New in
  Memory.counters r !! Collector.MPollCount = Some (wrap64 (foldr Z.add 0 ts)).
Proof.
  intros Hf Hts. cbv zeta.
  assert (∀ r, Memory.view (fold_left (λ r batch, (Memory.UpdateMany Background batch r).2) reports r) =
    put_all put (concat reports) (Memory.view r)) as Hv.
  { clear. induction reports as [|b reports IH]; intros r; simpl; [done|].
    rewrite IH, put_all_app. simpl. by rewrite Memory.view_UpdateMany. }
  assert (deltas_of Collector.MPollCount (concat reports) = ts) as Hd.
  { clear Hts Hv. induction Hf as [|b t reports ts (g & c & Hb & Ht) _ IH]; [done|]. simpl.
    rewrite deltas_of_app, IH. by rewrite (deltas_of_report _ _ _ _ Hb), Ht. }
  pose proof (f_equal Counters (Hv Memory.New)) as Hc.
  apply (f_equal (lookup Collector.MPollCount)) in Hc. etrans; [exact Hc|].
  rewrite put_all_counter by apply map_Forall_empty. rewrite Hd. by destruct ts.
Qed.

(** ** Runs *)

(** A server that refuses batches. *)
#[local] Instance demo_publisher : Publisher (list Metrics) := {
  SendBatch := λ _ b w, (Err (Errorf "refused"), w);
  SendOne := λ _ m w, (Ok tt, w ++ [m]);
}.

Definition demo_metric : Metrics := counter_metric Collector.MPollCount 3.

Definition demo_running : State (list Metrics) :=
  mkState [[demo_metric]] false [Receiving] Selecting true [] [Reporting ∅ {[Collector.MPollCount := 3]}; Submitted [demo_metric]].

Definition demo_returned : State (list Metrics) :=
  mkState [] true [Exited] Returned true [demo_metric]
    [Reporting ∅ {[Collector.MPollCount := 3]}; Submitted [demo_metric]; Received [demo_metric]; SentBatch [demo_metric] false;
     SentOne demo_metric true].

Lemma demo_batch_of_maps : batch_of_maps ∅ {[Collector.MPollCount := 3]} [demo_metric].
Proof.
  exists [], [(Collector.MPollCount, 3)]. split; [by rewrite map_to_list_empty|].
  split; [by rewrite map_to_list_singleton|done].
Qed.

Lemma demo_running_reachable : rtc (step Background 1) (start 1 []) demo_running.
Proof.
  eapply rtc_l; [apply step_run; eapply run_tick; [|apply demo_batch_of_maps]; by vm_compute|].
  eapply rtc_l; [apply step_run, run_submit; vm_compute; lia|].
  apply rtc_once. apply step_cancel.
Qed.

Lemma demo_returned_reachable : rtc (step Background 1) (start 1 []) demo_returned.
Proof.
  etrans; [apply demo_running_reachable|].
  eapply rtc_l; [eapply (step_worker _ _ _ _ _ _ _ _ _ 0); [done|by apply worker_receive]|].
  eapply rtc_l; [eapply (step_worker _ _ _ _ _ _ _ _ _ 0); [done|by eapply worker_failed]|].
  eapply rtc_l; [eapply (step_worker _ _ _ _ _ _ _ _ _ 0); [done|by eapply worker_one]|].
  eapply rtc_l; [eapply (step_worker _ _ _ _ _ _ _ _ _ 0); [done|by eapply worker_done]|].
  eapply rtc_l; [apply step_run, run_stop|].
  eapply rtc_l; [eapply (step_worker _ _ _ _ _ _ _ _ _ 0); [done|by eapply worker_exit]|].
  apply rtc_once. apply (step_run Background 1 [] true [Exited] Stopping true [demo_metric]
    (p_trace demo_returned) Returned [] true []). apply run_return. by constructor.
Qed.

Lemma agent_drains_witness : singles (p_trace demo_returned) ≡ₚ concat (failed (p_trace demo_returned)).
Proof. apply (agent_drains _ _ _ _ demo_returned_reachable eq_refl). Defined.

Lemma agent_bounded_witness : (length (p_jobs demo_running) ≤ 2 * workers_of 1)%nat.
Proof. apply (agent_bounded _ _ _ _ demo_running_reachable). Defined.

Lemma agent_stops_witness : ∃ s', rtc (step Background 1) demo_running s' ∧ p_run s' = Returned.
Proof. apply (agent_stops _ _ _ _ demo_running_reachable eq_refl). Defined.

(** Three polls before each of two reports: the server counts nine. *)
Lemma reports_accumulate_witness :
  Memory.counters (fold_left (λ r batch, (Memory.UpdateMany Background batch r).2)
    [[counter_metric Collector.MPollCount 3]; [counter_metric Collector.MPollCount 6]] Memory.New) !! Collector.MPollCount = Some 9.
Proof.
  assert (∀ t, batch_of_maps ∅ {[Collector.MPollCount := t]} [counter_metric Collector.MPollCount t]) as Hb.
  { intros t. exists [], [(Collector.MPollCount, t)]. split; [by rewrite map_to_list_empty|].
    split; [by rewrite map_to_list_singleton|done]. }
  apply (reports_accumulate [[counter_metric Collector.MPollCount 3]; [counter_metric Collector.MPollCount 6]] [3; 6]).
  - constructor; [|constructor; [|constructor]]; eexists ∅, {[Collector.MPollCount := _]};
      (split; [apply Hb|apply lookup_singleton_eq]).
  - discriminate.
Defined.

End Agent.
