(* ===== verification/Observer.v ===== *)
(** * pkg/observer and internal/services/audit: event fan-out

    A [Subject] holds the registered observers and the error handler.
    Observers are named by values of a type [Obs] and the world [W] gives
    their behaviour ([notify], [handle_error]): an observer may change
    anything in the world, the subject's own registrations included, as Go code
    behind the interface may. *)

From S2P Require Import Prelude GoStrings GoInt GoErrors.
Open Scope Z_scope.

Module Observer.
Section subject.
Context {Obs Hnd : Type}.

(** [None] is a nil interface value. *)
Record Subject : Type := mkSubject {
  observers : list (option Obs);
  onError : option Hnd;
}.

Definition NewSubject (obs : list (option Obs)) : Subject := mkSubject obs None.

(** [Attach] and [SetErrorHandler] do nothing on a nil receiver. *)
Definition Attach (s : option Subject) (obs : list (option Obs)) : option Subject :=
  match s with
  | None => None
  | Some s =>
      if decide (length obs = 0%nat) then Some s
      else Some (mkSubject (observers s ++ obs) (onError s))
  end.

Definition SetErrorHandler (s : option Subject) (fn : option Hnd) : option Subject :=
  match s with
  | None => None
  | Some s => Some (mkSubject (observers s) fn)
  end.

End subject.
Arguments Subject : clear implicits.

Section publish.
Context {W T Obs Hnd : Type}.
Context (notify : Obs → Context → T → io W error unit).
Context (handle_error : Hnd → error → W → W).
(** The subject lives in the world, where observers can reach it. *)
Context (get_subject : W → option (Subject Obs Hnd)).

(** The loop of [Publish] over the copied slice. *)
Fixpoint deliver (obs : list (option Obs)) (eh : option Hnd) (ctx : Context) (evt : T)
    (w : W) : W :=
  match obs with
  | [] => w
  | None :: obs' => deliver obs' eh ctx evt w
  | Some o :: obs' =>
      let '(r, w1) := notify o ctx evt w in
      let w2 := match r, eh with
                | Err e, Some h => handle_error h e w1
                | _, _ => w1
                end in
      deliver obs' eh ctx evt w2
  end.

Definition Publish (ctx : Context) (evt : T) (w : W) : W :=
  match get_subject w with
  | None => w
  | Some s => deliver (observers s) (onError s) ctx evt w
  end.

Lemma deliver_app obs1 obs2 eh ctx evt w :
  deliver (obs1 ++ obs2) eh ctx evt w = deliver obs2 eh ctx evt (deliver obs1 eh ctx evt w).
Proof.
  revert w. induction obs1 as [|[o|] obs1 IH]; intros w; simpl; [done| |by apply IH].
  destruct (notify o ctx evt w) as [r w1]. apply IH.
Qed.
End publish.

(** [ObserverFunc]: a function taken for an observer; nil accepts every event. *)
Definition ObserverFunc (W T : Type) : Type := option (Context → T → io W error unit).

Definition ObserverFunc_Notify {W T} (f : ObserverFunc W T) (ctx : Context) (evt : T) :
    io W error unit :=
  match f with
  | None => λ w, (Ok tt, w)
  | Some f => f ctx evt
  end.

(** Registering nil, as an observer or as a function, is registering nothing. *)
Lemma deliver_functions {W T Hnd} (handle_error : Hnd → error → W → W)
    (obs : list (option (ObserverFunc W T))) eh ctx evt w :
  deliver ObserverFunc_Notify handle_error obs eh ctx evt w =
  deliver (λ f, f) handle_error (map Some (omap (λ o, mjoin o) obs)) eh ctx evt w.
Proof.
  revert w. induction obs as [|[[f|]|] obs IH]; intros w; csimpl; [done| |apply IH|apply IH].
  destruct (f ctx evt w) as [r w1]. apply IH.
Qed.

(** ** What [Publish] did

    The same world with a record of the calls made: whom was notified of what,
    with which outcome, and which errors reached the handler. *)
Inductive call (T Obs Hnd : Type) : Type :=
  | Notified (o : Obs) (evt : T) (r : result error unit)
  | Handled (h : Hnd) (e : error).
Arguments Notified {T Obs Hnd} _ _ _.
Arguments Handled {T Obs Hnd} _ _.

Section traced.
Context {W T Obs Hnd : Type}.
#[local] Abbreviation call := (call T Obs Hnd).
Context (notify : Obs → Context → T → io W error unit).
Context (handle_error : Hnd → error → W → W).

Definition notify_traced (o : Obs) (ctx : Context) (evt : T) :
      io (W * list call) error unit := λ '(w, tr),
    let '(r, w') := notify o ctx evt w in (r, (w', tr ++ [Notified o evt r])).

Definition handle_traced (h : Hnd) (e : error) : W * list call → W * list call :=
    λ '(w, tr), (handle_error h e w, tr ++ [Handled h e]).

Definition notified_of (tr : list call) : list Obs :=
    omap (λ c, match c with Notified o _ _ => Some o | Handled _ _ => None end) tr.

(** The errors of the notifications, and the errors handled. *)
Definition failures_of (tr : list call) : list error :=
    omap (λ c, match c with Notified _ _ (Err e) => Some e | _ => None end) tr.
Definition handled_of (tr : list call) : list error :=
    omap (λ c, match c with Handled _ e => Some e | _ => None end) tr.

(** What one observer adds to the record. *)
Definition calls_of (o : Obs) (evt : T) (r : result error unit) (eh : option Hnd) : list call :=
    Notified o evt r :: match r, eh with Err e, Some h => [Handled h e] | _, _ => [] end.

Lemma deliver_traced_step o obs eh ctx evt w tr :
    deliver notify_traced handle_traced (Some o :: obs) eh ctx evt (w, tr) =
      let '(r, w1) := notify o ctx evt w in
      deliver notify_traced handle_traced obs eh ctx evt
        (match r, eh with Err e, Some h => handle_error h e w1 | _, _ => w1 end,
         tr ++ calls_of o evt r eh).
Proof.
    simpl. destruct (notify o ctx evt w) as [[u|e] w1]; destruct eh; simpl;
      by rewrite <- ?app_assoc.
Qed.

Lemma deliver_traced obs eh ctx evt w tr :
    ∃ tr', deliver notify_traced handle_traced obs eh ctx evt (w, tr) =
        (deliver notify handle_error obs eh ctx evt w, tr ++ tr') ∧
      notified_of tr' = omap id obs ∧
      Forall (λ c, match c with Notified _ e _ => e = evt | Handled _ _ => True end) tr' ∧
      handled_of tr' = match eh with Some _ => failures_of tr' | None => [] end.
Proof.
    revert w tr. induction obs as [|[o|] obs IH]; intros w tr.
    - exists []. rewrite app_nil_r. by destruct eh; repeat split.
    - rewrite deliver_traced_step. simpl. destruct (notify o ctx evt w) as [r w1].
      set (w2 := match r with Ok _ => w1 | Err e => _ end).
      destruct (IH w2 (tr ++ calls_of o evt r eh)) as (tr' & -> & Hn & He & Hh).
      exists (calls_of o evt r eh ++ tr'). rewrite app_assoc. split; [done|].
      destruct r as [u|e], eh as [h|]; csimpl; unfold notified_of, handled_of, failures_of in *;
        csimpl; rewrite ?Hn, ?Hh; repeat split; by repeat constructor.
    - apply IH.
Qed.
End traced.

(** [Publish] notifies every non-nil observer registered when it is
    called, once each, in the order of registration and with the event published,
    whether or not earlier ones failed and whatever they do to the subject's
    registrations; each failure, and nothing else, goes to the error handler if
    there is one, in the same order. *)
Theorem Publish_notifies_all {W T Obs Hnd}
    (notify : Obs → Context → T → io W error unit) (handle_error : Hnd → error → W → W)
    (get_subject : W → option (Subject Obs Hnd)) (s : Subject Obs Hnd) ctx evt w :
  get_subject w = Some s →
  ∃ tr : list (call T Obs Hnd),
    Publish (notify_traced notify) (handle_traced handle_error) (λ wt, get_subject wt.1)
      ctx evt (w, []) = (Publish notify handle_error get_subject ctx evt w, tr) ∧
    notified_of tr = omap id (observers s) ∧
    Forall (λ c, match c with Notified _ e _ => e = evt | Handled _ _ => True end) tr ∧
    handled_of tr = match onError s with Some _ => failures_of tr | None => [] end.
Proof.
  intros Hs. unfold Publish. simpl. rewrite Hs.
  destruct (deliver_traced notify handle_error (observers s) (onError s) ctx evt w [])
    as (tr & Ht & ?). exists tr. by rewrite Ht.
Qed.

(** Registrations accumulate, in order, and survive a change of handler. *)
Lemma Attach_observers {Obs Hnd} (s s' : Subject Obs Hnd) obs :
  Attach (Some s) obs = Some s' → observers s' = observers s ++ obs ∧ onError s' = onError s.
Proof.
  unfold Attach. case_decide as Hl; intros [= <-]; [|done].
  apply nil_length_inv in Hl as ->. by rewrite app_nil_r.
Qed.

(** A world for the witness: the registrations and a log; observer 0 succeeds,
    observer 1 fails, observer 2 registers another observer while it is notified. *)
Definition demo_world : Type := Subject nat nat * list nat.

Definition demo_notify (o : nat) (_ : Context) (_ : Z) : io demo_world error unit :=
  λ '(s, log),
    match o with
    | 1%nat => (Err (Errorf "down"), (s, log ++ [o]))
    | 2%nat => (Ok tt, (mkSubject (observers s ++ [Some 9%nat]) (onError s), log ++ [o]))
    | _ => (Ok tt, (s, log ++ [o]))
    end.

Definition demo_handle (h : nat) (_ : error) : demo_world → demo_world :=
  λ '(s, log), (s, log ++ [h]).

Definition demo_subject : Subject nat nat :=
  mkSubject [Some 1%nat; None; Some 2%nat; Some 0%nat] (Some 100%nat).

Lemma Publish_notifies_all_witness :
  ∃ tr : list (call Z nat nat), notified_of tr = [1; 2; 0]%nat ∧
    handled_of tr = [Errorf "down"].
Proof.
  destruct (Publish_notifies_all demo_notify demo_handle (λ w : demo_world, Some w.1)
    demo_subject Background 7 (demo_subject, []) eq_refl) as (tr & Heq & Hn & _ & Hh).
  exists tr. split; [exact Hn|]. vm_compute in Heq. injection Heq as <-. vm_compute. reflexivity.
Defined.

End Observer.

(** ** internal/services/audit *)

Module Audit.

Record Event : Type := mkEvent {
  Timestamp : Z;
  EMetrics : list string;
  IPAddress : string;
}.

#[export] Instance Event_eq_dec : EqDecision Event.
Proof. solve_decision. Defined.

(** [WithClientIP] stores the address in a child context; [None] stands for the
    nil context. *)
Definition WithClientIP (ctx : Context) (ip : string) : Context :=
  mkContext (ctx_done ctx) (Some ip).

Definition ClientIPFromContext (ctx : option Context) : string :=
  match ctx with
  | None => EmptyString
  | Some c => default EmptyString (ctx_client_ip c)
  end.

Lemma ClientIP_roundtrip ctx ip : ClientIPFromContext (Some (WithClientIP ctx ip)) = ip.
Proof. done. Qed.

End Audit.
