(* ===== verification/Service.v ===== *)
(** * internal/services/metrics: the metrics service

    The service over any repository [R] that implements [MetricsRepo] and any
    environment [E] in which the snapshot hook and the audit publisher act.  A
    [World] is the repository, the environment, and the dynamic fields of the
    Go struct: the audit queue, the stop function and the worker goroutine.
    The first part models the calls of a request; the second the goroutine that
    drains the audit queue, as a step relation. *)

From S2P Require Import Prelude GoStrings GoInt GoErrors Domain Ports Observer.
Open Scope Z_scope.

Module Service.
Import Audit.

Definition auditQueueSize : nat := 128.

Record auditEvent : Type := mkAuditEvent { ae_ctx : Context; ae_evt : Event }.

(** The worker goroutine: not started, waiting in [select], inside [Publish]
    with the message it received, returned. *)
Inductive worker : Type :=
  | WorkerNone
  | WorkerWaiting
  | WorkerPublishing (msg : auditEvent)
  | WorkerReturned.

(** History of an audit event, kept for the theorems only. *)
Inductive audit_act : Type :=
  | Queued (m : auditEvent)
  | Published (m : auditEvent)
  | Dropped (m : auditEvent).

(** ** Names of an audit event

    [dedupNames] sorts its argument and compacts it in place: [a] is the array
    behind [names] and [uniq], [i] the index of the loop, [k] the length of
    [uniq].  [n] counts the iterations left. *)
Fixpoint dedup_inplace (n i : nat) (a : list string) (k : nat) (last : string) :
    list string * nat :=
  match n with
  | O => (a, k)
  | S n =>
      match a !! i with
      | None => (a, k)
      | Some name =>
          if decide (name = EmptyString ∨ name = last) then dedup_inplace n (S i) a k last
          else dedup_inplace n (S i) (<[k := name]> a) (S k) name
      end
  end.

Definition dedupNames (names : list string) : list string :=
  match names with
  | [] => []
  | _ =>
      let a := SortStrings names in
      let '(a', k) := dedup_inplace (length a) 0 a 0 EmptyString in take k a'
  end.

(** ** The items of a batch that are kept *)
Definition normalize (it : Metrics) : option Metrics :=
  let id := TrimSpace (ID it) in
  if decide (id = EmptyString) then None
  else
    let it := set_ID it id in
    if decide (MType it = Gauge) then
      match Value it with None => None | Some _ => Some it end
    else if decide (MType it = Counter) then
      match Delta it with None => None | Some _ => Some it end
    else None.

(** The loop of [UpsertBatch], appending to [valid] and [names]. *)
Fixpoint collect (items valid : list Metrics) (names : list string) :
    list Metrics * list string :=
  match items with
  | [] => (valid, names)
  | it :: items' =>
      match normalize it with
      | None => collect items' valid names
      | Some it' => collect items' (valid ++ [it']) (names ++ [ID it'])
      end
  end.

Section service.
Context {R E : Type} `{MetricsRepo R}.

Record World : Type := mkWorld {
  w_repo : R;
  w_env : E;
  w_queue : option (list auditEvent);   (* [None]: the channel is nil *)
  w_stop : bool;                        (* [auditStop] is not nil *)
  w_cancelled : bool;                   (* the worker's context *)
  w_worker : worker;
  w_trace : list audit_act;             (* history *)
}.

(** The fields of the Go struct that never change after [New]; a nil hook,
    publisher or clock is [None]. *)
Record Service : Type := mkService {
  onChanged : option (Context → Snapshot → E → E);
  auditor : option (Context → Event → E → E);
  now : option (E → Z);
}.

(** A call on the repository leaves the rest of the world alone. *)
Definition set_repo (w : World) (r : R) : World :=
  mkWorld r (w_env w) (w_queue w) (w_stop w) (w_cancelled w) (w_worker w) (w_trace w).
Definition set_env (w : World) (e : E) : World :=
  mkWorld (w_repo w) e (w_queue w) (w_stop w) (w_cancelled w) (w_worker w) (w_trace w).
Definition set_queue (w : World) (q : option (list auditEvent)) (tr : list audit_act) : World :=
  mkWorld (w_repo w) (w_env w) q (w_stop w) (w_cancelled w) (w_worker w) (w_trace w ++ tr).

Definition on_repo {A} (f : io R error A) : io World error A := λ w,
  let '(x, r) := f (w_repo w) in (x, set_repo w r).

(** [New], with [initAuditDispatcher]. *)
Definition New (svc : Service) (repo : R) (env : E) : World :=
  match auditor svc with
  | None => mkWorld repo env None false false WorkerNone []
  | Some _ => mkWorld repo env (Some []) true false WorkerWaiting []
  end.

Definition Ping (ctx : Context) : io World error unit := on_repo (RepoPing ctx).

Definition Get (ctx : Context) (mType id : string) : io World error Metrics :=
  let id := TrimSpace id in
  if decide (id = EmptyString) then io_fail ErrNotFound
  else if decide (mType = Gauge) then
    let! v := on_repo (GetGauge ctx id) in io_ret (mkMetrics None (Some v) id mType)
  else if decide (mType = Counter) then
    let! d := on_repo (GetCounter ctx id) in io_ret (mkMetrics (Some d) None id mType)
  else io_fail ErrInvalidType.

Section with_service.
Context (svc : Service).

(** [enqueueAudit]: a nil channel means a direct call; a full one drops. *)
Definition enqueueAudit (pub : Context → Event → E → E) (ctx : Context) (evt : Event)
    (w : World) : World :=
  let msg := mkAuditEvent ctx evt in
  match w_queue w with
  | None =>
      set_queue (set_env w (pub ctx evt (w_env w))) None [Published msg]
  | Some q =>
      if decide (length q < auditQueueSize)%nat
      then set_queue w (Some (q ++ [msg])) [Queued msg]
      else set_queue w (Some q) [Dropped msg]
  end.

Definition audit_event (ctx : Context) (uniq : list string) (w : World) : Event :=
  mkEvent (match now svc with Some f => f (w_env w) | None => 0 end)
          uniq (ClientIPFromContext (Some ctx)).

Definition notifyAudit (ctx : Context) (names : list string) (w : World) : World :=
  match auditor svc with
  | None => w
  | Some pub =>
      let uniq := dedupNames names in
      if decide (length uniq = 0%nat) then w
      else enqueueAudit pub ctx (audit_event ctx uniq w) w
  end.

(** The tail shared by both branches of [Upsert]: read back, then audit. *)
Definition read_back (ctx : Context) (m : Metrics) : io World error Metrics :=
  let? res := Get ctx (MType m) (ID m) in
  match res with
  | Ok v => λ w, (Ok v, notifyAudit ctx [ID m] w)
  | Err e => io_fail e
  end.

Definition Upsert (ctx : Context) (m : Metrics) : io World error Metrics :=
  let m := set_ID m (TrimSpace (ID m)) in
  if decide (ID m = EmptyString) then io_fail ErrNotFound
  else if decide (MType m = Gauge) then
    match Value m with
    | None => io_fail ErrInvalidType
    | Some v => let! _ := on_repo (SetGauge ctx (ID m) v) in read_back ctx m
    end
  else if decide (MType m = Counter) then
    match Delta m with
    | None => io_fail ErrInvalidType
    | Some d => let! _ := on_repo (AddCounter ctx (ID m) d) in read_back ctx m
    end
  else io_fail ErrInvalidType.

(** [if s.onChanged != nil { if snap, err := ...; err == nil { ... } }] *)
Definition run_onChanged (ctx : Context) (w : World) : World :=
  match onChanged svc with
  | None => w
  | Some hook =>
      let '(r, w) := on_repo (RepoSnapshot ctx) w in
      match r with
      | Ok snap => set_env w (hook ctx snap (w_env w))
      | Err _ => w
      end
  end.

Definition UpsertBatch (ctx : Context) (items : list Metrics) : io World error nat :=
  let '(valid, names) := collect items [] [] in
  if decide (length valid = 0%nat) then io_fail ErrInvalidType
  else
    let! _ := on_repo (UpdateMany ctx valid) in
    λ w, (Ok (length valid), run_onChanged ctx (notifyAudit ctx names w)).
End with_service.

Definition SnapshotAll (ctx : Context) : io World error Snapshot := on_repo (RepoSnapshot ctx).
End service.
Arguments World : clear implicits.
Arguments Service : clear implicits.

(** ** [dedupNames] *)

Definition str_lt (a b : string) : Prop := str_le a b ∧ a ≠ b.

(** The loop without the array. *)
Fixpoint dedup_list (names : list string) (last : string) : list string :=
  match names with
  | [] => []
  | name :: rest =>
      if decide (name = EmptyString ∨ name = last) then dedup_list rest last
      else name :: dedup_list rest name
  end.

(** Compacting in place never overwrites what is still to be read. *)
Lemma dedup_inplace_list l : ∀ pre k last,
  (k ≤ length pre)%nat →
  let '(a', k') := dedup_inplace (length l) (length pre) (pre ++ l) k last in
  take k' a' = take k pre ++ dedup_list l last.
Proof.
  induction l as [|name l IH]; intros pre k last Hk; simpl.
  - by rewrite !app_nil_r.
  - rewrite lookup_app_r, Nat.sub_diag by lia. simpl. case_decide as Hs.
    + specialize (IH (pre ++ [name]) k last). rewrite length_app in IH. simpl in IH.
      rewrite Nat.add_1_r, <- app_assoc in IH. simpl in IH.
      destruct (dedup_inplace _ _ _ _ _). rewrite IH by lia. by rewrite take_app_le.
    + specialize (IH (take (length pre + 1) (<[k:=name]> (pre ++ [name]))) (S k) name).
      assert (length (take (length pre + 1) (<[k:=name]> (pre ++ [name]))) = S (length pre)) as Hl.
      { rewrite length_take, length_insert, length_app. simpl. lia. }
      rewrite Hl in IH.
      assert (<[k:=name]> (pre ++ name :: l) =
        take (length pre + 1) (<[k:=name]> (pre ++ [name])) ++ l) as E.
      { rewrite take_ge by (rewrite length_insert, length_app; simpl; lia).
        rewrite <- insert_app_l by (rewrite length_app; simpl; lia).
        by rewrite <- app_assoc. }
      rewrite E. destruct (dedup_inplace _ _ _ _ _) as [a' k']. rewrite IH by lia.
      rewrite take_take, Nat.min_l by lia.
      rewrite take_S_r with (x := name); [|rewrite list_lookup_insert_eq; [done|rewrite length_app; simpl; lia]].
      rewrite take_insert_ge, take_app_le by lia. by rewrite <- app_assoc.
Qed.

Lemma dedupNames_list names : dedupNames names = dedup_list (SortStrings names) EmptyString.
Proof.
  destruct names as [|n names]; [done|]. unfold dedupNames.
  pose proof (dedup_inplace_list (SortStrings (n :: names)) [] 0 EmptyString) as H. simpl in H.
  destruct (dedup_inplace _ _ _ _ _). by rewrite H.
Qed.

Lemma dedup_list_elem l x : ∀ last,
  StronglySorted str_le (last :: l) →
  x ∈ dedup_list l last ↔ x ∈ l ∧ x ≠ EmptyString ∧ x ≠ last.
Proof.
  induction l as [|name l IH]; intros last Hs; simpl; [set_solver|].
  apply StronglySorted_inv in Hs as [Hs Hlast].
  pose proof Hs as Hs'. apply StronglySorted_inv in Hs' as [Hl Hname].
  apply Forall_cons in Hlast as [Hln Hlast]. case_decide as Hd.
  - rewrite IH by (by constructor). rewrite elem_of_cons. naive_solver.
  - rewrite elem_of_cons, IH by done. split.
    + intros [->|(Hx & Hne & Hxn)]; [set_solver|]. split; [by right|]. split; [done|].
      intros ->. apply Hd. right. apply (anti_symm str_le); [|done].
      by eapply Forall_forall in Hname.
    + intros ([->|Hx]%elem_of_cons & Hne & Hxl); [by left|].
      destruct (decide (x = name)) as [->|]; [by left|]. by right.
Qed.

Lemma dedup_list_sorted l : ∀ last,
  StronglySorted str_le (last :: l) → StronglySorted str_lt (dedup_list l last).
Proof.
  induction l as [|name l IH]; intros last Hs; simpl; [constructor|].
  apply StronglySorted_inv in Hs as [Hs Hlast].
  apply Forall_cons in Hlast as [_ Hlast].
  pose proof Hs as Hs'. apply StronglySorted_inv in Hs' as [Hl Hname]. case_decide.
  - apply IH. by constructor.
  - constructor; [by apply IH|]. apply Forall_forall. intros x Hx.
    apply dedup_list_elem in Hx as (Hx & _ & Hne); [|done].
    split; [|done]. by eapply Forall_forall in Hname.
Qed.

Lemma sorted_from_empty l : StronglySorted str_le l → StronglySorted str_le (EmptyString :: l).
Proof. intros Hl. constructor; [done|]. by apply Forall_forall. Qed.

(** The names of an audit event, compacted in place by [dedupNames], are
    the non-empty names of the items, without repetition, in strictly increasing
    order. *)
Theorem dedupNames_spec names :
  StronglySorted str_lt (dedupNames names) ∧
  ∀ x, x ∈ dedupNames names ↔ x ∈ names ∧ x ≠ EmptyString.
Proof.
  rewrite dedupNames_list. pose proof (sorted_from_empty _ (SortStrings_sorted names)) as Hs.
  split; [by apply dedup_list_sorted|]. intros x.
  rewrite dedup_list_elem, SortStrings_perm by done. naive_solver.
Qed.

End Service.
