(* ===== verification/ServiceSpec.v ===== *)
(** * What the calls of the metrics service do

    Against the contract of a repository ([RepoLaws]), so that the theorems hold
    of the memory and of the Postgres repository alike; [RepoTotal] gives the
    stronger form for a repository whose calls cannot fail. *)

From S2P Require Import Prelude GoStrings GoInt GoErrors Domain Ports Memory Observer Service.
Open Scope Z_scope.

Module ServiceSpec.
Import Audit Service.

(** The kept items are the normalised ones, and the names are theirs. *)
Lemma collect_app items valid names :
  collect items valid names =
    (valid ++ omap normalize items, names ++ (ID <$> omap normalize items)).
Proof.
  revert valid names. induction items as [|it items IH]; intros valid names; csimpl.
  - by rewrite !app_nil_r.
  - destruct (normalize it) as [it'|]; rewrite IH; csimpl; by rewrite <- ?app_assoc.
Qed.

Lemma normalize_Some it it' : normalize it = Some it' →
  it' = set_ID it (TrimSpace (ID it)) ∧ ID it' ≠ EmptyString ∧ storable it' = true.
Proof.
  unfold normalize, storable. intros Hn.
  repeat case_decide; repeat split_match; by simplify_eq/=.
Qed.

Lemma normalize_None it : normalize it = None →
  TrimSpace (ID it) = EmptyString ∨ storable it = false.
Proof.
  unfold normalize, storable. intros Hn.
  repeat case_decide; repeat split_match; simplify_eq/=; auto.
Qed.

Lemma normalize_storable it :
  TrimSpace (ID it) ≠ EmptyString → storable it = true →
  normalize it = Some (set_ID it (TrimSpace (ID it))).
Proof.
  unfold normalize, storable. intros Hid Hst. rewrite decide_False by done. simpl.
  repeat case_decide; repeat split_match; done.
Qed.

Lemma canonical_gauge m v : MType m = Gauge → Value m = Some v →
  canonical m = gauge_metric (ID m) v.
Proof. intros Ht Hv. unfold canonical. by rewrite decide_True, Hv. Qed.

Lemma canonical_counter m d : MType m = Counter → Delta m = Some d →
  canonical m = counter_metric (ID m) d.
Proof. intros Ht Hd. unfold canonical. by rewrite Ht, decide_False, Hd. Qed.

Section spec.
Context {R E : Type} `{HL : RepoLaws R}.
Context (svc : Service E).
Implicit Types w : World R E.

#[local] Abbreviation view w := (repo_view (w_repo w)).

(** Everything but the repository is the same. *)
Definition only_repo w w' : Prop := w' = set_repo w (w_repo w').

Lemma on_repo_inv {A} (f : io R error A) w x w' :
  on_repo f w = (x, w') →
  ∃ r, f (w_repo w) = (x, r) ∧ w' = set_repo w r.
Proof. unfold on_repo. destruct (f (w_repo w)) as [y r] eqn:Hf. naive_solver. Qed.

Lemma notifyAudit_repo ctx names w : w_repo (notifyAudit svc ctx names w) = w_repo w.
Proof.
  unfold notifyAudit, enqueueAudit. destruct (auditor svc); [|done].
  case_decide; [done|]. destruct (w_queue w); [|done]. by case_decide.
Qed.

Lemma run_onChanged_view ctx w : view (run_onChanged svc ctx w) = view w.
Proof using HL.
  unfold run_onChanged. destruct (onChanged svc) as [hook|]; [|done].
  destruct (on_repo (RepoSnapshot ctx) w) as [x w'] eqn:Hs.
  apply on_repo_inv in Hs as (r & Hr & ->). apply RepoSnapshot_view in Hr.
  by destruct x.
Qed.

(** The repository after the write, before it is read back. *)
Definition write_item (ctx : Context) (m : Metrics) : io (World R E) error unit :=
  on_repo (if decide (MType m = Gauge)
           then SetGauge ctx (ID m) (default f64_zero (Value m))
           else AddCounter ctx (ID m) (default 0 (Delta m))).

Lemma write_item_inv ctx m w r w' :
  storable m = true → write_item ctx m w = (r, w') →
  only_repo w w' ∧
  view w' = match r with Ok _ => repo_put m (view w) | Err _ => view w end.
Proof using HL.
  intros Hst Hw. apply on_repo_inv in Hw as (rp & Hw & ->). split; [done|]. simpl.
  unfold storable in Hst. case_decide as Hg.
  - destruct (Value m) as [v|] eqn:Hv; [|done]. destruct r as [[]|e].
    + apply SetGauge_ok in Hw. by rewrite Hw, <- (put_canonical m), (canonical_gauge m v).
    + by apply SetGauge_err in Hw.
  - case_decide as Hc; [|done]. destruct (Delta m) as [d|] eqn:Hd; [|done]. destruct r as [[]|e].
    + apply AddCounter_ok in Hw. by rewrite Hw, <- (put_canonical m), (canonical_counter m d).
    + by apply AddCounter_err in Hw.
Qed.

(** [Upsert] as a write followed by the shared tail. *)
Lemma Upsert_unfold ctx m w :
  Upsert svc ctx m w =
    if decide (TrimSpace (ID m) = EmptyString) then (Err ErrNotFound, w)
    else if storable m
         then io_bind (write_item ctx (set_ID m (TrimSpace (ID m))))
                (λ _, read_back svc ctx (set_ID m (TrimSpace (ID m)))) w
         else (Err ErrInvalidType, w).
Proof.
  unfold Upsert, write_item, storable. simpl. case_decide; [done|].
  case_decide; [by destruct (Value m)|]. case_decide; [by destruct (Delta m)|done].
Qed.

(** ** [Get] *)

(** What [Get] returns is what the repository holds under the trimmed
    name for the type asked, and nothing changes; an empty name is not found
    and another type is invalid. *)
Lemma Get_inv ctx ty id w r w' :
  Get ctx ty id w = (r, w') →
  only_repo w w' ∧ view w' = view w ∧
  match r with
  | Ok m => ID m = TrimSpace id ∧ ID m ≠ EmptyString ∧ MType m = ty ∧
      (ty = Gauge ∧ Value m = Gauges (view w) !! ID m ∧ is_Some (Value m) ∧ Delta m = None ∨
       ty = Counter ∧ Delta m = Counters (view w) !! ID m ∧ is_Some (Delta m) ∧ Value m = None)
  | Err e =>
      (TrimSpace id = EmptyString → e = ErrNotFound) ∧
      (TrimSpace id ≠ EmptyString → ty ≠ Gauge → ty ≠ Counter → e = ErrInvalidType) ∧
      (TrimSpace id ≠ EmptyString → e = ErrNotFound →
        (ty = Gauge → Gauges (view w) !! TrimSpace id = None) ∧
        (ty = Counter → Counters (view w) !! TrimSpace id = None))
  end.
Proof using HL.
  unfold Get. intros Hget.
  case_decide as Hid; [injection Hget as <- <-; by destruct w|].
  case_decide as Hg; [|case_decide as Hc; [|injection Hget as <- <-; by destruct w]].
  - apply io_bind_inv in Hget as [(v & w1 & Hr & Hret)|(e & Hr & ->)];
      apply on_repo_inv in Hr as (rp & Hr & ->); pose proof (GetGauge_view _ _ _ _ _ Hr).
    + injection Hret as <- <-. apply GetGauge_ok in Hr. split; [done|]. split; [done|].
      repeat split; [done|]. left. simpl. rewrite Hr. eauto.
    + split; [done|]. split; [done|]. repeat split; [done..| |intros Hc; by rewrite Hg in Hc].
      intros _. subst e. by apply GetGauge_absent in Hr.
  - apply io_bind_inv in Hget as [(v & w1 & Hr & Hret)|(e & Hr & ->)];
      apply on_repo_inv in Hr as (rp & Hr & ->); pose proof (GetCounter_view _ _ _ _ _ Hr).
    + injection Hret as <- <-. apply GetCounter_ok in Hr. split; [done|]. split; [done|].
      repeat split; [done|]. right. simpl. rewrite Hr. eauto.
    + split; [done|]. split; [done|]. repeat split; [done..|].
      intros _. subst e. by apply GetCounter_absent in Hr.
Qed.

(** ** [Upsert] *)

(** What [read_back] does after a successful write. *)
Lemma read_back_inv ctx m w r w' :
  TrimSpace (ID m) = ID m → storable m = true →
  read_back svc ctx m w = (r, w') →
  view w' = view w ∧
  match r with
  | Ok res => ID res = ID m ∧ MType res = MType m ∧
      (MType m = Gauge ∧ Value res = Gauges (view w) !! ID m ∧ Delta res = None ∨
       MType m = Counter ∧ Delta res = Counters (view w) !! ID m ∧ Value res = None) ∧
      w' = notifyAudit svc ctx [ID m] (set_repo w (w_repo w'))
  | Err _ => only_repo w w'
  end.
Proof using HL.
  intros Htrim Hst. unfold read_back, io_case.
  destruct (Get ctx (MType m) (ID m) w) as [[v|e] w1] eqn:Hget;
    apply Get_inv in Hget as (Hw1 & Hv1 & Hres); intros [= <- <-].
  - rewrite notifyAudit_repo, <- Hw1, Htrim in *. destruct Hres as (Hid & _ & Hty & Hval).
    rewrite Hid in Hval. naive_solver.
  - done.
Qed.

(** Both write paths of [Upsert], and the answer read back. *)
Lemma Upsert_inv ctx m w r w' :
  Upsert svc ctx m w = (r, w') →
  let id := TrimSpace (ID m) in
  let stored := repo_put (set_ID m id) (view w) in
  match r with
  | Ok res =>
      id ≠ EmptyString ∧ storable m = true ∧ view w' = stored ∧
      (∀ n, n ≠ id → Gauges (view w') !! n = Gauges (view w) !! n ∧
                     Counters (view w') !! n = Counters (view w) !! n) ∧
      ID res = id ∧ MType res = MType m ∧
      (MType m = Gauge → Value res = Value m ∧ Delta res = None) ∧
      (MType m = Counter → Value res = None ∧ ∃ d, Delta m = Some d ∧
        Delta res = Some (add64 (default 0 (Counters (view w) !! id)) d)) ∧
      w' = notifyAudit svc ctx [id] (set_repo w (w_repo w'))
  | Err e =>
      only_repo w w' ∧
      (id = EmptyString ∧ e = ErrNotFound ∧ w' = w ∨
       id ≠ EmptyString ∧ storable m = false ∧ e = ErrInvalidType ∧ w' = w ∨
       id ≠ EmptyString ∧ storable m = true ∧ (view w' = view w ∨ view w' = stored))
  end.
Proof using HL.
  intros Hup. cbv zeta. rewrite Upsert_unfold in Hup.
  case_decide as Hid; [injection Hup as <- <-; split; [by destruct w|auto]|].
  destruct (storable m) eqn:Hst; [|injection Hup as <- <-; split; [by destruct w|right; left; auto]].
  set (m' := set_ID m (TrimSpace (ID m))) in *.
  assert (storable m' = true) as Hst' by done.
  apply io_bind_inv in Hup as [([] & w1 & Hw & Hr)|(e & Hw & ->)];
    apply write_item_inv in Hw as (Hw1 & Hv1); try done; [|by eauto 8].
  apply read_back_inv in Hr as [Hv2 Hr]; [|apply TrimSpace_idemp|done].
  rewrite Hv1 in *. destruct r as [res|e].
  - destruct Hr as (Hrid & Hty & Hval & Hw'). rewrite Hw1 in Hw'.
    do 3 (split; [done|]). split; [rewrite Hv2; intros n Hn; by apply put_frame|].
    do 2 (split; [done|]). split; [|split; [|done]].
    + intros Hg. change (MType m') with (MType m) in Hval.
      destruct Hval as [(_ & Hval & ->)|(Hc & _)]; [|by rewrite Hg in Hc].
      split; [|done]. rewrite Hval. by apply (put_storable_gauge _ m').
    + intros Hc. change (MType m') with (MType m) in Hval.
      destruct Hval as [(Hg & _)|(_ & Hval & ->)]; [by rewrite Hc in Hg|].
      split; [done|]. rewrite Hval. by apply (put_storable_counter _ m').
  - split; [|by eauto 8]. unfold only_repo in *. by rewrite Hr, Hw1.
Qed.

(** [C17] [Upsert] on any repository: success means that the item, under its
    trimmed name, was stored and nothing else changed in the repository, that the
    answer is the new gauge value or the new counter total, and that the change
    was audited; an error leaves everything but the repository alone, is
    [ErrNotFound] for an empty name, [ErrInvalidType] for an item without a value
    of its type, and otherwise comes from the write or from the read after it. *)
Theorem Upsert_spec ctx m w r w' :
  Upsert svc ctx m w = (r, w') →
  let id := TrimSpace (ID m) in
  let stored := repo_put (set_ID m id) (view w) in
  match r with
  | Ok res =>
      id ≠ EmptyString ∧ storable m = true ∧ view w' = stored ∧
      (∀ n, n ≠ id → Gauges (view w') !! n = Gauges (view w) !! n ∧
                     Counters (view w') !! n = Counters (view w) !! n) ∧
      ID res = id ∧ MType res = MType m ∧
      (MType m = Gauge → Value res = Value m ∧ Delta res = None) ∧
      (MType m = Counter → Value res = None ∧ ∃ d, Delta m = Some d ∧
        Delta res = Some (add64 (default 0 (Counters (view w) !! id)) d)) ∧
      w' = notifyAudit svc ctx [id] (set_repo w (w_repo w'))
  | Err e =>
      only_repo w w' ∧
      (id = EmptyString ∧ e = ErrNotFound ∧ w' = w ∨
       id ≠ EmptyString ∧ storable m = false ∧ e = ErrInvalidType ∧ w' = w ∨
       id ≠ EmptyString ∧ storable m = true ∧ (view w' = view w ∨ view w' = stored))
  end.
Proof using HL. apply Upsert_inv. Qed.

(** ** [UpsertBatch] *)

Lemma UpsertBatch_inv ctx items w r w' :
  UpsertBatch svc ctx items w = (r, w') →
  let valid := omap normalize items in
  match r with
  | Ok n => n = length valid ∧ valid ≠ [] ∧ ∃ rp,
      repo_view rp = put_all repo_put valid (view w) ∧
      w' = run_onChanged svc ctx (notifyAudit svc ctx (ID <$> valid) (set_repo w rp))
  | Err e => only_repo w w' ∧ view w' = view w ∧
      (valid = [] → e = ErrInvalidType ∧ w' = w)
  end.
Proof using HL.
  unfold UpsertBatch. rewrite collect_app. cbv zeta. csimpl.
  case_decide as Hlen; [intros [= <- <-]; by destruct w|]. intros Hb.
  assert (omap normalize items ≠ []) as Hne by (intros HE; by rewrite HE in Hlen).
  apply io_bind_inv in Hb as [([] & w1 & Hw & Hr)|(e & Hw & ->)];
    apply on_repo_inv in Hw as (rp & Hw & ->).
  - injection Hr as <- <-. apply UpdateMany_ok in Hw. eauto.
  - apply UpdateMany_err in Hw. done.
Qed.

(** [C7] [UpsertBatch] on any repository: success means that at least one item
    was valid, the answer is the number of valid items, exactly these, under
    their trimmed names and in their order, were stored, the change was audited
    once and the hook saw the resulting snapshot; on an error the stored metrics
    and the rest of the world are as before, and a batch without a valid item is
    [ErrInvalidType] without a call to the repository. *)
Theorem UpsertBatch_spec ctx items w r w' :
  UpsertBatch svc ctx items w = (r, w') →
  let valid := omap normalize items in
  match r with
  | Ok n => n = length valid ∧ valid ≠ [] ∧
      view w' = put_all repo_put valid (view w) ∧
      ∃ rp, w' = run_onChanged svc ctx (notifyAudit svc ctx (ID <$> valid) (set_repo w rp)) ∧
        repo_view rp = view w'
  | Err e => only_repo w w' ∧ view w' = view w ∧
      (valid = [] → e = ErrInvalidType ∧ w' = w)
  end.
Proof using HL.
  intros Hb. apply UpsertBatch_inv in Hb. cbv zeta in *. destruct r as [n|e]; [|done].
  destruct Hb as (Hn & Hne & rp & Hv & ->). split; [done|]. split; [done|].
  rewrite run_onChanged_view, notifyAudit_repo. simpl. eauto.
Qed.

(** ** Repositories whose calls cannot fail *)

Section total.
Context {HT : RepoTotal R}.

Lemma on_repo_total {A} (f : io R error A) w a :
  (f (w_repo w)).1 = Ok a → on_repo f w = (Ok a, set_repo w (f (w_repo w)).2).
Proof. unfold on_repo. by destruct (f (w_repo w)) as [x r]; simpl; intros ->. Qed.

Lemma write_item_total ctx m w : ∃ w1, write_item ctx m w = (Ok tt, w1).
Proof using HL HT.
  unfold write_item. eexists. apply on_repo_total.
  case_decide; [apply SetGauge_total|apply AddCounter_total].
Qed.

Lemma Get_total ctx ty id w :
  TrimSpace id ≠ EmptyString →
  (ty = Gauge ∧ is_Some (Gauges (view w) !! TrimSpace id) ∨
   ty = Counter ∧ is_Some (Counters (view w) !! TrimSpace id)) →
  is_ok (Get ctx ty id w).1 = true.
Proof using HL HT.
  intros Hid Hty. unfold Get. rewrite decide_False by done.
  destruct Hty as [[-> [v Hv]]|[-> [d Hd]]].
  - rewrite decide_True by done. unfold io_bind.
    erewrite on_repo_total by (by rewrite GetGauge_total, Hv). done.
  - rewrite decide_False, decide_True by done. unfold io_bind.
    erewrite on_repo_total by (by rewrite GetCounter_total, Hd). done.
Qed.

Lemma Upsert_total ctx m w :
  is_ok (Upsert svc ctx m w).1 = true ↔ is_Some (normalize m).
Proof using HL HT.
  rewrite Upsert_unfold.
  case_decide as Hid; [split; [done|intros [it' Hn]; by apply normalize_Some in Hn as (-> & Hn & _)]|].
  destruct (storable m) eqn:Hst.
  - set (m' := set_ID m (TrimSpace (ID m))). split.
    + intros _. rewrite normalize_storable by done. eauto.
    + intros _. unfold io_bind. destruct (write_item_total ctx m' w) as [w1 Hw].
      rewrite Hw. apply write_item_inv in Hw as [Hw1 Hv1]; [|done].
      unfold read_back, io_case.
      assert (is_ok (Get ctx (MType m') (ID m') w1).1 = true) as Hok.
      { apply Get_total; change (ID m') with (TrimSpace (ID m)); rewrite TrimSpace_idemp; [done|].
        rewrite Hv1. pose proof Hst as Hst2. unfold storable in Hst2.
        case_decide as Hg; [left|right; case_decide as Hc; [|done]]; (split; [done|]).
        - pose proof (put_storable_gauge repo_put m' (view w) Hst Hg) as Hput. simpl in Hput.
          fold m' in Hput. rewrite Hput. by destruct (Value m).
        - destruct (put_storable_counter repo_put m' (view w) Hst Hc) as (d & _ & Hput).
          simpl in Hput. fold m' in Hput. rewrite Hput. eauto. }
      by destruct (Get _ _ _ w1) as [[v|e] w2].
  - split; [done|]. intros [it' Hn]. apply normalize_Some in Hn as (-> & _ & Hs).
    change (storable m = true) in Hs. congruence.
Qed.

Lemma UpsertBatch_total ctx items w : omap normalize items ≠ [] → ∃ w',
  UpsertBatch svc ctx items w = (Ok (length (omap normalize items)), w') ∧
  view w' = put_all repo_put (omap normalize items) (view w).
Proof using HL HT.
  intros Hne. destruct (UpsertBatch svc ctx items w) as [r w'] eqn:Hb.
  pose proof (UpsertBatch_inv _ _ _ _ _ Hb) as Hi. cbv zeta in Hi.
  destruct r as [n|e].
  - destruct Hi as (-> & _ & rp & Hv & ->). eexists. split; [done|].
    by rewrite run_onChanged_view, notifyAudit_repo.
  - exfalso. unfold UpsertBatch in Hb. rewrite collect_app in Hb. csimpl in Hb.
    case_decide as Hl; [by apply nil_length_inv in Hl|]. unfold io_bind in Hb.
    by erewrite on_repo_total in Hb by apply UpdateMany_total.
Qed.

Lemma Upsert_view ctx m w :
  view (Upsert svc ctx m w).2 =
    match normalize m with Some m' => repo_put m' (view w) | None => view w end.
Proof using HL HT.
  rewrite Upsert_unfold. destruct (normalize m) as [m'|] eqn:Hn.
  - apply normalize_Some in Hn as (-> & Hid & Hst). rewrite decide_False by done.
    change (storable m = true) in Hst. rewrite Hst. set (m' := set_ID m _) in *.
    unfold io_bind. destruct (write_item_total ctx m' w) as [w1 Hw]. rewrite Hw.
    apply write_item_inv in Hw as [_ Hv1]; [|done].
    destruct (read_back svc ctx m' w1) as [r w2] eqn:Hr.
    apply read_back_inv in Hr as [Hv2 _]; [|apply TrimSpace_idemp|done]. simpl. congruence.
  - apply normalize_None in Hn as [Hid|Hst]; [by rewrite decide_True|].
    case_decide; [done|]. by rewrite Hst.
Qed.

(** On a repository that cannot fail, a batch stores exactly what the
    same items would store one by one through [Upsert]; it is refused only
    when every one of them would be. *)
Theorem UpsertBatch_sequence ctx items w :
  view (UpsertBatch svc ctx items w).2 =
    view (fold_left (λ w it, (Upsert svc ctx it w).2) items w) ∧
  (is_ok (UpsertBatch svc ctx items w).1 = true ↔
    ∃ it w1, it ∈ items ∧ is_ok (Upsert svc ctx it w1).1 = true).
Proof using HL HT.
  assert (Hseq : ∀ w, view (fold_left (λ w it, (Upsert svc ctx it w).2) items w) =
    put_all repo_put (omap normalize items) (view w)).
  { induction items as [|it items IH]; intros w0; csimpl; [done|].
    rewrite IH, Upsert_view. by destruct (normalize it). }
  assert (Hok : is_ok (UpsertBatch svc ctx items w).1 = true ↔ omap normalize items ≠ []).
  { unfold UpsertBatch. rewrite collect_app. csimpl. split.
    - intros Hb HE. by rewrite HE in Hb.
    - intros Hne. case_decide as Hl; [by apply nil_length_inv in Hl|]. unfold io_bind.
      by erewrite on_repo_total by apply UpdateMany_total. }
  rewrite Hseq. split.
  - destruct (UpsertBatch svc ctx items w) as [r w'] eqn:Hb. simpl in *.
    apply UpsertBatch_inv in Hb. cbv zeta in Hb. destruct r as [n|e].
    + destruct Hb as (_ & _ & rp & Hv & ->).
      by rewrite run_onChanged_view, notifyAudit_repo.
    + destruct Hb as (_ & -> & _). destruct (decide (omap normalize items = [])) as [->|Hne];
        [done|]. by apply Hok in Hne.
  - rewrite Hok. setoid_rewrite Upsert_total. split.
    + intros Hne. destruct (omap normalize items) as [|v vs] eqn:Hv; [done|].
      assert (v ∈ omap normalize items) as Hin by (rewrite Hv; left).
      apply list_elem_of_omap in Hin as (it & Hit & Hn). exists it, w. eauto.
    + intros (it & _ & Hit & [v Hn]) HE.
      assert (v ∈ omap normalize items) as Hin by (apply list_elem_of_omap; eauto).
      rewrite HE in Hin. by apply elem_of_nil in Hin.
Qed.
End total.
End spec.

(** ** Persistence

    The snapshot hook runs for batches only: with an audit queue, or without
    an auditor, a successful single [Upsert] leaves the environment, and so
    whatever the hook saves to, as it was. *)
Theorem Upsert_skips_hook {R E} `{HL : RepoLaws R} (svc : Service E) ctx m w :
  (auditor svc = None ∨ is_Some (w_queue w)) →
  w_env (Upsert svc ctx m w).2 = w_env w.
Proof.
  intros Hq. rewrite Upsert_unfold. case_decide; [done|]. destruct (storable m) eqn:Hst; [|done].
  set (m' := set_ID m _). unfold io_bind.
  destruct (write_item ctx m' w) as [[u|e] w1] eqn:Hw; [|by apply write_item_inv in Hw as [-> _]].
  apply write_item_inv in Hw as [Hw1 _]; [|done].
  destruct (read_back svc ctx m' w1) as [r w2] eqn:Hr.
  apply read_back_inv in Hr as [_ Hr]; [|apply TrimSpace_idemp|done]. simpl.
  destruct r as [res|e]; [|unfold only_repo in *; by rewrite Hr, Hw1].
  rewrite Hw1 in Hr. destruct Hr as (_ & _ & _ & ->). unfold notifyAudit.
  destruct (auditor svc) as [pub|]; [|done]. destruct Hq as [?|[q Hq]]; [done|].
  case_decide; [done|]. unfold enqueueAudit. simpl. rewrite Hq. by case_decide.
Qed.

(** ** Witnesses: the memory repository, with a hook that counts its calls *)

Definition demo_svc : Service Z :=
  mkService (Some (λ _ _ n, n + 1)) (Some (λ _ _ n, n + 1000)) None.

Definition demo_w : World Memory.Repo Z := New demo_svc Memory.New 0.

Definition demo_item : Metrics := mkMetrics (Some 5) None " hits " Counter.

Lemma Upsert_spec_witness : ∃ w', Upsert demo_svc Background demo_item demo_w =
    (Ok (mkMetrics (Some 5) None "hits" Counter), w') ∧
  repo_view (w_repo w') = put (counter_metric "hits" 5) (mkSnapshot ∅ ∅).
Proof.
  destruct (Upsert demo_svc Background demo_item demo_w) as [r w'] eqn:Hup.
  pose proof (Upsert_spec demo_svc Background demo_item demo_w r w' Hup) as H.
  vm_compute in Hup. injection Hup as <- <-. eexists. split; [reflexivity|].
  destruct H as (_ & _ & H & _). exact H.
Defined.

Lemma UpsertBatch_spec_witness : ∃ w',
  UpsertBatch demo_svc Background (demo_item :: Memory.demo_batch) demo_w = (Ok 5%nat, w') ∧
  repo_view (w_repo w') =
    put_all put (omap normalize (demo_item :: Memory.demo_batch)) (mkSnapshot ∅ ∅).
Proof.
  destruct (UpsertBatch demo_svc Background (demo_item :: Memory.demo_batch) demo_w)
    as [r w'] eqn:Hup.
  pose proof (UpsertBatch_spec demo_svc Background _ demo_w r w' Hup) as H.
  vm_compute in Hup. injection Hup as <- <-. eexists. split; [reflexivity|].
  destruct H as (_ & _ & H & _). exact H.
Defined.

Lemma UpsertBatch_sequence_witness :
  repo_view (w_repo (UpsertBatch demo_svc Background Memory.demo_batch demo_w).2) =
    repo_view (w_repo (fold_left (λ w it, (Upsert demo_svc Background it w).2)
      Memory.demo_batch demo_w)).
Proof. exact (proj1 (UpsertBatch_sequence demo_svc Background Memory.demo_batch demo_w)). Defined.

Lemma Upsert_skips_hook_witness : is_Some (w_queue demo_w) ∧
  w_env (Upsert demo_svc Background demo_item demo_w).2 = 0 ∧
  w_env (UpsertBatch demo_svc Background [demo_item] demo_w).2 = 1.
Proof.
  assert (is_Some (w_queue demo_w)) as H by (by eexists). split; [exact H|]. split.
  - exact (Upsert_skips_hook demo_svc Background demo_item demo_w (or_intror H)).
  - vm_compute. reflexivity.
Defined.

End ServiceSpec.
