(* ===== verification/Handlers.v ===== *)
(** * internal/adapters/http/ginserver: the HTTP handlers and the routes

    The methods of [Handler] (handler.go) over the metrics service, and the table
    of [NewRouter] (router.go).  The parameters of a route are a function from their
    names; binding a request to a metric and matching a path are gin's. *)

From S2P Require Import Prelude GoStrings GoInt GoErrors Domain GoFloat Ports.
From S2P Require Import Json MetricsJson Http Middlewares Observer Service ServiceSpec.
Open Scope Z_scope.

Module Handlers.
Import Json MetricsJson Middlewares Service.

(** [c.ShouldBindJSON]: the body decoded by [encoding/json] into a zero metric. *)
Class Binding := {
  ShouldBindJSON : result error string → result error Metrics;
  ShouldBindJSON_spec b :
    ShouldBindJSON b = match b with Ok s => decode_one false s | Err e => Err e end;
}.

#[refine] Definition plain_binding : Binding := {|
  ShouldBindJSON b := match b with Ok s => decode_one false s | Err e => Err e end;
|}.
Proof. done. Defined.

Definition params : Type := string → string.

(** A map of the snapshot as JSON: [json.Marshal] sorts the keys. *)
Definition sorted_keys {A} (m : gmap string A) : list string := SortStrings (map_to_list m).*1.

Definition encode_counters (m : gmap string Z) : string :=
  object_text compact ((λ k, (k, FormatInt (default 0 (m !! k)))) <$> sorted_keys m).

Definition encode_gauges (m : gmap string float64) : option string :=
  l ← mapM (λ k, t ← encode_float (default f64_zero (m !! k)); Some (k, t)) (sorted_keys m);
  Some (object_text compact l).

(** [gin.H] with the fields [gauges] and [counters]. *)
Definition encode_snapshot (s : Snapshot) : option string :=
  g ← encode_gauges (Gauges s);
  Some (object_text compact [("counters", encode_counters (Counters s)); ("gauges", g)]).

Section handlers.
Context {R E : Type} `{MetricsRepo R} `{Gin} `{Binding}.
Context (svc : Service E) (error_text : error → string).

(** The context of a request comes from the server. *)
Definition endpoint : Type := Context → Request → World R E → list wcall * World R E.

Definition httpError (err : error) : list wcall :=
  if errors_Is err ErrNotFound then text 404 "not found"
  else if errors_Is err ErrInvalidType then text 400 "bad request"
  else text 500 "internal error".

Definition bad_request : list wcall := text 400 "bad request".

(** [c.JSON(http.StatusOK, v)], by the text of [v]. *)
Definition ok_json (t : option string) : list wcall :=
  match t with Some t => json 200 t | None => render_failed 200 end.

Definition client_ctx (ctx : Context) (req : Request) : Context :=
  Audit.WithClientIP ctx (remote_ip req).

(** The metric of [POST /update/:type/:name/:value]. *)
Definition parse_update (p : params) : option Metrics :=
  if bool_decide (p "type" = Gauge) then
    match ParseFloat (p "value") with
    | Ok v => Some (mkMetrics None (Some v) (p "name") (p "type"))
    | Err _ => None
    end
  else if bool_decide (p "type" = Counter) then
    match ParseInt (p "value") with
    | Ok d => Some (mkMetrics (Some d) None (p "name") (p "type"))
    | Err _ => None
    end
  else None.

Definition UpdateMetric (p : params) : endpoint := λ ctx req w,
  if bool_decide (TrimSpace (p "name") = EmptyString) then (text 404 "not found", w)
  else match parse_update p with
       | None => (bad_request, w)
       | Some m =>
           match Upsert svc (client_ctx ctx req) m w with
           | (Err e, w) => (httpError e, w)
           | (Ok _, w) => (text 200 "ok", w)
           end
       end.

(** Dereferencing a nil pointer would panic: [None]. *)
Definition GetMetric (p : params) : Context → Request → World R E → option (list wcall) * World R E :=
  λ ctx req w,
  match Get ctx (p "type") (p "name") w with
  | (Err e, w) => (Some (httpError e), w)
  | (Ok res, w) =>
      (if bool_decide (p "type" = Gauge) then
         v ← Value res; Some (text 200 (FormatFloat v))
       else if bool_decide (p "type" = Counter) then
         d ← Delta res; Some (text 200 (FormatInt d))
       else Some bad_request, w)
  end.

Definition index_row (k v : string) : string := "<tr><td>" +:+ k +:+ "</td><td>" +:+ v +:+ "</td></tr>".
Definition index_head : string :=
  "<!doctype html><html><head><meta charset='utf-8'><title>metrics</title>" +:+
  "<style>body{font-family:system-ui,Arial,sans-serif}table{border-collapse:collapse}td,th{border:1px solid #ddd;padding:6px 10px}</style>" +:+
  "</head><body>" +:+ "<h1>Metrics</h1>".
Definition index_table (title : string) (rows : list string) : string :=
  "<h2>" +:+ title +:+ "</h2><table><tr><th>Name</th><th>Value</th></tr>" +:+
  foldr String.append EmptyString rows +:+ "</table>".

(** [order] is the order in which a map is ranged over. *)
Definition index_page (order : ∀ A, gmap string A → list (string * A)) (s : Snapshot) : string :=
  index_head +:+
  index_table "Gauge" ((λ kv, index_row kv.1 (FormatFloat kv.2)) <$> order _ (Gauges s)) +:+
  index_table "Counter" ((λ kv, index_row kv.1 (FormatInt kv.2)) <$> order _ (Counters s)) +:+
  "</body></html>".

Definition Index (order : ∀ A, gmap string A → list (string * A)) : endpoint := λ ctx req w,
  match SnapshotAll ctx w with
  | (Err e, w) => (httpError e, w)
  | (Ok s, w) => (render 200 "text/html; charset=utf-8" (index_page order s), w)
  end.

(** The metric of a JSON request, unless it is malformed or has no name. *)
Definition bind_metric (req : Request) : option Metrics :=
  match ShouldBindJSON (body req) with
  | Err _ => None
  | Ok m => if bool_decide (TrimSpace (ID m) = EmptyString) then None else Some m
  end.

Definition UpdateMetricJSON : endpoint := λ ctx req w,
  match bind_metric req with
  | None => (bad_request, w)
  | Some m =>
      match Upsert svc (client_ctx ctx req) m w with
      | (Err e, w) => (httpError e, w)
      | (Ok res, w) => (ok_json (encode_metric res), w)
      end
  end.

Definition GetMetricJSON : endpoint := λ ctx req w,
  match bind_metric req with
  | None => (bad_request, w)
  | Some q =>
      match Get ctx (MType q) (ID q) w with
      | (Err e, w) => (httpError e, w)
      | (Ok res, w) => (ok_json (encode_metric res), w)
      end
  end.

(** The buffer from the pool goes in, and comes back out with the response. *)
Definition UpdateMetricsBatchJSON (grow : nat) (ctx : Context) (req : Request)
    (w : World R E * list Metrics) : list wcall * (World R E * list Metrics) :=
  let '(w, buf) := w in
  match decodeMetricsBatch grow buf (body req) with
  | (Err _, buf) => (bad_request, (w, buf))
  | (Ok items, buf) =>
      match UpsertBatch svc (client_ctx ctx req) (cloneMetrics items) w with
      | (Err e, w) => (httpError e, (w, buf))
      | (Ok updated, w) =>
          (ok_json (Some (object_text compact [("updated", FormatInt (Z.of_nat updated))])), (w, buf))
      end
  end.

Definition PingHandler : endpoint := λ ctx req w,
  match Ping ctx w with
  | (Err e, w) => (text 500 ("db ping error: " +:+ error_text e), w)
  | (Ok _, w) => (text 200 "ok", w)
  end.

Definition SnapshotJSON : endpoint := λ ctx req w,
  match SnapshotAll ctx w with
  | (Err e, w) => (httpError e, w)
  | (Ok s, w) => (ok_json (encode_snapshot s), w)
  end.
End handlers.

(** ** Routes *)

Inductive route_name : Type :=
  | RPing | RUpdate | RValue | RSnapshot | RIndex | RUpdateJSON | RValueJSON | RUpdatesJSON.

(** The calls of [NewRouter], in their order. *)
Definition routes : list (string * string * route_name) :=
  [("GET", "/ping", RPing);
   ("POST", "/update/:type/:name/:value", RUpdate);
   ("GET", "/value/:type/:name", RValue);
   ("GET", "/api/v1/snapshot", RSnapshot);
   ("GET", "/", RIndex);
   ("POST", "/update", RUpdateJSON); ("POST", "/update/", RUpdateJSON);
   ("POST", "/value", RValueJSON); ("POST", "/value/", RValueJSON);
   ("POST", "/updates", RUpdatesJSON); ("POST", "/updates/", RUpdatesJSON)].

Inductive match_result : Type :=
  | Matched (i : nat) (p : params)
  | WrongMethod
  | NoRoute.

(** gin's routing: a path without parameters goes to the route of that path. *)
Class GinRouter := {
  find_route : list (string * string) → Request → match_result;
  find_static rs req i : rs !! i = Some (method req, path req) →
    Contains (path req) ":" = false → Contains (path req) "*" = false →
    (∀ j, rs !! j = Some (method req, path req) → j = i) →
    ∃ p, find_route rs req = Matched i p;
}.

(** Routing without parameters: the first route of the method and path. *)
#[refine] Definition exact_router : GinRouter := {|
  find_route rs req := match list_find (λ r, r = (method req, path req)) rs with
                       | Some (i, _) => Matched i (λ _, EmptyString)
                       | None => NoRoute
                       end;
|}.
Proof.
  intros rs req i Hi _ _ Hu. destruct (list_find_elem_of (λ r, r = (method req, path req)) rs
    (method req, path req)) as [[j r] Hj]; [by eapply list_elem_of_lookup_2|done|].
  rewrite Hj. apply list_find_Some in Hj as (Hj & -> & _). rewrite (Hu j Hj). eauto.
Defined.

Section router.
Context {R E : Type} `{MetricsRepo R} `{Gin} `{Binding} `{GinRouter}.
Context (svc : Service E) (error_text : error → string).
Context (order : ∀ A, gmap string A → list (string * A)) (grow : nat).

(** The handler of a route: the state is the service's with the pooled buffer. *)
Definition run_route (ctx : Context) (r : route_name) (p : params) :
  handler (World R E * list Metrics) := λ req '(w, buf),
  let plain (h : endpoint) := let '(calls, w) := h ctx req w in (calls, (w, buf)) in
  match r with
  | RPing => plain (PingHandler error_text)
  | RUpdate => plain (UpdateMetric svc p)
  | RValue => plain (λ ctx req w, let '(calls, w) := GetMetric p ctx req w in
                                  (default [WriteHeader 500] calls, w))
  | RSnapshot => plain SnapshotJSON
  | RIndex => plain (Index order)
  | RUpdateJSON => plain (UpdateMetricJSON svc)
  | RValueJSON => plain GetMetricJSON
  | RUpdatesJSON => UpdateMetricsBatchJSON svc grow ctx req (w, buf)
  end.

(** The handlers of [NewRouter] for a request that was routed as [m]; a panic is
    answered by [gin.Recovery] with 500. *)
Definition dispatch (m : match_result) (ctx : Context) : handler (World R E * list Metrics) := λ req w,
  match m with
  | Matched i p => match routes !! i with
                   | Some (_, r) => run_route ctx r p req w
                   | None => ([], w)
                   end
  | WrongMethod => (text 405 "method not allowed", w)
  | NoRoute => ([], w)
  end.

(** gin's engine around the handlers: without a route the status, 404 or 405, stands
    before the middlewares run (none of which treats it differently from 200), and a
    default page may follow. *)
Definition answered (m : match_result) (calls : list wcall) : list wcall :=
  match m with
  | Matched _ _ => calls
  | WrongMethod => serveError 405 "405 method not allowed" calls
  | NoRoute => serveError 404 "404 page not found" calls
  end.

Context `{Gzip}.

(** The server of cmd/server: the route is found first, then the middlewares run and
    the handlers behind them. *)
Definition server (key : string) (ctx : Context) : handler (World R E * list Metrics) := λ req w,
  let m := find_route routes.*1 req in
  let '(calls, w) := server_stack key (dispatch m ctx) req w in (answered m calls, w).
End router.
End Handlers.
