(* ===== verification/HandlersSpec.v ===== *)
(** * What the HTTP handlers do

    The handlers against the contract of a repository ([RepoLaws]): which status
    each branch answers, what is stored, and that what is read back over HTTP is what
    was stored. *)

From S2P Require Import Prelude GoStrings GoInt GoErrors Domain GoFloat Ports.
From S2P Require Import Json MetricsJson Http Middlewares Observer Service ServiceSpec Handlers Memory.
Open Scope Z_scope.

Module HandlersSpec.
Import Json MetricsJson Middlewares Service ServiceSpec Handlers.

(** ** Items that only differ in fields their type does not use *)

Lemma normalize_storable_eq m :
  normalize m = if decide (TrimSpace (ID m) = EmptyString) then None
                else if storable m then Some (set_ID m (TrimSpace (ID m))) else None.
Proof.
  unfold normalize, storable. case_decide; [done|]. simpl.
  case_decide; [by destruct (Value m)|]. case_decide; [by destruct (Delta m)|done].
Qed.

Lemma normalize_canonical m : normalize (canonical m) = canonical <$> normalize m.
Proof.
  rewrite !normalize_storable_eq. destruct m as [d v id ty]. unfold canonical, storable.
  cbn [Delta Value ID MType]. repeat (case_decide; simplify_eq/=; try done);
    by repeat (case_match; simplify_eq/=).
Qed.

Lemma normalize_canonical_eq (items items' : list Metrics) : canonical <$> items = canonical <$> items' →
  canonical <$> omap normalize items = canonical <$> omap normalize items'.
Proof.
  revert items'. induction items as [|m items IH]; intros [|m' items'] Hc; try done.
  csimpl. injection Hc as Hm Hc. specialize (IH _ Hc).
  assert (canonical <$> normalize m = canonical <$> normalize m') as Hn
    by by rewrite <- !normalize_canonical, Hm.
  destruct (normalize m), (normalize m'); simplify_eq/=; by rewrite ?IH; f_equal.
Qed.

Lemma put_all_canonical p `{PutLaws p} (items items' : list Metrics) s :
  canonical <$> items = canonical <$> items' → put_all p items s = put_all p items' s.
Proof.
  revert items' s. induction items as [|m items IH]; intros [|m' items'] s Hc; try done.
  injection Hc as Hm Hc. unfold put_all in *. simpl.
  by rewrite <- (put_canonical m), Hm, put_canonical, (IH _ _ Hc).
Qed.

(** ** Responses *)

Definition status (calls : list wcall) : Z := w_status (respond calls).
Definition page (calls : list wcall) : string := w_body (respond calls).

Section specs.
Context {R E : Type} `{HL : RepoLaws R} `{Gin} `{Binding}.
Context (svc : Service E).
Implicit Types w : World R E.

#[local] Abbreviation view w := (repo_view (w_repo w)).

Lemma status_text st s : status (text st s) = st.
Proof. unfold status, text. by rewrite respond_render. Qed.
Lemma page_text st s : page (text st s) = s.
Proof. unfold page, text. by rewrite respond_render. Qed.
Lemma status_json st s : status (json st s) = st.
Proof. unfold status, json. by rewrite respond_render. Qed.
Lemma page_json st s : page (json st s) = s.
Proof. unfold page, json. by rewrite respond_render. Qed.
Lemma status_ok_json t : status (ok_json t) = 200.
Proof. destruct t; [apply status_json|]. by destruct (render_failed_spec 200). Qed.

Lemma status_httpError e : status (httpError e) =
  if errors_Is e ErrNotFound then 404 else if errors_Is e ErrInvalidType then 400 else 500.
Proof. unfold httpError. by repeat case_match; rewrite status_text. Qed.

Lemma httpError_not_200 e : status (httpError e) ≠ 200.
Proof. rewrite status_httpError. by repeat case_match. Qed.

Lemma parse_update_Some p m : parse_update p = Some m →
  ID m = p "name" ∧ MType m = p "type" ∧ storable m = true ∧
  (p "type" = Gauge ∧ (∃ v, ParseFloat (p "value") = Ok v ∧ Value m = Some v) ∧ Delta m = None ∨
   p "type" = Counter ∧ (∃ d, ParseInt (p "value") = Ok d ∧ Delta m = Some d) ∧ Value m = None).
Proof.
  unfold parse_update. generalize (ParseFloat (p "value")) (ParseInt (p "value")). intros rf ri Hp.
  case_bool_decide as Hg; [|case_bool_decide as Hc; [|done]].
  - destruct rf as [v|]; [|done]. injection Hp as <-. unfold storable. cbn.
    rewrite decide_True by done. eauto 10.
  - destruct ri as [d|]; [|done]. injection Hp as <-. unfold storable. cbn.
    rewrite decide_False, decide_True by done. eauto 10.
Qed.

(** [POST /update/:type/:name/:value]: a blank name is 404, an unknown type
    or a value that is not of its type is 400, and neither touches the repository;
    200 means that the value was stored under the trimmed name, and nothing else
    changed; any other answer comes from the repository. *)
Theorem UpdateMetric_spec p ctx req w :
  let '(calls, w') := UpdateMetric svc p ctx req w in
  let name := TrimSpace (p "name") in
  (name = EmptyString ∧ status calls = 404 ∧ w' = w) ∨
  (name ≠ EmptyString ∧ parse_update p = None ∧ status calls = 400 ∧ w' = w) ∨
  (∃ m, name ≠ EmptyString ∧ parse_update p = Some m ∧
    let stored := repo_put (set_ID m name) (view w) in
    (status calls = 200 ∧ page calls = "ok" ∧ view w' = stored ∧
      (∀ n, n ≠ name → Gauges (view w') !! n = Gauges (view w) !! n ∧
                       Counters (view w') !! n = Counters (view w) !! n) ∨
     status calls ≠ 200 ∧ (view w' = view w ∨ view w' = stored))).
Proof using HL.
  unfold UpdateMetric. case_bool_decide as Hn; [left; by rewrite status_text|].
  destruct (parse_update p) as [m|] eqn:Hp; [|right; left; unfold bad_request; by rewrite status_text].
  destruct (Upsert _ _ _ _) as [r w'] eqn:Hu.
  pose proof (Upsert_inv _ _ _ _ _ _ Hu) as Hi. cbv zeta in Hi.
  pose proof (parse_update_Some _ _ Hp) as (Hid & _ & Hst & _). rewrite Hid in Hi.
  destruct r as [res|e]; right; right; exists m; (split; [done|]); (split; [done|]).
  - destruct Hi as (_ & _ & Hv & Hf & _). left. rewrite status_text, page_text. auto.
  - right. split; [apply httpError_not_200|].
    destruct Hi as [_ [(? & _)|[(_ & ? & _)|(_ & _ & Hv)]]]; [done|congruence|done].
Qed.

(** [GET /value/:type/:name] changes nothing and never dereferences a nil
    pointer; 200 answers the stored value under the trimmed name, as the shortest
    decimal for a gauge and in base 10 for a counter. *)
Theorem GetMetric_spec p ctx req w :
  let '(c, w') := GetMetric p ctx req w in
  let name := TrimSpace (p "name") in
  view w' = view w ∧ ∃ calls, c = Some calls ∧
  (status calls = 200 →
    p "type" = Gauge ∧ (∃ v, Gauges (view w) !! name = Some v ∧ page calls = FormatFloat v) ∨
    p "type" = Counter ∧ (∃ d, Counters (view w) !! name = Some d ∧ page calls = FormatInt d)) ∧
  (name = EmptyString → status calls = 404) ∧
  (name ≠ EmptyString → p "type" ≠ Gauge → p "type" ≠ Counter → status calls = 400).
Proof using HL.
  unfold GetMetric. destruct (Get _ _ _ _) as [r w'] eqn:Hg.
  apply Get_inv in Hg as (_ & Hv & Hr). destruct r as [res|e]; (split; [done|]).
  - destruct Hr as (Hid & Hne & _ & Hval). rewrite Hid in *.
    destruct Hval as [(Ht & Hval & [v Hs] & _)|(Ht & Hval & [d Hs] & _)]; rewrite Hs in *.
    + rewrite bool_decide_true by done. simpl. eexists. split; [done|].
      rewrite status_text, page_text, Ht. split; [by eauto|done].
    + rewrite bool_decide_false, bool_decide_true by (done || by rewrite Ht). simpl.
      eexists. split; [done|]. rewrite status_text, page_text, Ht. split; [by eauto|done].
  - destruct Hr as (He & Hinv & _). eexists. split; [done|].
    split; [by intros ?%httpError_not_200|]. rewrite status_httpError. split.
    + intros Hid. by rewrite (He Hid).
    + intros Hid Hg Hc. by rewrite (Hinv Hid Hg Hc).
Qed.

(** [C27] The batch endpoint: a body that does not decode is 400, and the
    repository is not called; otherwise 200 answers the number of valid items, all
    of them stored, and any other status means that none was (400 when there was no
    valid item). *)
Theorem UpdateMetricsBatchJSON_spec grow ctx req w buf :
  let '(calls, (w', buf')) := UpdateMetricsBatchJSON svc grow ctx req (w, buf) in
  match (decodeMetricsBatch grow buf (body req)).1 with
  | Err _ => status calls = 400 ∧ w' = w
  | Ok items =>
      let valid := omap normalize items in
      status calls = 200 ∧ valid ≠ [] ∧ view w' = put_all repo_put valid (view w) ∧
        page calls = object_text compact [("updated", FormatInt (Z.of_nat (length valid)))] ∨
      status calls ≠ 200 ∧ view w' = view w ∧ (valid = [] → status calls = 400 ∧ w' = w)
  end.
Proof using HL.
  unfold UpdateMetricsBatchJSON.
  destruct (decodeMetricsBatch _ _ _) as [[items|e] buf']; cbn [fst];
    [|unfold bad_request; by rewrite status_text].
  assert (cloneMetrics items = items) as -> by (unfold cloneMetrics; case_bool_decide; by destruct items).
  destruct (UpsertBatch _ _ _ _) as [r w'] eqn:Hu. apply UpsertBatch_inv in Hu. cbv zeta in *.
  destruct r as [n|e].
  - destruct Hu as (-> & Hne & rp & Hv & ->). left. unfold ok_json. rewrite status_json, page_json.
    by rewrite run_onChanged_view, notifyAudit_repo.
  - destruct Hu as (_ & Hv & Hnil). right. split; [apply httpError_not_200|]. split; [done|].
    intros [-> ->]%Hnil. by rewrite status_httpError.
Qed.

(** ** The dashboard *)

Lemma foldr_append_elem (l : list string) t : t ∈ l →
  ∃ a b, foldr String.append EmptyString l = a +:+ t +:+ b.
Proof.
  induction 1 as [t l|t x l _ (a & b & IH)]; simpl.
  - by exists EmptyString, (foldr String.append EmptyString l).
  - exists (x +:+ a), b. by rewrite IH, str_app_assoc.
Qed.

(** The dashboard shows every gauge under its name as it is, markup
    characters included: a metric name reaches the page unescaped. *)
Theorem Index_raw_names order ctx req w k v s r :
  (∀ A (m : gmap string A), order A m ≡ₚ map_to_list m) →
  RepoSnapshot ctx (w_repo w) = (Ok s, r) → Gauges (view w) !! k = Some v →
  ∃ a b, page (Index order ctx req w).1 = a +:+ k +:+ b ∧ status (Index order ctx req w).1 = 200.
Proof using HL.
  intros Ho Hs Hk. unfold Index, SnapshotAll, on_repo. rewrite Hs.
  apply RepoSnapshot_ok in Hs. subst s. unfold status, page. cbn [fst]. rewrite respond_render.
  cbn [w_status w_body]. unfold index_page, index_table.
  destruct (foldr_append_elem ((λ kv, index_row kv.1 (FormatFloat kv.2)) <$>
    order _ (Gauges (view w))) (index_row k (FormatFloat v))) as (a & b & ->).
  { apply list_elem_of_fmap. exists (k, v). split; [done|]. rewrite Ho. by apply elem_of_map_to_list. }
  unfold index_row. eexists (index_head +:+ ("<h2>" +:+ ("Gauge" +:+
    ("</h2><table><tr><th>Name</th><th>Value</th></tr>" +:+ (a +:+ "<tr><td>"))))), _.
  rewrite <- !str_app_assoc. done.
Qed.

(** ** The snapshot as JSON *)

Lemma sorted_keys_map {A} (m : gmap string A) (zero : A) :
  list_to_map ((λ k, (k, default zero (m !! k))) <$> sorted_keys m) = m.
Proof.
  assert ((λ k, (k, default zero (m !! k))) <$> sorted_keys m ≡ₚ map_to_list m) as Hp.
  { unfold sorted_keys. rewrite SortStrings_perm. rewrite <- list_fmap_compose.
    assert ((λ kv : string * A, (kv.1, default zero (m !! kv.1))) <$> map_to_list m = map_to_list m) as Heq.
    { rewrite <- (list_fmap_id (map_to_list m)) at 2. apply list_fmap_ext.
      intros i [k v] Hi%list_elem_of_lookup_2. apply elem_of_map_to_list in Hi. simpl. by rewrite Hi. }
    change ((λ kv : string * A, (kv.1, default zero (m !! kv.1))) <$> map_to_list m ≡ₚ map_to_list m).
    by rewrite Heq. }
  rewrite <- (list_to_map_to_list m) at 2. apply list_to_map_proper; [|done].
  rewrite Hp. apply NoDup_fst_map_to_list.
Qed.

(** The members of an object of numbers, as a map. *)
Definition read_map {A} (read : string → option A) (v : value) : gmap string A :=
  match v with
  | Obj l => list_to_map (omap (λ kv, match kv.2 with
                                       | Number t => pair kv.1 <$> read t | _ => None end) l)
  | _ => ∅
  end.

Lemma wire_map {A} (m : gmap string A) (zero : A) (enc : A → string) (read : string → option A) D :
  (∀ k v, m !! k = Some v → utf8 k ∧ read (enc v) = Some v ∧
    ∀ D, wire D (enc v) (Number (enc v))) → (D ≤ max_depth)%nat →
  ∃ v, wire D (object_text compact ((λ k, (k, enc (default zero (m !! k)))) <$> sorted_keys m)) v ∧
    read_map read v = m.
Proof.
  intros Hm HD. exists (Obj ((λ k, (k, Number (enc (default zero (m !! k))))) <$> sorted_keys m)).
  assert (∀ k, k ∈ sorted_keys m → ∃ v, m !! k = Some v) as Hin.
  { intros k. unfold sorted_keys. rewrite SortStrings_perm, list_elem_of_fmap.
    intros ([k' v] & -> & Hk). apply elem_of_map_to_list in Hk. by exists v. }
  split.
  - apply wire_object; [apply compact_ok| |done]. rewrite Forall2_fmap.
    apply Forall_Forall2_diag, Forall_forall.
    intros k Hk. destruct (Hin k Hk) as [v Hv]. simpl. rewrite Hv. simpl.
    destruct (Hm k v Hv) as (Hu & _ & Hw). auto.
  - simpl. rewrite <- (sorted_keys_map m zero) at 2. f_equal.
    induction (sorted_keys m) as [|k l IH]; csimpl; [done|].
    destruct (Hin k) as [v Hv]; [left|]. rewrite Hv. simpl.
    destruct (Hm k v Hv) as (_ & -> & _). csimpl. rewrite IH; [done|].
    intros k' Hk'. apply Hin. by right.
Qed.

Definition float_text (v : float64) : string := default EmptyString (encode_float v).

Lemma wire_float D v : finite v →
  encode_float v = Some (float_text v) ∧ ok_opt (ParseFloat (float_text v)) = Some v ∧
  wire D (float_text v) (Number (float_text v)).
Proof.
  intros (Hwf & Hn & Hi). destruct (encode_float_wire v Hwf Hn Hi) as (lit & Hlit & Hp & Hw).
  unfold float_text. rewrite Hlit. simpl. rewrite Hp. split; [done|]. split; [done|].
  apply wire_number; [|done]. intros ->. specialize (Hw EmptyString ltac:(done)).
  by vm_compute in Hw.
Qed.

Lemma encode_gauges_text m : (∀ k v, m !! k = Some v → finite v) →
  encode_gauges m = Some (object_text compact ((λ k, (k, float_text (default f64_zero (m !! k)))) <$> sorted_keys m)).
Proof.
  intros Hm. unfold encode_gauges.
  assert (∀ k, encode_float (default f64_zero (m !! k)) =
    Some (float_text (default f64_zero (m !! k)))) as Hk.
  { intros k. apply (wire_float 0). destruct (m !! k) as [v|] eqn:Hv; [by eapply Hm|].
    by split_and!; vm_compute. }
  assert (∀ l, mapM (λ k, t ← encode_float (default f64_zero (m !! k)); Some (k, t)) l =
    Some ((λ k, (k, float_text (default f64_zero (m !! k)))) <$> l)) as ->; [|done].
  induction l as [|k l IH]; [done|]. cbn [mapM]. rewrite Hk. simpl. by rewrite IH.
Qed.

(** The page of a snapshot JSON can express. *)
Lemma snapshot_page s : sendable_snapshot s → ∃ c g,
  decode_first (page (ok_json (encode_snapshot s))) = Some (Obj [("counters", c); ("gauges", g)]) ∧
  read_map (λ t, ok_opt (ParseInt t)) c = Counters s ∧
  read_map (λ t, ok_opt (ParseFloat t)) g = Gauges s.
Proof.
  intros [Hg Hc].
  unfold encode_snapshot. rewrite encode_gauges_text by (intros k v Hk; by apply (Hg k v Hk)).
  cbn [mbind option_bind ok_json]. rewrite page_json.
  destruct (wire_map (Counters s) 0 FormatInt (λ t, ok_opt (ParseInt t)) 2) as (c & Hwc & Hrc).
  { intros k d Hk. destruct (Hc k d Hk) as [Hu Hd]. rewrite ParseInt_FormatInt by done.
    split; [done|]. split; [done|]. intros D. by apply wire_delta. }
  { unfold max_depth. lia. }
  destruct (wire_map (Gauges s) f64_zero float_text (λ t, ok_opt (ParseFloat t)) 2)
    as (g & Hwg & Hrg).
  { intros k v Hk. destruct (Hg k v Hk) as [Hu Hv]. split; [done|].
    split; [by apply (wire_float 0)|]. intros D. by apply wire_float. }
  { unfold max_depth. lia. }
  exists c, g. split; [|done]. apply decode_wire, wire_object; [apply compact_ok| |unfold max_depth; lia].
  repeat constructor; simpl; try done; by apply utf8_literal.
Qed.

(** One float that JSON cannot express spoils the map. *)
Lemma encode_gauges_None m k v : m !! k = Some v → is_nan v || is_inf v = true → encode_gauges m = None.
Proof.
  intros Hk Hv. unfold encode_gauges.
  assert (k ∈ sorted_keys m) as Hin.
  { unfold sorted_keys. rewrite SortStrings_perm. apply list_elem_of_fmap. exists (k, v).
    split; [done|by apply elem_of_map_to_list]. }
  destruct (mapM _ (sorted_keys m)) as [l|] eqn:Hm; [|done]. exfalso.
  apply mapM_Some in Hm. apply list_elem_of_lookup in Hin as [i Hi].
  destruct (Forall2_lookup_l _ _ _ _ _ Hm Hi) as (y & _ & Hy). rewrite Hk in Hy. simpl in Hy.
  by rewrite (proj2 (encode_float_None v) Hv) in Hy.
Qed.

(** The names and numbers of a snapshot; gauges may be NaN or infinite. *)
Definition proper_snapshot (s : Snapshot) : Prop :=
  (∀ k v, Gauges s !! k = Some v → utf8 k ∧ float_wf v) ∧
  (∀ k d, Counters s !! k = Some d → utf8 k ∧ in_int64 d).

(** [C28] [GET /api/v1/snapshot] answers 200, for names in UTF-8.  When all gauges are
    finite the page is a JSON object whose members [gauges] and [counters] are exactly
    the maps of the repository's snapshot.  One gauge that is NaN or infinite, which
    [POST /update/gauge/x/NaN] stores, and the page is empty. *)
Theorem SnapshotJSON_spec ctx req w s r :
  RepoSnapshot ctx (w_repo w) = (Ok s, r) → proper_snapshot (view w) →
  let calls := (SnapshotJSON ctx req w).1 in
  status calls = 200 ∧
  ((∃ c g, map_Forall (λ _ v, finite v) (Gauges (view w)) ∧
     decode_first (page calls) = Some (Obj [("counters", c); ("gauges", g)]) ∧
     read_map (λ t, ok_opt (ParseInt t)) c = Counters (view w) ∧
     read_map (λ t, ok_opt (ParseFloat t)) g = Gauges (view w)) ∨
   (∃ k v, Gauges (view w) !! k = Some v ∧ is_nan v || is_inf v = true ∧ page calls = EmptyString)).
Proof using HL.
  intros Hs [Hg Hc]. unfold SnapshotJSON, SnapshotAll, on_repo. rewrite Hs.
  apply RepoSnapshot_ok in Hs. subst s. cbn [fst]. cbv zeta. split; [apply status_ok_json|].
  destruct (decide (map_Forall (λ _ v, is_nan v || is_inf v = false) (Gauges (view w)))) as [Hfin|Hnot].
  - left. destruct (snapshot_page (view w)) as (c & g & Hpage & Hrest).
    { split; intros k x Hk; [|by apply Hc]. destruct (Hg k x Hk) as [Hu Hwf]. split; [done|].
      pose proof (Hfin k x Hk) as [? ?]%orb_false_iff. by split_and!. }
    exists c, g. split; [|done]. intros k x Hk. destruct (Hg k x Hk) as [_ Hwf].
    pose proof (Hfin k x Hk) as [? ?]%orb_false_iff. by split_and!.
  - right. apply map_not_Forall in Hnot as (k & v & Hk & Hv); [|apply _].
    exists k, v. split; [done|]. apply not_false_iff_true in Hv. split; [done|].
    unfold encode_snapshot. rewrite (encode_gauges_None _ _ _ Hk Hv). apply render_failed_spec.
Qed.

(** ** A repository that does not fail *)
Section total.
Context {HT : RepoTotal R}.

Lemma Upsert_succeeds ctx m w : TrimSpace (ID m) ≠ EmptyString → storable m = true →
  ∃ res w', Upsert svc ctx m w = (Ok res, w').
Proof using HL HT.
  intros Hid Hst. destruct (Upsert svc ctx m w) as [[res|e] w'] eqn:Hu; [eauto|].
  assert (is_ok (Upsert svc ctx m w).1 = true) as Hok.
  { apply (proj2 (Upsert_total svc ctx m w)). rewrite normalize_storable by done. eauto. }
  by rewrite Hu in Hok.
Qed.

(** What [Upsert] answers is what [Get] then finds. *)
Lemma Upsert_Get ctx ctx' m w res w' : Upsert svc ctx m w = (Ok res, w') →
  ∃ w2, Get ctx' (MType m) (ID m) w' = (Ok res, w2).
Proof using HL HT.
  intros Hu. pose proof (Upsert_inv _ _ _ _ _ _ Hu) as (Hid & Hst & Hv & _ & Hri & Hrt & Hrg & Hrc & _).
  set (id := TrimSpace (ID m)) in *. set (m' := set_ID m id) in *.
  assert (MType m = Gauge ∨ MType m = Counter) as Hty.
  { unfold storable in Hst. repeat case_decide; auto; done. }
  destruct (Get ctx' (MType m) (ID m) w') as [r w2] eqn:Hg. exists w2.
  assert (is_ok (Get ctx' (MType m) (ID m) w').1 = true) as Hok.
  { apply Get_total; [done|]. fold id. rewrite Hv. destruct Hty as [Ht|Ht]; [left|right]; (split; [done|]).
    - change id with (ID m'). rewrite (put_storable_gauge repo_put m') by done. unfold storable in Hst. rewrite decide_True in Hst by done.
      simpl. by destruct (Value m).
    - change id with (ID m'). destruct (put_storable_counter repo_put m' (view w)) as (d & _ & ->); [done..|eauto]. }
  rewrite Hg in Hok. destruct r as [r|e]; [|done]. do 2 f_equal.
  apply Get_inv in Hg as (_ & Hv2 & Hgi & _ & Hgt & Hval). fold id in Hgi. rewrite Hgi, Hv in Hval.
  destruct r as [rd rv ri rt], res as [sd sv si st]. cbn [Delta Value ID MType] in *.
  subst ri rt si st. destruct Hty as [Ht|Ht].
  - destruct (Hrg Ht) as [-> ->]. destruct Hval as [(_ & Hval & _ & ->)|(E0 & _)]; [|by rewrite E0 in Ht].
    rewrite (put_storable_gauge _ m') in Hval by done. by rewrite Hval.
  - destruct (Hrc Ht) as (-> & d & Hd & ->).
    destruct Hval as [(E0 & _)|(_ & Hval & _ & ->)]; [by rewrite E0 in Ht|].
    destruct (put_storable_counter repo_put m' (view w)) as (d' & Hd' & Hp); [done..|].
    change (Delta m = Some d') in Hd'. rewrite Hd in Hd'. injection Hd' as <-.
    change (ID m') with id in Hp. by rewrite Hval, Hp.
Qed.

(** [C21] A value posted as text is read back as text: after
    [POST /update/:type/:name/:value] with a value of its type, the [GET] of the same
    name answers 200 with the gauge's shortest decimal, which parses to the same
    float, or with the counter's new total. *)
Theorem text_roundtrip p ctx ctx' req req' m w :
  TrimSpace (p "name") ≠ EmptyString → parse_update p = Some m →
  let '(c1, w1) := UpdateMetric svc p ctx req w in
  status c1 = 200 ∧ ∃ c2, (GetMetric p ctx' req' w1).1 = Some c2 ∧ status c2 = 200 ∧
  (∀ v, Value m = Some v → page c2 = FormatFloat v ∧
    (float_wf v → is_nan v = false → ParseFloat (page c2) = Ok v)) ∧
  (∀ d, Delta m = Some d →
    page c2 = FormatInt (add64 (default 0 (Counters (view w) !! TrimSpace (p "name"))) d)).
Proof using HL HT.
  intros Hn Hp. unfold UpdateMetric, GetMetric. rewrite bool_decide_false, Hp by done.
  destruct (parse_update_Some _ _ Hp) as (Hid & Hty & Hst & Hcase).
  destruct (Upsert_succeeds (client_ctx ctx req) m w) as (res & w1 & Hu); [by rewrite Hid|done|].
  rewrite Hu, status_text. split; [done|]. rewrite <- Hid, <- Hty.
  destruct (Upsert_Get _ ctx' _ _ _ _ Hu) as [w2 ->].
  apply Upsert_inv in Hu as (_ & _ & _ & _ & _ & _ & Hg & Hc & _).
  destruct Hcase as [(Ht & (v & _ & Hv) & Hd)|(Ht & (d & _ & Hd) & Hv)]; rewrite <- Hty in Ht.
  - rewrite bool_decide_true by done. destruct (Hg Ht) as [-> _]. rewrite Hv. simpl.
    eexists. split; [done|]. rewrite status_text, page_text. split; [done|].
    split; [|by rewrite Hd]. intros v' [= <-]. split; [done|]. apply ParseFloat_FormatFloat.
  - rewrite bool_decide_false, bool_decide_true by (done || by rewrite Ht).
    destruct (Hc Ht) as (_ & d' & Hd' & ->). rewrite Hd in Hd'. injection Hd' as <-. simpl.
    eexists. split; [done|]. rewrite status_text, page_text. split; [done|].
    split; [by rewrite Hv|]. rewrite Hd. by intros d' [= <-].
Qed.

(** What [Upsert] answers for an item JSON can express is one, too. *)
Lemma Upsert_sendable ctx m w res w' : sendable m → TrimSpace (ID m) = ID m →
  Upsert svc ctx m w = (Ok res, w') → sendable res.
Proof using HL HT.
  intros [Hid Hty Hd Hv] Htrim Hu.
  apply Upsert_inv in Hu as (_ & Hst & _ & _ & Hri & Hrt & Hg & Hc & _).
  unfold storable in Hst. rewrite Htrim in Hri.
  split; [by rewrite Hri|by rewrite Hrt|unfold metric_wf|]; case_decide as Ht.
  - destruct (Hg Ht) as [_ ->]. done.
  - case_decide as Htc; [|done]. destruct (Hc Htc) as (_ & d & _ & ->). apply add64_range.
  - destruct (Hg Ht) as [-> _]. done.
  - case_decide as Htc; [|done]. by destruct (Hc Htc) as (-> & _).
Qed.

(** [C22] A metric posted as JSON to [/update] is answered with 200 and the stored
    metric as JSON, which decodes to the gauge's value or the counter's new total;
    asking [/value] for it afterwards answers the same page. *)
Theorem json_roundtrip ctx ctx' req m t w :
  sendable m → storable m = true → TrimSpace (ID m) = ID m → ID m ≠ EmptyString →
  encode_metric m = Some t → body req = Ok t →
  ∃ c1 w1 res c2 w2, UpdateMetricJSON svc ctx req w = (c1, w1) ∧ status c1 = 200 ∧
    decode_one false (page c1) = Ok res ∧ ID res = ID m ∧ MType res = MType m ∧
    (MType m = Gauge → Value res = Value m ∧ Delta res = None) ∧
    (MType m = Counter → Value res = None ∧ ∃ d, Delta m = Some d ∧
      Delta res = Some (add64 (default 0 (Counters (view w) !! ID m)) d)) ∧
    GetMetricJSON ctx' req w1 = (c2, w2) ∧ status c2 = 200 ∧ page c2 = page c1.
Proof using HL HT.
  intros Hs Hst Htrim Hne Ht Hb.
  destruct (decode_one_encode false m Hs) as (t' & Ht' & Hdec). rewrite Ht in Ht'.
  injection Ht' as <-. assert (bind_metric req = Some m) as Hbind.
  { unfold bind_metric. rewrite ShouldBindJSON_spec, Hb, Hdec, Htrim. by rewrite bool_decide_false. }
  destruct (Upsert_succeeds (client_ctx ctx req) m w) as (res & w1 & Hu); [by rewrite Htrim|done|].
  destruct (decode_one_encode false res) as (tr & Etr & Hdr); [by eapply Upsert_sendable|].
  destruct (Upsert_Get _ ctx' _ _ _ _ Hu) as [w2 Hget].
  exists (ok_json (Some tr)), w1, res, (ok_json (Some tr)), w2.
  unfold UpdateMetricJSON, GetMetricJSON. rewrite Hbind, Hu, Hget, Etr.
  apply Upsert_inv in Hu as (_ & _ & _ & _ & Hri & Hrt & Hg & Hc & _). rewrite Htrim in *.
  unfold ok_json. rewrite status_json, page_json. auto 15.
Qed.

(** The single endpoint on the text of a metric. *)
Lemma single_handler ctx req m t w :
  sendable m → storable m = true → TrimSpace (ID m) = ID m → ID m ≠ EmptyString →
  encode_metric m = Some t → body req = Ok t →
  ∃ tr w', tr ≠ EmptyString ∧ UpdateMetricJSON svc ctx req w = (json 200 tr, w') ∧
    view w' = repo_put m (view w).
Proof using HL HT.
  intros Hs Hst Htrim Hne Ht Hb.
  destruct (decode_one_encode false m Hs) as (t' & Ht' & Hdec). rewrite Ht in Ht'.
  injection Ht' as <-. assert (bind_metric req = Some m) as Hbind.
  { unfold bind_metric. rewrite ShouldBindJSON_spec, Hb, Hdec, Htrim. by rewrite bool_decide_false. }
  destruct (Upsert_succeeds (client_ctx ctx req) m w) as (res & w1 & Hu); [by rewrite Htrim|done|].
  destruct (decode_one_encode false res) as (tr & Etr & Hdr); [by eapply Upsert_sendable|].
  exists tr, w1. unfold UpdateMetricJSON. rewrite Hbind, Hu, Etr. split; [|split; [done|]].
  - intros ->. unfold encode_metric, encode_metric_in in Etr. by destruct (metric_members res).
  - apply Upsert_inv in Hu as (_ & _ & -> & _). rewrite Htrim. by destruct m.
Qed.

(** The batch endpoint on the text of a batch, whatever the pooled buffer holds. *)
Lemma batch_handler ctx req items t w grow buf :
  Forall sendable items → Forall (λ m, storable m = true) items →
  encode_batch items = Some t → body req = Ok t → omap normalize items ≠ [] →
  ∃ w' buf', UpdateMetricsBatchJSON svc grow ctx req (w, buf) =
      (json 200 (object_text compact [("updated", FormatInt (Z.of_nat (length (omap normalize items))))]),
       (w', buf')) ∧
    view w' = put_all repo_put (omap normalize items) (view w).
Proof using HL HT.
  intros Hs Hst Ht Hb Hne.
  destruct (batch_decodes grow buf items Hs Hst) as (t' & got & buf' & Et & Hd & Hc & _).
  rewrite Ht in Et. injection Et as <-. apply normalize_canonical_eq in Hc.
  assert (length (omap normalize got) = length (omap normalize items)) as Hl.
  { apply (f_equal length) in Hc. by rewrite !length_fmap in Hc. }
  destruct (UpsertBatch_total svc (client_ctx ctx req) got w) as (w' & Hu & Hv).
  { intros HE. rewrite HE in Hl. by destruct (omap normalize items). }
  exists w', buf'. unfold UpdateMetricsBatchJSON. rewrite Hb, Hd.
  assert (cloneMetrics got = got) as -> by (unfold cloneMetrics; case_bool_decide; by destruct got).
  rewrite Hu, Hl. split; [done|]. rewrite Hv. by apply put_all_canonical; [apply repo_put_laws|].
Qed.
End total.
End specs.

(** ** Examples: the memory repository *)
#[local] Existing Instance plain_gin.
#[local] Existing Instance plain_binding.

Definition demo_params (ty name value : string) : params := λ k,
  if bool_decide (k = "type") then ty else if bool_decide (k = "name") then name else value.

Definition demo_req (b : string) : Request := mkRequest "POST" "/" ∅ (Ok b) "10.0.0.1".

Definition demo_gauges : World Memory.Repo Z :=
  New demo_svc (Memory.mkRepo {["<b>" := mkFloat64 4607182418800017408]} {["hits" := 7]}) 0.

Definition demo_post : params := demo_params Counter " hits " "41".

Lemma UpdateMetric_spec_witness :
  let w' := (UpdateMetric demo_svc demo_post Background (demo_req EmptyString) demo_gauges).2 in
  repo_view (w_repo w') = repo_put (counter_metric "hits" 41) (repo_view (w_repo demo_gauges)).
Proof.
  pose proof (UpdateMetric_spec demo_svc demo_post Background (demo_req EmptyString) demo_gauges) as H.
  assert (status (UpdateMetric demo_svc demo_post Background (demo_req EmptyString) demo_gauges).1 = 200)
    as Hs by (vm_compute; reflexivity).
  assert (parse_update demo_post = Some (mkMetrics (Some 41) None " hits " Counter)) as Hp
    by (vm_compute; reflexivity).
  destruct (UpdateMetric _ _ _ _ _) as [calls w']. cbn [fst snd] in *.
  destruct H as [(_ & H & _)|[(_ & _ & H & _)|(m & _ & Hm & [(_ & _ & H & _)|[H _]])]];
    rewrite ?Hs in H; try discriminate H; [|by destruct H].
  rewrite Hp in Hm. injection Hm as <-. exact H.
Defined.

Lemma text_roundtrip_witness :
  let p := demo_params Gauge "load" "0.1" in
  ∃ c, (GetMetric p Background (demo_req EmptyString)
          (UpdateMetric demo_svc p Background (demo_req EmptyString) demo_gauges).2).1 = Some c ∧
    status c = 200 ∧ page c = "0.1".
Proof.
  cbv zeta. destruct (parse_update (demo_params Gauge "load" "0.1")) as [m|] eqn:Hp;
    [|vm_compute in Hp; discriminate Hp].
  pose proof (text_roundtrip demo_svc (demo_params Gauge "load" "0.1") Background Background
    (demo_req EmptyString) (demo_req EmptyString) m demo_gauges) as H.
  specialize (H ltac:(by vm_compute) Hp).
  destruct (UpdateMetric _ _ _ _ _) as [c1 w1]. destruct H as (_ & c2 & H2 & Hs & Hv & _).
  exists c2. split; [exact H2|]. split; [exact Hs|]. vm_compute in Hp. injection Hp as <-.
  destruct (Hv _ eq_refl) as [-> _]. vm_compute. reflexivity.
Defined.

Lemma json_roundtrip_witness : ∃ c1 w1,
  UpdateMetricJSON demo_svc Background
    (demo_req (default EmptyString (encode_metric (counter_metric "hits" 5)))) demo_gauges = (c1, w1) ∧
  status c1 = 200 ∧ decode_one false (page c1) = Ok (counter_metric "hits" 12).
Proof.
  destruct (json_roundtrip demo_svc Background Background
    (demo_req (default EmptyString (encode_metric (counter_metric "hits" 5))))
    (counter_metric "hits" 5) (default EmptyString (encode_metric (counter_metric "hits" 5)))
    demo_gauges) as (c1 & w1 & [rd rv ri rt] & c2 & w2 & H1 & Hs & Hd & Hi & Ht & _ & Hc & _).
  - by apply sendable_counter; [apply utf8_literal|vm_compute].
  - reflexivity.
  - vm_compute. reflexivity.
  - done.
  - vm_compute. reflexivity.
  - vm_compute. reflexivity.
  - exists c1, w1. split; [exact H1|]. split; [exact Hs|]. rewrite Hd.
    cbn in Hi, Ht, Hc. destruct (Hc eq_refl) as (-> & d & [= <-] & ->). subst. reflexivity.
Defined.

Lemma Index_raw_names_witness : ∃ a b,
  page (Index (λ A m, map_to_list m) Background (demo_req EmptyString) demo_gauges).1 =
    a +:+ "<b>" +:+ b.
Proof.
  destruct (Index_raw_names (λ A m, map_to_list m) Background (demo_req EmptyString) demo_gauges
    "<b>" (mkFloat64 4607182418800017408) (repo_view (w_repo demo_gauges)) (w_repo demo_gauges))
    as (a & b & H & _); [done|reflexivity|reflexivity|].
  exists a, b. exact H.
Defined.

Definition demo_infinite : World Memory.Repo Z :=
  mkWorld (Memory.mkRepo {["x" := mkFloat64 9218868437227405312]} ∅) 0 None false false WorkerWaiting [].

(** A snapshot as it is, and one with +Inf. *)
Lemma SnapshotJSON_spec_witness :
  (∃ c g, decode_first (page (SnapshotJSON Background (demo_req EmptyString) demo_gauges).1) =
    Some (Obj [("counters", c); ("gauges", g)]) ∧
    read_map (λ t, ok_opt (ParseInt t)) c = {["hits" := 7]}) ∧
  page (SnapshotJSON Background (demo_req EmptyString) demo_infinite).1 = EmptyString.
Proof.
  split.
  - destruct (SnapshotJSON_spec Background (demo_req EmptyString) demo_gauges
      (repo_view (w_repo demo_gauges)) (w_repo demo_gauges)) as (_ & [(c & g & _ & H & Hc & _)|(k & v & Hk & Hv & _)]).
    + reflexivity.
    + split; intros k v Hk.
      * change (({["<b>" := mkFloat64 4607182418800017408]} : gmap string float64) !! k = Some v) in Hk.
        apply lookup_singleton_Some in Hk as [<- <-].
        split; [by apply utf8_literal|]. by split_and!; vm_compute.
      * change (({["hits" := 7]} : gmap string Z) !! k = Some v) in Hk.
        apply lookup_singleton_Some in Hk as [<- <-].
        split; [by apply utf8_literal|]. by vm_compute.
    + exists c, g. split; [exact H|exact Hc].
    + change (({["<b>" := mkFloat64 4607182418800017408]} : gmap string float64) !! k = Some v) in Hk.
      apply lookup_singleton_Some in Hk as [_ <-]. vm_compute in Hv. discriminate Hv.
  - destruct (SnapshotJSON_spec Background (demo_req EmptyString) demo_infinite
      (repo_view (w_repo demo_infinite)) (w_repo demo_infinite)) as (_ & [(c & g & Hfin & _)|(k & v & _ & _ & H)]).
    + reflexivity.
    + split; intros k v Hk.
      * change (({["x" := mkFloat64 9218868437227405312]} : gmap string float64) !! k = Some v) in Hk.
        apply lookup_singleton_Some in Hk as [<- <-].
        split; [by apply utf8_literal|]. by split_and!; vm_compute.
      * change ((∅ : gmap string Z) !! k = Some v) in Hk. rewrite lookup_empty in Hk. discriminate Hk.
    + destruct (Hfin "x" (mkFloat64 9218868437227405312) eq_refl) as (_ & _ & Hinf).
      vm_compute in Hinf. discriminate Hinf.
    + exact H.
Defined.
End HandlersSpec.
