(* ===== verification/AuditQueue.v ===== *)
(** * The audit queue of the metrics service

    The goroutine started by [initAuditDispatcher], [Close], and the requests
    that enqueue events, as a step relation on the [World] of the service.  A
    request is one step: the queue only sees its single send.  The channel is
    the list [w_queue], received from the front. *)

From S2P Require Import Prelude GoStrings GoInt GoErrors Domain Ports Memory.
From S2P Require Import Observer Service ServiceSpec.
Open Scope Z_scope.

Module AuditQueue.
Import Audit Service ServiceSpec.

Section queue.
Context {R E : Type} `{HL : RepoLaws R}.
Context (svc : Service E).
Implicit Types w : World R E.

Definition set_worker w (q : option (list auditEvent)) (wk : worker) : World R E :=
  mkWorld (w_repo w) (w_env w) q (w_stop w) (w_cancelled w) wk (w_trace w).

(** ** Steps of the goroutine: the two branches of its [select] (a cancelled
    context does not prevent the receive), and the end of [Publish]. *)
Inductive worker_step : World R E → World R E → Prop :=
  | worker_receive w m q :
      w_worker w = WorkerWaiting → w_queue w = Some (m :: q) →
      worker_step w (set_worker w (Some q) (WorkerPublishing m))
  | worker_publish w m pub :
      w_worker w = WorkerPublishing m → auditor svc = Some pub →
      worker_step w
        (mkWorld (w_repo w) (pub (ae_ctx m) (ae_evt m) (w_env w)) (w_queue w) (w_stop w)
           (w_cancelled w) WorkerWaiting (w_trace w ++ [Published m]))
  | worker_return w :
      w_worker w = WorkerWaiting → w_cancelled w = true →
      worker_step w (set_worker w (w_queue w) WorkerReturned).

(** ** Steps of the rest of the program: requests, and [Close] in two steps,
    cancelling and, once [auditWG.Wait] returns, dropping the channel. *)
Inductive step : World R E → World R E → Prop :=
  | step_worker w w' : worker_step w w' → step w w'
  | step_Upsert ctx m w : step w (Upsert svc ctx m w).2
  | step_UpsertBatch ctx items w : step w (UpsertBatch svc ctx items w).2
  | step_Get ctx ty id w : step w (Get ctx ty id w).2
  | step_cancel w :
      w_stop w = true →
      step w (mkWorld (w_repo w) (w_env w) (w_queue w) true true (w_worker w) (w_trace w))
  | step_closed w :
      w_stop w = true → w_cancelled w = true → w_worker w = WorkerReturned →
      step w (mkWorld (w_repo w) (w_env w) None false true (w_worker w) (w_trace w)).

(** ** What the history says *)
Definition queued_of (tr : list audit_act) : list auditEvent :=
  omap (λ a, match a with Queued m => Some m | _ => None end) tr.
Definition published_of (tr : list audit_act) : list auditEvent :=
  omap (λ a, match a with Published m => Some m | _ => None end) tr.
Definition dropped_of (tr : list audit_act) : list auditEvent :=
  omap (λ a, match a with Dropped m => Some m | _ => None end) tr.

Definition in_flight (wk : worker) : list auditEvent :=
  match wk with WorkerPublishing m => [m] | _ => [] end.

Lemma queued_of_app tr tr' : queued_of (tr ++ tr') = queued_of tr ++ queued_of tr'.
Proof. apply omap_app. Qed.
Lemma published_of_app tr tr' : published_of (tr ++ tr') = published_of tr ++ published_of tr'.
Proof. apply omap_app. Qed.

(** With the channel open, the events sent are those published, the one in
    flight and those waiting, in this order; once it is closed, what was waiting
    is lost and later events are published by the requests themselves. *)
Definition fifo w : Prop :=
  match w_queue w with
  | Some q =>
      (length q ≤ auditQueueSize)%nat ∧
      queued_of (w_trace w) = published_of (w_trace w) ++ in_flight (w_worker w) ++ q
  | None => w_worker w = WorkerReturned ∧ ∃ done lost direct,
      queued_of (w_trace w) = done ++ lost ∧ published_of (w_trace w) = done ++ direct
  end.

(** The dynamic fields other than the repository and the environment. *)
Definition control w : option (list auditEvent) * worker * list audit_act :=
  (w_queue w, w_worker w, w_trace w).

Lemma fifo_control w w' : control w = control w' → fifo w → fifo w'.
Proof. destruct w, w'. unfold fifo, control. simpl. by intros [= -> -> ->]. Qed.

Lemma only_repo_control w w' : only_repo w w' → control w = control w'.
Proof. unfold only_repo. by intros ->. Qed.

Lemma run_onChanged_control ctx w : control (run_onChanged svc ctx w) = control w.
Proof.
  unfold run_onChanged. destruct (onChanged svc); [|done].
  destruct (on_repo (RepoSnapshot ctx) w) as [x w'] eqn:Hs.
  apply on_repo_inv in Hs as (r & _ & ->). by destruct x.
Qed.

Lemma notifyAudit_fifo ctx names w : fifo w → fifo (notifyAudit svc ctx names w).
Proof.
  intros Hf. unfold notifyAudit. destruct (auditor svc) as [pub|]; [|done].
  case_decide; [done|]. unfold enqueueAudit, fifo in *. destruct (w_queue w) as [q|] eqn:Hq.
  - destruct Hf as [Hlen Hf]. case_decide; simpl; rewrite queued_of_app, published_of_app;
      csimpl; rewrite ?app_nil_r; (split; [rewrite ?length_app; simpl; lia|]); [|done].
    by rewrite Hf, !app_assoc.
  - destruct Hf as (Hw & dn & lost & direct & Hqd & Hp). simpl. split; [done|].
    exists dn, lost, (direct ++ [mkAuditEvent ctx (audit_event svc ctx (dedupNames names) w)]).
    rewrite queued_of_app, published_of_app. csimpl. by rewrite app_nil_r, Hqd, Hp, app_assoc.
Qed.

Lemma Upsert_fifo ctx m w : fifo w → fifo (Upsert svc ctx m w).2.
Proof using HL.
  intros Hf. rewrite Upsert_unfold. case_decide; [done|]. destruct (storable m) eqn:Hst; [|done].
  set (m' := set_ID m _). unfold io_bind.
  destruct (write_item ctx m' w) as [[u|e] w1] eqn:Hw; apply write_item_inv in Hw as [Hw1 _];
    try done; apply only_repo_control in Hw1; [|by eapply fifo_control].
  destruct (read_back svc ctx m' w1) as [r w2] eqn:Hr.
  apply read_back_inv in Hr as [_ Hr]; [|apply TrimSpace_idemp|done]. simpl.
  destruct r as [res|e].
  - destruct Hr as (_ & _ & _ & ->). apply notifyAudit_fifo. by eapply fifo_control.
  - apply only_repo_control in Hr. eapply fifo_control; [exact Hr|]. by eapply fifo_control.
Qed.

Lemma UpsertBatch_fifo ctx items w : fifo w → fifo (UpsertBatch svc ctx items w).2.
Proof using HL.
  intros Hf. destruct (UpsertBatch svc ctx items w) as [r w'] eqn:Hb. simpl.
  apply UpsertBatch_inv in Hb. cbv zeta in Hb. destruct r as [n|e].
  - destruct Hb as (_ & _ & rp & _ & ->).
    eapply fifo_control; [symmetry; apply run_onChanged_control|]. by apply notifyAudit_fifo.
  - destruct Hb as (Hw & _). eapply fifo_control; [by apply only_repo_control|done].
Qed.

Lemma step_fifo w w' : fifo w → step w w' → fifo w'.
Proof using HL.
  intros Hf Hs. destruct Hs as [w w' Hw|ctx m w|ctx items w|ctx ty id w|w Hst|w Hst Hc Hr].
  - unfold fifo in *. destruct Hw as [w m q Hwk Hq|w m pub Hwk Hp|w Hwk Hc]; simpl.
    + rewrite Hq, Hwk in Hf. simpl in *. destruct Hf as [Hl Hf]. split; [lia|done].
    + rewrite Hwk in Hf. destruct (w_queue w) as [q|]; [|by destruct Hf].
      destruct Hf as [Hl Hf]. rewrite queued_of_app, published_of_app. csimpl.
      split; [done|]. by rewrite app_nil_r, Hf, <- app_assoc.
    + rewrite Hwk in Hf. destruct (w_queue w); [done|by destruct Hf].
  - by apply Upsert_fifo.
  - by apply UpsertBatch_fifo.
  - destruct (Get ctx ty id w) as [r w'] eqn:Hg. apply Get_inv in Hg as [Hw _]. simpl.
    eapply fifo_control; [by apply only_repo_control|done].
  - done.
  - unfold fifo in *. simpl. rewrite Hr in *. split; [done|].
    destruct (w_queue w) as [q|]; [|by destruct Hf as [_ Hf]].
    destruct Hf as [_ Hf]. exists (published_of (w_trace w)), q, []. by rewrite app_nil_r.
Qed.

Lemma New_fifo repo env : is_Some (auditor svc) → fifo (New svc repo env).
Proof. intros [pub Hp]. unfold New, fifo. rewrite Hp. simpl. split; [unfold auditQueueSize; lia|done]. Qed.

Lemma reachable_fifo repo env w :
  is_Some (auditor svc) → rtc step (New svc repo env) w → fifo w.
Proof using HL. intros Ha Hr. eapply rtc_invariant; eauto using step_fifo, New_fifo. Qed.

(** [C29] In every reachable state with the channel open, the events accepted
    by the queue are, in order, those published, the one being published and at
    most 128 waiting ones: none is published twice, out of order, or without
    having been sent. *)
Theorem audit_fifo repo env w q :
  is_Some (auditor svc) → rtc step (New svc repo env) w → w_queue w = Some q →
  (length q ≤ auditQueueSize)%nat ∧
  queued_of (w_trace w) = published_of (w_trace w) ++ in_flight (w_worker w) ++ q.
Proof using HL.
  intros Ha Hr Hq. pose proof (reachable_fifo _ _ _ Ha Hr) as Hf. unfold fifo in Hf.
  by rewrite Hq in Hf.
Qed.

(** ** Delivery *)

Definition backlog w : nat :=
  2 * length (default [] (w_queue w)) + length (in_flight (w_worker w)).

(** The goroutine has not been told to stop. *)
Definition serving w : Prop :=
  w_cancelled w = false ∧ is_Some (w_queue w) ∧
  (w_worker w = WorkerWaiting ∨ ∃ m, w_worker w = WorkerPublishing m).

Lemma worker_step_backlog w w' :
  serving w → worker_step w w' → serving w' ∧ (backlog w' < backlog w)%nat.
Proof.
  intros (Hc & [q Hq] & Hwk) Hs. unfold serving, backlog.
  destruct Hs as [w m q' Hw Hq'|w m pub Hw Hp|w Hw Hc']; simpl; [| |congruence].
  - rewrite Hq', Hw. simpl. split; [eauto 6|lia].
  - rewrite Hq, Hw. simpl. split; [eauto 6|lia].
Qed.

Lemma worker_progress w :
  is_Some (auditor svc) → serving w →
  (w_queue w = Some [] ∧ w_worker w = WorkerWaiting) ∨ ∃ w', worker_step w w'.
Proof.
  intros [pub Hp] (Hc & [q Hq] & [Hw|[m Hw]]).
  - destruct q as [|m q]; [by left|right]. eauto using worker_step.
  - right. eauto using worker_step.
Qed.

(** As long as the service is not closed, every accepted event is
    published: the goroutine's own steps are finitely many, it is never stuck
    before the queue is empty, and then the published events are exactly the
    accepted ones, in the order they were accepted. *)
Theorem audit_delivers repo env w :
  is_Some (auditor svc) → rtc step (New svc repo env) w → serving w →
  (∀ w', worker_step w w' → (backlog w' < backlog w)%nat) ∧
  ∃ w', rtc worker_step w w' ∧ w_queue w' = Some [] ∧ w_worker w' = WorkerWaiting ∧
    published_of (w_trace w') = queued_of (w_trace w') ∧
    queued_of (w_trace w') = queued_of (w_trace w).
Proof using HL.
  intros Ha Hr Hs. split; [intros w' ?; by eapply worker_step_backlog|].
  remember (backlog w) as n eqn:Hn. revert w Hn Hr Hs.
  induction (lt_wf n) as [n _ IH]. intros w -> Hr Hs.
  destruct (worker_progress w Ha Hs) as [[Hq Hw]|[w1 Hw1]].
  - exists w. split; [apply rtc_refl|]. do 2 (split; [done|]). split; [|done].
    pose proof (reachable_fifo _ _ _ Ha Hr) as Hf. unfold fifo in Hf. rewrite Hq, Hw in Hf.
    destruct Hf as [_ Hf]. by rewrite Hf, !app_nil_r.
  - destruct (worker_step_backlog _ _ Hs Hw1) as [Hs1 Hlt].
    destruct (IH _ Hlt w1 eq_refl) as (w' & Hrun & Hq & Hw & Hpub & Hqd); [|done|].
    { eapply rtc_r; [done|]. by constructor. }
    exists w'. split; [by eapply rtc_l|]. do 2 (split; [done|]). split; [done|].
    rewrite Hqd. destruct Hw1; simpl; [done| |done].
    rewrite queued_of_app. csimpl. by rewrite app_nil_r.
Qed.

(** ** One event per write *)

Lemma notifyAudit_once ctx names w pub :
  auditor svc = Some pub → (∃ x, x ∈ names ∧ x ≠ EmptyString) →
  ∃ act evt, w_trace (notifyAudit svc ctx names w) = w_trace w ++ [act] ∧
    evt = mkAuditEvent ctx (audit_event svc ctx (dedupNames names) w) ∧
    act = match w_queue w with
          | None => Published evt
          | Some q => if decide (length q < auditQueueSize)%nat then Queued evt else Dropped evt
          end.
Proof.
  intros Hp (x & Hx & Hne). unfold notifyAudit. rewrite Hp.
  assert (x ∈ dedupNames names) as Hin.
  { rewrite dedupNames_list. apply dedup_list_elem; [|by rewrite SortStrings_perm].
    apply sorted_from_empty, SortStrings_sorted. }
  case_decide as Hl; [apply nil_length_inv in Hl; rewrite Hl in Hin; by apply elem_of_nil in Hin|].
  unfold enqueueAudit. destruct (w_queue w) as [q|]; [case_decide|]; simpl; eauto.
Qed.

(** A successful batch leaves exactly one trace in the audit: an event
    with the client's address and the names stored, sorted and without
    repetition, queued if there is room, published at once if there is no queue,
    and dropped only if 128 events are waiting. *)
Theorem UpsertBatch_audits_once ctx items w n w' pub :
  auditor svc = Some pub → UpsertBatch svc ctx items w = (Ok n, w') →
  ∃ act evt, w_trace w' = w_trace w ++ [act] ∧
    ae_ctx evt = ctx ∧ IPAddress (ae_evt evt) = ClientIPFromContext (Some ctx) ∧
    StronglySorted str_lt (EMetrics (ae_evt evt)) ∧
    (∀ x, x ∈ EMetrics (ae_evt evt) ↔ x ∈ ID <$> omap normalize items) ∧
    act = match w_queue w with
          | None => Published evt
          | Some q => if decide (length q < auditQueueSize)%nat then Queued evt else Dropped evt
          end.
Proof using HL.
  intros Hp Hb. apply UpsertBatch_inv in Hb. cbv zeta in Hb. destruct Hb as (_ & Hne & rp & _ & ->).
  assert (Hids : ∀ x, x ∈ ID <$> omap normalize items → x ≠ EmptyString).
  { intros x (m & -> & Hm)%list_elem_of_fmap. apply list_elem_of_omap in Hm as (it & _ & Hn).
    by apply normalize_Some in Hn as (_ & ? & _). }
  destruct (notifyAudit_once ctx (ID <$> omap normalize items) (set_repo w rp) pub Hp)
    as (act & evt & Htr & Hev & Hact).
  { destruct (omap normalize items) as [|v vs] eqn:Hv; [done|]. exists (ID v). split; [left|].
    apply Hids. left. }
  exists act, evt. pose proof (run_onChanged_control ctx
    (notifyAudit svc ctx (ID <$> omap normalize items) (set_repo w rp))) as [= _ _ ->].
  rewrite Htr, Hev. simpl. do 3 (split; [done|]).
  rewrite dedupNames_list. pose proof (sorted_from_empty _ (SortStrings_sorted (ID <$> omap normalize items))) as Hs.
  split; [by apply dedup_list_sorted|]. split; [|by rewrite <- dedupNames_list, Hact, Hev].
  intros x. rewrite dedup_list_elem, SortStrings_perm by done.
  split; [by intros [? _]|]. intros Hx. pose proof (Hids x Hx). done.
Qed.
End queue.

(** ** Shutdown *)

(** Closing the service can lose events that were accepted: in this run a
    request is answered with success, its event is queued, [Close] runs to its end,
    and the event has not been and will never be published by the goroutine. *)
Theorem Close_loses_events :
  ∃ w m, rtc (step demo_svc) demo_w w ∧
    w_queue w = None ∧ w_worker w = WorkerReturned ∧
    queued_of (w_trace w) = [m] ∧ published_of (w_trace w) = [].
Proof.
  eexists _, _. split.
  - eapply rtc_l; [apply (step_UpsertBatch demo_svc Background [demo_item])|].
    eapply rtc_l; [apply step_cancel; reflexivity|].
    eapply rtc_l; [apply step_worker, worker_return; reflexivity|].
    eapply rtc_l; [apply step_closed; reflexivity|]. apply rtc_refl.
  - vm_compute. eauto.
Qed.

(** ** Witnesses *)

Definition demo_queued : World Memory.Repo Z :=
  (UpsertBatch demo_svc Background [demo_item] demo_w).2.

Lemma demo_queued_reachable : rtc (step demo_svc) demo_w demo_queued.
Proof. eapply rtc_l; [apply (step_UpsertBatch demo_svc Background [demo_item])|]. apply rtc_refl. Qed.

Definition demo_audit_event : auditEvent := mkAuditEvent Background (mkEvent 0 ["hits"] EmptyString).

Lemma audit_fifo_witness : w_queue demo_queued = Some [demo_audit_event] ∧
  queued_of (w_trace demo_queued) =
    published_of (w_trace demo_queued) ++ in_flight (w_worker demo_queued) ++ [demo_audit_event].
Proof.
  assert (w_queue demo_queued = Some [demo_audit_event]) as Hq by (vm_compute; reflexivity).
  split; [exact Hq|].
  exact (proj2 (audit_fifo demo_svc Memory.New 0 demo_queued [demo_audit_event]
    (mk_is_Some _ _ eq_refl) demo_queued_reachable Hq)).
Defined.

Lemma audit_delivers_witness : ∃ w', rtc (worker_step demo_svc) demo_queued w' ∧
  queued_of (w_trace w') = [demo_audit_event] ∧ published_of (w_trace w') = [demo_audit_event].
Proof.
  destruct (audit_delivers demo_svc Memory.New 0 demo_queued (mk_is_Some _ _ eq_refl)
    demo_queued_reachable) as (_ & w' & Hrun & _ & _ & Hp & Hq).
  { vm_compute. repeat split; eauto. }
  exists w'. rewrite Hp, Hq. vm_compute. eauto.
Defined.

Lemma UpsertBatch_audits_once_witness : ∃ act evt,
  w_trace demo_queued = w_trace demo_w ++ [act] ∧ act = Queued evt.
Proof.
  assert (UpsertBatch demo_svc Background [demo_item] demo_w = (Ok 1%nat, demo_queued)) as Hb
    by (vm_compute; reflexivity).
  destruct (UpsertBatch_audits_once demo_svc Background [demo_item] demo_w 1 demo_queued _
    eq_refl Hb) as (act & evt & Ht & _ & _ & _ & _ & Hact).
  exists act, evt. split; [exact Ht|exact Hact].
Defined.

End AuditQueue.
