(* ===== verification/AuditLive.v ===== *)
(** * The audit queue is drained

    [AuditQueue] as an execution that goes on for ever: requests come as they like, and
    a fair scheduler lets the audit goroutine run.  Every event that was accepted is
    then published at some time, unless the service is closed before. *)

From S2P Require Import Prelude Fair GoStrings GoInt GoErrors Domain Ports Memory.
From S2P Require Import Observer Service ServiceSpec AuditQueue.
Open Scope Z_scope.

Module AuditLive.
Import Audit Service ServiceSpec AuditQueue.

(** The audit goroutine goes on, or something else happens. *)
Inductive label : Type := Worker | Rest.
Definition role_of (l : label) : option unit := match l with Worker => Some tt | Rest => None end.

Section live.
Context {R E : Type} `{HL : RepoLaws R}.
Context (svc : Service E).
Implicit Types w : World R E.

(** Requests and [Close], or nothing. *)
Inductive rest_step : World R E → World R E → Prop :=
  | rest_Upsert ctx m w : rest_step w (Upsert svc ctx m w).2
  | rest_UpsertBatch ctx items w : rest_step w (UpsertBatch svc ctx items w).2
  | rest_Get ctx ty id w : rest_step w (Get ctx ty id w).2
  | rest_cancel w : w_stop w = true →
      rest_step w (mkWorld (w_repo w) (w_env w) (w_queue w) true true (w_worker w) (w_trace w))
  | rest_closed w : w_stop w = true → w_cancelled w = true → w_worker w = WorkerReturned →
      rest_step w (mkWorld (w_repo w) (w_env w) None false true (w_worker w) (w_trace w))
  | rest_idle w : rest_step w w.

Definition lstep (l : label) w w' : Prop :=
  match l with Worker => worker_step svc w w' | Rest => rest_step w w' end.

Lemma lstep_step l w w' : lstep l w w' → w' = w ∨ step svc w w'.
Proof. destruct l; simpl; [right; by constructor|]. destruct 1; eauto using step. Qed.

(** What a request does to the queue: it may send one event. *)
Record extends w w' : Prop := {
  ex_worker : w_worker w' = w_worker w;
  ex_cancelled : w_cancelled w' = w_cancelled w;
  ex_queue : ∀ q, w_queue w = Some q → ∃ q' tr, w_queue w' = Some (q ++ q') ∧
    w_trace w' = w_trace w ++ tr ∧ published_of tr = [];
}.

Lemma extends_same w w' : w_worker w' = w_worker w → w_cancelled w' = w_cancelled w →
  w_queue w' = w_queue w → w_trace w' = w_trace w → extends w w'.
Proof.
  intros ? ? Hq Ht. split; [done..|]. intros q Hs. exists [], []. by rewrite Hq, Ht, !app_nil_r.
Qed.

Lemma extends_trans w1 w2 w3 : extends w1 w2 → extends w2 w3 → extends w1 w3.
Proof.
  intros [H1 H2 H3] [H4 H5 H6]. split; [congruence..|]. intros q Hq.
  destruct (H3 q Hq) as (q1 & tr1 & Hq1 & Ht1 & Hp1), (H6 _ Hq1) as (q2 & tr2 & Hq2 & Ht2 & Hp2).
  exists (q1 ++ q2), (tr1 ++ tr2). rewrite Hq2, Ht2, Ht1, published_of_app, Hp1, Hp2, !app_assoc. done.
Qed.

Lemma only_repo_extends w w' : only_repo w w' → extends w w'.
Proof. unfold only_repo. intros ->. by apply extends_same. Qed.

Lemma notify_extends ctx names w : extends w (notifyAudit svc ctx names w).
Proof.
  unfold notifyAudit, enqueueAudit. destruct (auditor svc); [|by apply extends_same].
  case_decide; [by apply extends_same|]. destruct (w_queue w) as [q|] eqn:Hq.
  - case_decide; split; try done; simpl; intros q0; rewrite Hq; intros [= <-].
    + eexists [_], [_]. done.
    + eexists [], [_]. by rewrite app_nil_r.
  - split; [done..|]. intros q0. by rewrite Hq.
Qed.

Lemma hook_extends ctx w : extends w (run_onChanged svc ctx w).
Proof.
  unfold run_onChanged. destruct (onChanged svc); [|by apply extends_same].
  destruct (on_repo (RepoSnapshot ctx) w) as [x w'] eqn:Hs. apply on_repo_inv in Hs as (r & _ & ->).
  destruct x; by apply extends_same.
Qed.

Lemma Upsert_extends ctx m w : extends w (Upsert svc ctx m w).2.
Proof using HL.
  rewrite Upsert_unfold. case_decide; [by apply extends_same|]. destruct (storable m) eqn:Hst; [|by apply extends_same].
  set (m' := set_ID m _). unfold io_bind.
  destruct (write_item ctx m' w) as [[u|e] w1] eqn:Hw; apply write_item_inv in Hw as [Hw1 _];
    try done; apply only_repo_extends in Hw1; [|done].
  destruct (read_back svc ctx m' w1) as [r w2] eqn:Hr.
  apply read_back_inv in Hr as [_ Hr]; [|apply TrimSpace_idemp|done]. simpl.
  eapply extends_trans; [exact Hw1|]. destruct r as [res|e]; [|by apply only_repo_extends].
  destruct Hr as (_ & _ & _ & ->). eapply extends_trans; [|apply notify_extends]. by apply extends_same.
Qed.

Lemma UpsertBatch_extends ctx items w : extends w (UpsertBatch svc ctx items w).2.
Proof using HL.
  destruct (UpsertBatch svc ctx items w) as [r w'] eqn:Hb. simpl.
  apply UpsertBatch_inv in Hb. cbv zeta in Hb. destruct r as [n|e].
  - destruct Hb as (_ & _ & rp & _ & ->). eapply extends_trans; [|apply hook_extends].
    eapply extends_trans; [|apply notify_extends]. by apply extends_same.
  - destruct Hb as (Hw & _). by apply only_repo_extends.
Qed.

Lemma rest_extends w w' : rest_step w w' → w_cancelled w' = false → extends w w'.
Proof using HL.
  intros Hs Hc. destruct Hs as [ctx m w|ctx items w|ctx ty id w| | |w]; try done.
  - apply Upsert_extends.
  - apply UpsertBatch_extends.
  - destruct (Get ctx ty id w) as [r w'] eqn:Hg. apply Get_inv in Hg as [Hw _]. by apply only_repo_extends.
  - by apply extends_same.
Qed.

(** ** The goroutine and its backlog *)
Definition open_inv w : Prop := fifo w ∧ serving w.

Lemma extends_serving w w' : extends w w' → serving w → serving w'.
Proof.
  intros [Hw Hc Hq] (Hcan & [q Hs] & Hwk). destruct (Hq q Hs) as (q' & tr & Hq' & _).
  split; [congruence|]. split; [by rewrite Hq'|by rewrite Hw].
Qed.

Lemma open_step l w w' : open_inv w → lstep l w w' → w_cancelled w' = false → open_inv w'.
Proof using HL.
  intros [Hf Hs] Hl Hc. split.
  - destruct (lstep_step _ _ _ Hl) as [->|?]; [done|by eapply step_fifo].
  - destruct l; simpl in Hl; [by eapply worker_step_backlog|]. by eapply extends_serving, Hs; apply rest_extends.
Qed.

Lemma open_New repo env : is_Some (auditor svc) → open_inv (New svc repo env).
Proof.
  intros Ha. split; [by apply New_fifo|]. destruct Ha as [pub Hp]. unfold New. rewrite Hp.
  split; [done|]. split; [by eexists|by left].
Qed.

Lemma open_execution repo env σ ρ n : is_Some (auditor svc) →
  Fair.execution lstep (New svc repo env) σ ρ → (∀ k, w_cancelled (σ k) = false) → open_inv (σ n).
Proof using HL.
  intros Ha [H0 Hs] Hc. induction n as [|n IH]; [rewrite H0; by apply open_New|].
  rewrite <- Nat.add_1_r. by eapply open_step; [exact IH|apply Hs|].
Qed.

(** The goroutine's steps left until [n] events are published. *)
Definition left (n : nat) w : nat :=
  2 * (n - length (published_of (w_trace w))) + match w_worker w with WorkerPublishing _ => 0 | _ => 1 end.

Lemma worker_left n w w' : worker_step svc w w' → w_cancelled w = false →
  (n ≤ length (published_of (w_trace w)))%nat ∨ (left n w' < left n w)%nat.
Proof.
  intros Hs Hc. destruct (decide (n ≤ length (published_of (w_trace w)))%nat) as [?|Hn]; [by left|right].
  unfold left. destruct Hs as [w m q Hw Hq|w m pub Hw Hp|w Hw Hc']; simpl; rewrite ?Hw; [lia| |congruence].
  rewrite published_of_app, length_app. simpl. lia.
Qed.

Lemma extends_left n w w' : extends w w' → serving w → left n w' = left n w.
Proof.
  intros [Hw _ Hq] (_ & [q Hs] & _). destruct (Hq q Hs) as (q' & tr & _ & Ht & Hp).
  unfold left. rewrite Hw, Ht, published_of_app, Hp, app_nil_r. done.
Qed.

Lemma trace_grows l w w' : lstep l w w' → open_inv w → w_cancelled w' = false →
  queued_of (w_trace w) `prefix_of` queued_of (w_trace w').
Proof using HL.
  intros Hl [_ (_ & [q Hq] & _)] Hc. destruct l; simpl in Hl.
  - destruct Hl; simpl; [done| |done]. rewrite queued_of_app. by eexists.
  - apply rest_extends in Hl as [_ _ Hx]; [|done]. destruct (Hx q Hq) as (q' & tr & _ & -> & _).
    rewrite queued_of_app. by eexists.
Qed.

(** While events are missing from what was published, the goroutine can go on. *)
Lemma behind_enabled w n : is_Some (auditor svc) → open_inv w →
  (n ≤ length (queued_of (w_trace w)))%nat →
  (n ≤ length (published_of (w_trace w)))%nat ∨ Fair.enabled lstep role_of () w.
Proof.
  intros Ha [Hf Hs] Hn. destruct (worker_progress svc w Ha Hs) as [[Hq Hw]|[w' Hw']].
  - left. unfold fifo in Hf. rewrite Hq, Hw in Hf. destruct Hf as [_ Hf]. by rewrite Hf, !app_nil_r in Hn.
  - right. exists Worker, w'. done.
Qed.

Lemma enabled_keeps w w' : rest_step w w' → w_cancelled w' = false → open_inv w →
  is_Some (auditor svc) → Fair.enabled lstep role_of () w → Fair.enabled lstep role_of () w'.
Proof using HL.
  intros Hr Hc [_ Hs] [pub Hp] (l & w1 & Hl & Hw). destruct l; [|done]. simpl in Hw.
  pose proof (rest_extends _ _ Hr Hc) as [Hwk Hcn Hx]. destruct Hw as [w m q Hwt Hq|w m pub' Hwt _|w Hwt Hcan].
  - destruct (Hx _ Hq) as (q' & tr & Hq' & _). eexists Worker, _. split; [done|].
    eapply worker_receive; [by rewrite Hwk|by rewrite Hq'].
  - eexists Worker, _. split; [done|]. eapply worker_publish; [by rewrite Hwk|exact Hp].
  - destruct Hs as [? _]. congruence.
Qed.

(** [C6] Every event a request has put into the audit queue is published in the end,
    in the order the queue accepted them, if the scheduler is fair to the audit
    goroutine and the service is not closed, whatever requests come in between. *)
Theorem audit_published repo env σ ρ n :
  is_Some (auditor svc) → Fair.execution lstep (New svc repo env) σ ρ → Fair.fair lstep role_of σ ρ →
  (∀ k, w_cancelled (σ k) = false) →
  ∃ k, (n ≤ k)%nat ∧ queued_of (w_trace (σ n)) `prefix_of` published_of (w_trace (σ k)).
Proof using HL.
  intros Ha He Hf Hc. pose proof (λ k, open_execution _ _ _ _ k Ha He Hc) as Hopen.
  set (len := length (queued_of (w_trace (σ n)))).
  assert (∀ d, queued_of (w_trace (σ n)) `prefix_of` queued_of (w_trace (σ (n + d)%nat))) as Hgrow.
  { intros d. induction d as [|d IH]; [by rewrite Nat.add_0_r|]. etrans; [exact IH|].
    replace (n + S d)%nat with (n + d + 1)%nat by lia. by eapply trace_grows; [apply He|..]. }
  destruct (Fair.eventually lstep role_of σ ρ (λ w, (len ≤ length (published_of (w_trace w)))%nat) (left len) n Hf)
    as (k & Hk & Hgoal).
  - intros k _ Hr. pose proof (proj2 He k) as Hs. destruct (ρ k); [|done]. by apply worker_left.
  - intros k _ Hr. pose proof (proj2 He k) as Hs. destruct (ρ k); [done|]. split.
    + rewrite (extends_left len (σ k)); [lia|by apply rest_extends|apply Hopen].
    + intros []. by apply enabled_keeps.
  - intros k Hk. destruct (behind_enabled (σ k) len Ha (Hopen k)) as [?|?]; [|by left|right; by exists ()].
    replace k with (n + (k - n))%nat by lia. by apply prefix_length.
  - exists k. split; [done|]. destruct (Hopen k) as [Hfifo (_ & [q Hq] & _)]. unfold fifo in Hfifo.
    rewrite Hq in Hfifo. destruct Hfifo as [_ Hfifo].
    assert (queued_of (w_trace (σ n)) `prefix_of` queued_of (w_trace (σ k))) as Hpre
      by (replace k with (n + (k - n))%nat by lia; apply Hgrow).
    destruct (prefix_weak_total _ _ _ Hpre (ex_intro _ _ Hfifo)) as [?|Hp]; [done|].
    by rewrite (prefix_length_eq _ _ Hp Hgoal).
Qed.
End live.

(** ** Example: one batch, and its event *)
#[local] Abbreviation demo_lstep := (lstep (R := Memory.Repo) demo_svc).
#[local] Abbreviation demo_world := (World Memory.Repo Z).

Lemma audit_run : Fair.reaches demo_lstep (demo_w : demo_world) (λ w,
  w_cancelled w = false ∧ w_queue w = Some [] ∧ w_worker w = WorkerWaiting ∧
  queued_of (w_trace w) = [demo_audit_event]).
Proof.
  eapply (Fair.reaches_step _ Rest); [apply (rest_UpsertBatch demo_svc Background [demo_item])|].
  eapply (Fair.reaches_step _ Worker); [eapply worker_receive; by vm_compute|].
  eapply (Fair.reaches_step _ Worker); [eapply worker_publish; by vm_compute|].
  apply Fair.reaches_here. by vm_compute.
Qed.

Lemma cancelled_stays l (w w' : demo_world) : demo_lstep l w w' → w_cancelled w = true → w_cancelled w' = true.
Proof.
  destruct l; simpl; intros Hs Hc; [by destruct Hs|]. destruct Hs as [ctx m w|ctx items w|ctx ty id w| | |]; try done.
  - by rewrite (ex_cancelled _ _ (Upsert_extends demo_svc ctx m w)).
  - by rewrite (ex_cancelled _ _ (UpsertBatch_extends demo_svc ctx items w)).
  - destruct (Get ctx ty id w) as [r w'] eqn:Hg. apply Get_inv in Hg as [Hw _]. by rewrite Hw.
Qed.

(** The run, and then nothing for ever. *)
Lemma audit_execution : ∃ σ ρ n, Fair.execution demo_lstep demo_w σ ρ ∧ Fair.fair demo_lstep role_of σ ρ ∧
  (∀ k, w_cancelled (σ k) = false) ∧ queued_of (w_trace (σ n)) = [demo_audit_event].
Proof.
  destruct audit_run as (run & Hok & Hc & Hq & Hw & Ht).
  pose proof (Fair.finite_execution demo_lstep Rest (rest_idle demo_svc) _ _ Hok) as He.
  exists (Fair.states demo_w run), (Fair.labels Rest run), (length run). split; [done|]. split; [|split].
  - apply Fair.finite_fair. intros [] (l & w' & Hl & Hs). destruct l; [|done]. simpl in Hs.
    destruct Hs as [w m q Hw' Hq'|w m pub Hw' _|w _ Hc']; congruence.
  - intros k. destruct (w_cancelled (Fair.states demo_w run k)) eqn:Hk; [|done].
    assert (∀ d, w_cancelled (Fair.states demo_w run (k + d)) = true) as Hall.
    { intros d. induction d as [|d IH]; [by rewrite Nat.add_0_r|].
      replace (k + S d)%nat with (k + d + 1)%nat by lia. by eapply cancelled_stays; [apply He|]. }
    specialize (Hall (length run)). rewrite Fair.states_end in Hall by lia. congruence.
  - by rewrite Fair.states_end.
Qed.

Lemma audit_published_witness : ∃ (σ : nat → demo_world) n k,
  queued_of (w_trace (σ n)) = [demo_audit_event] ∧ [demo_audit_event] `prefix_of` published_of (w_trace (σ k)).
Proof.
  destruct audit_execution as (σ & ρ & n & He & Hf & Hc & Hq).
  destruct (audit_published demo_svc Memory.New 0 σ ρ n (mk_is_Some _ _ eq_refl) He Hf Hc) as (k & _ & Hk).
  exists σ, n, k. rewrite Hq in Hk. split; [exact Hq|exact Hk].
Defined.
End AuditLive.
