(* ===== verification/FilePersister.v ===== *)
(** * internal/adapters/persistence/file: snapshots in a JSON file

    [Save] writes a temporary file and renames it over the old one; [Restore]
    reads the file and replays it into a repository.  The operating system is a
    parameter ([FileSystem]) with the documented effects of its calls
    ([FileLaws]): any of them may fail, and a rename happens whole or not at all. *)

From S2P Require Import Prelude GoStrings GoInt GoErrors Domain GoFloat Ports Batches.
From S2P Require Import Json MetricsJson Memory.
Open Scope Z_scope.

Module FilePersister.
Import Batches Json MetricsJson.

(** [file_at w p] is what the file [p] holds.  [is_temp] recognises the names
    [CreateTemp] makes from the pattern ".metrics-*". *)
Class FileSystem (F : Type) := {
  file_at : F → string → option string;
  is_temp : string → bool;
  Dir : string → string;
  MkdirAll : string → io F error unit;
  CreateTemp : string → io F error string;
  WriteFile : string → string → io F error unit;
  CloseFile : string → io F error unit;
  Remove : string → io F error unit;
  Rename : string → string → io F error unit;
  OpenFile : string → io F error unit;
  ReadAll : string → F → result error string * F;
}.

Class FileLaws (F : Type) `{FileSystem F} := {
  MkdirAll_files d w r w' : MkdirAll d w = (r, w') → file_at w' = file_at w;
  CreateTemp_ok d w n w' : CreateTemp d w = (Ok n, w') →
    is_temp n = true ∧ file_at w n = None ∧ file_at w' n = Some EmptyString ∧
    ∀ p, p ≠ n → file_at w' p = file_at w p;
  CreateTemp_err d w e w' : CreateTemp d w = (Err e, w') → file_at w' = file_at w;
  WriteFile_frame n s w r w' : WriteFile n s w = (r, w') → ∀ p, p ≠ n → file_at w' p = file_at w p;
  WriteFile_ok n s w w' c : WriteFile n s w = (Ok tt, w') → file_at w n = Some c →
    file_at w' n = Some (c +:+ s);
  WriteFile_exists n s w r w' : WriteFile n s w = (r, w') → is_Some (file_at w n) → is_Some (file_at w' n);
  CloseFile_files n w r w' : CloseFile n w = (r, w') → file_at w' = file_at w;
  Remove_frame n w r w' : Remove n w = (r, w') → ∀ p, p ≠ n → file_at w' p = file_at w p;
  Remove_ok n w w' : Remove n w = (Ok tt, w') → file_at w' n = None;
  Rename_ok a b w w' : Rename a b w = (Ok tt, w') → a ≠ b →
    file_at w' b = file_at w a ∧ file_at w' a = None ∧
    ∀ p, p ≠ a → p ≠ b → file_at w' p = file_at w p;
  Rename_err a b w e w' : Rename a b w = (Err e, w') → file_at w' = file_at w;
  OpenFile_files p w r w' : OpenFile p w = (r, w') → file_at w' = file_at w;
  OpenFile_err p w e w' : OpenFile p w = (Err e, w') → errors_Is e ErrNotExist = true →
    file_at w p = None;
  ReadAll_files p w r w' : ReadAll p w = (r, w') → file_at w' = file_at w;
  ReadAll_ok p w s w' : ReadAll p w = (Ok s, w') → file_at w p = Some s;
}.

(** ** The text of the file: [SetIndent] with two spaces *)
Definition newline : string := String (byte 10) EmptyString.
Definition array_layout : layout := mkLayout (newline +:+ "  ") " " newline.
Definition object_layout : layout := mkLayout (newline +:+ "    ") " " (newline +:+ "  ").

(** [enc.Encode]: the value and a newline; [None] when it cannot be encoded. *)
Definition encode_file (items : list Metrics) : option string :=
  t ← encode_batch_in array_layout object_layout items; Some (t +:+ newline).

(** [json.NewDecoder(f).Decode(&items)] with [items] nil. *)
Definition decode_file (s : string) : result error (list Metrics) :=
  match decode_first s with
  | None => Err (Errorf "json: syntax")
  | Some Null => Ok []
  | Some (Arr l) =>
      match decode_elements false l [] with
      | (ms, None) => Ok ms
      | (_, Some e) => Err e
      end
  | Some _ => Err type_error
  end.

Section persister.
Context {F : Type} `{FileSystem F}.
Context (order : ∀ A, gmap string A → list (string * A)).   (* of ranging over a map *)

Definition flattenSnapshot (s : Snapshot) : list Metrics :=
  build (order _ (Gauges s)) (order _ (Counters s)).

(** The deferred function of [writeJSONAtomic]: [open] when [tmp] is not nil,
    [cleanup] as the variable of that name. *)
Definition leave (tmpName : string) (open cleanup : bool) (retErr : result error unit) (w : F) :
    result error unit * F :=
  let '(retErr, w) :=
    if open then
      match CloseFile tmpName w, retErr with
      | (Err cerr, w), Ok _ => (Err (Wrap "close tmp: " cerr), w)
      | (_, w), _ => (retErr, w)
      end
    else (retErr, w) in
  if cleanup then
    match Remove tmpName w, retErr with
    | (Err err, w), Ok _ => (Err (Wrap "remove tmp: " err), w)
    | (_, w), _ => (retErr, w)
    end
  else (retErr, w).

Definition writeJSONAtomic (path : string) (items : list Metrics) : io F error unit := λ w,
  let dir := Dir path in
  let made := if negb (bool_decide (dir = EmptyString)) && negb (bool_decide (dir = "."))
              then MkdirAll dir w else (Ok tt, w) in
  match made with
  | (Err err, w) => (Err (Wrap "mkdir: " err), w)
  | (Ok _, w) =>
      match CreateTemp dir w with
      | (Err err, w) => (Err (Wrap "create tmp: " err), w)
      | (Ok tmpName, w) =>
          let encoded := match encode_file items with
                         | None => (Err (Errorf "json: unsupported value"), w)
                         | Some text => WriteFile tmpName text w
                         end in
          match encoded with
          | (Err err, w) => leave tmpName true true (Err (Wrap "encode: " err)) w
          | (Ok _, w) =>
              match CloseFile tmpName w with
              | (Err err, w) => leave tmpName true true (Err (Wrap "close tmp: " err)) w
              | (Ok _, w) =>
                  match Rename tmpName path w with
                  | (Err err, w) => leave tmpName false true (Err (Wrap "rename: " err)) w
                  | (Ok _, w) => leave tmpName false false (Ok tt) w
                  end
              end
          end
      end
  end.

Definition Save (path : string) (_ : Context) (s : Snapshot) : io F error unit :=
  writeJSONAtomic path (flattenSnapshot s).

Context {W : Type} `{MetricsRepo W}.

Definition Restore (path : string) (ctx : Context) : io (F * W) error unit := λ '(f, w),
  match OpenFile path f with
  | (Err err, f) =>
      if errors_Is err ErrNotExist then (Ok tt, (f, w)) else (Err (Wrap "open: " err), (f, w))
  | (Ok _, f) =>
      let '(body, f) := ReadAll path f in
      let '(retErr, w) :=
        match result_bind decode_file body with
        | Err err => (Err (Wrap "decode: " err), w)
        | Ok items => UpdateMany ctx items w
        end in
      match CloseFile path f, retErr with
      | (Err cerr, f), Ok _ => (Err (Wrap "close: " cerr), (f, w))
      | (_, f), _ => (retErr, (f, w))
      end
  end.
End persister.

#[global] Instance file_persister {F W} `{FileSystem F} `{MetricsRepo W}
  (order : ∀ A, gmap string A → list (string * A)) (path : string) : Persister F W := {
  Ports.Save := Save order path;
  Ports.Restore := Restore path;
}.

(** ** Every state a crash could leave

    The same file system with the worlds its calls went through. *)
Definition logged {F E A} (m : io F E A) : io (F * list F) E A := λ '(w, log),
  let '(r, w') := m w in (r, (w', log ++ [w'])).

#[global] Instance logged_fs {F} `{FileSystem F} : FileSystem (F * list F) := {
  file_at w := file_at w.1;
  is_temp := is_temp;
  Dir := Dir;
  MkdirAll d := logged (MkdirAll d);
  CreateTemp d := logged (CreateTemp d);
  WriteFile n s := logged (WriteFile n s);
  CloseFile n := logged (CloseFile n);
  Remove n := logged (Remove n);
  Rename a b := logged (Rename a b);
  OpenFile p := logged (OpenFile p);
  ReadAll p := logged (ReadAll p);
}.

Section atomic.
Context {F : Type} `{HF : FileLaws F}.
Context (path : string).
Implicit Types (w : F) (log : list F).

(** What every state so far keeps: the file at [path] is [old], and only temporary
    files differ. *)
Definition kept (w0 w : F) : Prop :=
  file_at w path = file_at w0 path ∧ ∀ p, is_temp p = false → file_at w p = file_at w0 p.

Definition all_kept (w0 : F) (st : F * list F) : Prop := kept w0 st.1 ∧ Forall (kept w0) st.2.

Lemma logged_kept {A} (m : io F error A) w0 st r st' :
  logged m st = (r, st') → all_kept w0 st →
  (∀ w r w', kept w0 w → m w = (r, w') → kept w0 w') → all_kept w0 st'.
Proof.
  destruct st as [w log]. unfold logged, all_kept. cbn [fst snd].
  destruct (m w) as [r1 w1] eqn:Hm. intros [= <- <-] [Hw Hl] Hstep. cbn [fst snd].
  split; [by eapply Hstep|]. apply Forall_app. split; [done|]. constructor; [by eapply Hstep|done].
Qed.

Lemma same_kept w0 w w' : file_at w' = file_at w → kept w0 w → kept w0 w'.
Proof. unfold kept. by intros ->. Qed.

Lemma frame_kept w0 w w' n : is_temp n = true → is_temp path = false →
  (∀ p, p ≠ n → file_at w' p = file_at w p) → kept w0 w → kept w0 w'.
Proof.
  intros Hn Hp Hf [Hw Ht]. split; [rewrite Hf by congruence; done|].
  intros p Hpt. rewrite Hf by congruence. by apply Ht.
Qed.

(** One call of each kind, from a good state to a good state. *)
Lemma mkdir_kept w0 d st r st' :
  logged (MkdirAll d) st = (r, st') → all_kept w0 st → all_kept w0 st'.
Proof using HF.
  intros Hc Hk. eapply logged_kept; [exact Hc|done|]. intros w r2 w' Hw Hm.
  apply MkdirAll_files in Hm. by eapply same_kept.
Qed.

Lemma close_kept w0 n st r st' : logged (CloseFile n) st = (r, st') → all_kept w0 st →
  all_kept w0 st' ∧ file_at st'.1 = file_at st.1.
Proof using HF.
  intros Hc Hk. split.
  - eapply logged_kept; [exact Hc|done|]. intros w r2 w' Hw Hm.
    apply CloseFile_files in Hm. by eapply same_kept.
  - destruct st as [w l]. unfold logged in Hc. destruct (CloseFile n w) as [r1 w1] eqn:Hm.
    injection Hc as <- <-. by apply CloseFile_files in Hm.
Qed.

Lemma remove_kept w0 n st r st' : is_temp n = true → is_temp path = false →
  logged (Remove n) st = (r, st') → all_kept w0 st → all_kept w0 st'.
Proof using HF.
  intros Hn Hp Hc Hk. eapply logged_kept; [exact Hc|done|]. intros w r2 w' Hw Hm.
  pose proof (Remove_frame _ _ _ _ Hm). by eapply (frame_kept _ _ _ n).
Qed.

Lemma create_kept w0 d st r st' : is_temp path = false →
  logged (CreateTemp d) st = (r, st') → all_kept w0 st →
  all_kept w0 st' ∧ ∀ n, r = Ok n → is_temp n = true ∧ file_at st'.1 n = Some EmptyString.
Proof using HF.
  intros Hp Hc Hk. split.
  - eapply logged_kept; [exact Hc|done|]. intros w [n|e] w' Hw Hm;
      [|apply CreateTemp_err in Hm; by eapply same_kept].
    apply CreateTemp_ok in Hm as (? & _ & _ & Hf). by eapply (frame_kept _ _ _ n).
  - intros n ->. destruct st as [w l]. unfold logged in Hc.
    destruct (CreateTemp d w) as [r1 w1] eqn:Hm. injection Hc as -> <-.
    by apply CreateTemp_ok in Hm as (? & _ & ? & _).
Qed.

Lemma write_kept w0 n text st r st' : is_temp n = true → is_temp path = false →
  logged (WriteFile n text) st = (r, st') → all_kept w0 st → file_at st.1 n = Some EmptyString →
  all_kept w0 st' ∧ (r = Ok tt → file_at st'.1 n = Some text).
Proof using HF.
  intros Hn Hp Hc Hk Hf. split.
  - eapply logged_kept; [exact Hc|done|]. intros w r1 w' Hkw Hm.
    pose proof (WriteFile_frame _ _ _ _ _ Hm). by eapply (frame_kept _ _ _ n).
  - intros ->. destruct st as [w l]. unfold logged in Hc.
    destruct (WriteFile n text w) as [r1 w1] eqn:Hm. injection Hc as -> <-. cbn [fst] in *.
    by rewrite (WriteFile_ok _ _ _ _ _ Hm Hf).
Qed.

(** The deferred function never turns an error into success. *)
Lemma leave_kept w0 n open cleanup r st r' st' : is_temp n = true → is_temp path = false →
  leave n open cleanup r st = (r', st') → all_kept w0 st →
  all_kept w0 st' ∧ (is_ok r' = true → r = Ok tt).
Proof using HF.
  intros Hn Hp. unfold leave. cbn [CloseFile Remove logged_fs].
  assert (∀ st1 r1, all_kept w0 st1 → (is_ok r1 = true → r = Ok tt) →
    (if cleanup then match logged (Remove n) st1, r1 with
                     | (Err err, w), Ok _ => (Err (Wrap "remove tmp: " err), w)
                     | (_, w), _ => (r1, w)
                     end else (r1, st1)) = (r', st') →
    all_kept w0 st' ∧ (is_ok r' = true → r = Ok tt)) as Htail.
  { intros st1 r1 Hk Hr. destruct cleanup; [|by intros [= <- <-]].
    destruct (logged (Remove n) st1) as [rr st2] eqn:Hc.
    pose proof (remove_kept _ _ _ _ _ Hn Hp Hc Hk).
    destruct rr, r1; intros [= <- <-]; by split. }
  destruct open.
  - destruct (logged (CloseFile n) st) as [rc st1] eqn:Hc. intros Hl Hk.
    destruct (close_kept _ _ _ _ _ Hc Hk) as [Hk1 _].
    destruct rc as [[]|ce], r as [[]|re]; by eapply Htail in Hl.
  - intros Hl Hk. eapply Htail; [exact Hk| |exact Hl]. by destruct r as [[]|].
Qed.

(** What is promised of a run of [Save] that reached [st]: no state shows anything
    at [path] but the old file or the whole new text, and no other file but
    temporary ones differs. *)
Definition replaced (w0 : F) (text : option string) (w : F) : Prop :=
  (file_at w path = file_at w0 path ∨ is_Some text ∧ file_at w path = text) ∧
  ∀ p, is_temp p = false → p ≠ path → file_at w p = file_at w0 p.

Lemma kept_replaced w0 text w : kept w0 w → replaced w0 text w.
Proof. intros [Hp Hf]. split; [by left|]. intros p Ht _. by apply Hf. Qed.

Lemma failed_save w0 text n open cleanup e st r st' : is_temp n = true → is_temp path = false →
  leave n open cleanup (Err e) st = (r, st') → all_kept w0 st →
  Forall (replaced w0 text) st'.2 ∧
  match r with Ok _ => is_Some text ∧ file_at st'.1 path = text
             | Err _ => file_at st'.1 path = file_at w0 path end.
Proof using HF.
  intros Hn Hp Hl Hk. destruct (leave_kept _ _ _ _ _ _ _ _ Hn Hp Hl Hk) as [[[Hpath _] Hall] Hok].
  split; [eapply Forall_impl; [exact Hall|apply kept_replaced]|].
  destruct r; [|done]. by specialize (Hok eq_refl).
Qed.

Lemma Save_steps order ctx s w r w' log : is_temp path = false →
  Save order path ctx s (w, []) = (r, (w', log)) →
  let text := encode_file (flattenSnapshot order s) in
  Forall (replaced w text) log ∧
  match r with
  | Ok _ => is_Some text ∧ file_at w' path = text
  | Err _ => file_at w' path = file_at w path
  end.
Proof using HF.
  intros Hp. unfold Save, writeJSONAtomic. set (items := flattenSnapshot order s).
  cbn [MkdirAll CreateTemp WriteFile CloseFile Rename Dir logged_fs]. cbv zeta.
  assert (all_kept w (w, [])) as Hk0 by by split.
  set (made := if _ : bool then _ else _).
  assert (all_kept w made.2) as Hk1.
  { subst made. destruct (_ && _); [|done]. destruct (logged _ _) as [r1 st1] eqn:Hm.
    by eapply mkdir_kept. }
  assert (∀ st e, all_kept w st → (Err e, st) = (r, (w', log)) →
    Forall (replaced w (encode_file items)) log ∧
    match r with Ok _ => is_Some (encode_file items) ∧ file_at w' path = encode_file items
               | Err _ => file_at w' path = file_at w path end) as Hstop.
  { intros st e [[Hpath Hfr] Hall] [= <- ->]. cbn [fst snd] in *. split; [|done].
    eapply Forall_impl; [exact Hall|apply kept_replaced]. }
  destruct made as [[u|e] st1]; cbn [snd] in Hk1; [|by apply Hstop].
  destruct (logged (CreateTemp _) st1) as [[n|e] st2] eqn:Hc;
    destruct (create_kept _ _ _ _ _ Hp Hc Hk1) as [Hk2 Hn]; [|by apply Hstop].
  destruct (Hn n eq_refl) as [Ht Hf].
  destruct (encode_file items) as [text|] eqn:He; cbn beta iota;
    [|intros Hl; exact (failed_save w _ _ _ _ _ _ _ _ Ht Hp Hl Hk2)].
  destruct (logged (WriteFile n text) st2) as [[[]|e] st3] eqn:Hw;
    destruct (write_kept _ _ _ _ _ _ Ht Hp Hw Hk2 Hf) as [Hk3 Hf3];
    [|intros Hl; exact (failed_save w _ _ _ _ _ _ _ _ Ht Hp Hl Hk3)].
  destruct (logged (CloseFile n) st3) as [[[]|e] st4] eqn:Hcl;
    destruct (close_kept _ _ _ _ _ Hcl Hk3) as [Hk4 Hf4];
    [|intros Hl; exact (failed_save w _ _ _ _ _ _ _ _ Ht Hp Hl Hk4)].
  destruct st4 as [w4 l4]. unfold logged.
  destruct (Rename n path w4) as [[[]|e] w5] eqn:Hr.
  - cbn. intros [= <- <- <-]. apply Rename_ok in Hr as (Hr & _ & Hfr); [|congruence].
    cbn [fst] in *. rewrite Hf4, Hf3 in Hr by done. split; [|by eauto].
    destruct Hk4 as [[_ Hk4] Hl4]. apply Forall_app. split.
    + eapply Forall_impl; [exact Hl4|apply kept_replaced].
    + constructor; [|done]. split; [right; eauto|]. intros p Htp Hne.
      rewrite Hfr by congruence. by apply Hk4.
  - apply Rename_err in Hr. intros Hl. refine (failed_save w _ _ _ _ _ _ _ _ Ht Hp Hl _).
    destruct Hk4 as [Hk4 Hl4]. cbn [fst snd] in *. assert (kept w w5) by by eapply same_kept.
    split; [done|]. apply Forall_app. by split; [|constructor].
Qed.

(** Logging changes nothing else. *)
Lemma leave_logged n open cleanup r (w : F) log :
  let '(r1, (w1, _)) := leave n open cleanup r (w, log) in leave n open cleanup r w = (r1, w1).
Proof.
  unfold leave. cbn [CloseFile Remove logged_fs]. unfold logged.
  destruct open, cleanup; try destruct (CloseFile n w) as [[[]|] ?]; destruct r;
    try destruct (Remove n _) as [[[]|] ?]; done.
Qed.

Lemma Save_logged order ctx s (w : F) log :
  let '(r1, (w1, _)) := Save order path ctx s (w, log) in Save order path ctx s w = (r1, w1).
Proof.
  unfold Save, writeJSONAtomic. cbn [MkdirAll CreateTemp WriteFile CloseFile Rename Dir logged_fs].
  unfold logged. destruct (_ && _).
  1: destruct (MkdirAll _ w) as [[u|e] w1]; [|done].
  all: match goal with |- context [CreateTemp ?d ?x] => destruct (CreateTemp d x) as [[n|e] w2] end; [|done].
  all: destruct (encode_file _) as [text|]; [|apply leave_logged].
  all: destruct (WriteFile n text w2) as [[u1|e] w3]; [|apply leave_logged].
  all: destruct (CloseFile n w3) as [[u2|e] w4]; [|apply leave_logged].
  all: destruct (Rename n path w4) as [[u3|e] w5]; apply leave_logged.
Qed.

Lemma Save_ok order ctx s (w w' : F) : is_temp path = false →
  Save order path ctx s w = (Ok tt, w') →
  file_at w' path = encode_file (flattenSnapshot order s).
Proof using HF.
  intros Hp Hs. pose proof (Save_logged order ctx s w []) as Hl.
  destruct (Save order path ctx s (w, [])) as [r [w1 log]] eqn:E. rewrite Hs in Hl.
  injection Hl as <- <-. apply Save_steps in E as [_ [_ E]]; done.
Qed.

(** [C10] [Save] replaces the file atomically: in every state it goes through,
    where the machine could stop, the file at [path] is the old one or the complete
    new text, and no other file but temporary ones has changed; a nil result means
    that the new text is there, and an error that the old file still is. *)
Theorem Save_atomic order ctx s w r w' log : is_temp path = false →
  Save order path ctx s (w, []) = (r, (w', log)) →
  let text := encode_file (flattenSnapshot order s) in
  Forall (replaced w text) log ∧
  match r with
  | Ok _ => is_Some text ∧ file_at w' path = text
  | Err _ => file_at w' path = file_at w path
  end.
Proof using HF. apply Save_steps. Qed.
End atomic.

(** ** What is saved is restored *)

Lemma layouts_ok : layout_ok array_layout ∧ layout_ok object_layout.
Proof. by split; split. Qed.

Lemma decode_encode_file items : Forall sendable items → ∃ t,
  encode_file items = Some t ∧ decode_file t = Ok items.
Proof.
  intros Hs. destruct layouts_ok as [La Lo].
  destruct (encode_batch_wire _ _ items La Lo Hs) as (t & l & Ht & Hw & _ & Hd).
  exists (t +:+ newline). unfold encode_file. rewrite Ht. split; [done|].
  unfold decode_file. rewrite (decode_wire_rest _ _ newline Hw) by done.
  by rewrite Hd, overlay_fresh.
Qed.

Lemma build_sendable s lg lc : sendable_snapshot s →
  lg ≡ₚ map_to_list (Gauges s) → lc ≡ₚ map_to_list (Counters s) → Forall sendable (build lg lc).
Proof.
  intros [Hg Hc] Hlg Hlc. unfold build. apply Forall_app. rewrite !Forall_fmap. split; apply Forall_forall.
  - intros [k v] Hin. rewrite Hlg in Hin. apply elem_of_map_to_list, Hg in Hin as [? ?].
    by apply sendable_gauge.
  - intros [k d] Hin. rewrite Hlc in Hin. apply elem_of_map_to_list, Hc in Hin as [? ?].
    by apply sendable_counter.
Qed.

Section restore.
Context {F : Type} `{HF : FileLaws F}.
Context (order : ∀ A, gmap string A → list (string * A)).
Context (order_perm : ∀ A (m : gmap string A), order A m ≡ₚ map_to_list m).
Context (path : string).

(** [Restore] from a file that holds the text of a snapshot. *)
Lemma Restore_text ctx s f r f' m : sendable_snapshot s →
  file_at f path = encode_file (flattenSnapshot order s) →
  Restore path ctx (f, Memory.New) = (r, (f', m)) →
  Memory.view m = s ∨ is_ok r = false ∧ m = Memory.New.
Proof using HF order_perm.
  intros Hs Hf. unfold Restore.
  assert (batch_of_maps (Gauges s) (Counters s) (flattenSnapshot order s)) as Hb
    by by apply batch_of_maps_build.
  destruct (decode_encode_file (flattenSnapshot order s)) as (t & Ht & Hd);
    [by eapply build_sendable|]. rewrite Ht in Hf.
  destruct (OpenFile path f) as [[u|e] f1] eqn:Ho.
  2: { destruct (errors_Is e ErrNotExist) eqn:He; [|intros [= <- <- <-]; by right].
       by rewrite (OpenFile_err _ _ _ _ Ho He) in Hf. }
  apply OpenFile_files in Ho. rewrite <- Ho in Hf.
  destruct (ReadAll path f1) as [[body|e] f2] eqn:Hr.
  - apply ReadAll_ok in Hr. rewrite Hf in Hr. injection Hr as <-. cbn [result_bind]. rewrite Hd.
    destruct (UpdateMany ctx (flattenSnapshot order s) Memory.New) as [ru m1] eqn:Hu.
    intros Hres. left. assert (m = m1) as -> by (destruct (CloseFile path f2) as [[] ?], ru; by injection Hres).
    cbn in Hu. unfold Memory.UpdateMany in Hu. injection Hu as _ <-.
    rewrite Memory.view_UpdateMany. apply (put_all_report s); [done|].
    intros k d Hk. by apply (snap_counters _ Hs) in Hk as [_ ?].
  - cbn [result_bind]. destruct (CloseFile path f2) as [[] ?]; intros [= <- _ <-]; by right.
Qed.

(** [C16] A snapshot with UTF-8 names and finite values that was saved is restored:
    after [Save] returned nil, [Restore] into an empty memory repository leaves exactly
    the snapshot, whatever the order in which the maps were ranged over, unless reading
    fails, and then it reports an error and stores nothing. *)
Theorem Save_Restore ctx ctx' s f f1 r f2 m :
  is_temp path = false → sendable_snapshot s →
  Save order path ctx s f = (Ok tt, f1) →
  Restore path ctx' (f1, Memory.New) = (r, (f2, m)) →
  Memory.view m = s ∨ is_ok r = false ∧ m = Memory.New.
Proof using HF order_perm.
  intros Hp Hs Hsave. apply Restore_text; [done|]. by eapply Save_ok.
Qed.
End restore.

(** ** A disk whose calls fail on a schedule *)
Record disk : Type := mkDisk { d_files : gmap string string; d_faults : list bool }.

(** The next call fails; a failed write may leave part of its text. *)
Definition call {A} (f : gmap string string → result error A * gmap string string)
    (broken : gmap string string → gmap string string) : io disk error A := λ d,
  match d_faults d with
  | true :: l => (Err (Errorf "input/output error"), mkDisk (broken (d_files d)) l)
  | _ => let '(r, fs) := f (d_files d) in (r, mkDisk fs (tail (d_faults d)))
  end.

Definition temp_names : list string := [".metrics-1"; ".metrics-2"].
Definition free_temp (fs : gmap string string) : option string :=
  List.find (λ n, bool_decide (fs !! n = None)) temp_names.

#[global] Instance disk_fs : FileSystem disk := {
  file_at d p := d_files d !! p;
  is_temp n := HasPrefix n ".metrics-";
  Dir _ := ".";
  MkdirAll _ := call (λ fs, (Ok tt, fs)) id;
  CreateTemp _ := call (λ fs, match free_temp fs with
                              | None => (Err (Errorf "file exists"), fs)
                              | Some n => (Ok n, <[n := EmptyString]> fs)
                              end) id;
  WriteFile n s := call (λ fs, (Ok tt, <[n := default EmptyString (fs !! n) +:+ s]> fs))
                     (<[n := "part"]>);
  CloseFile _ := call (λ fs, (Ok tt, fs)) id;
  Remove n := call (λ fs, (Ok tt, delete n fs)) id;
  Rename a b := call (λ fs, match fs !! a with
                            | Some s => (Ok tt, <[b := s]> (delete a fs))
                            | None => (Err ErrNotExist, fs)
                            end) id;
  OpenFile p := call (λ fs, match fs !! p with
                            | Some _ => (Ok tt, fs) | None => (Err ErrNotExist, fs) end) id;
  ReadAll p := call (λ fs, match fs !! p with
                           | Some s => (Ok s, fs) | None => (Err ErrNotExist, fs) end) id;
}.

Lemma free_temp_spec fs t : free_temp fs = Some t → fs !! t = None ∧ HasPrefix t ".metrics-" = true.
Proof.
  intros [Hin Hnone]%List.find_some. apply bool_decide_eq_true in Hnone. split; [done|].
  by destruct Hin as [<-|[<-|[]]].
Qed.

Lemma call_inv {A} (f : gmap string string → result error A * gmap string string) broken d r d' :
  call f broken d = (r, d') →
  f (d_files d) = (r, d_files d') ∨
  r = Err (Errorf "input/output error") ∧ d_files d' = broken (d_files d).
Proof.
  unfold call. destruct (d_faults d) as [|[] l]; [|intros [= <- <-]; by right|];
    destruct (f (d_files d)) as [r0 fs]; intros [= <- <-]; by left.
Qed.

#[global] Instance disk_laws : FileLaws disk.
Proof.
  split; intros *; cbn -[free_temp]; intros Hc; apply call_inv in Hc;
    (destruct Hc as [Hc|[Hr Hd]]; [|first [discriminate Hr|idtac]]).
  - injection Hc as _ Hd. by rewrite <- Hd.
  - by rewrite Hd.
  - destruct (free_temp (d_files w)) as [t|] eqn:Ht; [|done]. injection Hc as <- Hd. rewrite <- Hd.
    apply free_temp_spec in Ht as [Hnone Htmp]. split_and!; [done|done|by rewrite lookup_insert_eq|].
    intros p Hp. by rewrite lookup_insert_ne.
  - destruct (free_temp (d_files w)) as [t|] eqn:Ht; [done|]. injection Hc as <- Hd. by rewrite <- Hd.
  - by rewrite Hd.
  - injection Hc as _ Hd. intros p Hp. by rewrite <- Hd, lookup_insert_ne.
  - intros p Hp. by rewrite Hd, lookup_insert_ne.
  - injection Hc as Hd. intros Hn. by rewrite <- Hd, lookup_insert_eq, Hn.
  - injection Hc as _ Hd. intros _. by rewrite <- Hd, lookup_insert_eq.
  - intros _. by rewrite Hd, lookup_insert_eq.
  - injection Hc as _ Hd. by rewrite <- Hd.
  - by rewrite Hd.
  - injection Hc as _ Hd. intros p Hp. by rewrite <- Hd, lookup_delete_ne.
  - intros p Hp. by rewrite Hd.
  - injection Hc as Hd. by rewrite <- Hd, lookup_delete_eq.
  - destruct (d_files w !! a) as [s|] eqn:Ha; [|done]. injection Hc as Hd. intros Hab.
    rewrite <- Hd. split_and!; [by rewrite lookup_insert_eq|
      by rewrite lookup_insert_ne, lookup_delete_eq|].
    intros p Hpa Hpb. by rewrite lookup_insert_ne, lookup_delete_ne.
  - destruct (d_files w !! a) as [s|] eqn:Ha; [done|]. injection Hc as <- Hd. by rewrite <- Hd.
  - by rewrite Hd.
  - destruct (d_files w !! p) eqn:Hp; injection Hc as <- Hd; by rewrite <- Hd.
  - by rewrite Hd.
  - intros _. by destruct (d_files w !! p) eqn:Hp.
  - by injection Hr as ->.
  - destruct (d_files w !! p) eqn:Hp; injection Hc as <- Hd; by rewrite <- Hd.
  - by rewrite Hd.
  - destruct (d_files w !! p) eqn:Hp; [|done]. by injection Hc as <- Hd.
Qed.

Definition demo_snapshot : Snapshot := mkSnapshot ∅ {["hits" := 5]}.
Definition map_order (A : Type) (m : gmap string A) : list (string * A) := map_to_list m.

(** Closing the new file fails: the old one stays. *)
Lemma Save_atomic_witness : ∃ r w' log,
  Save map_order "db.json" Background demo_snapshot
    (mkDisk {["db.json" := "[]"]} [false; false; true], []) = (r, (w', log)) ∧
  is_ok r = false ∧ file_at w' "db.json" = Some "[]".
Proof.
  destruct (Save map_order "db.json" Background demo_snapshot
    (mkDisk {["db.json" := "[]"]} [false; false; true], [])) as [r [w' log]] eqn:Hs.
  destruct (Save_atomic "db.json" map_order Background demo_snapshot
    (mkDisk {["db.json" := "[]"]} [false; false; true]) r w' log) as [_ Hr]; [reflexivity|exact Hs|].
  exists r, w', log. split; [reflexivity|]. vm_compute in Hs. injection Hs as <- <- <-.
  split; [reflexivity|exact Hr].
Defined.

Lemma demo_snapshot_sendable : sendable_snapshot demo_snapshot.
Proof.
  split; intros k v Hk; unfold demo_snapshot in Hk; cbn in Hk; [by rewrite lookup_empty in Hk|].
  apply lookup_singleton_Some in Hk as [<- <-]. split; [by apply utf8_literal|by unfold64].
Qed.

Lemma Save_Restore_witness : ∃ f1 f2 m,
  Save map_order "db.json" Background demo_snapshot (mkDisk ∅ []) = (Ok tt, f1) ∧
  Restore "db.json" Background (f1, Memory.New) = (Ok tt, (f2, m)) ∧ Memory.view m = demo_snapshot.
Proof.
  destruct (Save map_order "db.json" Background demo_snapshot (mkDisk ∅ [])) as [r f1] eqn:Hs.
  assert (r = Ok tt) as -> by (vm_compute in Hs; by injection Hs as <- _).
  destruct (Restore "db.json" Background (f1, Memory.New)) as [rr [f2 m]] eqn:Hr.
  assert (rr = Ok tt) as ->.
  { vm_compute in Hs. injection Hs as <-. vm_compute in Hr. by injection Hr as <- _ _. }
  exists f1, f2, m. split; [exact Hs || reflexivity|]. split; [exact Hr|].
  destruct (Save_Restore map_order (λ A m, reflexivity _) "db.json" Background Background
    demo_snapshot (mkDisk ∅ []) f1 (Ok tt) f2 m) as [H|[H _]];
    [reflexivity|exact demo_snapshot_sendable|exact Hs|exact Hr|exact H|discriminate H].
Defined.
End FilePersister.
