(* ===== verification/Retry.v ===== *)
(** * internal/misc/retry.go: retrying an operation

    [Retry] over any world with a clock ([Timing]).  The operation is a call
    that returns only an error, as in Go; what it computes on the way is part of
    the world ([W * V] for a variable of type [V] captured by the closure). *)

From S2P Require Import Prelude GoStrings GoInt GoErrors.
Open Scope Z_scope.

Module Retry.

Definition Second : Z := 10 ^ 9.

(** [misc.DefaultBackoff] *)
Definition DefaultBackoff : list Z := [1 * Second; 3 * Second; 5 * Second].

Section retry.
Context {W : Type} `{Timing W}.

(** The argument is [delays[i:]]: [i >= len(delays)] when it is empty. *)
Fixpoint Retry (ctx : Context) (delays : list Z) (isRetryable : error → bool)
    (op : io W error unit) (w : W) : result error unit * W :=
  match op w with
  | (Ok _, w) => (Ok tt, w)
  | (Err err, w) =>
      match ctx_Err ctx w with
      | Some cerr => (Err cerr, w)
      | None =>
          match delays with
          | [] => (Err err, w)
          | d :: delays' =>
              if negb (isRetryable err) then (Err err, w)
              else match wait_timer ctx d w with
                   | (true, w) => Retry ctx delays' isRetryable op w
                   | (false, w) =>
                       (match ctx_Err ctx w with Some cerr => Err cerr | None => Ok tt end, w)
                   end
          end
      end
  end.
End retry.

(** ** Captured variables *)

#[global] Instance prod_timing {W V} `{Timing W} : Timing (W * V) := {
  clock := λ '(w, _), clock w;
  wait_timer := λ ctx d '(w, v), let '(b, w') := wait_timer ctx d w in (b, (w', v));
}.

#[global] Instance prod_timing_laws {W V} `{TimingLaws W} : TimingLaws (W * V).
Proof.
  split; intros ctx d [w v]; simpl.
  - intros b [w' v'] Hw. destruct (wait_timer ctx d w) as [b' w1] eqn:E. simplify_eq.
    by eapply wait_timer_mono.
  - intros [w' v'] Hw. destruct (wait_timer ctx d w) as [b' w1] eqn:E. simplify_eq.
    by eapply wait_timer_fired.
  - intros [w' v'] Hw. destruct (wait_timer ctx d w) as [b' w1] eqn:E. simplify_eq.
    by eapply (wait_timer_done (W := W)).
Qed.

(** The operation with a record of the outcomes of its calls. *)
Definition recorded {W} (op : io W error unit) : io (W * list (result error unit)) error unit :=
  λ '(w, tr), let '(r, w') := op w in (r, (w', tr ++ [r])).

Section spec.
Context {W : Type} `{HL : TimingLaws W}.
Context (ctx : Context) (isRetryable : error → bool) (op : io W error unit).

(** How a run of [Retry] that called the operation with the outcomes [tr]
    and answered [r] in [w'] can have come about. *)
Inductive run : list Z → W → list (result error unit) → result error unit → W → Prop :=
  | run_ok delays w w' : op w = (Ok tt, w') → run delays w [Ok tt] (Ok tt) w'
  | run_ctx delays w e cerr w' :
      op w = (Err e, w') → ctx_Err ctx w' = Some cerr → run delays w [Err e] (Err cerr) w'
  | run_last w e w' :
      op w = (Err e, w') → ctx_Err ctx w' = None → run [] w [Err e] (Err e) w'
  | run_final delays w e w' :
      op w = (Err e, w') → ctx_Err ctx w' = None → isRetryable e = false →
      run delays w [Err e] (Err e) w'
  | run_done d delays w e w1 w' cerr :
      op w = (Err e, w1) → ctx_Err ctx w1 = None → isRetryable e = true →
      wait_timer ctx d w1 = (false, w') → ctx_Err ctx w' = Some cerr →
      run (d :: delays) w [Err e] (Err cerr) w'
  | run_again d delays w e w1 w2 tr r w' :
      op w = (Err e, w1) → ctx_Err ctx w1 = None → isRetryable e = true →
      wait_timer ctx d w1 = (true, w2) → run delays w2 tr r w' →
      run (d :: delays) w (Err e :: tr) r w'.

Lemma Retry_run delays w tr0 :
  ∃ tr r w', Retry ctx delays isRetryable (recorded op) (w, tr0) = (r, (w', tr0 ++ tr)) ∧
    Retry ctx delays isRetryable op w = (r, w') ∧ run delays w tr r w'.
Proof using HL.
  revert w tr0. induction delays as [|d delays IH]; intros w tr0; simpl;
    destruct (op w) as [[[]|e] w1] eqn:Hop.
  1, 3: by eexists [_], _, _; repeat split; eauto using run.
  - change (ctx_Err ctx (w1, _)) with (ctx_Err ctx w1).
    destruct (ctx_Err ctx w1) as [ce|] eqn:Hc;
      by eexists [_], _, _; repeat split; eauto using run.
  - change (ctx_Err ctx (w1, _)) with (ctx_Err ctx w1).
    destruct (ctx_Err ctx w1) as [ce|] eqn:Hc;
      [by eexists [_], _, _; repeat split; eauto using run|].
    destruct (isRetryable e) eqn:Hr; simpl;
      [|by eexists [_], _, _; repeat split; eauto using run].
    destruct (wait_timer ctx d w1) as [[] w2] eqn:Hw.
    + destruct (IH w2 (tr0 ++ [Err e])) as (tr & r & w' & -> & -> & Hrun).
      exists (Err e :: tr), r, w'. rewrite <- app_assoc. eauto using run.
    + change (ctx_Err ctx (w2, _)) with (ctx_Err ctx w2).
      destruct (wait_timer_done _ _ _ _ Hw) as [ce Hce]. rewrite Hce.
      by eexists [_], _, _; repeat split; eauto using run.
Qed.

Lemma run_shape delays w tr r w' :
  run delays w tr r w' →
  (length tr ≤ S (length delays))%nat ∧
  ∃ init lst, tr = init ++ [lst] ∧
    Forall (λ x, ∃ e, x = Err e ∧ isRetryable e = true) init ∧
    match r with
    | Ok _ => lst = Ok tt
    | Err e => ∃ e1, lst = Err e1 ∧
        (ctx_Err ctx w' = Some e ∨
         ctx_Err ctx w' = None ∧ e = e1 ∧
           (isRetryable e = false ∨ length tr = S (length delays)))
    end.
Proof.
  induction 1 as [| | | | |d delays w e w1 w2 tr r w' Hop Hc Hr Hw Hrun IH];
    [split; [simpl; lia|]; eexists [], _; split; [done|]; split; [done|]; eauto 8..|].
  destruct IH as (Hlen & init & lst & -> & Hinit & Hres). split; [simpl; lia|].
  exists (Err e :: init), lst. split; [done|]. split; [constructor; eauto|].
  destruct r; [done|]. destruct Hres as (e1 & ? & Hres). exists e1. split; [done|].
  destruct Hres as [?|(? & ? & [?|Hl])]; [by left|right; auto..].
  split; [done|]. split; [done|]. right. simpl. by rewrite Hl.
Qed.

(** The waits are not cut short. *)
Lemma run_waits delays w tr r w' :
  (∀ w r w', op w = (r, w') → clock w ≤ clock w') →
  run delays w tr r w' →
  clock w + foldr Z.add 0 (take (length tr - 1) delays) ≤ clock w'.
Proof using HL.
  intros Hop. induction 1 as
    [? ? ? H1|? ? ? ? ? H1|? ? ? H1|? ? ? ? H1|d ? ? ? ? ? ? H1 ? ? H2
    |d delays w e w1 w2 tr r w' H1 Hc Hr H2 Hrun IH]; apply Hop in H1; simpl; try lia.
  - apply wait_timer_mono in H2. lia.
  - apply wait_timer_fired in H2. destruct tr as [|x tr]; [by inversion Hrun|].
    simpl in *. rewrite Nat.sub_0_r in *. lia.
Qed.
End spec.

(** [C32] [Retry] calls the operation at least once and at most once more than
    there are delays; it calls it again only after a retryable error, and after
    waiting at least the delays in their order.  It succeeds exactly when its last
    call did; otherwise it returns the context's error if the context is done, and
    else the error of the last call, which is not retryable or exhausted the
    delays. *)
Theorem Retry_spec {W} `{HL : TimingLaws W} ctx delays isRetryable (op : io W error unit) w :
  (∀ w r w', op w = (r, w') → clock w ≤ clock w') →
  ∃ tr r w', Retry ctx delays isRetryable (recorded op) (w, []) = (r, (w', tr)) ∧
    Retry ctx delays isRetryable op w = (r, w') ∧
    (length tr ≤ S (length delays))%nat ∧
    clock w + foldr Z.add 0 (take (length tr - 1) delays) ≤ clock w' ∧
    ∃ init lst, tr = init ++ [lst] ∧
      Forall (λ x, ∃ e, x = Err e ∧ isRetryable e = true) init ∧
      match r with
      | Ok _ => lst = Ok tt
      | Err e => ∃ e1, lst = Err e1 ∧
          (ctx_Err ctx w' = Some e ∨
           ctx_Err ctx w' = None ∧ e = e1 ∧
             (isRetryable e = false ∨ length tr = S (length delays)))
      end.
Proof.
  intros Hop. destruct (Retry_run ctx isRetryable op delays w []) as (tr & r & w' & H1 & H2 & Hrun).
  exists tr, r, w'. simpl in H1. do 2 (split; [done|]).
  pose proof (run_waits _ _ _ _ _ _ _ _ Hop Hrun). apply run_shape in Hrun as [? ?]. auto.
Qed.

(** ** Retried operations *)

Section retried.
Context {W : Type} `{HL : TimingLaws W}.
Context (ctx : Context) (retryable : error → bool) (op : io W error unit).

(** If failed calls and waits keep [I n] for a growing count [n] of calls,
    then [Retry] ends with a last call made in a world where [I] holds. *)
Lemma Retry_last (I : nat → W → Prop) delays w r w' :
  (∀ n w e w', I n w → op w = (Err e, w') → I (S n) w') →
  (∀ n d w b w', I n w → wait_timer ctx d w = (b, w') → I n w') →
  ∀ n, I n w → Retry ctx delays retryable op w = (r, w') →
  ∃ n', (n' ≤ n + length delays)%nat ∧
  match r with
  | Ok _ => ∃ w1, I n' w1 ∧ op w1 = (Ok tt, w')
  | Err e => I (S n') w' ∧
      (is_Some (ctx_Err ctx w') ∧ ctx_Err ctx w' = Some e ∨
       ∃ w1, op w1 = (Err e, w') ∧ I n' w1)
  end.
Proof using HL.
  intros Hop Hwait. revert w. induction delays as [|d delays IH]; intros w n Hn; simpl;
    destruct (op w) as [[[]|e] w1] eqn:Ho.
  1, 3: intros [= <- <-]; exists n; split; [simpl; lia|by eauto].
  - destruct (ctx_Err ctx w1) as [ce|] eqn:Hc; intros [= <- <-]; exists n;
      (split; [simpl; lia|]); rewrite Hc; eauto 7.
  - destruct (ctx_Err ctx w1) as [ce|] eqn:Hc;
      [intros [= <- <-]; exists n; (split; [simpl; lia|]); rewrite Hc; by eauto 7|].
    destruct (negb (retryable e));
      [intros [= <- <-]; exists n; (split; [simpl; lia|]); rewrite Hc; by eauto 7|].
    destruct (wait_timer ctx d w1) as [[] w2] eqn:Hw.
    + intros Hr. destruct (IH w2 (S n)) as (n' & Hle & Hres); [eauto|done|].
      exists n'. split; [simpl; lia|done].
    + destruct (wait_timer_done _ _ _ _ Hw) as [ce Hce]. rewrite Hce.
      intros [= <- <-]. exists n. split; [simpl; lia|]. rewrite Hce. eauto 7.
Qed.
End retried.

(** ** A virtual clock *)

(** Time passes only in waits; of a timer and a context due at the same instant
    the timer is seen first. *)
Definition virtual_wait (ctx : Context) (d : Z) (now : Z) : bool * Z :=
  match ctx_done ctx with
  | Some (t, _) => if bool_decide (t < now + d) then (false, Z.max now t) else (true, Z.max now (now + d))
  | None => (true, Z.max now (now + d))
  end.

#[global] Instance virtual_timing : Timing Z := {
  clock := λ t, t;
  wait_timer := virtual_wait;
}.

#[global] Instance virtual_timing_laws : TimingLaws Z.
Proof.
  split; simpl; unfold virtual_wait, ctx_Err, ctx_err_at; intros ctx d w; simpl;
    destruct (ctx_done ctx) as [[t e]|]; try case_bool_decide; intros; simplify_eq; try lia.
  rewrite bool_decide_true by lia. eauto.
Qed.

(** A server that is down until the instant 3 s, asked at 0 s. *)
Definition demo_op : io Z error unit := λ t,
  if bool_decide (t < 3 * Second) then (Err ECONNREFUSED, t) else (Ok tt, t).

Lemma Retry_spec_witness :
  Retry Background DefaultBackoff (λ _, true) demo_op 0 = (Ok tt, 4 * Second) ∧
  ∃ tr, (length tr ≤ 4)%nat ∧
    Retry Background DefaultBackoff (λ _, true) (recorded demo_op) (0, []) =
      (Ok tt, (4 * Second, tr)).
Proof.
  destruct (Retry_spec Background DefaultBackoff (λ _, true) demo_op 0) as
    (tr & r & w' & H1 & H2 & Hlen & _).
  { unfold demo_op. intros w r w' E. case_bool_decide; simplify_eq; lia. }
  split; [vm_compute; reflexivity|]. exists tr. split; [exact Hlen|].
  rewrite H1. vm_compute in H2. injection H2 as <- <-. reflexivity.
Defined.

End Retry.
