(* ===== verification/HttpClient.v ===== *)
(** * internal/adapters/publisher/httpjson/client.go: the agent's HTTP client

    [Client] with the functions of the file.  [net/http]'s transport, [net/url]
    and [compress/gzip] are parameters.  The payload is a value here; [GzipPayload]
    shows that the pooled buffers behind it allow that. *)

From S2P Require Import Prelude GoStrings GoInt GoErrors Sha256 Domain.
From S2P Require Import Ports Json MetricsJson Http Retry.
Open Scope Z_scope.

Module HttpClient.
Import Retry MetricsJson.

Record Response : Type := mkResponse {
  StatusCode : Z;
  Status : string;
  Header : gmap string string;
  Body : result error string;       (* what reading it to the end gives *)
  Close : option error;             (* what closing it gives *)
}.

(** [http.Client.Do]: the request's context bounds the call. *)
Class Transport (W : Type) := {
  Do : Context → Request → io W error Response;
}.

(** [url.Parse], the fields [Path] and [Host], [URL.String], [url.ParseRequestURI],
    and the check of the address in [http.NewRequest]. *)
Class NetURL := {
  URL : Type;
  Parse : string → result error URL;
  Path : URL → string;
  Host : URL → string;
  WithPath : URL → string → URL;
  URL_String : URL → string;
  ParseRequestURI : string → result error unit;
  NewRequest_error : string → option error;
}.

(** Addresses as they are written; the host stands between the slashes. *)
Fixpoint before_slash (s : string) : string :=
  match s with
  | EmptyString => EmptyString
  | String c s => if bool_decide (c = "/"%char) then EmptyString else String c (before_slash s)
  end.

Definition plain_url : NetURL := {|
  URL := string;
  Parse s := Ok s;
  Path _ := EmptyString;
  Host u := before_slash (TrimPrefix (TrimPrefix u "http://") "https://");
  WithPath u p := u +:+ p;
  URL_String u := u;
  ParseRequestURI _ := Ok tt;
  NewRequest_error _ := None;
|}.

Definition normalizeBase (s : string) : string :=
  if HasPrefix s "http://" || HasPrefix s "https://" then TrimRight s "/"%char
  else "http://" +:+ TrimRight s "/"%char.

Definition isRetryableHTTP (err : error) : bool :=
  match errors_As as_status_error err with
  | Some code => bool_decide (code ∈ [502; 503; 504; 429])
  | None =>
      match errors_As as_op_error err with
      | Some _ => true
      | None =>
          if default false (errors_As as_url_error err) then true
          else errors_Is err ECONNREFUSED || errors_Is err ECONNRESET || errors_Is err EPIPE
      end
  end.

Definition checkHTTPStatus (resp : Response) : result error unit :=
  if bool_decide (StatusCode resp = 200) then Ok tt
  else Err (StatusError (StatusCode resp) ("server status: " +:+ Status resp)).

Section client.
Context `{Gzip} `{NetURL}.

Record Client : Type := mkClient { key : string; base : URL }.

Definition New (serverAddr hkey : string) : result error Client :=
  match Parse (normalizeBase serverAddr) with
  | Ok u => Ok (mkClient (TrimSpace hkey) u)
  | Err e => Err e
  end.

Definition endpoint (c : Client) (path : string) : string :=
  URL_String (WithPath (base c) (TrimRight (Path (base c)) "/"%char +:+ path)).

Definition drainAndDiscard (resp : Response) : result error unit :=
  let ce := default EmptyString (Header resp !! "Content-Encoding") in
  if Contains (ToLower ce) "gzip" then
    match gunzip (Body resp) with
    | None => Err (Wrap "bad gzip: " (Errorf "gzip"))
    | Some (Ok _) => Ok tt
    | Some (Err e) => Err (Wrap "drain body: " e)
    end
  else match Body resp with Ok _ => Ok tt | Err e => Err (Wrap "drain body: " e) end.

(** The headers [newGzJSONRequest] sets, under their canonical names. *)
Definition request_headers (hashHeader : string) : gmap string string :=
  let h := {["Content-Type" := "application/json"; "Content-Encoding" := "gzip";
             "Accept" := "application/json"; "Accept-Encoding" := "gzip"]} in
  if bool_decide (hashHeader = EmptyString) then h else <["Hashsha256" := hashHeader]> h.

Definition newGzJSONRequest (c : Client) (path body hashHeader : string) : result error Request :=
  match NewRequest_error (endpoint c path) with
  | Some e => Err (Wrap "new request: " e)
  | None => Ok (mkRequest "POST" (endpoint c path) (request_headers hashHeader) (Ok body) EmptyString)
  end.

Section send.
Context {W : Type} `{Timing W} `{Transport W}.

(** [op] with the captured variable [resp] ([None]: nil). *)
Definition send_op (ctx : Context) (mkReq : result error Request) :
  io (W * option Response) error unit := λ '(w, resp),
  match mkReq with
  | Err e => (Err e, (w, resp))
  | Ok req => match Do ctx req w with
              | (Ok r, w) => (Ok tt, (w, Some r))
              | (Err e, w) => (Err e, (w, None))
              end
  end.

Definition sendWithRetry (ctx : Context) (mkReq : result error Request) :
  io W error (option Response) := λ w,
  match Retry ctx DefaultBackoff isRetryableHTTP (send_op ctx mkReq) (w, None) with
  | (Err e, (w, _)) => (Err (Wrap "http do: " e), w)
  | (Ok _, (w, resp)) => (Ok resp, w)
  end.

(** What follows a response, with the deferred [Close]. *)
Definition finish (resp : Response) : result error unit :=
  let r := match drainAndDiscard resp with Err e => Err e | Ok _ => checkHTTPStatus resp end in
  match r, Close resp with
  | Ok _, Some cerr => Err (Wrap "close response body: " cerr)
  | _, _ => r
  end.

(** The digest of the header: none without a key. *)
Definition hash_header (c : Client) (plain : string) : string :=
  if bool_decide (key c = EmptyString) then EmptyString else Sha256.SumSHA256 plain (key c).

(** The payload as [json.Marshal] takes it: nil, or a value with its JSON text,
    [None] when it cannot be marshalled. *)
Definition payload : Type := option (option string).

Definition marshalJSON (p : payload) : result error string :=
  match p with
  | None => Ok EmptyString
  | Some None => Err (Wrap "marshal: " (Errorf "json: unsupported value"))
  | Some (Some b) => Ok b
  end.

(** A nil response without an error would panic ([None]). *)
Definition doGzJSON (ctx : Context) (c : Client) (path : string) (p : payload) :
  W → option (result error unit) * W := λ w,
  match marshalJSON p with
  | Err err => (Some (Err err), w)
  | Ok plain =>
      match sendWithRetry ctx (newGzJSONRequest c path (gzip plain) (hash_header c plain)) w with
      | (Err e, w) => (Some (Err e), w)
      | (Ok (Some resp), w) => (Some (finish resp), w)
      | (Ok None, w) => (None, w)
      end
  end.

Definition SendOne (ctx : Context) (c : Client) (m : Metrics) : W → option (result error unit) * W :=
  doGzJSON ctx c "/update" (Some (encode_metric m)).

Definition SendBatch (ctx : Context) (c : Client) (items : list Metrics) :
  W → option (result error unit) * W :=
  if bool_decide (length items = 0%nat) then λ w, (Some (Ok tt), w)
  else doGzJSON ctx c "/updates" (Some (encode_batch items)).
End send.
End client.

(** ** A transport that keeps what went over it *)
#[global] Instance logged_transport {W} `{Transport W} :
  Transport (W * list (Request * result error Response)) := {
  Do := λ ctx req '(w, log), let '(r, w) := Do ctx req w in (r, (w, log ++ [(req, r)]));
}.

Section spec.
Context `{Gzip} `{NetURL} {W : Type} `{HL : TimingLaws W} `{Transport W}.
Implicit Types (w : W) (c : Client).
Implicit Types log : list (Request * result error Response).

Definition failed_attempt (req : Request) (x : Request * result error Response) : Prop :=
  x.1 = req ∧ ∃ e, x.2 = Err e ∧ isRetryableHTTP e = true.

Lemma retry_log ctx req delays w log0 o0 r w' log o :
  Retry ctx delays isRetryableHTTP (send_op ctx (Ok req)) ((w, log0), o0) = (r, ((w', log), o)) →
  ∃ init last, log = log0 ++ init ++ [(req, last)] ∧ (length init ≤ length delays)%nat ∧
    Forall (failed_attempt req) init ∧
    match last with Ok rs => r = Ok tt ∧ o = Some rs | Err _ => ∃ e, r = Err e end.
Proof using HL.
  revert w log0 o0. induction delays as [|d delays IH]; intros w log0 o0; cbn [Retry];
    change (send_op ctx (Ok req) ((w, log0), o0)) with
      (match Do ctx req (w, log0) with
       | (Ok r, w) => (Ok tt, (w, Some r)) | (Err e, w) => (Err e, (w, None)) end);
    cbn [Do logged_transport]; destruct (Do ctx req w) as [[rs|e] w1].
  1, 3: intros [= <- <- <- <-]; exists [], (Ok rs); split_and!; simpl; try done; lia.
  - destruct (ctx_Err _ _); intros [= <- <- <- <-]; exists [], (Err e); split_and!; simpl; eauto; lia.
  - destruct (ctx_Err _ _) as [ce|];
      [intros [= <- <- <- <-]; exists [], (Err e); simpl; eauto with lia|].
    destruct (isRetryableHTTP e) eqn:Hr; cbn [negb];
      [|intros [= <- <- <- <-]; exists [], (Err e); split_and!; simpl; eauto; lia].
    destruct (wait_timer ctx d _) as [[] w2] eqn:Hw.
    + cbn [wait_timer prod_timing] in Hw. destruct (wait_timer ctx d w1) as [b w3].
      injection Hw as -> <-. intros Hx.
      destruct (IH _ _ _ Hx) as (init & last & -> & Hl & Hf & Hres).
      exists ((req, Err e) :: init), last. rewrite <- app_assoc. split; [done|].
      split; [simpl; lia|]. split; [|done]. constructor; [|done]. split; [done|eauto].
    + pose proof (wait_timer_done ctx d _ _ Hw) as [ce Hce].
      cbn [wait_timer prod_timing] in Hw. destruct (wait_timer ctx d w1) as [b w3].
      injection Hw as -> <-. rewrite Hce. intros [= <- <- <- <-].
      exists [], (Err e). split_and!; simpl; eauto; lia.
Qed.

(** [C18] What one call of the client puts on the wire: nothing when
    the payload cannot be marshalled, else between one and four times the same
    request, with the payload compressed and the digest of the payload before
    compression; every attempt but the last failed in the
    transport with a retryable error, so that a response ends the call whatever its
    status; and the result is nil exactly for a response with status 200 that could
    be read and closed. *)
Theorem doGzJSON_spec ctx c path p w :
  NewRequest_error (endpoint c path) = None →
  match marshalJSON p with
  | Err err => doGzJSON ctx c path p (w, []) = (Some (Err err), (w, []))
  | Ok plain =>
      let req := mkRequest "POST" (endpoint c path) (request_headers (hash_header c plain))
                   (Ok (gzip plain)) EmptyString in
      ∃ r w' init last,
        doGzJSON ctx c path p (w, []) = (Some r, (w', init ++ [(req, last)])) ∧
        (length init ≤ 3)%nat ∧ Forall (failed_attempt req) init ∧
        match last with
        | Ok resp => r = finish resp ∧
            (r = Ok tt ↔ StatusCode resp = 200 ∧ is_ok (drainAndDiscard resp) = true ∧ Close resp = None)
        | Err _ => ∃ e, r = Err (Wrap "http do: " e)
        end
  end.
Proof using HL.
  intros Hreq. unfold doGzJSON. destruct (marshalJSON p) as [plain|err]; [|done]. cbv zeta.
  unfold sendWithRetry, newGzJSONRequest. rewrite Hreq.
  set (req := mkRequest _ _ _ _ _). destruct (Retry _ _ _ _ _) as [r [[w' log] o]] eqn:Hr.
  destruct (retry_log _ _ _ _ _ _ _ _ _ _ Hr) as (init & last & -> & Hl & Hf & Hres).
  destruct last as [rs|e0].
  - destruct Hres as [-> ->]. exists (finish rs), w', init, (Ok rs).
    split_and!; [done|done|done|done|]. unfold finish, checkHTTPStatus.
    destruct (drainAndDiscard rs), (Close rs), (bool_decide_reflect (StatusCode rs = 200));
      naive_solver.
  - destruct Hres as [e ->]. eexists _, w', init, (Err e0). split_and!; try done. by eexists.
Qed.
End spec.

(** ** Example: a server that refuses connections until the instant 3 s, and then
    is overloaded: the refused attempts are repeated, the answer 503 is not. *)
#[local] Existing Instance stored_gzip.
#[local] Existing Instance plain_url.

Definition demo_response : Response := mkResponse 503 "503 Service Unavailable" ∅ (Ok EmptyString) None.

#[local] Instance demo_transport : Transport Z := {
  Do _ _ t := if bool_decide (t < 3 * Second) then (Err (OpError ECONNREFUSED), t)
              else (Ok demo_response, t);
}.

Definition demo_client : Client := mkClient EmptyString "http://localhost:8080".

Lemma doGzJSON_spec_witness : ∃ r w' log,
  doGzJSON Background demo_client "/updates" (Some (Some "[]")) (0, []) = (Some r, (w', log)) ∧
  (length log ≤ 4)%nat ∧ r = Err (StatusError 503 "server status: 503 Service Unavailable").
Proof.
  destruct (doGzJSON_spec Background demo_client "/updates" (Some (Some "[]")) 0 eq_refl)
    as (r & w' & init & last & H & Hl & _).
  exists r, w', (init ++ [(mkRequest "POST" (endpoint demo_client "/updates")
    (request_headers (hash_header demo_client "[]")) (Ok (gzip "[]")) EmptyString, last)]).
  split; [exact H|]. split; [rewrite length_app; simpl; lia|].
  vm_compute in H. injection H as <- _ _. reflexivity.
Defined.
End HttpClient.
