(* ===== verification/Config.v ===== *)
(** * internal/config and internal/misc/env.go: settings from the environment,
    the command line and defaults

    The environment is a map ([os.Getenv] of a variable that is not set is empty),
    the command line a list of arguments.  [net/url] is the parameter of the HTTP
    client.  The texts of usage messages are left out. *)

From S2P Require Import Prelude GoStrings GoInt GoErrors Domain GoFloat GoTime.
From S2P Require Import Json GoFlag HttpClient.
Open Scope Z_scope.

Module Config.
Import GoTime GoFlag HttpClient.

Abbreviation environment := (gmap string string).

(** ** internal/misc/env.go *)

Definition os_Getenv (env : environment) (key : string) : string := default EmptyString (env !! key).

Definition Getenv (env : environment) (key def : string) : string :=
  let v := os_Getenv env key in if bool_decide (v = EmptyString) then def else v.

Definition GetDuration (env : environment) (key : string) (def : Z) : Z :=
  let v := os_Getenv env key in
  if bool_decide (v = EmptyString) then def
  else match ParseInt v with
       | Ok n => if n <=? 0 then 0 else seconds n
       | Err _ => match ParseDuration v with
                  | Some d => if d <=? 0 then 0 else d
                  | None => def
                  end
       end.

Definition GetBool (env : environment) (key : string) (def : bool) : bool :=
  let v := TrimSpace (ToLower (os_Getenv env key)) in
  if bool_decide (v = EmptyString) then def
  else if bool_decide (v ∈ ["1"; "true"; "t"; "yes"; "y"]) then true
  else if bool_decide (v ∈ ["0"; "false"; "f"; "no"; "n"]) then false
  else def.

(** ** internal/config/helpers.go *)

Definition FromEnvOrFlag (env : environment) (envKey flagVal def : string) : string :=
  let v := TrimSpace (os_Getenv env envKey) in
  if negb (bool_decide (v = EmptyString)) then v
  else let v := TrimSpace flagVal in
       if negb (bool_decide (v = EmptyString)) then v else def.

Definition FromEnvOrFlagBool (env : environment) (envKey : string) (flagVal def : bool) : bool :=
  if negb (bool_decide (TrimSpace (os_Getenv env envKey) = EmptyString))
  then GetBool env envKey def
  else if flagVal then true else def.

Definition FromEnvOrFlagInt (env : environment) (envKey : string) (flagVal def min : Z) : Z :=
  let ev := TrimSpace (os_Getenv env envKey) in
  let from_flag := if negb (bool_decide (flagVal = 0)) && (min <=? flagVal) then flagVal else def in
  if negb (bool_decide (ev = EmptyString)) then
    match Atoi ev with
    | Ok n => if min <=? n then n else from_flag
    | Err _ => from_flag
    end
  else from_flag.

Definition FromEnvOrFlagDuration (env : environment) (envKey : string)
    (flagSeconds flagSentinel defSeconds : Z) : Z * bool :=
  let ev := TrimSpace (os_Getenv env envKey) in
  if negb (bool_decide (ev = EmptyString)) then
    match ParseInt ev with
    | Ok n => (seconds n, true)
    | Err _ => match ParseDuration ev with
               | Some d => (d, true)
               | None => (GetDuration env envKey (seconds defSeconds), true)
               end
    end
  else if negb (bool_decide (flagSeconds = flagSentinel)) then (seconds flagSeconds, true)
  else (seconds defSeconds, false).

(** ** internal/config/server.go *)

Record ServerConfig : Type := mkServerConfig {
  Address : string;
  File : string;
  DSN : string;
  Key : string;
  Interval : Z;                      (* nanoseconds *)
  Restore : bool;
  AuditFile : string;
  AuditURL : string;
}.

Definition server_flags : FlagSet :=
  {["a" := FString EmptyString; "f" := FString EmptyString; "d" := FString EmptyString;
    "k" := FString EmptyString; "i" := FInt (-1); "r" := FBool false;
    "audit-file" := FString EmptyString; "audit-url" := FString EmptyString]}.

Section urls.
Context `{NetURL}.

Definition normalizeListenAndServeURL (s : string) : string :=
  let s := TrimSpace s in
  if bool_decide (s = EmptyString) then ":8080"
  else
    let host := if HasPrefix s "http://" || HasPrefix s "https://"
                then match Parse s with Ok u => Host u | Err _ => EmptyString end
                else EmptyString in
    if negb (bool_decide (host = EmptyString)) then host
    else if negb (Contains s ":") then ":" +:+ s else s.

Definition invalid_address : error := Errorf "invalid listen address".
Definition negative_interval : error := Errorf "store interval must be >= 0".

Definition LoadServerConfig (env : environment) (args : list string) : result error ServerConfig :=
  match GoFlag.Parse args server_flags with
  | Err err => Err err
  | Ok fs =>
      let addr := normalizeListenAndServeURL (FromEnvOrFlag env "ADDRESS" (get_string fs "a") ":8080") in
      match SplitHostPort addr with
      | None | Some (_, EmptyString) => Err invalid_address
      | Some _ =>
          let file := FromEnvOrFlag env "FILE_STORAGE_PATH" (get_string fs "f") "metrics-db.json" in
          let dsn := FromEnvOrFlag env "DATABASE_DSN" (get_string fs "d") EmptyString in
          let key := FromEnvOrFlag env "KEY" (get_string fs "k") EmptyString in
          let auditFile := FromEnvOrFlag env "AUDIT_FILE" (get_string fs "audit-file") EmptyString in
          let auditURL := FromEnvOrFlag env "AUDIT_URL" (get_string fs "audit-url") EmptyString in
          let '(interval, _) := FromEnvOrFlagDuration env "STORE_INTERVAL" (get_int fs "i") (-1) 300 in
          if interval <? 0 then Err negative_interval
          else Ok (mkServerConfig addr file dsn key interval
                     (FromEnvOrFlagBool env "RESTORE" (get_bool fs "r") false) auditFile auditURL)
      end
  end.

(** ** internal/config/agent.go *)

Record AgentConfig : Type := mkAgentConfig {
  AgentAddress : string;
  AgentKey : string;
  PollInterval : Z;
  ReportInterval : Z;
  RateLimit : Z;
}.

Definition agent_flags : FlagSet :=
  {["a" := FString EmptyString; "k" := FString EmptyString; "r" := FInt 0; "p" := FInt 0;
    "l" := FInt 0]}.

Definition defaultServerAddr : string := "http://localhost:8080".

Definition normalizeAddressURL (s : string) : string :=
  let s := TrimSpace s in
  if bool_decide (s = EmptyString) then defaultServerAddr
  else if HasPrefix s "http://" || HasPrefix s "https://" then s
  else if HasPrefix s ":" then "http://localhost" +:+ s
  else "http://" +:+ s.

Definition LoadAgentConfig (env : environment) (args : list string) : result error AgentConfig :=
  match GoFlag.Parse args agent_flags with
  | Err err => Err err
  | Ok fs =>
      let addr := normalizeAddressURL (FromEnvOrFlag env "ADDRESS" (get_string fs "a") defaultServerAddr) in
      match ParseRequestURI addr with
      | Err _ => Err (Errorf "invalid server address")
      | Ok _ =>
          let key := FromEnvOrFlag env "KEY" (get_string fs "k") EmptyString in
          let '(report, _) := FromEnvOrFlagDuration env "REPORT_INTERVAL" (get_int fs "r") 0 10 in
          if report <=? 0 then Err (Errorf "report interval must be > 0")
          else
            let '(poll, _) := FromEnvOrFlagDuration env "POLL_INTERVAL" (get_int fs "p") 0 2 in
            if poll <=? 0 then Err (Errorf "poll interval must be > 0")
            else Ok (mkAgentConfig addr key poll report
                       (FromEnvOrFlagInt env "RATE_LIMIT" (get_int fs "l") 1 1))
      end
  end.
End urls.

(** ** One setting *)

(** A text that trimming leaves alone and that counts as set. *)
Definition clean (s : string) : Prop := TrimSpace s = s ∧ s ≠ EmptyString.

Definition unset (env : environment) (k : string) : Prop := TrimSpace (os_Getenv env k) = EmptyString.

Lemma FromEnvOrFlag_env env k s flag def : clean s → env !! k = Some s →
  FromEnvOrFlag env k flag def = s.
Proof.
  intros [Hs Hne] Hk. unfold FromEnvOrFlag, os_Getenv. rewrite Hk. cbn [default from_option id].
  by rewrite Hs, bool_decide_false.
Qed.

Lemma FromEnvOrFlag_flag env k s def : TrimSpace s = s → unset env k →
  FromEnvOrFlag env k s def = if bool_decide (s = EmptyString) then def else s.
Proof.
  intros Hs Hk. unfold FromEnvOrFlag. rewrite Hk, Hs. simpl. by destruct (bool_decide _).
Qed.

Lemma FromEnvOrFlag_trimmed env k flag def : TrimSpace def = def →
  TrimSpace (FromEnvOrFlag env k flag def) = FromEnvOrFlag env k flag def.
Proof.
  intros Hd. unfold FromEnvOrFlag. case_bool_decide; simpl; [|apply TrimSpace_idemp].
  case_bool_decide; simpl; [done|apply TrimSpace_idemp].
Qed.

(** A duration on every branch: a number of seconds in the environment, in
    int64 and so wrapping around; else a duration with units; anything else there is
    the default, whatever the command line says; without the variable the flag
    unless it has its sentinel, then the default.  The second result tells whether
    the default was used for lack of both. *)
Theorem FromEnvOrFlagDuration_spec env k flag sentinel def :
  let ev := TrimSpace (os_Getenv env k) in
  FromEnvOrFlagDuration env k flag sentinel def =
    if bool_decide (ev = EmptyString)
    then if bool_decide (flag = sentinel) then (seconds def, false) else (seconds flag, true)
    else (match ParseInt ev, ParseDuration ev with
          | Ok n, _ => seconds n
          | Err _, Some d => d
          | Err _, None => seconds def
          end, true).
Proof.
  cbv zeta. unfold FromEnvOrFlagDuration. case_bool_decide as Hev; simpl.
  - by case_bool_decide.
  - destruct (ParseInt _) as [n|e] eqn:Hi; [done|].
    destruct (ParseDuration (TrimSpace _)) as [d|] eqn:Hd; [done|]. unfold GetDuration.
    case_bool_decide; [done|]. destruct (ParseInt (os_Getenv env k)) as [n|e'] eqn:Hi'.
    { pose proof (ParseInt_trim _ _ Hi') as Ht. rewrite Ht in Hi. congruence. }
    destruct (ParseDuration (os_Getenv env k)) as [d|] eqn:Hd'; [|done].
    pose proof (ParseDuration_trim _ _ Hd') as Ht. rewrite Ht in Hd. congruence.
Qed.

Lemma FromEnvOrFlagDuration_range env k flag sentinel def :
  in_int64 (FromEnvOrFlagDuration env k flag sentinel def).1.
Proof.
  assert (∀ n, in_int64 (seconds n)) as Hs by (intros n; apply wrap64_range).
  assert (in_int64 0) as H0 by (unfold64; lia).
  unfold FromEnvOrFlagDuration, GetDuration.
  repeat (case_match; cbn [fst]; eauto using ParseDuration_range).
Qed.

Lemma FromEnvOrFlagInt_min env k flag def min : min ≤ def → min ≤ FromEnvOrFlagInt env k flag def min.
Proof.
  intros Hd. assert (min ≤ (if negb (bool_decide (flag = 0)) && (min <=? flag) then flag else def)) as Hf.
  { destruct (negb _); simpl; [|done]. by destruct (Z.leb_spec min flag). }
  unfold FromEnvOrFlagInt. cbv zeta. destruct (negb (bool_decide (TrimSpace _ = _))); [|exact Hf].
  destruct (Atoi _) as [n|]; [|exact Hf]. destruct (Z.leb_spec min n); [done|exact Hf].
Qed.

(** ** The whole configuration *)
Section load.
Context `{NetURL}.

(** [C39] What the server runs with: an address with a port, an interval of at
    least zero that fits a duration, and texts without white space around them. *)
Theorem LoadServerConfig_valid env args cfg : LoadServerConfig env args = Ok cfg →
  (∃ host port, SplitHostPort (Address cfg) = Some (host, port) ∧ port ≠ EmptyString) ∧
  0 ≤ Interval cfg ≤ max_int64 ∧ File cfg ≠ EmptyString ∧
  Forall (λ s, TrimSpace s = s) [File cfg; DSN cfg; Key cfg; AuditFile cfg; AuditURL cfg].
Proof.
  unfold LoadServerConfig. destruct (GoFlag.Parse _ _) as [fs|]; [|done].
  destruct (SplitHostPort _) as [[h p]|] eqn:Ha; [|done].
  destruct (FromEnvOrFlagDuration _ _ _ _ _) as [d b] eqn:Hd.
  pose proof (FromEnvOrFlagDuration_range env "STORE_INTERVAL" (get_int fs "i") (-1) 300) as Hr.
  rewrite Hd in Hr. unfold64. cbn [fst] in Hr. destruct p as [|c p]; [done|].
  destruct (Z.ltb_spec d 0); [done|]. intros [= <-]. cbn [Address Interval File DSN Key AuditFile AuditURL].
  split; [eauto|]. split; [lia|]. split.
  - unfold FromEnvOrFlag. do 2 (case_bool_decide; simpl; [|done]). done.
  - repeat (apply Forall_cons; split); [..|apply Forall_nil_2]; by apply FromEnvOrFlag_trimmed.
Qed.

Lemma normalizeAddressURL_scheme s :
  HasPrefix (normalizeAddressURL s) "http://" || HasPrefix (normalizeAddressURL s) "https://" = true.
Proof.
  unfold normalizeAddressURL. generalize (TrimSpace s) as t. intros t. cbv zeta.
  case_bool_decide; [done|].
  destruct (HasPrefix t "http://" || HasPrefix t "https://") eqn:Hpre; [done|].
  apply orb_true_iff. left. destruct (HasPrefix t ":"); [|apply HasPrefix_app].
  apply (HasPrefix_app "http://" ("localhost" +:+ t)).
Qed.

Lemma LoadAgentConfig_inv env args cfg : LoadAgentConfig env args = Ok cfg →
  (HasPrefix (AgentAddress cfg) "http://" || HasPrefix (AgentAddress cfg) "https://" = true) ∧
  0 < PollInterval cfg ≤ max_int64 ∧ 0 < ReportInterval cfg ≤ max_int64 ∧ 1 ≤ RateLimit cfg.
Proof.
  unfold LoadAgentConfig. destruct (GoFlag.Parse _ _) as [fs|]; [|done].
  destruct (ParseRequestURI _); [|done].
  destruct (FromEnvOrFlagDuration env "REPORT_INTERVAL" _ _ _) as [r br] eqn:Hr.
  destruct (FromEnvOrFlagDuration env "POLL_INTERVAL" _ _ _) as [p bp] eqn:Hp.
  pose proof (FromEnvOrFlagDuration_range env "REPORT_INTERVAL" (get_int fs "r") 0 10) as H1.
  pose proof (FromEnvOrFlagDuration_range env "POLL_INTERVAL" (get_int fs "p") 0 2) as H2.
  rewrite Hr in H1. rewrite Hp in H2. unfold64. cbn [fst] in *.
  destruct (Z.leb_spec r 0); [done|]. destruct (Z.leb_spec p 0); [done|]. intros [= <-].
  cbn [AgentAddress PollInterval ReportInterval RateLimit]. split; [|split; [lia|split; [lia|]]].
  - apply normalizeAddressURL_scheme.
  - by apply FromEnvOrFlagInt_min.
Qed.

(** What the agent runs with: an address with its scheme, intervals of more
    than zero (a ticker of zero or less panics) and at least one sender. *)
Theorem LoadAgentConfig_valid env args cfg : LoadAgentConfig env args = Ok cfg →
  (HasPrefix (AgentAddress cfg) "http://" || HasPrefix (AgentAddress cfg) "https://" = true) ∧
  0 < PollInterval cfg ≤ max_int64 ∧ 0 < ReportInterval cfg ≤ max_int64 ∧ 1 ≤ RateLimit cfg.
Proof. apply LoadAgentConfig_inv. Qed.

(** ** Settings written down are the settings in force *)

(** An address the server takes as it is. *)
Definition listen_ok (a : string) : Prop :=
  clean a ∧ HasPrefix a "http://" = false ∧ HasPrefix a "https://" = false ∧
  ∃ h p, SplitHostPort a = Some (h, p) ∧ p ≠ EmptyString.

Lemma cut_last_Contains s x : cut_last ":"%char s = Some x → Contains s ":" = true.
Proof.
  revert x. induction s as [|c s IH]; intros x; [done|]. cbn [cut_last Contains].
  destruct (cut_last _ s) as [y|]; [intros _; by rewrite (IH y), orb_true_r|].
  case_bool_decide; [|done]. subst. by destruct s.
Qed.

Lemma listen_normal a : listen_ok a → normalizeListenAndServeURL a = a.
Proof.
  intros ([Ht Hne] & H1 & H2 & h & p & Hs & _). unfold normalizeListenAndServeURL.
  rewrite Ht, bool_decide_false, H1, H2 by done. simpl. unfold SplitHostPort in Hs.
  destruct (cut_last _ a) as [x|] eqn:Hc; [|done]. by rewrite (cut_last_Contains _ _ Hc).
Qed.

(** A configuration with a store interval of [n] seconds. *)
Record written (cfg : ServerConfig) (n : Z) : Prop := mkWritten {
  w_address : listen_ok (Address cfg);
  w_file : clean (File cfg);
  w_interval : Interval cfg = n * Second;
  w_fits : 0 ≤ n ∧ n * Second ≤ max_int64;
}.

Lemma seconds_fit n : 0 ≤ n → n * Second ≤ max_int64 → seconds n = n * Second.
Proof. intros H0 H1. apply wrap64_id. unfold64. unfold Second in *. lia. Qed.

Lemma small_int64 n : 0 ≤ n → n * Second ≤ max_int64 → in_int64 n.
Proof. unfold64. unfold Second. lia. Qed.

Lemma clean_int n : in_int64 n → clean (FormatInt n).
Proof.
  intros Hn. split; [by apply TrimSpace_FormatInt|]. intros E.
  pose proof (ParseInt_FormatInt n Hn) as Hp. by rewrite E in Hp.
Qed.

(** Once the sources of every setting agree with [cfg], it is loaded. *)
Lemma load_server env args fs cfg n : GoFlag.Parse args server_flags = Ok fs → written cfg n →
  FromEnvOrFlag env "ADDRESS" (get_string fs "a") ":8080" = Address cfg →
  FromEnvOrFlag env "FILE_STORAGE_PATH" (get_string fs "f") "metrics-db.json" = File cfg →
  FromEnvOrFlag env "DATABASE_DSN" (get_string fs "d") EmptyString = DSN cfg →
  FromEnvOrFlag env "KEY" (get_string fs "k") EmptyString = Key cfg →
  FromEnvOrFlag env "AUDIT_FILE" (get_string fs "audit-file") EmptyString = AuditFile cfg →
  FromEnvOrFlag env "AUDIT_URL" (get_string fs "audit-url") EmptyString = AuditURL cfg →
  (FromEnvOrFlagDuration env "STORE_INTERVAL" (get_int fs "i") (-1) 300).1 = seconds n →
  FromEnvOrFlagBool env "RESTORE" (get_bool fs "r") false = Restore cfg →
  LoadServerConfig env args = Ok cfg.
Proof.
  intros Hfs [Ha _ Hi [Hn0 Hn1]] E1 E2 E3 E4 E5 E6 E7 E8. unfold LoadServerConfig.
  rewrite Hfs, E1, E2, E3, E4, E5, E6, E8, listen_normal by done.
  destruct Ha as (_ & _ & _ & h & p & -> & Hp). destruct p; [done|].
  destruct (FromEnvOrFlagDuration _ _ _ _ _) as [d b]. cbn [fst] in E7. subst d.
  rewrite seconds_fit, <- Hi by done.
  assert (0 ≤ Interval cfg) by (rewrite Hi; unfold Second; lia).
  destruct (Z.ltb_spec (Interval cfg) 0); [lia|]. by destruct cfg.
Qed.

Definition env_of (cfg : ServerConfig) (n : Z) : environment :=
  {["ADDRESS" := Address cfg; "FILE_STORAGE_PATH" := File cfg; "DATABASE_DSN" := DSN cfg;
    "KEY" := Key cfg; "STORE_INTERVAL" := FormatInt n;
    "RESTORE" := if Restore cfg then "true" else "false";
    "AUDIT_FILE" := AuditFile cfg; "AUDIT_URL" := AuditURL cfg]}.

Lemma duration_env env k n flag sentinel def : in_int64 n → env !! k = Some (FormatInt n) →
  FromEnvOrFlagDuration env k flag sentinel def = (seconds n, true).
Proof.
  intros Hn Hk. destruct (clean_int n Hn) as [Ht Hne]. unfold FromEnvOrFlagDuration, os_Getenv.
  rewrite Hk. cbn [default from_option id]. rewrite Ht, bool_decide_false by done. simpl negb. cbn iota.
  by rewrite ParseInt_FormatInt.
Qed.

(** [C25] The environment wins: with every variable set the server runs with what
    they say, whatever flags the command line has as long as it can be read. *)
Theorem env_wins args fs cfg n : GoFlag.Parse args server_flags = Ok fs → written cfg n →
  clean (DSN cfg) → clean (Key cfg) → clean (AuditFile cfg) → clean (AuditURL cfg) →
  LoadServerConfig (env_of cfg n) args = Ok cfg.
Proof.
  intros Hfs Hw Hd Hk Haf Hau. eapply load_server; [done..| | | | | | | |];
    try (apply FromEnvOrFlag_env; [by apply Hw|reflexivity]).
  1-4: apply FromEnvOrFlag_env; [done|reflexivity].
  - rewrite (duration_env _ _ n); [done| |reflexivity]. apply small_int64; apply Hw.
  - unfold FromEnvOrFlagBool, GetBool, os_Getenv.
    assert (env_of cfg n !! "RESTORE" = Some (if Restore cfg then "true" else "false")) as -> by reflexivity.
    by destruct (Restore cfg).
Qed.

Definition args_of (cfg : ServerConfig) (n : Z) : list string :=
  [("a", FString (Address cfg)); ("f", FString (File cfg)); ("d", FString (DSN cfg));
   ("k", FString (Key cfg)); ("i", FInt n); ("r", FBool (Restore cfg));
   ("audit-file", FString (AuditFile cfg)); ("audit-url", FString (AuditURL cfg))] ≫= spell.

Definition server_variables : list string :=
  ["ADDRESS"; "FILE_STORAGE_PATH"; "DATABASE_DSN"; "KEY"; "STORE_INTERVAL"; "RESTORE";
   "AUDIT_FILE"; "AUDIT_URL"].

(** The server's flags take any setting of their own kind. *)
Lemma args_settable cfg n : in_int64 n → Forall (settable server_flags)
  [("a", FString (Address cfg)); ("f", FString (File cfg)); ("d", FString (DSN cfg));
   ("k", FString (Key cfg)); ("i", FInt n); ("r", FBool (Restore cfg));
   ("audit-file", FString (AuditFile cfg)); ("audit-url", FString (AuditURL cfg))].
Proof.
  intros Hn. repeat (apply Forall_cons; split); [..|apply Forall_nil_2];
    (split; [reflexivity|split; [eexists; split; [reflexivity|exact I]|cbn; first [exact I|exact Hn]]]).
Qed.

(** [C26] The command line holds where the environment is silent: the server runs
    with the configuration its arguments spell out, optional texts included when
    they are empty. *)
Theorem flags_hold env cfg n : Forall (unset env) server_variables → written cfg n →
  Forall (λ s, TrimSpace s = s) [DSN cfg; Key cfg; AuditFile cfg; AuditURL cfg] →
  LoadServerConfig env (args_of cfg n) = Ok cfg.
Proof.
  intros Hu Hw Ht. assert (in_int64 n) as Hn by (apply small_int64; apply Hw).
  unfold server_variables in Hu. rewrite !Forall_cons in Hu. rewrite !Forall_cons in Ht.
  destruct Hu as (U1 & U2 & U3 & U4 & U5 & U6 & U7 & U8 & _), Ht as (T1 & T2 & T3 & T4 & _).
  assert (∀ k s def, unset env k → clean s → FromEnvOrFlag env k s def = s) as Hset.
  { intros k s def Hk [Hs Hne]. rewrite FromEnvOrFlag_flag by done. by rewrite bool_decide_false. }
  assert (∀ k s, unset env k → TrimSpace s = s → FromEnvOrFlag env k s EmptyString = s) as Hopt.
  { intros k s Hk Hs. rewrite FromEnvOrFlag_flag by done. by case_bool_decide. }
  eapply load_server; [apply (Parse_all _ _ (args_settable cfg n Hn))|exact Hw|..].
  - by apply Hset; [|apply Hw].
  - by apply Hset; [|apply Hw].
  - by apply Hopt.
  - by apply Hopt.
  - by apply Hopt.
  - by apply Hopt.
  - unfold FromEnvOrFlagDuration. rewrite U5. change (get_int _ _) with n.
    rewrite (bool_decide_false (n = -1)); [done|]. destruct (w_fits _ _ Hw). lia.
  - unfold FromEnvOrFlagBool. rewrite U6. change (get_bool _ _) with (Restore cfg). by destruct (Restore cfg).
Qed.

(** The check "must be > 0" does not see every negative interval: the product
    with the nanoseconds of a second wraps around, and these negative numbers of
    seconds are taken for centuries. *)
Theorem negative_interval_accepted n : -18446744073 ≤ n ≤ -9223372037 →
  is_ok (ParseRequestURI defaultServerAddr) = true → ∃ cfg,
  LoadAgentConfig {["REPORT_INTERVAL" := FormatInt n]} [] = Ok cfg ∧
  ReportInterval cfg = n * Second + 2 ^ 64 ∧ 0 < ReportInterval cfg.
Proof.
  intros Hn Hu. assert (seconds n = n * Second + 2 ^ 64) as Hs.
  { unfold seconds, mul64, wrap64, Second. lia. }
  assert (0 < n * Second + 2 ^ 64) as Hpos by (unfold Second; lia).
  assert (in_int64 n) as Hi by (unfold64; lia).
  assert (FromEnvOrFlagDuration {["REPORT_INTERVAL" := FormatInt n]} "REPORT_INTERVAL" 0 0 10 =
    (seconds n, true)) as Hd by (apply duration_env; [done|reflexivity]).
  exists (mkAgentConfig defaultServerAddr EmptyString (2 * Second) (seconds n) 1).
  cbn [ReportInterval]. rewrite Hs. split; [|done]. unfold LoadAgentConfig.
  change (GoFlag.Parse [] agent_flags) with (Ok agent_flags : result error FlagSet). cbv beta iota.
  change (get_int agent_flags "r") with 0. rewrite Hd, Hs.
  assert (normalizeAddressURL (FromEnvOrFlag {["REPORT_INTERVAL" := FormatInt n]} "ADDRESS"
    (get_string agent_flags "a") defaultServerAddr) = defaultServerAddr) as -> by reflexivity.
  destruct (ParseRequestURI defaultServerAddr); [|done].
  destruct (Z.leb_spec (n * Second + 2 ^ 64) 0); [lia|]. reflexivity.
Qed.
End load.

(** ** Examples *)
#[local] Existing Instance plain_url.

Definition demo_config : ServerConfig :=
  mkServerConfig "localhost:9090" "/tmp/db.json" "postgres://db" "secret" (60 * Second) true
    "/tmp/audit.log" "http://audit:9/log".

Lemma clean_visible s : all_visible s = true → s ≠ EmptyString → clean s.
Proof. intros Hs Hne. split; [by apply TrimSpace_visible|done]. Qed.

Lemma demo_written : written demo_config 60.
Proof.
  split; [|by apply clean_visible|done|unfold Second; unfold64; lia].
  split; [by apply clean_visible|]. split; [done|]. split; [done|]. by exists "localhost", "9090".
Qed.

(** A variable that is no duration hides the flag. *)
Lemma FromEnvOrFlagDuration_garbage :
  FromEnvOrFlagDuration {["STORE_INTERVAL" := "soon"]} "STORE_INTERVAL" 60 (-1) 300 = (300 * Second, true).
Proof. reflexivity. Qed.

Lemma LoadServerConfig_valid_witness : ∃ cfg,
  LoadServerConfig {["ADDRESS" := "http://metrics:81/x"; "STORE_INTERVAL" := "1m30s"]} ["-k"; " key "] = Ok cfg ∧
  0 ≤ Interval cfg ≤ max_int64.
Proof.
  destruct (LoadServerConfig {["ADDRESS" := "http://metrics:81/x"; "STORE_INTERVAL" := "1m30s"]} ["-k"; " key "])
    as [cfg|e] eqn:E; [|vm_compute in E; discriminate E].
  exists cfg. split; [reflexivity|]. apply (LoadServerConfig_valid _ _ _ E).
Defined.

Lemma LoadAgentConfig_valid_witness : ∃ cfg,
  LoadAgentConfig {["ADDRESS" := ":81"; "RATE_LIMIT" := "-4"]} ["-p"; "1"] = Ok cfg ∧ 1 ≤ RateLimit cfg.
Proof.
  destruct (LoadAgentConfig {["ADDRESS" := ":81"; "RATE_LIMIT" := "-4"]} ["-p"; "1"])
    as [cfg|e] eqn:E; [|vm_compute in E; discriminate E].
  exists cfg. split; [reflexivity|]. apply (LoadAgentConfig_valid _ _ _ E).
Defined.

Lemma env_wins_witness :
  LoadServerConfig (env_of demo_config 60) ["-a"; ":1"; "-i"; "5"; "-r=false"] = Ok demo_config.
Proof.
  eapply env_wins; [reflexivity|exact demo_written|by apply clean_visible..].
Defined.

Lemma flags_hold_witness : LoadServerConfig ∅ (args_of demo_config 60) = Ok demo_config.
Proof.
  apply flags_hold; [|exact demo_written|].
  - repeat (apply Forall_cons; split); [reflexivity..|apply Forall_nil_2].
  - repeat (apply Forall_cons; split); [reflexivity..|apply Forall_nil_2].
Defined.

Lemma negative_interval_accepted_witness : ∃ cfg,
  LoadAgentConfig {["REPORT_INTERVAL" := "-9223372037"]} [] = Ok cfg ∧
  ReportInterval cfg = 9223372036709551616.
Proof.
  destruct (@negative_interval_accepted plain_url (-9223372037) ltac:(lia) eq_refl) as (cfg & Hc & Hr & _).
  exists cfg. split; [exact Hc|]. rewrite Hr. reflexivity.
Defined.
End Config.
