(* ===== verification/GzipPayload.v ===== *)
(** * internal/adapters/publisher/httpjson/client.go: the pools behind the payload

    [HttpClient] takes the compressed payload of a call for a value.  In the code it
    is a slice of a pooled buffer that every request of the call reads, filled through
    a pooled compressor, while the other senders do the same.  Here each call runs
    [gzipBytes], the reads of its requests, and [Release] as steps of its own over a
    store of buffers and compressors, interleaved with the steps of all other calls.
    A pool hands out any object it has, or a new one, and may forget objects.

    A buffer keeps its bytes in an array, which [Reset] leaves alone and which is replaced
    when it gets too small; [Bytes] is a slice of it.  net/http may go on reading the body
    of a request after [Do] has returned, so a request can read its slice after
    [Release] too. *)

From S2P Require Import Prelude GoStrings Http.

Module GzipPayload.

(** The bytes of a request: an array and a length. *)
Definition slice : Type := positive * nat.

(** Where a call stands: [b] is its buffer, [z] its compressor, [body] what its
    requests were made with. *)
Inductive pc : Type :=
  | Called (plain : string)
  | GotBuffer (b : positive) (plain : string)              (* behind bufferPool.Get *)
  | ResetBuffer (b : positive) (plain : string)            (* buf.Reset() *)
  | GotWriter (b z : positive) (plain : string)            (* gzipWriterPool.Get *)
  | Attached (b z : positive) (plain : string)             (* zw.Reset(buf) *)
  | Written (b z : positive) (plain : string)              (* zw.Write(src) *)
  | Closed (b z : positive) (plain : string)               (* zw.Close() *)
  | Payload (b : positive) (plain : string)                (* gzipWriterPool.Put(zw): requests read Bytes() *)
  | Released (b : positive) (body : option slice)          (* p.buf.Reset() *)
  | Broken (b z : positive)                                (* writing or closing failed *)
  | BrokenBuffer (b : positive)                            (* behind gzipWriterPool.Put(zw) *)
  | Done (body : option slice).

Definition buffer_of (c : pc) : option positive :=
  match c with
  | GotBuffer b _ | ResetBuffer b _ | GotWriter b _ _ | Attached b _ _ | Written b _ _ | Closed b _ _
  | Payload b _ | Released b _ | Broken b _ | BrokenBuffer b => Some b
  | Called _ | Done _ => None
  end.

Definition late_body (c : pc) : option slice :=
  match c with Released _ body | Done body => body | _ => None end.

Definition writer_of (c : pc) : option positive :=
  match c with
  | GotWriter _ z _ | Attached _ z _ | Written _ z _ | Closed _ z _ | Broken _ z => Some z
  | _ => None
  end.

(** [buffers] has what [Bytes] shows; a compressor has the buffer it writes to and what
    it was given so far. *)
Record state : Type := mkState {
  buffers : gmap positive string;
  array_of : gmap positive positive;
  arrays : gmap positive string;
  writers : gmap positive (positive * string);
  bufferPool : list positive;
  gzipWriterPool : list positive;
  calls : gmap nat pc;
}.

Definition set_call (t : nat) (c : pc) (s : state) : state :=
  mkState (buffers s) (array_of s) (arrays s) (writers s) (bufferPool s) (gzipWriterPool s) (<[t := c]> (calls s)).
Definition set_writer (z : positive) (x : positive * string) (s : state) : state :=
  mkState (buffers s) (array_of s) (arrays s) (<[z := x]> (writers s)) (bufferPool s) (gzipWriterPool s) (calls s).
Definition set_bufferPool (p : list positive) (s : state) : state :=
  mkState (buffers s) (array_of s) (arrays s) (writers s) p (gzipWriterPool s) (calls s).
Definition set_writerPool (p : list positive) (s : state) : state :=
  mkState (buffers s) (array_of s) (arrays s) (writers s) (bufferPool s) p (calls s).

(** The buffer [b] has the bytes [x], at the front of the array [a] with the bytes [r]
    behind them. *)
Definition set_buffer (b : positive) (x : string) (a : positive) (r : string) (s : state) : state :=
  mkState (<[b := x]> (buffers s)) (<[b := a]> (array_of s)) (<[a := x +:+ r]> (arrays s))
    (writers s) (bufferPool s) (gzipWriterPool s) (calls s).

(** [Reset] keeps the array. *)
Definition reset_buffer (b : positive) (s : state) : state :=
  mkState (<[b := EmptyString]> (buffers s)) (array_of s) (arrays s)
    (writers s) (bufferPool s) (gzipWriterPool s) (calls s).

(** Where the bytes [x] of a buffer go: over the first ones of its array, or into a new
    array. *)
Definition room (s : state) (b : positive) (x : string) (a : positive) (r : string) : Prop :=
  arrays s !! a = None ∨
  array_of s !! b = Some a ∧ ∃ old, arrays s !! a = Some (old +:+ r) ∧ String.length old = String.length x.

(** What a request with the slice [body] reads. *)
Definition slice_bytes (s : state) (body : slice) (x : string) : Prop :=
  ∃ r, arrays s !! body.1 = Some (x +:+ r) ∧ String.length x = body.2.

Definition Bytes (s : state) (b : positive) : option slice :=
  x ← buffers s !! b; a ← array_of s !! b; Some (a, String.length x).

(** A call that begins, and a read of its payload, before its [Release] or after it:
    the bytes a request sends. *)
Inductive event : Type :=
  | Began (t : nat) (plain : string)
  | Read (t : nat) (bytes : string)
  | LateRead (t : nat) (bytes : string).

Section steps.
Context `{Gzip}.

Inductive step : state → option event → state → Prop :=
  | step_buffer s t plain b before after : calls s !! t = Some (Called plain) →
      bufferPool s = before ++ b :: after →
      step s None (set_call t (GotBuffer b plain) (set_bufferPool (before ++ after) s))
  | step_new_buffer s t plain b a : calls s !! t = Some (Called plain) → buffers s !! b = None →
      arrays s !! a = None →
      step s None (set_call t (GotBuffer b plain) (set_buffer b EmptyString a EmptyString s))
  | step_reset s t b plain : calls s !! t = Some (GotBuffer b plain) →
      step s None (set_call t (ResetBuffer b plain) (reset_buffer b s))
  | step_writer s t b plain z before after : calls s !! t = Some (ResetBuffer b plain) →
      gzipWriterPool s = before ++ z :: after →
      step s None (set_call t (GotWriter b z plain) (set_writerPool (before ++ after) s))
  | step_new_writer s t b plain z x : calls s !! t = Some (ResetBuffer b plain) → writers s !! z = None →
      step s None (set_call t (GotWriter b z plain) (set_writer z x s))
  | step_attach s t b z plain : calls s !! t = Some (GotWriter b z plain) →
      step s None (set_call t (Attached b z plain) (set_writer z (b, EmptyString) s))
  | step_write s t b z plain target got : calls s !! t = Some (Attached b z plain) →
      writers s !! z = Some (target, got) →
      step s None (set_call t (Written b z plain) (set_writer z (target, got +:+ plain) s))
  | step_write_fails s t b z plain target got x a r : calls s !! t = Some (Attached b z plain) →
      writers s !! z = Some (target, got) → room s target x a r →
      step s None (set_call t (Broken b z) (set_buffer target x a r s))
  | step_close s t b z plain target got old a r : calls s !! t = Some (Written b z plain) →
      writers s !! z = Some (target, got) → buffers s !! target = Some old →
      room s target (old +:+ gzip got) a r →
      step s None (set_call t (Closed b z plain) (set_buffer target (old +:+ gzip got) a r s))
  | step_close_fails s t b z plain target got x a r : calls s !! t = Some (Written b z plain) →
      writers s !! z = Some (target, got) → room s target x a r →
      step s None (set_call t (Broken b z) (set_buffer target x a r s))
  | step_put_writer s t b z plain : calls s !! t = Some (Closed b z plain) →
      step s None (set_call t (Payload b plain) (set_writerPool (z :: gzipWriterPool s) s))
  | step_read s t b plain body x : calls s !! t = Some (Payload b plain) → Bytes s b = Some body →
      slice_bytes s body x → step s (Some (Read t x)) s
  | step_release s t b plain : calls s !! t = Some (Payload b plain) →
      step s None (set_call t (Released b (Bytes s b)) (reset_buffer b s))
  | step_put_buffer s t b body : calls s !! t = Some (Released b body) →
      step s None (set_call t (Done body) (set_bufferPool (b :: bufferPool s) s))
  (* net/http is not done with the body of a request *)
  | step_late_read s t c body x : calls s !! t = Some c → late_body c = Some body →
      slice_bytes s body x → step s (Some (LateRead t x)) s
  | step_broken s t b z : calls s !! t = Some (Broken b z) →
      step s None (set_call t (BrokenBuffer b) (set_writerPool (z :: gzipWriterPool s) s))
  | step_broken_reset s t b : calls s !! t = Some (BrokenBuffer b) →
      step s None (set_call t (Released b None) (reset_buffer b s))
  | step_forget_buffer s b before after : bufferPool s = before ++ b :: after →
      step s None (set_bufferPool (before ++ after) s)
  | step_forget_writer s z before after : gzipWriterPool s = before ++ z :: after →
      step s None (set_writerPool (before ++ after) s).

(** A run with the reads it made; calls begin at any time. *)
Inductive runs : state → list event → state → Prop :=
  | runs_nil s : runs s [] s
  | runs_step s tr s1 e s2 : runs s tr s1 → step s1 e s2 → runs s (tr ++ option_list e) s2
  | runs_call s tr s1 t plain : runs s tr s1 → calls s1 !! t = None →
      runs s (tr ++ [Began t plain]) (set_call t (Called plain) s1).

Definition init : state := mkState ∅ ∅ ∅ ∅ [] [] ∅.

(** ** Ownership

    Every object is in its pool or with one call. *)
Section ownership.
Context (holds : pc → option positive).

Definition owned (free : list positive) (dom : positive → Prop) (cs : gmap nat pc) : Prop :=
  NoDup free ∧ (∀ l, l ∈ free → dom l) ∧
  (∀ t c l, cs !! t = Some c → holds c = Some l → dom l ∧ l ∉ free) ∧
  (∀ t t' c c' l, cs !! t = Some c → cs !! t' = Some c' → holds c = Some l → holds c' = Some l → t = t').

Lemma owned_keep free dom dom' cs t c c' : owned free dom cs → cs !! t = Some c → holds c' = holds c →
  (∀ l, dom l → dom' l) → owned free dom' (<[t := c']> cs).
Proof.
  intros (Hn & Hf & Hh & Hu) Ht Hc Hd. split; [done|]. split; [eauto|]. split.
  - intros t' x l. rewrite lookup_insert_Some. intros [[<- <-]|[_ Hx]] Hl; [rewrite Hc in Hl|];
      destruct (Hh _ _ _ ltac:(done) Hl); eauto.
  - intros t1 t2 c1 c2 l. rewrite !lookup_insert_Some.
    intros [[<- <-]|[? H1]] [[<- <-]|[? H2]] L1 L2; rewrite ?Hc in *; try done; eauto.
Qed.

Lemma owned_none free dom cs t c' : owned free dom cs → holds c' = None → owned free dom (<[t := c']> cs).
Proof.
  intros (Hn & Hf & Hh & Hu) Hc. split; [done|]. split; [done|]. split.
  - intros t' x l. rewrite lookup_insert_Some. intros [[<- <-]|[_ Hx]] Hl; [congruence|eauto].
  - intros t1 t2 c1 c2 l. rewrite !lookup_insert_Some.
    intros [[<- <-]|[? H1]] [[<- <-]|[? H2]] L1 L2; try congruence; eauto.
Qed.

Lemma owned_forget before l after dom cs : owned (before ++ l :: after) dom cs → owned (before ++ after) dom cs.
Proof.
  intros (Hn & Hf & Hh & Hu). rewrite <- Permutation_middle in Hn. apply NoDup_cons in Hn as [_ Hn].
  split; [done|]. split; [intros x Hx; apply Hf; set_solver|]. split; [|done].
  intros t c x Ht Hx. destruct (Hh _ _ _ Ht Hx). split; [done|]. set_solver.
Qed.

Lemma owned_take before l after dom cs t c' : owned (before ++ l :: after) dom cs → holds c' = Some l →
  owned (before ++ after) dom (<[t := c']> cs).
Proof.
  intros Ho Hc. pose proof (owned_forget _ _ _ _ _ Ho) as (Hn & Hf & Hh & Hu). destruct Ho as (Hn0 & Hf0 & Hh0 & _).
  rewrite <- Permutation_middle in Hn0. apply NoDup_cons in Hn0 as [Hl _].
  assert (∀ t1 c1, cs !! t1 = Some c1 → holds c1 ≠ Some l) as Hfree.
  { intros t1 c1 H1 E. destruct (Hh0 _ _ _ H1 E) as [_ Hno]. apply Hno. set_solver. }
  split; [done|]. split; [done|]. split.
  - intros t' x y. rewrite lookup_insert_Some. intros [[<- <-]|[_ Hx]] Hy; [|eauto].
    rewrite Hc in Hy. injection Hy as <-. split; [apply Hf0; set_solver|done].
  - intros t1 t2 c1 c2 y. rewrite !lookup_insert_Some.
    intros [[<- <-]|[? H1]] [[<- <-]|[? H2]] L1 L2; try done; [..|by eauto]; rewrite Hc in *;
      simplify_eq; exfalso; by eapply Hfree.
Qed.

Lemma owned_new free (dom dom' : positive → Prop) l cs t c' : owned free dom cs → ¬ dom l → holds c' = Some l →
  (∀ x, dom x → dom' x) → dom' l → owned free dom' (<[t := c']> cs).
Proof.
  intros (Hn & Hf & Hh & Hu) Hl Hc Hd Hdl.
  assert (∀ t1 c1, cs !! t1 = Some c1 → holds c1 ≠ Some l) as Hfree.
  { intros t1 c1 H1 E. by destruct (Hh _ _ _ H1 E). }
  split; [done|]. split; [eauto|]. split.
  - intros t' x y. rewrite lookup_insert_Some. intros [[<- <-]|[_ Hx]] Hy.
    + rewrite Hc in Hy. injection Hy as <-. split; [done|]. intros Hin. by apply Hl, Hf.
    + destruct (Hh _ _ _ Hx Hy). eauto.
  - intros t1 t2 c1 c2 y. rewrite !lookup_insert_Some.
    intros [[<- <-]|[? H1]] [[<- <-]|[? H2]] L1 L2; try done; [..|by eauto]; rewrite Hc in *;
      simplify_eq; exfalso; by eapply Hfree.
Qed.

Lemma owned_put free dom cs t c c' l : owned free dom cs → cs !! t = Some c → holds c = Some l →
  holds c' = None → owned (l :: free) dom (<[t := c']> cs).
Proof.
  intros (Hn & Hf & Hh & Hu) Ht Hc Hc'. destruct (Hh _ _ _ Ht Hc) as [Hd Hl].
  split; [by constructor|]. split; [intros x [->|Hx]%elem_of_cons; eauto|]. split.
  - intros t' x y. rewrite lookup_insert_Some. intros [[<- <-]|[Hne Hx]] Hy; [congruence|].
    destruct (Hh _ _ _ Hx Hy) as [Hdy Hy']. split; [done|]. apply not_elem_of_cons. split; [|done].
    intros ->. apply Hne. by eapply Hu.
  - intros t1 t2 c1 c2 y. rewrite !lookup_insert_Some.
    intros [[<- <-]|[? H1]] [[<- <-]|[? H2]] L1 L2; try congruence; eauto.
Qed.
End ownership.

(** ** What each call knows of its objects *)

Definition local (s : state) (c : pc) : Prop :=
  match c with
  | ResetBuffer b _ | GotWriter b _ _ => buffers s !! b = Some EmptyString
  | Attached b z _ => buffers s !! b = Some EmptyString ∧ writers s !! z = Some (b, EmptyString)
  | Written b z plain => buffers s !! b = Some EmptyString ∧ writers s !! z = Some (b, plain)
  | Closed b _ plain | Payload b plain => buffers s !! b = Some (gzip plain)
  | _ => True
  end.

Record pool_inv (s : state) : Prop := {
  inv_buffers : owned buffer_of (bufferPool s) (λ l, is_Some (buffers s !! l)) (calls s);
  inv_writers : owned writer_of (gzipWriterPool s) (λ l, is_Some (writers s !! l)) (calls s);
  inv_local : ∀ t c, calls s !! t = Some c → local s c;
}.

Lemma local_frame s s' c : local s c →
  (∀ l, buffer_of c = Some l → buffers s' !! l = buffers s !! l) →
  (∀ l, writer_of c = Some l → writers s' !! l = writers s !! l) → local s' c.
Proof.
  intros Hl Hb Hw. destruct c; simpl in *; try done; try (by rewrite (Hb _ eq_refl));
    by rewrite (Hb _ eq_refl), (Hw _ eq_refl).
Qed.

(** A call that changes only objects of its own, or new ones, keeps the others as
    they are. *)
Lemma moved s s' t c c' : pool_inv s → calls s !! t = Some c → calls s' = <[t := c']> (calls s) →
  owned buffer_of (bufferPool s') (λ l, is_Some (buffers s' !! l)) (calls s') →
  owned writer_of (gzipWriterPool s') (λ l, is_Some (writers s' !! l)) (calls s') → local s' c' →
  (∀ l, is_Some (buffers s !! l) → buffer_of c ≠ Some l → buffers s' !! l = buffers s !! l) →
  (∀ l, is_Some (writers s !! l) → writer_of c ≠ Some l → writers s' !! l = writers s !! l) → pool_inv s'.
Proof.
  intros [(_ & _ & Hb & Hbu) (_ & _ & Hw & Hwu) Hl] Ht Hc Ob Ow Hl' Fb Fw. split; [done|done|].
  intros t' x. rewrite Hc, lookup_insert_Some. intros [[_ <-]|[Hne Hx]]; [done|].
  apply (local_frame s); [by eapply Hl|..]; intros l E.
  - apply Fb; [by destruct (Hb _ _ _ Hx E)|]. intros E'. apply Hne. by eapply Hbu.
  - apply Fw; [by destruct (Hw _ _ _ Hx E)|]. intros E'. apply Hne. by eapply Hwu.
Qed.

Lemma insert_some {A} (m : gmap positive A) l (x : A) k : is_Some (m !! k) → is_Some (<[l := x]> m !! k).
Proof. intros Hk. rewrite lookup_insert_is_Some. destruct (decide (l = k)); eauto. Qed.

(** The routine goals of [moved]. *)
Ltac own_step :=
  first
    [ done
    | solve [intros; rewrite lookup_insert_ne by congruence; done]
    | solve [eapply owned_keep; [eassumption|eassumption|reflexivity|auto]]
    | solve [eapply owned_put; [eassumption|eassumption|reflexivity|reflexivity]]
    | solve [by rewrite !lookup_insert_eq]
    | idtac ].

Lemma pool_step s e s' : step s e s' → pool_inv s → pool_inv s'.
Proof.
  intros Hs Hi. pose proof Hi as [Ob Ow Hl].
  assert (∀ l (x : string), (∀ k, is_Some (buffers s !! k) → is_Some (<[l := x]> (buffers s) !! k))) as Gb
    by (intros; by apply insert_some).
  assert (∀ l (x : positive * string), (∀ k, is_Some (writers s !! k) → is_Some (<[l := x]> (writers s) !! k))) as Gw
    by (intros; by apply insert_some).
  destruct Hs as [s t plain b before after Hc Hp|s t plain b a Hc Hb _|s t b plain Hc|s t b plain z before after Hc Hp
    |s t b plain z x Hc Hz|s t b z plain Hc|s t b z plain target got Hc Hz|s t b z plain target got x a r Hc Hz _
    |s t b z plain target got old a r Hc Hz Hb _|s t b z plain target got x a r Hc Hz _|s t b z plain Hc
    |s t b plain body x Hc Hb _|s t b plain Hc|s t b body Hc|s t c body x _ _ _|s t b z Hc|s t b Hc
    |s b before after Hp|s z before after Hp];
    try (pose proof (Hl _ _ Hc) as Hloc; simpl in Hloc);
    try (eapply (moved s _ t _ _ Hi Hc); [reflexivity|..]; simpl; own_step).
  - rewrite Hp in Ob. by apply (owned_take _ _ b).
  - apply (owned_new _ _ _ _ b _ _ _ Ob); [intros [y Hy]; congruence|reflexivity|apply Gb|by rewrite lookup_insert_eq].
  - intros l [y Hy] _. rewrite lookup_insert_ne; [done|congruence].
  - rewrite Hp in Ow. by apply (owned_take _ _ z).
  - apply (owned_new _ _ _ _ z _ _ _ Ow); [intros [y Hy]; congruence|reflexivity|apply Gw|by rewrite lookup_insert_eq].
  - intros l [y Hy] _. rewrite lookup_insert_ne; [done|congruence].
  - destruct Hloc as [H1 H2]. rewrite Hz in H2. injection H2 as -> ->. by rewrite lookup_insert_eq.
  - destruct Hloc as [H1 H2]. rewrite Hz in H2. injection H2 as -> ->. intros. by rewrite lookup_insert_ne by congruence.
  - destruct Hloc as [H1 H2]. rewrite Hz in H2. injection H2 as -> ->. rewrite H1 in Hb. injection Hb as <-.
    by rewrite lookup_insert_eq.
  - destruct Hloc as [H1 H2]. rewrite Hz in H2. injection H2 as -> ->. intros. by rewrite lookup_insert_ne by congruence.
  - destruct Hloc as [H1 H2]. rewrite Hz in H2. injection H2 as -> ->. intros. by rewrite lookup_insert_ne by congruence.
  - exact Hi.
  - exact Hi.
  - split; [rewrite Hp in Ob; by eapply owned_forget|exact Ow|exact Hl].
  - split; [exact Ob|rewrite Hp in Ow; by eapply owned_forget|exact Hl].
Qed.

Lemma pool_call s t plain : pool_inv s → pool_inv (set_call t (Called plain) s).
Proof.
  intros [Ob Ow Hl]. split; simpl; [by apply owned_none|by apply owned_none|].
  intros t' c. rewrite lookup_insert_Some. intros [[_ <-]|[_ Hc]]; [done|]. exact (Hl _ _ Hc).
Qed.

(** ** Arrays

    A buffer shows the front of its array, and no two buffers share one. *)
Record array_inv (s : state) : Prop := {
  inv_text : ∀ b x, buffers s !! b = Some x → ∃ a r, array_of s !! b = Some a ∧ arrays s !! a = Some (x +:+ r);
  inv_distinct : ∀ b b' a, array_of s !! b = Some a → array_of s !! b' = Some a → b = b';
  inv_known : ∀ b a, array_of s !! b = Some a → is_Some (arrays s !! a);
}.

Lemma str_app_eq (x y r r' : string) : String.length x = String.length y → x +:+ r = y +:+ r' → x = y.
Proof.
  revert y. induction x as [|c x IH]; intros [|c' y] Hl E; simpl in Hl; try done.
  injection Hl as Hl. injection E as -> E. f_equal. by apply IH.
Qed.

Lemma array_set s b x a r : array_inv s → room s b x a r → array_inv (set_buffer b x a r s).
Proof.
  intros [Ht Hd Hk] Hr.
  assert (∀ b', array_of s !! b' = Some a → b' = b) as Hfree.
  { intros b' Hb'. destruct Hr as [Hn|[Hb _]]; [|by eapply Hd]. destruct (Hk _ _ Hb') as [y Hy]. congruence. }
  split; simpl.
  - intros b' y. rewrite !lookup_insert_Some. intros [[<- <-]|[Hne Hy]]; [exists a, r; by rewrite !lookup_insert_eq|].
    destruct (Ht _ _ Hy) as (a' & r' & Ha & Har). exists a', r'. rewrite lookup_insert_ne by done.
    split; [done|]. rewrite lookup_insert_ne; [done|]. intros <-. by apply Hne, eq_sym, Hfree.
  - intros b1 b2 a'. rewrite !lookup_insert_Some.
    intros [[<- <-]|[Hne H1]] [[<- E]|[Hne2 H2]]; subst; try done; [by symmetry; apply Hfree|by apply Hfree|by eapply Hd].
  - intros b' a'. rewrite lookup_insert_Some, lookup_insert_is_Some.
    intros [[<- <-]|[_ Hb]]; [by left|]. destruct (decide (a = a')); [by left|right; split; [done|by eapply Hk]].
Qed.

Lemma array_reset s b : array_inv s → is_Some (buffers s !! b) → array_inv (reset_buffer b s).
Proof.
  intros [Ht Hd Hk] [x Hx]. split; simpl; [|done|done]. intros b' y. rewrite lookup_insert_Some.
  intros [[<- <-]|[_ Hy]]; [|by apply Ht]. destruct (Ht _ _ Hx) as (a & r & Ha & Har). by exists a, (x +:+ r).
Qed.

Lemma array_same s s' : array_inv s → buffers s' = buffers s → array_of s' = array_of s → arrays s' = arrays s →
  array_inv s'.
Proof. intros [Ht Hd Hk] Hb Ha Hr. split; rewrite ?Hb, ?Ha, ?Hr; done. Qed.

Lemma array_call t c s : array_inv s → array_inv (set_call t c s).
Proof. intros Hi. by apply (array_same s). Qed.

Lemma array_step s e s' : pool_inv s → step s e s' → array_inv s → array_inv s'.
Proof.
  intros [(_ & _ & Hb & _) _ _] Hs Hi.
  destruct Hs as [|s t plain b a Hc Hn Ha|s t b plain Hc| | | | |s t b z plain target got x a r _ _ Hr
    |s t b z plain target got old a r _ _ _ Hr|s t b z plain target got x a r _ _ Hr| | |s t b plain Hc| | | |s t b Hc| |];
    try (by eapply array_same); apply array_call;
    try (by apply array_set); try (apply array_reset; [done|by destruct (Hb _ _ b Hc)]).
  by apply array_set; [|left].
Qed.

(** A request that reads in time reads what [Bytes] shows. *)
Lemma read_bytes s b body x y : array_inv s → buffers s !! b = Some y → Bytes s b = Some body →
  slice_bytes s body x → x = y.
Proof.
  intros [Ht _ _] Hb. unfold Bytes. rewrite Hb. destruct (Ht _ _ Hb) as (a & r & Ha & Har). rewrite Ha.
  intros [= <-] (r' & Har' & Hl). simpl in *. rewrite Har in Har'. injection Har' as E. by eapply str_app_eq.
Qed.

(** ** Payloads *)

(** What a call was made with, as long as it matters. *)
Definition plain_of (c : pc) : option string :=
  match c with
  | Called p | GotBuffer _ p | ResetBuffer _ p | GotWriter _ _ p | Attached _ _ p | Written _ _ p
  | Closed _ _ p | Payload _ p => Some p
  | Released _ _ | Broken _ _ | BrokenBuffer _ | Done _ => None
  end.

Record trace_inv (tr : list event) (s : state) : Prop := {
  tr_plain : ∀ t c p, calls s !! t = Some c → plain_of c = Some p → Began t p ∈ tr;
  tr_calls : ∀ t p, Began t p ∈ tr → is_Some (calls s !! t);
  tr_once : ∀ t p p', Began t p ∈ tr → Began t p' ∈ tr → p = p';
  tr_reads : ∀ t x, Read t x ∈ tr → ∃ p, Began t p ∈ tr ∧ x = gzip p;
}.

(** A step moves one call on, with the payload it began with. *)
Lemma step_plain s e s' : step s e s' →
  calls s' = calls s ∨ ∃ t c c', calls s !! t = Some c ∧ calls s' = <[t := c']> (calls s) ∧
    ∀ p, plain_of c' = Some p → plain_of c = Some p.
Proof. intros Hs. destruct Hs; try (by left); right; eexists _, _, _; (split; [eassumption|]); (split; [reflexivity|]); simpl; intros; congruence. Qed.

Lemma trace_step tr s e s' : pool_inv s → array_inv s → step s e s' → trace_inv tr s → trace_inv (tr ++ option_list e) s'.
Proof.
  intros Hp Ha Hs [Hpl Hc Ho Hr].
  assert (∀ t p, Began t p ∈ tr ++ option_list e ↔ Began t p ∈ tr) as Hb.
  { intros t p. rewrite elem_of_app. split; [|by left]. intros [?|He]; [done|].
    destruct Hs; simpl in He; try (by apply elem_of_nil in He); by apply list_elem_of_singleton in He. }
  split.
  - intros t c p Ht Hpc. apply Hb. destruct (step_plain _ _ _ Hs) as [Heq|(t1 & c1 & c2 & H1 & Heq & Hk)];
      rewrite Heq in Ht; [by eapply Hpl|]. apply lookup_insert_Some in Ht as [[<- <-]|[_ Ht]]; [|by eapply Hpl].
    eapply Hpl; [exact H1|by apply Hk].
  - intros t p Ht. apply Hb, Hc in Ht. destruct (step_plain _ _ _ Hs) as [->|(t1 & c1 & c2 & _ & -> & _)]; [done|].
    rewrite lookup_insert_is_Some. destruct (decide (t1 = t)); eauto.
  - intros t p p' H1 H2. apply Hb in H1, H2. by eapply Ho.
  - intros t x [Hx|Hx]%elem_of_app.
    + destruct (Hr _ _ Hx) as (p & Hbg & ->). exists p. by rewrite Hb.
    + destruct Hs as [| | | | | | | | | | |s t0 b plain body y Hcl Hbf Hsl| | | | | | |]; simpl in Hx;
        try (by apply elem_of_nil in Hx); apply list_elem_of_singleton in Hx; [|done]. injection Hx as -> ->.
      exists plain. split; [apply Hb; by eapply Hpl|]. destruct Hp as [_ _ Hl].
      by eapply read_bytes; [|apply (Hl _ _ Hcl)|..].
Qed.

Lemma trace_call tr s t plain : calls s !! t = None → trace_inv tr s →
  trace_inv (tr ++ [Began t plain]) (set_call t (Called plain) s).
Proof.
  intros Hn [Hpl Hc Ho Hr].
  assert (∀ t' p, Began t' p ∈ tr ++ [Began t plain] ↔ Began t' p ∈ tr ∨ (t' = t ∧ p = plain)) as Hb.
  { intros t' p. rewrite elem_of_app, list_elem_of_singleton. naive_solver. }
  assert (∀ p, Began t p ∉ tr) as Hnew by (intros p [c Hx]%Hc; by rewrite Hn in Hx).
  split; simpl.
  - intros t' c p. rewrite lookup_insert_Some. intros [[<- <-]|[_ Ht]] Hp; rewrite Hb; [|left; by eapply Hpl].
    injection Hp as <-. by right.
  - intros t' p. rewrite Hb, lookup_insert_is_Some. intros [H1|[-> _]]; [|by left].
    destruct (decide (t = t')); [by left|right; split; [done|by eapply Hc]].
  - intros t' p p'. rewrite !Hb. intros [H1|[-> ->]] [H2|[E ->]]; subst; try done; [by eapply Ho|..];
      exfalso; by eapply Hnew.
  - intros t' x [Hx|Hx]%elem_of_app; [|by apply list_elem_of_singleton in Hx].
    destruct (Hr _ _ Hx) as (p & H1 & ->). exists p. rewrite Hb. eauto.
Qed.

Lemma init_inv : pool_inv init.
Proof.
  split; [| |by intros t c]; (split; [constructor|]); (split; [by intros l ?%elem_of_nil|]); by split.
Qed.

Lemma payload_runs_inv tr s : runs init tr s → pool_inv s ∧ array_inv s ∧ trace_inv tr s.
Proof.
  intros Hr. remember init as s0. induction Hr as [s|s tr s1 e s2 _ IH Hs|s tr s1 t plain _ IH Hn]; subst.
  - split; [apply init_inv|]. split; [done|]. split; [by intros t c p|by intros t p ?%elem_of_nil|by intros t p p' ?%elem_of_nil|
      by intros t x ?%elem_of_nil].
  - destruct (IH eq_refl) as (Hp & Ha & Ht). split; [by eapply pool_step|].
    split; [by eapply array_step|by eapply trace_step].
  - destruct (IH eq_refl) as (Hp & Ha & Ht). split; [by apply pool_call|].
    split; [by eapply array_same|by apply trace_call].
Qed.

(** [C19] However the senders interleave, whatever the pools hand out or forget, and
    whenever a buffer grows: as long as a call has not released its payload, which it
    does when it returns, every byte string a request of it reads is its compressed
    payload; and no object of the pools is ever with two calls, or with a call and in its
    pool.  A request that is still read after [Release], which net/http does not exclude,
    is not protected: see [late_read]. *)
Theorem payloads_intact tr s : runs init tr s →
  (∀ t bytes, Read t bytes ∈ tr →
    ∃ plain, bytes = gzip plain ∧ Began t plain ∈ tr ∧ ∀ p, Began t p ∈ tr → p = plain) ∧
  (∀ t t' c c' b, calls s !! t = Some c → calls s !! t' = Some c' → buffer_of c = Some b →
    (b ∉ bufferPool s) ∧ (buffer_of c' = Some b → t = t')) ∧
  (∀ t t' c c' z, calls s !! t = Some c → calls s !! t' = Some c' → writer_of c = Some z →
    (z ∉ gzipWriterPool s) ∧ (writer_of c' = Some z → t = t')).
Proof.
  intros Hr. destruct (payload_runs_inv _ _ Hr) as ([(_ & _ & Hb & Hbu) (_ & _ & Hw & Hwu) _] & _ & [_ _ Ho Hrd]).
  split; [|split].
  - intros t x Hx. destruct (Hrd _ _ Hx) as (p & Hbg & ->). exists p. split; [done|]. split; [done|].
    intros p' Hp'. by eapply Ho.
  - intros t t' c c' b Hc Hc' Hcb. split; [by destruct (Hb _ _ _ Hc Hcb)|]. intros H1. by eapply Hbu.
  - intros t t' c c' z Hc Hc' Hcz. split; [by destruct (Hw _ _ _ Hc Hcz)|]. intros H1. by eapply Hwu.
Qed.

Lemma run_silent s tr s1 s2 : runs s tr s1 → step s1 None s2 → runs s tr s2.
Proof. intros Hr Hs. rewrite <- (app_nil_r tr). exact (runs_step _ _ _ None _ Hr Hs). Qed.
End steps.

(** ** Example: a second call gets the buffer and the compressor of the first *)
#[local] Existing Instance stored_gzip.

Definition demo_trace : list event :=
  [Began 0 "first"; Read 0 (gzip "first"); Began 1 "2nd"; Read 1 (gzip "2nd"); Read 1 (gzip "2nd")].

Tactic Notation "advance" hyp(R) uconstr(rule) := eapply run_silent in R; [|eapply rule; reflexivity].
Tactic Notation "closes" hyp(R) uconstr(rule) uconstr(rest) :=
  eapply run_silent in R; [|eapply rule; [reflexivity..|right; split; [reflexivity|exists rest; by split]]].
Tactic Notation "reads" hyp(R) uconstr(rule) :=
  eapply runs_step in R; [|eapply rule; [reflexivity..|eexists; by split]].

(** The second payload is shorter: it overwrites the front of the array. *)
Lemma two_calls_run : ∃ s, runs init demo_trace s ∧ calls s !! 1%nat = Some (Payload 1 "2nd") ∧
  calls s !! 0%nat = Some (Done (Some (2%positive, 7%nat))) ∧ arrays s !! 2%positive = Some "gz2ndst".
Proof.
  pose proof (runs_call _ _ _ 0 "first" (runs_nil init) eq_refl) as R.
  advance R (step_new_buffer _ 0 "first" 1 1). advance R (step_reset _ 0 1 "first").
  advance R (step_new_writer _ 0 1 "first" 1 (1%positive, EmptyString)). advance R (step_attach _ 0 1 1 "first").
  advance R (step_write _ 0 1 1 "first" 1 EmptyString).
  eapply run_silent in R; [|eapply (step_close _ 0 1 1 "first" 1 "first" EmptyString 2 EmptyString);
    [reflexivity..|by left]].
  advance R (step_put_writer _ 0 1 1 "first"). reads R (step_read _ 0 1 "first" (2%positive, 7%nat) (gzip "first")).
  advance R (step_release _ 0 1 "first"). advance R (step_put_buffer _ 0 1).
  eapply (runs_call _ _ _ 1 "2nd") in R; [|reflexivity].
  advance R (step_buffer _ 1 "2nd" 1 [] []). advance R (step_reset _ 1 1 "2nd").
  advance R (step_writer _ 1 1 "2nd" 1 [] []). advance R (step_attach _ 1 1 1 "2nd").
  advance R (step_write _ 1 1 1 "2nd" 1 EmptyString).
  closes R (step_close _ 1 1 1 "2nd" 1 "2nd" EmptyString 2 "st") "gzfir".
  advance R (step_put_writer _ 1 1 1 "2nd").
  do 2 reads R (step_read _ 1 1 "2nd" (2%positive, 5%nat) (gzip "2nd")).
  eexists. split; [exact R|]. by split_and!.
Qed.

Lemma payloads_intact_witness : ∃ plain, gzip "2nd" = gzip plain ∧ Began 1 plain ∈ demo_trace.
Proof.
  destruct two_calls_run as (s & Hr & _).
  destruct (payloads_intact demo_trace s Hr) as [Hrd _].
  destruct (Hrd 1%nat (gzip "2nd")) as (p & Hp & Hb & _); [unfold demo_trace; set_solver|]. by exists p.
Defined.

(** A request of the first call that net/http still reads then sends bytes of the second
    call's payload. *)
Theorem late_read : ∃ tr s, runs init tr s ∧ Began 0 "first" ∈ tr ∧ Began 1 "2nd" ∈ tr ∧
  LateRead 0 "gz2ndst" ∈ tr ∧ "gz2ndst" ≠ gzip "first".
Proof.
  destruct two_calls_run as (s & R & _ & Hd & Ha).
  eapply runs_step in R; [|eapply (step_late_read s 0 _ (2%positive, 7%nat) "gz2ndst"); [exact Hd|done|]].
  - eexists _, _. split; [exact R|]. split; [set_solver|]. split; [set_solver|]. split; [set_solver|by vm_compute].
  - exists EmptyString. split; [exact Ha|done].
Qed.
End GzipPayload.
