(* ===== verification/EndToEnd.v ===== *)
(** * From the agent's client to the server's repository

    The transport of the client is here the server itself: [Do] hands the request
    to the middlewares and the router, over the service, and turns what they wrote
    into a response.  The theorem says that a batch the client sends is in the
    repository when the call returns, through marshalling, signing, compression,
    routing, the integrity check, the pooled decoder and the service.  Nothing is lost on
    the way here; [Link] has a network that loses requests and replies. *)

From S2P Require Import Prelude GoStrings GoInt GoErrors Sha256 Domain GoFloat Ports.
From S2P Require Import Json MetricsJson Http Middlewares Observer Service ServiceSpec.
From S2P Require Import Memory Retry HttpClient Handlers HandlersSpec.
Open Scope Z_scope.

Module EndToEnd.
Import Sha256 MetricsJson ServiceSpec Middlewares Service Retry HttpClient Handlers HandlersSpec.

(** ** What the server's middlewares do with a request of the client *)
Section stack.
Context {W : Type} `{Gin} `{Gzip}.
Implicit Types next : handler W.

(** The digest the client computes passes the server's check. *)
Lemma HashSHA256_accepts key next req w b :
  body req = Ok b →
  GetHeader req "Hashsha256" =
    (if bool_decide (TrimSpace key = EmptyString) then EmptyString else SumSHA256 b (TrimSpace key)) →
  HashSHA256 key next req w =
    let '(calls, w') := next req w in
    (if bool_decide (TrimSpace key = EmptyString) then calls else flush_buffer (TrimSpace key) calls, w').
Proof.
  intros Hb Hh. unfold HashSHA256. case_bool_decide as Hk; [by destruct (next req w)|].
  unfold check_hash. rewrite Hh, TrimSpace_visible by apply SumSHA256_visible.
  case_bool_decide as Hd; [by destruct (next req w)|]. rewrite Hb, EqualFold_refl, andb_false_r.
  assert (set_body req (Ok b) = req) as -> by (destruct req; simpl in *; by subst). done.
Qed.

Lemma GzipRequest_unpacks next req w b :
  GetHeader req "Content-Encoding" = "gzip" → body req = Ok (gzip b) →
  GzipRequest next req w = next (del_header (set_body req (Ok b)) "Content-Length") w.
Proof. intros Hh Hb. unfold GzipRequest. rewrite Hh, Hb, gunzip_gzip. done. Qed.

Lemma request_headers_get h :
  request_headers h !! "Content-Encoding" = Some "gzip" ∧
  request_headers h !! "Accept-Encoding" = Some "gzip" ∧
  default EmptyString (request_headers h !! "Hashsha256") = h.
Proof.
  unfold request_headers. destruct (bool_decide_reflect (h = EmptyString)) as [->|]; [done|].
  rewrite !lookup_insert_eq, !lookup_insert_ne by done. done.
Qed.

(** A response of [json], signed or not. *)
Lemma respond_json_plain st s : w_header (respond (json st s)) !! "Content-Encoding" = None ∧
  w_status (respond (json st s)) = st.
Proof. unfold json. by rewrite respond_render. Qed.

Lemma respond_json_signed key st s : s ≠ EmptyString →
  w_header (respond (flush_buffer key (json st s))) !! "Content-Encoding" = None ∧
  w_status (respond (flush_buffer key (json st s))) = (if bool_decide (st = 0) then 200 else st).
Proof.
  intros Hs. unfold json. rewrite render_spec. unfold flush_buffer. cbn.
  change (EmptyString +:+ s) with s. rewrite bool_decide_false by done. cbn.
  split; [done|]. destruct (bool_decide_reflect (st = 0)); [done|].
  by rewrite bool_decide_false.
Qed.
End stack.

(** ** The server as a transport *)
Section network.
Context {R E : Type} `{HL : RepoLaws R} {HT : RepoTotal R}.
Context `{Gin} `{Gzip} `{Binding} `{GinRouter} `{NetURL}.
Context (svc : Service E) (error_text : error → string).
Context (order : ∀ A, gmap string A → list (string * A)) (grow : nat).
Context (skey : string) (server_ctx : Context) (ip : string).
Context (path_of : string → string).   (* the path the server sees for an address *)

Definition net : Type := World R E * list Metrics.

(** The request as it arrives. *)
Definition arriving (req : Request) : Request :=
  mkRequest (method req) (path_of (path req)) (headers req) (body req) ip.

Definition serve (req : Request) (w : net) : Response * net :=
  let '(calls, w) := server svc error_text order grow skey server_ctx (arriving req) w in
  let r := respond calls in
  (mkResponse (w_status r) EmptyString (w_header r) (Ok (w_body r)) None, w).

(** A request whose context is done does not leave the client. *)
#[local] Instance server_transport `{Timing net} : Transport net := {
  Do ctx req w := match ctx_Err ctx w with
                  | Some e => (Err (UrlError (bool_decide (e = ErrDeadlineExceeded)) e), w)
                  | None => let '(resp, w) := serve req w in (Ok resp, w)
                  end;
}.

#[local] Abbreviation view w := (repo_view (w_repo w)).

(** The request the client makes for a payload. *)
Definition request_of (c : Client) (ep t : string) : Request :=
  mkRequest "POST" (HttpClient.endpoint c ep) (request_headers (hash_header c t)) (Ok (gzip t)) EmptyString.

(** A request of the client goes to the route of its path, is found correctly signed,
    and the JSON it is answered with is one the client takes for success. *)
Lemma serve_posted (Q : net → Prop) (c : Client) ep i rn t w :
  key c = TrimSpace skey → path_of (HttpClient.endpoint c ep) = ep →
  routes !! i = Some ("POST", ep, rn) → Contains ep ":" = false → Contains ep "*" = false →
  (∀ j, routes.*1 !! j = Some ("POST", ep) → j = i) →
  (∀ p req, body req = Ok t → ∃ answer w1, answer ≠ EmptyString ∧ Q w1 ∧
    run_route svc error_text order grow server_ctx rn p req w = (json 200 answer, w1)) →
  ∃ resp w1, serve (request_of c ep t) w = (resp, w1) ∧ finish resp = Ok tt ∧ Q w1.
Proof.
  intros Hk Hp Hi Hcol Hstar Huniq Hrun. unfold serve, server, server_stack.
  set (req := arriving _).
  destruct (find_static routes.*1 req i) as [p Hroute]; try (unfold req; cbn; by rewrite Hp).
  { unfold req. cbn [method path arriving request_of]. rewrite Hp, list_lookup_fmap. by rewrite Hi. }
  rewrite Hroute. cbn [answered].
  assert (GetHeader req "Content-Encoding" = "gzip" ∧ GetHeader req "Accept-Encoding" = "gzip" ∧
    GetHeader req "Hashsha256" = (if bool_decide (TrimSpace skey = EmptyString) then EmptyString
                                  else SumSHA256 t (TrimSpace skey))) as (Hce & Hae & Hh).
  { unfold req, arriving, request_of, GetHeader. cbn [headers].
    destruct (request_headers_get (hash_header c t)) as (-> & -> & ->).
    unfold hash_header. by rewrite Hk. }
  rewrite (GzipRequest_unpacks _ _ _ t) by done. set (req' := del_header _ _).
  assert (GetHeader req' "Hashsha256" = GetHeader req "Hashsha256") as Hh'.
  { unfold req', GetHeader. cbn [headers del_header set_body]. by rewrite lookup_delete_ne. }
  rewrite <- Hh' in Hh. set (next := dispatch svc error_text order grow (Matched i p) server_ctx).
  destruct (Hrun p req' eq_refl) as (answer & w1 & Hans & HQ & Hr1).
  assert (next req' w = (json 200 answer, w1)) as Hd by (unfold next, dispatch; by rewrite Hi).
  pose proof (HashSHA256_accepts skey next req' w t eq_refl Hh) as Hsign. rewrite Hd in Hsign.
  destruct (GzipResponse_sim _ _ _ _ _ Hsign) as [Hw Hr].
  set (calls := if bool_decide _ then json 200 answer else _) in *.
  assert (w_header (respond calls) !! "Content-Encoding" = None ∧ w_status (respond calls) = 200)
    as [Hnone H200].
  { unfold calls. case_bool_decide; [apply respond_json_plain|by apply respond_json_signed]. }
  destruct (GzipResponse _ _ _) as [calls' w2]. cbn [fst snd] in Hw, Hr. subst w2.
  eexists _, w1. split; [done|]. split; [|done].
  unfold finish, drainAndDiscard, checkHTTPStatus. cbn [Header Body StatusCode Close].
  destruct Hr as [->|(_ & _ & Hst' & Hhd & Hg)].
  - by rewrite Hnone, H200.
  - rewrite Hhd, Hst', lookup_insert_eq, H200. cbn [default]. by rewrite Hg.
Qed.

(** The client's request for a batch, as the server answers it; *)
Lemma serve_batch (c : Client) items t w buf :
  key c = TrimSpace skey → path_of (HttpClient.endpoint c "/updates") = "/updates" →
  Forall sendable items → Forall (λ m, storable m = true) items →
  encode_batch items = Some t → omap normalize items ≠ [] →
  ∃ resp w' buf', serve (request_of c "/updates" t) (w, buf) = (resp, (w', buf')) ∧ finish resp = Ok tt ∧
    view w' = put_all repo_put (omap normalize items) (view w).
Proof using HL HT.
  intros Hk Hp Hs Hst Ht Hne.
  destruct (serve_posted (λ w1, view w1.1 = put_all repo_put (omap normalize items) (view w))
    c "/updates" 9 RUpdatesJSON t (w, buf)) as (resp & [w' buf'] & Hserve & Hf & Hv); try done.
  - intros j Hj. do 11 (destruct j as [|j]; [by vm_compute in Hj|]). by destruct j.
  - intros p req Hb. destruct (batch_handler svc server_ctx req items t w grow buf Hs Hst Ht Hb Hne)
      as (w' & buf' & Hbatch & Hv). eexists _, (w', buf'). split; [|split; [exact Hv|exact Hbatch]]. done.
  - by exists resp, w', buf'.
Qed.

(** and that for a metric by itself. *)
Lemma serve_single (c : Client) m t w buf :
  key c = TrimSpace skey → path_of (HttpClient.endpoint c "/update") = "/update" →
  sendable m → storable m = true → TrimSpace (ID m) = ID m → ID m ≠ EmptyString → encode_metric m = Some t →
  ∃ resp w' buf', serve (request_of c "/update" t) (w, buf) = (resp, (w', buf')) ∧ finish resp = Ok tt ∧
    view w' = repo_put m (view w).
Proof using HL HT.
  intros Hk Hp Hs Hst Htrim Hne Ht.
  destruct (serve_posted (λ w1, view w1.1 = repo_put m (view w)) c "/update" 5 RUpdateJSON t (w, buf))
    as (resp & [w' buf'] & Hserve & Hf & Hv); try done.
  - intros j Hj. do 11 (destruct j as [|j]; [by vm_compute in Hj|]). by destruct j.
  - intros p req Hb. destruct (single_handler svc server_ctx req m t w Hs Hst Htrim Hne Ht Hb)
      as (tr & w' & Htr & Hu & Hv). exists tr, (w', buf). cbn [run_route]. by rewrite Hu.
  - by exists resp, w', buf'.
Qed.

Lemma SendBatch_delivers `{Timing net} ctx (c : Client) items w buf :
  key c = TrimSpace skey → path_of (HttpClient.endpoint c "/updates") = "/updates" →
  NewRequest_error (HttpClient.endpoint c "/updates") = None →
  Forall sendable items → Forall (λ m, storable m = true) items →
  omap normalize items ≠ [] → ctx_Err (W := net) ctx (w, buf) = None →
  ∃ w' buf', SendBatch ctx c items (w, buf) = (Some (Ok tt), (w', buf')) ∧
    view w' = put_all repo_put (omap normalize items) (view w).
Proof using HL HT.
  intros Hk Hp Hreq Hs Hst Hne Hctx. destruct (encode_batch_wire compact compact items compact_ok compact_ok Hs) as (t & _ & Ht & _).
  change (encode_batch items = Some t) in Ht.
  destruct (serve_batch c items t w buf Hk Hp Hs Hst Ht Hne) as (resp & w' & buf' & Hserve & Hf & Hv).
  exists w', buf'. split; [|done]. unfold SendBatch.
  rewrite bool_decide_false by (by destruct items). rewrite Ht.
  unfold doGzJSON, sendWithRetry, newGzJSONRequest. rewrite Hreq. cbn [marshalJSON Retry DefaultBackoff send_op].
  cbn [Do server_transport]. fold (request_of c "/updates" t).
  rewrite Hctx, Hserve. by rewrite Hf.
Qed.

(** [C2] End to end: a batch that the client sends to a server with the same key
    is stored when [SendBatch] returns, and it returns nil.  The repository holds
    the valid items of the batch, in order, whatever key was chosen (or none) and
    whatever the pooled buffer held from earlier requests. *)
Theorem SendBatch_stored `{Timing net} ctx (c : Client) items w buf :
  key c = TrimSpace skey → path_of (HttpClient.endpoint c "/updates") = "/updates" →
  NewRequest_error (HttpClient.endpoint c "/updates") = None →
  Forall sendable items → Forall (λ m, storable m = true) items →
  omap normalize items ≠ [] → ctx_Err (W := net) ctx (w, buf) = None →
  ∃ w' buf', SendBatch ctx c items (w, buf) = (Some (Ok tt), (w', buf')) ∧
    view w' = put_all repo_put (omap normalize items) (view w).
Proof using HL HT. apply SendBatch_delivers. Qed.
End network.

(** ** Example: two metrics, signed, into an empty memory repository *)
#[local] Existing Instance plain_gin.
#[local] Existing Instance stored_gzip.
#[local] Existing Instance plain_binding.
#[local] Existing Instance plain_url.
#[local] Existing Instance exact_router.

#[local] Instance still_timing : Timing (net (R := Memory.Repo) (E := Z)) := {
  clock _ := 0;
  wait_timer _ _ w := (true, w);
}.

Definition demo_items : list Metrics := [gauge_metric "load" f64_zero; counter_metric "hits" 5].
Definition demo_client : Client := mkClient "k" "http://localhost:8080".

Lemma SendBatch_stored_witness : ∃ w' buf',
  SendBatch (W := net) (H2 := server_transport demo_svc (λ _, EmptyString) (λ A m, map_to_list m) 0
      " k " Background "10.0.0.1" (λ _, "/updates"))
    Background demo_client demo_items (demo_w, [counter_metric "old" 7]) = (Some (Ok tt), (w', buf')) ∧
  repo_view (w_repo w') = put_all repo_put demo_items (mkSnapshot ∅ ∅).
Proof.
  destruct (SendBatch_stored demo_svc (λ _, EmptyString) (λ A m, map_to_list m) 0
    " k " Background "10.0.0.1" (λ _, "/updates") Background demo_client demo_items demo_w
    [counter_metric "old" 7]) as (w' & buf' & H & Hv).
  - vm_compute. reflexivity.
  - reflexivity.
  - reflexivity.
  - apply Forall_cons. split; [|apply Forall_singleton].
    + by apply sendable_gauge; [apply utf8_literal|vm_compute].
    + by apply sendable_counter; [apply utf8_literal|vm_compute].
  - by repeat constructor.
  - vm_compute. discriminate.
  - reflexivity.
  - exists w', buf'. split; [exact H|]. rewrite Hv. vm_compute. reflexivity.
Defined.
End EndToEnd.
