(* ===== verification/Link.v ===== *)
(** * The network between the client and the server

    A transport that delivers the requests of the client to the server of [EndToEnd],
    but may lose a request, lose the reply to one that was served, or break off in the
    body of the reply.  What happens to the requests to come is a list that is part of
    the world, so a theorem holds for every sequence of faults.  The client repeats a
    request whose reply was lost: the server then works on it once more. *)

From S2P Require Import Prelude GoStrings GoInt GoErrors Sha256 Domain GoFloat Ports.
From S2P Require Import Json MetricsJson Http Middlewares Observer Service ServiceSpec.
From S2P Require Import Memory Retry HttpClient Handlers HandlersSpec EndToEnd.
Open Scope Z_scope.

Module Link.
Import MetricsJson ServiceSpec Service Retry HttpClient Handlers HandlersSpec EndToEnd.

(** What happens to a request on its way; [e] is what the client sees. *)
Inductive fault : Type :=
  | Delivered
  | RequestLost (e : error)     (* refused, or lost before the server had it *)
  | ReplyLost (e : error)       (* served, and the connection broke *)
  | ReplyCut (e : error).       (* served; reading the body of the reply fails *)

(** A metric that is stored as it is. *)
Definition plain_metric (m : Metrics) : Prop :=
  sendable m ∧ storable m = true ∧ TrimSpace (ID m) = ID m ∧ ID m ≠ EmptyString.

Lemma plain_normalize (items : list Metrics) : Forall plain_metric items → omap normalize items = items.
Proof.
  induction 1 as [|m items (_ & Hs & Ht & Hne) _ IH]; [done|]. csimpl.
  rewrite normalize_storable by (by rewrite ?Ht). rewrite IH, Ht. by destruct m.
Qed.

Lemma put_all_times p k items s :
  put_all p (concat (replicate k items)) s = Nat.iter k (put_all p items) s.
Proof.
  revert s. induction k as [|k IH]; intros s; [done|]. rewrite Nat.iter_succ_r. simpl.
  by rewrite put_all_app, IH.
Qed.

Section link.
Context {R E : Type} `{HL : RepoLaws R} {HT : RepoTotal R}.
Context `{Gin} `{Gzip} `{Binding} `{GinRouter} `{NetURL}.
Context (svc : Service E) (error_text : error → string).
Context (order : ∀ A, gmap string A → list (string * A)) (grow : nat).
Context (skey : string) (server_ctx : Context) (ip : string) (path_of : string → string).

#[local] Abbreviation net := (net (R := R) (E := E)).
#[local] Abbreviation serve := (serve svc error_text order grow skey server_ctx ip path_of).

(** The server, and what happens to the requests to come (nothing, at the end). *)
Definition link : Type := net * list fault.

Definition cut (e : error) (resp : Response) : Response :=
  mkResponse (StatusCode resp) (Status resp) (Header resp) (Err e) (Close resp).

Definition transmit (f : fault) (req : Request) : io net error Response := λ w,
  match f with
  | Delivered => let '(resp, w) := serve req w in (Ok resp, w)
  | RequestLost e => (Err e, w)
  | ReplyLost e => let '(_, w) := serve req w in (Err e, w)
  | ReplyCut e => let '(resp, w) := serve req w in (Ok (cut e resp), w)
  end.

(** A request whose context is done does not leave the client. *)
#[local] Instance lossy_transport `{Timing link} : Transport link := {
  Do ctx req l := match ctx_Err ctx l with
                  | Some e => (Err (UrlError (bool_decide (e = ErrDeadlineExceeded)) e), l)
                  | None => let '(r, w) := transmit (default Delivered (head l.2)) req l.1 in (r, (w, tail l.2))
                  end;
}.

Context `{Timing link}.
#[local] Abbreviation view l := (repo_view (w_repo ((l : link).1.1))).

(** While a call waits for its next attempt nothing else reaches the server. *)
Context (quiet_waits : ∀ ctx d (l : link) b l', wait_timer ctx d l = (b, l') →
  view l' = view l ∧ l'.2 = l.2).

(** ** One call of the client *)

(** [f] is what the server does to the repository for the request [req]. *)
Section call.
Context (req : Request) (f : Snapshot → Snapshot).
Context (served : ∀ w, ∃ resp w', serve req w = (resp, w') ∧ finish resp = Ok tt ∧
  repo_view (w_repo w'.1) = f (repo_view (w_repo w.1))).

(** An attempt is served at most once, and is when there is a response. *)
Lemma attempt_served ctx (l : link) r l' : Do ctx req l = (r, l') →
  ∃ j, (j ≤ 1)%nat ∧ view l' = Nat.iter j f (view l) ∧ (is_ok r = true → j = 1%nat) ∧
    (l.2 = [] → ctx_Err ctx l = None → j = 1%nat ∧ l'.2 = [] ∧ ∃ resp, r = Ok resp ∧ finish resp = Ok tt).
Proof using quiet_waits served.
  cbn [Do lossy_transport]. destruct (ctx_Err ctx l) as [e|]; [intros [= <- <-]; exists 0%nat; naive_solver lia|].
  destruct (served l.1) as (resp & w' & Hs & Hf & Hv). destruct l as [w [|[|e|e|e] fs]]; cbn in *;
    rewrite ?Hs; intros [= <- <-]; simpl in *.
  - exists 1%nat. naive_solver.
  - exists 1%nat. naive_solver.
  - exists 0%nat. split; [lia|]. done.
  - exists 1%nat. done.
  - exists 1%nat. done.
Qed.

Lemma retries_served ctx delays (l : link) o r l' o' :
  Retry ctx delays isRetryableHTTP (send_op ctx (Ok req)) (l, o) = (r, (l', o')) →
  ∃ k, (k ≤ S (length delays))%nat ∧ view l' = Nat.iter k f (view l) ∧
    (∀ resp, r = Ok tt → o' = Some resp → (1 ≤ k)%nat) ∧
    (l.2 = [] → ctx_Err ctx l = None → k = 1%nat ∧ l'.2 = [] ∧ r = Ok tt ∧
      ∃ resp, o' = Some resp ∧ finish resp = Ok tt).
Proof using served quiet_waits.
  revert l o. induction delays as [|d delays IH]; intros l o; cbn [Retry send_op];
    destruct (Do ctx req l) as [[resp|e] l1] eqn:Hd;
    destruct (attempt_served _ _ _ _ Hd) as (j & Hj & Hv & Hok & Hclean).
  1, 3: intros [= <- <- <-]; exists j; split; [lia|]; split; [done|]; split;
    [intros; rewrite Hok by done; lia|intros Hnil Hlive; destruct (Hclean Hnil Hlive) as (? & ? & rs & [= ->] & ?); eauto 10].
  all: assert (l.2 = [] → ctx_Err ctx l = None → False) as Hno
    by (intros Hnil Hlive; by destruct (Hclean Hnil Hlive) as (_ & _ & rs & ? & _)).
  - intros Hr. exists j. assert (l' = l1 ∧ o' = None ∧ r ≠ Ok tt) as (-> & -> & Hne)
      by (destruct (ctx_Err ctx (l1, _)); by injection Hr as <- <- <-).
    split; [lia|]. split; [done|]. split; [done|]. intros Hnil Hlive. by destruct (Hno Hnil Hlive).
  - assert (∀ x, (x, (l1, None)) = (r, (l', o')) → ∃ k, (k ≤ S (S (length delays)))%nat ∧
      view l' = Nat.iter k f (view l) ∧ (∀ resp, r = Ok tt → o' = Some resp → (1 ≤ k)%nat) ∧
      (l.2 = [] → ctx_Err ctx l = None → k = 1%nat ∧ l'.2 = [] ∧ r = Ok tt ∧
        ∃ resp, o' = Some resp ∧ finish resp = Ok tt)) as Hstop.
    { intros x [= _ <- <-]. exists j. split; [lia|]. split; [done|]. split; [done|].
      intros Hnil Hlive. by destruct (Hno Hnil Hlive). }
    destruct (ctx_Err ctx (l1, _)); [apply Hstop|]. destruct (isRetryableHTTP e); cbn [negb]; [|apply Hstop].
    cbn [wait_timer prod_timing]. destruct (wait_timer ctx d l1) as [b l2] eqn:Hw.
    destruct (quiet_waits _ _ _ _ _ Hw) as [Hv2 _]. destruct b.
    + intros Hr. destruct (IH _ _ Hr) as (k & Hk & Hvk & Hokk & _). exists (k + j)%nat. simpl length.
      split; [lia|]. split; [by rewrite Nat.iter_add, Hvk, Hv2, Hv|]. split.
      * intros rs Hnil Hlive. specialize (Hokk rs Hnil Hlive). lia.
      * intros Hnil Hlive. by destruct (Hno Hnil Hlive).
    + intros [= _ <- <-]. exists j. split; [lia|]. split; [by rewrite Hv2|]. split; [done|].
      intros Hnil Hlive. by destruct (Hno Hnil Hlive).
Qed.
End call.

(** A call reaches the server between no and four times, at least once if it returns
    nil, and exactly once without faults. *)
Definition served_times (ctx : Context) (f : Snapshot → Snapshot) (l : link)
    (res : option (result error unit)) (l' : link) (k : nat) : Prop :=
  (k ≤ 4)%nat ∧ view l' = Nat.iter k f (view l) ∧ (res = Some (Ok tt) → (1 ≤ k)%nat) ∧
  (l.2 = [] → ctx_Err ctx l = None → k = 1%nat ∧ l'.2 = [] ∧ res = Some (Ok tt)).

Lemma call_served f ctx (c : Client) ep t (l : link) res l' :
  NewRequest_error (HttpClient.endpoint c ep) = None →
  (∀ w, ∃ resp w', serve (request_of c ep t) w = (resp, w') ∧ finish resp = Ok tt ∧
    repo_view (w_repo w'.1) = f (repo_view (w_repo w.1))) →
  doGzJSON ctx c ep (Some (Some t)) l = (res, l') → ∃ k, served_times ctx f l res l' k.
Proof using quiet_waits.
  intros Hreq Hs. unfold doGzJSON, sendWithRetry, newGzJSONRequest. rewrite Hreq. cbn [marshalJSON].
  fold (request_of c ep t). destruct (Retry _ _ _ _ _) as [r [l1 o]] eqn:Hr.
  destruct (retries_served (request_of c ep t) f Hs _ _ _ _ _ _ _ Hr) as (k & Hk & Hv & Hok & Hclean).
  intros Hres. exists k. simpl in Hk. split; [lia|]. destruct r as [[]|e].
  - destruct o as [resp|]; injection Hres as <- <-.
    + split; [done|]. split; [intros _; by eapply Hok|]. intros Hnil Hlive.
      destruct (Hclean Hnil Hlive) as (? & ? & _ & rs & [= ->] & ->). done.
    + split; [done|]. split; [done|]. intros Hnil Hlive. by destruct (Hclean Hnil Hlive) as (_ & _ & _ & rs & ? & _).
  - injection Hres as <- <-. split; [done|]. split; [done|]. intros Hnil Hlive. by destruct (Hclean Hnil Hlive) as (_ & _ & ? & _).
Qed.

Lemma batch_served ctx (c : Client) items (l : link) res l' :
  key c = TrimSpace skey → path_of (HttpClient.endpoint c "/updates") = "/updates" →
  NewRequest_error (HttpClient.endpoint c "/updates") = None → Forall plain_metric items → items ≠ [] →
  SendBatch ctx c items l = (res, l') → ∃ k, served_times ctx (put_all repo_put items) l res l' k.
Proof using HL HT quiet_waits.
  intros Hk Hp Hreq Hitems Hne. unfold SendBatch. rewrite bool_decide_false by (by destruct items).
  assert (Forall sendable items) as Hs by (eapply Forall_impl; [exact Hitems|]; by intros m (? & _)).
  destruct (encode_batch_wire compact compact items compact_ok compact_ok Hs) as (t & _ & Ht & _).
  change (encode_batch items = Some t) in Ht. rewrite Ht.
  apply call_served; [done|]. intros [w buf].
  destruct (serve_batch svc error_text order grow skey server_ctx ip path_of c items t w buf Hk Hp Hs)
    as (resp & w' & buf' & Hserve & Hf & Hv); [|done|by rewrite plain_normalize|].
  - eapply Forall_impl; [exact Hitems|]. by intros m (_ & ? & _).
  - exists resp, (w', buf'). by rewrite plain_normalize in Hv.
Qed.

Lemma single_served ctx (c : Client) m (l : link) res l' :
  key c = TrimSpace skey → path_of (HttpClient.endpoint c "/update") = "/update" →
  NewRequest_error (HttpClient.endpoint c "/update") = None → plain_metric m →
  SendOne ctx c m l = (res, l') → ∃ k, served_times ctx (put_all repo_put [m]) l res l' k.
Proof using HL HT quiet_waits.
  intros Hk Hp Hreq (Hs & Hst & Htrim & Hne). unfold SendOne.
  destruct (decode_one_encode false m Hs) as (t & Ht & _). rewrite Ht.
  apply call_served; [done|]. intros [w buf].
  destruct (serve_single svc error_text order grow skey server_ctx ip path_of c m t w buf)
    as (resp & w' & buf' & Hserve & Hf & Hv); [done..|]. by exists resp, (w', buf').
Qed.

(** A reply that is lost makes the client post the same payload again: the server
    works on it twice, and the call returns nil. *)
Lemma batch_repeated ctx (c : Client) items w e :
  key c = TrimSpace skey → path_of (HttpClient.endpoint c "/updates") = "/updates" →
  NewRequest_error (HttpClient.endpoint c "/updates") = None → Forall plain_metric items → items ≠ [] →
  ctx_done ctx = None → isRetryableHTTP e = true → (∀ d l, (wait_timer ctx d l).1 = true) →
  ∃ l', SendBatch ctx c items (w, [ReplyLost e]) = (Some (Ok tt), l') ∧
    view l' = put_all repo_put (items ++ items) (view (w, [])).
Proof using HL HT quiet_waits.
  intros Hk Hp Hreq Hitems Hne Hdone Hretry Hwait. unfold SendBatch. rewrite bool_decide_false by (by destruct items).
  assert (Forall sendable items) as Hs by (eapply Forall_impl; [exact Hitems|]; by intros m (? & _)).
  destruct (encode_batch_wire compact compact items compact_ok compact_ok Hs) as (t & _ & Ht & _).
  change (encode_batch items = Some t) in Ht. rewrite Ht.
  assert (∀ w, ∃ resp w', serve (request_of c "/updates" t) w = (resp, w') ∧ finish resp = Ok tt ∧
    repo_view (w_repo w'.1) = put_all repo_put items (repo_view (w_repo w.1))) as Hserved.
  { intros [w1 buf].
    destruct (serve_batch svc error_text order grow skey server_ctx ip path_of c items t w1 buf Hk Hp Hs)
      as (resp & w' & buf' & Hserve & Hf & Hv); [|done|by rewrite plain_normalize|].
    - eapply Forall_impl; [exact Hitems|]. by intros m (_ & ? & _).
    - exists resp, (w', buf'). by rewrite plain_normalize in Hv. }
  assert (∀ l : link, ctx_Err ctx l = None) as Hlive by (intros l; unfold ctx_Err, ctx_err_at; by rewrite Hdone).
  destruct (Hserved w) as (r1 & w1 & Hw1 & _ & Hv1).
  destruct (wait_timer ctx (List.hd 0 DefaultBackoff) (w1, [])) as [b [w2 fs]] eqn:Hw.
  destruct (quiet_waits _ _ _ _ _ Hw) as [Hv2 Hfs]. simpl in Hfs, Hv2. subst fs.
  assert (b = true) as -> by exact (eq_trans (eq_sym (f_equal fst Hw)) (Hwait _ _)).
  destruct (Hserved w2) as (r2 & w3 & Hw3 & Hf3 & Hv3). exists (w3, []). split.
  - set (req := request_of c "/updates" t) in *.
    assert (∀ o, send_op ctx (Ok req) ((w, [ReplyLost e]), o) = (Err e, ((w1, []), None))) as Hlost.
    { intros o. cbn [send_op Do lossy_transport]. rewrite Hlive. cbn. by rewrite Hw1. }
    assert (∀ o, send_op ctx (Ok req) ((w2, []), o) = (Ok tt, ((w3, []), Some r2))) as Hagain.
    { intros o. cbn [send_op Do lossy_transport]. rewrite Hlive. cbn. by rewrite Hw3. }
    unfold doGzJSON, sendWithRetry, newGzJSONRequest. rewrite Hreq. cbn [marshalJSON].
    fold (request_of c "/updates" t). fold req. cbn [Retry DefaultBackoff]. rewrite Hlost.
    change (ctx_Err ctx (w1, [], None)) with (ctx_Err ctx (w1, [])). rewrite Hlive, Hretry. cbn [negb].
    cbn [List.hd DefaultBackoff] in Hw. cbn [wait_timer prod_timing]. rewrite Hw, Hagain. by rewrite Hf3.
  - simpl. by rewrite Hv3, Hv2, Hv1, put_all_app.
Qed.

(** With a context that is done nothing reaches the server. *)
Lemma call_cancelled ctx (c : Client) ep p (l : link) e : ctx_Err ctx l = Some e →
  ∃ e', doGzJSON ctx c ep p l = (Some (Err e'), l).
Proof.
  intros He. unfold doGzJSON, sendWithRetry. destruct (marshalJSON p) as [t|]; [|by eexists].
  cbn [Retry DefaultBackoff send_op Do lossy_transport].
  destruct (newGzJSONRequest _ _ _ _); rewrite ?He; change (ctx_Err ctx (l, _)) with (ctx_Err ctx l);
    rewrite He; by eexists.
Qed.

Lemma batch_cancelled ctx (c : Client) items (l : link) e : ctx_Err ctx l = Some e → items ≠ [] →
  ∃ e', SendBatch ctx c items l = (Some (Err e'), l).
Proof.
  intros He Hne. unfold SendBatch. rewrite bool_decide_false by (by destruct items). by eapply call_cancelled.
Qed.

Lemma single_cancelled ctx (c : Client) m (l : link) e : ctx_Err ctx l = Some e →
  ∃ e', SendOne ctx c m l = (Some (Err e'), l).
Proof. intros He. by eapply call_cancelled. Qed.
End link.
End Link.
