(* ===== verification/AgentProcess.v ===== *)
(** * cmd/agent: the whole process

    [main] and [Service.Run] with the collector's two goroutines, the senders and the
    signal as one labelled step relation.  A report takes what the collector shows at
    that moment, and one context ends both sides.  Each step is a step of [Agent] and
    steps of [Collector], whose theorems therefore hold here; under a fair scheduler
    the process ends after a signal. *)

From S2P Require Import Prelude Fair GoStrings GoInt GoErrors Domain GoFloat Ports Batches.
From S2P Require Import GoTime MetricsJson Collector Agent.
Open Scope Z_scope.

Module AgentProcess.
Import Batches.

(** The goroutine of [main]: in [Run] up to the end of the pool's [Stop], in the
    [Wait] of the collector's [Stop], or at its end. *)
Inductive main_pc : Type :=
  | Running
  | Waiting
  | Exited.

Record Process (W : Type) : Type := mkProcess {
  collector : Collector.Collector;
  agent : Agent.State W;
  main : main_pc;
}.
Arguments mkProcess {W} _ _ _.
Arguments collector {W} _.
Arguments agent {W} _.
Arguments main {W} _.

(** Goroutines, and what happens: a goroutine goes on, its [select] takes the branch
    of its ticker, or the world outside acts (a signal, the network, or nothing). *)
Inductive role : Type := Sampler | HostSampler | Sender (i : nat) | Main.

Inductive label : Type :=
  | Moves (r : role)
  | Ticks (r : role)
  | Outside.

Definition role_of (l : label) : option role := match l with Moves r => Some r | _ => None end.

Definition moved (tick : bool) (r : role) : label := if tick then Ticks r else Moves r.

Definition starts_tick (g g' : Collector.goroutine) : bool :=
  match g, g' with Collector.Selecting, Collector.Ticking _ => true | _, _ => false end.

Definition reports (acts : list Agent.act) : bool :=
  match acts with Agent.Reporting _ _ :: _ => true | _ => false end.

(** What a report shows is what the collector has. *)
Definition shows (c : Collector.Collector) (acts : list Agent.act) : Prop :=
  ∀ g k, Agent.Reporting g k ∈ acts → Collector.Snapshot (Collector.st c) = (g, k).

(** The first half of the collector's [Stop]. *)
Definition close_stop (c : Collector.Collector) : Collector.Collector :=
  Collector.mkCollector (Collector.st c) true (Collector.ctx_done c)
    (Collector.runtime_loop c) (Collector.system_loop c).

Section process.
Context {W : Type} `{Publisher W}.
Context (ctx : Context) (rate_limit : Z).

(** [Start] of the collector and of the pool; the context of [signal.NotifyContext]
    is not done. *)
Definition start (w : W) : Process W :=
  mkProcess Collector.Start (Agent.start rate_limit w) Running.

Inductive step : label → Process W → Process W → Prop :=
  | sampler_step s stop d g h g' s' a m :
      Collector.loop_step (stop || d) Collector.is_runtime_tick g s g' s' →
      step (moved (starts_tick g g') Sampler)
        (mkProcess (Collector.mkCollector s stop d g h) a m)
        (mkProcess (Collector.mkCollector s' stop d g' h) a m)
  | host_step s stop d g h h' s' a m :
      Collector.loop_step (stop || d) Collector.is_system_tick h s h' s' →
      step (moved (starts_tick h h') HostSampler)
        (mkProcess (Collector.mkCollector s stop d g h) a m)
        (mkProcess (Collector.mkCollector s' stop d g h') a m)
  | sender_step c js cl ws pc d w tr m i p p' js' w' acts :
      ws !! i = Some p →
      Agent.worker_step (Agent.ctx_now ctx d) p js cl w p' js' w' acts →
      step (Moves (Sender i))
        (mkProcess c (Agent.mkState js cl ws pc d w tr) m)
        (mkProcess c (Agent.mkState js' cl (<[i := p']> ws) pc d w' (tr ++ acts)) m)
  | run_step c js cl ws pc d w tr pc' js' cl' acts :
      Agent.run_step rate_limit pc js cl d ws pc' js' cl' acts → shows c acts →
      step (moved (reports acts) Main)
        (mkProcess c (Agent.mkState js cl ws pc d w tr) Running)
        (mkProcess c (Agent.mkState js' cl' ws pc' d w (tr ++ acts)) Running)
  (* the deferred [collector.Stop], and the return of [Run] and [main] *)
  | stop_step c a : Agent.p_run a = Agent.Returned →
      step (Moves Main) (mkProcess c a Running) (mkProcess (close_stop c) a Waiting)
  | exit_step c a : Collector.stopped c →
      step (Moves Main) (mkProcess c a Waiting) (mkProcess c a Exited)
  (* SIGINT or SIGTERM *)
  | signal_step s stop d g h js cl ws pc e w tr m :
      step Outside
        (mkProcess (Collector.mkCollector s stop d g h) (Agent.mkState js cl ws pc e w tr) m)
        (mkProcess (Collector.mkCollector s stop true g h) (Agent.mkState js cl ws pc true w tr) m)
  | outside_step c js cl ws pc d w w' tr m :
      step Outside
        (mkProcess c (Agent.mkState js cl ws pc d w tr) m)
        (mkProcess c (Agent.mkState js cl ws pc d w' tr) m).

(** ** The parts *)

Lemma agent_part l s s' : step l s s' → rtc (Agent.step ctx rate_limit) (agent s) (agent s').
Proof.
  destruct 1; simpl; try apply rtc_refl; apply rtc_once;
    [by eapply Agent.step_worker|by apply Agent.step_run|apply Agent.step_cancel|apply Agent.step_env].
Qed.

Lemma collector_part l s s' : step l s s' → rtc Collector.step (collector s) (collector s').
Proof.
  destruct 1; simpl; try apply rtc_refl; apply rtc_once;
    [by apply Collector.step_runtime|by apply Collector.step_system| |apply Collector.step_cancel].
  destruct c. apply Collector.step_close.
Qed.

(** The context is one, and the collector is stopped after the pool. *)
Record process_inv (s : Process W) : Prop := {
  inv_agent : Agent.pool_inv rate_limit (agent s);
  inv_collector : Collector.collector_inv (collector s);
  inv_context : Agent.p_done (agent s) = Collector.ctx_done (collector s);
  inv_main : match main s with
             | Running => Collector.stop_closed (collector s) = false
             | Waiting => Agent.p_run (agent s) = Agent.Returned ∧
                          Collector.stop_closed (collector s) = true
             | Exited => Agent.p_run (agent s) = Agent.Returned ∧ Collector.stopped (collector s)
             end;
}.

Lemma process_start_inv w : process_inv (start w).
Proof. split; simpl; [apply Agent.start_inv|apply Collector.Start_inv|done..]. Qed.

Lemma process_inv_step l s s' : process_inv s → step l s s' → process_inv s'.
Proof.
  intros [Ha Hc Hd Hm] Hs. split.
  - eapply rtc_invariant; [|by eapply agent_part|exact Ha]. intros x y ? ?. by eapply Agent.pool_inv_step.
  - eapply rtc_invariant; [|by eapply collector_part|exact Hc]. intros x y ? ?.
    by eapply Collector.collector_inv_step.
  - by destruct Hs.
  - destruct Hs as [????????? Hl|????????? Hl| | | | | |]; simpl in *; try done.
    + destruct m; [done|done|]. destruct Hm as [? [? ?]]; simpl in *; subst. by inversion Hl.
    + destruct m; [done|done|]. destruct Hm as [? [? ?]]; simpl in *; subst. by inversion Hl.
    + by destruct Hm.
Qed.

Lemma execution_inv w σ ρ n : Fair.execution step (start w) σ ρ → process_inv (σ n).
Proof.
  intros He. apply (Fair.execution_invariant _ _ _ _ _ He); [apply process_start_inv|].
  intros. by eapply process_inv_step.
Qed.

(** ** Ending

    Steps left for the loop of [Run], with a batch it may still submit, and for the
    goroutine of [main] after it. *)
Definition run_work (pc : Agent.run_pc) : nat :=
  match pc with
  | Agent.Selecting => 2
  | Agent.Submitting b => length b + 7
  | Agent.Stopping => 1
  | Agent.Returned => 0
  end.
Definition main_work (m : main_pc) : nat := match m with Running => 2 | Waiting => 1 | Exited => 0 end.

Definition work (s : Process W) : nat :=
  Agent.pool_work (Agent.p_jobs (agent s)) (Agent.p_workers (agent s)) + run_work (Agent.p_run (agent s)) +
  Collector.pending (Collector.runtime_loop (collector s)) +
  Collector.pending (Collector.system_loop (collector s)) + main_work (main s).

Lemma loop_moves stop ticks g s g' s' : Collector.loop_step stop ticks g s g' s' →
  starts_tick g g' = false → (Collector.pending g' < Collector.pending g)%nat.
Proof. destruct 1; simpl; [lia|done|lia|lia]. Qed.

Lemma run_moves pc js cl d ws pc' js' cl' acts :
  Agent.run_step rate_limit pc js cl d ws pc' js' cl' acts → reports acts = false →
  (Agent.pool_work js' ws + run_work pc' < Agent.pool_work js ws + run_work pc)%nat.
Proof.
  unfold Agent.pool_work. destruct 1; simpl; try done; try lia.
  rewrite sum_list_with_app. simpl. lia.
Qed.

Lemma moved_Some tick r : role_of (moved tick r) ≠ None → tick = false.
Proof. by destruct tick. Qed.

(** Every move of a goroutine uses work up; nothing outside adds to it. *)
Lemma move_work l s s' : step l s s' → role_of l ≠ None → (work s' < work s)%nat.
Proof.
  intros Hs Hl. destruct Hs as [????????? Hg|????????? Hg|??????????????? Hi Hw|???????????? Hr| | | |];
    unfold work; simpl in *; try done; try (apply moved_Some in Hl).
  - pose proof (loop_moves _ _ _ _ _ _ Hg Hl). lia.
  - pose proof (loop_moves _ _ _ _ _ _ Hg Hl). lia.
  - pose proof (Agent.worker_step_work _ _ _ _ _ _ _ _ _ _ _ Hi Hw). lia.
  - pose proof (run_moves _ _ _ _ _ _ _ _ _ Hr Hl). lia.
  - lia.
  - lia.
Qed.

(** *** Who can go on *)

Definition loop_can (stop : bool) (g : Collector.goroutine) : Prop :=
  match g with
  | Collector.Selecting => stop = true
  | Collector.Ticking _ => True
  | Collector.Returned => False
  end.

Definition can_go (r : role) (s : Process W) : Prop :=
  let c := collector s in
  let a := agent s in
  let stop := Collector.stop_closed c || Collector.ctx_done c in
  match r with
  | Sampler => loop_can stop (Collector.runtime_loop c)
  | HostSampler => loop_can stop (Collector.system_loop c)
  | Sender i => ∃ p, Agent.p_workers a !! i = Some p ∧ p ≠ Agent.Exited ∧
      (Agent.p_jobs a ≠ [] ∨ Agent.p_closed a = true ∨ p ≠ Agent.Receiving)
  | Main =>
      match main s with
      | Running =>
          match Agent.p_run a with
          | Agent.Selecting => Agent.p_closed a = false ∧ Agent.p_done a = true
          | Agent.Submitting _ => Agent.p_closed a = false ∧
              (length (Agent.p_jobs a) < Agent.buffer_of rate_limit)%nat
          | Agent.Stopping => Forall (eq Agent.Exited) (Agent.p_workers a)
          | Agent.Returned => True
          end
      | Waiting => Collector.stopped c
      | Exited => False
      end
  end.

Lemma loop_can_iff stop ticks g (s : Collector.stats) :
  loop_can stop g ↔ ∃ g' s', Collector.loop_step stop ticks g s g' s' ∧ starts_tick g g' = false.
Proof.
  split.
  - destruct g as [|[|x todo]|]; simpl; [intros ->|intros _..|done].
    + eexists _, _. by split; [apply Collector.loop_return|].
    + eexists _, _. by split; [apply Collector.loop_again|].
    + eexists _, _. by split; [apply Collector.loop_access|].
  - by intros (g' & s' & [] & Ht).
Qed.

Lemma no_shows c acts : (∀ g k, Agent.Reporting g k ∉ acts) → shows c acts.
Proof. intros Hn g k Hin. by destruct (Hn g k). Qed.

Lemma can_go_iff r s : Fair.enabled step role_of r s ↔ can_go r s.
Proof.
  split.
  - intros (l & s' & Hl & Hs). destruct Hs as [s stop d g h g' s' a m Hg|s stop d g h h' s' a m Hg|
      c js cl ws pc d w tr m i p p' js' w' acts Hi Hw|c js cl ws pc d w tr pc' js' cl' acts Hr Hsh| | | |];
      simpl in Hl; try done; [destruct (starts_tick _ _) eqn:Ht; [done|]..| |destruct (reports _) eqn:Ht; [done|]| |];
      injection Hl as <-; simpl; try done.
    + by eapply loop_can_iff; eexists _, _.
    + by eapply loop_can_iff; eexists _, _.
    + exists p. split; [done|]. inversion Hw; subst; split; auto.
    + destruct Hr; naive_solver.
    + by rewrite H0.
  - destruct s as [[st stop d g h] [js cl ws pc e w tr] m]. destruct r as [| |i|]; simpl.
    + intros (g' & s' & Hg & Ht)%(loop_can_iff _ Collector.is_runtime_tick _ st).
      eexists _, _. split; [|by apply sampler_step]. by rewrite Ht.
    + intros (g' & s' & Hg & Ht)%(loop_can_iff _ Collector.is_system_tick _ st).
      eexists _, _. split; [|by apply host_step]. by rewrite Ht.
    + intros (p & Hi & Hp & Hgo).
      destruct (Agent.goroutine_progress (Agent.ctx_now ctx e) p js cl w Hp Hgo) as (p' & js' & w' & a & Hs).
      eexists _, _. split; [|by eapply sender_step]. done.
    + assert (∀ acts, (∀ g k, Agent.Reporting g k ∉ acts) → shows (Collector.mkCollector st stop d g h) acts)
        as Hno by (intros; by apply no_shows).
      destruct m; [destruct pc as [|b| |]|..]; try done.
      * intros [-> ->]. eexists _, _. split; [|eapply run_step; [apply Agent.run_stop|apply Hno; set_solver]]. done.
      * intros [-> ?]. eexists _, _. split; [|eapply run_step; [by apply Agent.run_submit|apply Hno; set_solver]]. done.
      * intros ?. eexists _, _. split; [|eapply run_step; [by apply Agent.run_return|apply Hno; set_solver]]. done.
      * intros _. eexists _, _. split; [|by apply stop_step]. done.
      * intros ?. eexists _, _. split; [|by apply exit_step]. done.
Qed.

Lemma outside_work s s' : step Outside s s' → work s' = work s.
Proof.
  intros Hs. inversion Hs as [????????? _ Hl|????????? _ Hl| |???????????? _ _ Hl| | | |]; try done.
  - by destruct (starts_tick _ _).
  - by destruct (starts_tick _ _).
  - by destruct (reports _).
Qed.

Lemma outside_can r s s' : step Outside s s' → can_go r s → can_go r s'.
Proof.
  intros Hs. inversion Hs as [????????? _ Hl|????????? _ Hl| |???????????? _ _ Hl| | | |]; subst;
    [by destruct (starts_tick _ _)|by destruct (starts_tick _ _)|by destruct (reports _)| |by destruct r].
  destruct r as [| |i|]; simpl; rewrite ?orb_true_r; [| |done|].
  - by destruct g.
  - by destruct h.
  - destruct m; [|done..]. destruct pc; naive_solver.
Qed.
(** Before the end somebody can go on. *)
Lemma pool_alive (js : list (list Metrics)) cl ws : (js ≠ [] ∨ cl = true) → Forall (eq Agent.Exited) ws ∨
  ∃ i p, ws !! i = Some p ∧ p ≠ Agent.Exited ∧ (js ≠ [] ∨ cl = true ∨ p ≠ Agent.Receiving).
Proof.
  intros Hgo. destruct (Agent.all_exited_dec ws) as [?|(i & p & Hi & Hp)]; [by left|].
  right. exists i, p. split; [done|]. split; [done|]. destruct Hgo; auto.
Qed.

Lemma collector_alive s : Collector.stop_closed (collector s) || Collector.ctx_done (collector s) = true →
  Collector.stopped (collector s) ∨ ∃ r, can_go r s.
Proof.
  intros Hstop. unfold Collector.stopped.
  destruct (Collector.runtime_loop (collector s)) as [|todo|] eqn:Hg.
  - right. exists Sampler. simpl. by rewrite Hg.
  - right. exists Sampler. simpl. by rewrite Hg.
  - destruct (Collector.system_loop (collector s)) as [|todo|] eqn:Hh; [..|by left];
      right; exists HostSampler; simpl; by rewrite Hh.
Qed.

Lemma process_alive s : process_inv s → Agent.p_done (agent s) = true →
  main s = Exited ∨ ∃ r, can_go r s.
Proof.
  destruct s as [c [js cl ws pc d w tr] m]. intros [Ha _ Hd Hm] Hdone. simpl in *. rewrite Hd in *.
  destruct m; [right|right|by left].
  - pose proof (Agent.inv_run _ _ Ha) as Hrun. simpl in Hrun. destruct pc as [|b| |].
    + exists Main. done.
    + destruct Hrun as [-> _]. destruct (decide (length js < Agent.buffer_of rate_limit)%nat) as [?|Hfull];
        [by exists Main|].
      pose proof (Agent.workers_of_pos rate_limit). pose proof (Agent.inv_workers _ _ Ha) as Hw. simpl in Hw.
      assert (js ≠ []) as Hjs by (intros ->; unfold Agent.buffer_of in Hfull; simpl in Hfull; lia).
      destruct (pool_alive _ false ws (or_introl Hjs)) as [Hall|(i & p & ?)]; [|exists (Sender i), p; done].
      destruct Hall as [|p ws' <-]; [simpl in Hw; lia|].
      by destruct (Agent.inv_exited _ _ Ha (list_elem_of_here _ _)).
    + subst cl. destruct (pool_alive js true ws (or_intror eq_refl)) as [Hall|(i & p & ?)];
        [by exists Main|exists (Sender i), p; done].
    + by exists Main.
  - destruct Hm as [_ Hstop].
    destruct (collector_alive (mkProcess c (Agent.mkState js cl ws pc true w tr) Waiting)) as [?|?];
      [simpl; by rewrite Hstop|by exists Main|done].
Qed.

Lemma done_stays l s s' : step l s s' → Agent.p_done (agent s) = true → Agent.p_done (agent s') = true.
Proof. by destruct 1. Qed.

(** At its end nothing of the process is left running, and nothing unsent. *)
Lemma exited_clean s : process_inv s → main s = Exited →
  Collector.stopped (collector s) ∧ Agent.p_run (agent s) = Agent.Returned ∧
  Forall (eq Agent.Exited) (Agent.p_workers (agent s)) ∧ Agent.p_jobs (agent s) = [].
Proof.
  intros [Ha _ _ Hm] Hex. rewrite Hex in Hm. destruct Hm as [Hret Hst]. split; [done|]. split; [done|].
  destruct (Agent.drained _ _ Ha Hret) as [? _]. pose proof (Agent.inv_run _ _ Ha) as Hr.
  rewrite Hret in Hr. by destruct Hr.
Qed.

(** Go chooses among the ready branches of a [select] at random: once another branch
    stays ready, the ticker's is not taken for ever. *)
Definition tickers_lose (ρ : nat → label) : Prop := ∀ r, ∃ N, ∀ k, (N ≤ k)%nat → ρ k ≠ Ticks r.

Lemma no_sender_ticks i s s' : ¬ step (Ticks (Sender i)) s s'.
Proof.
  intros Hs. inversion Hs as [????????? _ Hl|????????? _ Hl| |???????????? _ _ Hl| | | |].
  - by destruct (starts_tick _ _).
  - by destruct (starts_tick _ _).
  - by destruct (reports _).
Qed.

(** [C5] The agent ends after a signal: in every execution under a fair scheduler in
    which the context is done at some instant, the process exits.  By then both sampling
    goroutines, all senders and the loop have returned and the queue is empty, however
    full it was and whatever the server did. *)
Theorem agent_exits w σ ρ n0 :
  Fair.execution step (start w) σ ρ → Fair.fair step role_of σ ρ → tickers_lose ρ →
  Agent.p_done (agent (σ n0)) = true →
  ∃ n, main (σ n) = Exited ∧
    Collector.stopped (collector (σ n)) ∧ Agent.p_run (agent (σ n)) = Agent.Returned ∧
    Forall (eq Agent.Exited) (Agent.p_workers (agent (σ n))) ∧ Agent.p_jobs (agent (σ n)) = [].
Proof.
  intros He Hf Hlose Hdone.
  destruct (Hlose Sampler) as [N1 H1], (Hlose HostSampler) as [N2 H2], (Hlose Main) as [N3 H3].
  set (N := (n0 + N1 + N2 + N3)%nat).
  assert (∀ k, Agent.p_done (agent (σ (n0 + k)%nat)) = true) as Hd.
  { intros k. induction k as [|k IH]; [by rewrite Nat.add_0_r|].
    replace (n0 + S k)%nat with (n0 + k + 1)%nat by lia. by eapply done_stays, IH; apply He. }
  assert (∀ k, (N ≤ k)%nat → ∀ r, ρ k ≠ Ticks r) as Hnt.
  { intros k Hk r E. pose proof (proj2 He k) as Hs. unfold N in Hk. destruct r as [| |i|].
    - apply (H1 k); [lia|done].
    - apply (H2 k); [lia|done].
    - rewrite E in Hs. by eapply no_sender_ticks.
    - apply (H3 k); [lia|done]. }
  destruct (Fair.eventually step role_of σ ρ (λ s, main s = Exited) work N Hf) as (n & _ & Hn).
  - intros k _ Hr. right. by eapply move_work; [apply He|].
  - intros k Hk Hr. pose proof (proj2 He k) as Hs. destruct (ρ k) as [r|r|] eqn:E; [done|by destruct (Hnt k Hk r)|].
    split; [by rewrite (outside_work _ _ Hs)|]. intros r. rewrite !can_go_iff. by apply outside_can.
  - intros k Hk. destruct (process_alive (σ k)) as [?|[r Hr]]; [by eapply execution_inv| |by left|].
    + replace k with (n0 + (k - n0))%nat by (unfold N in Hk; lia). apply Hd.
    + right. exists r. by apply can_go_iff.
  - exists n. split; [done|]. apply exited_clean; [by eapply execution_inv|done].
Qed.
(** ** What is reported *)

(** A snapshot the collector can return. *)
Definition report_ok (g : gmap string float64) (k : gmap string Z) : Prop :=
  (∀ n v, g !! n = Some v → Collector.known_name n) ∧
  (∀ n d, k !! n = Some d → n = Collector.MPollCount ∧ in_int64 d).

Definition counters_wf (s : Collector.stats) : Prop :=
  map_Forall (λ _ d, in_int64 d) (Collector.counters s).

(** Every batch is the one of a snapshot that was reported. *)
Record report_inv (s : Process W) : Prop := {
  inv_wf : counters_wf (Collector.st (collector s));
  inv_reports : ∀ g k, Agent.Reporting g k ∈ Agent.p_trace (agent s) → report_ok g k;
  inv_batches : ∀ b, b ∈ Agent.submitted (Agent.p_trace (agent s)) ∨ Agent.p_run (agent s) = Agent.Submitting b →
    ∃ g k, Agent.Reporting g k ∈ Agent.p_trace (agent s) ∧ batch_of_maps g k b;
}.

Lemma access_wf a s : counters_wf s → counters_wf (Collector.run_access a s).
Proof. intros Hs. destruct a; [done|]. apply map_Forall_insert_2; [apply add64_range|done]. Qed.

Lemma loop_wf stop ticks g s g' s' : Collector.loop_step stop ticks g s g' s' → counters_wf s → counters_wf s'.
Proof. destruct 1; try done. apply access_wf. Qed.

Lemma snapshot_report_ok (s : Process W) g k : process_inv s → counters_wf (Collector.st (collector s)) →
  Collector.Snapshot (Collector.st (collector s)) = (g, k) → report_ok g k.
Proof.
  intros [_ [(Hg & Hc & _) _ _] _ _] Hwf [= <- <-]. split; [done|]. intros n d Hd.
  split; [by eapply Hc|by apply (Hwf n)].
Qed.

Lemma report_start w : report_inv (start w).
Proof.
  split; simpl; [apply map_Forall_empty|by intros ?? ?%not_elem_of_nil|].
  intros b [Hb|?]; [by apply not_elem_of_nil in Hb|done].
Qed.

(** A step that adds nothing to the reports and the batches. *)
Lemma report_kept (s s' : Process W) acts :
  Agent.p_trace (agent s') = Agent.p_trace (agent s) ++ acts →
  counters_wf (Collector.st (collector s')) → Agent.submitted acts = [] →
  (∀ g k, Agent.Reporting g k ∉ acts) →
  (∀ b, Agent.p_run (agent s') = Agent.Submitting b → Agent.p_run (agent s) = Agent.Submitting b) →
  report_inv s → report_inv s'.
Proof.
  intros Ht Hwf Hsub Hno Hrun [_ Hr Hb]. split; [done|..]; rewrite Ht.
  - intros g k [?|Hin]%elem_of_app; [by apply Hr|by destruct (Hno g k)].
  - unfold Agent.submitted in *. rewrite omap_app, Hsub, app_nil_r. intros b Hin.
    destruct (Hb b) as (g & k & ? & ?); [naive_solver|]. exists g, k. split; [apply elem_of_app; by left|done].
Qed.

Lemma report_inv_step l s s' : process_inv s → report_inv s → step l s s' → report_inv s'.
Proof.
  intros Hp Hinv Hs. pose proof (inv_wf _ Hinv) as Hwf.
  destruct Hs as [s stop d g h g' s' a m Hl|s stop d g h h' s' a m Hl|
    c js cl ws pc d w tr m i p p' js' w' acts Hi Hw|c js cl ws pc d w tr pc' js' cl' acts Hr Hsh| | | |];
    try by (refine (report_kept _ _ [] _ _ _ (λ _ _, not_elem_of_nil _) _ Hinv);
      simpl; rewrite ?app_nil_r).
  - refine (report_kept _ _ [] _ _ _ (λ _ _, not_elem_of_nil _) _ Hinv); simpl; rewrite ?app_nil_r;
      first [done|by eapply loop_wf].
  - refine (report_kept _ _ [] _ _ _ (λ _ _, not_elem_of_nil _) _ Hinv); simpl; rewrite ?app_nil_r;
      first [done|by eapply loop_wf].
  - refine (report_kept _ _ acts _ _ _ _ _ Hinv); simpl; try done; destruct Hw; try done; set_solver.
  - pose proof (λ g k Hin, snapshot_report_ok _ g k Hp Hwf (Hsh g k Hin)) as Hok.
    destruct Hinv as [_ Hrep Hb]. simpl in *. split; simpl; [done|..].
    + intros g k [?|Hin]%elem_of_app; [by apply Hrep|by apply Hok].
    + unfold Agent.submitted in *. rewrite omap_app. intros b Hin.
      assert ((∃ g k, Agent.Reporting g k ∈ tr ∧ batch_of_maps g k b) ∨
        ∃ g k, Agent.Reporting g k ∈ acts ∧ batch_of_maps g k b) as Hcase.
      { destruct Hr as [| ??? ? g k batch ? Hm| | |]; csimpl in *; rewrite ?app_nil_r in Hin.
        - left. apply Hb. naive_solver.
        - destruct Hin as [Hin|[= <-]]; [left; apply Hb; auto|]. right. exists g, k. split; [left|done].
        - left. apply Hb. rewrite elem_of_app, list_elem_of_singleton in Hin. naive_solver.
        - left. apply Hb. naive_solver.
        - left. apply Hb. naive_solver. }
      destruct Hcase as [(g & k & ? & ?)|(g & k & ? & ?)]; exists g, k; (split; [apply elem_of_app; auto|done]).
Qed.
Definition any_step (s s' : Process W) : Prop := ∃ l, step l s s'.

Lemma report_reachable w s : rtc any_step (start w) s → process_inv s ∧ report_inv s.
Proof.
  intros Hr. apply (rtc_invariant any_step (λ s, process_inv s ∧ report_inv s)) in Hr; [done| |].
  - intros x y [Hp Hx] [l Hs]. split; [by eapply process_inv_step|by eapply report_inv_step].
  - split; [apply process_start_inv|apply report_start].
Qed.
End process.

(** *** Names *)

Lemma format_visible fuel n acc : all_visible acc = true → all_visible (format_uint_loop fuel n acc) = true.
Proof.
  revert n acc. induction fuel as [|fuel IH]; intros n acc Hacc; [done|]. cbn [format_uint_loop].
  assert (all_visible (String (digit_char (n mod 10)) acc) = true) as Hd.
  { cbn [all_visible]. rewrite Hacc, GoTime.visible_digit; [done|]. rewrite digit_val_char by lia. by eexists. }
  destruct (n <? 10); auto.
Qed.

Lemma known_visible n : Collector.known_name n → all_visible n = true ∧ n ≠ EmptyString.
Proof.
  intros [Hn|[i ->]].
  - assert (Forall (λ n, all_visible n = true ∧ n ≠ EmptyString) Collector.fixed_names) as Hf
      by (by repeat constructor).
    rewrite Forall_forall in Hf. by apply Hf.
  - split; [|done]. unfold Collector.cpu_name. rewrite all_visible_app. apply andb_true_intro. split; [done|].
    unfold FormatInt. destruct (Z.ltb_spec (Z.of_nat i + 1) 0); [lia|]. by apply format_visible.
Qed.

Lemma known_not_poll n : Collector.known_name n → n ≠ Collector.MPollCount.
Proof.
  intros [Hn|[i ->]] E; [|done]. subst n.
  assert (bool_decide (Collector.MPollCount ∈ Collector.fixed_names) = false) as Hf by by vm_compute.
  by apply bool_decide_eq_false in Hf.
Qed.

(** A metric the agent may send. *)
Definition reported (m : Metrics) : Prop :=
  (∃ n v, m = gauge_metric n v ∧ Collector.known_name n) ∨
  (∃ d, m = counter_metric Collector.MPollCount d ∧ in_int64 d).

Lemma batch_reported g k b : report_ok g k → batch_of_maps g k b →
  Forall reported b ∧ NoDup (ID <$> b).
Proof.
  intros [Hg Hk] (lg & lc & Hlg & Hlc & ->).
  assert (∀ n v, (n, v) ∈ lg → Collector.known_name n) as Hgn.
  { intros n v Hin. rewrite Hlg, elem_of_map_to_list in Hin. by eapply Hg. }
  assert (∀ n d, (n, d) ∈ lc → n = Collector.MPollCount ∧ in_int64 d) as Hcn.
  { intros n d Hin. rewrite Hlc, elem_of_map_to_list in Hin. by apply Hk. }
  unfold build. split.
  - apply Forall_app. split; apply Forall_forall; intros m ([n v] & -> & Hin)%list_elem_of_fmap; simpl.
    + left. exists n, v. split; [done|by eapply Hgn].
    + right. destruct (Hcn n v Hin) as [-> ?]. by exists v.
  - rewrite fmap_app. rewrite <- !list_fmap_compose.
    change (NoDup ((fst <$> lg) ++ (fst <$> lc))). apply NoDup_app. split; [|split].
    + rewrite Hlg. apply NoDup_fst_map_to_list.
    + intros n ([n' v] & -> & Hin)%list_elem_of_fmap ([n2 d] & E & Hin2)%list_elem_of_fmap. simpl in E. subst n2.
      destruct (Hcn _ _ Hin2) as [-> _]. by eapply known_not_poll; [eapply Hgn|].
    + rewrite Hlc. apply NoDup_fst_map_to_list.
Qed.

(** [C35] What the agent sends.  Whatever the interleaving of sampling and reporting,
    every batch it submits has no name twice, and consists of gauges under the names
    the collector documents, printable and not empty, and the counter [PollCount] with
    a value of 64 bits; and it is what the collector showed at some moment. *)
Theorem reports_valid {W} `{Publisher W} ctx rate_limit (w : W) s b :
  rtc (any_step ctx rate_limit) (start rate_limit w) s → b ∈ Agent.submitted (Agent.p_trace (agent s)) →
  b ≠ [] ∧ NoDup (ID <$> b) ∧
  Forall (λ m, (∃ n v, m = gauge_metric n v ∧ Collector.known_name n ∧ all_visible n = true ∧ n ≠ EmptyString) ∨
               (∃ d, m = counter_metric Collector.MPollCount d ∧ in_int64 d)) b ∧
  ∃ g k, Agent.Reporting g k ∈ Agent.p_trace (agent s) ∧ batch_of_maps g k b.
Proof.
  intros Hr Hb. destruct (report_reachable _ _ _ _ Hr) as [Hp [_ Hrep Hbat]].
  destruct (Hbat b) as (g & k & Hin & Hm); [by left|].
  destruct (batch_reported _ _ _ (Hrep _ _ Hin) Hm) as [Hall Hnd]. split; [|split; [done|split; [|by eauto]]].
  - pose proof (Agent.inv_nonempty _ _ (inv_agent _ _ Hp)) as Hne. rewrite Forall_forall in Hne. by apply Hne.
  - eapply Forall_impl; [exact Hall|]. intros m [(n & v & -> & Hn)|?]; [left|by right].
    destruct (known_visible n Hn). by exists n, v.
Qed.
(** ** Example: one sample of the host, one report, a signal

    The publisher keeps what it is given while the context is not done. *)
#[local] Instance keeper : Publisher (list Metrics) := {
  SendBatch ctx b w := match ctx_done ctx with None => (Ok tt, w ++ b) | Some _ => (Err ErrCanceled, w) end;
  SendOne ctx m w := match ctx_done ctx with None => (Ok tt, w ++ [m]) | Some _ => (Err ErrCanceled, w) end;
}.

Definition demo_gauges : gmap string float64 :=
  {["FreeMemory" := of_uint 4; "TotalMemory" := of_uint 8]}.

Definition demo_batch : list Metrics := build (map_to_list demo_gauges) [].

Lemma demo_maps : batch_of_maps demo_gauges ∅ demo_batch.
Proof. exists (map_to_list demo_gauges), []. split; [reflexivity|]. split; [by rewrite map_to_list_empty|reflexivity]. Qed.

Lemma process_size : (size demo_gauges + size (∅ : gmap string Z) ≠ 0)%nat.
Proof. by vm_compute. Qed.

Lemma demo_snapshot : Collector.Snapshot (Collector.run_access (Collector.DoSet Collector.FreeMemory (of_uint 4))
  (Collector.run_access (Collector.DoSet Collector.TotalMemory (of_uint 8)) Collector.newStats)) = (demo_gauges, ∅).
Proof. reflexivity. Qed.

Lemma process_room : (length (@nil (list Metrics)) < Agent.buffer_of 1)%nat.
Proof. vm_compute. lia. Qed.

Lemma process_nonempty : demo_batch ≠ [].
Proof. intros E%(f_equal length). vm_compute in E. discriminate. Qed.

Lemma demo_send : SendBatch (Agent.ctx_now Background false) demo_batch [] = (Ok tt, demo_batch).
Proof. reflexivity. Qed.

Lemma process_exited : Forall (eq Agent.Exited) [Agent.Exited].
Proof. by constructor. Qed.

#[local] Abbreviation demo_start := (start 1 ([] : list Metrics)).
#[local] Abbreviation demo_step := (step Background 1).

Ltac no_reports := apply no_shows; intros ?? Hin;
  repeat (apply elem_of_cons in Hin as [Hin|Hin]; [discriminate|]); by apply not_elem_of_nil in Hin.
Tactic Notation "go" uconstr(c) := eapply Fair.reaches_step; [eapply c|].
Tactic Notation "loop" uconstr(c) :=
  eapply Fair.reaches_step; [eapply run_step; [eapply c|no_reports]|].
Tactic Notation "sender" uconstr(c) :=
  eapply Fair.reaches_step; [eapply (sender_step _ _ _ _ _ _ _ _ _ _ _ 0); [reflexivity|eapply c]|].

Lemma process_run : Fair.reaches demo_step demo_start
  (λ s, main s = Exited ∧ Agent.p_done (agent s) = true ∧ Agent.p_world (agent s) = demo_batch ∧
        Agent.submitted (Agent.p_trace (agent s)) = [demo_batch]).
Proof.
  go (host_step _ _ _ _ _ _ _ _ _ _ _ (Collector.loop_tick _ _ _ _ (ex_intro _ (Some (8, 4)) (ex_intro _ None eq_refl)))).
  go (host_step _ _ _ _ _ _ _ _ _ _ _ (Collector.loop_access _ _ _ _ _)).
  go (host_step _ _ _ _ _ _ _ _ _ _ _ (Collector.loop_access _ _ _ _ _)).
  go (host_step _ _ _ _ _ _ _ _ _ _ _ (Collector.loop_again _ _ _)).
  eapply Fair.reaches_step; [eapply run_step; [eapply (Agent.run_tick _ _ _ _ _ _ _ _ process_size demo_maps)|]|].
  { intros g k Hin. apply list_elem_of_singleton in Hin. injection Hin as -> ->. apply demo_snapshot. }
  loop (Agent.run_submit _ _ _ _ _ process_room).
  sender (Agent.worker_receive _ _ _ _ _ process_nonempty).
  sender (Agent.worker_sent _ _ _ _ _ _ demo_send).
  go (signal_step _ _ _ _ _ _ _ _ _ _ _ _ _ _ _).
  loop (Agent.run_stop _ _ _).
  sender (Agent.worker_exit _ _).
  loop (Agent.run_return _ _ _ _ _ process_exited).
  eapply Fair.reaches_step; [apply stop_step; reflexivity|].
  eapply Fair.reaches_step; [apply sampler_step, Collector.loop_return; reflexivity|].
  eapply Fair.reaches_step; [apply host_step, Collector.loop_return; reflexivity|].
  eapply Fair.reaches_step; [apply exit_step; split; reflexivity|].
  apply Fair.reaches_here. done.
Qed.

(** The run, and then nothing for ever. *)
Lemma process_execution : ∃ σ ρ n,
  Fair.execution demo_step demo_start σ ρ ∧ Fair.fair demo_step role_of σ ρ ∧ tickers_lose ρ ∧
  Agent.p_done (agent (σ n)) = true ∧ Agent.submitted (Agent.p_trace (agent (σ n))) = [demo_batch].
Proof.
  destruct process_run as (run & Hok & Hex & Hd & _ & Hs).
  assert (∀ s : Process (list Metrics), demo_step Outside s s) as Hidle.
  { intros [c [js cl ws pc d w tr] m]. apply outside_step. }
  pose proof (Fair.finite_execution demo_step Outside Hidle _ _ Hok) as He.
  exists (Fair.states demo_start run), (Fair.labels Outside run), (length run).
  rewrite Fair.states_end by done. split; [done|]. split; [|split; [|done]].
  - apply Fair.finite_fair. intros r Hr%can_go_iff.
    pose proof (execution_inv _ _ _ _ _ (length run) He) as Hinv. rewrite Fair.states_end in Hinv by done.
    destruct (exited_clean _ _ Hinv Hex) as ([Hg Hh] & _ & Hws & _).
    destruct r as [| |i|]; simpl in Hr; rewrite ?Hg, ?Hh, ?Hex in Hr; try done.
    destruct Hr as (p & Hi & Hp & _). by apply Hp, eq_sym, (Forall_lookup_1 _ _ _ _ Hws Hi).
  - intros r. exists (length run). intros k Hk. by rewrite Fair.labels_end.
Qed.

Lemma agent_exits_witness : ∃ (σ : nat → Process (list Metrics)) n, σ 0%nat = demo_start ∧ main (σ n) = Exited.
Proof.
  destruct process_execution as (σ & ρ & n0 & He & Hf & Hl & Hd & _).
  destruct (agent_exits Background 1 [] σ ρ n0 He Hf Hl Hd) as (n & Hn & _).
  exists σ, n. split; [apply He|exact Hn].
Defined.

Lemma reports_valid_witness : ∃ s : Process (list Metrics),
  rtc (any_step Background 1) demo_start s ∧ NoDup (ID <$> demo_batch).
Proof.
  destruct process_execution as (σ & ρ & n & He & _ & _ & _ & Hs).
  assert (rtc (any_step Background 1) demo_start (σ n)) as Hr.
  { clear Hs. induction n as [|n IH]; [destruct He as [-> _]; apply rtc_refl|].
    eapply rtc_r; [apply IH|]. exists (ρ n). rewrite <- Nat.add_1_r. apply He. }
  exists (σ n). split; [exact Hr|].
  destruct (reports_valid Background 1 [] (σ n) demo_batch Hr ltac:(rewrite Hs; left)) as (_ & Hnd & _).
  exact Hnd.
Defined.
End AgentProcess.
