(* ===== verification/AgentServer.v ===== *)
(** * The agent and the server as one system

    The publisher of the agent's senders is the HTTP client, and the client's
    transport is the network of [Link] with the server of [EndToEnd] behind it, over
    the in-memory repository.  A call of the client reaches the server between no and
    four times, at least once if it returns nil; when the agent has returned, the
    server holds what the calls made before the signal brought it, and what those on
    their way then still did.  A call with its retries and waits is one step: other
    senders are not served in between. *)

From S2P Require Import Prelude GoStrings GoInt GoErrors Sha256 Domain GoFloat Ports Batches.
From S2P Require Import Json MetricsJson Http Middlewares Observer Service ServiceSpec.
From S2P Require Import Memory Retry HttpClient Handlers HandlersSpec Agent EndToEnd Link.
Open Scope Z_scope.

Module AgentServer.
Import MetricsJson Service ServiceSpec Retry Handlers HandlersSpec EndToEnd Batches Link.

(** [HttpClient.Client] as a [Publisher].  A nil response without an error, where
    the code would panic, does not occur. *)
Definition or_nil (r : option (result error unit)) : result error unit :=
  default (Err (Errorf "nil response")) r.

Definition http_publisher `{Gzip} `{HttpClient.NetURL} {W} `{Timing W} `{HttpClient.Transport W}
    (c : HttpClient.Client) : Publisher W := {|
  SendBatch ctx items w := let '(r, w) := HttpClient.SendBatch ctx c items w in (or_nil r, w);
  SendOne ctx m w := let '(r, w) := HttpClient.SendOne ctx c m w in (or_nil r, w);
|}.

(** ** The calls of the senders *)

(** A batch, or a metric of a batch that failed. *)
Inductive call : Type :=
  | Batch (b : list Metrics)
  | One (m : Metrics).

Definition items (x : call) : list Metrics := match x with Batch b => b | One m => [m] end.

Definition perform `{Publisher W} (ctx : Context) (x : call) : io W error unit :=
  match x with Batch b => SendBatch ctx b | One m => SendOne ctx m end.

(** The calls of a history, and whether they returned nil. *)
Definition calls_of (tr : list Agent.act) : list (call * bool) :=
  omap (λ a, match a with
    | Agent.SentBatch b ok => Some (Batch b, ok)
    | Agent.SentOne m ok => Some (One m, ok)
    | _ => None
    end) tr.

(** The calls the senders are in. *)
Definition pending (ws : list Agent.worker) : list call :=
  omap (λ p, match p with
    | Agent.Sending b => Some (Batch b)
    | Agent.Singles (m :: _) => Some (One m)
    | _ => None
    end) ws.

(** What reaches the server when the calls [xs] are served [ks] times. *)
Definition requests (ks : list nat) (xs : list call) : list Metrics :=
  concat (zip_with (λ k x, concat (replicate k (items x))) ks xs).

Lemma calls_of_app tr a : calls_of (tr ++ a) = calls_of tr ++ calls_of a.
Proof. apply omap_app. Qed.

Lemma requests_app ks1 ks2 xs1 xs2 : length ks1 = length xs1 →
  requests (ks1 ++ ks2) (xs1 ++ xs2) = requests ks1 xs1 ++ requests ks2 xs2.
Proof. intros Hl. unfold requests. by rewrite zip_with_app, concat_app. Qed.

Lemma requests_once xs : requests (replicate (length xs) 1%nat) xs = concat (items <$> xs).
Proof.
  unfold requests. induction xs as [|x xs IH]; [done|]. cbn [length replicate zip_with concat fmap list_fmap].
  by rewrite IH, app_nil_r.
Qed.

(** A step of a sender is one call, or touches nothing outside. *)
Lemma worker_call `{Publisher W} k p js cl (w : W) p' js' w' a :
  Agent.worker_step k p js cl w p' js' w' a →
  (calls_of a = [] ∧ w' = w) ∨
  ∃ x r, calls_of a = [(x, is_ok r)] ∧ perform k x w = (r, w') ∧ pending [p] = [x].
Proof.
  destruct 1 as [| | |b js cl w w' Hs|b js cl w e w' Hs|m todo js cl w r w' Hs|]; try by left.
  - right. by exists (Batch b), (Ok tt).
  - right. by exists (Batch b), (Err e).
  - right. by exists (One m), r.
Qed.

Lemma call_trace `{Publisher W} k p js cl (w : W) p' js' w' a :
  Agent.worker_step k p js cl w p' js' w' a → a = [] → w' = w.
Proof. by destruct 1. Qed.

(** The loop's steps report, and send nothing. *)
Lemma run_sends_nothing rate_limit pc js cl d ws pc' js' cl' a :
  Agent.run_step rate_limit pc js cl d ws pc' js' cl' a → calls_of a = [].
Proof. by destruct 1. Qed.

Lemma failed_calls tr : Forall (λ c : call * bool, c.2 = true) (calls_of tr) → Agent.failed tr = [].
Proof.
  unfold calls_of, Agent.failed.
  induction tr as [|[| | |b []|m []] tr IH]; csimpl; try done;
    intros [Hx Hall]%Forall_cons; first [by apply IH|done].
Qed.

Definition batch_ok (x : call * bool) : option (list Metrics) :=
  match x with (Batch b, true) => Some b | _ => None end.

Lemma succeeded_calls tr1 tr2 rest : calls_of tr2 = calls_of tr1 ++ rest →
  Forall (λ c : call * bool, c.2 = false) rest → Agent.succeeded tr2 = Agent.succeeded tr1.
Proof.
  assert (∀ tr, Agent.succeeded tr = omap batch_ok (calls_of tr)) as Hsucc.
  { unfold Agent.succeeded, calls_of. induction tr as [|[| | |b []|m []] tr IH]; csimpl; by rewrite ?IH. }
  intros Hc Hf. rewrite !Hsucc, Hc, omap_app.
  replace (omap batch_ok rest) with (@nil (list Metrics)); [by rewrite app_nil_r|].
  clear Hc. by induction Hf as [|[[b|m] []] rest Hx _ IH].
Qed.

Section system.
Context {E : Type} `{Gin} `{Gzip} `{Binding} `{GinRouter} `{HttpClient.NetURL}.
Context (svc : Service E) (error_text : error → string).
Context (order : ∀ A, gmap string A → list (string * A)) (grow : nat).
Context (skey : string) (server_ctx ctx : Context) (ip : string) (path_of : string → string).
Context (c : HttpClient.Client) (rate_limit : Z).

#[local] Abbreviation link := (link (R := Memory.Repo) (E := E)).
Context `{Timing link}.
#[local] Instance transport : HttpClient.Transport link :=
  lossy_transport svc error_text order grow skey server_ctx ip path_of.
#[local] Instance publisher : Publisher link := http_publisher c.
#[local] Abbreviation view w := (Memory.view (w_repo ((w : link).1.1))).

(** Client and server are set up for each other; [ctx] ends by a signal only; the
    clock counts from zero; nothing is served during the waits of a call. *)
Context (same_key : HttpClient.key c = TrimSpace skey).
Context (same_path : ∀ ep, ep ∈ ["/update"; "/updates"] → path_of (HttpClient.endpoint c ep) = ep).
Context (good_address : ∀ ep, ep ∈ ["/update"; "/updates"] →
  HttpClient.NewRequest_error (HttpClient.endpoint c ep) = None).
Context (no_deadline : ctx_done ctx = None).
Context (clock_from_zero : ∀ w : link, 0 ≤ clock w).
Context (quiet_waits : ∀ ctx d (w : link) b w', wait_timer ctx d w = (b, w') → view w' = view w ∧ w'.2 = w.2).

#[local] Abbreviation State := (Agent.State link).
Implicit Types s : State.
#[local] Arguments Agent.ctx_now : simpl never.

(** Steps in which only the agent's own requests reach the server, reports are
    plain, and no signal comes. *)
Definition quiet_step s s' : Prop :=
  Agent.step ctx rate_limit s s' ∧
  (Agent.p_world s' = Agent.p_world s ∨ Agent.p_trace s' ≠ Agent.p_trace s) ∧
  Forall (Forall plain_metric) (Agent.submitted (Agent.p_trace s')) ∧
  Agent.p_done s' = Agent.p_done s.

(** The signal.  Calls that are on their way, [late], may still reach the server,
    although their senders get an error; whether the server works on one of them now
    or later makes no difference. *)
Definition serve_late (late : list call) (w : link) : link :=
  fold_left (λ w x, (perform (Agent.ctx_now ctx false) x w).2) late w.

Inductive interrupted : State → list call → State → Prop :=
  | signal js cl ws pc w tr late : late ⊆+ pending ws →
      interrupted (Agent.mkState js cl ws pc false w tr) late
        (Agent.mkState js cl ws pc true (serve_late late w) tr).

Lemma interrupted_steps s late s' : interrupted s late s' → rtc (Agent.step ctx rate_limit) s s'.
Proof.
  destruct 1. eapply rtc_l; [apply Agent.step_cancel|]. apply rtc_once, Agent.step_env.
Qed.

(** ** One call *)

(** A call before the signal: served [k] times. *)
Definition counted (w : link) (x : call) (r : result error unit) (w' : link) (k : nat) : Prop :=
  (k ≤ 4)%nat ∧ view w' = put_all put (concat (replicate k (items x))) (view w) ∧
  (is_ok r = true → (1 ≤ k)%nat) ∧ (w.2 = [] → k = 1%nat ∧ w'.2 = [] ∧ is_ok r = true).

Lemma served_counted f x (w w' : link) r k : (∀ v, f v = put_all put (items x) v) →
  ctx_Err (Agent.ctx_now ctx false) w = None →
  served_times (R := Memory.Repo) (Agent.ctx_now ctx false) f w r w' k → counted w x (or_nil r) w' k.
Proof.
  intros Hf Hlive (Hk & Hv & Hok & Hclean). split; [done|]. split; [|split].
  - rewrite put_all_times. etrans; [exact Hv|]. clear -Hf.
    induction k as [|k IH]; [done|]. rewrite !Nat.iter_succ, <- IH. apply Hf.
  - destruct r as [[[]|e]|]; [|done..]. by intros _; apply Hok.
  - intros Hnil. by destruct (Hclean Hnil Hlive) as (? & ? & ->).
Qed.

Lemma call_counted x (w : link) r w' : Forall plain_metric (items x) → items x ≠ [] →
  perform (Agent.ctx_now ctx false) x w = (r, w') → ∃ k, counted w x r w' k.
Proof using same_key same_path good_address no_deadline quiet_waits.
  intros Hp Hne. assert (ctx_Err (Agent.ctx_now ctx false) w = None) as Hlive
    by (unfold ctx_Err, ctx_err_at, Agent.ctx_now; by rewrite no_deadline).
  destruct x as [b|m]; cbn [perform SendBatch SendOne publisher http_publisher].
  - destruct (HttpClient.SendBatch _ _ _ _) as [res w1] eqn:Hs. intros [= <- <-].
    destruct (batch_served (HL := Memory.memory_laws)
      svc error_text order grow skey server_ctx ip path_of quiet_waits _ c b w res w1
      same_key (same_path "/updates" ltac:(right; left)) (good_address "/updates" ltac:(right; left)) Hp Hne Hs) as (k & Hk).
    exists k. by eapply served_counted.
  - destruct (HttpClient.SendOne _ _ _ _) as [res w1] eqn:Hs. intros [= <- <-].
    apply Forall_inv in Hp.
    destruct (single_served (HL := Memory.memory_laws)
      svc error_text order grow skey server_ctx ip path_of quiet_waits _ c m w res w1
      same_key (same_path "/update" ltac:(left)) (good_address "/update" ltac:(left)) Hp Hs) as (k & Hk).
    exists k. by eapply served_counted.
Qed.

Lemma publisher_batch b (w : link) r w' : HttpClient.SendBatch ctx c b w = (Some r, w') →
  SendBatch (Agent.ctx_now ctx false) b w = (r, w').
Proof. intros Hs. cbn [SendBatch publisher http_publisher]. unfold Agent.ctx_now. by rewrite Hs. Qed.

(** After the signal no request leaves. *)
Lemma perform_cancelled x (w : link) : items x ≠ [] →
  ∃ e, perform (Agent.ctx_now ctx true) x w = (Err e, w).
Proof using clock_from_zero.
  intros Hne. assert (ctx_Err (Agent.ctx_now ctx true) w = Some ErrCanceled) as Hdone.
  { unfold ctx_Err, ctx_err_at, Agent.ctx_now. cbn [ctx_done]. by rewrite bool_decide_true. }
  destruct x as [b|m]; cbn [perform SendBatch SendOne publisher http_publisher].
  - destruct (batch_cancelled svc error_text order grow skey server_ctx ip path_of _ c b w _ Hdone Hne) as [e He].
    exists e. unfold transport. by rewrite He.
  - destruct (single_cancelled svc error_text order grow skey server_ctx ip path_of _ c m w _ Hdone) as [e He].
    exists e. unfold transport. by rewrite He.
Qed.

(** ** The calls the senders are in *)

Lemma pending_plain s x : Agent.pool_inv rate_limit s →
  Forall (Forall plain_metric) (Agent.submitted (Agent.p_trace s)) →
  x ∈ pending (Agent.p_workers s) → items x ≠ [] ∧ Forall plain_metric (items x).
Proof.
  intros [Ho Hn Hs Hg _ _ _ _] Hplain Hx.
  assert (∀ b, b ∈ Agent.sent (Agent.p_trace s) ++ Agent.sending (Agent.p_workers s) →
    b ≠ [] ∧ Forall plain_metric b) as Hknown.
  { intros b. rewrite <- Hs. intros [Hne Hb]%list_elem_of_filter. split; [by intros ->|].
    rewrite Forall_forall in Hplain. apply Hplain. rewrite Ho. apply elem_of_app. by left. }
  apply list_elem_of_omap in Hx as ([|b|[|m todo]|] & Hp & Hx); try done; injection Hx as <-; cbn [items].
  - apply Hknown, elem_of_app. right. apply list_elem_of_omap. by exists (Agent.Sending b).
  - split; [done|]. apply Forall_singleton.
    assert (m ∈ concat (Agent.failed (Agent.p_trace s))) as Hm.
    { rewrite Hg. apply elem_of_app. right. apply list_elem_of_In, in_concat. exists (m :: todo).
      split; [|by left]. apply list_elem_of_In, list_elem_of_omap. by exists (Agent.Singles (m :: todo)). }
    apply list_elem_of_In, in_concat in Hm as (b & Hb%list_elem_of_In & Hm%list_elem_of_In).
    destruct (Hknown b) as [_ Hall]; [|rewrite Forall_forall in Hall; by apply Hall].
    rewrite Agent.sent_split. apply elem_of_app. left. apply elem_of_app. by right.
Qed.

Lemma pending_at (ws : list Agent.worker) i p x : ws !! i = Some p → pending [p] = [x] → x ∈ pending ws.
Proof.
  intros Hi Hx. apply list_elem_of_omap. exists p. split; [by eapply list_elem_of_lookup_2|].
  unfold pending in Hx. csimpl in Hx. destruct p as [|b|[|m todo]|]; try done; by injection Hx as ->.
Qed.

(** ** Before the signal *)

(** [ks] tells how often each call that has returned reached the server. *)
Definition accounts (w0 : link) (xs : list (call * bool)) (w : link) (ks : list nat) : Prop :=
  Forall2 (λ k (x : call * bool), (k ≤ 4)%nat ∧ (x.2 = true → (1 ≤ k)%nat)) ks xs ∧
  view w = put_all put (requests ks xs.*1) (view w0) ∧
  (w0.2 = [] → w.2 = [] ∧ Forall (eq 1%nat) ks ∧ Forall (λ x : call * bool, x.2 = true) xs).

Record delivered (w0 : link) s : Prop := {
  d_done : Agent.p_done s = false;
  d_calls : ∃ ks, accounts w0 (calls_of (Agent.p_trace s)) (Agent.p_world s) ks;
  d_plain : Forall (Forall plain_metric) (Agent.submitted (Agent.p_trace s));
  d_pool : Agent.pool_inv rate_limit s;
}.

Lemma accounts_call w0 xs (w : link) ks x r w' k : accounts w0 xs w ks → counted w x r w' k →
  accounts w0 (xs ++ [(x, is_ok r)]) w' (ks ++ [k]).
Proof.
  intros (Hks & Hv & Hclean) (Hk & Hv' & Hok & Hc). split; [|split].
  - apply Forall2_app; [done|]. by apply Forall2_cons.
  - apply Forall2_length in Hks. rewrite fmap_app, requests_app by (by rewrite length_fmap).
    rewrite put_all_app, <- Hv, Hv'. cbn. by rewrite app_nil_r.
  - intros Hnil. destruct (Hclean Hnil) as (Hw & Hall & Hoks). destruct (Hc Hw) as (-> & ? & ?).
    split; [done|]. split; apply Forall_app; (split; [done|]); by apply Forall_singleton.
Qed.

Lemma delivered_step w0 s s' : delivered w0 s → quiet_step s s' → delivered w0 s'.
Proof using same_key same_path good_address no_deadline quiet_waits.
  intros [Hd [ks Hks] _ Hp] (Hs & Hquiet & Hplain & Hd').
  pose proof (Agent.pool_inv_step _ _ _ _ Hp Hs) as Hp'. rewrite Hd in Hd'.
  destruct Hs as [js cl ws pc d w tr i p p' js' w' a Hi Hws|js cl ws pc d w tr pc' js' cl' a Hrs| |js cl ws pc d w w' tr];
    simpl in Hd, Hd', Hks, Hquiet, Hplain; subst; (split; [done| |done|done]); simpl.
  - destruct (Agent.worker_step_inv _ _ _ _ _ _ _ _ _ _ _ tr Hi Hws) as (_ & Hsub & _).
    rewrite calls_of_app. destruct (worker_call _ _ _ _ _ _ _ _ _ Hws) as [[-> ->]|(x & r & -> & Hx & Hpend)].
    + exists ks. by rewrite app_nil_r.
    + rewrite Hsub in Hplain. destruct (pending_plain _ x Hp Hplain) as [Hne Hall]; [by eapply pending_at|].
      destruct (call_counted x w r w' Hall Hne Hx) as (k & Hk). exists (ks ++ [k]). by eapply accounts_call.
  - exists ks. by rewrite calls_of_app, (run_sends_nothing _ _ _ _ _ _ _ _ _ _ Hrs), app_nil_r.
  - done.
  - destruct Hquiet as [->|[]]; [|done]. by exists ks.
Qed.

Lemma delivered_start w0 : delivered w0 (Agent.start rate_limit w0).
Proof. split; simpl; [done|by exists []|constructor|apply Agent.start_inv]. Qed.

Lemma delivered_run w0 s : rtc quiet_step (Agent.start rate_limit w0) s → delivered w0 s.
Proof using same_key same_path good_address no_deadline quiet_waits.
  intros Hr. eapply (rtc_invariant quiet_step (delivered w0)); [|exact Hr|apply delivered_start].
  intros x y Hx Hs. by eapply delivered_step.
Qed.

(** What is not at the server while the agent runs: the batches whose sending failed,
    those in flight, and those that wait. *)
Lemma delivered_held w0 s : delivered w0 s → ∃ held,
  Agent.submitted (Agent.p_trace s) ≡ₚ Agent.sent (Agent.p_trace s) ++ held ∧
  (length held ≤ 3 * Agent.workers_of rate_limit)%nat.
Proof.
  intros [_ _ _ [Ho Hn Hs _ _ Hw Hj _]].
  exists (Agent.sending (Agent.p_workers s) ++ Agent.p_jobs s). split.
  - rewrite Ho in Hn |- *. apply Forall_app in Hn as [Hn _].
    rewrite Agent.filter_nonempty in Hs by done. by rewrite Hs, app_assoc.
  - rewrite length_app. pose proof (Agent.in_flight_length (Agent.p_workers s)).
    unfold Agent.buffer_of in Hj. lia.
Qed.

(** ** The signal, and after it *)

Lemma serve_late_counted late (w : link) : Forall (λ x, items x ≠ [] ∧ Forall plain_metric (items x)) late →
  ∃ ks, length ks = length late ∧ Forall (λ k, (k ≤ 4)%nat) ks ∧
    view (serve_late late w) = put_all put (requests ks late) (view w) ∧
    (w.2 = [] → Forall (eq 1%nat) ks).
Proof using same_key same_path good_address no_deadline quiet_waits.
  intros Hl. revert w. induction Hl as [|x late [Hne Hx] _ IH]; intros w; [by exists []|].
  change (serve_late (x :: late) w) with (serve_late late (perform (Agent.ctx_now ctx false) x w).2).
  destruct (perform _ x w) as [r w1] eqn:Hw1.
  destruct (call_counted x w r w1 Hx Hne Hw1) as (k & Hk & Hv1 & _ & Hc).
  destruct (IH w1) as (ks & Hlen & Hks & Hv & Hone). exists (k :: ks). simpl. split; [by f_equal|].
  split; [by constructor|]. split.
  - rewrite Hv, Hv1. unfold requests. cbn [zip_with concat]. by rewrite put_all_app.
  - intros Hnil. destruct (Hc Hnil) as (-> & Hnil1 & _). constructor; [done|by apply Hone].
Qed.

(** After the signal the server stays as it is, and no call succeeds. *)
Record ended (v : Snapshot) (before : list (call * bool)) s : Prop := {
  e_done : Agent.p_done s = true;
  e_view : view (Agent.p_world s) = v;
  e_calls : ∃ rest, calls_of (Agent.p_trace s) = before ++ rest ∧ Forall (λ x : call * bool, x.2 = false) rest;
  e_pool : Agent.pool_inv rate_limit s;
}.

Lemma pending_nonempty s x : Agent.pool_inv rate_limit s → x ∈ pending (Agent.p_workers s) → items x ≠ [].
Proof.
  intros [_ _ Hs _ _ _ _ _] Hx. apply list_elem_of_omap in Hx as ([|b|[|m todo]|] & Hp & Hx); try done;
    injection Hx as <-; [|done]. cbn [items]. intros ->.
  assert ([] ∈ filter Agent.nonempty (Agent.received (Agent.p_trace s))) as Hin; [|by apply list_elem_of_filter in Hin as []].
  rewrite Hs. apply elem_of_app. right. apply list_elem_of_omap. by exists (Agent.Sending []).
Qed.

Lemma ended_step v before s s' : ended v before s → quiet_step s s' → ended v before s'.
Proof using clock_from_zero.
  intros [Hd Hv (rest & Hc & Hf) Hp] (Hs & Hquiet & _ & _).
  pose proof (Agent.pool_inv_step _ _ _ _ Hp Hs) as Hp'.
  destruct Hs as [js cl ws pc d w tr i p p' js' w' a Hi Hws|js cl ws pc d w tr pc' js' cl' a Hrs| |js cl ws pc d w w' tr];
    simpl in Hd, Hv, Hc, Hquiet; subst d.
  - destruct (worker_call _ _ _ _ _ _ _ _ _ Hws) as [[Ha ->]|(x & r & Ha & Hx & Hpend)].
    + split; simpl; [done|done| |done]. exists rest. by rewrite calls_of_app, Ha, app_nil_r.
    + destruct (perform_cancelled x w) as [e He].
      { eapply pending_nonempty; [exact Hp|]. by eapply pending_at. }
      rewrite He in Hx. injection Hx as <- <-. split; simpl; [done|done| |done].
      exists (rest ++ [(x, false)]). rewrite calls_of_app, Ha, Hc, app_assoc. split; [done|].
      apply Forall_app. split; [done|]. by apply Forall_singleton.
  - split; simpl; [done|done| |done]. exists rest.
    by rewrite calls_of_app, (run_sends_nothing _ _ _ _ _ _ _ _ _ _ Hrs), app_nil_r.
  - split; simpl; [done|done|by exists rest|done].
  - destruct Hquiet as [->|[]]; [|done]. split; simpl; [done|done|by exists rest|done].
Qed.

Lemma ended_signal w0 s late s' : delivered w0 s → interrupted s late s' → ∃ ks lks,
  accounts w0 (calls_of (Agent.p_trace s)) (Agent.p_world s) ks ∧
  length lks = length late ∧ Forall (λ k, (k ≤ 4)%nat) lks ∧ (w0.2 = [] → Forall (eq 1%nat) lks) ∧
  ended (put_all put (requests ks (calls_of (Agent.p_trace s)).*1 ++ requests lks late) (view w0))
    (calls_of (Agent.p_trace s)) s'.
Proof using same_key same_path good_address no_deadline quiet_waits.
  intros [_ [ks Hks] Hplain Hp] Hint. destruct Hint as [js cl ws pc w tr late Hlate].
  simpl in *. destruct (serve_late_counted late w) as (lks & Hlen & Hle & Hv & Hone).
  { apply Forall_forall. intros x Hx. apply (pending_plain _ x Hp Hplain). by eapply elem_of_submseteq. }
  exists ks, lks. split; [done|]. split; [done|]. split; [done|]. destruct Hks as (_ & Hv0 & Hclean).
  split; [intros Hnil; by apply Hone, Hclean|]. split; simpl.
  - done.
  - by rewrite Hv, Hv0, put_all_app.
  - exists []. by rewrite app_nil_r.
  - eapply (Agent.pool_inv_step ctx); [|apply Agent.step_env].
    eapply (Agent.pool_inv_step ctx); [exact Hp|apply Agent.step_cancel].
Qed.

(** The whole way, from the first report to the end of the agent: see
    [System.system_delivers], which states it of the whole process. *)
Definition outcome (w0 : link) (tr1 : list Agent.act) (late : list call) (now : Snapshot)
    (tr3 : list Agent.act) : Prop :=
  ∃ ks lks, let stored := requests ks (calls_of tr1).*1 ++ requests lks late in
    Forall2 (λ k (x : call * bool), (k ≤ 4)%nat ∧ (x.2 = true → (1 ≤ k)%nat)) ks (calls_of tr1) ∧
    length lks = length late ∧ Forall (λ k, (k ≤ 4)%nat) lks ∧
    now = put_all put stored (view w0) ∧
    (snapshot_wf (view w0) → ∀ n, Counters now !! n =
      match deltas_of n stored with
      | [] => Counters (view w0) !! n
      | ds => Some (wrap64 (default 0 (Counters (view w0) !! n) + foldr Z.add 0 ds))
      end) ∧
    (w0.2 = [] → Forall (eq 1%nat) ks ∧ Forall (eq 1%nat) lks ∧ Agent.failed tr1 = []) ∧
    (∃ rest, calls_of tr3 = calls_of tr1 ++ rest ∧ Forall (λ x : call * bool, x.2 = false) rest) ∧
    Agent.submitted tr3 ≡ₚ Agent.succeeded tr1 ++ Agent.failed tr3 ∧
    ∃ held, Agent.submitted tr1 ≡ₚ Agent.sent tr1 ++ held ∧ (length held ≤ 3 * Agent.workers_of rate_limit)%nat.

Theorem agent_delivers w0 s1 late s2 s3 :
  rtc quiet_step (Agent.start rate_limit w0) s1 → interrupted s1 late s2 →
  rtc quiet_step s2 s3 → Agent.p_run s3 = Agent.Returned →
  late ⊆+ pending (Agent.p_workers s1) ∧
  outcome w0 (Agent.p_trace s1) late (view (Agent.p_world s3)) (Agent.p_trace s3).
Proof using same_key same_path good_address no_deadline clock_from_zero quiet_waits.
  intros Hr1 Hsig Hr3 Hret. pose proof (delivered_run _ _ Hr1) as Hd. split; [by destruct Hsig|].
  destruct (ended_signal _ _ _ _ Hd Hsig) as (ks & lks & (Hks & _ & Hclean) & Hlen & Hle & Hone & He).
  eapply (rtc_invariant quiet_step (ended _ _)) in Hr3; [|intros x y Hx Hs; by eapply ended_step|exact He].
  destruct Hr3 as [_ Hv (rest & Hc & Hf) Hp]. exists ks, lks. split; [done|]. split; [done|]. split; [done|].
  split; [exact Hv|]. split; [intros Hwf n; rewrite Hv; by apply put_all_counter|].
  split; [intros Hnil; destruct (Hclean Hnil) as (_ & ? & ?); split; [done|]; split; [by apply Hone|by apply failed_calls]|].
  split; [by exists rest|]. split; [|by eapply delivered_held].
  destruct (Agent.drained _ _ Hp Hret) as (_ & Hsent & _).
  by rewrite <- Hsent, Agent.sent_split, (succeeded_calls _ _ _ Hc Hf).
Qed.
End system.

(** ** A server to run against *)
#[local] Existing Instance plain_gin.
#[local] Existing Instance stored_gzip.
#[local] Existing Instance plain_binding.
#[local] Existing Instance HttpClient.plain_url.
#[local] Existing Instance exact_router.

#[local] Instance still_timing : Timing (link (R := Memory.Repo) (E := Z)) := {
  clock _ := 0;
  wait_timer _ _ w := (true, w);
}.

(** What follows [http://localhost:8080]. *)
Definition demo_path (address : string) : string := String.substring 21 (String.length address) address.

Lemma demo_paths ep : ep ∈ ["/update"; "/updates"] →
  demo_path (HttpClient.endpoint demo_client ep) = ep ∧
  HttpClient.NewRequest_error (HttpClient.endpoint demo_client ep) = None.
Proof. intros [->|[->|[]%not_elem_of_nil]%elem_of_cons]%elem_of_cons; by vm_compute. Qed.
End AgentServer.
