(* ===== verification/System.v ===== *)
(** * From a sample to the repository: the agent's process and the server

    [AgentProcess] with the publisher of [AgentServer]: the reports are those of the
    collector, so what [AgentServer] assumes of them holds once the sampled values are
    finite.  The theorem follows the metrics from the sampling goroutines through
    queue, senders, client, a network that may lose requests and replies, handlers and
    service into the server's memory, up to the exit of the process after a signal. *)

From S2P Require Import Prelude GoStrings GoInt GoErrors Sha256 Domain GoFloat Ports Batches.
From S2P Require Import Json MetricsJson Http Middlewares Observer Service ServiceSpec.
From S2P Require Import Memory Retry HttpClient Handlers HandlersSpec Collector Agent EndToEnd.
From S2P Require Import Link AgentProcess AgentServer.
Open Scope Z_scope.

Module System.
Import MetricsJson Service ServiceSpec Handlers HandlersSpec EndToEnd Batches Link AgentProcess AgentServer.

(** Sampled values that JSON can carry. *)
Definition finite_reports (tr : list Agent.act) : Prop :=
  ∀ g k n v, Agent.Reporting g k ∈ tr → g !! n = Some v → finite v.

Lemma reported_plain m : reported m → (∀ v, Value m = Some v → finite v) → plain_metric m.
Proof.
  intros [(n & v & -> & Hn)|(d & -> & Hd)] Hfin.
  - destruct (known_visible n Hn) as [Hv Hne]. split; [|split; [done|split; [by apply TrimSpace_visible|done]]].
    apply sendable_gauge; [by apply utf8_visible|by apply Hfin].
  - split; [|split; [done|split; [by vm_compute|done]]]. by apply sendable_counter; [apply utf8_literal|].
Qed.

Lemma batch_plain g k b : report_ok g k → batch_of_maps g k b → (∀ n v, g !! n = Some v → finite v) →
  Forall plain_metric b.
Proof.
  intros Hok Hb Hfin. destruct (batch_reported _ _ _ Hok Hb) as [Hall _].
  rewrite Forall_forall in Hall |- *. intros m Hm. apply reported_plain; [by apply Hall|].
  intros v Hv. destruct Hb as (lg & lc & Hlg & _ & ->). unfold build in Hm.
  apply elem_of_app in Hm as [([n x] & -> & Hin)%list_elem_of_fmap|([n x] & -> & Hin)%list_elem_of_fmap]; [|done].
  injection Hv as <-. rewrite Hlg, elem_of_map_to_list in Hin. by eapply Hfin.
Qed.

Section system.
Context {E : Type} `{Gin} `{Gzip} `{Binding} `{GinRouter} `{HttpClient.NetURL}.
Context (svc : Service E) (error_text : error → string).
Context (order : ∀ A, gmap string A → list (string * A)) (grow : nat).
Context (skey : string) (server_ctx ctx : Context) (ip : string) (path_of : string → string).
Context (c : HttpClient.Client) (rate_limit : Z).

#[local] Abbreviation link := (link (R := Memory.Repo) (E := E)).
Context `{Timing link}.
#[local] Existing Instance transport.
#[local] Instance sender_publisher : Publisher link :=
  publisher svc error_text order grow skey server_ctx ip path_of c.
#[local] Abbreviation Process := (Process link).
Implicit Types s : Process.

Context (same_key : HttpClient.key c = TrimSpace skey).
Context (same_path : ∀ ep, ep ∈ ["/update"; "/updates"] → path_of (HttpClient.endpoint c ep) = ep).
Context (good_address : ∀ ep, ep ∈ ["/update"; "/updates"] →
  HttpClient.NewRequest_error (HttpClient.endpoint c ep) = None).
Context (no_deadline : ctx_done ctx = None).
Context (clock_from_zero : ∀ w : link, 0 ≤ clock w).
Context (quiet_waits : ∀ ctx d (w : link) b w', wait_timer ctx d w = (b, w') →
  w_repo w'.1.1 = w_repo w.1.1 ∧ w'.2 = w.2).

#[local] Abbreviation view w := (Memory.view (w_repo ((w : link).1.1))).
#[local] Abbreviation quiet_step :=
  (quiet_step svc error_text order grow skey server_ctx ctx ip path_of c rate_limit).
#[local] Abbreviation serve_late := (serve_late svc error_text order grow skey server_ctx ctx ip path_of c).

(** A goroutine of the process goes on, and what was sampled is finite. *)
Definition quiet s s' : Prop :=
  ∃ l, AgentProcess.step ctx rate_limit l s s' ∧ l ≠ Outside ∧ finite_reports (Agent.p_trace (agent s')).

(** The signal, with the calls that are on their way. *)
Inductive terminated : Process → list call → Process → Prop :=
  | sigterm st stop d g h js cl ws pc w tr m late : late ⊆+ pending ws →
      terminated (mkProcess (Collector.mkCollector st stop d g h) (Agent.mkState js cl ws pc false w tr) m) late
        (mkProcess (Collector.mkCollector st stop true g h)
          (Agent.mkState js cl ws pc true (serve_late late w) tr) m).

Lemma worker_world k p js cl w p' js' w' a :
  Agent.worker_step k p js cl w p' js' w' a → w' = w ∨ a ≠ [].
Proof. destruct 1; auto. Qed.

Lemma submitted_plain s : report_inv s → process_inv rate_limit s → finite_reports (Agent.p_trace (agent s)) →
  Forall (Forall plain_metric) (Agent.submitted (Agent.p_trace (agent s))).
Proof.
  intros [_ Hrep Hbat] _ Hfin. apply Forall_forall. intros b Hb.
  destruct (Hbat b (or_introl Hb)) as (g & k & Hin & Hm).
  eapply batch_plain; [by apply Hrep|done|]. intros n v Hn. by eapply Hfin.
Qed.

(** A step of the process is one of the agent that [AgentServer] allows, or none. *)
Lemma quiet_part s s' : process_inv rate_limit s → report_inv s → quiet s s' →
  (agent s' = agent s ∨ quiet_step (agent s) (agent s')) ∧ process_inv rate_limit s' ∧ report_inv s'.
Proof.
  intros Hp Hr (l & Hs & Hl & Hfin). pose proof (process_inv_step _ _ _ _ _ Hp Hs) as Hp'.
  pose proof (report_inv_step _ _ _ _ _ Hp Hr Hs) as Hr'. split; [|done].
  pose proof (submitted_plain _ Hr' Hp' Hfin) as Hplain.
  destruct Hs as [| |col js cl ws pc d w tr m i p p' js' w' acts Hi Hw|col js cl ws pc d w tr pc' js' cl' acts Hrun Hsh| | | |];
    try by left; simpl in *.
  - right. split; [by eapply Agent.step_worker|]. split; [|done].
    destruct (worker_world _ _ _ _ _ _ _ _ _ Hw) as [->|Ha]; [by left|right]. simpl.
    intros Happ%(f_equal length). rewrite length_app in Happ. destruct acts; [done|simpl in Happ; lia].
  - right. split; [by eapply Agent.step_run|]. split; [by left|done].
Qed.

Lemma quiet_run s s' : rtc quiet s s' → process_inv rate_limit s → report_inv s →
  rtc quiet_step (agent s) (agent s') ∧ process_inv rate_limit s' ∧ report_inv s'.
Proof.
  induction 1 as [s|s1 s2 s3 Hs _ IH]; intros Hp Hr; [by split; [apply rtc_refl|]|].
  destruct (quiet_part _ _ Hp Hr Hs) as (Hq & Hp2 & Hr2). destruct (IH Hp2 Hr2) as (Hrest & ? & ?).
  split; [|done]. destruct Hq as [Heq|Hq]; [by rewrite <- Heq|by eapply rtc_l].
Qed.

Lemma terminated_steps s late s' : terminated s late s' → rtc (any_step ctx rate_limit) s s'.
Proof.
  destruct 1. eapply rtc_l; [exists Outside; apply signal_step|].
  apply rtc_once. exists Outside. apply outside_step.
Qed.

Lemma terminated_inv s late s' : terminated s late s' → process_inv rate_limit s → report_inv s →
  process_inv rate_limit s' ∧ report_inv s'.
Proof.
  intros Hs%terminated_steps Hp Hr.
  apply (rtc_invariant _ (λ s, process_inv rate_limit s ∧ report_inv s)) in Hs; [done| |done].
  intros x y [Hx Hy] [l Hl]. split; [by eapply process_inv_step|by eapply report_inv_step].
Qed.

(** [C1] From the samples to the repository, over a network that may lose a request,
    lose the reply to one that was served, or break off in a reply, when only this agent
    uses the server and the samples are finite.  The process samples, queues and sends; a
    signal comes at [s1]; the process ends at [s3].  Then the contents of the server are
    those of storing, one after the other, the payloads of the calls that had returned by
    the signal and of those on their way then ([late]), each as often as it reached the
    server: at most four times (the client repeats a request whose reply was lost), at
    least once if the call returned nil, and exactly once if the network loses nothing, in
    which case no batch fails either.  [PollCount] has grown by the sum of what was
    stored, modulo 2^64.  No call succeeds after the signal: every batch submitted was
    sent by then, or its sending failed; of those submitted before the signal at most
    three per sender had no call that returned, the one it had in hand and two in the
    queue. *)
Theorem system_delivers w0 s1 late s2 s3 : snapshot_wf (view w0) →
  rtc quiet (AgentProcess.start rate_limit w0) s1 → terminated s1 late s2 → rtc quiet s2 s3 →
  main s3 = Exited →
  let tr1 := Agent.p_trace (agent s1) in
  let tr3 := Agent.p_trace (agent s3) in
  let now := view (Agent.p_world (agent s3)) in
  late ⊆+ pending (Agent.p_workers (agent s1)) ∧
  (∃ ks lks, let stored := requests ks (calls_of tr1).*1 ++ requests lks late in
    Forall2 (λ k (x : call * bool), (k ≤ 4)%nat ∧ (x.2 = true → (1 ≤ k)%nat)) ks (calls_of tr1) ∧
    length lks = length late ∧ Forall (λ k, (k ≤ 4)%nat) lks ∧
    now = put_all put stored (view w0) ∧
    Counters now !! Collector.MPollCount =
      match deltas_of Collector.MPollCount stored with
      | [] => Counters (view w0) !! Collector.MPollCount
      | ds => Some (wrap64 (default 0 (Counters (view w0) !! Collector.MPollCount) + foldr Z.add 0 ds))
      end ∧
    (w0.2 = [] → Forall (eq 1%nat) ks ∧ Forall (eq 1%nat) lks ∧ Agent.failed tr1 = [])) ∧
  (∃ rest, calls_of tr3 = calls_of tr1 ++ rest ∧ Forall (λ x : call * bool, x.2 = false) rest) ∧
  Agent.submitted tr3 ≡ₚ Agent.succeeded tr1 ++ Agent.failed tr3 ∧
  ∃ held, Agent.submitted tr1 ≡ₚ Agent.sent tr1 ++ held ∧
    (length held ≤ 3 * Agent.workers_of rate_limit)%nat.
Proof using same_key same_path good_address no_deadline clock_from_zero quiet_waits.
  intros Hwf Hr1 Hsig Hr3 Hex. cbv zeta.
  destruct (quiet_run _ _ Hr1 (process_start_inv rate_limit w0) (report_start rate_limit w0)) as (Hq1 & Hp1 & Hi1).
  destruct (terminated_inv _ _ _ Hsig Hp1 Hi1) as [Hp2 Hi2].
  destruct (quiet_run _ _ Hr3 Hp2 Hi2) as (Hq3 & Hp3 & _).
  destruct (exited_clean _ _ Hp3 Hex) as (_ & Hret & _).
  assert (interrupted svc error_text order grow skey server_ctx ctx ip path_of c (agent s1) late (agent s2))
    as Hint by (destruct Hsig; by constructor).
  destruct (agent_delivers svc error_text order grow skey server_ctx ctx ip path_of c rate_limit same_key
    same_path good_address no_deadline clock_from_zero) with (w0 := w0) (s1 := agent s1) (late := late)
    (s2 := agent s2) (s3 := agent s3) as (Hlate & ks & lks & Hks & Hlen & Hle & Hv & Hc & Hone & Hrest & Hsub & Hheld);
    try done.
  { intros ctx' d w b w' Hw. by destruct (quiet_waits ctx' d w b w' Hw) as [-> ?]. }
  split; [exact Hlate|]. split; [|done]. exists ks, lks. by repeat split; try done; [apply Hc|apply Hone..].
Qed.
End system.

(** ** Example: one poll, one report, and the reply to it is lost *)
#[local] Existing Instance plain_gin.
#[local] Existing Instance stored_gzip.
#[local] Existing Instance plain_binding.
#[local] Existing Instance HttpClient.plain_url.
#[local] Existing Instance exact_router.
#[local] Existing Instance still_timing.

(** The first tick of the runtime sampler, and the report of what it leaves. *)
Definition demo_tick : list Collector.access := Collector.runtime_tick Collector.demo_ms f64_zero.
Definition demo_stats : Collector.stats :=
  fold_left (λ s a, Collector.run_access a s) demo_tick Collector.newStats.
Definition demo_reported : gmap string float64 * gmap string Z := Collector.Snapshot demo_stats.
Definition demo_batch : list Metrics :=
  build (map_to_list demo_reported.1) (map_to_list demo_reported.2).

Lemma demo_batch_maps : batch_of_maps demo_reported.1 demo_reported.2 demo_batch.
Proof. by apply batch_of_maps_build. Qed.

Lemma demo_size : (size demo_reported.1 + size demo_reported.2 ≠ 0)%nat.
Proof. by vm_compute. Qed.

Lemma demo_nonempty : demo_batch ≠ [].
Proof. intros E%(f_equal length). vm_compute in E. discriminate. Qed.

Lemma demo_finite n v : demo_reported.1 !! n = Some v → finite v.
Proof.
  assert (Forall (λ kv : string * float64, finite kv.2) (map_to_list demo_reported.1)) as Hall.
  { let l := eval vm_compute in (map_to_list demo_reported.1) in
      change (Forall (λ kv : string * float64, finite kv.2) l).
    repeat (apply Forall_cons; split; [by vm_compute|]). constructor. }
  intros Hn%elem_of_map_to_list. rewrite Forall_forall in Hall. by apply (Hall (n, v)).
Qed.

Lemma demo_report_ok : report_ok demo_reported.1 demo_reported.2.
Proof.
  split.
  - assert (Forall (λ kv : string * float64, kv.1 ∈ Collector.fixed_names) (map_to_list demo_reported.1)) as Hall
      by (apply (bool_decide_unpack _); by vm_compute).
    intros n v Hn%elem_of_map_to_list. rewrite Forall_forall in Hall. left. by apply (Hall (n, v)).
  - change demo_reported.2 with ({[Collector.MPollCount := 1]} : gmap string Z).
    intros n d [<- <-]%lookup_singleton_Some. by vm_compute.
Qed.

Lemma demo_shown : Collector.Snapshot demo_stats = (demo_reported.1, demo_reported.2).
Proof. apply surjective_pairing. Qed.

Lemma demo_plain : Forall plain_metric demo_batch.
Proof. eapply batch_plain; [apply demo_report_ok|apply demo_batch_maps|apply demo_finite]. Qed.

Definition of_demo (a : Agent.act) : Prop :=
  match a with Agent.Reporting g k => g = demo_reported.1 ∧ k = demo_reported.2 | _ => True end.

Lemma demo_traces tr : Forall of_demo tr → finite_reports tr.
Proof.
  intros Hf g k n v Hin Hn. rewrite Forall_forall in Hf. destruct (Hf _ Hin) as [-> _]. by eapply demo_finite.
Qed.

Lemma demo_clock (w : link (R := Memory.Repo) (E := Z)) : 0 ≤ clock w.
Proof. reflexivity. Qed.

Lemma demo_waits ctx d (w : link (R := Memory.Repo) (E := Z)) b w' : wait_timer ctx d w = (b, w') →
  w_repo w'.1.1 = w_repo w.1.1 ∧ w'.2 = w.2.
Proof. by intros [= _ <-]. Qed.

Lemma demo_waits_view ctx d (w : link (R := Memory.Repo) (E := Z)) b w' : wait_timer ctx d w = (b, w') →
  repo_view (w_repo w'.1.1) = repo_view (w_repo w.1.1) ∧ w'.2 = w.2.
Proof. by intros [= _ <-]. Qed.

#[local] Abbreviation demo_process := (Process (link (R := Memory.Repo) (E := Z))).
#[local] Abbreviation demo_quiet := (quiet demo_svc (λ _, EmptyString) (λ A m, map_to_list m) 0
  " k " Background Background "10.0.0.1" demo_path demo_client 1).
#[local] Abbreviation demo_terminated := (terminated demo_svc (λ _, EmptyString) (λ A m, map_to_list m) 0
  " k " Background Background "10.0.0.1" demo_path demo_client).

(** The server is empty, and will lose one reply. *)
Definition demo_link : link (R := Memory.Repo) (E := Z) := ((demo_w, []), [ReplyLost (OpError ECONNRESET)]).

Lemma demo_tick_runs todo st stop d h a m : Forall of_demo (Agent.p_trace a) →
  rtc demo_quiet (mkProcess (Collector.mkCollector st stop d (Collector.Ticking todo) h) a m : demo_process)
    (mkProcess (Collector.mkCollector (fold_left (λ s a, Collector.run_access a s) todo st) stop d
      (Collector.Ticking []) h) a m).
Proof.
  intros Ha. revert st. induction todo as [|x todo IH]; intros st; [apply rtc_refl|].
  eapply rtc_l; [|apply IH]. eexists. split; [apply sampler_step, Collector.loop_access|].
  split; [discriminate|by apply demo_traces].
Qed.

Ltac quietly h := eapply rtc_l;
  [eexists; split; [h|split; [discriminate|apply demo_traces; repeat constructor]]|].
Tactic Notation "go" uconstr(c) := quietly ltac:(eapply c).
Tactic Notation "loop" uconstr(c) := quietly ltac:(eapply run_step; [eapply c|no_reports]).
Tactic Notation "sender" uconstr(c) :=
  quietly ltac:(eapply (sender_step _ _ _ _ _ _ _ _ _ _ _ 0); [reflexivity|eapply c]).
Ltac report := quietly ltac:(eapply run_step; [eapply (Agent.run_tick _ _ _ _ _ _ _ _ demo_size demo_batch_maps)|
  intros g k Hin; apply list_elem_of_singleton in Hin; injection Hin as -> ->; exact demo_shown]).
#[local] Opaque demo_stats demo_reported demo_batch demo_tick.

Lemma system_execution : ∃ s1 s2 s3 : demo_process,
  rtc demo_quiet (AgentProcess.start 1 demo_link) s1 ∧ demo_terminated s1 [] s2 ∧ rtc demo_quiet s2 s3 ∧
  main s3 = Exited ∧ calls_of (Agent.p_trace (agent s1)) = [(Batch demo_batch, true)] ∧
  Agent.p_world (agent s3) = Agent.p_world (agent s1) ∧
  Memory.view (w_repo (Agent.p_world (agent s1)).1.1) = put_all put (demo_batch ++ demo_batch) empty_Snapshot.
Proof.
  destruct (batch_repeated (HL := Memory.memory_laws) demo_svc (λ _, EmptyString) (λ A m, map_to_list m) 0 " k "
    Background "10.0.0.1" demo_path demo_waits_view Background demo_client demo_batch (demo_w, [])
    (OpError ECONNRESET) ltac:(by vm_compute) (proj1 (demo_paths "/updates" ltac:(right; left)))
    (proj2 (demo_paths "/updates" ltac:(right; left))) demo_plain demo_nonempty eq_refl eq_refl (λ _ _, eq_refl))
    as (w' & Hsend%publisher_batch & Hv).
  eexists _, _, _. split_and!.
  - go (sampler_step _ _ _ _ _ _ _ _ _ _ _ (Collector.loop_tick _ _ _ demo_tick (ex_intro _ _ (ex_intro _ _ eq_refl)))).
    etrans; [apply demo_tick_runs; constructor|].
    go (sampler_step _ _ _ _ _ _ _ _ _ _ _ (Collector.loop_again _ _ _)).
    report.
    loop (Agent.run_submit _ _ _ _ _ process_room).
    sender (Agent.worker_receive _ _ _ _ _ demo_nonempty).
    sender (Agent.worker_sent _ _ _ _ _ _ Hsend).
    apply rtc_refl.
  - apply sigterm, submseteq_nil_l.
  - loop (Agent.run_stop _ _ _).
    sender (Agent.worker_exit _ _).
    loop (Agent.run_return _ _ _ _ _ process_exited).
    quietly ltac:(apply stop_step; reflexivity).
    quietly ltac:(apply sampler_step, Collector.loop_return; reflexivity).
    quietly ltac:(apply host_step, Collector.loop_return; reflexivity).
    quietly ltac:(apply exit_step; split; reflexivity).
    apply rtc_refl.
  - reflexivity.
  - reflexivity.
  - reflexivity.
  - exact Hv.
Qed.
(** Its sender got nil; the server shows two polls, of the one there was. *)
Lemma system_delivers_witness : ∃ s1 s2 s3 : demo_process,
  rtc demo_quiet (AgentProcess.start 1 demo_link) s1 ∧ demo_terminated s1 [] s2 ∧ rtc demo_quiet s2 s3 ∧
  main s3 = Exited ∧
  Counters (Memory.view (w_repo (Agent.p_world (agent s3)).1.1)) !! Collector.MPollCount = Some 2 ∧
  ∃ k, (1 ≤ k ≤ 4)%nat ∧ Memory.view (w_repo (Agent.p_world (agent s3)).1.1) =
    put_all put (concat (replicate k demo_batch)) (Memory.view (w_repo demo_w)).
Proof.
  destruct system_execution as (s1 & s2 & s3 & Hr1 & Hsig & Hr3 & Hex & Hcalls & Hw & Hv).
  exists s1, s2, s3. split; [exact Hr1|]. split; [exact Hsig|]. split; [exact Hr3|]. split; [exact Hex|].
  split; [rewrite Hw, Hv; vm_compute; reflexivity|].
  assert (snapshot_wf (Memory.view (w_repo demo_w))) as Hwf by (apply map_Forall_empty).
  destruct (system_delivers demo_svc (λ _, EmptyString) (λ A m, map_to_list m) 0 " k " Background Background
    "10.0.0.1" demo_path demo_client 1 ltac:(by vm_compute) (λ ep Hep, proj1 (demo_paths ep Hep))
    (λ ep Hep, proj2 (demo_paths ep Hep)) eq_refl demo_clock demo_waits demo_link s1 [] s2 s3 Hwf Hr1 Hsig Hr3 Hex)
    as (_ & (ks & lks & Hks & Hlen & _ & Hnow & _) & _).
  rewrite Hcalls in Hks, Hnow. apply Forall2_cons_inv_r in Hks as (k & ks' & [Hk Hok] & Hnil & ->).
  apply Forall2_nil_inv_r in Hnil as ->. apply nil_length_inv in Hlen as ->.
  exists k. split; [split; [by apply Hok|done]|]. rewrite Hnow. unfold requests. cbn. by rewrite !app_nil_r.
Defined.
End System.
