(* ===== verification/AuditSinks.v ===== *)
(** * internal/adapters/audit: where audit events go

    [AuditFile] is the writer of newline-delimited JSON (file/writer.go) over any
    file that can be appended to; [AuditRemote] the client that posts events
    (remote/client.go) over the transport of the HTTP publisher.  Both encode an
    [audit.Event] as [encoding/json] does. *)

From S2P Require Import Prelude GoStrings GoInt GoErrors Domain GoFloat Ports.
From S2P Require Import Json MetricsJson Http Retry HttpClient Observer.
Open Scope Z_scope.

Module AuditEvents.
Import Json MetricsJson Audit.

(** A nil slice is [null]. *)
Definition encode_names (l : list string) : string :=
  match l with [] => "null" | _ => array_text compact (encode_string <$> l) end.

Definition encode_event (e : Event) : string :=
  object_text compact [("ts", FormatInt (Timestamp e)); ("metrics", encode_names (EMetrics e));
                       ("ip_address", encode_string (IPAddress e))].

(** A reader of the log. *)
Definition read_string (v : value) : option string := match v with Str s => Some s | _ => None end.
Definition read_names (v : value) : option (list string) :=
  match v with Null => Some [] | Arr l => mapM read_string l | _ => None end.
Definition decode_event (t : string) : option Event :=
  match decode_first t with
  | Some (Obj [("ts", Number n); ("metrics", names); ("ip_address", Str ip)]) =>
      ts ← ok_opt (ParseInt n); ms ← read_names names; Some (mkEvent ts ms ip)
  | _ => None
  end.

(** Events the encoder keeps exactly: what the service makes for UTF-8 names. *)
Record event_ok (e : Event) : Prop := mkEventOk {
  ok_ts : in_int64 (Timestamp e);
  ok_metrics : Forall utf8 (EMetrics e);
  ok_ip : utf8 (IPAddress e);
}.

Definition names_value (l : list string) : value :=
  match l with [] => Null | _ => Arr (Str <$> l) end.

Lemma read_names_value ms : read_names (names_value ms) = Some ms.
Proof.
  destruct ms as [|m ms]; [done|]. change (mapM read_string (Str <$> m :: ms) = Some (m :: ms)).
  by apply mapM_fmap_Some.
Qed.

Lemma wire_names ms : Forall utf8 ms → wire 2 (encode_names ms) (names_value ms).
Proof.
  intros Hms. destruct ms as [|m ms].
  - intros [|fuel] depth rest Hf _ _; [simpl in Hf; lia|]. reflexivity.
  - change (encode_names (m :: ms)) with (array_text compact (encode_string <$> m :: ms)).
    apply wire_array; [apply compact_ok| | |unfold max_depth; lia].
    + apply Forall2_fmap, Forall_Forall2_diag. eapply Forall_impl; [exact Hms|]. intros s Hs.
      by apply wire_string.
    + apply Forall_fmap, Forall_true. intros s. done.
Qed.

Lemma wire_event e : event_ok e → wire 1 (encode_event e)
  (Obj [("ts", Number (FormatInt (Timestamp e))); ("metrics", names_value (EMetrics e));
        ("ip_address", Str (IPAddress e))]).
Proof.
  intros [Hts Hms Hip]. apply wire_object; [apply compact_ok| |unfold max_depth; lia].
  constructor; [split; [done|split; [by apply utf8_literal|by apply wire_delta]]|].
  constructor; [split; [done|split; [by apply utf8_literal|by apply wire_names]]|].
  constructor; [split; [done|split; [by apply utf8_literal|by apply wire_string]]|constructor].
Qed.

Lemma decode_encode_event e : event_ok e → decode_event (encode_event e) = Some e.
Proof.
  intros He. unfold decode_event. rewrite (decode_wire _ _ (wire_event e He)).
  cbv beta iota. rewrite ParseInt_FormatInt by apply He. cbn [ok_opt mbind option_bind].
  rewrite read_names_value. by destruct e.
Qed.
End AuditEvents.

Module AuditFile.
Import Json MetricsJson Audit AuditEvents.

(** [os.OpenFile] for appending, [Write] and [Close] on the file at a path. *)
Class AppendFile (F : Type) := {
  content : F → string → option string;
  OpenAppend : string → io F error unit;
  AppendTo : string → string → io F error unit;
  CloseFile : string → io F error unit;
}.

(** Opening creates the file; a failed write may have written a part. *)
Class AppendLaws (F : Type) `{AppendFile F} := {
  OpenAppend_ok p w w' : OpenAppend p w = (Ok tt, w') →
    content w' p = Some (default EmptyString (content w p));
  OpenAppend_err p w e w' : OpenAppend p w = (Err e, w') → content w' p = content w p;
  AppendTo_ok p s w w' c : AppendTo p s w = (Ok tt, w') → content w p = Some c →
    content w' p = Some (c +:+ s);
  AppendTo_err p s w e w' c : AppendTo p s w = (Err e, w') → content w p = Some c →
    ∃ a b, s = a +:+ b ∧ content w' p = Some (c +:+ a);
  CloseFile_content p w r w' : CloseFile p w = (r, w') → content w' p = content w p;
}.

Definition newline : string := String (byte 10) EmptyString.

Section writer.
Context {F : Type} `{AppendFile F}.

(** [Writer.Notify]; a nil writer is [None].  The mutex makes calls on one
    writer exclusive. *)
Definition Notify (path : option string) (_ : Context) (evt : Event) : io F error unit := λ w,
  match path with
  | None | Some EmptyString => (Ok tt, w)
  | Some path =>
      let payload := encode_event evt in
      match OpenAppend path w with
      | (Err err, w) => (Err (Wrap "open audit file: " err), w)
      | (Ok _, w) =>
          let '(retErr, w) := match AppendTo path (payload +:+ newline) w with
                              | (Err err, w) => (Err (Wrap "write audit file: " err), w)
                              | (Ok _, w) => (Ok tt, w)
                              end in
          match CloseFile path w, retErr with
          | (Err cerr, w), Ok _ => (Err (Wrap "close audit file: " cerr), w)
          | (_, w), _ => (retErr, w)
          end
      end
  end.

(** Calls one after the other, and what each returned. *)
Fixpoint notify_all (path : string) (evts : list Event) (w : F) : list (result error unit) * F :=
  match evts with
  | [] => ([], w)
  | e :: evts => let '(r, w) := Notify (Some path) Background e w in
                 let '(rs, w) := notify_all path evts w in (r :: rs, w)
  end.
End writer.

(** ** Lines *)

Definition is_newline (c : ascii) : bool := bool_decide (c = byte 10).
#[global] Arguments is_newline : simpl never.

(** The lines of a text, the last one without its newline dropped when empty. *)
Fixpoint lines (s cur : string) : list string :=
  match s with
  | EmptyString => match cur with EmptyString => [] | _ => [cur] end
  | String c s => if is_newline c then cur :: lines s EmptyString
                  else lines s (cur +:+ String c EmptyString)
  end.

Fixpoint one_line (s : string) : bool :=
  match s with EmptyString => true | String c s => negb (is_newline c) && one_line s end.

(** A reader of the whole log. *)
Definition decode_log (s : string) : option (list Event) := mapM decode_event (lines s EmptyString).

Lemma one_line_app s t : one_line (s +:+ t) = one_line s && one_line t.
Proof. induction s as [|c s IH]; [done|]. rewrite str_cons_app. simpl. by rewrite IH, andb_assoc. Qed.

Lemma lines_line s rest cur : one_line s = true →
  lines (s +:+ (newline +:+ rest)) cur = (cur +:+ s) :: lines rest EmptyString.
Proof.
  revert cur. induction s as [|c s IH]; intros cur Hs.
  - rewrite str_app_nil_r. done.
  - simpl in Hs. apply andb_prop in Hs as [Hc Hs]. rewrite str_cons_app. cbn [lines].
    apply negb_true_iff in Hc. rewrite Hc, IH by done. by rewrite <- str_app_assoc.
Qed.

(** Behind a newline a new line starts. *)
Lemma lines_app s rest cur :
  lines (s +:+ newline +:+ rest) cur = lines (s +:+ newline) cur ++ lines rest EmptyString.
Proof.
  revert cur. induction s as [|c s IH]; intros cur; [done|]. rewrite !str_cons_app. cbn [lines].
  destruct (is_newline c); [|apply IH]. simpl. f_equal. apply IH.
Qed.

Lemma one_line_digits s n v : digits_value s n = Some v → one_line s = true.
Proof.
  revert n. induction s as [|c s IH]; intros n; [done|]. cbn [digits_value one_line].
  destruct (digit_val c) as [d|] eqn:Hd; [|done]. intros H. rewrite (IH _ H), andb_true_r.
  apply negb_true_iff, bool_decide_false. intros ->. by vm_compute in Hd.
Qed.
Lemma one_line_int z : in_int64 z → one_line (FormatInt z) = true.
Proof.
  unfold FormatInt. intros Hz. destruct (z <? 0) eqn:E; simpl.
  - eapply one_line_digits, FormatUint_value. unfold64. lia.
  - eapply one_line_digits, FormatUint_value. unfold64. lia.
Qed.

Lemma between_not_newline lo hi c : 10 < lo → between lo hi c = true → is_newline c = false.
Proof.
  intros Hlo Hc. apply bool_decide_false. intros ->. unfold between in Hc. change (code (byte 10)) with 10 in Hc. lia.
Qed.

Lemma cont_not_newline c : cont c = true → is_newline c = false.
Proof. by apply between_not_newline. Qed.

Lemma code_not_newline n c : n ≠ 10 → bool_decide (code c = n) = true → is_newline c = false.
Proof. intros Hn Hc%bool_decide_eq_true. apply bool_decide_false. intros ->. by destruct Hn. Qed.

(** The bytes of a rune of two bytes or more are no newlines. *)
Lemma take_rune_one_line a b r s t :
  take_rune s = Some (String a (String b r), t) → one_line (String a (String b r)) = true.
Proof.
  intros H. cbn [one_line]. destruct s as [|x s1]; [done|]. unfold take_rune in H.
  destruct (between 0 127 x); [done|].
  repeat (match type of H with
          | (if ?c then _ else _) = _ => destruct c eqn:?
          | match ?y with _ => _ end = _ => destruct y
          end; try done); simplify_eq; cbn [one_line];
    repeat match goal with
    | H : _ && _ = true |- _ => apply andb_prop in H as [? ?]
    | H : _ || _ = true |- _ => apply orb_prop in H as [?|?]
    end;
    repeat match goal with
    | |- context [is_newline ?c] =>
        replace (is_newline c) with false
          by (symmetry; first [by apply cont_not_newline
              | eapply between_not_newline; [|eassumption]; lia
              | eapply code_not_newline; [|eassumption]; lia])
    end; done.
Qed.

Lemma one_line_chunk s r t : take_rune s = Some (r, t) → one_line (encode_chunk r) = true.
Proof.
  destruct r as [|a [|b r]]; intros H; [done| |].
  - clear H. destruct a as [[] [] [] [] [] [] [] []]; reflexivity.
  - unfold encode_chunk. do 2 (case_bool_decide; [done|]). by eapply take_rune_one_line.
Qed.

Lemma one_line_chars n s : one_line (encode_chars n s) = true.
Proof.
  revert s. induction n as [|n IH]; intros [|c s]; try done.
  cbn [encode_chars]. destruct (take_rune (String c s)) as [[r rest]|] eqn:Hr;
    rewrite one_line_app, IH, andb_true_r; [by eapply one_line_chunk|done].
Qed.

Lemma one_line_string s : one_line (encode_string s) = true.
Proof. unfold encode_string. cbn [one_line]. rewrite one_line_app, one_line_chars. done. Qed.

Lemma one_line_join l : Forall (λ t, one_line t = true) l → one_line (join_comma l) = true.
Proof.
  induction 1 as [|t [|u l] Ht Hl IH]; [done..|].
  change (one_line (t +:+ "," +:+ join_comma (u :: l)) = true). by rewrite !one_line_app, Ht, IH.
Qed.

Lemma one_line_object l : Forall (λ kt, one_line kt.2 = true) l → one_line (object_text compact l) = true.
Proof.
  intros Hl. assert (one_line (join_comma (layout_member compact <$> l)) = true) as Hj.
  { apply one_line_join, Forall_fmap. eapply Forall_impl; [exact Hl|]. intros [k t] Ht. cbn [snd] in Ht.
    change (one_line (encode_string k +:+ ":" +:+ t) = true). by rewrite !one_line_app, one_line_string, Ht. }
  destruct l as [|kt l]; [done|].
  change (one_line ("{" +:+ (join_comma (layout_member compact <$> kt :: l) +:+ "}")) = true).
  by rewrite one_line_app, one_line_app, Hj.
Qed.

Lemma one_line_array l : Forall (λ t, one_line t = true) l → one_line (array_text compact l) = true.
Proof.
  intros Hl. assert (one_line (join_comma (String.append EmptyString <$> l)) = true) as Hj.
  { by apply one_line_join, Forall_fmap. }
  destruct l as [|t l]; [done|].
  change (one_line ("[" +:+ (join_comma (String.append EmptyString <$> t :: l) +:+ "]")) = true).
  by rewrite one_line_app, one_line_app, Hj.
Qed.

Lemma one_line_event e : in_int64 (Timestamp e) → one_line (encode_event e) = true.
Proof.
  intros Ht. apply one_line_object. repeat constructor; cbn [snd].
  - by apply one_line_int.
  - destruct (EMetrics e) as [|m ms]; [done|]. apply one_line_array, Forall_fmap, Forall_true.
    intros x. apply one_line_string.
  - apply one_line_string.
Qed.

(** ** The log over several calls *)

Inductive outcome : Type := Written | Refused | Torn.

(** What a result says of the file: a call that fails in opening leaves it alone,
    one that fails in closing has written its line. *)
Definition outcome_of (r : result error unit) : outcome :=
  match r with
  | Err (Wrap p _) => if bool_decide (p = "open audit file: ") then Refused
                      else if bool_decide (p = "write audit file: ") then Torn else Written
  | _ => Written
  end.
#[global] Instance outcome_eq_dec : EqDecision outcome.
Proof. solve_decision. Defined.

Definition kept (evts : list Event) (rs : list (result error unit)) : list Event :=
  omap (λ er, if bool_decide (outcome_of er.2 = Written) then Some er.1 else None) (zip evts rs).

(** Empty, or ended by a newline. *)
Definition whole (s : string) : Prop := s = EmptyString ∨ ∃ t, s = t +:+ newline.

Lemma lines_whole s rest : whole s → lines (s +:+ rest) EmptyString = lines s EmptyString ++ lines rest EmptyString.
Proof. intros [->|[t ->]]; [done|]. rewrite <- str_app_assoc. apply lines_app. Qed.

Lemma mapM_snoc {A B} (f : A → option B) l a b :
  f a = Some b → mapM f (l ++ [a]) = (λ k, k ++ [b]) <$> mapM f l.
Proof.
  intros Hf. induction l as [|x l IH]; simpl; [by rewrite Hf|].
  rewrite IH. destruct (f x); [|done]. by destruct (mapM f l).
Qed.

Lemma substring_prefix n s : ∃ t, s = String.substring 0 n s +:+ t.
Proof.
  revert s. induction n as [|n IH]; intros [|c s]; [by exists EmptyString|by exists (String c s)|by exists EmptyString|].
  destruct (IH s) as [t Ht]. exists t. simpl. rewrite str_cons_app. by rewrite <- Ht.
Qed.

Lemma decode_log_line s e : whole s → event_ok e →
  decode_log (s +:+ (encode_event e +:+ newline)) = (λ l, l ++ [e]) <$> decode_log s.
Proof.
  intros Hs He. unfold decode_log. rewrite lines_whole by done.
  pose proof (lines_line (encode_event e) EmptyString EmptyString) as Hl. rewrite str_app_nil_r in Hl.
  rewrite Hl by apply one_line_event, He. rewrite str_app_nil_l. by apply mapM_snoc, decode_encode_event.
Qed.

Section log.
Context {F : Type} `{HF : AppendLaws F}.
Implicit Types w : F.

Lemma Notify_content path ctx e w r w' : path ≠ EmptyString →
  Notify (Some path) ctx e w = (r, w') →
  let s := default EmptyString (content w path) in
  match outcome_of r with
  | Written => content w' path = Some (s +:+ (encode_event e +:+ newline))
  | Refused => content w' path = content w path
  | Torn => ∃ a b, encode_event e +:+ newline = a +:+ b ∧ content w' path = Some (s +:+ a)
  end.
Proof using HF.
  intros Hp. destruct path as [|c path]; [done|]. unfold Notify.
  destruct (OpenAppend _ w) as [[[]|err] w1] eqn:Ho.
  2: { intros [= <- <-]. by eapply OpenAppend_err. }
  apply OpenAppend_ok in Ho as H1. cbv zeta.
  destruct (AppendTo _ _ w1) as [[[]|err] w2] eqn:Ha.
  - eapply AppendTo_ok in Ha; [|exact H1].
    destruct (CloseFile _ w2) as [[[]|cerr] w3] eqn:Hc; intros [= <- <-]; simpl;
      by rewrite (CloseFile_content _ _ _ _ Hc).
  - eapply AppendTo_err in Ha as (a & b & Hab & Ha); [|exact H1].
    destruct (CloseFile _ w2) as [[[]|cerr] w3] eqn:Hc; intros [= <- <-]; simpl;
      exists a, b; (split; [done|]); by rewrite (CloseFile_content _ _ _ _ Hc).
Qed.

Lemma notify_all_log path evts w rs w' old : path ≠ EmptyString → Forall event_ok evts →
  notify_all path evts w = (rs, w') → Forall (λ r, outcome_of r ≠ Torn) rs →
  whole (default EmptyString (content w path)) →
  decode_log (default EmptyString (content w path)) = Some old →
  whole (default EmptyString (content w' path)) ∧
  decode_log (default EmptyString (content w' path)) = Some (old ++ kept evts rs).
Proof using HF.
  intros Hp Hevts. revert w rs old. induction Hevts as [|e evts He _ IH]; intros w rs old; cbn [notify_all].
  - intros [= <- <-] _ Hw Hd. split; [done|]. by rewrite app_nil_r.
  - destruct (Notify _ _ e w) as [r w1] eqn:Hn. destruct (notify_all path evts w1) as [rs1 w2] eqn:Hr.
    intros [= <- <-] [Ht Hts]%Forall_cons Hw Hd. apply Notify_content in Hn; [|done].
    assert (kept (e :: evts) (r :: rs1) =
      (if bool_decide (outcome_of r = Written) then [e] else []) ++ kept evts rs1) as ->.
    { unfold kept. csimpl. by case_bool_decide. }
    destruct (outcome_of r) eqn:Ho; [| |done].
    + rewrite bool_decide_true by done.
      destruct (IH w1 rs1 (old ++ [e]) Hr Hts) as [H1 H2].
      * rewrite Hn. simpl. right. eexists. by rewrite str_app_assoc.
      * rewrite Hn. cbn [default from_option id]. rewrite decode_log_line by done. by rewrite Hd.
      * split; [done|]. by rewrite H2, <- app_assoc.
    + rewrite bool_decide_false by done. apply (IH w1); [done|done|by rewrite Hn..].
Qed.

(** [C30] The audit log as a reader finds it: as long as no write fails, it holds, one
    to a line, the events it held before followed by those of the calls made since,
    in their order; missing are only the calls that could not open the file. *)
Theorem audit_log_complete path evts w rs w' old : path ≠ EmptyString → Forall event_ok evts →
  notify_all path evts w = (rs, w') → Forall (λ r, outcome_of r ≠ Torn) rs →
  whole (default EmptyString (content w path)) →
  decode_log (default EmptyString (content w path)) = Some old →
  decode_log (default EmptyString (content w' path)) = Some (old ++ kept evts rs).
Proof using HF. intros. by eapply notify_all_log. Qed.

(** A write that fails half-way leaves a part of its line behind, and the next
    event ends up on the same line. *)
Theorem audit_log_torn path e1 e2 w r1 w1 w2 a b : path ≠ EmptyString → in_int64 (Timestamp e2) →
  whole (default EmptyString (content w path)) →
  Notify (Some path) Background e1 w = (r1, w1) → outcome_of r1 = Torn →
  encode_event e1 +:+ newline = a +:+ b → one_line a = true →
  content w1 path = Some (default EmptyString (content w path) +:+ a) →
  Notify (Some path) Background e2 w1 = (Ok tt, w2) →
  lines (default EmptyString (content w2 path)) EmptyString =
    lines (default EmptyString (content w path)) EmptyString ++ [a +:+ encode_event e2].
Proof using HF.
  intros Hp Hts Hw Hn1 Ho Hab Ha Hc1 Hn2. apply Notify_content in Hn2; [|done]. simpl in Hn2.
  rewrite Hn2, Hc1. cbn [default from_option id]. rewrite <- str_app_assoc, lines_whole by done. f_equal.
  pose proof (lines_line (a +:+ encode_event e2) EmptyString EmptyString) as Hl.
  rewrite str_app_nil_r, str_app_nil_l, <- str_app_assoc in Hl. rewrite Hl; [done|].
  by rewrite one_line_app, Ha, one_line_event.
Qed.
End log.

(** ** Example: a disk whose appends may be cut short *)

(** The files, and for each append to come how much of it is written, if not all. *)
Definition short_disk : Type := gmap string string * list (option nat).

#[local] Instance short_append : AppendFile short_disk := {
  content d p := d.1 !! p;
  OpenAppend p := λ d, (Ok tt, (<[p := default EmptyString (d.1 !! p)]> d.1, d.2));
  AppendTo p s := λ d,
    let c := default EmptyString (d.1 !! p) in
    match d.2 with
    | Some n :: q => (Err (Errorf "no space left on device"), (<[p := c +:+ String.substring 0 n s]> d.1, q))
    | _ => (Ok tt, (<[p := c +:+ s]> d.1, tail d.2))
    end;
  CloseFile p := λ d, (Ok tt, d);
}.

#[local] Instance short_laws : AppendLaws short_disk.
Proof.
  split; cbn [content OpenAppend AppendTo CloseFile short_append].
  - intros p w w' [= <-]. cbn [fst]. by rewrite lookup_insert_eq.
  - done.
  - intros p s [d q] w' c H Hc. simpl in *. rewrite Hc in H. destruct q as [|[n|] q]; simplify_eq/=;
      by rewrite lookup_insert_eq.
  - intros p s [d q] e w' c H Hc. simpl in *. rewrite Hc in H. destruct q as [|[n|] q]; simplify_eq/=.
    destruct (substring_prefix n s) as [t Ht]. exists (String.substring 0 n s), t.
    cbn [fst]. by rewrite lookup_insert_eq.
  - intros p w r w' [= <- <-]. done.
Qed.

Definition demo_event (n : Z) : Event := mkEvent n ["Alloc"; "a<b"] "10.0.0.1".

Lemma demo_event_ok n : in_int64 n → event_ok (demo_event n).
Proof.
  intros Hn. split; [done| |by apply utf8_literal].
  repeat (apply Forall_cons; split); [by apply utf8_literal..|apply Forall_nil_2].
Qed.

Lemma audit_log_complete_witness :
  decode_log (default EmptyString (content (notify_all "a.log" [demo_event 1; demo_event 2] (∅, [])).2 "a.log"))
    = Some [demo_event 1; demo_event 2].
Proof.
  apply (audit_log_complete "a.log" [demo_event 1; demo_event 2] (∅, [])
    [Ok tt; Ok tt] _ []); try done.
  - repeat (apply Forall_cons; split); [by apply demo_event_ok; unfold64..|apply Forall_nil_2].
  - repeat (apply Forall_cons; split); [done..|apply Forall_nil_2].
  - by left.
Defined.

(** What a reader makes of the line: the second event is lost with the first. *)
Lemma audit_log_torn_witness : ∃ l,
  lines (default EmptyString (content (notify_all "a.log" [demo_event 1; demo_event 2]
    (∅, [Some 9%nat])).2 "a.log")) EmptyString = [l] ∧ decode_event l = None.
Proof.
  exists (String.substring 0 9 (encode_event (demo_event 1) +:+ newline) +:+ encode_event (demo_event 2)).
  split.
  - etransitivity; [apply (audit_log_torn "a.log" (demo_event 1) (demo_event 2) (∅, [Some 9%nat])
      (Err (Wrap "write audit file: " (Errorf "no space left on device")))
      ({["a.log" := String.substring 0 9 (encode_event (demo_event 1))]}, [])
      (notify_all "a.log" [demo_event 1; demo_event 2] (∅, [Some 9%nat])).2
      (String.substring 0 9 (encode_event (demo_event 1) +:+ newline))
      (String.substring 9 100 (encode_event (demo_event 1) +:+ newline)));
      first [by left|by unfold64|reflexivity|done]|reflexivity].
  - vm_compute. reflexivity.
Defined.
End AuditFile.

Module AuditRemote.
Import Audit AuditEvents HttpClient.

Record Client : Type := mkClient { endpoint : string }.

(** [New]; a nil [hc] becomes a client with a timeout, which the transport stands for. *)
Definition New `{NetURL} (rawURL : string) : result error Client :=
  if bool_decide (TrimSpace rawURL = EmptyString) then Err (Errorf "audit url is empty")
  else match ParseRequestURI rawURL with
       | Err err => Err (Wrap "invalid audit url: " err)
       | Ok _ => Ok (mkClient rawURL)
       end.

Section client.
Context `{NetURL} {W : Type} `{Transport W}.

Definition post_request (c : Client) (evt : Event) : Request :=
  mkRequest "POST" (endpoint c) {["Content-Type" := "application/json"]} (Ok (encode_event evt)) EmptyString.

(** What follows a response, with the deferred [Close]. *)
Definition answer (resp : Response) : result error unit :=
  let r := match Body resp with
           | Err err => Err (Wrap "drain audit response: " err)
           | Ok _ => if (StatusCode resp <? 200) || (300 <=? StatusCode resp)
                     then Err (Errorf ("audit post status " +:+ FormatInt (StatusCode resp)))
                     else Ok tt
           end in
  match r, Close resp with
  | Ok _, Some cerr => Err (Wrap "close audit response: " cerr)
  | _, _ => r
  end.

(** [Client.Notify]; a nil client is [None]. *)
Definition Notify (c : option Client) (ctx : Context) (evt : Event) : io W error unit := λ w,
  match c with
  | None => (Ok tt, w)
  | Some c =>
      match NewRequest_error (endpoint c) with
      | Some err => (Err (Wrap "new request: " err), w)
      | None => match Do ctx (post_request c evt) w with
                | (Err err, w) => (Err (Wrap "audit post: " err), w)
                | (Ok resp, w) => (answer resp, w)
                end
      end
  end.
End client.
(** The documented behaviour of [http.Client.Do] for a context that is done. *)
Class TransportLaws (W : Type) `{Timing W} `{Transport W} := {
  Do_done ctx req w e : ctx_Err ctx w = Some e →
    ∃ t w', Do ctx req w = (Err (UrlError t e), w');
}.

Section spec.
Context `{NetURL} {W : Type} `{Transport W}.
Implicit Types (w : W) (c : Client).

(** One event is one POST of its JSON text, never repeated; the result is nil
    exactly for a response with a status of the 2xx class that could be read and
    closed, and then the server was sent the event itself. *)
Theorem Notify_spec c ctx evt w : NewRequest_error (endpoint c) = None → event_ok evt →
  ∃ r w' out text,
    Notify (Some c) ctx evt (w, []) = (r, (w', [(post_request c evt, out)])) ∧
    path (post_request c evt) = endpoint c ∧
    body (post_request c evt) = Ok text ∧ decode_event text = Some evt ∧
    (r = Ok tt ↔ ∃ resp, out = Ok resp ∧ 200 ≤ StatusCode resp < 300 ∧
                         is_ok (Body resp) = true ∧ Close resp = None).
Proof.
  intros Hreq He. unfold Notify. rewrite Hreq. cbn [Do logged_transport].
  destruct (Do ctx (post_request c evt) w) as [out w']. exists (match out with Ok resp => answer resp | Err e => Err (Wrap "audit post: " e) end),
    w', out, (encode_event evt).
  split; [by destruct out|]. split; [done|]. split; [done|].
  split; [by apply decode_encode_event|]. destruct out as [resp|e]; [|naive_solver].
  unfold answer. destruct (Body resp) as [b|e] eqn:Hb.
  - destruct (Z.ltb_spec (StatusCode resp) 200), (Z.leb_spec 300 (StatusCode resp)), (Close resp) eqn:Hc; simpl;
      (split; [intros ?; simplify_eq; exists resp; rewrite ?Hb; split_and!; done || lia
              |intros (? & [= <-] & ? & ? & ?); try done; try congruence; lia]).
  - split; [destruct (Close resp); done|]. intros (? & [= <-] & _ & Hx & _). by rewrite Hb in Hx.
Qed.

(** A context that is done when the event is sent: nothing is answered. *)
Lemma Notify_done `{!Timing W} `{!TransportLaws W} c ctx evt w e :
  ctx_Err ctx w = Some e → ∃ err w', Notify (Some c) ctx evt w = (Err err, w').
Proof.
  intros He. unfold Notify. destruct (NewRequest_error _) as [err|]; [by eauto|].
  destruct (Do_done ctx (post_request c evt) w e He) as (t & w' & ->). eauto.
Qed.
End spec.

#[local] Existing Instance plain_url.
#[local] Instance demo_transport : Transport unit := {
  Do _ _ w := (Ok (mkResponse 204 "204 No Content" ∅ (Ok EmptyString) None), w);
}.

Lemma Notify_spec_witness : ∃ out,
  (Notify (Some (mkClient "http://audit:9/log")) Background (AuditFile.demo_event 7) (tt, [])) =
    (Ok tt, (tt, [(post_request (mkClient "http://audit:9/log") (AuditFile.demo_event 7), out)])).
Proof.
  destruct (@Notify_spec plain_url unit demo_transport (mkClient "http://audit:9/log") Background (AuditFile.demo_event 7) tt ltac:(reflexivity)
    ltac:(apply AuditFile.demo_event_ok; by unfold64)) as (r & w' & out & body & Hn & _ & _ & _ & Hr).
  exists out. rewrite Hn. injection Hn as H1 H2 H3. subst. by destruct Hr.
Defined.
End AuditRemote.
