(* ===== verification/Postgres.v ===== *)
(** * internal/adapters/repository/postgres: the Postgres repository

    The database server and the driver are parameters: [SqlDB W] gives the calls
    of [database/sql] the code makes on a world [W], over the table [db_rows], and
    [SqlLaws] what their documentation says.  The SQL texts of the source are the
    constructors of [stmt]; [eval_stmt] is what each text does to the table.  The
    column [updated_at] is written but never read, and left out. *)

From S2P Require Import Prelude GoStrings GoInt GoErrors Domain Ports Retry.
Open Scope Z_scope.

Module Postgres.
Import Retry.

(** ** The table *)

Record Row : Type := mkRow {
  r_mtype : string;
  r_value : option float64;
  r_delta : option Z;
}.

#[export] Instance Row_eq_dec : EqDecision Row.
Proof. solve_decision. Defined.

(** The upserts of [SetGauge]/[qGauge] and of [AddCounter]/[qCounter]. *)
Inductive stmt : Type :=
  | UpsertGauge (id mtype : string) (value : float64)
  | UpsertCounter (id mtype : string) (delta : Z).

(** [CHECK (mtype IN ('gauge','counter'))] *)
Definition mtype_ok (ty : string) : bool := bool_decide (ty = Gauge ∨ ty = Counter).

(** [INSERT ... ON CONFLICT (id) DO UPDATE ...].  The check of the column
    [mtype] failing, and a BIGINT out of range, are statement errors. *)
Definition eval_stmt (s : stmt) (t : gmap string Row) : option (gmap string Row) :=
  match s with
  | UpsertGauge id ty v =>
      if mtype_ok ty then Some (<[id := mkRow ty (Some v) None]> t) else None
  | UpsertCounter id ty d =>
      let old := match t !! id with
                 | None => 0
                 | Some r => default 0 (r_delta r)
                 end in
      if mtype_ok ty && bool_decide (in_int64 (old + d))
      then Some (<[id := mkRow ty None (Some (old + d))]> t) else None
  end.

Fixpoint eval_all (l : list stmt) (t : gmap string Row) : option (gmap string Row) :=
  match l with
  | [] => Some t
  | s :: l' => match eval_stmt s t with Some t' => eval_all l' t' | None => None end
  end.

(** The table as this program writes it. *)
Definition row_wf (r : Row) : Prop :=
  (r_mtype r = Gauge ∧ is_Some (r_value r) ∧ r_delta r = None) ∨
  (r_mtype r = Counter ∧ r_value r = None ∧ ∃ d, r_delta r = Some d ∧ in_int64 d).

Definition table_wf (t : gmap string Row) : Prop := map_Forall (λ _ r, row_wf r) t.

(** ** The driver *)

Class SqlDB (W : Type) := {
  db_rows : W → gmap string Row;
  Tx : Type;
  tx_stmts : Tx → W → list stmt;
  (* [QueryRowContext(...).Scan(&v)] for the two single-value queries *)
  QueryValue : Context → string → string → io W error (option float64);
  QueryDelta : Context → string → string → io W error (option Z);
  Exec : Context → stmt → io W error unit;
  BeginTx : Context → io W error Tx;
  TxExec : Context → Tx → stmt → io W error unit;
  Commit : Tx → io W error unit;
  Rollback : Tx → W → W;
  (* the rows [Next] yields, each with the outcome of [Scan], and [rows.Err()] *)
  QueryAll : Context → io W error (list (result error (string * Row)) * option error);
  PingDB : Context → io W error unit;
}.

(** Documented behaviour.  No other client writes between the calls; a
    statement that reports an error may still have taken effect when the
    connection failed after it was sent. *)
Class SqlLaws (W : Type) `{SqlDB W, Timing W} := {
  db_rows_wf w : table_wf (db_rows w);
  wait_rows ctx d w b w' : wait_timer ctx d w = (b, w') → db_rows w' = db_rows w;
  QueryValue_rows ctx n ty w r w' : QueryValue ctx n ty w = (r, w') → db_rows w' = db_rows w;
  QueryValue_ok ctx n ty w v w' : QueryValue ctx n ty w = (Ok v, w') →
    ∃ r, db_rows w !! n = Some r ∧ r_mtype r = ty ∧ r_value r = v;
  QueryValue_none ctx n ty w e w' : QueryValue ctx n ty w = (Err e, w') →
    (ErrNotFound ∉ chain e) ∧
    (errors_Is e ErrNoRows = true → (∀ r, db_rows w !! n = Some r → r_mtype r ≠ ty));
  QueryDelta_rows ctx n ty w r w' : QueryDelta ctx n ty w = (r, w') → db_rows w' = db_rows w;
  QueryDelta_ok ctx n ty w d w' : QueryDelta ctx n ty w = (Ok d, w') →
    ∃ r, db_rows w !! n = Some r ∧ r_mtype r = ty ∧ r_delta r = d;
  QueryDelta_none ctx n ty w e w' : QueryDelta ctx n ty w = (Err e, w') →
    (ErrNotFound ∉ chain e) ∧
    (errors_Is e ErrNoRows = true → (∀ r, db_rows w !! n = Some r → r_mtype r ≠ ty));
  Exec_ok ctx s w w' : Exec ctx s w = (Ok tt, w') → eval_stmt s (db_rows w) = Some (db_rows w');
  Exec_err ctx s w e w' : Exec ctx s w = (Err e, w') →
    db_rows w' = db_rows w ∨ eval_stmt s (db_rows w) = Some (db_rows w');
  BeginTx_rows ctx w r w' : BeginTx ctx w = (r, w') → db_rows w' = db_rows w;
  BeginTx_ok ctx w tx w' : BeginTx ctx w = (Ok tx, w') → tx_stmts tx w' = [];
  TxExec_rows ctx tx s w r w' : TxExec ctx tx s w = (r, w') → db_rows w' = db_rows w;
  TxExec_ok ctx tx s w w' :
    TxExec ctx tx s w = (Ok tt, w') → tx_stmts tx w' = tx_stmts tx w ++ [s];
  Commit_ok tx w w' :
    Commit tx w = (Ok tt, w') → eval_all (tx_stmts tx w) (db_rows w) = Some (db_rows w');
  Commit_err tx w e w' : Commit tx w = (Err e, w') →
    db_rows w' = db_rows w ∨ eval_all (tx_stmts tx w) (db_rows w) = Some (db_rows w');
  Rollback_rows tx w : db_rows (Rollback tx w) = db_rows w;
  QueryAll_rows ctx w r w' : QueryAll ctx w = (r, w') → db_rows w' = db_rows w;
}.

(** A connection that never loses a reply, and reads rows to their end. *)
Class Reliable (W : Type) `{SqlDB W} := {
  Exec_err_none ctx s w e w' : Exec ctx s w = (Err e, w') → db_rows w' = db_rows w;
  Commit_err_none tx w e w' : Commit tx w = (Err e, w') → db_rows w' = db_rows w;
  QueryAll_complete ctx w l err w' : QueryAll ctx w = (Ok (l, err), w') →
    ∃ rs, l = Ok <$> rs ∧ rs ≡ₚ map_to_list (db_rows w);
}.

Lemma eval_all_one s t : eval_all [s] t = eval_stmt s t.
Proof. simpl. by destruct (eval_stmt s t). Qed.

(** ** Which errors are retried *)

(** The constants of [pgerrcode] in [retryablePGCodes], by their SQLSTATE. *)
Definition retryablePGCodes : list string :=
  ["08000"; "08003"; "08006"; "08001"; "08004"; "08007"; "08P01"; "40001"; "40P01"; "55P03";
   "53300"; "57P01"; "57P02"; "57P03"; "57014"].

Definition isRetryablePGCode (code : string) : bool :=
  if decide (code ∈ retryablePGCodes) then true
  else if HasPrefix code "08" then true
  else if HasPrefix code "40" then true
  else false.

(** The argument is a non-nil error. *)
Definition isRetryablePG (err : error) : bool :=
  if errors_Is err ErrBadConn then true
  else match errors_As as_op_error err with
       | Some _ => true
       | None => match errors_As as_pq_error err with
                 | Some code => isRetryablePGCode code
                 | None => false
                 end
       end.

(** ** The repository *)

Section repo.
Context {W : Type} `{SqlDB W, Timing W}.

(** An operation that stores what it reads in a captured variable. *)
Definition into {V} (reset : V) (q : io W error V) : io (W * V) error unit := λ '(w, _),
  match q w with
  | (Ok v, w') => (Ok tt, (w', v))
  | (Err e, w') => (Err e, (w', reset))
  end.

(** The shared body of [GetGauge] and [GetCounter]. *)
Definition get_nullable {A} (ctx : Context) (q : io W error (option A)) : io W error A := λ w,
  let '(r, (w', v)) := Retry ctx DefaultBackoff isRetryablePG (into None q) (w, None) in
  match r with
  | Err err => (Err (if errors_Is err ErrNoRows then ErrNotFound else err), w')
  | Ok _ => match v with
            | Some x => (Ok x, w')
            | None => (Err ErrNotFound, w')
            end
  end.

Definition GetGauge (ctx : Context) (n : string) : io W error float64 :=
  get_nullable ctx (QueryValue ctx n Gauge).

Definition GetCounter (ctx : Context) (n : string) : io W error Z :=
  get_nullable ctx (QueryDelta ctx n Counter).

Definition SetGauge (ctx : Context) (n : string) (v : float64) : io W error unit :=
  Retry ctx DefaultBackoff isRetryablePG (Exec ctx (UpsertGauge n Gauge v)).

Definition AddCounter (ctx : Context) (n : string) (d : Z) : io W error unit :=
  Retry ctx DefaultBackoff isRetryablePG (Exec ctx (UpsertCounter n Counter d)).

(** The loop of the closure [attempt] of [UpdateMany]. *)
Fixpoint exec_items (ctx : Context) (tx : Tx) (items : list Metrics) : io W error unit :=
  match items with
  | [] => io_ret tt
  | it :: items' =>
      if decide (MType it = Gauge) then
        match Value it with
        | None => exec_items ctx tx items'
        | Some v => let! _ := TxExec ctx tx (UpsertGauge (ID it) Gauge v) in
                    exec_items ctx tx items'
        end
      else if decide (MType it = Counter) then
        match Delta it with
        | None => exec_items ctx tx items'
        | Some d => let! _ := TxExec ctx tx (UpsertCounter (ID it) Counter d) in
                    exec_items ctx tx items'
        end
      else exec_items ctx tx items'
  end.

(** The deferred [Rollback] runs on every path, after [Commit] too. *)
Definition attempt (ctx : Context) (items : list Metrics) : io W error unit := λ w,
  match BeginTx ctx w with
  | (Err e, w) => (Err e, w)
  | (Ok tx, w) =>
      let '(r, w) := (let! _ := exec_items ctx tx items in Commit tx) w in
      (r, Rollback tx w)
  end.

Definition UpdateMany (ctx : Context) (items : list Metrics) : io W error unit :=
  match items with
  | [] => io_ret tt
  | _ => Retry ctx DefaultBackoff isRetryablePG (attempt ctx items)
  end.

(** The loop over the rows: a row that cannot be scanned is skipped. *)
Definition collect_row (s : Snapshot) (x : result error (string * Row)) : Snapshot :=
  match x with
  | Err _ => s
  | Ok (id, r) =>
      if decide (r_mtype r = Gauge) then
        match r_value r with
        | Some v => mkSnapshot (<[id := v]> (Gauges s)) (Counters s)
        | None => s
        end
      else if decide (r_mtype r = Counter) then
        match r_delta r with
        | Some d => mkSnapshot (Gauges s) (<[id := d]> (Counters s))
        | None => s
        end
      else s
  end.

Definition collect_rows (l : list (result error (string * Row))) : Snapshot :=
  fold_left collect_row l empty_Snapshot.

(** [rows.Err()] is never looked at. *)
Definition snapshot_op (ctx : Context) : io (W * Snapshot) error unit := λ '(w, s),
  match QueryAll ctx w with
  | (Err e, w') => (Err e, (w', s))
  | (Ok (l, _), w') => (Ok tt, (w', collect_rows l))
  end.

Definition SnapshotAll (ctx : Context) : io W error Snapshot := λ w,
  let '(r, (w', s)) :=
    Retry ctx DefaultBackoff isRetryablePG (snapshot_op ctx) (w, empty_Snapshot) in
  match r with Ok _ => (Ok s, w') | Err e => (Err e, w') end.

(** [Ping] under a context with a deadline of one second; [None] is a nil
    [*sql.DB]. *)
Definition with_timeout (ctx : Context) (d : Z) (w : W) : Context :=
  let t := clock w + d in
  match ctx_done ctx with
  | Some (t0, _) => if bool_decide (t0 ≤ t) then ctx
                    else mkContext (Some (t, DeadlineExceeded)) (ctx_client_ip ctx)
  | None => mkContext (Some (t, DeadlineExceeded)) (ctx_client_ip ctx)
  end.

Definition Ping (has_db : bool) (ctx : Context) : io W error unit := λ w,
  if has_db then
    let ctx' := with_timeout ctx Second w in
    Retry ctx' DefaultBackoff isRetryablePG (PingDB ctx') w
  else (Err (Errorf "db not configured"), w).

Definition postgres_repo : MetricsRepo W := {|
  Ports.GetGauge := GetGauge;
  Ports.GetCounter := GetCounter;
  Ports.SetGauge := SetGauge;
  Ports.AddCounter := AddCounter;
  Ports.UpdateMany := UpdateMany;
  Ports.RepoSnapshot := SnapshotAll;
  Ports.RepoPing := Ping true;
|}.
End repo.

(** ** What the table means *)

Definition gauge_of (r : Row) : option float64 :=
  if decide (r_mtype r = Gauge) then r_value r else None.
Definition counter_of (r : Row) : option Z :=
  if decide (r_mtype r = Counter) then r_delta r else None.

Definition view_rows (t : gmap string Row) : Snapshot :=
  mkSnapshot (omap gauge_of t) (omap counter_of t).

(** The statements a batch sends. *)
Definition stmt_of (m : Metrics) : option stmt :=
  if decide (MType m = Gauge) then UpsertGauge (ID m) Gauge <$> Value m
  else if decide (MType m = Counter) then UpsertCounter (ID m) Counter <$> Delta m
  else None.

Lemma eval_stmt_wf m s t t' :
  stmt_of m = Some s → table_wf t → eval_stmt s t = Some t' → table_wf t'.
Proof.
  intros Hs Ht. unfold stmt_of in Hs.
  repeat case_decide; try done; apply fmap_Some in Hs as (x & Hx & ->); simpl.
  - intros [= <-]. apply map_Forall_insert_2; [|done]. left. eauto.
  - case_bool_decide; [|done]. intros [= <-].
    apply map_Forall_insert_2; [|done]. right. simpl. eauto 8.
Qed.

Lemma put_exclusive_item m s : put_exclusive m s =
  match stmt_of m with
  | Some (UpsertGauge id _ v) => mkSnapshot (<[id := v]> (Gauges s)) (delete id (Counters s))
  | Some (UpsertCounter id _ d) => mkSnapshot (delete id (Gauges s))
      (<[id := add64 (default 0 (Counters s !! id)) d]> (Counters s))
  | None => s
  end.
Proof.
  unfold put_exclusive, stmt_of. case_decide; [by destruct (Value m)|].
  case_decide; [by destruct (Delta m)|done].
Qed.

(** An upsert does to the table what its item asks of a one-name-space store. *)
Lemma view_eval m s t t' :
  stmt_of m = Some s → table_wf t → eval_stmt s t = Some t' →
  view_rows t' = put_exclusive m (view_rows t).
Proof.
  intros Hs Ht He. rewrite put_exclusive_item, Hs. unfold stmt_of in Hs.
  repeat case_decide; try done; apply fmap_Some in Hs as (x & Hx & ->); simpl in *;
    unfold view_rows.
  - simplify_eq. f_equal; apply map_eq; intros i;
      rewrite ?lookup_insert, ?lookup_delete, !lookup_omap, lookup_insert; by case_decide.
  - case_bool_decide as Hin; [|done]. injection He as <-.
    assert (default 0 (omap counter_of t !! ID m) =
      match t !! ID m with Some r => default 0 (r_delta r) | None => 0 end) as Hold.
    { rewrite lookup_omap. destruct (t !! ID m) as [r|] eqn:Hr; [|done]. simpl.
      unfold counter_of. destruct (Ht _ _ Hr) as [(-> & _ & ->)|(-> & _)]; by case_decide. }
    simpl. rewrite Hold. unfold add64. rewrite (wrap64_id _ Hin).
    f_equal; apply map_eq; intros i;
      rewrite ?lookup_insert, ?lookup_delete, !lookup_omap, lookup_insert; by case_decide.
Qed.

(** Scanning all the rows, in any order, gives the view of the table. *)
Lemma collect_row_lookup s id r i :
  Gauges (collect_row s (Ok (id, r))) !! i =
    (if decide (id = i) then match gauge_of r with Some v => Some v | None => Gauges s !! i end
     else Gauges s !! i) ∧
  Counters (collect_row s (Ok (id, r))) !! i =
    (if decide (id = i) then match counter_of r with Some v => Some v | None => Counters s !! i end
     else Counters s !! i).
Proof.
  unfold collect_row, gauge_of, counter_of.
  destruct (decide (r_mtype r = Gauge)) as [Hg|Hg].
  - rewrite (decide_False (P := r_mtype r = Counter)) by (by rewrite Hg).
    destruct (r_value r); simpl; rewrite ?lookup_insert; by repeat case_decide.
  - destruct (decide (r_mtype r = Counter)); [destruct (r_delta r)|]; simpl;
      rewrite ?lookup_insert; by repeat case_decide.
Qed.

End Postgres.
