(* ===== verification/PgConn.v ===== *)
(** * A concrete Postgres connection

    A table in memory behind a connection whose faults are scheduled: each
    statement sent takes the next outcome of the schedule.  It satisfies
    [SqlLaws] and [TimingLaws], and without lost replies [Reliable]; the witnesses
    and the examples of [PostgresSpec] run on it. *)

From S2P Require Import Prelude GoStrings GoInt GoErrors Domain Ports Retry Postgres.
Open Scope Z_scope.

Module PgConn.
Import Retry Postgres.

(** [Failed]: the driver saw a dead connection before anything was sent.  [Lost]:
    the server did the work, and the connection broke before the reply. *)
Inductive outcome : Type := Done | Failed | Lost.

Record Conn (lossy : bool) : Type := mkConn {
  now : Z;
  raw : gmap string Row;
  pending : list stmt;
  schedule : list outcome;
}.
#[global] Arguments mkConn {lossy}.
#[global] Arguments now {lossy}.
#[global] Arguments raw {lossy}.
#[global] Arguments pending {lossy}.
#[global] Arguments schedule {lossy}.

Definition row_wfb (r : Row) : bool :=
  match r_value r, r_delta r with
  | Some _, None => bool_decide (r_mtype r = Gauge)
  | None, Some d => bool_decide (r_mtype r = Counter) && bool_decide (in_int64 d)
  | _, _ => false
  end.

Lemma row_wfb_iff r : row_wfb r = true ↔ row_wf r.
Proof.
  unfold row_wfb, row_wf. destruct r as [ty [v|] [d|]]; simpl.
  - split; [done|]. intros [(_ & _ & ?)|(_ & ? & _)]; done.
  - rewrite bool_decide_eq_true. split; [|naive_solver]. intros ->. left. eauto.
  - rewrite andb_true_iff, !bool_decide_eq_true. split; [|naive_solver].
    intros [-> ?]. right. eauto.
  - split; [done|]. intros [(_ & [? ?] & _)|(_ & _ & d & ? & _)]; done.
Qed.

#[global] Instance row_wf_dec r : Decision (row_wf r).
Proof. refine (cast_if (decide (row_wfb r = true))); by rewrite <- row_wfb_iff. Defined.

(** The rows that meet the constraints of the table. *)
Definition rows (t : gmap string Row) : gmap string Row := filter (λ kv, row_wf kv.2) t.

Lemma rows_wf t : table_wf (rows t).
Proof. intros k r Hr. by apply map_lookup_filter_Some in Hr as [_ ?]. Qed.

Lemma rows_id t : table_wf t → rows t = t.
Proof. intros Ht. apply map_filter_id. intros k r Hr. exact (Ht k r Hr). Qed.

Section conn.
Context {lossy : bool}.
Implicit Types c : Conn lossy.

Definition step_schedule c : outcome * Conn lossy :=
  match schedule c with
  | [] => (Done, c)
  | Lost :: l => (if lossy then Lost else Failed, mkConn (now c) (raw c) (pending c) l)
  | o :: l => (o, mkConn (now c) (raw c) (pending c) l)
  end.

Definition set_raw t c : Conn lossy := mkConn (now c) t (pending c) (schedule c).

(** Statements run against the table, in order; nothing changes if one fails,
    or if the table would break its constraints. *)
Definition run_stmts (l : list stmt) : io (Conn lossy) error unit := λ c,
  match step_schedule c with
  | (Failed, c) => (Err ErrBadConn, c)
  | (o, c) =>
      match eval_all l (rows (raw c)) with
      | Some t => if decide (table_wf t)
                  then (match o with Lost => Err (OpError ECONNRESET) | _ => Ok tt end, set_raw t c)
                  else (Err (PqError "23514"), c)
      | None => (Err (PqError "22003"), c)
      end
  end.

Definition query {A} (ty n : string) (f : Row → A) : io (Conn lossy) error A := λ c,
  match step_schedule c with
  | (Done, c) => match rows (raw c) !! n with
                 | Some r => (if decide (r_mtype r = ty) then Ok (f r) else Err ErrNoRows, c)
                 | None => (Err ErrNoRows, c)
                 end
  | (_, c) => (Err ErrBadConn, c)
  end.

#[global] Instance conn_sql : SqlDB (Conn lossy) := {
  db_rows := λ c, rows (raw c);
  Tx := unit;
  tx_stmts := λ _ c, pending c;
  QueryValue := λ _ n ty, query ty n r_value;
  QueryDelta := λ _ n ty, query ty n r_delta;
  Exec := λ _ s, run_stmts [s];
  BeginTx := λ _ c, (Ok tt, mkConn (now c) (raw c) [] (schedule c));
  TxExec := λ _ _ s c, (Ok tt, mkConn (now c) (raw c) (pending c ++ [s]) (schedule c));
  Commit := λ _ c, run_stmts (pending c) c;
  Rollback := λ _ c, c;
  QueryAll := λ _ c,
    match step_schedule c with
    | (Failed, c) => (Err ErrBadConn, c)
    | (Lost, c) => (Ok ([], Some (OpError ECONNRESET)), c)
    | (Done, c) => (Ok (Ok <$> map_to_list (rows (raw c)), None), c)
    end;
  PingDB := λ _ c, (Ok tt, c);
}.

#[global] Instance conn_timing : Timing (Conn lossy) := {
  clock := now;
  wait_timer := λ ctx d c,
    let '(b, t) := virtual_wait ctx d (now c) in
    (b, mkConn t (raw c) (pending c) (schedule c));
}.

#[global] Instance conn_timing_laws : TimingLaws (Conn lossy).
Proof.
  split; intros ctx d c; simpl; destruct (virtual_wait ctx d (now c)) as [b' t] eqn:E.
  - intros b c' [= <- <-]. exact (wait_timer_mono (W := Z) _ _ _ _ _ E).
  - intros c' [= -> <-]. exact (wait_timer_fired (W := Z) _ _ _ _ E).
  - intros c' [= -> <-]. exact (wait_timer_done (W := Z) _ _ _ _ E).
Qed.

Lemma step_schedule_inv c o c' : step_schedule c = (o, c') →
  raw c' = raw c ∧ pending c' = pending c ∧ (o = Lost → lossy = true).
Proof.
  unfold step_schedule. destruct (schedule c) as [|[] l]; intros [= <- <-]; try done.
  by destruct lossy.
Qed.

Lemma run_stmts_inv l c r c' : run_stmts l c = (r, c') →
  match r with
  | Ok _ => eval_all l (rows (raw c)) = Some (rows (raw c'))
  | Err _ => raw c' = raw c ∨
             lossy = true ∧ eval_all l (rows (raw c)) = Some (rows (raw c'))
  end.
Proof.
  unfold run_stmts. destruct (step_schedule c) as [o c1] eqn:Hs.
  apply step_schedule_inv in Hs as (Hr & _ & Hl). rewrite Hr.
  destruct o; [| |specialize (Hl eq_refl)]; [|intros [= <- <-]; auto|];
    (destruct (eval_all l (rows (raw c))) as [t|] eqn:He; [|intros [= <- <-]; auto]);
    (case_decide as Ht; [|intros [= <- <-]; auto]); intros [= <- <-]; simpl;
    rewrite (rows_id t Ht); auto.
Qed.

Lemma query_inv {A} ty n (f : Row → A) c r c' : query ty n f c = (r, c') →
  raw c' = raw c ∧
  match r with
  | Ok a => ∃ r, rows (raw c) !! n = Some r ∧ r_mtype r = ty ∧ f r = a
  | Err e => (ErrNotFound ∉ chain e) ∧
      (errors_Is e ErrNoRows = true → ∀ r, rows (raw c) !! n = Some r → r_mtype r ≠ ty)
  end.
Proof.
  unfold query. destruct (step_schedule c) as [o c1] eqn:Hs.
  apply step_schedule_inv in Hs as (Hr & _ & _).
  assert (Hno : (ErrNotFound ∉ chain ErrNoRows)) by (simpl; set_solver).
  assert (Hbad : (ErrNotFound ∉ chain ErrBadConn)) by (simpl; set_solver).
  destruct o; [|intros [= <- <-]; split; [done|]; by split..].
  rewrite Hr. destruct (rows (raw c) !! n) as [r1|] eqn:Hl.
  - case_decide; intros [= <- <-]; (split; [done|]); [eauto|].
    split; [done|]. by intros _ r2 [= <-].
  - intros [= <- <-]. split; [done|]. by split.
Qed.

#[global] Instance conn_sql_laws : SqlLaws (Conn lossy).
Proof.
  split; intros *; simpl.
  - apply rows_wf.
  - destruct (virtual_wait ctx d (now w)). by intros [= _ <-].
  - intros Hq. by apply query_inv in Hq as [-> _].
  - intros Hq. by apply query_inv in Hq as [_ Hq].
  - intros Hq. by apply query_inv in Hq as [_ Hq].
  - intros Hq. by apply query_inv in Hq as [-> _].
  - intros Hq. by apply query_inv in Hq as [_ Hq].
  - intros Hq. by apply query_inv in Hq as [_ Hq].
  - rewrite <- (eval_all_one s). apply run_stmts_inv.
  - rewrite <- (eval_all_one s). intros Hx. apply run_stmts_inv in Hx as [->|[_ ?]]; auto.
  - by intros [= <- <-].
  - by intros [= <- <-].
  - by intros [= <- <-].
  - by intros [= <-].
  - apply run_stmts_inv.
  - intros Hx. apply run_stmts_inv in Hx as [->|[_ ?]]; auto.
  - done.
  - destruct (step_schedule w) as [o c1] eqn:Hs. apply step_schedule_inv in Hs as (Hr & _ & _).
    destruct o; intros [= <- <-]; by rewrite Hr.
Qed.
End conn.

#[global] Instance conn_reliable : Reliable (Conn false).
Proof.
  split; intros *; simpl.
  - intros Hx. apply run_stmts_inv in Hx as [->|[? _]]; done.
  - intros Hx. apply run_stmts_inv in Hx as [->|[? _]]; done.
  - destruct (step_schedule w) as [o c1] eqn:Hs. apply step_schedule_inv in Hs as (Hr & _ & Hl).
    destruct o; [| |by specialize (Hl eq_refl)]; intros [= <- <- <-]. rewrite Hr. eauto.
Qed.

End PgConn.
