(* ===== verification/PostgresSpec.v ===== *)
(** * What the Postgres repository does

    First against the documented behaviour of the driver alone ([SqlLaws]): a
    write may take effect and still report an error, so a retried counter update
    may be applied more than once.  Then for a connection that never loses a reply
    ([Reliable]), where the repository honours the contract [RepoLaws]; then the
    comparison with the memory repository. *)

From S2P Require Import Prelude GoStrings GoInt GoErrors Domain Ports Memory Retry Postgres PgConn.
Open Scope Z_scope.

Module PostgresSpec.
Import Retry Postgres.

Section postgres.
Context {W : Type} `{HS : SqlLaws W} `{HT : !TimingLaws W}.
Implicit Types w : W.

(** ** How often a write takes effect *)

(** [k] applications of the statements. *)
Fixpoint times (k : nat) (l : list stmt) (t : gmap string Row) : option (gmap string Row) :=
  match k with
  | O => Some t
  | S k => match eval_all l t with Some t' => times k l t' | None => None end
  end.

Lemma times_snoc k l t t' t'' :
  times k l t = Some t' → eval_all l t' = Some t'' → times (S k) l t = Some t''.
Proof.
  revert t. induction k as [|k IH]; intros t; simpl.
  - intros [= ->] ->. done.
  - destruct (eval_all l t) as [t1|]; [|done]. intros Hk Hl. specialize (IH t1 Hk Hl).
    simpl in IH. done.
Qed.

(** After [n] failed calls, at most [n] of them took effect. *)
Definition applied (l : list stmt) (t0 : gmap string Row) (n : nat) w : Prop :=
  ∃ k, (k ≤ n)%nat ∧ times k l t0 = Some (db_rows w).

Lemma applied_wait ctx l t0 n d w b w' :
  applied l t0 n w → wait_timer ctx d w = (b, w') → applied l t0 n w'.
Proof using HS. unfold applied. intros Ha Hw. by rewrite (wait_rows _ _ _ _ _ Hw). Qed.

Lemma applied_failed l t0 n w w' :
  applied l t0 n w →
  db_rows w' = db_rows w ∨ eval_all l (db_rows w) = Some (db_rows w') →
  applied l t0 (S n) w'.
Proof.
  intros (k & Hk & Ht) [Hw|Hw].
  - exists k. rewrite Hw. split; [lia|done].
  - exists (S k). split; [lia|]. by eapply times_snoc.
Qed.

(** A retried write that fails in one of the two ways above and succeeds by
    applying its statements once. *)
Lemma retried_write ctx l (op : io W error unit) w r w' :
  (∀ w e w', op w = (Err e, w') →
    db_rows w' = db_rows w ∨ eval_all l (db_rows w) = Some (db_rows w')) →
  (∀ w w', op w = (Ok tt, w') → eval_all l (db_rows w) = Some (db_rows w')) →
  Retry ctx DefaultBackoff isRetryablePG op w = (r, w') →
  ∃ k, (k ≤ 4)%nat ∧ times k l (db_rows w) = Some (db_rows w') ∧
    (is_ok r = true → (1 ≤ k)%nat).
Proof using HS HT.
  intros Herr Hok Hr.
  destruct (Retry_last ctx isRetryablePG op (applied l (db_rows w)) DefaultBackoff w r w')
    with (n := 0%nat) as (n' & Hn & Hres); [| | |done|].
  - intros n w1 e w2 Ha He. eapply applied_failed; eauto.
  - eauto using applied_wait.
  - exists 0%nat. done.
  - simpl in Hn. destruct r as [[]|e].
    + destruct Hres as (w1 & (k & Hk & Ht) & Ho). exists (S k). split; [lia|].
      split; [|lia]. eapply times_snoc; eauto.
    + destruct Hres as [(k & Hk & Ht) _]. exists k. split; [lia|]. done.
Qed.

(** ** Batches *)

Lemma exec_items_inv ctx tx items w r w' :
  exec_items ctx tx items w = (r, w') →
  db_rows w' = db_rows w ∧
  (r = Ok tt → tx_stmts tx w' = tx_stmts tx w ++ omap stmt_of items).
Proof using HS.
  revert w. induction items as [|it items IH]; intros w; csimpl.
  - unfold io_ret. intros [= <- <-]. by rewrite app_nil_r.
  - assert (Hstep : ∀ s, stmt_of it = Some s →
      (let! _ := TxExec ctx tx s in exec_items ctx tx items) w = (r, w') →
      db_rows w' = db_rows w ∧
      (r = Ok tt → tx_stmts tx w' = tx_stmts tx w ++ s :: omap stmt_of items)).
    { intros s Hs Hb. apply io_bind_inv in Hb as [([] & w1 & Hx & Hrest)|(e & Hx & ->)].
      - pose proof (TxExec_rows _ _ _ _ _ _ Hx) as Hrows. apply TxExec_ok in Hx.
        destruct (IH _ Hrest) as [Hr1 Hst]. split; [congruence|].
        intros Hok. by rewrite (Hst Hok), Hx, <- app_assoc.
      - apply TxExec_rows in Hx. done. }
    unfold stmt_of in *. repeat case_decide; [destruct (Value it)|destruct (Delta it)|];
      simpl in *; auto.
Qed.

Lemma attempt_rows ctx items w r w' :
  attempt ctx items w = (r, w') →
  match r with
  | Ok _ => eval_all (omap stmt_of items) (db_rows w) = Some (db_rows w')
  | Err _ => db_rows w' = db_rows w ∨
             eval_all (omap stmt_of items) (db_rows w) = Some (db_rows w')
  end.
Proof using HS.
  unfold attempt. destruct (BeginTx ctx w) as [[tx|e] w1] eqn:Hb;
    [|intros [= <- <-]; apply BeginTx_rows in Hb; auto].
  pose proof (BeginTx_ok _ _ _ _ Hb) as Htx. apply BeginTx_rows in Hb.
  destruct (io_bind _ _ w1) as [r1 w2] eqn:Hx. intros [= <- <-]. rewrite Rollback_rows.
  apply io_bind_inv in Hx as [([] & w3 & Hx & Hc)|(e & Hx & ->)].
  - apply exec_items_inv in Hx as [Hr1 Hst]. rewrite Htx in Hst. simpl in Hst.
    rewrite <- Hb, <- Hr1, <- (Hst eq_refl). destruct r1 as [[]|e].
    + by apply Commit_ok in Hc.
    + by apply Commit_err in Hc.
  - apply exec_items_inv in Hx as [Hr1 _]. left. congruence.
Qed.

Lemma UpdateMany_times ctx items w r w' :
  UpdateMany ctx items w = (r, w') →
  ∃ k, (k ≤ 4)%nat ∧ times k (omap stmt_of items) (db_rows w) = Some (db_rows w') ∧
    (is_ok r = true → items ≠ [] → (1 ≤ k)%nat).
Proof using HS HT.
  unfold UpdateMany. destruct items as [|it items].
  - unfold io_ret. intros [= <- <-]. exists 0%nat. split; [lia|]. by split.
  - intros Hr. destruct (retried_write ctx (omap stmt_of (it :: items))
      (attempt ctx (it :: items)) w r w') as (k & Hk & Ht & Hok); [| |done|].
    + intros w1 e w2 Ha. by apply attempt_rows in Ha.
    + intros w1 w2 Ha. by apply attempt_rows in Ha.
    + exists k. auto.
Qed.

(** [C8] Batches are all-or-nothing, with retries and lost replies: after
    [UpdateMany] the table is the old one with the whole batch applied some
    number of times, at most four, and at least once when it reports success; no
    part of a batch is ever visible without the rest. *)
Theorem UpdateMany_atomic ctx items w r w' :
  UpdateMany ctx items w = (r, w') →
  ∃ k, (k ≤ 4)%nat ∧ times k (omap stmt_of items) (db_rows w) = Some (db_rows w') ∧
    (is_ok r = true → items ≠ [] → (1 ≤ k)%nat).
Proof using HS HT. apply UpdateMany_times. Qed.

Lemma AddCounter_times ctx n d w r w' :
  AddCounter ctx n d w = (r, w') →
  ∃ k, (k ≤ 4)%nat ∧ times k [UpsertCounter n Counter d] (db_rows w) = Some (db_rows w') ∧
    (is_ok r = true → (1 ≤ k)%nat).
Proof using HS HT.
  apply retried_write; intros *; rewrite eval_all_one; [apply Exec_err|apply Exec_ok].
Qed.

Lemma SetGauge_times ctx n v w r w' :
  SetGauge ctx n v w = (r, w') →
  ∃ k, (k ≤ 4)%nat ∧ times k [UpsertGauge n Gauge v] (db_rows w) = Some (db_rows w') ∧
    (is_ok r = true → (1 ≤ k)%nat).
Proof using HS HT.
  apply retried_write; intros *; rewrite eval_all_one; [apply Exec_err|apply Exec_ok].
Qed.

(** Storing a gauge again changes nothing, so retries are harmless to it. *)
Lemma times_gauge k n v t :
  (1 ≤ k)%nat → times k [UpsertGauge n Gauge v] t = Some (<[n := mkRow Gauge (Some v) None]> t).
Proof.
  revert t. induction k as [|k IH]; intros t Hk; [lia|]. simpl. destruct k as [|k]; [done|].
  rewrite IH by lia. by rewrite insert_insert_eq.
Qed.

(** A gauge written through any number of retries, lost replies included,
    ends at the value given, and nothing else in the table changes. *)
Theorem SetGauge_idempotent ctx n v w w' :
  SetGauge ctx n v w = (Ok tt, w') →
  db_rows w' = <[n := mkRow Gauge (Some v) None]> (db_rows w).
Proof using HS HT.
  intros Hs. destruct (SetGauge_times _ _ _ _ _ _ Hs) as (k & _ & Ht & Hk).
  rewrite times_gauge in Ht by auto. congruence.
Qed.

Definition old_delta (n : string) (t : gmap string Row) : Z :=
  match t !! n with None => 0 | Some r => default 0 (r_delta r) end.

Lemma times_counter k n d t t' :
  (1 ≤ k)%nat → times k [UpsertCounter n Counter d] t = Some t' →
  t' = <[n := mkRow Counter None (Some (old_delta n t + Z.of_nat k * d))]> t ∧
  in_int64 (old_delta n t + Z.of_nat k * d).
Proof.
  revert t. induction k as [|k IH]; intros t Hk; [lia|].
  cbn [times eval_all eval_stmt]. fold (old_delta n t). simpl mtype_ok. cbn [andb].
  case_bool_decide as Hin; [|done]. destruct k as [|k].
  - intros [= <-]. rewrite !Z.mul_1_l. done.
  - intros Ht. apply IH in Ht as [-> Hr]; [|lia]. unfold old_delta in Hr |- *.
    rewrite lookup_insert_eq in *. simpl default in *. rewrite insert_insert_eq.
    fold (old_delta n t) in *.
    replace (old_delta n t + d + Z.of_nat (S k) * d)
      with (old_delta n t + Z.of_nat (S (S k)) * d) in * by lia. done.
Qed.

(** [C40] A counter increment that reports success was applied once for each
    attempt that reached the server, between one and four times, within the
    range of BIGINT and without touching other rows; only a connection that
    loses no reply makes it exactly once. *)
Theorem AddCounter_counts ctx n d w w' :
  AddCounter ctx n d w = (Ok tt, w') →
  ∃ k, 1 ≤ k ≤ 4 ∧ in_int64 (old_delta n (db_rows w) + k * d) ∧
    db_rows w' = <[n := mkRow Counter None (Some (old_delta n (db_rows w) + k * d))]> (db_rows w).
Proof using HS HT.
  intros Ha. destruct (AddCounter_times _ _ _ _ _ _ Ha) as (k & Hk & Ht & H1).
  specialize (H1 eq_refl). apply times_counter in Ht as [-> Hin]; [|done].
  exists (Z.of_nat k). split; [lia|]. done.
Qed.

(** ** Reads *)

Lemma get_nullable_inv {A} ctx (q : io W error (option A)) w r w' :
  (∀ w r w', q w = (r, w') → db_rows w' = db_rows w) →
  get_nullable ctx q w = (r, w') →
  db_rows w' = db_rows w ∧
  match r with
  | Ok x => ∃ w1 w2, db_rows w1 = db_rows w ∧ q w1 = (Ok (Some x), w2)
  | Err e => (∃ w1 w2, db_rows w1 = db_rows w ∧
               (q w1 = (Ok None, w2) ∧ e = ErrNotFound ∨
                ∃ e0, q w1 = (Err e0, w2) ∧
                  e = if errors_Is e0 ErrNoRows then ErrNotFound else e0)) ∨
             ctx_Err ctx w' = Some e
  end.
Proof using HS HT.
  intros Hq. unfold get_nullable.
  destruct (Retry ctx DefaultBackoff isRetryablePG (into None q) (w, None)) as [r1 [w1 v]] eqn:Hr.
  destruct (Retry_last ctx isRetryablePG (into None q)
    (λ _ wv, db_rows wv.1 = db_rows w) DefaultBackoff (w, None) r1 (w1, v))
    with (n := 0%nat) as (n' & _ & Hres); [| |done|done|].
  - intros _ [w2 v2] e [w3 v3] Hw2. unfold into. destruct (q w2) as [[x|e'] w4] eqn:Hq2; [done|].
    intros [= -> <- <-]. simpl in *. by rewrite (Hq _ _ _ Hq2).
  - intros _ d [w2 v2] b [w3 v3] Hw2. simpl in *.
    destruct (wait_timer ctx d w2) as [b' w4] eqn:Hw. intros [= _ <- _].
    by rewrite (wait_rows _ _ _ _ _ Hw).
  - destruct r1 as [[]|e].
    + destruct Hres as ([w2 v2] & Hw2 & Hi). simpl in Hw2. unfold into in Hi.
      destruct (q w2) as [[x|e'] w4] eqn:Hq2; [|done]. injection Hi as <- <-.
      pose proof (Hq _ _ _ Hq2). destruct x as [x|]; intros [= <- <-];
        (split; [congruence|]); eauto 10.
    + destruct Hres as [Hw1 Hres]. simpl in Hw1. intros [= <- <-]. split; [done|].
      destruct Hres as [[_ Hc]|([w2 v2] & Hi & Hw2)].
      * right. change (ctx_Err ctx (w1, v)) with (ctx_Err ctx w1) in Hc.
        destruct (ctx_err_at_not_found _ _ _ Hc) as [_ ->]. done.
      * left. simpl in Hw2. unfold into in Hi.
        destruct (q w2) as [[x|e'] w4] eqn:Hq2; [done|]. injection Hi as -> <- <-.
        exists w2, w4. eauto.
Qed.
End postgres.

(** ** Connections that lose no reply *)

Section reliable.
Context {W : Type} `{HS : SqlLaws W} `{HT : !TimingLaws W} `{HR : !Reliable W}.
Implicit Types w : W.

Lemma retried_once ctx l (op : io W error unit) w r w' :
  (∀ w e w', op w = (Err e, w') → db_rows w' = db_rows w) →
  (∀ w w', op w = (Ok tt, w') → eval_all l (db_rows w) = Some (db_rows w')) →
  Retry ctx DefaultBackoff isRetryablePG op w = (r, w') →
  match r with
  | Ok _ => eval_all l (db_rows w) = Some (db_rows w')
  | Err _ => db_rows w' = db_rows w
  end.
Proof using HS HT.
  intros Herr Hok Hr.
  destruct (Retry_last ctx isRetryablePG op (λ _ w1, db_rows w1 = db_rows w) DefaultBackoff w r w')
    with (n := 0%nat) as (n' & _ & Hres); [| |done|done|].
  - intros _ w1 e w2 Hw1 He. by rewrite (Herr _ _ _ He).
  - intros _ d w1 b w2 Hw1 Hb. by rewrite (wait_rows _ _ _ _ _ Hb).
  - destruct r as [[]|e]; [|by destruct Hres].
    destruct Hres as (w1 & Hw1 & Ho). rewrite <- Hw1. by apply Hok.
Qed.

Lemma attempt_once ctx items w e w' :
  attempt ctx items w = (Err e, w') → db_rows w' = db_rows w.
Proof using HS HR.
  unfold attempt. destruct (BeginTx ctx w) as [[tx|e1] w1] eqn:Hb;
    [|intros [= <- <-]; by apply BeginTx_rows in Hb].
  apply BeginTx_rows in Hb. destruct (io_bind _ _ w1) as [r1 w2] eqn:Hx.
  intros [= -> <-]. rewrite Rollback_rows.
  apply io_bind_inv in Hx as [([] & w3 & Hx & Hc)|(e2 & Hx & _)];
    apply exec_items_inv in Hx as [Hr1 _]; [|congruence].
  apply Commit_err_none in Hc. congruence.
Qed.

Lemma eval_one_view m s w t' :
  stmt_of m = Some s → eval_all [s] (db_rows w) = Some t' →
  view_rows t' = put_exclusive m (view_rows (db_rows w)).
Proof using HS.
  intros Hs. rewrite eval_all_one. by apply view_eval, db_rows_wf.
Qed.

Lemma eval_all_view items t t' :
  table_wf t → eval_all (omap stmt_of items) t = Some t' →
  view_rows t' = put_all put_exclusive items (view_rows t).
Proof.
  revert t. induction items as [|m items IH]; intros t Ht; csimpl; [by intros [= ->]|].
  change (put_all put_exclusive (m :: items) (view_rows t))
    with (put_all put_exclusive items (put_exclusive m (view_rows t))).
  destruct (stmt_of m) as [s|] eqn:Hs; simpl.
  - destruct (eval_stmt s t) as [t1|] eqn:Hev; [|done]. intros Hrest.
    rewrite <- (view_eval _ _ _ _ Hs Ht Hev). apply IH; [|done].
    by eapply eval_stmt_wf.
  - rewrite put_exclusive_item, Hs. by apply IH.
Qed.

Lemma eval_all_wf items t t' : table_wf t → eval_all (omap stmt_of items) t = Some t' → table_wf t'.
Proof.
  revert t. induction items as [|m items IH]; intros t Ht; csimpl; [by intros [= <-]|].
  destruct (stmt_of m) as [s|] eqn:Hs; simpl; [|by apply IH].
  destruct (eval_stmt s t) as [t1|] eqn:Hev; [|done]. apply IH. by eapply eval_stmt_wf.
Qed.

(** Collecting the rows in any order gives the view of the table. *)
Lemma collect_rows_view (rs : list (string * Row)) t :
  rs ≡ₚ map_to_list t → collect_rows (Ok <$> rs) = view_rows t.
Proof.
  intros Hp.
  assert (Hgen : ∀ (rs : list (string * Row)) s i, NoDup rs.*1 →
    Gauges (fold_left collect_row (Ok <$> rs) s) !! i =
      (match list_to_map (M := gmap string Row) rs !! i ≫= gauge_of with
       | Some v => Some v | None => Gauges s !! i end) ∧
    Counters (fold_left collect_row (Ok <$> rs) s) !! i =
      (match list_to_map (M := gmap string Row) rs !! i ≫= counter_of with
       | Some v => Some v | None => Counters s !! i end)).
  { clear. induction rs as [|[id r] rs IH]; intros s i Hnd.
    { change (list_to_map []) with (∅ : gmap string Row). by rewrite lookup_empty. }
    apply NoDup_cons in Hnd as [Hid Hnd].
    change (fold_left collect_row (Ok <$> (id, r) :: rs) s)
      with (fold_left collect_row (Ok <$> rs) (collect_row s (Ok (id, r)))).
    rewrite list_to_map_cons.
    destruct (IH (collect_row s (Ok (id, r))) i Hnd) as [-> ->].
    destruct (collect_row_lookup s id r i) as [-> ->].
    rewrite lookup_insert. case_decide as Hi; [|done]. subst i.
    by rewrite (not_elem_of_list_to_map_1 _ _ Hid). }
  assert (NoDup rs.*1) as Hnd by (rewrite Hp; apply NoDup_fst_map_to_list).
  assert (list_to_map rs = t) as Ht.
  { etrans; [by apply list_to_map_proper|apply list_to_map_to_list]. }
  unfold collect_rows, view_rows.
  pose proof (λ i, Hgen rs empty_Snapshot i Hnd) as Hl. rewrite Ht in Hl.
  destruct (fold_left collect_row (Ok <$> rs) empty_Snapshot) as [g c]. simpl in Hl.
  f_equal; apply map_eq; intros i; destruct (Hl i) as [Hg Hc]; rewrite lookup_omap.
  - rewrite Hg, lookup_empty. by destruct (t !! i ≫= gauge_of).
  - rewrite Hc, lookup_empty. by destruct (t !! i ≫= counter_of).
Qed.

Lemma SnapshotAll_inv ctx w r w' :
  SnapshotAll ctx w = (r, w') →
  db_rows w' = db_rows w ∧
  match r with Ok s => s = view_rows (db_rows w) | Err _ => True end.
Proof using HS HT HR.
  unfold SnapshotAll.
  destruct (Retry ctx DefaultBackoff isRetryablePG (snapshot_op ctx) (w, empty_Snapshot))
    as [r1 [w1 s1]] eqn:Hr.
  destruct (Retry_last ctx isRetryablePG (snapshot_op ctx) (λ _ ws, db_rows ws.1 = db_rows w)
    DefaultBackoff (w, empty_Snapshot) r1 (w1, s1)) with (n := 0%nat) as (n' & _ & Hres);
    [| |done|done|].
  - intros _ [w2 s2] e [w3 s3] Hw2. unfold snapshot_op.
    destruct (QueryAll ctx w2) as [[[l err]|e'] w4] eqn:Hq; [done|].
    intros [= -> <- <-]. simpl in *. by rewrite (QueryAll_rows _ _ _ _ Hq).
  - intros _ d [w2 s2] b [w3 s3] Hw2. simpl in *.
    destruct (wait_timer ctx d w2) as [b' w4] eqn:Hw. intros [= _ <- _].
    by rewrite (wait_rows _ _ _ _ _ Hw).
  - destruct r1 as [[]|e]; intros [= <- <-].
    + destruct Hres as ([w2 s2] & Hw2 & Hi). simpl in Hw2. unfold snapshot_op in Hi.
      destruct (QueryAll ctx w2) as [[[l err]|e'] w4] eqn:Hq; [|done]. injection Hi as <- <-.
      pose proof (QueryAll_rows _ _ _ _ Hq). split; [congruence|].
      apply QueryAll_complete in Hq as (rs & -> & Hp). rewrite Hw2 in Hp.
      by apply collect_rows_view.
    + by destruct Hres as [Hw1 _].
Qed.

#[local] Existing Instance postgres_repo.

(** What both getters need of a not-found answer. *)
Lemma get_absent {A} ctx (q : io W error (option A)) w w' (ty n : string) (f : Row → option A) :
  (∀ w r w', q w = (r, w') → db_rows w' = db_rows w) →
  (∀ w v w', q w = (Ok v, w') → ∃ r, db_rows w !! n = Some r ∧ r_mtype r = ty ∧ f r = v) →
  (∀ w e w', q w = (Err e, w') → (ErrNotFound ∉ chain e) ∧
    (errors_Is e ErrNoRows = true → (∀ r, db_rows w !! n = Some r → r_mtype r ≠ ty))) →
  get_nullable ctx q w = (Err ErrNotFound, w') →
  (db_rows w !! n ≫= λ r, if decide (r_mtype r = ty) then f r else None) = None.
Proof using HS HT.
  intros Hrows Hok Herr Hg. apply get_nullable_inv in Hg as [_ Hg]; [|done].
  destruct Hg as [(w1 & w2 & Hw1 & [[Hq _]|(e0 & Hq & He)])|Hc].
  - destruct (Hok _ _ _ Hq) as (r & Hr & Hty & Hf). rewrite <- Hw1, Hr. simpl.
    by rewrite decide_True.
  - apply Herr in Hq as [Hnf Hno]. destruct (errors_Is e0 ErrNoRows) eqn:Hn.
    + rewrite <- Hw1. destruct (db_rows w1 !! n) as [r|] eqn:Hr; [|done]. simpl.
      rewrite decide_False; [done|by apply Hno].
    + subst e0. by destruct Hnf; apply chain_self.
  - apply ctx_err_at_not_found in Hc as [Hc _]. by destruct Hc; apply chain_self.
Qed.

(** The repository honours the contract of [Ports], with one name space. *)
#[refine] Definition postgres_laws : RepoLaws W := {|
  repo_view := λ w, view_rows (db_rows w);
  repo_put := put_exclusive;
|}.
Proof using HS HT HR.
  all: intros *; simpl; unfold GetGauge, GetCounter, SetGauge, AddCounter.
  - intros Hg. apply get_nullable_inv in Hg as [-> _]; [done|apply QueryValue_rows].
  - intros Hg. apply get_nullable_inv in Hg as (_ & w1 & w2 & Hw1 & Hq); [|apply QueryValue_rows].
    apply QueryValue_ok in Hq as (r & Hr & Hty & Hv). rewrite Hw1 in Hr.
    unfold view_rows. simpl. rewrite lookup_omap, Hr. simpl. unfold gauge_of. by rewrite decide_True.
  - intros Hg. unfold view_rows. simpl. rewrite lookup_omap.
    eapply (get_absent _ _ _ _ Gauge n r_value) in Hg;
      [exact Hg|apply QueryValue_rows|apply QueryValue_ok|apply QueryValue_none].
  - intros Hg. apply get_nullable_inv in Hg as [-> _]; [done|apply QueryDelta_rows].
  - intros Hg. apply get_nullable_inv in Hg as (_ & w1 & w2 & Hw1 & Hq); [|apply QueryDelta_rows].
    apply QueryDelta_ok in Hq as (r & Hr & Hty & Hv). rewrite Hw1 in Hr.
    unfold view_rows. simpl. rewrite lookup_omap, Hr. simpl. unfold counter_of. by rewrite decide_True.
  - intros Hg. unfold view_rows. simpl. rewrite lookup_omap.
    eapply (get_absent _ _ _ _ Counter n r_delta) in Hg;
      [exact Hg|apply QueryDelta_rows|apply QueryDelta_ok|apply QueryDelta_none].
  - intros Hs. apply (retried_once ctx [UpsertGauge n Gauge v]) in Hs;
      [|apply Exec_err_none|intros *; rewrite eval_all_one; apply Exec_ok].
    by apply (eval_one_view (gauge_metric n v)) in Hs.
  - intros Hs. apply (retried_once ctx [UpsertCounter n Counter d]) in Hs;
      [|apply Exec_err_none|intros *; rewrite eval_all_one; apply Exec_ok].
    by apply (eval_one_view (counter_metric n d)) in Hs.
  - unfold UpdateMany. destruct items as [|it items]; [by intros [= <-]|]. intros Hs.
    apply (retried_once ctx (omap stmt_of (it :: items))) in Hs;
      [|apply attempt_once|intros * Ha; exact (attempt_rows _ _ _ _ _ Ha)].
    apply eval_all_view; [apply db_rows_wf|done].
  - unfold UpdateMany. destruct items as [|it items]; [done|]. intros Hs.
    apply (retried_once ctx (omap stmt_of (it :: items))) in Hs;
      [by rewrite Hs|apply attempt_once|intros * Ha; exact (attempt_rows _ _ _ _ _ Ha)].
  - intros Hs. apply (retried_once ctx [UpsertGauge n Gauge v]) in Hs;
      [by rewrite Hs|apply Exec_err_none|intros *; rewrite eval_all_one; apply Exec_ok].
  - intros Hs. apply (retried_once ctx [UpsertCounter n Counter d]) in Hs;
      [by rewrite Hs|apply Exec_err_none|intros *; rewrite eval_all_one; apply Exec_ok].
  - intros Hs. apply SnapshotAll_inv in Hs as [-> _]. done.
  - intros Hs. by apply SnapshotAll_inv in Hs as [_ ->].
Defined.
Lemma UpdateMany_once ctx items w w' :
  UpdateMany ctx items w = (Ok tt, w') →
  view_rows (db_rows w') = put_all put_exclusive items (view_rows (db_rows w)).
Proof using HS HT HR. exact (UpdateMany_ok (RepoLaws := postgres_laws) ctx items w w'). Qed.
End reliable.

(** ** Against the memory repository *)

(** A name is used with one type throughout. *)
Definition typed_snapshot (ty : string → string) (s : Snapshot) : Prop :=
  (∀ n v, Gauges s !! n = Some v → ty n = Gauge) ∧
  (∀ n d, Counters s !! n = Some d → ty n = Counter).

Lemma put_exclusive_put ty m s :
  typed_snapshot ty s → MType m = ty (ID m) → put_exclusive m s = put m s.
Proof.
  intros [Hg Hc] Hm. unfold put_exclusive, put.
  case_decide as E1; [|case_decide as E2]; repeat split_match; try done.
  - rewrite delete_id; [done|]. destruct (Counters s !! ID m) as [d|] eqn:E; [|done].
    apply Hc in E. by rewrite <- Hm, E1 in E.
  - rewrite delete_id; [done|]. destruct (Gauges s !! ID m) as [d|] eqn:E; [|done].
    apply Hg in E. by rewrite <- Hm, E2 in E.
Qed.

Lemma put_typed ty m s :
  typed_snapshot ty s → MType m = ty (ID m) → typed_snapshot ty (put m s).
Proof.
  intros [Hg Hc] Hm. split; intros n x.
  - rewrite put_lookup_gauge. case_decide as E; [|apply Hg].
    destruct E as [? <-]. destruct (Value m); [congruence|apply Hg].
  - rewrite put_lookup_counter. case_decide as E; [|apply Hc].
    destruct E as [? <-]. destruct (Delta m); [congruence|apply Hc].
Qed.

Lemma put_all_exclusive ty items s :
  typed_snapshot ty s → Forall (λ m, MType m = ty (ID m)) items →
  put_all put_exclusive items s = put_all put items s.
Proof.
  intros Hs Hl. revert s Hs. induction Hl as [|m items Hm _ IH]; intros s Hs; [done|].
  change (put_all put_exclusive items (put_exclusive m s) = put_all put items (put m s)).
  rewrite (put_exclusive_put ty) by done. by apply IH, put_typed.
Qed.

Lemma put_all_typed ty items s :
  typed_snapshot ty s → Forall (λ m, MType m = ty (ID m)) items → typed_snapshot ty (put_all put items s).
Proof.
  intros Hs Hl. revert s Hs. induction Hl as [|m items Hm _ IH]; intros s Hs; [done|]. by apply IH, put_typed.
Qed.

(** A batch applied any number of times, in both repositories. *)
Lemma times_memory ctx ty items k t t' m : table_wf t →
  typed_snapshot ty (Memory.view m) → Forall (λ it, MType it = ty (ID it)) items →
  view_rows t = Memory.view m → times k (omap stmt_of items) t = Some t' →
  view_rows t' = Memory.view (Nat.iter k (λ m, (Memory.UpdateMany ctx items m).2) m).
Proof.
  intros Ht Hty Hl. revert t m Ht Hty. induction k as [|k IH]; intros t m Ht Hty Hv; simpl times.
  - by intros [= <-].
  - destruct (eval_all (omap stmt_of items) t) as [t1|] eqn:He; [|done]. intros Hk.
    rewrite Nat.iter_succ_r. apply (IH t1); [by eapply eval_all_wf|..|done].
    + simpl. rewrite Memory.view_UpdateMany. by apply put_all_typed.
    + rewrite (eval_all_view _ _ _ Ht He), Hv, (put_all_exclusive ty) by done.
      simpl. by rewrite Memory.view_UpdateMany.
Qed.

(** [C15] The two repositories agree for metrics whose names keep one type, over
    any connection: from equal contents, a batch leaves on Postgres what the memory
    repository has after the same batch some number of times, at most four, and at
    least once when it succeeded.  It is exactly once when it succeeded over a
    connection that loses no reply; a lost reply may have it applied again. *)
Theorem repos_agree {W} `{HS : SqlLaws W} `{HT : !TimingLaws W}
    ctx ty items (m : Memory.Repo) (w : W) r (w' : W) :
  typed_snapshot ty (Memory.view m) → Forall (λ it, MType it = ty (ID it)) items →
  view_rows (db_rows w) = Memory.view m → UpdateMany ctx items w = (r, w') →
  let once m := (Memory.UpdateMany ctx items m).2 in
  (∃ k, (k ≤ 4)%nat ∧ view_rows (db_rows w') = Memory.view (Nat.iter k once m) ∧
    (is_ok r = true → items ≠ [] → (1 ≤ k)%nat)) ∧
  (Reliable W → r = Ok tt → view_rows (db_rows w') = Memory.view (once m)).
Proof.
  intros Hty Hl Hv Hu. cbv zeta. split.
  - destruct (UpdateMany_times _ _ _ _ _ Hu) as (k & Hk & Ht & Hok). exists k. split; [done|].
    split; [|done]. eapply times_memory; [apply db_rows_wf|done..].
  - intros HR ->. apply UpdateMany_once in Hu. rewrite Hu, Hv. simpl.
    rewrite Memory.view_UpdateMany. by apply (put_all_exclusive ty).
Qed.

(** ** Runs *)

Definition conn {lossy} (l : list PgConn.outcome) : PgConn.Conn lossy := PgConn.mkConn 0 ∅ [] l.

Definition demo_items : list Metrics :=
  [counter_metric "c" 2; gauge_metric "g" (mkFloat64 7); counter_metric "c" 3].

(** The reply to the [Commit] of the first attempt is lost. *)
Definition lost_commit : list PgConn.outcome := [PgConn.Lost].

Definition rows_of {lossy} {A} (x : A * PgConn.Conn lossy) : list (string * Row) :=
  map_to_list (PgConn.raw x.2).

Lemma UpdateMany_atomic_witness :
  ∃ k, (k ≤ 4)%nat ∧ times k (omap stmt_of demo_items) (db_rows (conn (lossy := true) [])) =
    Some (PgConn.rows (PgConn.raw
      (UpdateMany Background demo_items (conn (lossy := true) [PgConn.Failed; PgConn.Done])).2)).
Proof.
  destruct (UpdateMany_atomic (W := PgConn.Conn true) Background demo_items
    (conn [PgConn.Failed; PgConn.Done]) _ _ (surjective_pairing _)) as (k & Hk & Ht & _).
  exists k. split; [exact Hk|exact Ht].
Defined.

Lemma SetGauge_idempotent_witness :
  db_rows (SetGauge Background "g" (mkFloat64 7) (conn (lossy := true) [PgConn.Lost])).2 =
    <["g" := mkRow Gauge (Some (mkFloat64 7)) None]> (db_rows (conn (lossy := true) [PgConn.Lost])).
Proof.
  apply (SetGauge_idempotent (W := PgConn.Conn true) Background "g" (mkFloat64 7)
    (conn [PgConn.Lost])).
  vm_compute. reflexivity.
Defined.

Lemma AddCounter_counts_witness :
  ∃ k, 1 ≤ k ≤ 4 ∧
    db_rows (AddCounter Background "c" 5 (conn (lossy := true) [PgConn.Lost])).2 =
      <["c" := mkRow Counter None (Some (0 + k * 5))]> (db_rows (conn (lossy := true) [PgConn.Lost])).
Proof.
  destruct (AddCounter_counts (W := PgConn.Conn true) Background "c" 5 (conn [PgConn.Lost])
    (AddCounter Background "c" 5 (conn (lossy := true) [PgConn.Lost])).2) as (k & Hk & _ & Hr).
  { vm_compute. reflexivity. }
  exists k. split; [exact Hk|exact Hr].
Defined.

(** The first attempt fails without effect; the batch is applied once.  When the reply
    to its [Commit] is lost instead, it is applied more than once. *)
Lemma repos_agree_witness :
  view_rows (db_rows (UpdateMany Background demo_items (conn (lossy := false) [PgConn.Failed])).2) =
    Memory.view (Memory.UpdateMany Background demo_items Memory.New).2 ∧
  ∃ k, (1 ≤ k ≤ 4)%nat ∧
    view_rows (db_rows (UpdateMany Background demo_items (conn (lossy := true) lost_commit)).2) =
    Memory.view (Nat.iter k (λ m, (Memory.UpdateMany Background demo_items m).2) Memory.New) ∧
    Counters (view_rows (db_rows (UpdateMany Background demo_items (conn (lossy := true) lost_commit)).2)) !! "c" =
      Some 10.
Proof.
  assert (∀ ty, typed_snapshot ty (Memory.view Memory.New)) as Hempty.
  { intros ty. split; intros n x Hx; vm_compute in Hx; discriminate. }
  split.
  - apply (repos_agree (W := PgConn.Conn false) Background
      (λ n, if decide (n = "g") then Gauge else Counter) demo_items Memory.New (conn [PgConn.Failed])
      (Ok tt) _); [apply Hempty|repeat constructor|reflexivity|vm_compute; reflexivity|apply _|reflexivity].
  - destruct (repos_agree (W := PgConn.Conn true) Background
      (λ n, if decide (n = "g") then Gauge else Counter) demo_items Memory.New (conn lost_commit)
      (Ok tt) (UpdateMany Background demo_items (conn (lossy := true) lost_commit)).2)
      as [(k & Hk & Hv & Hok) _]; [apply Hempty|repeat constructor|reflexivity|vm_compute; reflexivity|].
    exists k. split; [split; [by apply Hok|exact Hk]|]. split; [exact Hv|vm_compute; reflexivity].
Defined.

(** A lost reply makes a counter increment count twice: the server applied
    it, the driver reported a reset connection, the error is retryable, and the
    second attempt adds the delta again; the caller is told that all went well. *)
Theorem AddCounter_twice :
  let x := AddCounter Background "c" 5 (conn (lossy := true) [PgConn.Lost; PgConn.Done]) in
  x.1 = Ok tt ∧ rows_of x = [("c", mkRow Counter None (Some 10))].
Proof. vm_compute. split; reflexivity. Qed.

(** A name used with both types is two metrics in memory and one in
    Postgres, where the last writer's type wins and the other value is lost. *)
Theorem repos_diverge :
  let items := [gauge_metric "x" (mkFloat64 7); counter_metric "x" 1] in
  (Memory.GetGauge Background "x" (Memory.UpdateMany Background items Memory.New).2).1 =
    Ok (mkFloat64 7) ∧
  (GetGauge Background "x"
    (UpdateMany Background items (conn (lossy := false) [])).2).1 = Err ErrNotFound ∧
  (GetCounter Background "x"
    (UpdateMany Background items (conn (lossy := false) [])).2).1 = Ok 1.
Proof. vm_compute. repeat split. Qed.

(** A result set cut short by a failing connection is taken for the whole
    table: [SnapshotAll] reports success with the rows it got, so a snapshot (or
    the file saved from it) can miss metrics the table holds. *)
Theorem SnapshotAll_truncated :
  let w := (UpdateMany Background demo_items (conn (lossy := true) [])).2 in
  let w := PgConn.mkConn (lossy := true) (PgConn.now w) (PgConn.raw w) [] [PgConn.Lost] in
  (SnapshotAll Background w).1 = Ok empty_Snapshot ∧ view_rows (db_rows w) ≠ empty_Snapshot.
Proof. vm_compute. split; [reflexivity|discriminate]. Qed.

(** What is retried: a dead connection, an error of the network, and the
    server's errors of class 08 (connection), of class 40 (rollback), and the six
    more codes listed; wrapping an error does not change the answer. *)
Theorem isRetryablePG_spec code p e :
  isRetryablePG ErrBadConn = true ∧ isRetryablePG (OpError e) = true ∧
  isRetryablePG (Wrap p e) = isRetryablePG e ∧
  isRetryablePG (PqError code) =
    (HasPrefix code "08" || HasPrefix code "40" ||
     bool_decide (code ∈ ["55P03"; "53300"; "57P01"; "57P02"; "57P03"; "57014"])).
Proof.
  split; [done|]. split.
  { unfold isRetryablePG, errors_As. simpl. by destruct (errors_Is _ _). }
  split.
  { unfold isRetryablePG, errors_As. by rewrite errors_Is_Wrap by done. }
  unfold isRetryablePG, errors_As, errors_Is. simpl.
  unfold isRetryablePGCode. case_decide as Hc.
  - repeat (apply elem_of_cons in Hc as [->|Hc]; [vm_compute; reflexivity|]).
    by apply not_elem_of_nil in Hc.
  - rewrite (bool_decide_false (code ∈ _)).
    2: { intros Hin. apply Hc. unfold retryablePGCodes. set_solver. }
    by repeat case_match.
Qed.

End PostgresSpec.
