(* ===== verification/Server.v ===== *)
(** * cmd/server and the migrations: the server assembled from its parts

    Choosing the repository and the persister (init.go), the audit sinks, the hook
    and the periodic save (main.go), over the adapters of the other files.  Files,
    network and database are their parameters; what the process logs is kept in
    the environment.  Listening and building the logger are parameters: the errors
    they return. *)

From S2P Require Import Prelude GoStrings GoInt GoErrors Domain Ports Json MetricsJson.
From S2P Require Import Memory Observer Service ServiceSpec AuditQueue FilePersister.
From S2P Require Import GoTime Retry HttpClient Config AuditSinks Postgres PgConn Util.
Open Scope Z_scope.

Module Server.
Import Retry MetricsJson HttpClient Config Audit Service ServiceSpec.

(** [sql.Open], and goose with the embedded files. *)
Class Migrations (P : Type) := {
  sql_Open : string → io P error unit;
  SetBaseFS : P → P;
  SetDialect : string → io P error unit;
  Up : string → io P error unit;
}.

(** ** internal/adapters/repository/postgres/migrate.go *)
Definition Migrate {P} `{Migrations P} : io P error unit := λ p,
  let p := SetBaseFS p in
  match SetDialect "postgres" p with
  | (Err err, p) => (Err err, p)
  | (Ok _, p) => Up "migrations" p
  end.

(** ** The environment of the process *)
Inductive logline : Type :=
  | SaveFailed (e : error)
  | PeriodicSaveFailed (e : error)
  | AuditFailed (e : error)
  | Connected
  | PostgresInitFailed (e : error)
  | RestoreFailed (e : error)
  | RestoreOk (file : string)
  | ConfigLine (cfg : ServerConfig)
  | InvalidAuditURL (e : error)
  | SyncFailed (e : error).

(** The sinks of audit events. *)
Inductive sink : Type :=
  | FileSink (path : string)
  | RemoteSink (c : AuditRemote.Client).

Inductive repository : Type :=
  | PostgresRepo
  | MemoryRepo (r : Memory.Repo).

Section server.
Context {P : Type} `{Postgres.SqlDB P} `{Timing P} `{Migrations P}.
Context {F : Type} `{FilePersister.FileSystem F}.
Context {A : Type} `{AuditFile.AppendFile A}.
Context {T : Type} `{Transport T}.
Context `{NetURL}.
Context (order : ∀ X, gmap string X → list (string * X)).

Record Env : Type := mkEnv { e_disk : F; e_audit : A; e_net : T; e_log : list logline }.

Definition log (l : logline) (env : Env) : Env :=
  mkEnv (e_disk env) (e_audit env) (e_net env) (e_log env ++ [l]).
Definition set_disk (env : Env) (d : F) : Env := mkEnv d (e_audit env) (e_net env) (e_log env).
Definition set_audit (env : Env) (a : A) : Env := mkEnv (e_disk env) a (e_net env) (e_log env).
Definition set_net (env : Env) (n : T) : Env := mkEnv (e_disk env) (e_audit env) n (e_log env).

(** ** cmd/server/init.go *)

(** [op] of [buildRepoAndPersister]. *)
Definition ping_and_migrate : io P error unit := λ p,
  match Postgres.PingDB Background p with
  | (Err err, p) => (Err err, p)
  | (Ok _, p) => Migrate p
  end.

Definition connect (dsn : string) : io P error unit := λ p,
  match sql_Open dsn p with
  | (Err err, p) => (Err err, p)
  | (Ok _, p) => Retry Background DefaultBackoff Postgres.isRetryablePG ping_and_migrate p
  end.

(** The memory repository with the file persister, restored if asked for. *)
Definition build_memory (cfg : ServerConfig) (env : Env) : repository * Env :=
  if Restore cfg then
    match FilePersister.Restore (File cfg) Background (e_disk env, Memory.New) with
    | (Err err, (d, repo)) => (MemoryRepo repo, log (RestoreFailed err) (set_disk env d))
    | (Ok _, (d, repo)) => (MemoryRepo repo, log (RestoreOk (File cfg)) (set_disk env d))
    end
  else (MemoryRepo Memory.New, env).

(** The persister is given by its path; [None] is nil. *)
Definition buildRepoAndPersister (cfg : ServerConfig) (p : P) (env : Env) :
    repository * option string * P * Env :=
  if negb (bool_decide (DSN cfg = EmptyString)) then
    match connect (DSN cfg) p with
    | (Ok _, p) => (PostgresRepo, None, p, log Connected env)
    | (Err err, p) =>
        let '(repo, env) := build_memory cfg (log (PostgresInitFailed err) env) in
        (repo, Some (File cfg), p, env)
    end
  else let '(repo, env) := build_memory cfg env in (repo, Some (File cfg), p, env).

(** ** cmd/server/main.go *)

(** [buildAuditor]: [Err] is [logger.Fatal]; a nil publisher is [None]. *)
Definition buildAuditor (cfg : ServerConfig) : result error (option (Observer.Subject sink unit)) :=
  if bool_decide (AuditFile cfg = EmptyString) && bool_decide (AuditURL cfg = EmptyString)
  then Ok None
  else
    let subject := Observer.SetErrorHandler (Some (Observer.NewSubject [])) (Some tt) in
    let subject := if negb (bool_decide (AuditFile cfg = EmptyString))
                   then Observer.Attach subject [Some (FileSink (AuditFile cfg))] else subject in
    if negb (bool_decide (AuditURL cfg = EmptyString)) then
      match AuditRemote.New (AuditURL cfg) with
      | Err err => Err err
      | Ok client => Ok (Observer.Attach subject [Some (RemoteSink client)])
      end
    else Ok subject.

Definition notify_sink (s : sink) (ctx : Context) (evt : Event) : io Env error unit := λ env,
  match s with
  | FileSink path => let '(r, a) := AuditFile.Notify (Some path) ctx evt (e_audit env) in (r, set_audit env a)
  | RemoteSink c => let '(r, n) := AuditRemote.Notify (Some c) ctx evt (e_net env) in (r, set_net env n)
  end.

(** The error handler of the subject logs. *)
Definition publish (subject : Observer.Subject sink unit) (ctx : Context) (evt : Event) (env : Env) : Env :=
  Observer.Publish notify_sink (λ _ err, log (AuditFailed err)) (λ _, Some subject) ctx evt env.

(** The closure [onChanged] of [run]. *)
Definition on_changed (persister : option string) (ctx : Context) (s : Snapshot) (env : Env) : Env :=
  match persister with
  | None => env
  | Some path =>
      match FilePersister.Save order path ctx s (e_disk env) with
      | (Err err, d) => log (SaveFailed err) (set_disk env d)
      | (Ok _, d) => set_disk env d
      end
  end.

(** The service of [run]; [now] is the clock. *)
Definition service (now : Env → Z) (persister : option string)
    (auditor : option (Observer.Subject sink unit)) : Service Env :=
  mkService (Some (on_changed persister)) (publish <$> auditor) (Some now).

(** Whether [run] starts the goroutine that saves periodically, with the interval of
    its ticker, and one round of it. *)
Definition ticks (cfg : ServerConfig) : bool :=
  bool_decide (DSN cfg = EmptyString) && (0 <? Interval cfg).

Definition ticker_interval (cfg : ServerConfig) : option Z :=
  if ticks cfg then Some (if Interval cfg <? 0 then 300 * GoTime.Second else Interval cfg) else None.

Definition periodic_save {R} `{MetricsRepo R} (persister : option string) (w : World R Env) : World R Env :=
  match RepoSnapshot Background (w_repo w) with
  | (Err _, r) => set_repo w r
  | (Ok s, r) =>
      let w := set_repo w r in
      match persister with
      | None => w
      | Some path =>
          match FilePersister.Save order path Background s (e_disk (w_env w)) with
          | (Err err, d) => set_env w (log (PeriodicSaveFailed err) (set_disk (w_env w) d))
          | (Ok _, d) => set_env w (set_disk (w_env w) d)
          end
      end
  end.

(** [run] up to serving requests: the error it returns, the exit of [logger.Fatal] in
    [buildAuditor], or the parts it is made of.  [NewProduction] is the error of
    building the logger. *)
Inductive started : Type :=
  | Refused (err : error)
  | Fatal (p : P) (env : Env)
  | Serving (cfg : ServerConfig) (repo : repository) (svc : Service Env) (p : P) (env : Env).

Definition run (NewProduction : option error) (now : Env → Z) (vars : environment) (args : list string)
    (p : P) (env : Env) : started :=
  match LoadServerConfig vars args with
  | Err err => Refused err
  | Ok cfg =>
      match NewProduction with
      | Some err => Refused err
      | None =>
          let '(repo, persister, p, env) := buildRepoAndPersister cfg p env in
          match buildAuditor cfg with
          | Err err => Fatal p (log (InvalidAuditURL err) env)
          | Ok auditor => Serving cfg repo (service now persister auditor) p (log (ConfigLine cfg) env)
          end
      end
  end.

(** The [http.Server] that [run] listens with; times in nanoseconds. *)
Record http_server : Type := mkHttpServer {
  Addr : string;
  ReadHeaderTimeout : Z;
  ReadTimeout : Z;
  WriteTimeout : Z;
  IdleTimeout : Z;
}.

Definition http_server_of (cfg : ServerConfig) : http_server :=
  mkHttpServer (Address cfg) (5 * GoTime.Second) (15 * GoTime.Second) (15 * GoTime.Second) (60 * GoTime.Second).

Definition ErrServerClosed : error := Errorf "http: Server closed".

(** How the process ends: [main] returns, or [log.Fatal] prints an error, or the
    logger's [Fatal] has printed one; the last two exit with status 1. *)
Inductive exit : Type :=
  | Returned
  | LogFatal (err : error)
  | LoggerFatal.

(** [main]: what is printed, the log, and how the process ends.  [ListenAndServe] is
    the error a listening server ends with; it never ends without one.  On the way out
    the deferred [svc.Close] waits for the audit goroutine ([AuditQueue]) and [Sync]
    flushes the logger; [Fatal] skips both. *)
Definition main (version date commit : string) (NewProduction : option error) (Sync : option error)
    (now : Env → Z) (vars : environment) (args : list string) (p : P) (env : Env)
    (ListenAndServe : http_server → error) : string * list logline * exit :=
  let '(lines, code) :=
    match run NewProduction now vars args p env with
    | Refused err => (e_log env, LogFatal err)
    | Fatal _ env => (e_log env, LoggerFatal)
    | Serving cfg _ _ _ env =>
        let err := ListenAndServe (http_server_of cfg) in
        (e_log env ++ match Sync with Some e => [SyncFailed e] | None => [] end,
         if errors_Is err ErrServerClosed then Returned else LogFatal err)
    end in
  (Util.PrintBuildInfo version date commit, lines, code).
End server.
Arguments Env : clear implicits.

(** ** Restarts *)
Section restarts.
Context {P : Type} `{Postgres.SqlDB P} `{Timing P} `{Migrations P}.
Context {F : Type} `{HF : FilePersister.FileLaws F}.
Context {A : Type} `{AuditFile.AppendFile A} {T : Type} `{Transport T} `{NetURL}.
Context (order : ∀ X, gmap string X → list (string * X)).
Context (order_perm : ∀ X (m : gmap string X), order X m ≡ₚ map_to_list m).
#[local] Abbreviation Env := (Env F A T).
Implicit Types env : Env.

(** The file that [Save] has left is what a new process starts with. *)
Definition restored (cfg : ServerConfig) (s : Snapshot) (p : P) (env : Env) : Prop :=
  ∃ m pers p' env', buildRepoAndPersister cfg p env = (MemoryRepo m, pers, p', env') ∧
    (Memory.view m = s ∨ ∃ e, last (e_log env') = Some (RestoreFailed e)).

Lemma saved_restored cfg s p env : DSN cfg = EmptyString → Restore cfg = true → sendable_snapshot s →
  FilePersister.file_at (e_disk env) (File cfg) =
    FilePersister.encode_file (FilePersister.flattenSnapshot order s) →
  restored cfg s p env.
Proof using HF order_perm.
  intros Hd Hr Hs Hf. unfold restored, buildRepoAndPersister, build_memory. rewrite Hd, Hr. simpl negb. cbn iota.
  destruct (FilePersister.Restore (File cfg) Background (e_disk env, Memory.New)) as [r [d m]] eqn:Hres.
  pose proof (FilePersister.Restore_text order order_perm _ _ _ _ _ _ _ Hs Hf Hres) as [Hv|[Hok _]].
  - destruct r; do 4 eexists; (split; [reflexivity|by left]).
  - destruct r as [|e]; [done|]. do 4 eexists. split; [reflexivity|]. right. exists e. simpl. apply last_snoc.
Qed.

Lemma on_changed_saves path ctx s env : FilePersister.is_temp path = false →
  let env' := on_changed order (Some path) ctx s env in
  (∃ e, last (e_log env') = Some (SaveFailed e)) ∨
  FilePersister.file_at (e_disk env') path =
    FilePersister.encode_file (FilePersister.flattenSnapshot order s).
Proof using HF.
  intros Ht. unfold on_changed. destruct (FilePersister.Save _ _ _ _ _) as [[[]|e] d] eqn:Hs; simpl.
  - right. by eapply FilePersister.Save_ok.
  - left. exists e. apply last_snoc.
Qed.

(** [C3] A batch stored by a request that runs alone survives a restart.  When
    [UpsertBatch] returns success, with no other request and no periodic save in between
    (concurrent ones can leave a file that misses a batch: [ServerProcess.Demo.stale_file]),
    and the repository then holds names in UTF-8 and finite values, either the last line
    of the log says that saving failed, or a process started with the same settings and
    RESTORE has the contents of the repository again, unless it logs that restoring
    failed. *)
Theorem batch_survives_restart cfg now auditor ctx items (w w' : World Memory.Repo Env) n p :
  DSN cfg = EmptyString → Restore cfg = true → FilePersister.is_temp (File cfg) = false →
  UpsertBatch (service order now (Some (File cfg)) auditor) ctx items w = (Ok n, w') →
  sendable_snapshot (Memory.view (w_repo w')) →
  (∃ e, last (e_log (w_env w')) = Some (SaveFailed e)) ∨
  restored cfg (Memory.view (w_repo w')) p (w_env w').
Proof using HF order_perm.
  intros Hd Hr Ht Hu Hs. pose proof (UpsertBatch_inv _ _ _ _ _ _ Hu) as Hi. cbv zeta in Hi.
  destruct Hi as (_ & _ & rp & _ & Hw'). unfold run_onChanged in Hw'. cbn [onChanged service] in Hw'.
  set (w1 := notifyAudit _ _ _ _) in Hw'. unfold on_repo in Hw'. cbn in Hw'. unfold Memory.Snapshot in Hw'.
  cbn in Hw'.
  assert (Memory.view (w_repo w') = mkSnapshot (Memory.gauges (w_repo w1)) (Memory.counters (w_repo w1))) as Hv
    by (by rewrite Hw').
  rewrite Hv in *. set (s := mkSnapshot _ _) in *.
  assert (w_env w' = on_changed order (Some (File cfg)) ctx s (w_env w1)) as He by (by rewrite Hw').
  rewrite He. destruct (on_changed_saves (File cfg) ctx s (w_env w1) Ht) as [Hx|Hx]; [by left|right].
  by apply saved_restored.
Qed.

(** The periodic save has the same effect for everything stored since,
    single updates included. *)
Theorem periodic_save_survives cfg (w : World Memory.Repo Env) p :
  DSN cfg = EmptyString → Restore cfg = true → FilePersister.is_temp (File cfg) = false →
  sendable_snapshot (Memory.view (w_repo w)) →
  let w' := periodic_save order (Some (File cfg)) w in
  w_repo w' = w_repo w ∧
  ((∃ e, last (e_log (w_env w')) = Some (PeriodicSaveFailed e)) ∨
   restored cfg (Memory.view (w_repo w)) p (w_env w')).
Proof using HF order_perm.
  intros Hd Hr Ht Hs. unfold periodic_save. cbn. unfold Memory.Snapshot. cbv beta iota zeta.
  change (mkSnapshot _ _) with (Memory.view (w_repo w)).
  change (w_env (set_repo w (w_repo w))) with (w_env w).
  destruct (FilePersister.Save _ _ _ _ _) as [[[]|e] d] eqn:Hsv; (split; [done|]); simpl.
  - right. apply saved_restored; [done..|]. by eapply FilePersister.Save_ok.
  - left. exists e. apply last_snoc.
Qed.
End restarts.

(** ** What single updates leave behind *)
Section disk.
Context {F : Type} `{FilePersister.FileSystem F} {A : Type} `{AuditFile.AppendFile A}.
Context {T : Type} `{Transport T} `{NetURL} (order : ∀ X, gmap string X → list (string * X)).
#[local] Abbreviation Env := (Env F A T).
Implicit Types env : Env.

Lemma publish_disk subject ctx evt env : e_disk (publish subject ctx evt env) = e_disk env.
Proof.
  unfold publish, Observer.Publish. generalize (Observer.observers subject) as obs.
  intros obs. revert env. induction obs as [|[o|] obs IH]; intros env; simpl; [done| |done].
  destruct (notify_sink o ctx evt env) as [r env1] eqn:Hn.
  assert (e_disk env1 = e_disk env) as <-.
  { unfold notify_sink in Hn. destruct o.
    - destruct (AuditFile.Notify _ _ _ _). by injection Hn as _ <-.
    - destruct (AuditRemote.Notify _ _ _ _). by injection Hn as _ <-. }
  rewrite IH. by destruct r, (Observer.onError subject).
Qed.

Lemma notifyAudit_disk {R} `{MetricsRepo R} now pers auditor ctx names (w : World R Env) :
  e_disk (w_env (notifyAudit (service order now pers auditor) ctx names w)) = e_disk (w_env w).
Proof.
  unfold notifyAudit, enqueueAudit. cbn [Service.auditor service]. destruct auditor as [subject|]; simpl; [|done].
  case_decide; [done|]. destruct (w_queue w) as [q|]; simpl; [by case_decide|]. apply publish_disk.
Qed.

(** A single update never writes the snapshot file, whatever the settings
    are: with STORE_INTERVAL=0, which starts no periodic save, only batches are
    written to it. *)
Theorem single_updates_not_saved {R} `{HL : RepoLaws R} now pers auditor ctx m (w : World R Env) :
  e_disk (w_env (Upsert (service order now pers auditor) ctx m w).2) = e_disk (w_env w).
Proof.
  rewrite Upsert_unfold. case_decide; [done|]. destruct (storable m) eqn:Hst; [|done].
  set (m' := set_ID m _). unfold io_bind.
  destruct (write_item ctx m' w) as [[u|e] w1] eqn:Hw; [|by apply write_item_inv in Hw as [-> _]].
  apply write_item_inv in Hw as [Hw1 _]; [|done].
  destruct (read_back _ ctx m' w1) as [r w2] eqn:Hr.
  apply read_back_inv in Hr as [_ Hr]; [|apply TrimSpace_idemp|done]. simpl.
  destruct r as [res|e]; [|unfold only_repo in *; by rewrite Hr, Hw1].
  destruct Hr as (_ & _ & _ & ->). rewrite notifyAudit_disk, Hw1. done.
Qed.

(** The ticker's interval is the one configured: the correction of a negative one is
    never reached. *)
Lemma ticker_interval_spec cfg i : ticker_interval cfg = Some i ↔
  ticks cfg = true ∧ i = Interval cfg ∧ 0 < i.
Proof.
  unfold ticker_interval, ticks. destruct (bool_decide _); simpl; [|naive_solver].
  destruct (Z.ltb_spec 0 (Interval cfg)); [|naive_solver].
  destruct (Z.ltb_spec (Interval cfg) 0); [lia|]. naive_solver.
Qed.

Lemma no_ticker cfg : Interval cfg = 0 ∨ DSN cfg ≠ EmptyString → ticks cfg = false.
Proof. unfold ticks. intros [->|Hd]; [by rewrite andb_false_r|by rewrite bool_decide_false]. Qed.
End disk.

(** ** Audit sinks *)
#[local] Arguments AuditFile.Notify : simpl never.
#[local] Arguments AuditRemote.Notify : simpl never.

Section sinks.
Context {F : Type} `{FilePersister.FileSystem F} {A : Type} `{AuditFile.AppendFile A}.
Context {T : Type} `{Timing T} `{Transport T} `{NetURL} (order : ∀ X, gmap string X → list (string * X)).
#[local] Abbreviation Env := (Env F A T).
Implicit Types env : Env.

Definition failed (r : result error unit) : list logline :=
  match r with Ok _ => [] | Err e => [AuditFailed e] end.

(** What publishing through the configured sinks amounts to. *)
Definition fan_out (cfg : ServerConfig) (ctx : Context) (evt : Event) (env : Env) : Env :=
  let '(rf, a) := if bool_decide (AuditFile cfg = EmptyString) then (Ok tt, e_audit env)
                  else AuditFile.Notify (Some (AuditFile cfg)) ctx evt (e_audit env) in
  let '(rr, n) := if bool_decide (AuditURL cfg = EmptyString) then (Ok tt, e_net env)
                  else AuditRemote.Notify (Some (AuditRemote.mkClient (AuditURL cfg))) ctx evt (e_net env) in
  mkEnv (e_disk env) a n (e_log env ++ failed rf ++ failed rr).

Lemma New_inv url c : AuditRemote.New url = Ok c → c = AuditRemote.mkClient url.
Proof.
  unfold AuditRemote.New. case_bool_decide; [done|]. destruct (ParseRequestURI url); [|done]. by intros [= <-].
Qed.

Lemma publish_sinks cfg auditor ctx evt env : buildAuditor cfg = Ok auditor →
  match auditor with Some subject => publish subject ctx evt env | None => env end =
    fan_out cfg ctx evt env.
Proof.
  unfold buildAuditor, fan_out, publish, Observer.Publish.
  destruct (bool_decide_reflect (AuditFile cfg = EmptyString)) as [Hf|Hf],
    (bool_decide_reflect (AuditURL cfg = EmptyString)) as [Hu|Hu]; simpl.
  - intros [= <-]. rewrite app_nil_r. by destruct env.
  - destruct (AuditRemote.New _) as [c|] eqn:Hc; [|done]. apply New_inv in Hc as ->. intros [= <-]. simpl.
    destruct (AuditRemote.Notify (Some (AuditRemote.mkClient (AuditURL cfg))) ctx evt (e_net env)) as [[u|e] n]; simpl; rewrite ?app_nil_r; done.
  - intros [= <-]. simpl. destruct (AuditFile.Notify (Some (AuditFile cfg)) ctx evt (e_audit env)) as [[u|e] a]; simpl; rewrite ?app_nil_r; done.
  - destruct (AuditRemote.New _) as [c|] eqn:Hc; [|done]. apply New_inv in Hc as ->. intros [= <-]. simpl.
    destruct (AuditFile.Notify (Some (AuditFile cfg)) ctx evt (e_audit env)) as [[u|e] a]; simpl;
      destruct (AuditRemote.Notify (Some (AuditRemote.mkClient (AuditURL cfg))) ctx evt (e_net env)) as [[u'|e'] n];
      unfold log; simpl; rewrite ?app_nil_r, <- ?app_assoc; done.
Qed.

(** Every configured sink gets every event, the file first, whether or not the
    other one fails; each failure is logged and goes no further, and the snapshot
    file is not involved. *)
Theorem audit_fan_out cfg auditor ctx evt env : buildAuditor cfg = Ok auditor →
  match auditor with Some subject => publish subject ctx evt env | None => env end =
    fan_out cfg ctx evt env.
Proof. apply publish_sinks. Qed.

(** An event is published with the context of the request that queued it.
    Once that context is done, as it is when the handler has returned, the event is
    not delivered to the audit URL: all that comes of it is a line in the log. *)
Theorem audit_after_request `{!AuditRemote.TransportLaws T} {R} `{MetricsRepo R}
    cfg auditor now pers m (w w' : World R Env) e :
  buildAuditor cfg = Ok auditor → AuditURL cfg ≠ EmptyString →
  w_worker w = WorkerPublishing m → AuditQueue.worker_step (service order now pers auditor) w w' →
  ctx_Err (ae_ctx m) (e_net (w_env w)) = Some e →
  ∃ err, last (e_log (w_env w')) = Some (AuditFailed err).
Proof.
  intros Ha Hu Hw Hs Hd. destruct Hs as [? ? ? Hw'|w0 m' pub Hm Hp|? Hw' _]; [congruence| |congruence].
  rewrite Hw in Hm. injection Hm as <-. cbn [w_env]. cbn [Service.auditor service] in Hp.
  destruct auditor as [subject|]; [|done]. injection Hp as <-.
  pose proof (publish_sinks _ _ (ae_ctx m) (ae_evt m) (w_env w0) Ha) as Hpub. cbn iota in Hpub. rewrite Hpub.
  unfold fan_out. destruct (if bool_decide (AuditFile cfg = _) then _ else _) as [rf a].
  rewrite bool_decide_false by done.
  destruct (AuditRemote.Notify_done (AuditRemote.mkClient (AuditURL cfg)) (ae_ctx m) (ae_evt m) _ _ Hd)
    as (err & n & ->). exists err. simpl. by rewrite app_assoc, last_snoc.
Qed.
End sinks.

(** ** Starting up *)
Section startup.
Context {P : Type} `{Postgres.SqlDB P} `{Timing P} `{Migrations P}.
Context {F : Type} `{HF : FilePersister.FileLaws F}.
Context {A : Type} `{AuditFile.AppendFile A} {T : Type} `{Transport T} `{NetURL}.
Context (order : ∀ X, gmap string X → list (string * X)).
#[local] Abbreviation Env := (Env F A T).
Implicit Types env : Env.

Lemma Restore_files path ctx f (m : Memory.Repo) r f' m' :
  FilePersister.Restore path ctx (f, m) = (r, (f', m')) →
  FilePersister.file_at f' = FilePersister.file_at f.
Proof using HF.
  unfold FilePersister.Restore. destruct (FilePersister.OpenFile path f) as [[u|e] f1] eqn:Ho;
    apply FilePersister.OpenFile_files in Ho.
  2: { case_match; by intros [= _ <- _]. }
  destruct (FilePersister.ReadAll path f1) as [body f2] eqn:Hr. apply FilePersister.ReadAll_files in Hr.
  destruct (match result_bind _ body with Ok _ => _ | Err _ => _ end) as [ret m1].
  destruct (FilePersister.CloseFile path f2) as [rc f3] eqn:Hc. apply FilePersister.CloseFile_files in Hc.
  intros Hres. assert (f' = f3) as -> by (destruct rc, ret; by injection Hres). congruence.
Qed.

(** What one finds after [buildRepoAndPersister]. *)
Definition started_with (cfg : ServerConfig) (p : P) (env : Env) (repo : repository)
    (pers : option string) (p' : P) (env' : Env) : Prop :=
  (∀ q, FilePersister.file_at (e_disk env') q = FilePersister.file_at (e_disk env) q) ∧
  match repo with
  | PostgresRepo => DSN cfg ≠ EmptyString ∧ connect (DSN cfg) p = (Ok tt, p') ∧ pers = None
  | MemoryRepo m => pers = Some (File cfg) ∧
      (Restore cfg = false → m = Memory.New) ∧
      (DSN cfg = EmptyString ∧ p' = p ∨
       ticks cfg = false ∧ ∃ e, connect (DSN cfg) p = (Err e, p') ∧ PostgresInitFailed e ∈ e_log env')
  end.

Lemma build_memory_inv cfg env repo env' : build_memory cfg env = (repo, env') →
  (∀ q, FilePersister.file_at (e_disk env') q = FilePersister.file_at (e_disk env) q) ∧
  (∃ l, e_log env' = e_log env ++ l) ∧
  ∃ m, repo = MemoryRepo m ∧ (Restore cfg = false → m = Memory.New).
Proof using HF.
  unfold build_memory. destruct (Restore cfg).
  - destruct (FilePersister.Restore _ _ _) as [[u|e] [d m]] eqn:Hr; intros [= <- <-];
      apply Restore_files in Hr;
      (split; [intros q; simpl; by rewrite Hr|split; [by eexists|exists m; by split]]).
  - intros [= <- <-]. split; [done|]. split; [exists []; by rewrite app_nil_r|eauto].
Qed.

Lemma build_inv cfg p env repo pers p' env' :
  buildRepoAndPersister cfg p env = (repo, pers, p', env') → started_with cfg p env repo pers p' env'.
Proof using HF.
  unfold buildRepoAndPersister, started_with. case_bool_decide as Hd; simpl.
  - destruct (build_memory cfg env) as [r e] eqn:Hb. intros [= <- <- <- <-].
    apply build_memory_inv in Hb as (Hf & _ & m & -> & Hm). split; [exact Hf|]. split; [done|].
    split; [exact Hm|by left].
  - destruct (connect (DSN cfg) p) as [[[]|e] p1] eqn:Hc; [by intros [= <- <- <- <-]|].
    destruct (build_memory cfg _) as [r e'] eqn:Hb. intros [= <- <- <- <-].
    apply build_memory_inv in Hb as (Hf & [l Hl] & m & -> & Hm). split; [exact Hf|].
    split; [done|]. split; [done|]. right. unfold ticks. rewrite bool_decide_false by done.
    split; [done|]. exists e. split; [done|]. rewrite Hl. simpl. set_solver.
Qed.

Lemma buildAuditor_inv cfg :
  match buildAuditor cfg with
  | Ok auditor => auditor = None ↔ AuditFile cfg = EmptyString ∧ AuditURL cfg = EmptyString
  | Err err => AuditURL cfg ≠ EmptyString ∧ AuditRemote.New (AuditURL cfg) = Err err
  end.
Proof.
  unfold buildAuditor. destruct (bool_decide_reflect (AuditFile cfg = EmptyString)) as [Hf|Hf],
    (bool_decide_reflect (AuditURL cfg = EmptyString)) as [Hu|Hu]; simpl; try naive_solver;
    destruct (AuditRemote.New (AuditURL cfg)); naive_solver.
Qed.

(** [C20] Starting the server: it refuses to start only for settings it cannot
    read, a logger that cannot be built, or an audit URL that is none, which it finds
    out after the repository was set up; otherwise it logs its settings and serves from
    Postgres when that can be reached and migrated, and else from memory with the
    snapshot file, which start-up does not change.  With a DSN and memory as the
    fallback, no periodic save is started. *)
Theorem startup_spec zap now vars args p env :
  match run order zap now vars args p env with
  | Refused err => LoadServerConfig vars args = Err err ∨
      is_ok (LoadServerConfig vars args) = true ∧ zap = Some err
  | Fatal p' env' => zap = None ∧
      ∃ cfg err repo pers env1, LoadServerConfig vars args = Ok cfg ∧ AuditURL cfg ≠ EmptyString ∧
        AuditRemote.New (AuditURL cfg) = Err err ∧ env' = log (InvalidAuditURL err) env1 ∧
        started_with cfg p env repo pers p' env1
  | Serving cfg repo svc p' env' => zap = None ∧ LoadServerConfig vars args = Ok cfg ∧
      ∃ pers auditor env1, svc = service order now pers auditor ∧ env' = log (ConfigLine cfg) env1 ∧
        started_with cfg p env repo pers p' env1 ∧
        (auditor = None ↔ AuditFile cfg = EmptyString ∧ AuditURL cfg = EmptyString)
  end.
Proof using HF.
  unfold run. destruct (LoadServerConfig vars args) as [cfg|err]; [|by left].
  destruct zap as [err|]; [by right|].
  destruct (buildRepoAndPersister cfg p env) as [[[repo pers] p'] env'] eqn:Hb. apply build_inv in Hb.
  pose proof (buildAuditor_inv cfg) as Ha.
  destruct (buildAuditor cfg) as [auditor|err]; (split; [done|]).
  - split; [done|]. by exists pers, auditor, env'.
  - exists cfg, err, repo, pers, env'. naive_solver.
Qed.

(** The process ends without an error only when the server it listened with was closed,
    and then the settings it ran with are in the log. *)
Theorem main_returns version date commit zap Sync now vars args p env listen :
  let '(out, lines, code) := main order version date commit zap Sync now vars args p env listen in
  out = Util.PrintBuildInfo version date commit ∧
  (code = Returned → ∃ cfg, LoadServerConfig vars args = Ok cfg ∧ ConfigLine cfg ∈ lines ∧
    errors_Is (listen (http_server_of cfg)) ErrServerClosed = true).
Proof.
  unfold main, run. destruct (LoadServerConfig vars args) as [cfg|err]; [|done].
  destruct zap as [err|]; [done|].
  destruct (buildRepoAndPersister cfg p env) as [[[repo pers] p'] env'].
  destruct (buildAuditor cfg) as [auditor|err]; [|done]. split; [done|].
  destruct (errors_Is _ _) eqn:He; [|done]. intros _. exists cfg. split; [done|]. split; [|done].
  simpl. rewrite !elem_of_app. left; right; left.
Qed.
End startup.

(** ** Example: a server without a database, its files on a disk without faults *)
Module Demo.
#[local] Existing Instance plain_url.
#[local] Existing Instance AuditFile.short_append.

#[local] Instance demo_migrations : Migrations (PgConn.Conn false) := {
  sql_Open _ p := (Ok tt, p);
  SetBaseFS p := p;
  SetDialect _ p := (Ok tt, p);
  Up _ p := match PgConn.schedule p with
            | PgConn.Failed :: l => (Err ErrBadConn, PgConn.mkConn (PgConn.now p) (PgConn.raw p) (PgConn.pending p) l)
            | _ => (Ok tt, p)
            end;
}.

(** A network that answers 204 as long as the context allows. *)
#[local] Instance demo_net : Transport Z := {
  Do ctx _ t := match ctx_Err ctx t with
                | Some e => (Err (UrlError false e), t)
                | None => (Ok (mkResponse 204 "204 No Content" ∅ (Ok EmptyString) None), t)
                end;
}.

#[local] Instance demo_net_laws : AuditRemote.TransportLaws Z.
Proof. split. intros ctx req w e He. cbn [Do demo_net]. rewrite He. eauto. Qed.

Definition conn : PgConn.Conn false := PgConn.mkConn 0 ∅ [] [].
Definition conf : ServerConfig :=
  mkServerConfig ":8080" "db.json" EmptyString EmptyString (300 * Second) true "audit.log" "http://audit:9".
Definition env0 : Env FilePersister.disk AuditFile.short_disk Z :=
  mkEnv (FilePersister.mkDisk ∅ []) (∅, []) 5 [].
Definition subject : Observer.Subject sink unit :=
  Observer.mkSubject [Some (FileSink "audit.log"); Some (RemoteSink (AuditRemote.mkClient "http://audit:9"))] (Some tt).
Definition clock0 (_ : Env FilePersister.disk AuditFile.short_disk Z) : Z := 1735584000.
Definition svc := service FilePersister.map_order clock0 (Some "db.json") (Some subject).
Definition world0 : World Memory.Repo (Env FilePersister.disk AuditFile.short_disk Z) :=
  Service.New svc Memory.New env0.
Definition batch : list Metrics := [counter_metric "hits" 5].

Lemma hits_sendable : sendable_snapshot (mkSnapshot ∅ {["hits" := 5]}).
Proof. exact FilePersister.demo_snapshot_sendable. Qed.

(** The batch is in the repository of the next process. *)
Lemma batch_survives_restart_witness : ∃ w', UpsertBatch svc Background batch world0 = (Ok 1%nat, w') ∧
  restored conf (mkSnapshot ∅ {["hits" := 5]}) conn (w_env w').
Proof.
  destruct (UpsertBatch svc Background batch world0) as [r w'] eqn:Hu.
  assert (r = Ok 1%nat ∧ Memory.view (w_repo w') = mkSnapshot ∅ {["hits" := 5]} ∧ e_log (w_env w') = [])
    as (-> & Hv & Hl) by (vm_compute in Hu; injection Hu as <- <-; by vm_compute).
  exists w'. split; [reflexivity|]. rewrite <- Hv.
  destruct (batch_survives_restart FilePersister.map_order (λ X m, reflexivity _) conf clock0 (Some subject)
    Background batch world0 w' 1%nat conn) as [[e He]|H];
    [reflexivity|reflexivity|reflexivity|exact Hu|rewrite Hv; exact hits_sendable| |exact H].
  rewrite Hl in He. discriminate He.
Defined.

Lemma periodic_save_survives_witness : ∃ w',
  periodic_save FilePersister.map_order (Some "db.json")
    (set_repo world0 (Memory.mkRepo ∅ {["hits" := 5]})) = w' ∧
  restored conf (mkSnapshot ∅ {["hits" := 5]}) conn (w_env w').
Proof.
  eexists. split; [reflexivity|].
  destruct (periodic_save_survives FilePersister.map_order (λ X m, reflexivity _) conf
    (set_repo world0 (Memory.mkRepo ∅ {["hits" := 5]})) conn) as [_ [[e He]|H]];
    [reflexivity|reflexivity|reflexivity|exact hits_sendable| |exact H].
  vm_compute in He. discriminate He.
Defined.

Lemma single_updates_not_saved_witness :
  e_disk (w_env (Upsert svc Background (counter_metric "hits" 5) world0).2) = FilePersister.mkDisk ∅ [].
Proof.
  exact (single_updates_not_saved FilePersister.map_order clock0 (Some "db.json") (Some subject)
    Background (counter_metric "hits" 5) world0).
Defined.

Lemma audit_fan_out_witness : ∃ r,
  buildAuditor conf = Ok r ∧
  match r with Some sj => publish sj Background (AuditFile.demo_event 3) env0 | None => env0 end =
    fan_out conf Background (AuditFile.demo_event 3) env0.
Proof.
  assert (buildAuditor conf = Ok (Some subject)) as Ha by reflexivity.
  exists (Some subject). split; [exact Ha|].
  exact (audit_fan_out conf (Some subject) Background (AuditFile.demo_event 3) env0 Ha).
Defined.

(** A request that ended at 4; the event is published at 5. *)
Definition ended : Context := mkContext (Some (4, Canceled)) (Some "10.0.0.1").

Lemma audit_after_request_witness : ∃ w' err,
  AuditQueue.worker_step svc (AuditQueue.set_worker world0 (Some [])
    (WorkerPublishing (mkAuditEvent ended (AuditFile.demo_event 3)))) w' ∧
  last (e_log (w_env w')) = Some (AuditFailed err).
Proof.
  pose (m := mkAuditEvent ended (AuditFile.demo_event 3)).
  pose (w := AuditQueue.set_worker world0 (Some []) (WorkerPublishing m)).
  pose proof (AuditQueue.worker_publish svc w m (publish subject) eq_refl eq_refl) as Hs.
  assert (buildAuditor conf = Ok (Some subject)) as Ha by reflexivity.
  assert (ctx_Err (ae_ctx m) (e_net (w_env w)) = Some ErrCanceled) as Hd by reflexivity.
  destruct (audit_after_request FilePersister.map_order conf (Some subject) clock0 (Some "db.json") m w _
    ErrCanceled Ha ltac:(discriminate) eq_refl Hs Hd) as [err Herr].
  eexists _, err. split; [exact Hs|exact Herr].
Defined.

(** A database whose migrations fail: the server comes up from memory. *)
Definition dead : PgConn.Conn false :=
  PgConn.mkConn 0 ∅ [] [PgConn.Failed; PgConn.Failed; PgConn.Failed; PgConn.Failed; PgConn.Failed].

Lemma startup_spec_witness : ∃ cfg m s p' env',
  run FilePersister.map_order None clock0 ∅ ["-d"; "postgres://db"] dead env0 =
    Serving cfg (MemoryRepo m) s p' env' ∧ ticks cfg = false.
Proof.
  pose proof (startup_spec FilePersister.map_order None clock0 ∅ ["-d"; "postgres://db"] dead env0) as H.
  assert (match run FilePersister.map_order None clock0 ∅ ["-d"; "postgres://db"] dead env0 with
          | Serving cfg (MemoryRepo _) _ _ _ => bool_decide (DSN cfg = "postgres://db")
          | _ => false end = true) as E by (vm_compute; reflexivity).
  destruct (run _ _ _ _ _ _) as [err|p1 env1|cfg [|m] s p' env']; [discriminate E|discriminate E|discriminate E|].
  exists cfg, m, s, p', env'. split; [reflexivity|]. apply bool_decide_eq_true in E.
  destruct H as (_ & _ & pers & auditor & env1 & _ & _ & (_ & _ & _ & [[Hd _]|[Ht _]]) & _); [|exact Ht].
  rewrite E in Hd. discriminate Hd.
Defined.
End Demo.
End Server.
