(* ===== verification/ServerProcess.v ===== *)
(** * cmd/server: requests and saves at the same time

    The running server over the memory repository: goroutines of requests and the
    goroutine that saves periodically, on one repository (whose calls are atomic, by
    [MemoryConc]) and one disk, with the audit goroutine beside them.  A step is one
    call on the repository or the operating system, so that the saves of the hook and
    of the ticker interleave call by call.  Run without interruption the steps of a
    goroutine are the functions of [Service], [FilePersister] and [Server]. *)

From S2P Require Import Prelude GoStrings GoInt GoErrors Domain Ports Json MetricsJson.
From S2P Require Import Memory Observer Service ServiceSpec AuditQueue FilePersister.
From S2P Require Import GoTime Retry HttpClient Config AuditSinks Postgres PgConn Util Server.
Open Scope Z_scope.

Module ServerProcess.
Import Retry MetricsJson HttpClient Config Audit Service ServiceSpec Server.

(** ** [writeJSONAtomic], call by call *)
Inductive saving : Type :=
  | SBegin (s : Snapshot)                             (* before [MkdirAll] *)
  | SCreate (s : Snapshot)                            (* before [CreateTemp] *)
  | SEncode (s : Snapshot) (tmp : string)             (* before [Encode] *)
  | SClose (s : Snapshot) (tmp : string)              (* before the first [Close] *)
  | SRename (s : Snapshot) (tmp : string)             (* before [Rename] *)
  | SCloseAgain (tmp : string) (retErr : error)       (* the deferred function, [tmp] not nil *)
  | SRemove (tmp : string) (retErr : error)           (* the deferred function, [cleanup] *)
  | SEnd (r : result error unit).

Section saving.
Context {F : Type} `{FilePersister.FileSystem F}.
Context (order : ∀ X, gmap string X → list (string * X)) (path : string).

Definition save_next (p : saving) (d : F) : saving * F :=
  let dir := FilePersister.Dir path in
  match p with
  | SBegin s =>
      if negb (bool_decide (dir = EmptyString)) && negb (bool_decide (dir = ".")) then
        match FilePersister.MkdirAll dir d with
        | (Err err, d) => (SEnd (Err (Wrap "mkdir: " err)), d)
        | (Ok _, d) => (SCreate s, d)
        end
      else (SCreate s, d)
  | SCreate s =>
      match FilePersister.CreateTemp dir d with
      | (Err err, d) => (SEnd (Err (Wrap "create tmp: " err)), d)
      | (Ok tmp, d) => (SEncode s tmp, d)
      end
  | SEncode s tmp =>
      match FilePersister.encode_file (FilePersister.flattenSnapshot order s) with
      | None => (SCloseAgain tmp (Wrap "encode: " (Errorf "json: unsupported value")), d)
      | Some text =>
          match FilePersister.WriteFile tmp text d with
          | (Err err, d) => (SCloseAgain tmp (Wrap "encode: " err), d)
          | (Ok _, d) => (SClose s tmp, d)
          end
      end
  | SClose s tmp =>
      match FilePersister.CloseFile tmp d with
      | (Err err, d) => (SCloseAgain tmp (Wrap "close tmp: " err), d)
      | (Ok _, d) => (SRename s tmp, d)
      end
  | SRename s tmp =>
      match FilePersister.Rename tmp path d with
      | (Err err, d) => (SRemove tmp (Wrap "rename: " err), d)
      | (Ok _, d) => (SEnd (Ok tt), d)
      end
  | SCloseAgain tmp err => let '(_, d) := FilePersister.CloseFile tmp d in (SRemove tmp err, d)
  | SRemove tmp err => let '(_, d) := FilePersister.Remove tmp d in (SEnd (Err err), d)
  | SEnd r => (SEnd r, d)
  end.

Fixpoint save_steps (n : nat) (p : saving) (d : F) : saving * F :=
  match n with
  | O => (p, d)
  | S n => let '(p, d) := save_next p d in save_steps n p d
  end.

(** Seven calls are the most a save makes; together they are [Save]. *)
Lemma save_steps_end n r d : save_steps n (SEnd r) d = (SEnd r, d).
Proof. induction n as [|n IH]; [done|]. apply IH. Qed.

Theorem save_steps_Save ctx s d :
  let '(r, d') := FilePersister.Save order path ctx s d in save_steps 7 (SBegin s) d = (SEnd r, d').
Proof.
  unfold FilePersister.Save, FilePersister.writeJSONAtomic. cbn [save_steps save_next].
  set (made := if negb _ && negb _ then _ else (Ok tt, d)).
  assert ((if negb (bool_decide (FilePersister.Dir path = EmptyString)) && negb (bool_decide (FilePersister.Dir path = "."))
     then match FilePersister.MkdirAll (FilePersister.Dir path) d with
          | (Err err, d) => (SEnd (Err (Wrap "mkdir: " err)), d) | (Ok _, d) => (SCreate s, d) end
     else (SCreate s, d)) =
    match made with (Err err, d) => (SEnd (Err (Wrap "mkdir: " err)), d) | (Ok _, d) => (SCreate s, d) end) as ->.
  { unfold made. by destruct (negb _ && negb _). }
  destruct made as [[u|e] d1]; [|done]. cbn [save_next].
  destruct (FilePersister.CreateTemp _ d1) as [[tmp|e] d2]; [|done]. cbn [save_next].
  destruct (FilePersister.encode_file _) as [text|];
    [destruct (FilePersister.WriteFile tmp text d2) as [[u1|e] d3];
       [cbn [save_next]; destruct (FilePersister.CloseFile tmp d3) as [[u2|e] d4];
          [cbn [save_next]; destruct (FilePersister.Rename tmp path d4) as [[u3|e] d5]; [done|]|]|]|];
    unfold FilePersister.leave; cbn [save_next].
  all: try (destruct (FilePersister.CloseFile tmp _) as [[u4|e4] d6]; cbn [save_next]);
    by destruct (FilePersister.Remove tmp _) as [[u5|e5] d7].
Qed.
End saving.

(** ** Goroutines *)

(** A request of [UpsertBatch] after [collect], one of [Upsert] after its checks,
    the goroutine of the ticker, and a request that was answered. *)
Inductive thread : Type :=
  | BatchUpdate (ctx : Context) (valid : list Metrics) (names : list string)
  | BatchNotify (ctx : Context) (names : list string) (n : nat)
  | BatchSnapshot (ctx : Context) (n : nat)
  | BatchSave (n : nat) (sv : saving)
  | SingleWrite (ctx : Context) (m : Metrics)
  | SingleRead (ctx : Context) (m : Metrics)
  | Waiting
  | TickSave (sv : saving)
  | Answered (err : option error).

Section threads.
Context {F : Type} `{FilePersister.FileSystem F} {A : Type} `{AuditFile.AppendFile A}.
Context {T : Type} `{Transport T} `{NetURL}.
Context (order : ∀ X, gmap string X → list (string * X)) (now : Env F A T → Z) (path : string).
Context (auditor : option (Observer.Subject sink unit)).

#[local] Abbreviation Env := (Env F A T).
#[local] Abbreviation World := (World Memory.Repo Env).
#[local] Abbreviation svc := (service order now (Some path) auditor).

Definition batch_thread (ctx : Context) (items : list Metrics) : thread :=
  let '(valid, names) := collect items [] [] in
  if decide (length valid = 0%nat) then Answered (Some ErrInvalidType) else BatchUpdate ctx valid names.

Definition single_thread (ctx : Context) (m : Metrics) : thread :=
  let m := set_ID m (TrimSpace (ID m)) in
  if decide (ID m = EmptyString) then Answered (Some ErrNotFound)
  else if storable m then SingleWrite ctx m else Answered (Some ErrInvalidType).

Definition error_of {X} (r : result error X) : option error :=
  match r with Ok _ => None | Err e => Some e end.

(** The disk is the part of the environment a save works on. *)
Definition on_disk (f : F → saving * F) (w : World) : saving * World :=
  let '(sv, d) := f (e_disk (w_env w)) in (sv, set_env w (set_disk (w_env w) d)).

Definition thread_next (t : thread) (w : World) : thread * World :=
  match t with
  | BatchUpdate ctx valid names =>
      match on_repo (UpdateMany ctx valid) w with
      | (Err err, w) => (Answered (Some err), w)
      | (Ok _, w) => (BatchNotify ctx names (length valid), w)
      end
  | BatchNotify ctx names n => (BatchSnapshot ctx n, notifyAudit svc ctx names w)
  | BatchSnapshot ctx n =>
      match on_repo (RepoSnapshot ctx) w with
      | (Err _, w) => (Answered None, w)
      | (Ok s, w) => (BatchSave n (SBegin s), w)
      end
  | BatchSave n (SEnd (Ok _)) => (Answered None, w)
  | BatchSave n (SEnd (Err err)) => (Answered None, set_env w (log (SaveFailed err) (w_env w)))
  | BatchSave n sv => let '(sv, w) := on_disk (save_next order path sv) w in (BatchSave n sv, w)
  | SingleWrite ctx m =>
      match write_item ctx m w with
      | (Err err, w) => (Answered (Some err), w)
      | (Ok _, w) => (SingleRead ctx m, w)
      end
  | SingleRead ctx m => let '(r, w) := read_back svc ctx m w in (Answered (error_of r), w)
  | Waiting =>
      match on_repo (RepoSnapshot Background) w with
      | (Err _, w) => (Waiting, w)
      | (Ok s, w) => (TickSave (SBegin s), w)
      end
  | TickSave (SEnd (Ok _)) => (Waiting, w)
  | TickSave (SEnd (Err err)) => (Waiting, set_env w (log (PeriodicSaveFailed err) (w_env w)))
  | TickSave sv => let '(sv, w) := on_disk (save_next order path sv) w in (TickSave sv, w)
  | Answered err => (Answered err, w)
  end.

(** ** Steps of the process; [st_past] is the history of the repository. *)
Record State : Type := mkState {
  st_world : World;
  st_threads : list thread;
  st_past : list Snapshot;
}.

Definition init (cfg : ServerConfig) (w : World) : State :=
  mkState w (if ticks cfg then [Waiting] else []) [Memory.view (w_repo w)].

Inductive step : State → State → Prop :=
  | step_thread w ts past i t t' w' : ts !! i = Some t → thread_next t w = (t', w') →
      step (mkState w ts past) (mkState w' (<[i := t']> ts) (past ++ [Memory.view (w_repo w')]))
  | step_batch w ts past ctx items :
      step (mkState w ts past) (mkState w (ts ++ [batch_thread ctx items]) past)
  | step_single w ts past ctx m :
      step (mkState w ts past) (mkState w (ts ++ [single_thread ctx m]) past)
  | step_audit w ts past w' : AuditQueue.worker_step svc w w' →
      step (mkState w ts past) (mkState w' ts past).

(** ** One goroutine by itself *)
Fixpoint run_thread (n : nat) (t : thread) (w : World) : thread * World :=
  match n with
  | O => (t, w)
  | S n => let '(t, w) := thread_next t w in run_thread n t w
  end.

Lemma set_disk_twice env d d' : set_disk (set_disk env d) d' = set_disk env d' :> Env.
Proof. done. Qed.

Lemma set_disk_same env : set_disk env (e_disk env) = env :> Env.
Proof. by destruct env. Qed.

Lemma set_env_same (w : World) : set_env w (w_env w) = w.
Proof. by destruct w. Qed.

(** What a save leaves in the world; [failed] is its log line. *)
Definition saved (failed : error → logline) (w : World) (r : result error unit) (d : F) : World :=
  match r with
  | Ok _ => set_env w (set_disk (w_env w) d)
  | Err err => set_env w (log (failed err) (set_disk (w_env w) d))
  end.

Lemma saved_on_disk failed w d r d' : saved failed (set_env w (set_disk (w_env w) d)) r d' = saved failed w r d'.
Proof. by destruct r. Qed.

(** A goroutine [wrap sv] that runs a save and then logs is [Save] in the end. *)
Lemma run_saving wrap failed t' sv k w r d' :
  (∀ sv w, (∀ r, sv ≠ SEnd r) → thread_next (wrap sv) w =
    let '(sv, w) := on_disk (save_next order path sv) w in (wrap sv, w)) →
  (∀ r w, thread_next (wrap (SEnd r)) w = (t', saved failed w r (e_disk (w_env w)))) →
  save_steps order path k sv (e_disk (w_env w)) = (SEnd r, d') →
  ∃ j, run_thread j (wrap sv) w = (t', saved failed w r d').
Proof.
  intros Hgo Hend. assert (∀ r0 w, ∃ j, run_thread j (wrap (SEnd r0)) w = (t', saved failed w r0 (e_disk (w_env w))))
    as Hlast by (intros r0 w0; exists 1%nat; cbn [run_thread]; by rewrite Hend).
  revert sv w. induction k as [|k IH]; intros sv w Hk; [injection Hk as -> <-; apply Hlast|].
  assert ((∃ r0, sv = SEnd r0) ∨ ∀ r0, sv ≠ SEnd r0) as [[r0 ->]|Hne]
    by (destruct sv; eauto; right; by intros r0).
  - rewrite save_steps_end in Hk. injection Hk as -> <-. apply Hlast.
  - cbn [save_steps] in Hk. destruct (save_next order path sv (e_disk (w_env w))) as [sv1 d1] eqn:Hn.
    destruct (IH sv1 (set_env w (set_disk (w_env w) d1)) Hk) as [j Hj]. exists (S j). cbn [run_thread].
    rewrite Hgo by done. unfold on_disk. rewrite Hn. by rewrite Hj, saved_on_disk.
Qed.

Lemma run_batch_save ctx s n w :
  let '(r, d) := FilePersister.Save order path ctx s (e_disk (w_env w)) in
  ∃ j, run_thread j (BatchSave n (SBegin s)) w = (Answered None, saved SaveFailed w r d).
Proof.
  pose proof (save_steps_Save order path ctx s (e_disk (w_env w))) as Hk.
  destruct (FilePersister.Save _ _ _ _ _) as [r d]. eapply (run_saving (BatchSave n)); [| |exact Hk].
  - intros sv w0 Hne. destruct sv; try done. by destruct (Hne r0).
  - intros [u|e] w0; simpl; rewrite set_disk_same; [by rewrite set_env_same|done].
Qed.

Lemma run_tick_save ctx s w :
  let '(r, d) := FilePersister.Save order path ctx s (e_disk (w_env w)) in
  ∃ j, run_thread j (TickSave (SBegin s)) w = (Waiting, saved PeriodicSaveFailed w r d).
Proof.
  pose proof (save_steps_Save order path ctx s (e_disk (w_env w))) as Hk.
  destruct (FilePersister.Save _ _ _ _ _) as [r d]. eapply (run_saving TickSave); [| |exact Hk].
  - intros sv w0 Hne. destruct sv; try done. by destruct (Hne r0).
  - intros [u|e] w0; simpl; rewrite set_disk_same; [by rewrite set_env_same|done].
Qed.

(** A batch that nobody interrupts is [UpsertBatch], with its answer; *)
Theorem batch_alone ctx items w :
  let '(r, w') := UpsertBatch svc ctx items w in
  ∃ j, run_thread j (batch_thread ctx items) w = (Answered (error_of r), w').
Proof.
  unfold UpsertBatch, batch_thread. destruct (collect items [] []) as [valid names].
  case_decide; [by exists 0%nat|]. unfold io_bind.
  destruct (on_repo (UpdateMany ctx valid) w) as [[[]|e] w1] eqn:Hu; [|by exists 1%nat; cbn [run_thread thread_next]; rewrite Hu].
  set (w2 := notifyAudit svc ctx names w1). unfold run_onChanged. cbn [onChanged service].
  destruct (on_repo (RepoSnapshot ctx) w2) as [[s|e] w3] eqn:Hs.
  - pose proof (run_batch_save ctx s (length valid) w3) as Hsave. unfold on_changed.
    destruct (FilePersister.Save order path ctx s (e_disk (w_env w3))) as [r d]. destruct Hsave as [j Hj].
    exists (S (S (S j))). cbn [run_thread thread_next]. rewrite Hu. cbn [thread_next]. fold w2. rewrite Hs. cbv beta iota. rewrite Hj. by destruct r.
  - exists 3%nat. cbn [run_thread thread_next]. rewrite Hu. cbn [thread_next]. fold w2. by rewrite Hs.
Qed.

(** a single update is [Upsert], with its error; *)
Theorem single_alone ctx m w :
  let '(r, w') := Upsert svc ctx m w in
  ∃ j, run_thread j (single_thread ctx m) w = (Answered (error_of r), w').
Proof.
  rewrite Upsert_unfold. unfold single_thread. cbn [ID set_ID].
  case_decide; [by exists 0%nat|]. change (storable (set_ID m (TrimSpace (ID m)))) with (storable m).
  destruct (storable m); [|by exists 0%nat]. unfold io_bind. set (m' := set_ID m _).
  destruct (write_item ctx m' w) as [[[]|e] w1] eqn:Hw;
    [|by exists 1%nat; cbn [run_thread thread_next]; rewrite Hw].
  destruct (read_back svc ctx m' w1) as [r w2] eqn:Hr. exists 2%nat. cbn [run_thread thread_next].
  rewrite Hw. cbn [thread_next]. by rewrite Hr.
Qed.

(** and a round of the ticker is [periodic_save]. *)
Theorem tick_alone w : ∃ j, run_thread j Waiting w = (Waiting, periodic_save order (Some path) w).
Proof.
  unfold periodic_save. destruct (RepoSnapshot Background (w_repo w)) as [[s|e] r] eqn:Hs.
  - pose proof (run_tick_save Background s (set_repo w r)) as Hsave.
    change (w_env (set_repo w r)) with (w_env w) in *.
    destruct (FilePersister.Save order path Background s (e_disk (w_env w))) as [rs d]. destruct Hsave as [j Hj].
    exists (S j). cbn [run_thread thread_next]. unfold on_repo. rewrite Hs. cbv beta iota. rewrite Hj. by destruct rs.
  - exists 1%nat. cbn [run_thread thread_next]. unfold on_repo. by rewrite Hs.
Qed.
End threads.

(** ** Saves do not disturb each other's files *)
Section files.
Context {F : Type} `{HF : FilePersister.FileLaws F}.
Context (order : ∀ X, gmap string X → list (string * X)) (path : string).
Context (not_temp : FilePersister.is_temp path = false).
#[local] Abbreviation text s := (FilePersister.encode_file (FilePersister.flattenSnapshot order s)).
#[local] Abbreviation file_at := FilePersister.file_at.

(** The temporary file a save owns. *)
Definition owns (sv : saving) : option string :=
  match sv with
  | SEncode _ n | SClose _ n | SRename _ n | SCloseAgain n _ | SRemove n _ => Some n
  | _ => None
  end.

(** What a save has done so far, when the repository has had the contents [past]. *)
Definition save_ok (past : list Snapshot) (d : F) (sv : saving) : Prop :=
  match sv with
  | SBegin s | SCreate s => s ∈ past
  | SEncode s n => s ∈ past ∧ FilePersister.is_temp n = true ∧ file_at d n = Some EmptyString
  | SClose s n | SRename s n =>
      s ∈ past ∧ FilePersister.is_temp n = true ∧ is_Some (text s) ∧ file_at d n = text s
  | SCloseAgain n _ | SRemove n _ => FilePersister.is_temp n = true ∧ is_Some (file_at d n)
  | SEnd _ => True
  end.

Definition file_ok (past : list Snapshot) (old : option string) (d : F) : Prop :=
  file_at d path = old ∨ ∃ s, s ∈ past ∧ is_Some (text s) ∧ file_at d path = text s.

(** What one call of a save leaves alone: every file that was there but its own and
    the target. *)
Definition undisturbed (sv : saving) (d d' : F) : Prop :=
  ∀ p, p ≠ path → is_Some (file_at d p) → owns sv ≠ Some p → file_at d' p = file_at d p.

Record save_step_ok (past : list Snapshot) (old : option string) (sv : saving) (d : F) (sv' : saving) (d' : F) : Prop := {
  so_ok : save_ok past d' sv';
  so_file : file_ok past old d → file_ok past old d';
  so_frame : undisturbed sv d d';
  so_owns : owns sv' = owns sv ∨ owns sv' = None ∨ ∃ n, owns sv' = Some n ∧ file_at d n = None;
}.

(** A call that changes no file, or only the own temporary one. *)
Lemma same_files past old sv d sv' d' : file_at d' = file_at d → save_ok past d' sv' →
  owns sv' = owns sv ∨ owns sv' = None → save_step_ok past old sv d sv' d'.
Proof.
  intros Hf Hok Ho. split; [done| | |naive_solver].
  - unfold file_ok. by rewrite Hf.
  - intros p _ _ _. by rewrite Hf.
Qed.

Lemma own_file past old sv d sv' d' n : owns sv = Some n → FilePersister.is_temp n = true →
  (∀ p, p ≠ n → file_at d' p = file_at d p) → save_ok past d' sv' →
  owns sv' = owns sv ∨ owns sv' = None → save_step_ok past old sv d sv' d'.
Proof using not_temp.
  intros Hn Ht Hf Hok Ho. assert (path ≠ n) as Hp by congruence. split; [done| | |naive_solver].
  - unfold file_ok. by rewrite Hf.
  - intros p _ _ Hne. apply Hf. congruence.
Qed.

Lemma save_next_ok past old sv d sv' d' : save_ok past d sv → save_next order path sv d = (sv', d') →
  save_step_ok past old sv d sv' d'.
Proof using HF not_temp.
  intros Hok Hs. destruct sv as [s|s|s n|s n|s n|n e|n e|r]; cbn [save_next] in Hs.
  - destruct (negb _ && negb _); [|injection Hs as <- <-; apply same_files; by auto].
    destruct (FilePersister.MkdirAll _ d) as [[u|e] d1] eqn:Hm; apply FilePersister.MkdirAll_files in Hm;
      injection Hs as <- <-; apply same_files; by auto.
  - destruct (FilePersister.CreateTemp _ d) as [[n|e] d1] eqn:Hc; injection Hs as <- <-.
    + apply FilePersister.CreateTemp_ok in Hc as (Ht & Hnone & Hempty & Hframe).
      assert (path ≠ n) as Hp by congruence. split; simpl; [done| | |right; right; by exists n].
      * unfold file_ok. by rewrite Hframe.
      * intros p _ [x Hx] _. apply Hframe. congruence.
    + apply FilePersister.CreateTemp_err in Hc. apply same_files; by auto.
  - destruct Hok as (Hin & Ht & Hempty). destruct (text s) as [t|] eqn:Htext;
      [|injection Hs as <- <-; apply same_files; [done|split; [done|by rewrite Hempty]|by left]].
    destruct (FilePersister.WriteFile n t d) as [[[]|e] d1] eqn:Hw; injection Hs as <- <-;
      (eapply (own_file _ _ _ _ _ _ n); [done|done|by eapply FilePersister.WriteFile_frame| |by left]).
    + simpl. rewrite Htext. split; [done|]. split; [done|]. split; [done|].
      by rewrite (FilePersister.WriteFile_ok _ _ _ _ _ Hw Hempty).
    + split; [done|]. eapply FilePersister.WriteFile_exists; [exact Hw|]. by rewrite Hempty.
  - destruct Hok as (Hin & Ht & Hsome & Hf).
    destruct (FilePersister.CloseFile n d) as [[u|e] d1] eqn:Hc; apply FilePersister.CloseFile_files in Hc;
      injection Hs as <- <-; (apply same_files; [done| |by left]).
    + simpl. by rewrite Hc.
    + split; [done|]. by rewrite Hc, Hf.
  - destruct Hok as (Hin & Ht & Hsome & Hf). assert (n ≠ path) as Hne by congruence.
    destruct (FilePersister.Rename n path d) as [[[]|e] d1] eqn:Hr; injection Hs as <- <-.
    + destruct (FilePersister.Rename_ok _ _ _ _ Hr Hne) as (Hpath & _ & Hframe).
      split; [done| | |by right; left].
      * intros _. right. exists s. by rewrite Hpath.
      * intros p Hp _ Hn. simpl in Hn. apply Hframe; congruence.
    + apply FilePersister.Rename_err in Hr. apply same_files; [done| |by left].
      split; [done|]. by rewrite Hr, Hf.
  - destruct Hok as (Ht & Hsome). destruct (FilePersister.CloseFile n d) as [u d1] eqn:Hc.
    apply FilePersister.CloseFile_files in Hc. injection Hs as <- <-.
    apply same_files; [done|split; [done|by rewrite Hc]|by left].
  - destruct Hok as (Ht & Hsome). destruct (FilePersister.Remove n d) as [u d1] eqn:Hr. injection Hs as <- <-.
    eapply (own_file _ _ _ _ _ _ n); [done|done|by eapply FilePersister.Remove_frame|done|by right].
  - injection Hs as <- <-. apply same_files; by auto.
Qed.

Lemma save_ok_owned past d sv n : save_ok past d sv → owns sv = Some n →
  FilePersister.is_temp n = true ∧ is_Some (file_at d n).
Proof.
  destruct sv; simpl; intros Hok [= ->]; try done.
  - destruct Hok as (_ & ? & ->). by split.
  - destruct Hok as (_ & ? & ? & ->). by split.
  - destruct Hok as (_ & ? & ? & ->). by split.
Qed.

(** A save of another goroutine keeps what this one has done. *)
Lemma save_ok_other past past' d d' sv sv0 : save_ok past d sv → (∀ s, s ∈ past → s ∈ past') →
  undisturbed sv0 d d' → (∀ n, owns sv = Some n → owns sv0 ≠ Some n) → save_ok past' d' sv.
Proof using not_temp.
  intros Hok Hp Hu Hne.
  assert (∀ n, owns sv = Some n → file_at d' n = file_at d n) as Hf.
  { intros n Hn. destruct (save_ok_owned _ _ _ _ Hok Hn) as [Ht Hsome]. apply Hu; [congruence|done|by apply Hne]. }
  destruct sv as [s|s|s n|s n|s n|n e|n e|r]; simpl in *; rewrite ?(Hf _ eq_refl); naive_solver.
Qed.
End files.

(** ** Every state of the process *)
Definition saving_of (t : thread) : saving :=
  match t with BatchSave _ sv | TickSave sv => sv | _ => SEnd (Ok tt) end.

Section process.
Context {F : Type} `{HF : FilePersister.FileLaws F} {A : Type} `{AuditFile.AppendFile A}.
Context {T : Type} `{Transport T} `{NetURL}.
Context (order : ∀ X, gmap string X → list (string * X)) (now : Env F A T → Z) (path : string).
Context (auditor : option (Observer.Subject sink unit)).
Context (not_temp : FilePersister.is_temp path = false).

#[local] Abbreviation World := (World Memory.Repo (Env F A T)).
#[local] Abbreviation svc := (service order now (Some path) auditor).
#[local] Abbreviation step := (step order now path auditor).
#[local] Abbreviation thread_next := (thread_next order now path auditor).
#[local] Abbreviation disk w := (e_disk (w_env (w : World))).
#[local] Abbreviation view w := (Memory.view (w_repo (w : World))).
Implicit Types (w : World) (st : State (F := F) (A := A) (T := T)).

Lemma on_disk_next sv w sv' w' : on_disk (save_next order path sv) w = (sv', w') →
  save_next order path sv (disk w) = (sv', disk w').
Proof. unfold on_disk. destruct (save_next _ _ _ _) as [sv1 d1]. by intros [= <- <-]. Qed.

Lemma notify_disk ctx names w : disk (notifyAudit svc ctx names w) = disk w.
Proof. exact (notifyAudit_disk order now (Some path) auditor ctx names w). Qed.

(** A goroutine makes a call of its save, or leaves the disk alone and has the
    contents of the repository as what it may save next. *)
Lemma thread_next_inv t w t' w' : thread_next t w = (t', w') →
  save_next order path (saving_of t) (disk w) = (saving_of t', disk w') ∨
  disk w' = disk w ∧ (saving_of t' = SBegin (view w) ∨ saving_of t' = SEnd (Ok tt)).
Proof.
  intros Hn. destruct t as [ctx valid names|ctx names n|ctx n|n sv|ctx m|ctx m| |sv|err]; simpl in Hn.
  - injection Hn as <- <-. right. split; [done|by right].
  - injection Hn as <- <-. right. split; [apply notify_disk|by right].
  - injection Hn as <- <-. right. split; [done|by left].
  - destruct sv as [| | | | | | |[u|e]]; try (destruct (on_disk _ w) as [sv1 w1] eqn:Hd; injection Hn as <- <-;
      left; by apply on_disk_next); injection Hn as <- <-; right; (split; [done|by right]).
  - destruct (write_item ctx m w) as [[u|e] w1] eqn:Hw; injection Hn as <- <-; right; apply on_repo_inv in Hw as (r & _ & ->);
      (split; [done|by right]).
  - destruct (read_back _ ctx m w) as [r w1] eqn:Hr. injection Hn as <- <-. right. split; [|by right].
    unfold read_back, io_case in Hr. destruct (Get ctx (MType m) (ID m) w) as [[v|e] w2] eqn:Hg; apply Get_inv in Hg as (Hw2 & _).
    + injection Hr as _ <-. rewrite notify_disk. by rewrite Hw2.
    + injection Hr as _ <-. by rewrite Hw2.
  - injection Hn as <- <-. right. split; [done|by left].
  - destruct sv as [| | | | | | |[u|e]]; try (destruct (on_disk _ w) as [sv1 w1] eqn:Hd; injection Hn as <- <-;
      left; by apply on_disk_next); injection Hn as <- <-; right; (split; [done|by right]).
  - injection Hn as <- <-. right. split; [done|by right].
Qed.

Lemma thread_step_ok past old t w t' w' : thread_next t w = (t', w') →
  save_ok order past (disk w) (saving_of t) → view w ∈ past →
  save_step_ok order path past old (saving_of t) (disk w) (saving_of t') (disk w').
Proof using HF not_temp.
  intros Hn Hok Hv. destruct (thread_next_inv _ _ _ _ Hn) as [Hs|[Hd Ht']].
  - by apply save_next_ok.
  - apply same_files; [by rewrite Hd|..]; destruct Ht' as [->| ->]; simpl; auto.
Qed.

(** [old] is the file that was there when the process started. *)
Record process_inv (old : option string) st : Prop := {
  inv_now : view (st_world st) ∈ st_past st;
  inv_saves : ∀ i t, st_threads st !! i = Some t →
    save_ok order (st_past st) (disk (st_world st)) (saving_of t);
  inv_apart : ∀ i j t u n, i ≠ j → st_threads st !! i = Some t → st_threads st !! j = Some u →
    owns (saving_of t) = Some n → owns (saving_of u) ≠ Some n;
  inv_file : file_ok order path (st_past st) old (disk (st_world st));
}.

Lemma file_ok_more past past' old (d : F) : (∀ s, s ∈ past → s ∈ past') →
  file_ok order path past old d → file_ok order path past' old d.
Proof. intros Hp [?|(s & ? & ?)]; [by left|right; exists s; auto]. Qed.

Lemma save_ok_more past past' (d : F) sv : (∀ s, s ∈ past → s ∈ past') →
  save_ok order past d sv → save_ok order past' d sv.
Proof. intros Hp. destruct sv; simpl; naive_solver. Qed.

Lemma saves_init cfg w : process_inv (FilePersister.file_at (disk w) path) (init cfg w).
Proof.
  split; simpl; [left| | |by left].
  - intros i t. destruct (ticks cfg); [|done]. destruct i; [|done]. by intros [= <-].
  - intros i j t u n Hij. destruct (ticks cfg); [|done]. by destruct i, j.
Qed.

(** A goroutine that has just come, and saves nothing. *)
Lemma inv_arrive old w ts past t : saving_of t = SEnd (Ok tt) →
  process_inv old (mkState w ts past) → process_inv old (mkState w (ts ++ [t]) past).
Proof.
  intros Ht [Hv Hs Ha Hf].
  assert (∀ i u, (ts ++ [t]) !! i = Some u → ts !! i = Some u ∨ saving_of u = SEnd (Ok tt)) as Hcase.
  { intros i u [?|[_ Hu]]%lookup_app_Some; [by left|right].
    apply list_lookup_singleton_Some in Hu as [_ <-]. done. }
  split; simpl in *; [done| | |done].
  - intros i u [?|Hu]%Hcase; [by eapply Hs|by rewrite Hu].
  - intros i j u v n Hij [Hi|Hu]%Hcase [Hj|Hv']%Hcase; [by eapply Ha|..]; rewrite ?Hu, ?Hv'; done.
Qed.

Lemma inv_thread old w ts past i t t' w' : ts !! i = Some t → thread_next t w = (t', w') →
  process_inv old (mkState w ts past) →
  process_inv old (mkState w' (<[i := t']> ts) (past ++ [view w'])).
Proof using HF not_temp.
  intros Hi Hn [Hv Hs Ha Hf]. simpl in *. set (past' := past ++ [view w']).
  assert (∀ s, s ∈ past → s ∈ past') as Hmore by (intros; apply elem_of_app; by left).
  destruct (thread_step_ok past' old _ _ _ _ Hn (save_ok_more _ _ _ _ Hmore (Hs _ _ Hi)) (Hmore _ Hv))
    as [Hok Hfile Hframe Howns].
  assert (∀ j u n, j ≠ i → ts !! j = Some u → owns (saving_of u) = Some n → owns (saving_of t') ≠ Some n) as Hnew.
  { intros j u n Hj Hu Hown. destruct (save_ok_owned _ _ _ _ _ (Hs _ _ Hu) Hown) as [_ [x Hx]].
    destruct Howns as [->|[->|(n' & -> & Hnone)]]; [by eapply Ha|done|]. intros [= ->]. congruence. }
  split; simpl.
  - apply elem_of_app. right. left.
  - intros j u. rewrite list_lookup_insert. case_decide as Hd; [destruct Hd as [-> _]; by intros [= <-]|].
    intros Hu. eapply save_ok_other; [done|by eapply Hs|done|exact Hframe|]. intros n Hown.
    destruct (decide (j = i)) as [->|Hj]; [|by eapply (Ha j i)].
    exfalso. apply Hd. split; [done|by eapply lookup_lt_Some].
  - intros j k u v n Hjk. rewrite !list_lookup_insert.
    destruct (decide (i = j ∧ _)) as [[<- _]|Hj], (decide (i = k ∧ _)) as [[<- Hlt]|Hk]; [done|..].
    + intros [= <-] Hv' Hown Hown'. by eapply (Hnew k v n).
    + intros Hu [= <-] Hown. by eapply (Hnew j u n).
    + by apply Ha.
  - apply Hfile. by eapply file_ok_more.
Qed.

Lemma saves_step old st st' : process_inv old st → step st st' → process_inv old st'.
Proof using HF not_temp.
  intros Hinv Hs. destruct Hs as [w ts past i t t' w' Hi Hn|w ts past ctx items|w ts past ctx m|w ts past w' Hw].
  - by eapply inv_thread.
  - apply inv_arrive; [|done]. unfold batch_thread. destruct (collect _ _ _). by case_decide.
  - apply inv_arrive; [|done]. unfold single_thread. case_decide; [done|]. by destruct (storable _).
  - assert (view w' = view w ∧ disk w' = disk w) as [Hv Hd].
    { destruct Hw as [| w0 m pub Hm Hp|]; simpl; [done| |done]. split; [done|].
      cbn [Service.auditor service] in Hp. destruct auditor as [subject|]; [|done]. injection Hp as <-.
      apply publish_disk. }
    destruct Hinv as [Hnow Hsv Ha Hf]. split; simpl in *; rewrite ?Hv, ?Hd; done.
Qed.
End process.

(** ** What a crash finds *)
Section crash.
Context {P : Type} `{Postgres.SqlDB P} `{Timing P} `{Migrations P}.
Context {F : Type} `{HF : FilePersister.FileLaws F}.
Context {A : Type} `{AuditFile.AppendFile A} {T : Type} `{Transport T} `{NetURL}.
Context (order : ∀ X, gmap string X → list (string * X)).
Context (order_perm : ∀ X (m : gmap string X), order X m ≡ₚ map_to_list m).

Lemma file_reachable cfg now auditor w st : FilePersister.is_temp (File cfg) = false →
  rtc (step order now (File cfg) auditor) (init cfg w) st →
  file_ok order (File cfg) (st_past st) (FilePersister.file_at (e_disk (w_env w)) (File cfg))
    (e_disk (w_env (st_world st))).
Proof using HF.
  intros Ht Hr. eapply (inv_file (F := F)).
  eapply (rtc_invariant (step order now (File cfg) auditor)); [|exact Hr|apply saves_init].
  intros x y Hx Hs. by eapply saves_step.
Qed.

(** [C4] Saves that interleave call by call, of any number of requests and of the
    ticker, never leave a torn file.  Whenever the process stops, the snapshot file is
    the one it started with, or it is complete and holds contents the repository had at
    one moment; and a new process with RESTORE starts from those contents, if their names
    are UTF-8 and their values finite, unless it logs that restoring failed. *)
Theorem crash_recovers cfg now auditor (w : World Memory.Repo (Env F A T)) st (p : P) :
  DSN cfg = EmptyString → Restore cfg = true → FilePersister.is_temp (File cfg) = false →
  rtc (step order now (File cfg) auditor) (init cfg w) st →
  let file env := FilePersister.file_at (e_disk env) (File cfg) in
  file (w_env (st_world st)) = file (w_env w) ∨
  ∃ s, s ∈ st_past st ∧
    file (w_env (st_world st)) = FilePersister.encode_file (FilePersister.flattenSnapshot order s) ∧
    (sendable_snapshot s → restored cfg s p (w_env (st_world st))).
Proof using HF order_perm.
  intros Hd Hr Ht Hreach. cbv zeta. destruct (file_reachable _ _ _ _ _ Ht Hreach) as [?|(s & Hin & _ & Hf)];
    [by left|right].
  exists s. split; [done|]. split; [exact Hf|]. intros Hs. by eapply saved_restored.
Qed.
End crash.

(** ** Example: two batches, saved in the wrong order *)
Module Demo.
Import Server.Demo.
#[local] Existing Instance plain_url.
#[local] Existing Instance AuditFile.short_append.
#[local] Existing Instance Server.Demo.demo_migrations.
#[local] Existing Instance Server.Demo.demo_net.

#[local] Abbreviation State := (State (F := FilePersister.disk) (A := AuditFile.short_disk) (T := Z)).

(** STORE_INTERVAL=0, the setting for synchronous writes. *)
Definition sync_conf : ServerConfig :=
  mkServerConfig ":8080" "db.json" EmptyString EmptyString 0 true EmptyString EmptyString.
Definition demo_world : World Memory.Repo (Env FilePersister.disk AuditFile.short_disk Z) :=
  Service.New (service FilePersister.map_order clock0 (Some "db.json") None) Memory.New env0.
#[local] Abbreviation demo_step := (step FilePersister.map_order clock0 (File sync_conf) None).
#[local] Abbreviation demo_next := (thread_next FilePersister.map_order clock0 (File sync_conf) None).

(** The goroutines of a schedule, one step each. *)
Fixpoint exec (schedule : list nat) (st : State) : State :=
  match schedule with
  | [] => st
  | i :: schedule =>
      match st_threads st !! i with
      | None => exec schedule st
      | Some t =>
          let '(t', w') := demo_next t (st_world st) in
          exec schedule (mkState w' (<[i := t']> (st_threads st)) (st_past st ++ [Memory.view (w_repo w')]))
      end
  end.

Lemma exec_steps schedule st : rtc demo_step st (exec schedule st).
Proof.
  revert st. induction schedule as [|i schedule IH]; intros st; [apply rtc_refl|]. cbn [exec].
  destruct (st_threads st !! i) as [t|] eqn:Hi; [|apply IH].
  destruct (demo_next t (st_world st)) as [t' w'] eqn:Hn. eapply rtc_l; [|apply IH].
  destruct st. by eapply step_thread.
Qed.

Definition arrived : State :=
  mkState demo_world [batch_thread Background [counter_metric "hits" 5];
                      batch_thread Background [counter_metric "hits" 2]] [mkSnapshot ∅ ∅].

Lemma arrived_reachable : rtc demo_step (init sync_conf demo_world) arrived.
Proof.
  eapply rtc_l; [apply (step_batch _ _ _ _ demo_world [] _ Background [counter_metric "hits" 5])|].
  apply rtc_once. apply (step_batch _ _ _ _ demo_world [_] _ Background [counter_metric "hits" 2]).
Qed.

(** The first request stores its batch and takes its snapshot; the second one is
    served from beginning to end; then the first one saves. *)
Definition schedule : list nat := [0; 0; 0; 1; 1; 1; 1; 1; 1; 1; 1; 1; 0; 0; 0; 0; 0; 0]%nat.

(** Both requests are answered with success and nothing is logged, but the file has
    the contents before the second batch: a restart loses it, although both hooks have
    saved.  Without a ticker no later save repairs that. *)
Theorem stale_file : ∃ st, rtc demo_step (init sync_conf demo_world) st ∧
  st_threads st = [Answered None; Answered None] ∧ e_log (w_env (st_world st)) = [] ∧
  Memory.view (w_repo (st_world st)) = mkSnapshot ∅ {["hits" := 7]} ∧
  FilePersister.file_at (e_disk (w_env (st_world st))) (File sync_conf) =
    FilePersister.encode_file (FilePersister.flattenSnapshot FilePersister.map_order (mkSnapshot ∅ {["hits" := 5]})).
Proof.
  exists (exec schedule arrived). split; [etrans; [apply arrived_reachable|apply exec_steps]|].
  split_and!; by vm_compute.
Qed.

Lemma crash_recovers_witness : ∃ st s, rtc demo_step (init sync_conf demo_world) st ∧ s ∈ st_past st ∧
  FilePersister.file_at (e_disk (w_env (st_world st))) (File sync_conf) =
    FilePersister.encode_file (FilePersister.flattenSnapshot FilePersister.map_order s).
Proof.
  destruct stale_file as (st & Hr & _ & _ & _ & Hf).
  assert (FilePersister.is_temp (F := FilePersister.disk) (File sync_conf) = false) as Ht by reflexivity.
  destruct (crash_recovers FilePersister.map_order (λ X m, reflexivity _) sync_conf clock0 None demo_world st conn
    eq_refl eq_refl Ht Hr) as [He|(s & Hs & Hfile & _)].
  - exfalso. rewrite Hf in He. vm_compute in He. discriminate He.
  - exists st, s. split; [exact Hr|]. split; [exact Hs|exact Hfile].
Defined.
End Demo.
End ServerProcess.
