(* ===== verification/Pool.v ===== *)
(** * internal/misc/pool.go: a pool of objects that can be reset

    [Pool] over pointers: an object is a location, its contents are in a store, and
    clients hold objects between [Get] and [Put].  [sync.Pool] hands out any object it
    has or makes a new one, as it likes, and may forget objects at any time; each of
    its calls is one step.  A nil pointer, which [Get] returns when no constructor was
    given, is [None]; its [Reset] does nothing. *)

From S2P Require Import Prelude.

Module Pool.
Section pool.
(** Contents, what the method [Reset] does to them, and the constructor. *)
Context {T : Type} (Reset : T → T) (newFn : option T).

Record state : Type := mkState {
  store : gmap positive T;
  pooled : list (option positive);   (* what [sync.Pool] has *)
  held : gset positive;              (* what the clients have *)
}.

Inductive event : Type := Got (p : option positive) (contents : option T) | Gave (p : option positive).

(** The contents of a pointer. *)
Definition contents (s : state) (p : option positive) : option T := p ≫= λ l, store s !! l.

Definition hold (p : option positive) (h : gset positive) : gset positive :=
  match p with Some l => {[l]} ∪ h | None => h end.
Definition release (p : option positive) (h : gset positive) : gset positive :=
  match p with Some l => h ∖ {[l]} | None => h end.

(** [New] of the pool: the constructor's object at a location of its own, or nil. *)
Definition New (l : positive) (s : state) : option positive * state :=
  match newFn with
  | Some t => (Some l, mkState (<[l := t]> (store s)) (pooled s) (held s))
  | None => (None, s)
  end.

(** [Put]: reset first, then give back. *)
Definition Put (p : option positive) (s : state) : state :=
  mkState (match p with Some l => alter Reset l (store s) | None => store s end)
    (p :: pooled s) (release p (held s)).

Inductive step : state → option event → state → Prop :=
  | step_get_pooled s p before after : pooled s = before ++ p :: after →
      step s (Some (Got p (contents s p))) (mkState (store s) (before ++ after) (hold p (held s)))
  | step_get_new s l p s' : store s !! l = None → New l s = (p, s') →
      step s (Some (Got p (contents s' p))) (mkState (store s') (pooled s') (hold p (held s')))
  | step_put s p : match p with Some l => l ∈ held s | None => True end →
      step s (Some (Gave p)) (Put p s)
  | step_forget s before p after : pooled s = before ++ p :: after →
      step s None (mkState (store s) (before ++ after) (held s))
  | step_write s l t : l ∈ held s →
      step s None (mkState (<[l := t]> (store s)) (pooled s) (held s)).

Inductive runs : state → list event → state → Prop :=
  | runs_nil s : runs s [] s
  | runs_step s tr s1 e s2 : runs s tr s1 → step s1 e s2 → runs s (tr ++ option_list e) s2.

Definition empty : state := mkState ∅ [] ∅.

(** ** The invariant *)

Definition clean (t : T) : Prop := ∃ u, t = Reset u.

Record pool_inv (s : state) : Prop := {
  inv_known : ∀ l, Some l ∈ pooled s ∨ l ∈ held s → is_Some (store s !! l);
  inv_clean : ∀ l t, Some l ∈ pooled s → store s !! l = Some t → clean t;
  inv_once : NoDup (omap id (pooled s));
  inv_apart : ∀ l, Some l ∈ pooled s → l ∉ held s;
}.

(** What [Get] promises of an object. *)
Definition fresh_or_clean (c : option T) : Prop :=
  match c with Some t => clean t ∨ newFn = Some t | None => newFn = None end.

Lemma elem_of_pooled (ps : list (option positive)) l : l ∈ omap id ps ↔ Some l ∈ ps.
Proof. rewrite list_elem_of_omap. split; [intros (p & Hp & Heq); unfold id in Heq; by subst|by eexists]. Qed.

Lemma omap_middle (before after : list (option positive)) p :
  omap id (before ++ p :: after) ≡ₚ option_list p ++ omap id (before ++ after).
Proof.
  induction before as [|q before IH]; simpl; [by destruct p|]. destruct q as [l|]; simpl; [|done].
  rewrite IH. destruct p; simpl; [apply Permutation_swap|done].
Qed.

(** Removing an object keeps the invariant, with nobody holding it. *)
Lemma forget_inv s p before after : pool_inv s → pooled s = before ++ p :: after →
  pool_inv (mkState (store s) (before ++ after) (held s)) ∧
  match p with Some l => (Some l ∉ before ++ after) ∧ (l ∉ held s) ∧ ∃ t, store s !! l = Some t ∧ clean t | None => True end.
Proof.
  intros [Hk Hc Ho Ha] Hp. rewrite Hp in *. rewrite omap_middle in Ho. apply NoDup_app in Ho as (_ & Hpo & Ho).
  assert (∀ l, Some l ∈ before ++ after → Some l ∈ before ++ p :: after) as Hin by (intros l; set_solver).
  split.
  - split; simpl; [|intros l t Hl; apply Hc; by apply Hin|done|intros l Hl; by apply Ha, Hin].
    intros l [Hl|Hl]; apply Hk; [left; by apply Hin|by right].
  - destruct p as [l|]; [|done]. assert (Some l ∈ before ++ Some l :: after) as Hl by set_solver.
    split; [|split; [by apply Ha|]].
    + intros Hb. apply (Hpo l); [left|]. by apply elem_of_pooled.
    + destruct (Hk l (or_introl Hl)) as [t Ht]. exists t. split; [done|]. by eapply Hc.
Qed.

(** An object nobody has may be handed out. *)
Lemma hold_inv s p : pool_inv s →
  match p with Some l => (Some l ∉ pooled s) ∧ is_Some (store s !! l) | None => True end →
  pool_inv (mkState (store s) (pooled s) (hold p (held s))).
Proof.
  intros [Hk Hc Ho Ha] Hp. destruct p as [l|]; [|by split]. destruct Hp as [Hl Hs].
  split; simpl; [|done|done|].
  - intros l' [Hl'|[->%elem_of_singleton|Hl']%elem_of_union]; [apply Hk; by left|done|apply Hk; by right].
  - intros l' Hl' [->%elem_of_singleton|Hh]%elem_of_union; [done|by apply (Ha l')].
Qed.

(** Contents may change where no pooled object is. *)
Lemma write_inv s l t : pool_inv s → Some l ∉ pooled s →
  pool_inv (mkState (<[l := t]> (store s)) (pooled s) (held s)).
Proof.
  intros [Hk Hc Ho Ha] Hl. split; simpl; [| |done|done].
  - intros l' Hl'. rewrite lookup_insert_is_Some. destruct (decide (l = l')); [by left|right; eauto].
  - intros l' t' Hl'. rewrite lookup_insert_ne by (intros ->; done). by apply Hc.
Qed.

Lemma put_inv s p : pool_inv s → match p with Some l => l ∈ held s | None => True end → pool_inv (Put p s).
Proof.
  intros [Hk Hc Ho Ha] Hp. unfold Put. destruct p as [l|]; split; simpl.
  - intros l' Hl'. rewrite lookup_alter_is_Some. apply Hk.
    destruct Hl' as [[[= ->]|Hl']%elem_of_cons|Hl']; [by right|by left|right; set_solver].
  - intros l' t [[= ->]|Hl']%elem_of_cons.
    + rewrite lookup_alter_eq. intros (u & _ & ->)%fmap_Some. by exists u.
    + rewrite lookup_alter_ne by (intros ->; by apply (Ha l')). by apply Hc.
  - constructor; [|done]. rewrite elem_of_pooled. intros Hl. by apply (Ha l).
  - intros l' [[= ->]|Hl']%elem_of_cons; [set_solver|]. apply Ha in Hl'. set_solver.
  - intros l [[|Hl]%elem_of_cons|Hl]; [done|apply Hk; by left|apply Hk; by right].
  - intros l t [|Hl]%elem_of_cons; [done|by apply Hc].
  - done.
  - intros l [|Hl]%elem_of_cons; [done|by apply Ha].
Qed.

Lemma pool_step_inv s e s' : step s e s' → pool_inv s → pool_inv s' ∧
  match e with Some (Got p c) => match p with Some _ => is_Some c | None => True end ∧
                 (c ≠ None → fresh_or_clean c) | _ => True end.
Proof.
  intros Hs Hi. destruct Hs as [s p before after Hp|s l p s' Hl Hn|s p Hp|s before p after Hp|s l t Hl].
  - destruct (forget_inv _ _ _ _ Hi Hp) as [Hi' Hpo]. destruct p as [l|]; simpl; [|done].
    destruct Hpo as (Hb & Hh & t & Ht & Hct). rewrite Ht. split; [|split; [by eexists|intros _; by left]].
    apply (hold_inv _ (Some l) Hi'). split; [done|by eexists].
  - assert (Some l ∉ pooled s) as Hnp.
    { intros Hin. destruct Hi as [Hk _ _ _]. destruct (Hk l (or_introl Hin)) as [x Hx]. by rewrite Hl in Hx. }
    unfold New in Hn. destruct newFn as [t|] eqn:Hnew; injection Hn as <- <-; simpl; [|by destruct s].
    rewrite lookup_insert_eq. split; [|split; [by eexists|intros _; by right]].
    apply (hold_inv _ (Some l) (write_inv _ l t Hi Hnp)). simpl. rewrite lookup_insert_eq. eauto.
  - split; [by apply put_inv|done].
  - split; [by apply (forget_inv _ _ _ _ Hi Hp)|done].
  - split; [|done]. apply write_inv; [done|]. intros Hin. destruct Hi as [_ _ _ Ha]. by apply (Ha l).
Qed.

Lemma runs_inv tr s : runs empty tr s → pool_inv s.
Proof.
  intros Hr. remember empty as s0. induction Hr as [s|s tr s1 e s2 _ IH Hs]; subst.
  - split; simpl; [|intros l t Hl; by apply elem_of_nil in Hl|constructor|intros l Hl; by apply elem_of_nil in Hl].
    intros l [Hl|Hl]; [by apply elem_of_nil in Hl|set_solver].
  - by destruct (pool_step_inv _ _ _ Hs (IH eq_refl)).
Qed.

(** What comes out of the pool: whatever clients do with the objects they hold
    and whatever the pool forgets, every object [Get] returns is new or as [Reset]
    left it, and no other client holds it; nil comes only from a pool without a
    constructor, or from a nil that was given back. *)
Theorem pool_gives_clean tr s p c s' : runs empty tr s → step s (Some (Got p c)) s' →
  match p with
  | Some l => (∃ t, c = Some t ∧ (clean t ∨ newFn = Some t)) ∧ (l ∉ held s) ∧ l ∈ held s'
  | None => newFn = None ∨ None ∈ pooled s
  end.
Proof.
  intros Hr Hs. pose proof (runs_inv _ _ Hr) as Hi. destruct (pool_step_inv _ _ _ Hs Hi) as [_ Hgot].
  destruct p as [l|].
  - destruct Hgot as [[t ->] Hf]. split; [exists t; split; [done|by apply Hf]|].
    destruct Hi as [Hk _ _ Ha]. inversion Hs as [? ? before after Hp|? l' ? ? Hl Hn| | |]; subst; simpl.
    + split; [|set_solver]. apply Ha. rewrite Hp. set_solver.
    + unfold New in Hn. destruct newFn; [|done]. injection Hn as -> <-. simpl. split; [|set_solver].
      intros Hh. destruct (Hk l ltac:(by right)) as [x Hx]. by rewrite Hl in Hx.
  - inversion Hs as [? ? before after Hp|? l' ? ? Hl Hn| | |]; subst.
    + right. rewrite Hp. set_solver.
    + left. unfold New in Hn. by destruct newFn.
Qed.
End pool.

(** ** Example: a buffer is filled, given back and handed out again, empty *)
Definition reset_text (s : string) : string := EmptyString.
Definition filled : state := mkState (T := string) {[1%positive := "secret"]} [] {[1%positive]}.
Definition given_back : state := Put reset_text (Some 1%positive) filled.

Lemma given_back_runs : runs reset_text (Some "new") empty [Got (Some 1%positive) (Some "new"); Gave (Some 1%positive)] given_back.
Proof.
  apply (runs_step _ _ empty [Got (Some 1%positive) (Some "new")] filled (Some (Gave (Some 1%positive)))).
  - apply (runs_step _ _ empty [Got (Some 1%positive) (Some "new")] (mkState {[1%positive := "new"]} [] {[1%positive]}) None).
    + apply (runs_step _ _ empty [] empty (Some (Got (Some 1%positive) (Some "new")))); [constructor|].
      exact (step_get_new reset_text (Some "new") empty 1 (Some 1%positive)
        (mkState {[1%positive := "new"]} [] ∅) eq_refl eq_refl).
    + exact (step_write reset_text (Some "new") (mkState {[1%positive := "new"]} [] {[1%positive]}) 1 "secret"
        ltac:(set_solver)).
  - apply step_put. set_solver.
Qed.

Lemma pool_gives_clean_witness : ∃ c, c = Some EmptyString ∧ ∃ t, c = Some t ∧ (clean reset_text t ∨ Some "new" = Some t).
Proof.
  exists (contents given_back (Some 1%positive)). split; [reflexivity|].
  apply (pool_gives_clean reset_text (Some "new") _ given_back (Some 1%positive) _ _ given_back_runs
    (step_get_pooled reset_text (Some "new") given_back (Some 1%positive) [] [] eq_refl)).
Defined.
End Pool.
