(* ===== verification/AccessLog.v ===== *)
(** * internal/adapters/http/ginserver/middlewares/zap_logger.go: the access log

    [ZapLogger] as a function from handlers to handlers, like the other middlewares:
    its state is that of the next handler and the lines logged so far.  It reads the
    writer after [c.Next], so what gin had set on it before the middlewares ran counts,
    and what gin writes after them does not.  The clock is a parameter that reads the
    time off the state.  A handler that panics leaves no line: gin's recovery stands
    outside the logger. *)

From S2P Require Import Prelude GoStrings GoInt GoErrors Sha256 Domain GoFloat Ports.
From S2P Require Import Json MetricsJson Http Middlewares Observer Service Handlers.
Open Scope Z_scope.

Module AccessLog.
Import Middlewares Service Handlers.

Record line : Type := mkLine {
  l_method : string;
  l_uri : string;
  l_status : Z;
  l_size : Z;
  l_duration : Z;
}.

(** [Size] is -1 as long as nothing was written. *)
Definition Size (w : Writer) : Z := if w_sent w then Z.of_nat (String.length (w_body w)) else -1.

Section logger.
Context {W : Type} (Now : W → Z) (RequestURI : Request → string).

(** [preset] is what was done to the writer before. *)
Definition ZapLogger (preset : list wcall) (next : handler W) : handler (W * list line) := λ req '(w, log),
  let start := Now w in
  let '(calls, w) := next req w in
  let latency := Now w - start in
  let writer := respond (preset ++ calls) in
  (calls, (w, log ++ [mkLine (method req) (RequestURI req) (w_status writer) (Size writer `max` 0) latency])).
End logger.

(** ** What is sent *)

Lemma unsent_body calls : w_sent (respond calls) = false → w_body (respond calls) = EmptyString.
Proof.
  unfold respond. assert (∀ w, (w_sent w = false → w_body w = EmptyString) →
    w_sent (fold_left run_wcall calls w) = false → w_body (fold_left run_wcall calls w) = EmptyString) as Hc; [|by apply Hc].
  induction calls as [|c calls IH]; intros w Hw; [done|]. simpl. apply IH.
  destruct c; simpl; try (destruct (w_sent w) eqn:Hs; [by rewrite Hs|by apply Hw]). done.
Qed.

(** The size logged is that of the body sent. *)
Lemma Size_body calls : Size (respond calls) `max` 0 = Z.of_nat (String.length (w_body (respond calls))).
Proof.
  unfold Size. destruct (w_sent (respond calls)) eqn:Hs; [lia|]. by rewrite (unsent_body _ Hs).
Qed.

(** Whether something is sent does not depend on the status. *)
Lemma sent_preset calls code : w_sent (respond calls) = true → w_sent (respond (WriteHeader code :: calls)) = true.
Proof.
  assert (∀ w w', w_sent w = w_sent w' → w_sent (fold_left run_wcall calls w) = w_sent (fold_left run_wcall calls w'))
    as Hs.
  { induction calls as [|c calls IH]; intros w w' Hw; [done|]. simpl. apply IH.
    destruct c; simpl; rewrite ?Hw; destruct (w_sent w') eqn:?; simpl; congruence. }
  intros <-. by apply Hs.
Qed.

Lemma no_page code msg calls : w_sent (respond calls) = true → default_page code msg calls = WriteHeader code :: calls.
Proof. intros Hs. unfold default_page. by rewrite sent_preset. Qed.

Section stack.
Context {W : Type} `{Gin} `{Gzip}.
Implicit Types next : handler W.

Lemma flush_sent key calls : w_sent (respond (flush_buffer key calls)) = true.
Proof.
  unfold flush_buffer. destruct (run_buffer calls) as [below bw].
  match goal with |- context [WriteHeader ?s :: [Write ?b]] =>
    change [WriteHeader s; Write b] with ([WriteHeader s] ++ [Write b]) end.
  by rewrite !app_assoc, respond_snoc.
Qed.

Lemma GzipResponse_sent next req w : w_sent (respond (next req w).1) = true →
  w_sent (respond (GzipResponse next req w).1) = true.
Proof.
  intros Hs. unfold GzipResponse. destruct (Contains _ _); [|done]. destruct (next req w) as [calls w'].
  pose proof (gzip_sim_calls calls (mkGzw [] false false EmptyString) new_writer) as Hsim.
  specialize (Hsim ltac:(by split; [|split])). fold (respond calls) in Hsim.
  destruct (fold_left gzip_call calls _) as [below dec comp pend].
  unfold gzip_sim, close_gzip in *. cbn [fst g_compress g_below g_pending] in *.
  destruct comp; [by rewrite respond_snoc|]. by destruct Hsim as (-> & _).
Qed.

(** [GzipRequest] lets the request through. *)
Definition unpacks (req : Request) : bool :=
  if Contains (ToLower (GetHeader req "Content-Encoding")) "gzip"
  then bool_decide (is_Some (gunzip (body req))) else true.

(** The stack sends something if the handler does, or if there is a key, as long as
    the request can be unpacked. *)
Lemma stack_sent key next req w :
  (∀ req w, w_sent (respond (next req w).1) = true) ∨ TrimSpace key ≠ EmptyString →
  (server_stack key next req w).1 = [WriteHeader 400] ∧ unpacks req = false ∨
  w_sent (respond (server_stack key next req w).1) = true.
Proof.
  intros Hsend. assert (∀ req, w_sent (respond (GzipResponse (HashSHA256 key next) req w).1) = true) as Hrest.
  { intros req'. apply GzipResponse_sent. unfold HashSHA256. case_bool_decide as Hk.
    - by destruct Hsend as [Hsend|[]].
    - destruct (check_hash _ _); [apply flush_sent|]. destruct (next _ w). apply flush_sent. }
  unfold server_stack, GzipRequest, unpacks. destruct (Contains _ _); [|by right].
  destruct (gunzip (body req)) as [plain|]; [by right|by left].
Qed.

(** Nothing is sent when nobody writes. *)
Lemma stack_silent key req w : TrimSpace key = EmptyString →
  server_stack key (λ _ (w : W), ([], w)) req w = (if unpacks req then [] else [WriteHeader 400], w).
Proof.
  intros Hk. assert (∀ req, GzipResponse (HashSHA256 key (λ _ (w : W), ([], w))) req w = ([], w)) as Hrest.
  { intros req'. unfold GzipResponse, HashSHA256. rewrite bool_decide_true by done. by destruct (Contains _ _). }
  unfold server_stack, GzipRequest, unpacks. destruct (Contains _ _); [|apply Hrest].
  destruct (gunzip (body req)) as [plain|]; [apply Hrest|done].
Qed.
End stack.

(** ** The server with its log *)
Section server.
Context {R E : Type} `{MetricsRepo R} `{Gin} `{Binding} `{GinRouter} `{Gzip}.
Context (svc : Service E) (error_text : error → string).
Context (order : ∀ A, gmap string A → list (string * A)) (grow : nat).
Context (Now : World R E * list Metrics → Z) (RequestURI : Request → string).

(** What gin does to the writer before the middlewares run. *)
Definition preset (m : match_result) : list wcall :=
  match m with
  | Matched _ _ => []
  | WrongMethod => [WriteHeader 405]
  | NoRoute => [WriteHeader 404]
  end.

(** [Handlers.server] with the logger around the other middlewares. *)
Definition logged_server (key : string) (ctx : Context) : handler (World R E * list Metrics * list line) :=
  λ req w,
    let m := find_route routes.*1 req in
    let '(calls, w) := ZapLogger Now RequestURI (preset m)
      (server_stack key (dispatch svc error_text order grow m ctx)) req w in
    (answered m calls, w).

(** gin answers with its own page: no route, and no middleware that writes. *)
Definition default_answered (key : string) (req : Request) : bool :=
  match find_route routes.*1 req with
  | NoRoute => bool_decide (TrimSpace key = EmptyString) && unpacks req
  | _ => false
  end.

(** The answer is what the logger saw, or the page follows it. *)
Lemma answered_logged key ctx req w calls w' : let m := find_route routes.*1 req in
  server_stack key (dispatch svc error_text order grow m ctx) req w = (calls, w') →
  if default_answered key req
  then calls = [] ∧ answered m calls =
    [WriteHeader 404; SetHeader "Content-Type" "text/plain"; Write "404 page not found"]
  else answered m calls = preset m ++ calls.
Proof.
  cbv zeta. intros Hc. unfold default_answered. destruct (find_route _ _) as [i p| |] eqn:Hm; cbn [answered preset].
  - done.
  - rewrite serveError_spec. pose proof (stack_sent key (dispatch svc error_text order grow WrongMethod ctx) req w)
      as Hs. rewrite Hc in Hs. cbn [fst] in Hs. destruct Hs as [[-> _]|Hs]; [|done|by apply no_page].
    left. intros req' w1. cbn [dispatch fst]. unfold text. by rewrite respond_render.
  - rewrite serveError_spec. destruct (bool_decide_reflect (TrimSpace key = EmptyString)) as [Hk|Hk]; cbn [andb].
    + change (dispatch svc error_text order grow NoRoute ctx)
        with (λ (_ : Request) (w : World R E * list Metrics), ([] : list wcall, w)) in Hc.
      rewrite stack_silent in Hc by done. injection Hc as <- <-. by destruct (unpacks req).
    + pose proof (stack_sent key (dispatch svc error_text order grow NoRoute ctx) req w (or_intror Hk)) as Hs.
      rewrite Hc in Hs. cbn [fst] in Hs. destruct Hs as [[-> _]|Hs]; [done|by apply no_page].
Qed.

(** [C31] The access log.  Every request adds one line, and logging changes neither the
    answer nor what the handlers did.  The line has the status the client is answered
    with and the number of bytes of the body, whatever the handlers and the middlewares
    do, compressed and signed or not; except that for a request without a route, on a
    server without a key, gin writes its page "404 page not found" after the
    middlewares, and the line says 404 with size 0. *)
Theorem access_log_true key ctx req w log :
  let '(answer, (w', log')) := logged_server key ctx req (w, log) in
  server svc error_text order grow key ctx req w = (answer, w') ∧
  ∃ l, log' = log ++ [l] ∧ l_method l = method req ∧ l_uri l = RequestURI req ∧
    l_status l = w_status (respond answer) ∧ l_duration l = Now w' - Now w ∧
    if default_answered key req
    then l_status l = 404 ∧ l_size l = 0 ∧ w_body (respond answer) = "404 page not found"
    else l_size l = Z.of_nat (String.length (w_body (respond answer))).
Proof.
  unfold logged_server, server, ZapLogger. set (m := find_route routes.*1 req).
  destruct (server_stack key _ req w) as [calls w'] eqn:Hc. split; [done|]. eexists. split; [done|].
  cbn [l_method l_uri l_status l_size l_duration]. split; [done|]. split; [done|].
  pose proof (answered_logged key ctx req w calls w' Hc) as Ha. fold m in Ha.
  destruct (default_answered key req) eqn:Hd.
  - unfold default_answered in Hd. fold m in Hd. destruct m; try done. by destruct Ha as [-> ->].
  - rewrite Ha. split; [done|]. split; [done|]. apply Size_body.
Qed.
End server.
End AccessLog.
