(* ===== verification/AgentMain.v ===== *)
(** * cmd/agent/main.go: the agent's process

    What the process prints, the reasons it dies for before it starts, and the
    client and configuration its runner is started with.  [AgentProcess] is the run. *)

From S2P Require Import Prelude GoStrings GoInt GoErrors Sha256 Domain.
From S2P Require Import GoTime GoFlag Ports Json Http Retry HttpClient Config Collector Agent AgentProcess Util.
Open Scope Z_scope.

Module AgentMain.
Import HttpClient Config Util.

(** ** cmd/agent *)
Section main.
Context `{NetURL}.

Inductive fatal : Type :=
  | BadFlags (err : error)
  | BadPublisher (err : error).

(** What is printed, and the message the process dies with or the configuration and
    client of the runner. *)
Definition startup (version date commit : string) (env : environment) (args : list string) :
    string * result fatal (AgentConfig * Client) :=
  (PrintBuildInfo version date commit,
   match LoadAgentConfig env args with
   | Err e => Err (BadFlags e)
   | Ok cfg => match New (AgentAddress cfg) (AgentKey cfg) with
               | Err e => Err (BadPublisher e)
               | Ok pub => Ok (cfg, pub)
               end
   end).

(** The runner as it stands when [Run] begins. *)
Definition runner {W} (cfg : AgentConfig) (w : W) : Agent.State W := Agent.start (RateLimit cfg) w.

(** [main]: what is printed, and the process with its goroutines, or the message it
    dies with.  [Run] itself fails only if the collector's [Start] does, which always
    returns nil. *)
Definition main {W} (version date commit : string) (env : environment) (args : list string) (w : W) :
    string * result fatal (AgentProcess.Process W) :=
  let '(out, r) := startup version date commit env args in
  (out, result_map (λ p, AgentProcess.start (RateLimit p.1) w) r).

Lemma agent_key_trimmed env args cfg : LoadAgentConfig env args = Ok cfg →
  TrimSpace (AgentKey cfg) = AgentKey cfg.
Proof.
  unfold LoadAgentConfig. destruct (GoFlag.Parse _ _) as [fs|]; [|done].
  destruct (ParseRequestURI _); [|done].
  destruct (FromEnvOrFlagDuration env "REPORT_INTERVAL" _ _ _) as [r br].
  destruct (FromEnvOrFlagDuration env "POLL_INTERVAL" _ _ _) as [p bp].
  destruct (r <=? 0); [done|]. destruct (p <=? 0); [done|]. intros [= <-].
  by apply FromEnvOrFlag_trimmed.
Qed.

(** How the agent starts, whatever its environment and command line are: it
    dies for settings that do not load or an address that does not parse, and
    otherwise its client has the configured address without slashes at its end and the
    configured key as they are, its tickers have positive intervals, and its runner
    begins with an empty queue and one idle sender for each request allowed at a time. *)
Theorem agent_starts {W} version date commit env args (w : W) :
  match (startup version date commit env args).2 with
  | Err (BadFlags e) => LoadAgentConfig env args = Err e
  | Err (BadPublisher e) => ∃ cfg, LoadAgentConfig env args = Ok cfg ∧
      Parse (TrimRight (AgentAddress cfg) "/"%char) = Err e
  | Ok (cfg, pub) =>
      LoadAgentConfig env args = Ok cfg ∧ 0 < PollInterval cfg ∧ 0 < ReportInterval cfg ∧
      AgentProcess.agent (AgentProcess.start (RateLimit cfg) w) = runner cfg w ∧
      Parse (TrimRight (AgentAddress cfg) "/"%char) = Ok (base pub) ∧ key pub = AgentKey cfg ∧
      Agent.p_jobs (runner cfg w) = [] ∧ Agent.p_world (runner cfg w) = w ∧
      Agent.p_workers (runner cfg w) = replicate (Z.to_nat (RateLimit cfg)) Agent.Receiving ∧
      (1 ≤ length (Agent.p_workers (runner cfg w)))%nat
  end.
Proof.
  unfold startup. cbn [snd]. destruct (LoadAgentConfig env args) as [cfg|e] eqn:Hl; [|done].
  pose proof (agent_key_trimmed _ _ _ Hl) as Hk.
  destruct (LoadAgentConfig_inv _ _ _ Hl) as (Ha & [Hpoll _] & [Hrep _] & Hr). unfold New, normalizeBase. rewrite Ha.
  destruct (Parse _) as [u|e] eqn:Hp; [|by exists cfg]. simpl. split; [done|]. split; [done|]. split; [done|].
  split; [done|]. split; [done|].
  split; [done|]. split; [done|]. split; [done|]. unfold Agent.workers_of.
  rewrite bool_decide_false by lia. rewrite length_replicate. split; [done|]. lia.
Qed.
End main.

(** Ill settings and well ones, with addresses that always parse. *)
Lemma startup_examples :
  (startup (H := plain_url) "v1" EmptyString EmptyString {["REPORT_INTERVAL" := "-1"]} []).2 =
    Err (BadFlags (Errorf "report interval must be > 0")) ∧
  option_map (λ p, AgentAddress p.1) (match (startup (H := plain_url) "v1" EmptyString EmptyString ∅ ["-a"; ":9090/"]).2 with
    | Ok p => Some p | Err _ => None end) = Some "http://localhost:9090/".
Proof. split; reflexivity. Qed.
End AgentMain.
