(* ===== verification/StaticLint.v ===== *)
(** * cmd/staticlint: the analyzer osexitmain and the choice of analyzers

    The syntax of a function's body as far as the analyzer looks at it: function
    literals, calls, selectors, and everything else with its children in the order
    [ast.Inspect] visits them.  The inspector and the type information the framework
    provides are taken to be there.  The analyses of other packages are names. *)

From S2P Require Import Prelude GoStrings.
Open Scope Z_scope.

Module StaticLint.

(** ** Syntax *)

(** [sel] is the position of the selector's identifier. *)
#[warnings="-register-all"]
Inductive node : Type :=
  | FuncLit (children : list node)
  | CallExpr (pos : Z) (fn : node) (args : list node)
  | SelectorExpr (x : node) (sel : Z)
  | OtherNode (children : list node).

(** A function as [go/types] has it; functions of the universe have no package. *)
Record Func : Type := mkFunc { pkg_path : option string; func_name : string }.

Record FuncDecl : Type := mkFuncDecl { has_recv : bool; decl_name : option string; decl_body : option node }.

(** [Uses] finds the function an identifier stands for, if it does; [Filename] the
    file of a position. *)
Record Pass : Type := mkPass {
  package_name : option string;
  func_decls : list FuncDecl;
  Uses : Z → option Func;
  Filename : Z → string;
}.

(** ** osexitmain.go *)
Section pass.
Context (pass : Pass).

Definition isOsExitCall (fn : node) : bool :=
  match fn with
  | SelectorExpr _ sel =>
      match Uses pass sel with
      | Some f => bool_decide (pkg_path f = Some "os") && bool_decide (func_name f = "Exit")
      | None => false
      end
  | _ => false
  end.

(** A file of the build cache. *)
Definition generated (pos : Z) : bool := Contains (Filename pass pos) "/go-build/".

(** The positions reported below a node, in order. *)
Fixpoint inspect (n : node) : list Z :=
  match n with
  | FuncLit _ => []
  | CallExpr pos fn args =>
      if generated pos then []
      else (if isOsExitCall fn then [pos] else []) ++ (inspect fn ++ flat_map inspect args)
  | SelectorExpr x _ => inspect x
  | OtherNode children => flat_map inspect children
  end.

Definition is_main (fd : FuncDecl) : bool :=
  negb (has_recv fd) && bool_decide (decl_name fd = Some "main").

Definition check_decl (fd : FuncDecl) : list Z :=
  if is_main fd then match decl_body fd with Some body => inspect body | None => [] end else [].

Definition run : list Z :=
  if bool_decide (package_name pass = Some "main") then flat_map check_decl (func_decls pass) else [].

(** ** What is to be reported, without the analyzer *)

(** A file under a directory of the build cache. *)
Definition in_build_cache (pos : Z) : Prop := ∃ a b, Filename pass pos = a +:+ "/go-build/" +:+ b.

(** [m] stands in [n]: not inside a function literal, nor inside a call in a file of
    the build cache. *)
Inductive stands_in : node → node → Prop :=
  | in_here n : stands_in n n
  | in_fun m pos fn args : ¬ in_build_cache pos → stands_in m fn → stands_in m (CallExpr pos fn args)
  | in_arg m pos fn args a : ¬ in_build_cache pos → a ∈ args → stands_in m a →
      stands_in m (CallExpr pos fn args)
  | in_selector m x sel : stands_in m x → stands_in m (SelectorExpr x sel)
  | in_other m children c : c ∈ children → stands_in m c → stands_in m (OtherNode children).

(** A call [x.sel(args)] at [pos] in which [sel] is the function [Exit] of package os. *)
Definition exits_at (pos : Z) (n : node) : Prop :=
  ∃ x sel args, stands_in (CallExpr pos (SelectorExpr x sel) args) n ∧
    Uses pass sel = Some (mkFunc (Some "os") "Exit") ∧ ¬ in_build_cache pos.

Lemma generated_spec pos : generated pos = true ↔ in_build_cache pos.
Proof. apply Contains_spec. Qed.

Lemma generated_false pos : generated pos = false ↔ ¬ in_build_cache pos.
Proof. rewrite <- generated_spec. by destruct (generated pos). Qed.

Lemma isOsExitCall_spec fn : isOsExitCall fn = true ↔
  ∃ x sel, fn = SelectorExpr x sel ∧ Uses pass sel = Some (mkFunc (Some "os") "Exit").
Proof.
  unfold isOsExitCall. destruct fn as [| |x sel|]; try (split; [done|by intros (? & ? & ? & ?)]).
  split.
  - destruct (Uses pass sel) as [[pkg name]|] eqn:Hu; [|done]. simpl.
    intros [->%bool_decide_eq_true ->%bool_decide_eq_true]%andb_true_iff. by exists x, sel.
  - intros (x' & sel' & [= -> ->] & ->). by rewrite !bool_decide_true.
Qed.

Section node_induction.
Context (P : node → Prop).
Context (HLit : ∀ cs, P (FuncLit cs)) (HCall : ∀ pos fn args, P fn → Forall P args → P (CallExpr pos fn args))
  (HSel : ∀ x sel, P x → P (SelectorExpr x sel)) (HOther : ∀ cs, Forall P cs → P (OtherNode cs)).

Fixpoint node_deep_ind (n : node) : P n :=
  let all := fix all (l : list node) : Forall P l :=
    match l with
    | [] => Forall_nil_2 P
    | c :: l => Forall_cons_2 P c l (node_deep_ind c) (all l)
    end in
  match n with
  | FuncLit cs => HLit cs
  | CallExpr pos fn args => HCall pos fn args (node_deep_ind fn) (all args)
  | SelectorExpr x sel => HSel x sel (node_deep_ind x)
  | OtherNode cs => HOther cs (all cs)
  end.
End node_induction.

Lemma elem_of_flat_map {A B} (f : A → list B) l y : y ∈ flat_map f l ↔ ∃ x, x ∈ l ∧ y ∈ f x.
Proof. rewrite list_elem_of_In, in_flat_map. by setoid_rewrite list_elem_of_In. Qed.

Lemma exits_mono pos m n : (∀ k, stands_in k m → stands_in k n) → exits_at pos m → exits_at pos n.
Proof. intros Hin (x & sel & args & Hs & Hr). exists x, sel, args. split; [by apply Hin|done]. Qed.

Lemma inspect_sound n pos : pos ∈ inspect n → exits_at pos n.
Proof.
  induction n as [cs|p fn args IHf IHa|x sel IHx|cs IHc] using node_deep_ind; simpl.
  - by intros ?%elem_of_nil.
  - destruct (generated p) eqn:Hg; [by intros ?%elem_of_nil|]. apply generated_false in Hg.
    rewrite !elem_of_app. intros [H|[H|H]].
    + destruct (isOsExitCall fn) eqn:He; [|by apply elem_of_nil in H].
      apply list_elem_of_singleton in H as ->. apply isOsExitCall_spec in He as (x & sel & -> & Hu).
      exists x, sel, args. split; [constructor|done].
    + eapply exits_mono; [|by apply IHf]. intros k. by apply in_fun.
    + apply elem_of_flat_map in H as (a & Ha & H). rewrite Forall_forall in IHa.
      eapply exits_mono; [|by apply (IHa a)]. intros k. by apply in_arg.
  - intros H. eapply exits_mono; [|by apply IHx]. intros k. by apply in_selector.
  - intros (c & Hc & H)%elem_of_flat_map. rewrite Forall_forall in IHc.
    eapply exits_mono; [|by apply (IHc c)]. intros k. by apply in_other.
Qed.

Lemma inspect_complete n pos : exits_at pos n → pos ∈ inspect n.
Proof.
  intros (x & sel & args & Hin & Hu & Hg). remember (CallExpr pos (SelectorExpr x sel) args) as call.
  induction Hin as [n|m p f a Hp _ IH|m p f a b Hp Hb _ IH|m y l _ IH|m cs c Hc _ IH]; subst; simpl.
  - rewrite (proj2 (generated_false pos) Hg), Hu. by left.
  - rewrite (proj2 (generated_false p) Hp), !elem_of_app. right. left. by apply IH.
  - rewrite (proj2 (generated_false p) Hp), !elem_of_app. right. right. apply elem_of_flat_map.
    exists b. split; [done|]. by apply IH.
  - by apply IH.
  - apply elem_of_flat_map. exists c. split; [done|]. by apply IH.
Qed.

(** [C38] The analyzer reports exactly the calls written as a selector, under whatever
    name the package is imported, whose identifier stands for the function [Exit] of the
    package os, in the body of a function main without a receiver of a package main,
    outside function literals and outside files of the build cache.  A call through a dot
    import or in parentheses is no selector. *)
Theorem run_spec pos : pos ∈ run ↔ package_name pass = Some "main" ∧
  ∃ fd body, fd ∈ func_decls pass ∧ has_recv fd = false ∧ decl_name fd = Some "main" ∧
    decl_body fd = Some body ∧ exits_at pos body.
Proof.
  unfold run. case_bool_decide as Hp; [|split; [by intros ?%elem_of_nil|by intros [? _]]].
  rewrite elem_of_flat_map. unfold check_decl, is_main. split.
  - intros (fd & Hfd & H). split; [done|]. destruct (has_recv fd) eqn:Hr; [by apply elem_of_nil in H|].
    destruct (bool_decide_reflect (decl_name fd = Some "main")) as [Hm|Hm]; [|by apply elem_of_nil in H].
    simpl in H. destruct (decl_body fd) as [body|] eqn:Hb; [|by apply elem_of_nil in H].
    exists fd, body. by split_and!; [..|apply inspect_sound].
  - intros (_ & fd & body & Hfd & Hr & Hm & Hb & Hx). exists fd. split; [done|].
    rewrite Hr, Hb, bool_decide_true by done. by apply inspect_complete.
Qed.
End pass.

(** ** main.go: the analyzers of the tool *)

(** Entries of the lists of staticcheck and stylecheck may be nil. *)
Definition first_analyzer (name : string) (l : list (option string)) : list string :=
  match list_find (λ a, a = Some name) l with Some _ => [name] | None => [] end.

Definition analyzers (passes : list string) (staticcheck stylecheck : list (option string)) : list string :=
  passes ++ omap (λ a, match a with Some n => if HasPrefix n "SA" then Some n else None | None => None end) staticcheck
  ++ first_analyzer "ST1000" stylecheck ++ ["nilerr"; "forcetypeassert"; "osexitmain"].

Lemma elem_of_analyzers passes sc st a : a ∈ analyzers passes sc st ↔
  a ∈ passes ∨ (Some a ∈ sc ∧ HasPrefix a "SA" = true) ∨ (a = "ST1000" ∧ Some a ∈ st) ∨
  a ∈ ["nilerr"; "forcetypeassert"; "osexitmain"].
Proof.
  unfold analyzers. rewrite !elem_of_app. repeat apply or_iff_compat_l || apply Morphisms_Prop.or_iff_morphism; try done.
  - rewrite list_elem_of_omap. split.
    + intros ([n|] & Hn & H); [|done]. destruct (HasPrefix n "SA") eqn:Hp; [|done]. by injection H as ->.
    + intros [Ha Hp]. exists (Some a). by rewrite Hp.
  - unfold first_analyzer. destruct (list_find _ st) as [[i x]|] eqn:Hf.
    + apply list_find_Some in Hf as (Hi & -> & _). apply list_elem_of_lookup_2 in Hi.
      rewrite list_elem_of_singleton. split; [by intros ->|by intros [-> _]].
    + split; [by intros ?%elem_of_nil|]. intros [-> Ha]. exfalso.
      apply list_find_None in Hf. rewrite Forall_forall in Hf. by apply (Hf _ Ha).
Qed.

(** ** Examples *)

(** [os.Exit] through a selector is found, in a deferred call as well; not in a
    literal, and not when the package is imported with a dot or the function is in
    parentheses. *)
Definition demo_pass (body : node) : Pass :=
  mkPass (Some "main") [mkFuncDecl false (Some "helper") (Some body); mkFuncDecl false (Some "main") (Some body)]
    (λ i, if bool_decide (i = 7) then Some (mkFunc (Some "os") "Exit") else None) (λ _, "/app/main.go").

Definition os_Exit : node := SelectorExpr (OtherNode []) 7.

Lemma run_examples :
  run (demo_pass (OtherNode [OtherNode [CallExpr 1 os_Exit [OtherNode []]]; CallExpr 2 (FuncLit [CallExpr 3 os_Exit []]) []])) = [1] ∧
  run (demo_pass (CallExpr 1 (OtherNode []) [])) = [] ∧
  run (demo_pass (CallExpr 1 (OtherNode [os_Exit]) [])) = [].
Proof. by vm_compute. Qed.
End StaticLint.
