(* ===== verification/ResetGen.v ===== *)
(** * cmd/reset (main.go, helpers.go, logic.go): writing Reset methods

    The types of [go/types] as far as the generator tells them apart, the manager
    of imports, and the emission of one method as a list of statements with their
    text.  Named types are looked up in the declarations of the program, so a type
    may mention itself.  [method_set] is [types.NewMethodSet].  [ResetSem] gives the
    statements a meaning. *)

From S2P Require Import Prelude GoStrings GoInt GoErrors Domain GoFloat GoTime Json.
Open Scope Z_scope.

Module ResetGen.
Import Json GoTime.

(** ** Types *)

(** The kinds of basic types the generator knows; [Number] stands for all the
    others that are numbers. *)
Inductive kind : Type := Bool | Str | Number | UnsafePointer | UntypedNil.

#[export] Instance kind_eq_dec : EqDecision kind.
Proof. solve_decision. Defined.

Record type_name : Type := mkTypeName { n_path : string; n_package : string; n_name : string }.

#[export] Instance type_name_eq_dec : EqDecision type_name.
Proof. solve_decision. Defined.

(** [Opaque] is a channel, a function or an interface: its text, with the named types
    in it as they come. *)
#[warnings="-register-all"]
Inductive gotype : Type :=
  | Basic (k : kind) (text : string)
  | Slice (elem : gotype)
  | Map (key elem : gotype)
  | Pointer (elem : gotype)
  | Struct (fields : list (string * gotype))
  | Array (len : Z) (elem : gotype)
  | Opaque (parts : list (string + type_name))
  | Named (n : type_name).

Record method : Type := mkMethod { m_name : string; m_params : nat; m_results : nat }.

Definition is_reset (m : method) : bool :=
  bool_decide (m_name m = "Reset") && bool_decide (m_params m = 0%nat) && bool_decide (m_results m = 0%nat).

(** ** helpers.go *)

Definition zeroBasic (k : kind) : string :=
  match k with
  | Bool => "false"
  | Str => String dquote (String dquote EmptyString)
  | UntypedNil => "nil"
  | _ => "0"
  end.

(** [importManager]: the alias of each path, and the aliases taken. *)
Record importManager : Type := mkImports {
  localPkgPath : string;
  byPath : gmap string string;
  usedAlias : gset string;
}.

Definition newImportManager (path : string) : importManager := mkImports path ∅ ∅.

(** The loop for a free alias from [i] on; [fuel] bounds the number of tries. *)
Fixpoint free_alias (fuel : nat) (base : string) (i : Z) (used : gset string) : string :=
  let alias := base +:+ FormatInt i in
  match fuel with
  | O => alias
  | S fuel => if bool_decide (alias ∈ used) then free_alias fuel base (i + 1) used else alias
  end.

(** [qualifier]; one more try than aliases are taken is enough. *)
Definition qualifier (n : type_name) (im : importManager) : string * importManager :=
  if bool_decide (n_path n = localPkgPath im) then (EmptyString, im)
  else match byPath im !! n_path n with
       | Some alias => (alias, im)
       | None =>
           let base := n_package n in
           let alias := if bool_decide (base ∈ usedAlias im)
                        then free_alias (size (usedAlias im)) base 2 (usedAlias im) else base in
           (alias, mkImports (localPkgPath im) (<[n_path n := alias]> (byPath im)) ({[alias]} ∪ usedAlias im))
       end.

Definition named_text (n : type_name) (im : importManager) : string * importManager :=
  let '(q, im) := qualifier n im in
  (if bool_decide (q = EmptyString) then n_name n else q +:+ "." +:+ n_name n, im).

Fixpoint parts_text (parts : list (string + type_name)) (im : importManager) : string * importManager :=
  match parts with
  | [] => (EmptyString, im)
  | inl s :: parts => let '(r, im) := parts_text parts im in (s +:+ r, im)
  | inr n :: parts => let '(s, im) := named_text n im in
                      let '(r, im) := parts_text parts im in (s +:+ r, im)
  end.

(** [types.TypeString] with the qualifier. *)
Fixpoint typeString (t : gotype) (im : importManager) : string * importManager :=
  match t with
  | Basic _ text => (text, im)
  | Opaque parts => parts_text parts im
  | Slice e => let '(s, im) := typeString e im in ("[]" +:+ s, im)
  | Map k e => let '(sk, im) := typeString k im in
               let '(se, im) := typeString e im in ("map[" +:+ sk +:+ "]" +:+ se, im)
  | Pointer e => let '(s, im) := typeString e im in ("*" +:+ s, im)
  | Array n e => let '(s, im) := typeString e im in ("[" +:+ FormatInt n +:+ "]" +:+ s, im)
  | Named n => named_text n im
  | Struct fs =>
      let fix go fs im :=
        match fs with
        | [] => (EmptyString, im)
        | [(f, t)] => let '(s, im) := typeString t im in (f +:+ " " +:+ s, im)
        | (f, t) :: fs => let '(s, im) := typeString t im in
                          let '(r, im) := go fs im in (f +:+ " " +:+ s +:+ "; " +:+ r, im)
        end in
      let '(s, im) := go fs im in ("struct{" +:+ s +:+ "}", im)
  end.

(** [strings.LastIndex(p, "/")] and the text behind it. *)
Definition last_segment (p : string) : string :=
  match cut_last "/"%char p with Some (_, rest) => rest | None => p end.

(** [sortedImports]: each path with its alias, left out when it is the last
    segment of the path. *)
Definition sortedImports (im : importManager) : list (string * string) :=
  (λ p, let alias := default EmptyString (byPath im !! p) in
        (p, if bool_decide (alias = last_segment p) then EmptyString else alias))
  <$> SortStrings (map_to_list (byPath im)).*1.

(** ** main.go: the statements of a method *)

(** Each constructor is one call of [w.line] (two for [IfNotNil]) with its
    indentation; [Composite] keeps the type its text spells. *)
#[warnings="-register-all"]
Inductive stmt : Type :=
  | Zero (indent : nat) (lhs zero : string)
  | Truncate (indent : nat) (lhs slice : string)
  | Clear (indent : nat) (e : string)
  | IfNotNil (indent : nat) (e : string) (body : list stmt)
  | CallReset (indent : nat) (receiver : string) (addressed : bool)
  | Composite (indent : nat) (lhs : string) (t : gotype) (text : string).

Definition line (indent : nat) (s : string) : string :=
  String.concat EmptyString (replicate indent (String (byte 9) EmptyString)) +:+
  (s +:+ String (byte 10) EmptyString).

Fixpoint print_stmt (s : stmt) : string :=
  match s with
  | Zero i lhs zero => line i (lhs +:+ " = " +:+ zero)
  | Truncate i lhs slice => line i (lhs +:+ " = " +:+ slice +:+ "[:0]")
  | Clear i e => line i ("clear(" +:+ e +:+ ")")
  | IfNotNil i e body => line i ("if " +:+ e +:+ " != nil {") +:+
      (String.concat EmptyString (print_stmt <$> body) +:+ line i "}")
  | CallReset i e true => line i ("(&" +:+ e +:+ ").Reset()")
  | CallReset i e false => line i (e +:+ ".Reset()")
  | Composite i lhs _ text => line i (lhs +:+ " = " +:+ text +:+ "{}")
  end.

Section emit.
(** The declared types, and the method sets. *)
Context (underlying_of : type_name → gotype) (method_set : gotype → list method).

Definition Underlying (t : gotype) : gotype :=
  match t with Named n => underlying_of n | _ => t end.

Definition hasResetMethod (t : gotype) : bool := existsb is_reset (method_set t).

(** [zeroExpr]; composite literals use the type's text. *)
Definition zeroExpr (t : gotype) (im : importManager) : string * importManager :=
  match Underlying t with
  | Basic k _ => (zeroBasic k, im)
  | Struct _ | Array _ _ => let '(s, im) := typeString t im in (s +:+ "{}", im)
  | _ => ("nil", im)
  end.

Definition accessibleStruct (t : gotype) (local : string) : option (list (string * gotype)) :=
  match t with
  | Struct fs => Some fs
  | Named n => match underlying_of n with
               | Struct fs => if bool_decide (n_path n = local) then Some fs else None
               | _ => None
               end
  | _ => None
  end.

(** What the emission of a list of fields is made of. *)
Definition emitter : Type := string → gotype → importManager → option (list stmt * importManager).

Fixpoint emit_fields (emit : emitter) (e : string) (fs : list (string * gotype)) (im : importManager) :
    option (list stmt * importManager) :=
  match fs with
  | [] => Some ([], im)
  | (f, t) :: fs =>
      '(l1, im) ← emit (e +:+ ("." +:+ f)) t im;
      '(l2, im) ← emit_fields emit e fs im;
      Some (l1 ++ l2, im)
  end.

(** The bodies of [emitResetForExpr] and [emitResetThroughPointer]; [expr] and
    [through] are the functions themselves, called again. *)
Definition for_expr (expr through : emitter) (local e : string) (t : gotype) (im : importManager) :
    option (list stmt * importManager) :=
  match Underlying t with
  | Basic k _ => Some ([Zero 1 e (zeroBasic k)], im)
  | Slice _ => Some ([Truncate 1 e e], im)
  | Map _ _ => Some ([Clear 1 e], im)
  | Pointer elem =>
      '(body, im) ← through e elem im;
      Some ([IfNotNil 1 e body], im)
  | Struct _ =>
      if hasResetMethod (Pointer t) then Some ([CallReset 1 e true], im)
      else if hasResetMethod t then Some ([CallReset 1 e false], im)
      else match accessibleStruct t local with
           | Some fs => emit_fields expr e fs im
           | None => let '(s, im) := typeString t im in Some ([Composite 1 e t s], im)
           end
  | Array _ _ => let '(s, im) := typeString t im in Some ([Composite 1 e t s], im)
  | _ => let '(s, im) := zeroExpr t im in Some ([Zero 1 e s], im)
  end.

Definition through_pointer (expr through : emitter) (local ptr : string) (elem : gotype) (im : importManager) :
    option (list stmt * importManager) :=
  let star := "*" +:+ ptr in
  match Underlying elem with
  | Basic k _ => Some ([Zero 2 star (zeroBasic k)], im)
  | Slice _ => Some ([Truncate 2 star ("(" +:+ star +:+ ")")], im)
  | Map _ _ => Some ([Clear 2 star], im)
  | Pointer elem' =>
      '(body, im) ← through star elem' im;
      Some ([IfNotNil 2 star body], im)
  | Struct _ =>
      if hasResetMethod (Pointer elem) then Some ([CallReset 2 ptr false], im)
      else match accessibleStruct elem local with
           | Some fs => emit_fields expr ptr fs im
           | None => let '(s, im) := typeString elem im in Some ([Composite 2 star elem s], im)
           end
  | Array _ _ => let '(s, im) := typeString elem im in Some ([Composite 2 star elem s], im)
  | _ => let '(s, im) := zeroExpr elem im in Some ([Zero 2 star s], im)
  end.

(** The recursion follows the types and has no bound of its own; [None] when
    [fuel] runs out. *)
Fixpoint emitResetForExpr (fuel : nat) (local : string) {struct fuel} : emitter :=
  match fuel with
  | O => λ _ _ _, None
  | S fuel => for_expr (emitResetForExpr fuel local) (emitResetThroughPointer fuel local) local
  end
with emitResetThroughPointer (fuel : nat) (local : string) {struct fuel} : emitter :=
  match fuel with
  | O => λ _ _ _, None
  | S fuel => through_pointer (emitResetForExpr fuel local) (emitResetThroughPointer fuel local) local
  end.

(** [emitResetMethod]: the body behind the check for a nil receiver; the outer
    option is the error "is not a struct type". *)
Definition method_body (fuel : nat) (local : string) (n : type_name) (im : importManager) :
    option (option (list stmt * importManager)) :=
  match underlying_of n with
  | Struct fs => Some (emit_fields (emitResetForExpr fuel local) "x" fs im)
  | _ => None
  end.

Definition print_method (name : string) (body : list stmt) : string :=
  line 0 ("func (x *" +:+ name +:+ ") Reset() {") +:+
  (line 1 "if x == nil {" +:+ (line 2 "return" +:+ (line 1 "}" +:+ (line 0 EmptyString +:+
  (String.concat EmptyString (print_stmt <$> body) +:+ line 0 "}"))))).
End emit.
End ResetGen.
