(* ===== verification/ResetSem.v ===== *)
(** * cmd/reset: what the generated methods do

    Values of Go types as trees (a pointer owns what it points to), a reading of
    the expressions the generator writes as Go parses them, and the execution of its
    statements.  A statement Go would not compile, or that panics, has no result. *)

From S2P Require Import Prelude GoStrings GoInt GoErrors Domain GoFloat GoTime Json ResetGen.
Open Scope Z_scope.

Module ResetSem.
Import GoTime ResetGen.

(** ** Values *)

(** [VBasic] has its kind and its text; [VSlice] its length and the array behind
    it; [VOpaque] stands for channels, functions and interfaces. *)
#[warnings="-register-all"]
Inductive val : Type :=
  | VBasic (k : kind) (text : string)
  | VSlice (len : nat) (arr : list val)
  | VMap (entries : list (val * val))
  | VPtr (target : option val)
  | VStruct (fields : list (string * val))
  | VArray (elems : list val)
  | VOpaque (nil : bool).

(** ** Expressions

    A unary star binds weaker than a selector: [*x.f.g] is the dereference of the
    path [x.f.g]. *)
Fixpoint split_dots (s cur : string) : list string :=
  match s with
  | EmptyString => [cur]
  | String c s => if bool_decide (c = "."%char) then cur :: split_dots s EmptyString
                  else split_dots s (cur +:+ String c EmptyString)
  end.

Fixpoint parse_stars (s : string) (n : nat) : nat * list string :=
  match s with
  | String c s' => if bool_decide (c = "*"%char) then parse_stars s' (S n)
                   else (n, split_dots s EmptyString)
  | EmptyString => (n, split_dots s EmptyString)
  end.

Inductive access : Type := Sel (f : string) | Deref.

(** The way from the receiver to the place an expression names. *)
Definition parse_expr (s : string) : option (list access) :=
  match parse_stars s 0 with
  | (n, x :: path) => if bool_decide (x = "x") then Some ((Sel <$> path) ++ replicate n Deref) else None
  | _ => None
  end.

Fixpoint update_field {A} (g : A → option A) (f : string) (fs : list (string * A)) :
    option (list (string * A)) :=
  match fs with
  | [] => None
  | (f', a) :: fs => if bool_decide (f' = f) then (λ a, (f', a) :: fs) <$> g a
                     else cons (f', a) <$> update_field g f fs
  end.

(** [g] applied at a place.  A selector goes through one pointer by itself. *)
Fixpoint modify (p : list access) (g : val → option val) (v : val) : option val :=
  match p with
  | [] => g v
  | Sel f :: p =>
      match v with
      | VStruct fs => VStruct <$> update_field (modify p g) f fs
      | VPtr (Some (VStruct fs)) => (λ fs, VPtr (Some (VStruct fs))) <$> update_field (modify p g) f fs
      | _ => None
      end
  | Deref :: p =>
      match v with
      | VPtr (Some w) => (λ w, VPtr (Some w)) <$> modify p g w
      | _ => None
      end
  end.

(** What is at a place. *)
Fixpoint lookup_field {A} (f : string) (fs : list (string * A)) : option A :=
  match fs with
  | [] => None
  | (f', a) :: fs => if bool_decide (f' = f) then Some a else lookup_field f fs
  end.

Fixpoint read (p : list access) (v : val) : option val :=
  match p with
  | [] => Some v
  | Sel f :: p =>
      match v with
      | VStruct fs | VPtr (Some (VStruct fs)) => w ← lookup_field f fs; read p w
      | _ => None
      end
  | Deref :: p => match v with VPtr (Some w) => read p w | _ => None end
  end.

Section exec.
(** The zero value of a type, and what the method [Reset] of a type does to the
    value it is called on. *)
Context (zero_of : gotype → val) (run_reset : val → val).

(** A literal zero must fit the variable it is assigned to. *)
Definition assign_zero (zero : string) (v : val) : option val :=
  match v with
  | VBasic k _ =>
      match k with
      | Bool => if bool_decide (zero = "false") then Some (VBasic k zero) else None
      | Str => if bool_decide (zero = zeroBasic Str) then Some (VBasic k zero) else None
      | Number => if bool_decide (zero = "0") then Some (VBasic k zero) else None
      | UnsafePointer | UntypedNil => if bool_decide (zero = "nil") then Some (VBasic k zero) else None
      end
  | VOpaque _ => if bool_decide (zero = "nil") then Some (VOpaque true) else None
  | VPtr _ => if bool_decide (zero = "nil") then Some (VPtr None) else None
  | _ => None
  end.

Definition at_expr (e : string) (g : val → option val) (root : val) : option val :=
  p ← parse_expr e; modify p g root.

Definition starts_star (e : string) : bool :=
  match e with String c _ => bool_decide (c = "*"%char) | EmptyString => false end.

(** The method call goes to a pointer's target, or to a struct in place. *)
Definition call_reset (addressed : bool) (v : val) : option val :=
  match v, addressed with
  | VPtr (Some w), false => Some (VPtr (Some (run_reset w)))
  | VStruct fs, _ => Some (run_reset v)
  | _, _ => None
  end.

Fixpoint exec (s : stmt) (root : val) : option val :=
  match s with
  | Zero _ e zero => at_expr e (assign_zero zero) root
  | Truncate _ e _ => at_expr e (λ v, match v with VSlice _ arr => Some (VSlice 0 arr) | _ => None end) root
  | Clear _ e => at_expr e (λ v, match v with VMap _ => Some (VMap []) | _ => None end) root
  | CallReset _ e addressed =>
      (* a call binds stronger than a star in front of it *)
      if starts_star e then None else at_expr e (call_reset addressed) root
  | Composite _ e t _ =>
      at_expr e (λ v, match v with VStruct _ | VArray _ => Some (zero_of t) | _ => None end) root
  | IfNotNil _ e body =>
      p ← parse_expr e;
      match read p root with
      | Some (VPtr None) => Some root
      | Some (VPtr (Some _)) => fold_left (λ r s, r ≫= exec s) body (Some root)
      | _ => None
      end
  end.

Definition exec_all (l : list stmt) (root : val) : option val := fold_left (λ r s, r ≫= exec s) l (Some root).

(** A method on its receiver. *)
Definition run_method (body : list stmt) (x : val) : option val :=
  match x with VPtr None => Some x | _ => exec_all body x end.
End exec.

(** ** Places *)









(** ** Reading the expressions back *)














(** ** What a reset is *)
Section correct.
Context (underlying_of : type_name → gotype) (method_set : gotype → list method).
Context (zero_of : gotype → val) (run_reset : val → val) (local : string).
(** The method set of a struct type is part of that of its pointer type. *)
Context (method_set_pointer : ∀ t fs m, ResetGen.Underlying underlying_of t = Struct fs →
  m ∈ method_set t → m ∈ method_set (Pointer t)).
#[local] Abbreviation Underlying := (Underlying underlying_of).
#[local] Abbreviation hasReset := (hasResetMethod method_set).
#[local] Abbreviation emitExpr := (emitResetForExpr underlying_of method_set).
#[local] Abbreviation emitPtr := (emitResetThroughPointer underlying_of method_set).
#[local] Abbreviation exec_all := (exec_all zero_of run_reset).









(** So the second test of [emitResetForExpr] for a struct never succeeds. *)
Lemma HR_sub t fs : Underlying t = Struct fs → hasReset t = true → hasReset (Pointer t) = true.
Proof using method_set_pointer.
  intros HU. unfold hasResetMethod. rewrite !existsb_exists. intros (m & Hm & Hr). exists m. split; [|done].
  apply list_elem_of_In. eapply method_set_pointer; [done|]. by apply list_elem_of_In.
Qed.

(** ** Executing one statement after the other *)











Lemma accessible_fields t fs : accessibleStruct underlying_of t local = Some fs → Underlying t = Struct fs.
Proof.
  unfold accessibleStruct, ResetGen.Underlying. destruct t; try done; [by intros [= ->]|].
  destruct (underlying_of _); try done. case_bool_decide; [|done]. by intros [= ->].
Qed.













End correct.

(** ** Where the recursion ends *)
Section termination.
Context (underlying_of : type_name → gotype) (method_set : gotype → list method) (local : string).
Context (method_set_pointer : ∀ t fs m, ResetGen.Underlying underlying_of t = Struct fs →
  m ∈ method_set t → m ∈ method_set (Pointer t)).
#[local] Abbreviation Underlying := (Underlying underlying_of).
#[local] Abbreviation hasReset := (hasResetMethod method_set).
#[local] Abbreviation emitExpr := (emitResetForExpr underlying_of method_set).
#[local] Abbreviation emitPtr := (emitResetThroughPointer underlying_of method_set).

(** Types the emission gets through: the structs it opens do not lead back to
    themselves by fields and pointers. *)
Inductive finite : gotype → Prop :=
  | finite_leaf t : match Underlying t with Pointer _ | Struct _ => False | _ => True end → finite t
  | finite_pointer t e : Underlying t = Pointer e → finite e → finite t
  | finite_method t fs : Underlying t = Struct fs → hasReset (Pointer t) = true → finite t
  | finite_foreign t fs : Underlying t = Struct fs → accessibleStruct underlying_of t local = None → finite t
  | finite_struct t fs : accessibleStruct underlying_of t local = Some fs → finite_fields fs → finite t
with finite_fields : list (string * gotype) → Prop :=
  | finite_nil : finite_fields []
  | finite_cons f t fs : finite t → finite_fields fs → finite_fields ((f, t) :: fs).

Scheme finite_mind := Induction for finite Sort Prop
with finite_fields_mind := Induction for finite_fields Sort Prop.

(** [em2] does whatever [em1] does. *)
Definition extends (em1 em2 : emitter) : Prop := ∀ e t im r, em1 e t im = Some r → em2 e t im = Some r.

Lemma emit_fields_extends em1 em2 e fs im r : extends em1 em2 →
  emit_fields em1 e fs im = Some r → emit_fields em2 e fs im = Some r.
Proof.
  intros Hx. revert im r. induction fs as [|[f t] fs IH]; intros im r; [done|]. simpl.
  destruct (em1 _ t im) as [[l1 im1]|] eqn:H1; simpl; [|done].
  rewrite (Hx _ _ _ _ H1). simpl. destruct (emit_fields em1 e fs im1) as [[l2 im2]|] eqn:H2; simpl; [|done].
  by rewrite (IH _ _ H2).
Qed.

Lemma steps_extend ex ex' th th' : extends ex ex' → extends th th' →
  extends (for_expr underlying_of method_set ex th local) (for_expr underlying_of method_set ex' th' local) ∧
  extends (through_pointer underlying_of method_set ex th local)
          (through_pointer underlying_of method_set ex' th' local).
Proof.
  intros Hex Hth. split; intros e t im r; unfold for_expr, through_pointer; cbv zeta.
  - destruct (Underlying t) as [| | |el|fs| | |]; try done.
    + destruct (th e el im) as [[b im1]|] eqn:Hb; simpl; [|done]. by rewrite (Hth _ _ _ _ Hb).
    + repeat case_match; try done. by apply emit_fields_extends.
  - destruct (Underlying t) as [| | |el|fs| | |]; try done.
    + destruct (th _ el im) as [[b im1]|] eqn:Hb; simpl; [|done]. by rewrite (Hth _ _ _ _ Hb).
    + repeat case_match; try done. by apply emit_fields_extends.
Qed.

Lemma fuel_extends fuel : extends (emitExpr fuel local) (emitExpr (S fuel) local) ∧
  extends (emitPtr fuel local) (emitPtr (S fuel) local).
Proof.
  induction fuel as [|fuel [IHe IHp]]; [split; intros e t im r; discriminate|].
  exact (steps_extend _ _ _ _ IHe IHp).
Qed.

Lemma more_fuel fuel fuel' : (fuel ≤ fuel')%nat → extends (emitExpr fuel local) (emitExpr fuel' local) ∧
  extends (emitPtr fuel local) (emitPtr fuel' local).
Proof.
  induction 1 as [|fuel' _ [IHe IHp]]; [split; by intros ? ?|]. destruct (fuel_extends fuel') as [He Hp].
  split; intros e t im r H; [by apply He, IHe|by apply Hp, IHp].
Qed.

(** With this fuel both emitters get through [t], whatever the expression is. *)
Definition enough (fuel : nat) (t : gotype) : Prop :=
  ∀ e im, is_Some (emitExpr fuel local e t im) ∧ is_Some (emitPtr fuel local e t im).

Lemma enough_more fuel fuel' t : (fuel ≤ fuel')%nat → enough fuel t → enough fuel' t.
Proof.
  intros Hf Ht e im. destruct (more_fuel _ _ Hf) as [He Hp]. destruct (Ht e im) as [[r1 H1] [r2 H2]].
  split; eexists; [by apply He|by apply Hp].
Qed.

Lemma enough_fields fuel fs : Forall (λ ft, enough fuel ft.2) fs →
  ∀ e im, is_Some (emit_fields (emitExpr fuel local) e fs im).
Proof.
  induction 1 as [|[f t] fs Ht Hfs IH]; intros e im; [by eexists|]. simpl.
  destruct (Ht (e +:+ ("." +:+ f)) im) as [[[l1 im1] H1] _]. simpl in H1. rewrite H1. simpl.
  destruct (IH e im1) as [[l2 im2] H2]. rewrite H2. by eexists.
Qed.

Lemma finite_enough t : finite t → ∃ fuel, enough fuel t.
Proof using method_set_pointer.
  revert t. apply (finite_mind (λ t _, ∃ fuel, enough fuel t)
    (λ fs _, ∃ fuel, Forall (λ ft, enough fuel ft.2) fs)).
  - intros t Ht. exists 1%nat. intros e im. simpl. unfold for_expr, through_pointer.
    destruct (Underlying t); try done; (split; [try by eexists|try by eexists]);
      repeat case_match; by eexists.
  - intros t e HU _ [fuel Hf]. exists (S fuel). intros x im. simpl. unfold for_expr, through_pointer. rewrite HU.
    split; [destruct (Hf x im) as [_ [[b im1] H1]]|destruct (Hf ("*" +:+ x) im) as [_ [[b im1] H1]]];
      rewrite H1; by eexists.
  - intros t fs HU HR. exists 1%nat. intros e im. simpl. unfold for_expr, through_pointer. rewrite HU, HR.
    split; by eexists.
  - intros t fs HU Ha. exists 1%nat. intros e im. simpl. unfold for_expr, through_pointer. rewrite HU, Ha.
    split; repeat case_match; by eexists.
  - intros t fs Ha _ [fuel Hf]. exists (S fuel). pose proof (accessible_fields _ _ _ _ Ha) as HU.
    intros e im. simpl. unfold for_expr, through_pointer. rewrite HU, Ha.
    destruct (enough_fields fuel fs Hf e im) as [r Hr].
    split; repeat case_match; by eexists.
  - exists 0%nat. constructor.
  - intros f t fs _ [f1 H1] _ [f2 H2]. exists (f1 `max` f2)%nat. constructor.
    + simpl. eapply enough_more; [|exact H1]. lia.
    + eapply Forall_impl; [exact H2|]. intros [g u] Hu. simpl in *. eapply enough_more; [|exact Hu]. lia.
Qed.

Lemma emit_fields_finite fuel fs e im r : (∀ e t im r, emitExpr fuel local e t im = Some r → finite t) →
  emit_fields (emitExpr fuel local) e fs im = Some r → finite_fields fs.
Proof.
  intros Hf. revert im r. induction fs as [|[f t] fs IH]; intros im r; [constructor|]. simpl.
  destruct (emitExpr fuel local _ t im) as [[l1 im1]|] eqn:H1; simpl; [|done].
  destruct (emit_fields _ e fs im1) as [[l2 im2]|] eqn:H2; simpl; [|done]. intros _.
  constructor; [by eapply Hf|by eapply IH].
Qed.

Lemma some_finite fuel : (∀ e t im r, emitExpr fuel local e t im = Some r → finite t) ∧
  (∀ e t im r, emitPtr fuel local e t im = Some r → finite t).
Proof using method_set_pointer.
  induction fuel as [|fuel [IHe IHp]]; [done|].
  split; intros e t im r; simpl; unfold for_expr, through_pointer; cbv zeta;
    destruct (Underlying t) as [| | |el|fs| | |] eqn:HU;
    try (intros _; apply finite_leaf; by rewrite HU).
  - destruct (emitPtr fuel local e el im) as [[b im1]|] eqn:Hb; simpl; [|done]. intros _.
    eapply finite_pointer; [done|by eapply IHp].
  - destruct (hasReset (Pointer t)) eqn:HR; [intros _; by eapply finite_method|].
    destruct (hasReset t) eqn:HR2; [by rewrite (HR_sub _ _ method_set_pointer _ _ HU HR2) in HR|].
    destruct (accessibleStruct _ t local) as [fs'|] eqn:Ha; [|intros _; by eapply finite_foreign].
    intros Hr. eapply finite_struct; [done|by eapply emit_fields_finite].
  - destruct (emitPtr fuel local _ el im) as [[b im1]|] eqn:Hb; simpl; [|done]. intros _.
    eapply finite_pointer; [done|by eapply IHp].
  - destruct (hasReset (Pointer t)) eqn:HR; [intros _; by eapply finite_method|].
    destruct (accessibleStruct _ t local) as [fs'|] eqn:Ha; [|intros _; by eapply finite_foreign].
    intros Hr. eapply finite_struct; [done|by eapply emit_fields_finite].
Qed.

(** Where the generator goes on from a type: to what it points to, and into the fields of
    a struct of this package without a method [Reset]. *)
Inductive leads : gotype → gotype → Prop :=
  | leads_pointer t e : Underlying t = Pointer e → leads t e
  | leads_field t fs f u : hasReset (Pointer t) = false → accessibleStruct underlying_of t local = Some fs →
      (f, u) ∈ fs → leads t u.

#[local] Abbreviation ends := (Acc (λ u t, leads t u)).

Lemma finite_ends t : finite t → ends t.
Proof.
  revert t. apply (finite_mind (λ t _, ends t) (λ fs _, ∀ f t, (f, t) ∈ fs → ends t)).
  - intros t Ht. constructor. intros u Hu. destruct Hu as [? e HU|? fs f u _ Ha _].
    + by rewrite HU in Ht.
    + by rewrite (accessible_fields _ _ _ _ Ha) in Ht.
  - intros t e HU _ He. constructor. intros u Hu. destruct Hu as [? e' HU'|? fs f u _ Ha _].
    + rewrite HU in HU'. by injection HU' as <-.
    + by rewrite (accessible_fields _ _ _ _ Ha) in HU.
  - intros t fs HU HR. constructor. intros u Hu. destruct Hu as [? e HU'|? fs' f u HR' _ _]; congruence.
  - intros t fs HU Ha. constructor. intros u Hu. destruct Hu as [? e HU'|? fs' f u _ Ha' _]; congruence.
  - intros t fs Ha _ IH. pose proof (accessible_fields _ _ _ _ Ha) as HU. constructor. intros u Hu.
    destruct Hu as [? e HU'|? fs' f u _ Ha' Hin]; [congruence|]. rewrite Ha in Ha'. injection Ha' as <-. by eapply IH.
  - by intros f t ?%elem_of_nil.
  - intros f t fs _ Ht _ IH g u [[= -> ->]|Hu]%elem_of_cons; [done|by eapply IH].
Qed.

Lemma finite_all fs : (∀ f t, (f, t) ∈ fs → finite t) → finite_fields fs.
Proof.
  induction fs as [|[f t] fs IH]; intros Hf; [constructor|]. constructor; [apply (Hf f); left|].
  apply IH. intros g u Hu. apply (Hf g). by right.
Qed.

Lemma ends_finite t : ends t → finite t.
Proof.
  induction 1 as [t _ IH]. destruct (Underlying t) as [| | |e|fs| | |] eqn:HU;
    try (apply finite_leaf; by rewrite HU).
  - eapply finite_pointer; [exact HU|]. by apply IH, leads_pointer.
  - destruct (hasReset (Pointer t)) eqn:HR; [by eapply finite_method|].
    destruct (accessibleStruct underlying_of t local) as [fs'|] eqn:Ha; [|by eapply finite_foreign].
    eapply finite_struct; [exact Ha|]. apply finite_all. intros f u Hu. apply IH. by eapply leads_field.
Qed.

Lemma finite_fields_ends fs : finite_fields fs ↔ ∀ f t, (f, t) ∈ fs → ends t.
Proof.
  split.
  - intros Hf. induction fs as [|[g u] fs IH]; intros f t Hin; [by apply elem_of_nil in Hin|].
    inversion Hf as [|? ? ? Hu Hfs]; subst.
    apply elem_of_cons in Hin as [[= -> ->]|Hin]; [by apply finite_ends|by eapply IH].
  - intros Hf. apply finite_all. intros f t Hin. by eapply ends_finite, Hf.
Qed.

(** What ends reaches no cycle. *)
Lemma ends_no_cycle t u : ends t → rtc leads t u → tc leads u u → False.
Proof.
  intros Ht Hr. assert (ends u) as Hu.
  { clear -Ht Hr. induction Hr as [t|t v u Hs _ IH]; [done|]. apply IH. by apply (Acc_inv Ht). }
  clear -Hu. induction Hu as [u _ IH]. intros Hc. inversion Hc as [? v Hs|? v ? Hs Hvu]; subst.
  - by eapply IH.
  - eapply (IH v); [done|]. by eapply tc_r.
Qed.

(** [C37] Writing the method ends exactly when every chain from its fields does, through
    pointers and the fields of structs of this package without a method [Reset]: a
    struct from which a chain leads to one that leads back to itself, like a list node,
    sends the generator into a recursion without end, whether it is part of the cycle or
    only refers to it. *)
Theorem method_terminates n fs : underlying_of n = Struct fs →
  ((∀ f t, (f, t) ∈ fs → Acc (λ u t, leads t u) t) ↔
    ∃ fuel, ∀ im, is_Some (emit_fields (emitExpr fuel local) "x" fs im)) ∧
  (∀ f t u, (f, t) ∈ fs → rtc leads t u → tc leads u u →
    ∀ fuel im, method_body underlying_of method_set fuel local n im = Some None).
Proof using method_set_pointer.
  intros Hn. rewrite <- finite_fields_ends. split; [split|].
  - intros Hf. assert (∃ fuel, Forall (λ ft, enough fuel ft.2) fs) as [fuel Hall].
    { clear -Hf method_set_pointer. induction fs as [|[f t] fs IH]; [by exists 0%nat|].
      inversion Hf as [|? ? ? Ht Hfs]; subst. destruct (finite_enough t Ht) as [f1 H1].
      destruct (IH Hfs) as [f2 H2]. exists (f1 `max` f2)%nat. constructor.
      - simpl. eapply enough_more; [|exact H1]. lia.
      - eapply Forall_impl; [exact H2|]. intros [g u] Hu. simpl in *. eapply enough_more; [|exact Hu]. lia. }
    exists fuel. intros im. by apply enough_fields.
  - intros [fuel Hf]. destruct (Hf (newImportManager local)) as [r Hr].
    eapply emit_fields_finite; [|exact Hr]. apply some_finite.
  - intros f t u Hin Hr Hc fuel im. unfold method_body. rewrite Hn. f_equal.
    destruct (emit_fields _ "x" fs im) as [r|] eqn:He; [|done]. exfalso.
    assert (finite_fields fs) as Hfs by (eapply emit_fields_finite; [|exact He]; apply some_finite).
    apply (ends_no_cycle t u); [|done|done]. by eapply finite_fields_ends.
Qed.
End termination.

(** ** Example: a package with structs of its own and of others *)
Module Demo.
Definition here : string := "example.com/app".
Definition own (name : string) : type_name := mkTypeName here "app" name.
Definition buffer : type_name := mkTypeName "bytes" "bytes" "Buffer".
Definition time_t : type_name := mkTypeName "time" "time" "Time".
Definition int : gotype := Basic Number "int".

Definition demo_under (n : type_name) : gotype :=
  if bool_decide (n = own "Request") then
    Struct [("id", int); ("tags", Slice (Basic Str "string")); ("args", Map int int);
            ("limit", Pointer (Pointer int)); ("peer", Pointer (Named (own "Peer"))); ("self", Named (own "Peer"));
            ("body", Named buffer); ("at", Named time_t); ("done", Opaque [inl "chan bool"]); ("sum", Array 2 int)]
  else if bool_decide (n = own "Peer") then Struct [("name", Basic Str "string"); ("up", Basic Bool "bool")]
  else if bool_decide (n = own "Node") then Struct [("value", int); ("next", Pointer (Named (own "Node")))]
  else if bool_decide (n = buffer) then Struct [("buf", Basic Str "string")]
  else if bool_decide (n = time_t) then Struct [("wall", int)]
  else if bool_decide (n = own "Twice") then Struct [("peer", Pointer (Pointer (Named (own "Peer"))))]
  else if bool_decide (n = own "Holder") then Struct [("first", Pointer (Named (own "Node")))]
  else Struct [].

Definition demo_methods (t : gotype) : list method :=
  match t with
  | Pointer (Named n) => if bool_decide (n = buffer) then [mkMethod "Len" 0 1; mkMethod "Reset" 0 0] else []
  | _ => []
  end.

Lemma demo_methods_pointer t fs m : ResetGen.Underlying demo_under t = Struct fs →
  m ∈ demo_methods t → m ∈ demo_methods (Pointer t).
Proof. destruct t as [| | |e| | | |]; simpl; intros HU Hm; try done; by apply elem_of_nil in Hm. Qed.

Definition demo_zero (t : gotype) : val :=
  match t with Array _ _ => VArray [VBasic Number "0"; VBasic Number "0"] | _ => VStruct [] end.
Definition demo_run (v : val) : val := VStruct [].

Definition emitted (n : type_name) : list stmt :=
  match method_body demo_under demo_methods 10 here n (newImportManager here) with
  | Some (Some (l, _)) => l
  | _ => []
  end.

Definition peer_value : val := VStruct [("name", VBasic Str "p"); ("up", VBasic Bool "true")].



(** A struct of plain fields gets its method; one that holds a list node never does. *)
Lemma method_terminates_witness :
  (∃ fuel, ∀ im, is_Some (emit_fields (emitResetForExpr demo_under demo_methods fuel here) "x"
    [("name", Basic Str "string"); ("up", Basic Bool "bool")] im)) ∧
  ∀ fuel im, method_body demo_under demo_methods fuel here (own "Holder") im = Some None.
Proof.
  split.
  - apply (method_terminates demo_under demo_methods here demo_methods_pointer (own "Peer") _ eq_refl).
    intros f t Hin. constructor. intros u Hu.
    apply elem_of_cons in Hin as [[= -> ->]|[= -> ->]%list_elem_of_singleton]; inversion Hu; simplify_eq.
  - apply (proj2 (method_terminates demo_under demo_methods here demo_methods_pointer (own "Holder") _ eq_refl)
      "first" (Pointer (Named (own "Node"))) (Named (own "Node"))); [left|apply rtc_once, leads_pointer; reflexivity|].
    eapply tc_l; [eapply leads_field; [reflexivity|reflexivity|right; left]|].
    apply tc_once, leads_pointer. reflexivity.
Defined.

(** Behind two pointers the selector of a struct's field lacks its parentheses: what
    is written does not compile. *)
Lemma twice_broken :
  String.concat EmptyString (print_stmt <$> emitted (own "Twice")) =
    line 1 "if x.peer != nil {" +:+ (line 2 "if *x.peer != nil {" +:+
    (line 1 ("*x.peer.name = " +:+ zeroBasic Str) +:+ (line 1 "*x.peer.up = false" +:+
    (line 2 "}" +:+ line 1 "}")))) ∧
  run_method demo_zero demo_run (emitted (own "Twice"))
    (VPtr (Some (VStruct [("peer", VPtr (Some (VPtr (Some peer_value))))]))) = None.
Proof. by vm_compute. Qed.

(** An unsafe pointer is assigned a number, which does not compile either. *)
Lemma unsafe_broken v : assign_zero (zeroBasic UnsafePointer) (VBasic UnsafePointer v) = None.
Proof. reflexivity. Qed.
End Demo.
End ResetSem.
