(* ===== verification/ResetRun.v ===== *)
(** * cmd/reset (main.go, logic.go, args.go, helpers.go): the tool

    Which structs are marked, the text of a generated file, the pass over the
    packages of a module with the files it writes and removes, and the search for
    the module's root.  [go/packages] and [go/format] are parameters; a run that the
    generator's recursion does not end is [None]. *)

From S2P Require Import Prelude GoStrings GoInt GoErrors Domain GoFloat GoTime Json ResetGen.
Open Scope Z_scope.

Module ResetRun.
Import Json GoTime ResetGen.

(** ** Marked structs *)

Definition marker : string := "generate:reset".

(** The text of one comment, its slashes or stars included. *)
Definition comment_marks (txt : string) : bool :=
  let txt := ToLower (TrimSpace txt) in
  let txt := TrimPrefix txt "//" in
  let txt := TrimPrefix txt "/*" in
  let txt := TrimSuffix txt "*/" in
  bool_decide (TrimSpace txt = "+" +:+ marker).

(** A comment group that may be missing. *)
Definition comment_group : Type := option (list string).

Definition check_group (cg : comment_group) : bool :=
  match cg with Some l => existsb comment_marks l | None => false end.

Definition hasMarker (genDoc specDoc : comment_group) : bool := check_group specDoc || check_group genDoc.

Inductive spec : Type :=
  | TypeSpec (name : string) (is_struct : bool) (doc : comment_group)
  | OtherSpec.

Inductive decl : Type :=
  | GenDecl (type_token : bool) (doc : comment_group) (specs : list spec)
  | OtherDecl.

(** What [packages.Load] says of a package.  [scope] finds the named type a name
    of the package stands for, if it does. *)
Record package : Type := mkPackage {
  PkgPath : string;
  Name : string;
  Errors : list string;
  CompiledGoFiles : list string;
  Syntax : list (list decl);
  scope : string → option type_name;
  underlying : type_name → gotype;
  methods : gotype → list method;
}.

Record targetStruct : Type := mkTarget { t_name : string; t_named : type_name }.

Definition spec_targets (p : package) (genDoc : comment_group) (s : spec) : list targetStruct :=
  match s with
  | TypeSpec name true doc =>
      if hasMarker genDoc doc then
        match scope p name with
        | Some named =>
            if hasResetMethod (methods p) (Named named) || hasResetMethod (methods p) (Pointer (Named named))
            then [] else [mkTarget name named]
        | None => []
        end
      else []
  | _ => []
  end.

Definition decl_targets (p : package) (d : decl) : list targetStruct :=
  match d with
  | GenDecl true doc specs => specs ≫= spec_targets p doc
  | _ => []
  end.

Definition target_le (a b : targetStruct) : Prop := str_le (t_name a) (t_name b).

#[export] Instance target_le_dec : RelDecision target_le.
Proof. intros a b. unfold target_le. apply _. Defined.

(** A name is declared once in a package, so how [sort.Slice] orders equal names
    does not matter. *)
Definition findTargetStructs (p : package) : list targetStruct :=
  merge_sort target_le (Syntax p ≫= λ f, f ≫= decl_targets p).

(** ** The text of a file *)

Inductive gen_error : Type := NotAStruct (name : string) | FormatError (err text : string).

(** The bodies of all methods; one import manager for all. *)
Fixpoint emit_targets (fuel : nat) (p : package) (ts : list targetStruct) (im : importManager) :
    option (result gen_error (list (string * list stmt) * importManager)) :=
  match ts with
  | [] => Some (Ok ([], im))
  | t :: ts =>
      match method_body (underlying p) (methods p) fuel (PkgPath p) (t_named t) im with
      | None => Some (Err (NotAStruct (t_name t)))
      | Some None => None
      | Some (Some (body, im)) =>
          r ← emit_targets fuel p ts im;
          Some (result_map (λ '(ms, im), ((t_name t, body) :: ms, im)) r)
      end
  end.

(** Each method has an empty line behind it. *)
Definition methods_text (ms : list (string * list stmt)) : string :=
  String.concat EmptyString ((λ '(name, body), print_method name body +:+ line 0 EmptyString) <$> ms).

(** [%q]; Go refuses import paths with characters it would escape. *)
Definition quote (path : string) : string := String dquote (path +:+ String dquote EmptyString).

Definition import_line (imp : string * string) : string :=
  let '(path, alias) := imp in
  if bool_decide (alias = EmptyString) then line 1 (quote path) else line 1 (alias +:+ " " +:+ quote path).

Definition import_block (imports : list (string * string)) : string :=
  match imports with
  | [] => EmptyString
  | _ => line 0 "import (" +:+ (String.concat EmptyString (import_line <$> imports) +:+
         (line 0 ")" +:+ line 0 EmptyString))
  end.

Definition file_text (p : package) (im : importManager) (ms : list (string * list stmt)) : string :=
  line 0 "// Code generated by cmd/reset; DO NOT EDIT." +:+ (line 0 EmptyString +:+
  (line 0 ("package " +:+ Name p) +:+ (line 0 EmptyString +:+
  (import_block (sortedImports im) +:+ methods_text ms)))).

(** Paths and contents. *)
Abbreviation files := (gmap string string).

Section tool.
(** [format.Source], and the paths that cannot be opened for reading or writing, or
    removed. *)
Context (Source : string → result string string) (read_error write_error remove_error : string → bool).

Definition generateResetFile (fuel : nat) (p : package) (ts : list targetStruct) :
    option (result gen_error string) :=
  r ← emit_targets fuel p ts (newImportManager (PkgPath p));
  Some (result_bind (λ '(ms, im),
    let text := file_text p im ms in
    match Source text with Ok src => Ok src | Err e => Err (FormatError e text) end) r).

(** ** The pass over the packages *)

(** [filepath.Dir] and [filepath.Join] of clean absolute paths. *)
Definition Dir (path : string) : string :=
  match cut_last "/"%char path with
  | Some (EmptyString, _) => "/"
  | Some (dir, _) => dir
  | None => "."
  end.

Definition Join (dir name : string) : string :=
  if bool_decide (dir = "/") then dir +:+ name else dir +:+ "/" +:+ name.

Inductive fatal : Type :=
  | LoadError (err : string)
  | LoadErrors (errs : list string)
  | RemoveError (path : string)
  | GenerateError (pkg : string) (err : gen_error)
  | WriteError (path : string)
  | NoModule (wd : string)
  | GetwdError (err : string).

Definition outPath (p : package) : string := Join (Dir (default EmptyString (head (CompiledGoFiles p)))) "reset.gen.go".

(** One package: the count of changes behind it, or the message the tool dies
    with, and the files. *)
Definition package_step (fuel : nat) (p : package) (changed : nat) (disk : files) :
    option (result fatal nat * files) :=
  if bool_decide (Errors p ≠ []) then Some (Err (LoadErrors (Errors p)), disk)
  else if bool_decide (CompiledGoFiles p = []) then Some (Ok changed, disk)
  else
    let targets := findTargetStructs p in
    let out := outPath p in
    if bool_decide (targets = []) then
      match disk !! out with
      | None => Some (Ok changed, disk)
      | Some _ => Some (if remove_error out then (Err (RemoveError out), disk)
                        else (Ok (S changed), delete out disk))
      end
    else
      r ← generateResetFile fuel p targets;
      Some match r with
           | Err e => (Err (GenerateError (PkgPath p) e), disk)
           | Ok src =>
               if negb (read_error out) && bool_decide (disk !! out = Some src) then (Ok changed, disk)
               else if write_error out then (Err (WriteError out), disk)
               else (Ok (S changed), <[out := src]> disk)
           end.

Fixpoint packages_loop (fuel : nat) (pkgs : list package) (changed : nat) (disk : files) :
    option (result fatal nat * files) :=
  match pkgs with
  | [] => Some (Ok changed, disk)
  | p :: pkgs =>
      '(r, disk) ← package_step fuel p changed disk;
      match r with Ok changed => packages_loop fuel pkgs changed disk | Err e => Some (Err e, disk) end
  end.

(** [Load] is [packages.Load] in a directory; the count is the last line logged. *)
Definition processPackages (fuel : nat) (Load : string → result string (list package)) (root : string)
    (disk : files) : option (result fatal nat * files) :=
  match Load root with
  | Err e => Some (Err (LoadError e), disk)
  | Ok pkgs => packages_loop fuel pkgs 0 disk
  end.

(** ** The root of the module *)

(** The outer option is fuel, the inner one the end of the search at the top. *)
Fixpoint root_loop (has_file : string → bool) (fuel : nat) (dir : string) : option (option string) :=
  match fuel with
  | O => None
  | S fuel =>
      if has_file (Join dir "go.mod") then Some (Some dir)
      else let parent := Dir dir in
           if bool_decide (parent = dir) then Some None else root_loop has_file fuel parent
  end.

Definition findModuleRoot (has_file : string → bool) (Getwd : result string string) :
    option (result fatal string) :=
  match Getwd with
  | Err e => Some (Err (GetwdError e))
  | Ok wd =>
      r ← root_loop has_file (S (String.length wd)) wd;
      Some match r with Some dir => Ok dir | None => Err (NoModule wd) end
  end.

Definition main (fuel : nat) (has_file : string → bool) (Getwd : result string string)
    (Load : string → result string (list package)) (disk : files) : option (result fatal nat * files) :=
  r ← findModuleRoot has_file Getwd;
  match r with
  | Err e => Some (Err e, disk)
  | Ok root => processPackages fuel Load root disk
  end.
End tool.
End ResetRun.
