(* ===== verification/ResetSpec.v ===== *)
(** * cmd/reset: the tool's contracts

    The import table of a generated file, the pass over the packages, what a second
    run does, and the search for go.mod. *)

From S2P Require Import Prelude GoStrings GoInt GoErrors Domain GoFloat GoTime Json ResetGen ResetRun.
Open Scope Z_scope.

Module ResetSpec.
Import Json GoTime ResetGen ResetRun.

(** ** Imports *)

Lemma str_app_inj_l (s t u : string) : s +:+ t = s +:+ u → t = u.
Proof. induction s as [|c s IH]; [done|]. rewrite !str_app_cons. intros [= H]. by apply IH. Qed.

Lemma str_app_longer (s t : string) : t ≠ EmptyString → s +:+ t ≠ s.
Proof. intros Ht H. apply Ht. eapply str_app_inj_l. by rewrite str_app_nil_r. Qed.

Lemma FormatInt_inj a b : in_int64 a → in_int64 b → FormatInt a = FormatInt b → a = b.
Proof. intros Ha Hb H. apply ParseInt_FormatInt in Ha. rewrite H, ParseInt_FormatInt in Ha by done. by injection Ha. Qed.

Lemma free_alias_tried fuel base used : ∀ i, free_alias fuel base i used ∈ used →
  ∀ k, (k ≤ fuel)%nat → base +:+ FormatInt (i + Z.of_nat k) ∈ used.
Proof.
  induction fuel as [|fuel IH]; intros i Hin k Hk; simpl in Hin.
  - assert (k = 0%nat) as -> by lia. by rewrite Z.add_0_r.
  - case_bool_decide as Hi; [|done]. destruct k as [|k]; [by rewrite Z.add_0_r|].
    replace (i + Z.of_nat (S k)) with (i + 1 + Z.of_nat k) by lia. apply IH; [done|lia].
Qed.

(** As many tries as aliases are taken find a free one. *)
Lemma free_alias_fresh base used : Z.of_nat (size used) < 2 ^ 62 → free_alias (size used) base 2 used ∉ used.
Proof.
  intros Hsize Hin. pose proof (free_alias_tried _ _ _ _ Hin) as Htried.
  set (names := (λ k, base +:+ FormatInt (2 + Z.of_nat k)) <$> seq 0 (S (size used))).
  assert (NoDup names) as Hnd.
  { apply NoDup_fmap_2_strong; [|apply NoDup_seq]. intros j k Hj Hk H%str_app_inj_l.
    apply elem_of_seq in Hj, Hk. apply FormatInt_inj in H; [lia|..]; wrap_lia. }
  assert ((list_to_set names : gset string) ⊆ used) as Hsub.
  { intros s. rewrite elem_of_list_to_set. unfold names. rewrite list_elem_of_fmap. intros (k & -> & Hk).
    apply elem_of_seq in Hk. apply Htried. lia. }
  apply subseteq_size in Hsub. rewrite size_list_to_set in Hsub by done.
  unfold names in Hsub. rewrite length_fmap, length_seq in Hsub. lia.
Qed.

(** The table of imports: its aliases are recorded as taken, and no two paths share
    one. *)
Record good (im : importManager) : Prop := {
  recorded : ∀ p a, byPath im !! p = Some a → a ∈ usedAlias im;
  distinct : ∀ p q a, byPath im !! p = Some a → byPath im !! q = Some a → p = q;
  not_local : byPath im !! localPkgPath im = None;
}.

(** Nothing is taken back from a table. *)
Record grows (im im' : importManager) : Prop := {
  grows_local : localPkgPath im' = localPkgPath im;
  grows_paths : byPath im ⊆ byPath im';
  grows_used : usedAlias im ⊆ usedAlias im';
}.

#[export] Instance grows_preorder : PreOrder grows.
Proof.
  split; [by intros im; split|]. intros a b c [L1 P1 U1] [L2 P2 U2].
  split; [by rewrite L2|by etransitivity|set_solver].
Qed.

Definition bounded (im : importManager) : Prop := Z.of_nat (size (usedAlias im)) < 2 ^ 62.

Lemma bounded_grows im im' : grows im im' → bounded im' → bounded im.
Proof. intros [_ _ Hu] Hb. apply subseteq_size in Hu. unfold bounded in *. lia. Qed.

(** [f] keeps the table in order, and answers the same from any later table. *)
Definition steady {A} (f : importManager → A * importManager) : Prop := ∀ im a im', f im = (a, im') →
  grows im im' ∧ (good im → bounded im' → good im') ∧ ∀ im2, grows im' im2 → f im2 = (a, im2).

Lemma steady_ret {A} (a : A) : steady (λ im, (a, im)).
Proof. intros im b im' [= <- <-]. done. Qed.

Lemma steady_bind {A B} (f : importManager → A * importManager) (k : A → importManager → B * importManager) :
  steady f → (∀ a, steady (k a)) → steady (λ im, let '(a, im) := f im in k a im).
Proof.
  intros Hf Hk im b im' H. destruct (f im) as [a im1] eqn:H1.
  destruct (Hf _ _ _ H1) as (G1 & O1 & S1). destruct (Hk _ _ _ _ H) as (G2 & O2 & S2).
  split; [by etransitivity|]. split.
  - intros Hg Hb. apply O2; [|done]. apply O1; [done|]. by eapply bounded_grows.
  - intros im2 Hg. rewrite S1 by (by etransitivity). by apply S2.
Qed.

Lemma qualifier_steady n : steady (qualifier n).
Proof.
  intros im s im'. unfold qualifier. case_bool_decide as Hl.
  { intros [= <- <-]. split; [done|]. split; [done|]. intros im2 [HL _ _].
    rewrite HL, bool_decide_true by done. done. }
  destruct (byPath im !! n_path n) as [alias|] eqn:Hp.
  { intros [= <- <-]. split; [done|]. split; [done|]. intros im2 [HL HP _].
    rewrite HL, bool_decide_false by done. by rewrite (lookup_weaken _ _ _ _ Hp HP). }
  set (alias := if bool_decide _ then _ else _). intros [= <- <-]. split; [|split].
  - split; simpl; [done|by apply insert_subseteq|set_solver].
  - intros [Hr Hd Hn] Hb. assert (alias ∉ usedAlias im) as Hfresh.
    { unfold alias. case_bool_decide; [|done]. apply free_alias_fresh. unfold bounded in Hb. simpl in Hb.
      pose proof (subseteq_size (usedAlias im) ({[alias]} ∪ usedAlias im) ltac:(set_solver)). lia. }
    split; simpl.
    + intros p a. rewrite lookup_insert_Some. intros [[_ <-]|[_ H]]; [set_solver|]. apply Hr in H. set_solver.
    + intros p q a. rewrite !lookup_insert_Some. intros [[<- <-]|[Hp1 H1]] [[<- Ha]|[Hq1 H2]]; try done.
      * by apply Hr in H2.
      * subst a. by apply Hr in H1.
      * by eapply Hd.
    + rewrite lookup_insert_ne by done. done.
  - intros im2 [HL HP _]. simpl in HL, HP. rewrite HL, bool_decide_false by done.
    rewrite (lookup_weaken _ _ (n_path n) alias ltac:(by rewrite lookup_insert_eq) HP). done.
Qed.

Lemma named_text_steady n : steady (named_text n).
Proof. apply steady_bind; [apply qualifier_steady|]. intros q. apply steady_ret. Qed.

Lemma parts_text_steady parts : steady (parts_text parts).
Proof.
  induction parts as [|[s|n] parts IH]; cbn [parts_text]; [apply steady_ret|..].
  - apply steady_bind; [done|]. intros r. apply steady_ret.
  - apply steady_bind; [apply named_text_steady|]. intros s. apply steady_bind; [done|]. intros r. apply steady_ret.
Qed.

(** Induction that reaches the fields of a struct. *)
Section gotype_induction.
Context (P : gotype → Prop).
Context (HBasic : ∀ k text, P (Basic k text)) (HSlice : ∀ e, P e → P (Slice e))
  (HMap : ∀ k e, P k → P e → P (Map k e)) (HPointer : ∀ e, P e → P (Pointer e))
  (HStruct : ∀ fs, Forall (λ ft, P ft.2) fs → P (Struct fs)) (HArray : ∀ n e, P e → P (Array n e))
  (HOpaque : ∀ parts, P (Opaque parts)) (HNamed : ∀ n, P (Named n)).

Fixpoint gotype_deep_ind (t : gotype) : P t :=
  match t with
  | Basic k text => HBasic k text
  | Slice e => HSlice e (gotype_deep_ind e)
  | Map k e => HMap k e (gotype_deep_ind k) (gotype_deep_ind e)
  | Pointer e => HPointer e (gotype_deep_ind e)
  | Struct fs => HStruct fs
      ((fix go (fs : list (string * gotype)) : Forall (λ ft, P ft.2) fs :=
          match fs with
          | [] => Forall_nil_2 _
          | ft :: fs => Forall_cons_2 _ ft fs (gotype_deep_ind ft.2) (go fs)
          end) fs)
  | Array n e => HArray n e (gotype_deep_ind e)
  | Opaque parts => HOpaque parts
  | Named n => HNamed n
  end.
End gotype_induction.

Lemma typeString_steady t : steady (typeString t).
Proof.
  induction t using gotype_deep_ind; cbn [typeString].
  - apply steady_ret.
  - apply steady_bind; [done|]. intros s. apply steady_ret.
  - apply steady_bind; [done|]. intros sk. apply steady_bind; [done|]. intros se. apply steady_ret.
  - apply steady_bind; [done|]. intros s. apply steady_ret.
  - apply steady_bind; [|intros s; apply steady_ret].
    induction H as [|[f t] fs Ht Hfs IH]; [apply steady_ret|]. destruct fs as [|ft fs].
    + apply steady_bind; [done|]. intros s. apply steady_ret.
    + apply steady_bind; [done|]. intros s. apply steady_bind; [exact IH|]. intros r. apply steady_ret.
  - apply steady_bind; [done|]. intros s. apply steady_ret.
  - apply parts_text_steady.
  - apply named_text_steady.
Qed.

(** The types the statements spell out, with their texts. *)
Fixpoint spellings (s : stmt) : list (gotype * string) :=
  match s with
  | Composite _ _ t text => [(t, text)]
  | IfNotNil _ _ body => flat_map spellings body
  | _ => []
  end.

(** What the table [im] makes of the types is what was written. *)
Definition spelled (im : importManager) (l : list stmt) : Prop :=
  Forall (λ ts, typeString ts.1 im = (ts.2, im)) (flat_map spellings l).

Lemma spelled_app im l1 l2 : spelled im (l1 ++ l2) ↔ spelled im l1 ∧ spelled im l2.
Proof. unfold spelled. by rewrite flat_map_app, Forall_app. Qed.

Lemma spelled_grows im im' l : grows im im' → spelled im l → spelled im' l.
Proof.
  intros Hg Hs. eapply Forall_impl; [exact Hs|]. intros [t s] Ht.
  destruct (typeString_steady t _ _ _ Ht) as (_ & _ & Hst). by apply Hst.
Qed.

(** An emission keeps the table in order and spells by it. *)
Definition tidy (im : importManager) (r : list stmt * importManager) : Prop :=
  grows im r.2 ∧ (good im → bounded r.2 → good r.2) ∧ spelled r.2 r.1.

Definition tidy_emitter (emit : emitter) : Prop := ∀ e t im r, emit e t im = Some r → tidy im r.

Lemma tidy_plain im s : spellings s = [] → tidy im ([s], im).
Proof. intros Hs. split; [done|]. split; [done|]. unfold spelled. simpl. rewrite Hs. constructor. Qed.

Lemma tidy_composite i e t im : tidy im (let '(s, im) := typeString t im in ([Composite i e t s], im)).
Proof.
  destruct (typeString t im) as [s im'] eqn:Ht. destruct (typeString_steady t _ _ _ Ht) as (Hg & Ho & Hs).
  split; [done|]. split; [done|]. apply Forall_cons. split; [by apply Hs|constructor].
Qed.

Lemma tidy_if i e im body im' : tidy im (body, im') → tidy im ([IfNotNil i e body], im').
Proof.
  intros (Hg & Ho & Hs). split; [done|]. split; [done|]. unfold spelled in *. simpl in *.
  by rewrite app_nil_r.
Qed.

Lemma tidy_fields emit e fs : tidy_emitter emit → ∀ im r, emit_fields emit e fs im = Some r → tidy im r.
Proof.
  intros He. induction fs as [|[f t] fs IH]; intros im r; simpl.
  - intros [= <-]. split; [done|]. split; [done|constructor].
  - destruct (emit _ t im) as [[l1 im1]|] eqn:H1; simpl; [|done].
    destruct (emit_fields emit e fs im1) as [[l2 im2]|] eqn:H2; simpl; [|done]. intros [= <-].
    destruct (He _ _ _ _ H1) as (G1 & O1 & S1). destruct (IH _ _ H2) as (G2 & O2 & S2). simpl in *.
    split; [by etransitivity|]. split.
    + intros Hg Hb. apply O2; [|done]. apply O1; [done|]. by eapply bounded_grows.
    + apply spelled_app. split; [by eapply spelled_grows|done].
Qed.

Section emission.
Context (underlying_of : type_name → gotype) (method_set : gotype → list method).

Lemma zeroExpr_tidy i e t im : match Underlying underlying_of t with Struct _ | Array _ _ => False | _ => True end →
  tidy im (let '(s, im) := zeroExpr underlying_of t im in ([Zero i e s], im)).
Proof. unfold zeroExpr. destruct (Underlying underlying_of t); try done; intros _; by apply tidy_plain. Qed.

Lemma tidy_step ex th local : tidy_emitter ex → tidy_emitter th →
  tidy_emitter (for_expr underlying_of method_set ex th local) ∧
  tidy_emitter (through_pointer underlying_of method_set ex th local).
Proof.
  intros Hex Hth. split; intros e t im r; unfold for_expr, through_pointer; cbv zeta.
  - pose proof (zeroExpr_tidy 1 e t im) as Hz. pose proof (tidy_composite 1 e t im) as Hc.
    destruct (Underlying underlying_of t) as [| | |el|fs| | |].
    all: try (intros [= <-]; by apply tidy_plain).
    + destruct (th e el im) as [[b im1]|] eqn:Hb; simpl; [|done]. intros [= <-]. apply tidy_if. by eapply Hth.
    + destruct (hasResetMethod _ _); [intros [= <-]; by apply tidy_plain|].
      destruct (hasResetMethod _ _); [intros [= <-]; by apply tidy_plain|].
      destruct (accessibleStruct _ _ _); [by apply tidy_fields|].
      destruct (typeString t im) as [s im1]. by intros [= <-].
    + destruct (typeString t im) as [s im1]. by intros [= <-].
    + destruct (zeroExpr _ t im) as [s im1]. intros [= <-]. by apply Hz.
    + destruct (zeroExpr _ t im) as [s im1]. intros [= <-]. by apply Hz.
  - pose proof (zeroExpr_tidy 2 ("*" +:+ e) t im) as Hz. pose proof (tidy_composite 2 ("*" +:+ e) t im) as Hc.
    destruct (Underlying underlying_of t) as [| | |el|fs| | |].
    all: try (intros [= <-]; by apply tidy_plain).
    + destruct (th _ el im) as [[b im1]|] eqn:Hb; simpl; [|done]. intros [= <-]. apply tidy_if. by eapply Hth.
    + destruct (hasResetMethod _ _); [intros [= <-]; by apply tidy_plain|].
      destruct (accessibleStruct _ _ _); [by apply tidy_fields|].
      destruct (typeString t im) as [s im1]. by intros [= <-].
    + destruct (typeString t im) as [s im1]. by intros [= <-].
    + destruct (zeroExpr _ t im) as [s im1]. intros [= <-]. by apply Hz.
    + destruct (zeroExpr _ t im) as [s im1]. intros [= <-]. by apply Hz.
Qed.

Lemma emitters_tidy fuel local : tidy_emitter (emitResetForExpr underlying_of method_set fuel local) ∧
  tidy_emitter (emitResetThroughPointer underlying_of method_set fuel local).
Proof.
  induction fuel as [|fuel [IHe IHp]]; [split; intros e t im r; discriminate|]. exact (tidy_step _ _ _ IHe IHp).
Qed.
End emission.

Lemma emit_targets_tidy fuel p ts : ∀ im ms im', emit_targets fuel p ts im = Some (Ok (ms, im')) →
  grows im im' ∧ (good im → bounded im' → good im') ∧ Forall (λ m, spelled im' m.2) ms.
Proof.
  induction ts as [|t ts IH]; intros im ms im'; simpl.
  - intros [= <- <-]. split; [done|]. split; [done|constructor].
  - unfold method_body. destruct (underlying p (t_named t)); try done.
    destruct (emit_fields _ _ _ im) as [[body im1]|] eqn:Hb; [|done].
    destruct (emit_targets fuel p ts im1) as [[[ms1 im2]|e]|] eqn:Hr; simpl; [|done..]. intros [= <- <-].
    destruct (tidy_fields _ _ _ (proj1 (emitters_tidy _ _ _ _)) _ _ Hb) as (G1 & O1 & S1).
    destruct (IH _ _ _ Hr) as (G2 & O2 & S2). simpl in *. split; [by etransitivity|]. split.
    + intros Hg Hbd. apply O2; [|done]. apply O1; [done|]. by eapply bounded_grows.
    + constructor; [|done]. by eapply spelled_grows.
Qed.

Lemma newImportManager_good path : good (newImportManager path).
Proof. split; simpl; [intros p a|intros p q a|]; by rewrite ?lookup_empty. Qed.

Lemma sortedImports_paths im : (sortedImports im).*1 = SortStrings (map_to_list (byPath im)).*1.
Proof. unfold sortedImports. rewrite <- list_fmap_compose. by rewrite list_fmap_id. Qed.

(** [C24] The import table of a generated file: no two packages share an alias, the
    package itself is not imported, every type the methods spell out is spelled with
    the aliases of the finished table, and the import block lists every package used
    once, in order. *)
Theorem imports_ok fuel p ts ms im :
  emit_targets fuel p ts (newImportManager (PkgPath p)) = Some (Ok (ms, im)) → bounded im →
  (∀ path path' a, byPath im !! path = Some a → byPath im !! path' = Some a → path = path') ∧
  byPath im !! PkgPath p = None ∧
  Forall (λ m, spelled im m.2) ms ∧
  StronglySorted str_le (sortedImports im).*1 ∧ NoDup (sortedImports im).*1 ∧
  ∀ path, path ∈ (sortedImports im).*1 ↔ is_Some (byPath im !! path).
Proof.
  intros He Hb. destruct (emit_targets_tidy _ _ _ _ _ _ He) as ([HL _ _] & Ho & Hs).
  destruct (Ho (newImportManager_good _) Hb) as [_ Hd Hn]. rewrite HL in Hn.
  split; [done|]. split; [done|]. split; [done|]. rewrite sortedImports_paths.
  split; [apply SortStrings_sorted|]. pose proof (SortStrings_perm (map_to_list (byPath im)).*1) as Hp.
  split.
  - rewrite Hp. apply NoDup_fst_map_to_list.
  - intros path. rewrite Hp, list_elem_of_fmap. split.
    + intros ([q a] & -> & H). apply elem_of_map_to_list in H. by eexists.
    + intros [a H]. exists (path, a). split; [done|]. by apply elem_of_map_to_list.
Qed.

(** ** Which structs are meant *)

Lemma elem_of_targets p t : t ∈ findTargetStructs p ↔
  ∃ f d, f ∈ Syntax p ∧ d ∈ f ∧ t ∈ decl_targets p d.
Proof.
  unfold findTargetStructs. rewrite (merge_sort_Permutation target_le). rewrite list_elem_of_bind. split.
  - intros (f & (d & Ht & Hd)%list_elem_of_bind & Hf). by exists f, d.
  - intros (f & d & Hf & Hd & Ht). exists f. split; [|done]. apply list_elem_of_bind. by exists d.
Qed.

Lemma elem_of_decl_targets p d t : t ∈ decl_targets p d ↔ ∃ doc specs name sdoc,
  d = GenDecl true doc specs ∧ TypeSpec name true sdoc ∈ specs ∧ hasMarker doc sdoc = true ∧
  scope p name = Some (t_named t) ∧ t_name t = name ∧
  hasResetMethod (methods p) (Named (t_named t)) = false ∧
  hasResetMethod (methods p) (Pointer (Named (t_named t))) = false.
Proof.
  split.
  - destruct d as [[|] doc specs|]; simpl; try by intros ?%elem_of_nil.
    rewrite list_elem_of_bind. intros (s & Ht & Hs). destruct s as [name [|] sdoc|]; simpl in Ht; try by apply elem_of_nil in Ht.
    destruct (hasMarker doc sdoc) eqn:Hm; [|by apply elem_of_nil in Ht].
    destruct (scope p name) as [nm|] eqn:Hsc; [|by apply elem_of_nil in Ht].
    destruct (hasResetMethod (methods p) (Named nm)) eqn:H1; [by apply elem_of_nil in Ht|].
    destruct (hasResetMethod (methods p) (Pointer (Named nm))) eqn:H2; [by apply elem_of_nil in Ht|].
    apply list_elem_of_singleton in Ht as ->. exists doc, specs, name, sdoc. done.
  - intros (doc & specs & name & sdoc & -> & Hs & Hm & Hsc & Hn & H1 & H2). simpl. apply list_elem_of_bind.
    exists (TypeSpec name true sdoc). split; [|done]. simpl. rewrite Hm, Hsc, H1, H2. simpl.
    apply list_elem_of_singleton. destruct t. by simpl in *; subst.
Qed.













(** ** The pass over the packages *)
Section pass.
Context (Source : string → result string string) (read_error write_error remove_error : string → bool).
#[local] Abbreviation step := (package_step Source read_error write_error remove_error).
#[local] Abbreviation loop := (packages_loop Source read_error write_error remove_error).
#[local] Abbreviation generate := (generateResetFile Source).

Definition works (p : package) : Prop := CompiledGoFiles p ≠ [].








#[local] Instance target_le_total : Total target_le.
Proof. intros a b. unfold target_le. apply str_le_total. Qed.

#[local] Instance target_le_trans : Transitive target_le.
Proof. intros a b c. unfold target_le. apply str_le_trans. Qed.



(** ** A second run *)

(** The package as loaded when its generated file is in place: a file of imports and
    methods more, and the types the file was written for have the method [Reset]. *)
Record reloaded (p p' : package) : Prop := {
  same_errors : Errors p' = [];
  same_out : outPath p' = outPath p;
  some_files : CompiledGoFiles p' ≠ [];
  more_syntax : ∃ f, Syntax p' = Syntax p ++ [f] ∧ Forall (λ d, decl_targets p' d = []) f;
  same_scope : scope p' = scope p;
  keeps_methods : ∀ t, hasResetMethod (methods p) t = true → hasResetMethod (methods p') t = true;
  has_generated : ∀ t, t ∈ findTargetStructs p →
    hasResetMethod (methods p') (Pointer (Named (t_named t))) = true;
}.

Lemma reloaded_targets p p' : reloaded p p' → findTargetStructs p' = [].
Proof.
  intros [_ _ _ (f & Hsyn & Hf) Hscope Hkeep Hgen].
  destruct (findTargetStructs p') as [|t ts] eqn:Ht; [done|]. exfalso.
  assert (t ∈ findTargetStructs p') as Hin by (rewrite Ht; left).
  apply elem_of_targets in Hin as (g & d & Hg & Hd & Hdt). rewrite Hsyn in Hg.
  apply elem_of_app in Hg as [Hg|Hg%list_elem_of_singleton].
  - apply elem_of_decl_targets in Hdt as (doc & specs & name & sdoc & -> & Hs & Hm & Hsc & Hn & H1 & H2).
    assert (t ∈ findTargetStructs p) as Hp.
    { apply elem_of_targets. exists g, (GenDecl true doc specs). split; [done|]. split; [done|].
      apply elem_of_decl_targets. exists doc, specs, name, sdoc. rewrite <- Hscope.
      destruct (hasResetMethod (methods p) (Named (t_named t))) eqn:K1; [by rewrite Hkeep in H1|].
      destruct (hasResetMethod (methods p) (Pointer (Named (t_named t)))) eqn:K2; [by rewrite Hkeep in H2|].
      done. }
    by rewrite (Hgen t Hp) in H2.
  - subst g. rewrite Forall_forall in Hf. rewrite (Hf d Hd) in Hdt. by apply elem_of_nil in Hdt.
Qed.

(** The tool undoes its own work: a first run writes the methods of the marked
    structs, the second one finds them in its own output, takes the structs for
    finished and removes the file, which leaves the files as they were before. *)
Theorem runs_alternate fuel p p' src disk n : reloaded p p' → Errors p = [] → works p →
  findTargetStructs p ≠ [] → generate fuel p (findTargetStructs p) = Some (Ok src) →
  read_error (outPath p) = false → write_error (outPath p) = false → remove_error (outPath p) = false →
  disk !! outPath p = None →
  ∃ disk1, step fuel p n disk = Some (Ok (S n), disk1) ∧ disk1 !! outPath p = Some src ∧
    step fuel p' n disk1 = Some (Ok (S n), disk).
Proof.
  intros Hre Herr Hw Hne Hgen Hr Hwr Hrm Hd. exists (<[outPath p := src]> disk).
  assert (step fuel p n disk = Some (Ok (S n), <[outPath p := src]> disk)) as Hstep.
  { unfold package_step. rewrite Herr, bool_decide_false by naive_solver. rewrite bool_decide_false by done.
    cbv zeta. rewrite bool_decide_false by done. rewrite Hgen. simpl.
    rewrite Hr, Hd, bool_decide_false by done. simpl. by rewrite Hwr. }
  split; [done|]. split; [apply lookup_insert_eq|].
  pose proof (reloaded_targets _ _ Hre) as Ht. destruct Hre as [He Ho Hf _ _ _ _].
  unfold package_step. rewrite He, bool_decide_false by naive_solver. rewrite bool_decide_false by done.
  cbv zeta. rewrite Ht, bool_decide_true by done. rewrite Ho, lookup_insert_eq, Hrm.
  by rewrite delete_insert_id.
Qed.
End pass.

(** ** The root of the module *)

Definition rooted (path : string) : Prop := HasPrefix path "/" = true.

Lemma cut_last_app c s a b : cut_last c s = Some (a, b) → s = a +:+ String c b.
Proof.
  revert a b. induction s as [|d s IH]; intros a b; [done|]. simpl.
  destruct (cut_last c s) as [[a' b']|].
  - intros [= <- <-]. by rewrite (IH a' b' eq_refl), str_app_cons.
  - case_bool_decide; [|done]. by intros [= <- <-]; subst.
Qed.

Lemma cut_last_some c s : is_Some (cut_last c (String c s)).
Proof. simpl. destruct (cut_last c s) as [[a b]|]; [by eexists|]. rewrite bool_decide_true by done. by eexists. Qed.

Lemma rooted_cons s : rooted s ↔ ∃ s', s = String "/"%char s'.
Proof. unfold rooted. rewrite HasPrefix_true. by split. Qed.

(** The directory above is shorter, up to the top. *)
Lemma Dir_rooted s : rooted s → rooted (Dir s) ∧ (Dir s ≠ s → (String.length (Dir s) < String.length s)%nat).
Proof.
  intros [s' ->]%rooted_cons. unfold Dir. destruct (cut_last_some "/"%char s') as [[a b] H]. rewrite H.
  apply cut_last_app in H. rewrite H. destruct a as [|c a].
  - split; [done|]. destruct b; [by intros ?|]. intros _. simpl. lia.
  - rewrite str_app_cons in H. injection H as <- Hs. split; [done|]. intros _. rewrite str_app_length. simpl. lia.
Qed.

(** The [k]-th directory above. *)
Definition above (k : nat) (dir : string) : string := Nat.iter k Dir dir.

Lemma above_S k dir : above (S k) dir = above k (Dir dir).
Proof. unfold above. induction k as [|k IH]; [done|]. simpl in *. by rewrite IH. Qed.

Lemma above_top k dir : Dir dir = dir → above k dir = dir.
Proof. intros Hd. induction k as [|k IH]; [done|]. by rewrite above_S, Hd. Qed.

Lemma root_loop_nearest has_file fuel : ∀ dir, rooted dir → (String.length dir < fuel)%nat →
  (∃ k, root_loop has_file fuel dir = Some (Some (above k dir)) ∧ has_file (Join (above k dir) "go.mod") = true ∧
    ∀ j, (j < k)%nat → has_file (Join (above j dir) "go.mod") = false) ∨
  (root_loop has_file fuel dir = Some None ∧ ∀ j, has_file (Join (above j dir) "go.mod") = false).
Proof.
  induction fuel as [|fuel IH]; intros dir Hr Hf; [lia|]. cbn [root_loop].
  destruct (has_file (Join dir "go.mod")) eqn:Hh.
  { left. exists 0%nat. split; [done|]. split; [done|]. lia. }
  destruct (Dir_rooted dir Hr) as [Hr' Hlen]. cbv zeta. case_bool_decide as Htop.
  { right. split; [done|]. intros j. by rewrite above_top. }
  specialize (Hlen Htop). destruct (IH (Dir dir) Hr' ltac:(lia)) as [(k & Hl & Hk & Hj)|[Hl Hj]].
  - left. exists (S k). rewrite above_S. split; [done|]. split; [done|]. intros [|j] Hjk; [done|].
    rewrite above_S. apply Hj. lia.
  - right. split; [done|]. intros [|j]; [done|]. rewrite above_S. apply Hj.
Qed.

(** The search for the module's root always ends: with the nearest directory
    from the working directory upwards that has a go.mod, or with the error that
    names the working directory when none has. *)
Theorem findModuleRoot_nearest has_file wd : rooted wd →
  (∃ k, findModuleRoot has_file (Ok wd) = Some (Ok (above k wd)) ∧
    has_file (Join (above k wd) "go.mod") = true ∧
    ∀ j, (j < k)%nat → has_file (Join (above j wd) "go.mod") = false) ∨
  (findModuleRoot has_file (Ok wd) = Some (Err (NoModule wd)) ∧
    ∀ j, has_file (Join (above j wd) "go.mod") = false).
Proof.
  intros Hr. unfold findModuleRoot.
  destruct (root_loop_nearest has_file (S (String.length wd)) wd Hr ltac:(lia)) as [(k & -> & Hk)|[-> Hj]].
  - left. by exists k.
  - by right.
Qed.

(** ** Examples *)
Module Demo.

(** The comment the command's own documentation names is not a marker; the one its
    tests use is. *)
Lemma documented_marker_ignored :
  hasMarker (Some ["// generate:reset"]) (Some ["// generate:reset"]) = false ∧
  hasMarker (Some ["// +generate:reset"]) None = true ∧ hasMarker None (Some ["/* +Generate:Reset */"]) = true.
Proof. by vm_compute. Qed.

Definition here : string := "example.com/app".
Definition int : gotype := Basic Number "int".
Definition item : type_name := mkTypeName here "app" "Item".
Definition foo (path : string) : gotype := Named (mkTypeName path "foo" "T").

Definition demo_methods (t : gotype) : list method := [].
Definition done_methods (t : gotype) : list method :=
  match t with
  | Pointer (Named n) => if bool_decide (n = item) then [mkMethod "Reset" 0 0] else []
  | _ => []
  end.

Definition demo_under (n : type_name) : gotype :=
  if bool_decide (n = item) then Struct [("a", foo "a/foo"); ("b", foo "c/foo2"); ("n", int)] else Struct [].
Definition demo_scope (name : string) : option type_name :=
  if bool_decide (name = "Item") then Some item else None.
Definition item_decl : decl :=
  GenDecl true None [TypeSpec "Item" true (Some ["// Item is pooled."; "// +generate:reset"]); OtherSpec].

Definition app : package :=
  mkPackage here "app" [] ["/app/item.go"] [[OtherDecl; item_decl]] demo_scope demo_under demo_methods.
Definition app_again : package :=
  mkPackage here "app" [] ["/app/item.go"; "/app/reset.gen.go"]
    [[OtherDecl; item_decl]; [GenDecl false None [OtherSpec]; OtherDecl]] demo_scope demo_under done_methods.

Definition targets : list targetStruct := [mkTarget "Item" item].
Definition body : list stmt :=
  [Composite 1 "x.a" (foo "a/foo") "foo.T"; Composite 1 "x.b" (foo "c/foo2") "foo2.T"; Zero 1 "x.n" "0"].
Definition table : importManager :=
  mkImports here (<["c/foo2" := "foo2"]> {["a/foo" := "foo"]}) ({["foo2"]} ∪ {["foo"]}).

Lemma emitted_app : emit_targets 3 app targets (newImportManager here) = Some (Ok ([("Item", body)], table)).
Proof. by vm_compute. Qed.

(** Two packages named foo get the aliases foo and foo2. *)
Lemma imports_ok_witness :
  (∀ path path' a, byPath table !! path = Some a → byPath table !! path' = Some a → path = path') ∧
  (sortedImports table).*1 = ["a/foo"; "c/foo2"].
Proof.
  split; [|by vm_compute]. apply (imports_ok 3 app targets [("Item", body)] table); [exact emitted_app|].
  unfold bounded. by vm_compute.
Defined.

(** But an alias that happens to be the last segment of the path is left out, though
    the package there has another name: both lines bind foo, and foo2 is unknown. *)
Lemma alias_left_out : sortedImports table = [("a/foo", EmptyString); ("c/foo2", EmptyString)] ∧
  print_stmt (Composite 1 "x.b" (foo "c/foo2") "foo2.T") = line 1 "x.b = foo2.T{}".
Proof. by vm_compute. Qed.

(** The packages named inside a channel type are imported too. *)
Lemma channel_imports :
  let '(s, im) := typeString (Array 2 (Opaque [inl "chan "; inr (mkTypeName "bytes" "bytes" "Buffer")]))
    (newImportManager here) in s = "[2]chan bytes.Buffer" ∧ sortedImports im = [("bytes", EmptyString)].
Proof. by vm_compute. Qed.

(** Files that can be read, written and removed, and sources that need no layout. *)
Definition fine (path : string) : bool := false.
Definition as_is (text : string) : result string string := Ok text.
Definition generated : string := file_text app table [("Item", body)].


Lemma app_reloaded : reloaded app app_again.
Proof.
  split; [reflexivity|reflexivity|done| |reflexivity|done|].
  - eexists. split; [reflexivity|]. repeat constructor.
  - intros t Ht. assert (findTargetStructs app = targets) as H by (by vm_compute). rewrite H in Ht.
    by apply list_elem_of_singleton in Ht as ->.
Qed.

(** The package above: written, removed. *)
Lemma runs_alternate_witness : ∃ disk1 : gmap string string,
  disk1 !! outPath app = Some generated ∧
  package_step as_is fine fine fine 3 app_again 0 disk1 = Some (Ok 1%nat, ∅).
Proof.
  destruct (runs_alternate as_is fine fine fine 3 app app_again generated ∅ 0 app_reloaded eq_refl
    ltac:(done) ltac:(by vm_compute) ltac:(by vm_compute) eq_refl eq_refl eq_refl eq_refl)
    as (disk1 & _ & H1 & H2).
  exists disk1. split; [exact H1|exact H2].
Defined.

(** From a directory of a package up to the module. *)
Lemma findModuleRoot_nearest_witness :
  findModuleRoot (λ f, bool_decide (f = "/src/app/go.mod")) (Ok "/src/app/internal/util") = Some (Ok "/src/app").
Proof.
  destruct (findModuleRoot_nearest (λ f, bool_decide (f = "/src/app/go.mod")) "/src/app/internal/util" eq_refl)
    as [(k & H & Hk & Hj)|[_ Hj]].
  - destruct k as [|[|[|k]]]; [done|done|exact H|]. specialize (Hj 2%nat ltac:(lia)). done.
  - specialize (Hj 2%nat). done.
Defined.
End Demo.
End ResetSpec.
